(* ===== verification/_CoqProject ===== *)
-Q . S2P
Prelude.v
Types.v
Blocks.v
Tables.v
Prefix.v
Timing.v
Engine.v
Sinks.v
Sequence.v
Mock.v
Generator.v
Queue.v
Scheduler.v
Continuous.v
Static.v
Demo.v
Conservation.v
Batching.v
Pressure.v
StaticRun.v
LlamaEngine.v
HttpApi.v
Server.v
Main.v
Usage.v
KvAccounting.v
ContinuousRun.v
PrefixFaults.v
Serve.v
LlamaLifetime.v
Alone.v
Transparency.v
Capacity.v
TransparentRun.v
StaticTransparency.v
CalmRun.v
Transparent.v
LlamaAlone.v
LlamaMemory.v
Monitor.v
