(* ===== verification/Prelude.v ===== *)
(** * Verification of the microvllm serving core

    microvllm is an inference server: HTTP threads submit requests to a bounded
    queue, one scheduler thread owns the model engine and a paged KV cache and
    generates text for many requests at once, and results travel back through
    promises or streaming sinks.  This library models that serving core in Rocq,
    definition by definition, and proves what makes it correct.

    ** The parts and their files

    - [Prelude.v] (this file): machine integers with explicit wrap-around, vectors
      used as stacks, results of operations that may throw, the tactics, hint and
      rewrite databases, and generic lemmas.
    - [Types.v]: the value types of [include/microvllm/types.hpp] and
      [model_engine.hpp]; floating-point values are IEEE [spec_float]s.
    - [Blocks.v], module [BlockAllocator], and [Tables.v], module [BlockTable], and
      [Prefix.v], module [PrefixCache]: the three classes of
      [include/microvllm/block_allocator.hpp] and [src/core/block_allocator.cpp].
      The pool's abstract specification is [BlockAllocator.accounts]: the pool holds
      exactly a given multiset of references.
    - [Timing.v]: [timing.hpp] and [latency_histogram.hpp].
    - [Engine.v]: the interfaces [IModelEngine] and [ITokenSink] as type classes over
      the state of an engine or a sink, the engine's documented contract
      ([EngineContract]), and the cancellation flags as a shared memory.
    - [Sinks.v]: [CollectingSink] and [StreamingSink].
    - [Sequence.v], module [SequenceState]: the per-request state machine of
      [src/core/sequence_state.cpp].
    - [Mock.v], module [MockModelEngine]: the deterministic engine of
      [src/engine/mock_engine.cpp], an instance of the interface and its contract.
    - [Generator.v]: [generate_one] of [src/core/generator.cpp].
    - [Queue.v]: [request.hpp] and the class [RequestQueue].
    - [Scheduler.v], module [Scheduler]: the state of [src/core/scheduler.cpp] and its
      building blocks (construction, jobs, delivery, donors, retirement).
    - [Continuous.v], module [Continuous]: [preempt_one] and [run_continuous].
    - [Static.v], module [Static]: [run_batch], [run_static] and [run].
    - [Demo.v]: concrete schedulers on which theorems are evaluated.
    - [Conservation.v], [Batching.v], [Pressure.v], [StaticRun.v]: the theorems about
      the scheduler's bookkeeping, batches, memory pressure and static mode.
    - [KvAccounting.v] and [ContinuousRun.v]: the invariant of the KV cache (pool,
      prefix cache and tables together, [kv]) and its preservation by every phase of
      [run_continuous], with the theorems about whole runs; [PrefixFaults.v]: a
      hit on a whole prompt, and two defects of prefix retention as runs.
    - [LlamaEngine.v], module [LlamaModelEngine]: [src/engine/llama_engine.cpp], the
      other instance of the engine interface, over the llama.cpp C API as a class of
      parameters ([LlamaApi], [LlamaLaws]).
    - [HttpApi.v], module [HttpApi]: [src/http/http_api.cpp] over nlohmann::json as a
      class of parameters ([Json], [JsonLaws]).
    - [Server.v], module [Server]: the configuration, the handlers, the content provider
      and the metrics text of [src/http/server.cpp], as steps of threads over shared
      state ([sstep]).
    - [Main.v], module [Main]: the argument parser and the wiring of [src/main.cpp];
      [Usage.v], module [Usage]: the text of [usage] and [include/microvllm/version.hpp].
    - [LlamaLifetime.v], module [LlamaLifetime]: which operation of the llama.cpp engine
      acquires, uses and releases which C handle, from [LlamaBackend]'s construction to
      its destruction.
    - [Serve.v]: the handlers as the scheduler's environment, the scheduler thread that
      [serve] starts, drains and joins, and the shutdown protocol of main thread,
      watcher and scheduler thread, whose moves are iterations of its loop ([Shutdown]).
    - [Monitor.v]: the statements of [RequestQueue] and [StreamingSink] under their mutex
      and condition variable, as threads of a generic monitor (modules [QueueMonitor],
      [StreamMonitor]); [Queue.v] and [Sinks.v] have the same operations as atomic ones.
    - [Alone.v]: a model of engines as independent sequences ([SeqModel], [SeqLaws]; the
      mock is an instance) and the answers such a model gives to one request ([answers]):
      one for each context the engine may open for it, exactly one when the sampling is
      [seeded].
      [Transparency.v], [TransparentRun.v], [StaticTransparency.v] and [CalmRun.v]: what
      one decode, a continuous run, a static run and a run without incidents do to it;
      [Transparent.v]: the theorems about answers.  [LlamaAlone.v]: the llama.cpp engine
      is an instance too, over backends that keep sequences apart ([LlamaSeqLaws]) and
      whose logits do not depend on the shape of the batch ([LlamaExact]); partial copies
      are only assumed of a unified cache, and equal samplers only of equal non-zero seeds.
    - [Capacity.v]: the tokens of running sequences against the blocks they hold ([snug]),
      and the default size of the pool.  [LlamaMemory.v]: the cells llama.cpp holds against
      the tokens, and so against the blocks, and the composition of scheduler and engine
      over a backend with finite memory ([roomy]).

    ** How code becomes definitions

    An object is a record with the class's fields; a method takes the object (and
    the objects it points to) and returns the new ones beside its result.  Unsigned
    integers are [N] with the wrap of their width written where an operation can
    leave it; signed ones are [Z].  Exceptions are [res] values: in the
    core only [begin_sequence], [copy_sequence], [decode] and [vector::at] throw, and the state
    after a throw is kept.  The HTTP threads appear as a script of actions in the
    scheduler's [World]: one entry of it happens at each point where the scheduler
    thread looks at the queue or at a cancellation flag, so theorems that quantify
    over the script quantify over interleavings.  Time is a parameter, the readings
    of the clock.  Promises, sinks, flags and jobs are addresses; the results
    delivered and the answers of [try_push] are logs.

    ** What the theorems show

    - The pool refines reference accounting on every client history; allocation is
      all or nothing; freeing never corrupts; tables grow exactly and release only
      their own references; the block count and its 32-bit overflow.
    - The prefix cache finds the longest cached prefix, conserves its donor slots, and
      evicts strictly least recently used; insertion and lookup round-trip.
    - A sequence keeps the sink protocol whatever ends it, and streaming with
      held-back stop strings equals the unoptimised reference; chunked prefill equals
      whole prefill.
    - The queue is a bounded FIFO that loses nothing and drains after closing.  In every
      interleaving of threads over the mutex and condition variable of the queue or of a
      stream no wakeup is lost: threads come to rest, and at rest only a [pop] of an
      empty open queue, or a [next] of an empty stream, still waits.
    - Batching is transparent: for engines whose sequences do not influence each other,
      in either mode, an answer that ended by itself is one the model gives to that
      request alone; [generate_one] collects one too, the same when the request is
      seeded.  Prompts must have tokens; prefix caching takes prompts without hash
      collisions that do not end with a block, and donors an engine that decodes what it
      knows.  Both engines are such: for llama.cpp the answer is drawn by the request's own
      sampler from what the model infers from the request's own tokens.  When moreover
      nobody cancels, the engine decodes what it knows, and context and pool are large
      enough, continuous batching gives every accepted request such an answer.
    - Memory: without donors, whenever a batch is built, every position it writes lies in a
      block of its sequence; without prefix caching the tokens of all running sequences fit the blocks
      in use, the cells in llama.cpp are exactly the tokens fed, and a pool no larger than
      the context never lets llama.cpp run out of cells, under any pressure.  Scheduler
      and engine together then serve every request with the model's answer.
    - Continuous batching: no request is lost or answered twice on any outcome;
      sequence ids and donor slots stay distinct and inside the engine's range; batches respect the
      token budget, serve decodes first and make progress; every token reaches its
      job; admission is exact; preemption takes the newest eligible sequence; a
      starved sequence that fits gets its blocks, and nobody is preempted for it while a
      retained prefix is left.
    - The KV cache over whole runs: reference counts are exact at every iteration, with
      donors and under preemption; no block in use is free; leaks are bounded by the
      donor slots; without donors everything is returned; a hit on a running sequence
      is on a prefix it has submitted.  With room for a full batch and the donors,
      continuous batching answers everything and stops.
    - Static batching: every batch is answered in order within the budget of its
      longest request, and the loop serves everything and stops.
    - The llama.cpp engine hands the backend exactly the batch it was asked for, never
      refuses a batch the scheduler builds, honours the same contract as the mock,
      loses no text to its buffers, and releases every C handle exactly once.
    - The server: every step of an HTTP thread is a sequence of the actions the
      scheduler's theorems quantify over, and once the queue is closed the scheduler
      thread returns with everybody answered, in either mode; the shutdown protocol
      neither hangs nor closes the queue too early, counting the iterations the scheduler
      thread takes to drain.
    - A request body means what the API documents; requests and responses survive the
      wire; a streaming client receives every delta once and in order; the exported
      histograms are exact; no interleaving of HTTP threads mixes up requests; a
      command line can ask for any configuration, and what [main] launches is
      consistent; the usage text names every option with its default.
    - Defects, proved in general: every preemption sends a streaming client's request back
      to a sink that keeps what it has received ([preempted_stream_restarts]), a hit on a
      whole prompt submits its last token twice ([whole_hit_resubmits_last]), publishing
      over a retained prefix leaks its donor ([insert_over_donor_leaks]).
    - Counterexamples, as runs: the preemption policy can thrash without progress, a
      preempted stream repeats its text, a repeated prompt uses up the donors, leaked
      blocks let a sequence outgrow its table, a failed donor copy loses its slot, a
      prompt whose prefill failed is served from the cache, a hash collision is served as
      a hit, a hit on a whole prompt changes the answer.
    - Also: adopting a prefix after reserving breaks the documented table invariant, a prompt without tokens is
      decoded from garbage, a character split over two tokens breaks a stream, and
      large or negative numbers pass the checks of the command line and of the API.

    ** Bounds and fuel

    Inner loops recurse on the data they consume or on a bound that a lemma shows to
    be enough: the number of cache entries for the loops that reclaim donors
    ([reclaim_until_spec], [grow_by_donors_room]), the number of active jobs for the
    preemption loop ([grow_by_preempting_room]), the number of jobs for the prefill
    loop ([prefill_loop_spec]).  Only the loops that the code runs for ever take
    fuel.  For [generate_one] and [run_batch] the token budget plus two is enough and
    for [run_static] the number of requests to come plus one
    ([generate_terminates], [run_batch_answers], [static_serves_all]).  In a pool with
    room for a full batch of tables and a prompt per donor slot, [run_continuous] needs
    at most [K + 3] iterations for each request of at most [K] tokens
    ([continuous_serves_all]); in a smaller pool there is no bound:
    [preemption_thrashes] shows requests that make no progress, and the other theorems
    hold for every fuel.  The theorems about the KV cache ask that its counters fit 32
    bits ([fresh_width]): batch size times table limit plus a prompt per donor slot.

    ** What is not modelled, and the plan

    llama.cpp, nlohmann::json and cpp-httplib are not part of the repository: what the
    code calls of the first two are parameters with their documented laws, each with a
    small concrete instance ([ToyLlama], [CellLlama], [ToyJson]) on which the theorems
    are evaluated; of the third only when it calls the handlers matters.  Sockets, the
    library's thread pool and signal registration are left out; they only decide when
    handlers run, which the theorems quantify over.  Tests and benchmarks are not part of
    the program.  Every function of the implementation that changes state is modelled.
    What the theorems leave open: the thrashing for every number of iterations, the run
    without incidents in static mode, and the bound on llama.cpp's cells when sequences
    share prefixes. *)
From Stdlib Require Import NArith ZArith Ascii String Permutation Lia.
From stdpp Require Import base list gmap strings pretty.

Declare Scope mv_scope.
Delimit Scope mv_scope with mv.

(** ** Machine integers

    [std::uint32_t], [std::uint64_t] and [std::size_t] values are [N]; an
    operation that can leave the range is followed by the wrap of its width.
    Signed [std::int32_t] values ([Token], [Pos], [SeqId]) are [Z]. *)

Definition wrap32 (n : N) : N := (n mod 4294967296)%N.
Definition wrap64 (n : N) : N := (n mod 18446744073709551616)%N.
Definition add32 (a b : N) : N := wrap32 (a + b).
Definition sub32 (a b : N) : N := wrap32 (a + (4294967296 - wrap32 b)).
Definition mul32 (a b : N) : N := wrap32 (a * b).
Definition add64 (a b : N) : N := wrap64 (a + b).
Definition mul64 (a b : N) : N := wrap64 (a * b).

(** [static_cast<std::int32_t>] of an unsigned value, and the cast back. *)
Definition to_i32 (n : N) : Z :=
  ((Z.of_N n + 2147483648) mod 4294967296 - 2147483648)%Z.
Definition to_u32 (z : Z) : N := Z.to_N (z mod 4294967296)%Z.

(** The [size()] of a container, as the unsigned value the code computes with. *)
Definition len {A} (l : list A) : N := N.of_nat (length l).

(** [std::string] is a list of characters; [str] reads a literal. *)
Notation bytes := (list ascii).
Definition str (s : string) : list ascii := String.list_ascii_of_string s.

(** [std::to_string] on an unsigned value. *)
Definition num (n : N) : list ascii := str (pretty n).

(** ** Vectors used as stacks: [back], [pop_back] and [push_back] *)

Definition back {A} (l : list A) : option A := last l.
Definition pop_back {A} (l : list A) : list A := take (length l - 1) l.
Definition push_back {A} (l : list A) (x : A) : list A := l ++ [x].

(** [v\[i\]] on a [std::vector<std::uint32_t>], 0 when out of range (every use
    in the model is behind the code's own range check). *)
Definition at_or_0 (l : list N) (i : N) : N := default 0%N (l !! N.to_nat i).

(** How many times a value occurs in a list. *)
Definition occ (x : N) (l : list N) : N := N.of_nat (count_occ N.eq_dec l x).

(** ** Results of operations that may throw *)

Inductive res (A : Type) : Type :=
  | Ok (a : A)
  | Throw (what : list ascii).
Arguments Ok {A} a.
Arguments Throw {A} what.

Notation "'let!' x ':=' c 'in' k" :=
  (match c with Ok x => k | Throw w => Throw w end)
  (at level 10, x pattern, c at level 200, k at level 200) : mv_scope.

(** [v.at(n)] of a vector of [size] elements, out of range: the [what()] of the
    [std::out_of_range] that libstdc++ throws. *)
Definition range_what (n size : N) : list ascii :=
  str "vector::_M_range_check: __n (which is " ++ num n
    ++ str ") >= this->size() (which is " ++ num size ++ str ")".

(** ** Automation *)

Create HintDb mv discriminated.
Create Rewrite HintDb mv_rw.

(** Case analysis on the conditions and matches of a translated function. *)
Ltac split_ifs :=
  repeat match goal with
  | |- context [match ?x with _ => _ end] =>
      lazymatch x with context [match _ with _ => _ end] => fail | _ => destruct x eqn:? end
  end.
Ltac split_ifs_in H :=
  repeat match type of H with
  | context [match ?x with _ => _ end] =>
      lazymatch x with context [match _ with _ => _ end] => fail | _ => destruct x eqn:? end
  end.

(** Boolean tests of the code turned into the propositions they decide. *)
Ltac bool_hyps :=
  repeat match goal with
  | H : (_ && _)%bool = true |- _ => apply andb_true_iff in H; destruct H
  | H : (_ || _)%bool = false |- _ => apply orb_false_iff in H; destruct H
  | H : negb _ = true |- _ => apply negb_true_iff in H
  | H : negb _ = false |- _ => apply negb_false_iff in H
  | H : (_ <? _)%N = true |- _ => apply N.ltb_lt in H
  | H : (_ <? _)%N = false |- _ => apply N.ltb_ge in H
  | H : (_ <=? _)%N = true |- _ => apply N.leb_le in H
  | H : (_ <=? _)%N = false |- _ => apply N.leb_gt in H
  | H : (_ =? _)%N = true |- _ => apply N.eqb_eq in H
  | H : (_ =? _)%N = false |- _ => apply N.eqb_neq in H
  | H : (_ =? _)%Z = true |- _ => apply Z.eqb_eq in H
  | H : (_ =? _)%Z = false |- _ => apply Z.eqb_neq in H
  | H : (_ <=? _)%Z = true |- _ => apply Z.leb_le in H
  | H : (_ <=? _)%Z = false |- _ => apply Z.leb_gt in H
  | H : (_ =? _)%nat = true |- _ => apply Nat.eqb_eq in H
  | H : (_ =? _)%nat = false |- _ => apply Nat.eqb_neq in H
  end.

(** ** Lemmas on machine integers *)

Lemma wrap32_small n : (n < 4294967296)%N → wrap32 n = n.
Proof. apply N.mod_small. Qed.

Lemma wrap32_lt n : (wrap32 n < 4294967296)%N.
Proof. unfold wrap32. apply N.mod_lt. lia. Qed.

Lemma wrap64_small n : (n < 18446744073709551616)%N → wrap64 n = n.
Proof. apply N.mod_small. Qed.

Lemma wrap64_lt n : (wrap64 n < 18446744073709551616)%N.
Proof. unfold wrap64. apply N.mod_lt. lia. Qed.

Lemma add32_small a b : (a + b < 4294967296)%N → add32 a b = (a + b)%N.
Proof. apply wrap32_small. Qed.

Lemma sub32_small a b : (b ≤ a)%N → (a < 4294967296)%N → sub32 a b = (a - b)%N.
Proof.
  intros Hb Ha. unfold sub32. rewrite (wrap32_small b) by lia. unfold wrap32.
  replace (a + (4294967296 - b))%N with ((a - b) + 1 * 4294967296)%N by lia.
  rewrite N.Div0.mod_add. apply N.mod_small. lia.
Qed.

Lemma mul32_small a b : (a * b < 4294967296)%N → mul32 a b = (a * b)%N.
Proof. apply wrap32_small. Qed.

Lemma to_i32_small n : (n < 2147483648)%N → to_i32 n = Z.of_N n.
Proof. intros H. unfold to_i32. rewrite Z.mod_small by lia. lia. Qed.

Lemma to_u32_small z : (0 ≤ z < 4294967296)%Z → to_u32 z = Z.to_N z.
Proof. intros H. unfold to_u32. by rewrite Z.mod_small by lia. Qed.

(** ** Lemmas on lists *)

Lemma len_app {A} (l k : list A) : len (l ++ k) = (len l + len k)%N.
Proof. unfold len. rewrite length_app. lia. Qed.

Lemma len_nil {A} : len (@nil A) = 0%N.
Proof. done. Qed.

Lemma len_cons {A} (x : A) l : len (x :: l) = (len l + 1)%N.
Proof. unfold len. simpl. lia. Qed.

Lemma len_0 {A} (l : list A) : len l = 0%N → l = [].
Proof. unfold len. destruct l; simpl; [done | lia]. Qed.

Lemma back_snoc {A} (l : list A) x : back (l ++ [x]) = Some x.
Proof. apply last_snoc. Qed.

Lemma pop_back_snoc {A} (l : list A) x : pop_back (l ++ [x]) = l.
Proof.
  unfold pop_back. rewrite length_app. simpl.
  replace (length l + 1 - 1)%nat with (length l) by lia. by rewrite take_app_length.
Qed.

Lemma snoc_cases {A} (l : list A) : l = [] ∨ ∃ k x, l = k ++ [x].
Proof. destruct l using rev_ind; eauto. Qed.

Lemma back_Some {A} (l : list A) x : back l = Some x → l = pop_back l ++ [x].
Proof.
  destruct (snoc_cases l) as [->|(k & y & ->)]; [done|].
  rewrite back_snoc, pop_back_snoc. naive_solver.
Qed.

Lemma back_None {A} (l : list A) : back l = None → l = [].
Proof. apply last_None. Qed.

Lemma occ_nil x : occ x [] = 0%N.
Proof. done. Qed.

Lemma occ_app x l k : occ x (l ++ k) = (occ x l + occ x k)%N.
Proof. unfold occ. rewrite count_occ_app. lia. Qed.

Lemma occ_cons x y l : occ x (y :: l) = ((if decide (x = y) then 1 else 0) + occ x l)%N.
Proof.
  unfold occ. simpl. destruct (N.eq_dec y x); case_decide; subst; try congruence; lia.
Qed.

Lemma occ_0 x l : occ x l = 0%N ↔ x ∉ l.
Proof.
  unfold occ. rewrite list_elem_of_In, (count_occ_not_In N.eq_dec). lia.
Qed.

Lemma occ_pos x l : (0 < occ x l)%N ↔ x ∈ l.
Proof.
  unfold occ. rewrite list_elem_of_In, (count_occ_In N.eq_dec). lia.
Qed.

Lemma occ_perm x l k : l ≡ₚ k → occ x l = occ x k.
Proof. intros H. unfold occ. by rewrite (proj1 (Permutation_count_occ N.eq_dec l k) H). Qed.

Lemma occ_NoDup x l : NoDup l → x ∈ l → occ x l = 1%N.
Proof.
  intros Hnd Hin. apply NoDup_ListNoDup, (NoDup_count_occ' N.eq_dec) with (x := x) in Hnd.
  - unfold occ. by rewrite Hnd.
  - by apply list_elem_of_In.
Qed.

Lemma occ_le_len x l : (occ x l ≤ len l)%N.
Proof. unfold occ, len. pose proof (count_occ_bound N.eq_dec x l). lia. Qed.

Lemma occ_replicate x n y :
  occ x (replicate n y) = if decide (x = y) then N.of_nat n else 0%N.
Proof.
  induction n as [|n IH]; simpl; [by case_decide|].
  rewrite occ_cons, IH. case_decide; lia.
Qed.

Lemma Forall2_impl_elem {A B} (P Q : A → B → Prop) l k :
  Forall2 P l k → (∀ x y, x ∈ l → P x y → Q x y) → Forall2 Q l k.
Proof.
  intros HP HQ. induction HP as [|x y l k Hxy HP IH]; constructor.
  - apply HQ; [left|done].
  - apply IH. intros a b Ha. apply HQ. by right.
Qed.

Lemma Forall_sublist {A} (P : A → Prop) l k : l `sublist_of` k → Forall P k → Forall P l.
Proof. induction 1; rewrite ?Forall_cons; naive_solver. Qed.

Lemma NoDup_fmap_inj {A B} (f : A → B) (l : list A) x y : NoDup (f <$> l) → x ∈ l → y ∈ l → f x = f y → x = y.
Proof.
  intros Hn [a Ha]%list_elem_of_lookup [a' Ha']%list_elem_of_lookup Hs.
  assert (a = a') as -> by (apply (NoDup_lookup _ _ _ (f x) Hn); rewrite list_lookup_fmap; [by rewrite Ha|by rewrite Ha', Hs]).
  congruence.
Qed.

Lemma submseteq_NoDup_fmap {A B} (f : A → B) (l k : list A) : l ⊆+ k → NoDup (f <$> k) → NoDup (f <$> l).
Proof.
  intros (r & P)%submseteq_Permutation Hn. rewrite P, fmap_app in Hn. by apply NoDup_app in Hn as [? _].
Qed.

Lemma filter_all {A} (P : A → Prop) `{!∀ x, Decision (P x)} (l : list A) : Forall P l → filter P l = l.
Proof. induction 1; [done|]. rewrite filter_cons_True by done. by f_equal. Qed.

Lemma filter_none {A} (P : A → Prop) `{!∀ x, Decision (P x)} (l : list A) : Forall (λ x, ¬ P x) l → filter P l = [].
Proof. induction 1; [done|]. by rewrite filter_cons_False. Qed.

Lemma omap_same {A B} (f g : A → option B) (l : list A) : (∀ x, x ∈ l → f x = g x) → omap f l = omap g l.
Proof.
  induction l as [|x l IH]; intros He; [done|]. cbn [omap list_omap]. rewrite He by set_solver. by rewrite IH by set_solver.
Qed.

Lemma len_remove_dups (l : list N) : (len (remove_dups l) ≤ len l)%N.
Proof.
  induction l as [|x l IH]; simpl; [done|]. case_decide; rewrite ?len_cons; lia.
Qed.

Lemma remove_dups_NoDup (l : list N) : len (remove_dups l) = len l ↔ NoDup l.
Proof.
  induction l as [|x l IH]; [split; [constructor|done]|]. cbn [remove_dups]. rewrite NoDup_cons, <- IH.
  pose proof (len_remove_dups l). destruct (decide_rel _ x l); rewrite ?len_cons; [split; [lia|intros [? _]; done]|].
  split; [intros Hl; split; [done|lia]|intros [_ ->]; done].
Qed.

Lemma at_or_0_lookup l i v : l !! N.to_nat i = Some v → at_or_0 l i = v.
Proof. unfold at_or_0. by intros ->. Qed.

Lemma at_or_0_insert l i j v :
  (i < len l)%N → at_or_0 (<[N.to_nat i := v]> l) j = if decide (j = i) then v else at_or_0 l j.
Proof.
  intros Hi. unfold at_or_0, len in *. case_decide; subst.
  - by rewrite list_lookup_insert_eq by lia.
  - by rewrite list_lookup_insert_ne by lia.
Qed.

Lemma at_or_0_out l i : (len l ≤ i)%N → at_or_0 l i = 0%N.
Proof.
  intros H. unfold at_or_0, len in *. rewrite lookup_ge_None_2; [done | lia].
Qed.

#[export] Hint Rewrite @len_app @len_nil @len_cons occ_nil occ_app occ_cons : mv_rw.
