(* ===== verification/Types.v ===== *)
(** The value types shared by every component: [include/microvllm/types.hpp],
    [src/core/types.cpp] and the plain data of
    [include/microvllm/model_engine.hpp].  C++ floating-point values are
    [spec_float], the executable IEEE 754 values of the Standard Library, at the
    precision of [float] (24 bits) or [double] (53 bits). *)
From Stdlib Require Import SpecFloat.
From S2P Require Import Prelude.
From stdpp Require Import base list strings.

(** ** IEEE 754 arithmetic, rounding to nearest even *)

Definition float32 := spec_float.
Definition double := spec_float.

Definition f32_of_Z (z : Z) : float32 := binary_normalize 24 128 z 0 false.
Definition f32_div (a b : float32) : float32 := SFdiv 24 128 a b.

Definition f64_of_Z (z : Z) : double := binary_normalize 53 1024 z 0 false.
Definition f64_add (a b : double) : double := SFadd 53 1024 a b.
Definition f64_mul (a b : double) : double := SFmul 53 1024 a b.
Definition f64_div (a b : double) : double := SFdiv 53 1024 a b.
Definition f64_leb (a b : double) : bool := SFleb a b.

(** ** Identifiers *)

Definition Token := Z.
Definition Pos := Z.
Definition SeqId := Z.
Definition RequestId := N.
Definition BlockId := N.

(** ** Why a generation ended *)

Inductive FinishReason : Type :=
  | kUnset
  | kEos
  | kMaxTokens
  | kStopString
  | kCancelled
  | kError
  | kContextOverflow.

#[export] Instance FinishReason_eq_dec : EqDecision FinishReason.
Proof. solve_decision. Defined.

Definition to_string (r : FinishReason) : bytes :=
  match r with
  | kUnset => str "unset"
  | kEos => str "eos"
  | kMaxTokens => str "max_tokens"
  | kStopString => str "stop_string"
  | kCancelled => str "cancelled"
  | kError => str "error"
  | kContextOverflow => str "context_overflow"
  end.

(** ** Requests *)

Record SamplingParams := mkSampling {
  temperature : float32;
  top_p : float32;
  top_k : Z;
  repeat_penalty : float32;
  seed : N }.

(** The member initialisers [0.8F], [0.95F], [40], [1.1F] and [0]. *)
Definition default_sampling : SamplingParams :=
  mkSampling (f32_div (f32_of_Z 8) (f32_of_Z 10))
             (f32_div (f32_of_Z 95) (f32_of_Z 100))
             40
             (f32_div (f32_of_Z 11) (f32_of_Z 10))
             0.

Record RequestSpec := mkSpec {
  prompt : bytes;
  stop : list bytes;
  max_tokens : N;
  sampling : SamplingParams }.

Definition default_spec : RequestSpec := mkSpec [] [] 128 default_sampling.

(** ** Per-request accounting *)

Record Usage := mkUsage {
  prompt_tokens : N;
  completion_tokens : N;
  cached_prompt_tokens : N }.

Definition no_usage : Usage := mkUsage 0 0 0.

Definition total_tokens (u : Usage) : N := add32 (prompt_tokens u) (completion_tokens u).

(** ** What a scheduler exchanges with an engine *)

Record EngineCaps := mkCaps {
  n_ctx : N;
  n_batch : N;
  n_seq_max : N;
  eos : Token;
  n_ctx_seq : N }.

Record BatchItem := mkItem {
  item_seq : SeqId;
  item_tokens : list Token;
  item_pos0 : Pos;
  item_sample : bool }.

Record GenStep := mkStep {
  step_seq : SeqId;
  step_token : Token;
  step_is_eog : bool }.
