(* ===== verification/Blocks.v ===== *)
(** The KV-cache block pool: class [BlockAllocator] of
    [include/microvllm/block_allocator.hpp] and [src/core/block_allocator.cpp].

    The pool keeps a stack of free block ids and a reference count per block.
    [accounts a refs] is its abstract specification: the pool holds exactly the
    multiset of references [refs], and nothing else is taken. *)
From Stdlib Require Import Permutation Lia.
From S2P Require Import Prelude Types.
From stdpp Require Import base list gmap.

Local Open Scope N_scope.

Module BlockAllocator.

Record t := mk {
  total_ : N;
  block_size_ : N;
  free_list_ : list N;
  refcounts_ : list N }.

(** The constructor's loop [for (i = total_; i > 0; --i) push_back(i - 1)]. *)
Fixpoint init_free (i : nat) : list N :=
  match i with
  | O => []
  | S i' => N.of_nat i' :: init_free i'
  end.

Definition make (total_blocks block_size : N) : t :=
  mk total_blocks
     (if block_size =? 0 then 1 else block_size)
     (init_free (N.to_nat total_blocks))
     (replicate (N.to_nat total_blocks) 0).

Definition total_blocks (a : t) : N := total_ a.
Definition block_size (a : t) : N := block_size_ a.
Definition free_blocks (a : t) : N := wrap32 (len (free_list_ a)).
Definition used_blocks (a : t) : N := sub32 (total_ a) (free_blocks a).

(** [utilization()], in [float]. *)
Definition utilization (a : t) : float32 :=
  if total_ a =? 0 then f32_of_Z 0
  else f32_div (f32_of_Z (Z.of_N (used_blocks a))) (f32_of_Z (Z.of_N (total_ a))).

Definition blocks_for (a : t) (n_tokens : N) : N :=
  sub32 (add32 n_tokens (block_size_ a)) 1 / block_size_ a.

Definition can_allocate (a : t) (n : N) : bool := n <=? free_blocks a.

Definition set_ref (a : t) (id v : N) : t :=
  mk (total_ a) (block_size_ a) (free_list_ a) (<[N.to_nat id := v]> (refcounts_ a)).

Definition set_free (a : t) (fl : list N) : t :=
  mk (total_ a) (block_size_ a) fl (refcounts_ a).

(** The body of [allocate]'s loop, [n] times: pop the back of the free list, set
    its count to 1, append it to [out].  [back] on an empty list would be
    undefined behaviour; the guard of [allocate] excludes it
    ([alloc_loop_spec]). *)
Fixpoint alloc_loop (n : nat) (a : t) (out : list N) : t * list N :=
  match n with
  | O => (a, out)
  | S n' =>
      match back (free_list_ a) with
      | None => (a, out)
      | Some id =>
          alloc_loop n' (set_ref (set_free a (pop_back (free_list_ a))) id 1)
                     (push_back out id)
      end
  end.

Definition allocate (a : t) (n : N) : option (list N) * t :=
  if negb (can_allocate a n) then (None, a)
  else let (a', out) := alloc_loop (N.to_nat n) a [] in (Some out, a').

(** One iteration of [free]. *)
Definition free1 (a : t) (id : N) : t :=
  if (total_ a <=? id) || (at_or_0 (refcounts_ a) id =? 0) then a
  else
    let r := sub32 (at_or_0 (refcounts_ a) id) 1 in
    let a' := set_ref a id r in
    if r =? 0 then set_free a' (push_back (free_list_ a') id) else a'.

Definition free (a : t) (blocks : list N) : t := fold_left free1 blocks a.

Definition incref (a : t) (block : N) : t :=
  if (block <? total_ a) && (0 <? at_or_0 (refcounts_ a) block)
  then set_ref a block (add32 (at_or_0 (refcounts_ a) block) 1)
  else a.

Definition refcount (a : t) (block : N) : N :=
  if block <? total_ a then at_or_0 (refcounts_ a) block else 0.

(** ** The representation invariant *)

Record wf (a : t) : Prop := mk_wf {
  wf_total : total_ a < 4294967296;
  wf_bs : 0 < block_size_ a < 4294967296;
  wf_len : len (refcounts_ a) = total_ a;
  wf_u32 : ∀ id, at_or_0 (refcounts_ a) id < 4294967296;
  wf_nodup : NoDup (free_list_ a);
  wf_free : ∀ id, id ∈ free_list_ a ↔ id < total_ a ∧ at_or_0 (refcounts_ a) id = 0 }.

(** ** The abstract specification

    [refs] lists every reference some client holds, a block held twice listed
    twice. *)

Definition accounts (a : t) (refs : list N) : Prop :=
  wf a ∧ ∀ id, refcount a id = occ id refs.

#[global] Instance accounts_proper : Proper ((=) ==> (≡ₚ) ==> iff) accounts.
Proof.
  intros a ? <- l k Hlk. unfold accounts.
  split; intros [Hw H]; split; try done; intros id; rewrite H.
  - by apply occ_perm.
  - symmetry. by apply occ_perm.
Qed.

(** ** Helper lemmas *)

Lemma refcount_at a id : wf a → refcount a id = at_or_0 (refcounts_ a) id.
Proof.
  intros W. unfold refcount. destruct (id <? total_ a) eqn:E; [done|]. bool_hyps.
  rewrite at_or_0_out; [done | by rewrite (wf_len a W)].
Qed.

Lemma elem_of_init_free n id : id ∈ init_free n ↔ id < N.of_nat n.
Proof.
  induction n as [|n IH]; simpl.
  - set_unfold. lia.
  - rewrite elem_of_cons, IH. lia.
Qed.

Lemma NoDup_init_free n : NoDup (init_free n).
Proof.
  induction n as [|n IH]; simpl; constructor; [|done].
  rewrite elem_of_init_free. lia.
Qed.

Lemma length_init_free n : length (init_free n) = n.
Proof. induction n; simpl; lia. Qed.

Lemma at_or_0_replicate n id : at_or_0 (replicate n 0) id = 0.
Proof.
  unfold at_or_0. destruct (_ !! _) eqn:E; [|done].
  apply lookup_replicate in E. naive_solver.
Qed.

Lemma free_list_bound a : wf a → (length (free_list_ a) ≤ N.to_nat (total_ a))%nat.
Proof.
  intros W. rewrite <- (length_init_free (N.to_nat (total_ a))).
  apply NoDup_incl_length; [apply NoDup_ListNoDup, (wf_nodup a W)|].
  intros id. rewrite <- !list_elem_of_In, elem_of_init_free, (wf_free a W). lia.
Qed.

Lemma free_blocks_len a : wf a → free_blocks a = len (free_list_ a).
Proof.
  intros W. apply wrap32_small. pose proof (free_list_bound a W).
  pose proof (wf_total a W). unfold len. lia.
Qed.

Lemma set_ref_len a id v : len (refcounts_ (set_ref a id v)) = len (refcounts_ a).
Proof. unfold len. simpl. by rewrite length_insert. Qed.

(** Moving one block from free to taken keeps the invariant. *)
Lemma wf_take a id k :
  wf a → free_list_ a = k ++ [id] →
  wf (set_ref (set_free a k) id 1) ∧ id < total_ a ∧ refcount a id = 0 ∧ id ∉ k.
Proof.
  intros W E. pose proof W as [Wt Wb Wl Wu Wn Wf].
  assert (Hid : id < total_ a ∧ at_or_0 (refcounts_ a) id = 0)
    by (apply Wf; rewrite E; set_solver).
  destruct Hid as [Hid H0].
  assert (Hk : NoDup k ∧ id ∉ k).
  { rewrite E in Wn. apply NoDup_app in Wn as (? & Hd & _). split; [done|].
    intros Hin. apply (Hd id Hin). set_solver. }
  destruct Hk as [Hk1 Hk2].
  split; [|rewrite refcount_at by done; done].
  split; simpl; try done.
  - rewrite <- Wl. apply (set_ref_len a id 1).
  - intros j. rewrite at_or_0_insert by (rewrite Wl; done). case_decide; [lia | apply Wu].
  - intros j. rewrite at_or_0_insert by (rewrite Wl; done).
    specialize (Wf j). rewrite E, elem_of_app, list_elem_of_singleton in Wf. case_decide; subst; split.
    + done.
    + lia.
    + intros Hj. apply Wf. by left.
    + intros Hj. apply Wf in Hj as [?|?]; [done|congruence].
Qed.

Lemma accounts_take a id k refs :
  accounts a refs → free_list_ a = k ++ [id] →
  accounts (set_ref (set_free a k) id 1) (id :: refs).
Proof.
  intros [W H] E. pose proof (wf_take a id k W E) as (W' & Hid & H0 & _).
  split; [done|]. intros j. rewrite refcount_at by done. simpl.
  rewrite at_or_0_insert by (rewrite (wf_len a W); done). rewrite occ_cons, <- !H.
  case_decide; subst; [lia|]. rewrite refcount_at by done. lia.
Qed.

Lemma alloc_loop_spec n a out refs :
  accounts a refs → (n ≤ length (free_list_ a))%nat →
  let k := (length (free_list_ a) - n)%nat in
  let r := alloc_loop n a out in
  r.2 = out ++ rev (drop k (free_list_ a)) ∧
  free_list_ r.1 = take k (free_list_ a) ∧
  total_ r.1 = total_ a ∧ block_size_ r.1 = block_size_ a ∧
  accounts r.1 (rev (drop k (free_list_ a)) ++ refs).
Proof.
  revert a out refs. induction n as [|n IH]; intros a out refs A Hn; simpl.
  { rewrite Nat.sub_0_r, drop_all, take_ge by lia. simpl. by rewrite app_nil_r. }
  destruct (snoc_cases (free_list_ a)) as [E|(k & x & E)].
  { rewrite E in Hn. simpl in Hn. lia. }
  rewrite E, back_snoc, pop_back_snoc.
  set (a1 := set_ref (set_free a k) x 1).
  assert (Hk : free_list_ a1 = k) by done.
  destruct (IH a1 (push_back out x) (x :: refs)) as (I1 & I2 & I3 & I4 & I5).
  { by apply accounts_take. }
  { rewrite Hk. rewrite E, length_app in Hn. simpl in Hn. lia. }
  rewrite Hk in *. rewrite length_app. simpl.
  replace (length k + 1 - S n)%nat with (length k - n)%nat by lia.
  rewrite drop_app_le, take_app_le, rev_app_distr by lia. simpl.
  split_and!; try done.
  - rewrite I1. unfold push_back. by rewrite <- app_assoc.
  - eapply accounts_proper; [done| |exact I5]. apply Permutation_middle.
Qed.

Lemma allocate_None a n : allocate a n = (None, a) ↔ free_blocks a < n.
Proof.
  unfold allocate, can_allocate. destruct (n <=? free_blocks a) eqn:E; bool_hyps; simpl.
  - destruct (alloc_loop _ _ _). split; [done|lia].
  - done.
Qed.

Lemma allocate_cases a n :
  (free_blocks a < n ∧ allocate a n = (None, a)) ∨
  (n ≤ free_blocks a ∧ ∃ ids a', allocate a n = (Some ids, a')).
Proof.
  destruct (decide (free_blocks a < n)) as [H|H].
  - left. split; [done|]. by apply allocate_None.
  - right. split; [lia|]. unfold allocate, can_allocate.
    destruct (n <=? free_blocks a) eqn:E; bool_hyps; [|lia]. simpl.
    destruct (alloc_loop _ _ _). eauto.
Qed.

Lemma allocate_Some a n ids a' refs :
  accounts a refs → allocate a n = (Some ids, a') →
  n ≤ free_blocks a ∧ len ids = n ∧ NoDup ids ∧
  (∀ id, id ∈ ids → id < total_ a ∧ id ∉ refs) ∧
  free_blocks a' = free_blocks a - n ∧
  total_ a' = total_ a ∧ block_size_ a' = block_size_ a ∧
  accounts a' (ids ++ refs).
Proof.
  intros A H. pose proof A as [W HA]. unfold allocate, can_allocate in H.
  destruct (n <=? free_blocks a) eqn:E; [|done]. bool_hyps. simpl in H.
  rewrite free_blocks_len in * by done.
  destruct (alloc_loop_spec (N.to_nat n) a [] refs A) as (I1 & I2 & I3 & I4 & I5).
  { unfold len in E. lia. }
  destruct (alloc_loop _ _ _) as [a1 out]. simplify_eq. simpl in *.
  set (k := (length (free_list_ a) - N.to_nat n)%nat) in *.
  pose proof I5 as [W5 _].
  assert (Hsub : ∀ id, id ∈ ids → id ∈ free_list_ a).
  { intros id. rewrite I1, list_elem_of_In, <- in_rev, <- list_elem_of_In.
    intros Hin. rewrite <- (take_drop k). set_solver. }
  split_and!; try done.
  - rewrite I1. unfold len in *. rewrite length_rev, length_drop. lia.
  - rewrite I1. apply NoDup_ListNoDup, NoDup_rev, NoDup_ListNoDup.
    eapply NoDup_app. rewrite take_drop. apply (wf_nodup a W).
  - intros id Hin. apply Hsub, (wf_free a W) in Hin as [? Hz]. split; [done|].
    apply occ_0. by rewrite <- HA, refcount_at.
  - rewrite !free_blocks_len, I2 by done. unfold len in *. rewrite length_take. lia.
  - by rewrite I1.
Qed.

Lemma free1_frame a id :
  total_ (free1 a id) = total_ a ∧ block_size_ (free1 a id) = block_size_ a.
Proof. unfold free1. split_ifs; done. Qed.

Lemma free_frame a ids :
  total_ (free a ids) = total_ a ∧ block_size_ (free a ids) = block_size_ a.
Proof.
  unfold free. revert a. induction ids as [|id ids IH]; intros a; simpl; [done|].
  destruct (IH (free1 a id)) as [-> ->]. apply free1_frame.
Qed.

Lemma free1_accounts a id refs : accounts a (id :: refs) → accounts (free1 a id) refs.
Proof.
  intros [W H]. assert (Hr : refcount a id = 1 + occ id refs).
  { rewrite H, occ_cons. case_decide; [done|congruence]. }
  assert (Hid : id < total_ a).
  { unfold refcount in Hr. destruct (id <? total_ a) eqn:E; bool_hyps; lia. }
  rewrite refcount_at in Hr by done. pose proof (wf_u32 a W id) as Hu.
  unfold free1. destruct ((total_ a <=? id) || _)%bool eqn:E.
  { apply orb_true_iff in E as [E|E]; bool_hyps; lia. }
  clear E. rewrite sub32_small by lia. rewrite Hr.
  replace (1 + occ id refs - 1) with (occ id refs) by lia.
  assert (Hat : ∀ j, at_or_0 (<[N.to_nat id := occ id refs]> (refcounts_ a)) j = occ j refs).
  { intros j. rewrite at_or_0_insert by (rewrite (wf_len a W); done).
    case_decide; subst; [done|]. specialize (H j). rewrite refcount_at in H by done.
    rewrite H, occ_cons, decide_False by done. lia. }
  assert (Hocc : ∀ j, occ j refs < 4294967296).
  { intros j. pose proof (wf_u32 a W j). rewrite <- refcount_at, H, occ_cons in * by done.
    case_decide; lia. }
  assert (Hlen : len (<[N.to_nat id := occ id refs]> (refcounts_ a)) = total_ a)
    by (rewrite <- (wf_len a W); apply (set_ref_len a id)).
  assert (Hfree : id ∉ free_list_ a) by (rewrite (wf_free a W); lia).
  destruct W as [Wt Wb Wl Wu Wn Wf].
  assert (W' : wf (let a' := set_ref a id (occ id refs) in
      if occ id refs =? 0 then set_free a' (push_back (free_list_ a') id) else a')).
  { destruct (occ id refs =? 0) eqn:E0; bool_hyps; split; simpl; try done;
      try (intros j; rewrite Hat; done).
    - apply NoDup_app. split_and!; [done| |apply NoDup_singleton]. set_solver.
    - intros j. unfold push_back. rewrite Hat, elem_of_app, list_elem_of_singleton, Wf.
      specialize (H j). rewrite refcount_at in H by (by split).
      rewrite H, occ_cons. case_decide; subst; naive_solver lia.
    - intros j. rewrite Hat, Wf. specialize (H j). rewrite refcount_at in H by (by split).
      rewrite H, occ_cons. case_decide; subst; naive_solver lia. }
  split; [exact W'|]. intros j. rewrite refcount_at by exact W'.
  simpl. destruct (occ id refs =? 0); simpl; apply Hat.
Qed.

Lemma free_accounts a ids refs : accounts a (ids ++ refs) → accounts (free a ids) refs.
Proof.
  unfold free. revert a. induction ids as [|id ids IH]; intros a; simpl; [done|].
  intros A. by apply IH, free1_accounts.
Qed.

Lemma incref_frame a id :
  total_ (incref a id) = total_ a ∧ block_size_ (incref a id) = block_size_ a ∧
  free_list_ (incref a id) = free_list_ a.
Proof. unfold incref. split_ifs; done. Qed.

Lemma incref_accounts a id refs :
  accounts a refs → id ∈ refs → occ id refs + 1 < 4294967296 →
  accounts (incref a id) (id :: refs).
Proof.
  intros [W H] Hin Hlt. apply occ_pos in Hin.
  assert (Hid : id < total_ a).
  { specialize (H id). unfold refcount in H. destruct (id <? total_ a) eqn:E; bool_hyps; lia. }
  assert (Hr : at_or_0 (refcounts_ a) id = occ id refs) by (by rewrite <- H, refcount_at).
  unfold incref. rewrite Hr, (proj2 (N.ltb_lt _ _) Hid), (proj2 (N.ltb_lt _ _) Hin). simpl.
  rewrite add32_small by done.
  assert (Hat : ∀ j, at_or_0 (<[N.to_nat id := occ id refs + 1]> (refcounts_ a)) j
                   = occ j (id :: refs)).
  { intros j. rewrite at_or_0_insert by (rewrite (wf_len a W); done). rewrite occ_cons.
    case_decide; subst; [lia|]. rewrite <- refcount_at, H by done. lia. }
  assert (W' : wf (set_ref a id (occ id refs + 1))).
  { pose proof W as [Wt Wb Wl Wu Wn Wf]. split; simpl; try done.
    - rewrite <- Wl. apply (set_ref_len a id).
    - intros j. rewrite Hat, occ_cons. pose proof (Wu j).
      rewrite <- refcount_at, H in * by done. case_decide; subst; lia.
    - intros j. rewrite Hat, occ_cons, Wf, <- H, refcount_at by done.
      case_decide; subst; [|done]. rewrite Hr. lia. }
  split; [done|]. intros j. rewrite refcount_at by done. apply Hat.
Qed.

Lemma make_accounts total bs :
  total < 4294967296 → bs < 4294967296 → accounts (make total bs) [].
Proof.
  intros Ht Hb. assert (W : wf (make total bs)).
  { split; simpl; try done.
    - destruct (bs =? 0) eqn:E; bool_hyps; lia.
    - unfold len. rewrite length_replicate. lia.
    - intros id. rewrite at_or_0_replicate. lia.
    - apply NoDup_init_free.
    - intros id. rewrite elem_of_init_free, at_or_0_replicate. lia. }
  split; [done|]. intros id. rewrite refcount_at by done. apply at_or_0_replicate.
Qed.

(** Every well-formed pool is accounted for by some multiset of references. *)
Lemma wf_accounts a : wf a → ∃ refs, accounts a refs.
Proof.
  intros W.
  assert (Hgen : ∀ n, ∃ refs, ∀ id,
    occ id refs = if id <? N.of_nat n then at_or_0 (refcounts_ a) id else 0).
  { induction n as [|n [refs IH]].
    - exists []. intros id. destruct (_ <? _) eqn:E; bool_hyps; [lia|done].
    - exists (replicate (N.to_nat (at_or_0 (refcounts_ a) (N.of_nat n))) (N.of_nat n) ++ refs).
      intros id. rewrite occ_app, IH, occ_replicate.
      case_decide; subst;
        destruct (_ <? N.of_nat n) eqn:E1, (_ <? N.of_nat (S n)) eqn:E2; bool_hyps; lia. }
  destruct (Hgen (N.to_nat (total_ a))) as [refs H]. exists refs. split; [done|].
  intros id. rewrite H, N2Nat.id. done.
Qed.

Lemma free1_unheld a id : refcount a id = 0 → free1 a id = a.
Proof.
  unfold refcount, free1. intros H. destruct (total_ a <=? id) eqn:E; bool_hyps; [done|].
  destruct (id <? total_ a) eqn:E'; bool_hyps; [|lia]. by rewrite H.
Qed.

Lemma free1_wf a id : wf a → wf (free1 a id).
Proof.
  intros W. destruct (decide (refcount a id = 0)) as [H0|H0].
  { by rewrite free1_unheld. }
  destruct (wf_accounts a W) as [refs [_ H]].
  assert (Hin : id ∈ refs) by (apply occ_pos; rewrite <- H; lia).
  apply list_elem_of_split in Hin as (l & k & ->).
  apply (free1_accounts a id (l ++ k)). rewrite Permutation_middle. done.
Qed.

Lemma free_wf a ids : wf a → wf (free a ids).
Proof.
  unfold free. revert a. induction ids as [|id ids IH]; intros a W; simpl; [done|].
  by apply IH, free1_wf.
Qed.

(** The referenced blocks and the free list partition the pool. *)
Lemma accounts_partition a refs :
  accounts a refs →
  free_list_ a ++ remove_dups refs ≡ₚ init_free (N.to_nat (total_ a)).
Proof.
  intros [W H]. apply NoDup_Permutation.
  - apply NoDup_app. split_and!; [apply (wf_nodup a W)| |apply NoDup_remove_dups].
    intros id. rewrite (wf_free a W), elem_of_remove_dups, <- occ_pos, <- H.
    rewrite refcount_at by done. lia.
  - apply NoDup_init_free.
  - intros id. rewrite elem_of_app, elem_of_init_free, (wf_free a W), elem_of_remove_dups.
    rewrite <- occ_pos, <- H. unfold refcount.
    destruct (id <? total_ a) eqn:E; bool_hyps; lia.
Qed.

Lemma used_blocks_distinct a refs :
  accounts a refs →
  used_blocks a = len (remove_dups refs) ∧
  total_ a = free_blocks a + len (remove_dups refs).
Proof.
  intros A. pose proof A as [W _]. pose proof (accounts_partition a refs A) as P.
  apply Permutation_length in P. rewrite length_app, length_init_free in P.
  pose proof (wf_total a W). unfold used_blocks. rewrite free_blocks_len by done.
  unfold len. rewrite sub32_small by lia. lia.
Qed.

Lemma accounts_free_total a refs :
  accounts a refs → (free_blocks a = total_ a ↔ refs = []).
Proof.
  intros A. destruct (used_blocks_distinct a refs A) as [_ H]. split; intros E.
  - destruct refs as [|id refs]; [done|].
    assert (Hin : id ∈ remove_dups (id :: refs)) by (apply elem_of_remove_dups; set_solver).
    destruct (remove_dups (id :: refs)); [set_solver|]. rewrite len_cons in H. lia.
  - subst. simpl in H. rewrite len_nil in H. lia.
Qed.

(** ** Client histories

    A client of the pool allocates, drops references it holds, and takes further
    references to blocks it holds.  [step] pairs the pool with the multiset of
    references handed out so far. *)

Inductive step : t * list N → t * list N → Prop :=
  | step_allocate a refs n ids a' :
      allocate a n = (Some ids, a') → step (a, refs) (a', ids ++ refs)
  | step_refused a refs n a' :
      allocate a n = (None, a') → step (a, refs) (a', refs)
  | step_free a refs ids rest :
      refs ≡ₚ ids ++ rest → step (a, refs) (free a ids, rest)
  | step_incref a refs id :
      id ∈ refs → len refs + 1 < 4294967296 → step (a, refs) (incref a id, id :: refs).

Lemma step_accounts s s' : step s s' → accounts s.1 s.2 → accounts s'.1 s'.2.
Proof.
  destruct 1 as [a refs n ids a' H|a refs n a' H|a refs ids rest H|a refs id Hin Hlt];
    simpl; intros A.
  - by eapply allocate_Some in H as (_ & _ & _ & _ & _ & _ & _ & ?).
  - destruct (allocate_cases a n) as [[? E]|[? (? & ? & E)]]; congruence.
  - apply free_accounts. by rewrite <- H.
  - apply incref_accounts; [done|done|]. pose proof (occ_le_len id refs). lia.
Qed.

(** C19: the block pool implements reference accounting.  Starting from a fresh
    pool, after any sequence of allocations (granted or refused), releases of held
    references and additional references, every block's count is exactly the number
    of references clients hold to it, the free list and the held blocks partition
    the pool, [used_blocks] is the number of distinct blocks held, and the whole
    pool is free again exactly when no reference is held. *)
Theorem pool_refines_accounting total bs a refs :
  total < 4294967296 → bs < 4294967296 → rtc step (make total bs, []) (a, refs) →
  (∀ id, refcount a id = occ id refs) ∧
  free_list_ a ++ remove_dups refs ≡ₚ init_free (N.to_nat (total_ a)) ∧
  used_blocks a = len (remove_dups refs) ∧
  (free_blocks a = total_ a ↔ refs = []).
Proof.
  intros Ht Hb Hs.
  assert (A : accounts a refs).
  { change (accounts (a, refs).1 (a, refs).2).
    assert (A0 : accounts (make total bs, @nil N).1 (make total bs, @nil N).2)
      by (by apply make_accounts).
    revert A0. induction Hs; [done|]. eauto using step_accounts. }
  split_and!; [apply A | by apply accounts_partition | by apply used_blocks_distinct
              | by apply accounts_free_total].
Qed.

Lemma pool_refines_accounting_witness :
  used_blocks (free (incref (allocate (make 4 16) 2).2 0) [0; 1]) = 1.
Proof.
  destruct (pool_refines_accounting 4 16
    (free (incref (allocate (make 4 16) 2).2 0) [0; 1]) [0]) as (_ & _ & H & _).
  - lia.
  - lia.
  - eapply rtc_l; [apply (step_allocate _ [] 2 [0; 1]); vm_compute; reflexivity|].
    eapply rtc_l; [apply (step_incref _ _ 0); [set_solver | vm_compute; reflexivity]|].
    eapply rtc_l; [|apply rtc_refl]. apply (step_free _ _ [0; 1] [0]). simpl.
    apply perm_skip, perm_swap.
  - exact H.
Defined.

(** [allocate] is all-or-nothing.  On a pool that accounts for [refs] it
    refuses exactly when fewer than [n] blocks are free, leaving the pool untouched;
    otherwise it hands out [n] distinct, in-range blocks that nobody held, each at
    one reference, and the free count drops by exactly [n]. *)
Theorem allocate_all_or_nothing a refs n :
  accounts a refs →
  match allocate a n with
  | (None, a') => a' = a ∧ free_blocks a < n
  | (Some ids, a') =>
      len ids = n ∧ NoDup ids ∧
      (∀ id, id ∈ ids → id < total_ a ∧ id ∉ refs ∧ refcount a' id = 1) ∧
      free_blocks a' = free_blocks a - n ∧ n ≤ free_blocks a ∧
      accounts a' (ids ++ refs)
  end.
Proof.
  intros A. destruct (allocate_cases a n) as [[H ->]|[_ (ids & a' & E)]]; [done|].
  rewrite E. destruct (allocate_Some a n ids a' refs A E) as (H1 & H2 & H3 & H4 & H5 & _ & _ & H6).
  split_and!; try done. intros id Hin. destruct (H4 id Hin). split_and!; try done.
  destruct H6 as [_ ->]. rewrite occ_app, (occ_NoDup id ids), (proj2 (occ_0 id refs)); done.
Qed.

Lemma allocate_all_or_nothing_witness :
  accounts (make 4 16) [] ∧
  match allocate (make 4 16) 3 with
  | (None, _) => False | (Some ids, a') => len ids = 3 ∧ free_blocks a' = 1
  end.
Proof.
  assert (A : accounts (make 4 16) []) by (apply make_accounts; lia).
  split; [exact A|]. pose proof (allocate_all_or_nothing (make 4 16) [] 3 A) as H.
  vm_compute in H |- *. tauto.
Defined.

(** [free] never corrupts the pool.  For any well-formed pool and any list of
    ids, out-of-range and already-free ids included, the invariant is preserved (in
    particular no block enters the free list twice), and freeing only ids that hold
    no reference is a no-op. *)
Theorem free_never_corrupts a ids :
  wf a →
  wf (free a ids) ∧ ((∀ id, id ∈ ids → refcount a id = 0) → free a ids = a).
Proof.
  intros W. split; [by apply free_wf|]. unfold free. revert a W.
  induction ids as [|id ids IH]; intros a W H; simpl; [done|].
  rewrite free1_unheld by (apply H; set_solver). apply IH; [done|]. set_solver.
Qed.

Lemma free_never_corrupts_witness :
  free (free (allocate (make 2 16) 1).2 [0]) [0; 7] = free (allocate (make 2 16) 1).2 [0].
Proof.
  destruct (free_never_corrupts (free (allocate (make 2 16) 1).2 [0]) [0; 7]) as [_ H].
  - apply free_wf. apply (step_accounts (make 2 16, []) ((allocate (make 2 16) 1).2, [0])).
    + apply (step_allocate _ [] 1 [0]). vm_compute. reflexivity.
    + apply make_accounts; lia.
  - apply H. intros id Hin. apply list_elem_of_In in Hin. simpl in Hin.
    destruct Hin as [<-|[<-|[]]]; vm_compute; reflexivity.
Defined.

(** ** Calls with any arguments *)

Lemma allocate_wf a n :
  wf a →
  wf (allocate a n).2 ∧ total_ (allocate a n).2 = total_ a ∧
  ∀ ids, (allocate a n).1 = Some ids →
    len ids = n ∧ NoDup ids ∧ ∀ id, id ∈ ids → id < total_ a ∧ refcount a id = 0.
Proof.
  intros W. destruct (wf_accounts a W) as [refs A].
  destruct (allocate_cases a n) as [[_ Ea]|(_ & ids & a' & Ea)]; rewrite Ea; simpl; [done|].
  destruct (allocate_Some a n ids a' refs A Ea) as (_ & A2 & A3 & A4 & _ & A6 & _ & [A8 _]).
  split_and!; [done..|]. intros ids' [= <-]. split_and!; [done..|]. intros id Hin. destruct (A4 id Hin) as [? Hn].
  split; [done|]. destruct A as [_ ->]. by apply occ_0.
Qed.

Lemma incref_wf a id : wf a → refcount a id + 1 < 4294967296 → wf (incref a id).
Proof.
  intros W Hr. destruct (wf_accounts a W) as [refs A]. pose proof A as [_ Hc]. rewrite Hc in Hr.
  destruct (decide (id ∈ refs)) as [Hin|Hn]; [by destruct (incref_accounts a id refs A Hin Hr)|].
  rewrite <- occ_0, <- Hc, refcount_at in Hn by done. unfold incref.
  destruct (_ && _) eqn:Eg; [|done]. bool_hyps. lia.
Qed.

(** A call of a member function, whatever the caller passes. *)
Inductive call : t → t → Prop :=
  | call_allocate a n : call a (allocate a n).2
  | call_free a ids : call a (free a ids)
  | call_incref a id : refcount a id + 1 < 4294967296 → call a (incref a id).

Lemma call_wf a a' : call a a' → wf a → wf a' ∧ total_ a' = total_ a.
Proof.
  intros [a0 n|a0 ids|a0 id Hr] W.
  - by destruct (allocate_wf a0 n W) as (? & ? & _).
  - split; [by apply free_wf|apply free_frame].
  - split; [by apply incref_wf|apply incref_frame].
Qed.

(** C20: the pool cannot be corrupted through its interface.  After any sequence of
    calls with any arguments (double frees, ids out of range, counts that cannot be
    met), as long as no counter of 32 bits overflows, the representation is well formed:
    the free list holds exactly the blocks without references, each once.  So
    [allocate] never pops an empty list, its assertion that a block of the free list
    has no references holds, and it hands out distinct ids within range. *)
Theorem pool_well_formed total bs a :
  total < 4294967296 → bs < 4294967296 → rtc call (make total bs) a →
  wf a ∧ total_ a = total ∧
  ∀ n ids, (allocate a n).1 = Some ids →
    len ids = n ∧ NoDup ids ∧ ∀ id, id ∈ ids → id < total ∧ refcount a id = 0.
Proof.
  intros Ht Hb R. assert (G : wf a ∧ total_ a = total).
  { assert (G0 : wf (make total bs) ∧ total_ (make total bs) = total) by (split; [by apply make_accounts|done]).
    revert G0. induction R as [|a a1 a2 C _ IH]; [done|]. intros [W Hw]. destruct (call_wf _ _ C W).
    apply IH. split; [done|congruence]. }
  destruct G as [W <-]. split_and!; [done..|]. intros n ids Ha. by apply (allocate_wf a n W).
Qed.

(** Allocate two of three blocks, free one twice and an id out of range. *)
Lemma pool_well_formed_witness :
  let a := free (allocate (make 3 16) 2).2 [0; 0; 9] in
  wf a ∧ (allocate a 2).1 = Some [0; 2].
Proof.
  intros a. split; [|vm_compute; reflexivity]. apply (pool_well_formed 3 16 a); [lia..|].
  eapply rtc_l; [apply call_allocate|]. eapply rtc_l; [apply call_free|]. apply rtc_refl.
Defined.

Lemma blocks_for_ceil a n :
  0 < block_size_ a → n + block_size_ a ≤ 4294967296 →
  blocks_for a n = (n + block_size_ a - 1) / block_size_ a.
Proof.
  intros Hb Hn. unfold blocks_for.
  destruct (decide (n + block_size_ a = 4294967296)) as [E|E].
  - rewrite E. unfold add32. rewrite E. vm_compute (sub32 (wrap32 4294967296) 1).
    done.
  - rewrite add32_small, sub32_small by lia. done.
Qed.

(** [blocks_for] is the ceiling of [n_tokens / block_size] exactly on the range
    where the sum [n_tokens + block_size] does not exceed 2^32: there the result is
    the least number of blocks that covers [n_tokens]; on every larger 32-bit
    [n_tokens] the addition wraps and the result covers fewer tokens than asked. *)
Theorem blocks_for_bounds a n :
  0 < block_size_ a → block_size_ a < 4294967296 → n < 4294967296 →
  (n ≤ blocks_for a n * block_size_ a ↔ n + block_size_ a ≤ 4294967296) ∧
  (n + block_size_ a ≤ 4294967296 →
     ∀ k, n ≤ k * block_size_ a → blocks_for a n ≤ k).
Proof.
  intros Hb Hb' Hn. set (bs := block_size_ a) in *.
  destruct (decide (n + bs ≤ 4294967296)) as [H|H].
  - rewrite (blocks_for_ceil a n) by done. fold bs.
    pose proof (N.div_mod (n + bs - 1) bs ltac:(lia)) as D.
    pose proof (N.mod_lt (n + bs - 1) bs ltac:(lia)) as M.
    split; [split; [done|nia]|]. intros _ k Hk.
    apply N.lt_succ_r, N.Div0.div_lt_upper_bound. nia.
  - split; [|done]. split; [|done]. intros Hc. exfalso.
    unfold blocks_for in Hc. fold bs in Hc. unfold add32, wrap32 in Hc.
    assert (E : (n + bs) mod 4294967296 = n + bs - 4294967296).
    { replace (n + bs) with ((n + bs - 4294967296) + 1 * 4294967296) at 1 by lia.
      rewrite N.Div0.mod_add. apply N.mod_small. lia. }
    rewrite E, sub32_small in Hc by lia.
    pose proof (N.Div0.mul_div_le (n + bs - 4294967296 - 1) bs). lia.
Qed.

Lemma blocks_for_bounds_witness :
  ¬ (4294967295 ≤ blocks_for (make 256 16) 4294967295 * 16).
Proof.
  intros H. apply (proj1 (blocks_for_bounds (make 256 16) 4294967295
    ltac:(vm_compute; reflexivity) ltac:(vm_compute; reflexivity) ltac:(lia))) in H.
  vm_compute in H. by apply H.
Defined.

End BlockAllocator.
