(* ===== verification/Tables.v ===== *)
(** A sequence's page table: class [BlockTable] of
    [include/microvllm/block_allocator.hpp] and [src/core/block_allocator.cpp].
    The table holds a pointer to the shared pool, so each operation takes and
    returns the pool beside the table. *)
From Stdlib Require Import Permutation Lia.
From S2P Require Import Prelude Types Blocks.
From stdpp Require Import base list gmap.

Local Open Scope N_scope.

Module BlockTable.

Record t := mk {
  blocks_ : list N;
  n_tokens_ : N;
  shared_prefix_blocks_ : N;
  shared_prefix_tokens_ : N }.

Definition empty : t := mk [] 0 0 0.

Definition n_blocks (tb : t) : N := wrap32 (len (blocks_ tb)).

Definition ensure_capacity (a : BlockAllocator.t) (tb : t) (n_tokens : N)
    : bool * BlockAllocator.t * t :=
  let needed := BlockAllocator.blocks_for a n_tokens in
  if n_blocks tb <? needed then
    match BlockAllocator.allocate a (sub32 needed (n_blocks tb)) with
    | (None, a') => (false, a', tb)
    | (Some extra, a') =>
        (true, a', mk (blocks_ tb ++ extra) n_tokens
                      (shared_prefix_blocks_ tb) (shared_prefix_tokens_ tb))
    end
  else (true, a, mk (blocks_ tb) n_tokens (shared_prefix_blocks_ tb) (shared_prefix_tokens_ tb)).

(** The loop of [adopt_shared_prefix]: take a reference, append the block. *)
Definition adopt_loop (a : BlockAllocator.t) (bs ids : list N) : BlockAllocator.t * list N :=
  fold_left (λ s id, (BlockAllocator.incref s.1 id, push_back s.2 id)) ids (a, bs).

Definition adopt_shared_prefix (a : BlockAllocator.t) (tb : t) (ids : list N) (n_tokens : N)
    : BlockAllocator.t * t :=
  let (a', bs) := adopt_loop a (blocks_ tb) ids in
  (a', mk bs (N.max (n_tokens_ tb) n_tokens) (wrap32 (len ids)) n_tokens).

Definition release (a : BlockAllocator.t) (tb : t) : BlockAllocator.t * t :=
  (BlockAllocator.free a (blocks_ tb), empty).

(** ** The invariant the class documents: [blocks.size() == ceil(n_tokens / block_size)] *)

Definition exact (a : BlockAllocator.t) (tb : t) : Prop :=
  len (blocks_ tb) = BlockAllocator.blocks_for a (n_tokens_ tb).

(** ** Lemmas *)

Lemma blocks_for_frame a a' n :
  BlockAllocator.block_size_ a' = BlockAllocator.block_size_ a →
  BlockAllocator.blocks_for a' n = BlockAllocator.blocks_for a n.
Proof. unfold BlockAllocator.blocks_for. by intros ->. Qed.

Lemma blocks_for_lt a n :
  BlockAllocator.wf a → BlockAllocator.blocks_for a n < 4294967296.
Proof.
  intros W. pose proof (BlockAllocator.wf_bs a W). unfold BlockAllocator.blocks_for.
  unfold sub32. set (x := wrap32 _). assert (x < 4294967296) by apply wrap32_lt.
  apply N.le_lt_trans with x; [apply N.Div0.div_le_upper_bound; nia|done].
Qed.

(** What [ensure_capacity] does, in one statement: it fails exactly when the
    shortfall exceeds the free blocks, changing nothing; otherwise the references
    of the table grow by freshly allocated blocks to at least the blocks needed. *)
Lemma ensure_capacity_spec a tb n refs :
  BlockAllocator.accounts a (blocks_ tb ++ refs) → len (blocks_ tb) < 4294967296 →
  match ensure_capacity a tb n with
  | (false, a', tb') =>
      a' = a ∧ tb' = tb ∧
      BlockAllocator.free_blocks a + len (blocks_ tb) < BlockAllocator.blocks_for a n
  | (true, a', tb') =>
      ∃ extra, blocks_ tb' = blocks_ tb ++ extra ∧ n_tokens_ tb' = n ∧
        len extra = BlockAllocator.blocks_for a n - len (blocks_ tb) ∧
        BlockAllocator.free_blocks a' = BlockAllocator.free_blocks a - len extra ∧
        len extra ≤ BlockAllocator.free_blocks a ∧
        BlockAllocator.total_ a' = BlockAllocator.total_ a ∧
        BlockAllocator.block_size_ a' = BlockAllocator.block_size_ a ∧
        BlockAllocator.accounts a' (blocks_ tb' ++ refs)
  end.
Proof.
  intros A Hl. pose proof A as [W _]. unfold ensure_capacity, n_blocks.
  rewrite wrap32_small by done. pose proof (blocks_for_lt a n W).
  destruct (_ <? _) eqn:E; bool_hyps.
  - rewrite sub32_small by lia.
    destruct (BlockAllocator.allocate_cases a (BlockAllocator.blocks_for a n - len (blocks_ tb)))
      as [[Hlt ->]|[_ (ids & a' & EA)]].
    + split_and!; [done|done|lia].
    + rewrite EA. eapply BlockAllocator.allocate_Some in EA
        as (H1 & H2 & H3 & _ & H4 & H5 & H6 & H7); [|exact A].
      exists ids. simpl. split_and!; try done; try lia.
      eapply BlockAllocator.accounts_proper; [done| |exact H7].
      rewrite <- app_assoc. rewrite !app_assoc. apply Permutation_app_tail, Permutation_app_comm.
  - exists []. simpl. rewrite app_nil_r, len_nil. split_and!; try done; lia.
Qed.

Lemma adopt_loop_spec a bs ids refs :
  BlockAllocator.accounts a refs → (∀ id, id ∈ ids → id ∈ refs) →
  len refs + len ids < 4294967296 →
  let r := adopt_loop a bs ids in
  r.2 = bs ++ ids ∧ BlockAllocator.accounts r.1 (ids ++ refs) ∧
  BlockAllocator.free_list_ r.1 = BlockAllocator.free_list_ a ∧
  BlockAllocator.total_ r.1 = BlockAllocator.total_ a ∧
  BlockAllocator.block_size_ r.1 = BlockAllocator.block_size_ a.
Proof.
  unfold adopt_loop. revert a bs refs. induction ids as [|id ids IH]; intros a bs refs A Hin Hl; simpl.
  { by rewrite app_nil_r. }
  rewrite len_cons in Hl.
  destruct (IH (BlockAllocator.incref a id) (push_back bs id) (id :: refs)) as (I1 & I2 & I3 & I4 & I5).
  - apply BlockAllocator.incref_accounts; [done|apply Hin; set_solver|].
    pose proof (occ_le_len id refs). lia.
  - set_solver.
  - rewrite len_cons. lia.
  - destruct (BlockAllocator.incref_frame a id) as (F1 & F2 & F3).
    rewrite I1, I3, I4, I5, F1, F2, F3. split_and!; try done.
    + unfold push_back. by rewrite <- app_assoc.
    + eapply BlockAllocator.accounts_proper; [done|apply Permutation_middle|done].
Qed.

Lemma adopt_shared_prefix_spec a tb ids n refs :
  BlockAllocator.accounts a (blocks_ tb ++ refs) → (∀ id, id ∈ ids → id ∈ blocks_ tb ++ refs) →
  len (blocks_ tb ++ refs) + len ids < 4294967296 →
  let r := adopt_shared_prefix a tb ids n in
  blocks_ r.2 = blocks_ tb ++ ids ∧ BlockAllocator.accounts r.1 (blocks_ r.2 ++ refs) ∧
  BlockAllocator.free_list_ r.1 = BlockAllocator.free_list_ a ∧
  BlockAllocator.total_ r.1 = BlockAllocator.total_ a ∧
  BlockAllocator.block_size_ r.1 = BlockAllocator.block_size_ a.
Proof.
  intros A Hin Hl. pose proof (adopt_loop_spec a (blocks_ tb) ids _ A Hin Hl) as (H1 & H2 & H3 & H4 & H5).
  unfold adopt_shared_prefix. destruct (adopt_loop _ _ _) as [a' bs]. simpl in *. subst bs.
  split_and!; try done. eapply BlockAllocator.accounts_proper; [done| |exact H2].
  rewrite !app_assoc. apply Permutation_app_tail, Permutation_app_comm.
Qed.

Lemma release_accounts a tb refs :
  BlockAllocator.accounts a (blocks_ tb ++ refs) →
  BlockAllocator.accounts (release a tb).1 refs ∧ (release a tb).2 = empty.
Proof. intros A. split; [|done]. by apply BlockAllocator.free_accounts. Qed.

(** [ensure_capacity] grows a table by exactly the shortfall or changes
    nothing.  On a table that satisfies the documented invariant
    [blocks.size() == ceil(n_tokens / block_size)], a request for at least as many
    tokens either fails, leaving pool and table as they were because the pool has
    fewer free blocks than the shortfall, or succeeds: the invariant holds at the
    new token count, the old blocks stay in place as a prefix, and the pool
    accounts for exactly the old references plus the new blocks. *)
Theorem ensure_capacity_exact a tb n refs :
  BlockAllocator.accounts a (blocks_ tb ++ refs) → len (blocks_ tb) < 4294967296 →
  exact a tb → BlockAllocator.blocks_for a (n_tokens_ tb) ≤ BlockAllocator.blocks_for a n →
  match ensure_capacity a tb n with
  | (false, a', tb') =>
      a' = a ∧ tb' = tb ∧
      BlockAllocator.free_blocks a < BlockAllocator.blocks_for a n - len (blocks_ tb)
  | (true, a', tb') =>
      exact a' tb' ∧ n_tokens_ tb' = n ∧ blocks_ tb `prefix_of` blocks_ tb' ∧
      BlockAllocator.free_blocks a' + len (blocks_ tb')
        = BlockAllocator.free_blocks a + len (blocks_ tb) ∧
      BlockAllocator.accounts a' (blocks_ tb' ++ refs)
  end.
Proof.
  intros A Hl Hx Hm. pose proof (ensure_capacity_spec a tb n refs A Hl) as H.
  destruct (ensure_capacity a tb n) as [[[] a'] tb']; unfold exact in *.
  - destruct H as (extra & E1 & E2 & E3 & E4 & E5 & E6 & E7 & E8).
    rewrite E1, E2, (blocks_for_frame a a' n) by done. rewrite E1 in E8.
    rewrite len_app. split_and!; try done; try lia. by exists extra.
  - destruct H as (-> & -> & H). split_and!; try done. lia.
Qed.

Lemma ensure_capacity_exact_witness :
  match ensure_capacity (BlockAllocator.make 4 16) empty 33 with
  | (true, _, tb') => len (blocks_ tb') = 3
  | (false, _, _) => False
  end.
Proof.
  pose proof (ensure_capacity_exact (BlockAllocator.make 4 16) empty 33 []
    ltac:(apply BlockAllocator.make_accounts; lia) ltac:(vm_compute; reflexivity)
    ltac:(vm_compute; reflexivity) ltac:(vm_compute; discriminate)) as H.
  vm_compute in H |- *. tauto.
Defined.

(** Releasing a table drops exactly its own references: every other holder's
    references, shared blocks included, are accounted for unchanged afterwards, the
    table is empty, and releasing it again changes nothing. *)
Theorem release_only_own a tb refs :
  BlockAllocator.accounts a (blocks_ tb ++ refs) →
  let (a', tb') := release a tb in
  BlockAllocator.accounts a' refs ∧ tb' = empty ∧
  (∀ id, id ∈ refs → 0 < BlockAllocator.refcount a' id) ∧
  release a' tb' = (a', tb').
Proof.
  intros A. pose proof (release_accounts a tb refs A) as [A' E].
  destruct (release a tb) as [a' tb']. simpl in *. subst. split_and!; try done.
  intros id Hin. destruct A' as [_ ->]. by apply occ_pos.
Qed.

Lemma release_only_own_witness :
  let a := BlockAllocator.incref (BlockAllocator.allocate (BlockAllocator.make 4 16) 2).2 0 in
  BlockAllocator.refcount (release a (mk [0; 1] 32 0 0)).1 0 = 1.
Proof.
  intros a.
  pose proof (release_only_own a (mk [0; 1] 32 0 0) [0]) as H.
  assert (A : BlockAllocator.accounts a ([0; 1] ++ [0])).
  { eapply BlockAllocator.accounts_proper; [reflexivity|apply perm_skip, perm_swap|].
    apply (BlockAllocator.incref_accounts _ 0 [0; 1]); [|set_solver|vm_compute; reflexivity].
    apply (BlockAllocator.allocate_Some (BlockAllocator.make 4 16) 2 [0; 1] _ []);
      [apply BlockAllocator.make_accounts; lia|vm_compute; reflexivity]. }
  specialize (H A). simpl in H. destruct H as [[_ ->] _]. vm_compute. reflexivity.
Defined.

(** Adopting a shared prefix after capacity was reserved breaks the documented
    table invariant.  When the table already satisfies
    [blocks.size() == ceil(n_tokens / block_size)] and a non-empty shared prefix no
    longer than the reserved tokens is adopted, which is the order in which the
    scheduler admits a request, the table holds its own blocks followed by the
    shared ones, more than the invariant allows. *)
Theorem adopt_after_reserve_inexact a tb ids n :
  exact a tb → ids ≠ [] → n ≤ n_tokens_ tb →
  let r := adopt_shared_prefix a tb ids n in
  blocks_ r.2 = blocks_ tb ++ ids ∧ n_tokens_ r.2 = n_tokens_ tb ∧ ¬ exact r.1 r.2.
Proof.
  intros Hx Hne Hn. unfold adopt_shared_prefix, adopt_loop.
  assert (G : ∀ bs a0, let r := fold_left (λ s id, (BlockAllocator.incref s.1 id, push_back s.2 id)) ids (a0, bs) in
    r.2 = bs ++ ids ∧ BlockAllocator.block_size_ r.1 = BlockAllocator.block_size_ a0).
  { clear. induction ids as [|id ids IH]; intros bs a0; simpl; [by rewrite app_nil_r|].
    destruct (IH (push_back bs id) (BlockAllocator.incref a0 id)) as [-> ->].
    destruct (BlockAllocator.incref_frame a0 id) as (_ & -> & _).
    unfold push_back. by rewrite <- app_assoc. }
  specialize (G (blocks_ tb) a). destruct (fold_left _ _ _) as [a' bs]. simpl in *.
  destruct G as [-> Hbs]. rewrite N.max_l by done. split_and!; [done|done|].
  unfold exact in *. simpl. rewrite (blocks_for_frame a a') by done.
  rewrite len_app, Hx. destruct ids; [done|]. rewrite len_cons. lia.
Qed.

Lemma adopt_after_reserve_inexact_witness :
  let s := ensure_capacity (BlockAllocator.make 8 16) empty 20 in
  ¬ exact (adopt_shared_prefix s.1.2 s.2 [5] 16).1 (adopt_shared_prefix s.1.2 s.2 [5] 16).2.
Proof.
  intros s. apply (adopt_after_reserve_inexact s.1.2 s.2 [5] 16);
    [vm_compute; reflexivity | discriminate | vm_compute; discriminate].
Defined.

End BlockTable.
