(* ===== verification/Prefix.v ===== *)
(** The prompt-prefix cache: class [PrefixCache] of
    [include/microvllm/block_allocator.hpp] and [src/core/block_allocator.cpp].

    [entries_] is a [std::unordered_map]; here a [gmap].  Its iteration order
    reaches the result only in [evict_lru_retained] when two records carry the same
    [last_used] tick, which [ticks_ok] excludes. *)
From Stdlib Require Import Permutation Lia.
From S2P Require Import Prelude Types Blocks.
From stdpp Require Import base list gmap.

Local Open Scope N_scope.

Module PrefixCache.

Record Entry := mkEntry {
  e_seq : SeqId;
  e_n_tokens : N;
  e_blocks : list N;
  e_retained : bool }.

Record Rec := mkRec {
  r_entry : Entry;
  r_last_used : N }.

Record t := mk {
  entries_ : gmap N Rec;
  free_donor_slots_ : list Z;
  first_donor_slot_ : Z;
  donor_capacity_ : N;
  tick_ : N }.

Definition empty : t := mk ∅ [] 0 0 0.

Definition donor_capacity (c : t) : N := donor_capacity_ c.
Definition donors_held (c : t) : N :=
  sub32 (donor_capacity_ c) (wrap32 (len (free_donor_slots_ c))).

(** One round of FNV-1a. *)
Definition fnv_round (h : N) (tok : Token) : N :=
  mul64 (N.lxor h (to_u32 tok)) 1099511628211.

Definition hash_prefix (tokens : list Token) (n_tokens : N) : N :=
  fold_left fnv_round (take (N.to_nat n_tokens) tokens) 1469598103934665603.

(** [for (i = count; i > 0; --i) push_back(first + (i - 1))]. *)
Fixpoint donor_slots (first : Z) (i : nat) : list Z :=
  match i with
  | O => []
  | S i' => (first + Z.of_nat i')%Z :: donor_slots first i'
  end.

Definition configure_donors (c : t) (first : Z) (count : N) : t :=
  mk (entries_ c) (donor_slots first (N.to_nat count)) first count (tick_ c).

(** The loop of [find_longest] over whole-block prefixes, longest first. *)
Fixpoint find_loop (c : t) (tokens : list Token) (block_size : N) (nb : nat) : option Entry * t :=
  match nb with
  | O => (None, c)
  | S nb' =>
      let n_tokens := mul32 (N.of_nat nb) block_size in
      let h := hash_prefix tokens n_tokens in
      match entries_ c !! h with
      | Some r =>
          if e_n_tokens (r_entry r) =? n_tokens then
            let tick := add64 (tick_ c) 1 in
            (Some (r_entry r),
             mk (<[h := mkRec (r_entry r) tick]> (entries_ c)) (free_donor_slots_ c)
                (first_donor_slot_ c) (donor_capacity_ c) tick)
          else find_loop c tokens block_size nb'
      | None => find_loop c tokens block_size nb'
      end
  end.

Definition find_longest (c : t) (tokens : list Token) (block_size : N) : option Entry * t :=
  if (block_size =? 0) || (len tokens =? 0) then (None, c)
  else find_loop c tokens block_size (N.to_nat (wrap32 (len tokens / block_size))).

Definition insert (c : t) (hash : N) (entry : Entry) : t :=
  let tick := add64 (tick_ c) 1 in
  mk (<[hash := mkRec entry tick]> (entries_ c)) (free_donor_slots_ c)
     (first_donor_slot_ c) (donor_capacity_ c) tick.

Definition take_donor_slot (c : t) : option SeqId * t :=
  match back (free_donor_slots_ c) with
  | None => (None, c)
  | Some slot =>
      (Some slot, mk (entries_ c) (pop_back (free_donor_slots_ c))
                     (first_donor_slot_ c) (donor_capacity_ c) (tick_ c))
  end.

Definition retain (c : t) (hash : N) (slot : SeqId) (n_tokens : N) (blocks : list N) : t :=
  insert c hash (mkEntry slot n_tokens blocks true).

(** The scan of [evict_lru_retained]: the first retained record with the smallest
    tick. *)
Definition lru_pick (victim : option (N * Rec)) (hr : N * Rec) : option (N * Rec) :=
  if negb (e_retained (r_entry hr.2)) then victim
  else
    match victim with
    | None => Some hr
    | Some v => if r_last_used hr.2 <? r_last_used v.2 then Some hr else victim
    end.

Definition lru_scan (l : list (N * Rec)) : option (N * Rec) := fold_left lru_pick l None.

Definition evict_lru_retained (c : t) : option Entry * t :=
  match lru_scan (map_to_list (entries_ c)) with
  | None => (None, c)
  | Some (h, r) =>
      (Some (r_entry r),
       mk (delete h (entries_ c)) (push_back (free_donor_slots_ c) (e_seq (r_entry r)))
          (first_donor_slot_ c) (donor_capacity_ c) (tick_ c))
  end.

(** One iteration of [evict_sequence]'s loop. *)
Definition evict1 (seq : SeqId) (c : t) (hr : N * Rec) : t :=
  if negb (e_seq (r_entry hr.2) =? seq)%Z then c
  else
    mk (delete hr.1 (entries_ c))
       (if e_retained (r_entry hr.2) then push_back (free_donor_slots_ c) seq
        else free_donor_slots_ c)
       (first_donor_slot_ c) (donor_capacity_ c) (tick_ c).

Definition evict_sequence (c : t) (seq : SeqId) : t :=
  fold_left (evict1 seq) (map_to_list (entries_ c)) c.

Definition size (c : t) : N := N.of_nat (base.size (entries_ c)).

Definition clear (c : t) : t :=
  configure_donors (mk ∅ (free_donor_slots_ c) (first_donor_slot_ c) (donor_capacity_ c) (tick_ c))
                   (first_donor_slot_ c) (donor_capacity_ c).

(** ** Views and invariants

    [retained c] lists the entries that occupy donor slots.  [slots_ok c held]
    says that every reserved slot is exactly once free, occupied by a retained
    entry, or in the hands of a caller ([held]).  [ticks_ok] says that records
    carry distinct ticks, none beyond the counter. *)

Definition retained_of (kr : N * Rec) : option Entry :=
  if e_retained (r_entry kr.2) then Some (r_entry kr.2) else None.

Definition retained (c : t) : list Entry := omap retained_of (map_to_list (entries_ c)).

Definition retained_blocks (c : t) : list N := concat (e_blocks <$> retained c).

Definition slots_ok (c : t) (held : list Z) : Prop :=
  free_donor_slots_ c ++ (e_seq <$> retained c) ++ held
    ≡ₚ donor_slots (first_donor_slot_ c) (N.to_nat (donor_capacity_ c)).

Definition ticks_ok (c : t) : Prop :=
  (∀ h r, entries_ c !! h = Some r → r_last_used r ≤ tick_ c) ∧
  (∀ h h' r r', entries_ c !! h = Some r → entries_ c !! h' = Some r' →
     r_last_used r = r_last_used r' → h = h').

(** ** Lemmas on the views *)

Lemma retained_with c m :
  m = entries_ c → retained c = omap retained_of (map_to_list m).
Proof. by intros ->. Qed.

Lemma omap_app_perm (l k : list (N * Rec)) :
  l ≡ₚ k → omap retained_of l ≡ₚ omap retained_of k.
Proof. intros H. by rewrite H. Qed.

Lemma retained_delete (m : gmap N Rec) h r :
  m !! h = Some r →
  omap retained_of (map_to_list m)
    ≡ₚ option_list (retained_of (h, r)) ++ omap retained_of (map_to_list (delete h m)).
Proof.
  intros E. rewrite <- (map_to_list_delete m h r E). simpl.
  by destruct (retained_of (h, r)).
Qed.

Lemma retained_insert (m : gmap N Rec) h r :
  omap retained_of (map_to_list (<[h := r]> m))
    ≡ₚ option_list (retained_of (h, r)) ++ omap retained_of (map_to_list (delete h m)).
Proof.
  rewrite <- insert_delete_eq. rewrite map_to_list_insert by apply lookup_delete_eq. simpl.
  by destruct (retained_of (h, r)).
Qed.

(** Overwriting a record that is not a donor adds or keeps donors. *)
Lemma retained_overwrite (m : gmap N Rec) h r :
  (∀ r0, m !! h = Some r0 → e_retained (r_entry r0) = false) →
  omap retained_of (map_to_list (<[h := r]> m))
    ≡ₚ option_list (retained_of (h, r)) ++ omap retained_of (map_to_list m).
Proof.
  intros H. rewrite retained_insert. apply Permutation_app_head.
  destruct (m !! h) as [r0|] eqn:E.
  - rewrite (retained_delete m h r0 E). unfold retained_of at 2. simpl.
    by rewrite (H r0 eq_refl).
  - by rewrite delete_id.
Qed.

(** Rewriting a record with the same entry (a touch) changes no donor. *)
Lemma retained_touch (m : gmap N Rec) h r k :
  m !! h = Some r →
  omap retained_of (map_to_list (<[h := mkRec (r_entry r) k]> m))
    ≡ₚ omap retained_of (map_to_list m).
Proof. intros E. by rewrite retained_insert, (retained_delete m h r E). Qed.

Lemma elem_of_retained c e :
  e ∈ retained c ↔ e_retained e = true ∧ ∃ h k, entries_ c !! h = Some (mkRec e k).
Proof.
  unfold retained. rewrite list_elem_of_omap. split.
  - intros ([h r] & Hin & He). apply elem_of_map_to_list in Hin. unfold retained_of in He.
    simpl in He. destruct (e_retained (r_entry r)) eqn:Er; [|done]. simplify_eq.
    split; [done|]. exists h, (r_last_used r). by destruct r.
  - intros (He & h & k & Hl). exists (h, mkRec e k).
    rewrite elem_of_map_to_list. unfold retained_of. simpl. by rewrite He.
Qed.

(** [v] is the least recently used retained record of [l]. *)
Definition lru_of (l : list (N * Rec)) (v : option (N * Rec)) : Prop :=
  match v with
  | None => ∀ hr, hr ∈ l → e_retained (r_entry hr.2) = false
  | Some w =>
      e_retained (r_entry w.2) = true ∧ w ∈ l ∧
      ∀ hr, hr ∈ l → e_retained (r_entry hr.2) = true → r_last_used w.2 ≤ r_last_used hr.2
  end.

Lemma lru_pick_of l v hr : lru_of l v → lru_of (l ++ [hr]) (lru_pick v hr).
Proof.
  unfold lru_of, lru_pick. intros H.
  destruct (e_retained (r_entry hr.2)) eqn:E; simpl.
  - destruct v as [w|].
    + destruct H as (H1 & H2 & H3). destruct (r_last_used hr.2 <? r_last_used w.2) eqn:El; bool_hyps.
      * split_and!; [done|set_solver|]. intros hr' Hin Hr.
        apply elem_of_app in Hin as [Hin|Hin%list_elem_of_singleton]; [|by subst].
        specialize (H3 hr' Hin Hr). lia.
      * split_and!; [done|set_solver|]. intros hr' Hin Hr.
        apply elem_of_app in Hin as [Hin|Hin%list_elem_of_singleton]; [by apply H3|by subst].
    + split_and!; [done|set_solver|]. intros hr' Hin Hr.
      apply elem_of_app in Hin as [Hin|Hin%list_elem_of_singleton]; [|by subst].
      specialize (H hr' Hin). congruence.
  - destruct v as [w|]; [|set_solver]. destruct H as (H1 & H2 & H3). split_and!; [done|set_solver|].
    intros hr' Hin Hr. apply elem_of_app in Hin as [Hin|Hin%list_elem_of_singleton]; [by apply H3|].
    subst. congruence.
Qed.

Lemma lru_scan_of l : lru_of l (lru_scan l).
Proof.
  enough (G : ∀ l0 v, lru_of l0 v → lru_of (l0 ++ l) (fold_left lru_pick l v))
    by (apply (G []); simpl; set_solver).
  induction l as [|hr l IH]; intros l0 v H; simpl; [by rewrite app_nil_r|].
  rewrite cons_middle, app_assoc. by apply IH, lru_pick_of.
Qed.

(** ** What each operation does to the views *)

Lemma insert_retained c h e :
  (∀ r0, entries_ c !! h = Some r0 → e_retained (r_entry r0) = false) →
  retained (insert c h e) ≡ₚ (if e_retained e then [e] else []) ++ retained c.
Proof.
  intros H. unfold retained, insert. simpl. rewrite retained_overwrite by done.
  unfold retained_of at 1. simpl. by destruct (e_retained e).
Qed.

Lemma insert_over_donor c h e r :
  entries_ c !! h = Some r → e_retained (r_entry r) = true →
  retained c ≡ₚ r_entry r :: omap retained_of (map_to_list (delete h (entries_ c))) ∧
  retained (insert c h e)
    ≡ₚ (if e_retained e then [e] else []) ++ omap retained_of (map_to_list (delete h (entries_ c))).
Proof.
  intros E Er. split.
  - unfold retained. rewrite (retained_delete _ h r E). unfold retained_of at 1. simpl. by rewrite Er.
  - unfold retained, insert. simpl. rewrite retained_insert. unfold retained_of at 1. simpl.
    by destruct (e_retained e).
Qed.

Lemma find_loop_frame c tokens bs nb :
  let c' := (find_loop c tokens bs nb).2 in
  retained c' ≡ₚ retained c ∧ free_donor_slots_ c' = free_donor_slots_ c ∧
  first_donor_slot_ c' = first_donor_slot_ c ∧ donor_capacity_ c' = donor_capacity_ c ∧
  (∀ h, r_entry <$> entries_ c' !! h = r_entry <$> entries_ c !! h).
Proof.
  induction nb as [|nb IH]; simpl; [done|].
  destruct (entries_ c !! _) as [r|] eqn:E; [|done].
  destruct (e_n_tokens (r_entry r) =? _); [|done]. simpl.
  split_and!; try done.
  - unfold retained. simpl. by apply retained_touch.
  - intros h. rewrite lookup_insert. case_decide; subst; [|done]. by rewrite E.
Qed.

Lemma find_longest_frame c tokens bs :
  let c' := (find_longest c tokens bs).2 in
  retained c' ≡ₚ retained c ∧ free_donor_slots_ c' = free_donor_slots_ c ∧
  first_donor_slot_ c' = first_donor_slot_ c ∧ donor_capacity_ c' = donor_capacity_ c ∧
  (∀ h, r_entry <$> entries_ c' !! h = r_entry <$> entries_ c !! h).
Proof. unfold find_longest. destruct (_ || _)%bool; [done|apply find_loop_frame]. Qed.

Lemma evict_lru_cases c :
  match evict_lru_retained c with
  | (None, c') => c' = c ∧ retained c = []
  | (Some e, c') =>
      retained c ≡ₚ e :: retained c' ∧ e_retained e = true ∧
      free_donor_slots_ c' = free_donor_slots_ c ++ [e_seq e] ∧
      first_donor_slot_ c' = first_donor_slot_ c ∧ donor_capacity_ c' = donor_capacity_ c ∧
      (∃ h k, entries_ c !! h = Some (mkRec e k) ∧ entries_ c' = delete h (entries_ c) ∧
        ∀ h' r', entries_ c !! h' = Some r' → e_retained (r_entry r') = true → k ≤ r_last_used r')
  end.
Proof.
  unfold evict_lru_retained. pose proof (lru_scan_of (map_to_list (entries_ c))) as H.
  destruct (lru_scan _) as [[h [e k]]|].
  - destruct H as (H1 & H2 & H3). simpl in *. apply elem_of_map_to_list in H2.
    split_and!; try done.
    + unfold retained. simpl. rewrite (retained_delete _ h _ H2). unfold retained_of at 1. simpl.
      by rewrite H1.
    + exists h, k. split_and!; try done. intros h' r' Hl Hr.
      apply (H3 (h', r')); [by apply elem_of_map_to_list|done].
  - split; [done|]. unfold retained. simpl in H.
    induction (map_to_list (entries_ c)) as [|hr l IH]; [done|]. simpl.
    unfold retained_of at 1. rewrite H by set_solver. apply IH. set_solver.
Qed.

(** [evict_sequence] one record at a time: [gone] are the donor records removed,
    whose slots come back. *)
Definition evicts (seq : SeqId) (c c' : t) (gone : list Entry) : Prop :=
  retained c ≡ₚ gone ++ retained c' ∧ (∀ e, e ∈ gone → e_seq e = seq) ∧
  free_donor_slots_ c' = free_donor_slots_ c ++ (e_seq <$> gone) ∧
  first_donor_slot_ c' = first_donor_slot_ c ∧ donor_capacity_ c' = donor_capacity_ c ∧
  tick_ c' = tick_ c.

Lemma evict1_evicts seq c h r :
  entries_ c !! h = Some r →
  (∃ gone, evicts seq c (evict1 seq c (h, r)) gone) ∧
  entries_ (evict1 seq c (h, r)) =
    if decide (e_seq (r_entry r) = seq) then delete h (entries_ c) else entries_ c.
Proof.
  intros Hr. unfold evict1, evicts. simpl.
  destruct (e_seq (r_entry r) =? seq)%Z eqn:E; simpl; bool_hyps.
  2:{ rewrite decide_False by done. split; [|done]. exists []. simpl. rewrite app_nil_r. set_solver. }
  rewrite decide_True by done. split; [|done].
  exists (option_list (retained_of (h, r))). unfold retained. simpl.
  rewrite <- (retained_delete _ h r Hr). unfold retained_of. simpl.
  destruct (e_retained (r_entry r)); simpl; rewrite ?app_nil_r, ?E; set_solver.
Qed.

Lemma evict_fold seq l c :
  NoDup l.*1 → (∀ h r, (h, r) ∈ l → entries_ c !! h = Some r) →
  (∃ gone, evicts seq c (fold_left (evict1 seq) l c) gone) ∧
  (∀ h, entries_ (fold_left (evict1 seq) l c) !! h =
     match entries_ c !! h with
     | Some r => if decide (h ∈ l.*1 ∧ e_seq (r_entry r) = seq) then None else Some r
     | None => None
     end).
Proof.
  revert c. induction l as [|[h r] l IH]; intros c Hnd Hl; cbn [fold_left].
  { split; [exists []; unfold evicts; rewrite app_nil_r; set_solver|].
    intros h. destruct (entries_ c !! h); [|done]. rewrite decide_False; set_solver. }
  rewrite fmap_cons in *. apply NoDup_cons in Hnd as [Hh Hnd].
  assert (Hr : entries_ c !! h = Some r) by (apply Hl; set_solver).
  destruct (evict1_evicts seq c h r Hr) as [[g1 (A1 & A2 & A3 & A4 & A5 & A6)] He].
  destruct (IH (evict1 seq c (h, r))) as [[g2 (B1 & B2 & B3 & B4 & B5 & B6)] Hlook]; [done| |].
  { intros h' r' Hin. rewrite He. assert (h ≠ h').
    { intros ->. apply Hh, list_elem_of_fmap. by exists (h', r'). }
    case_decide; [rewrite lookup_delete_ne by done|]; apply Hl; set_solver. }
  split.
  - exists (g1 ++ g2). unfold evicts. rewrite A1, B1, B3, B4, B5, B6, A3, fmap_app, !app_assoc.
    set_solver.
  - intros h0. rewrite Hlook, He. destruct (decide (h0 = h)) as [->|Hne].
    + rewrite Hr. case_decide.
      * rewrite lookup_delete_eq, decide_True; set_solver.
      * rewrite Hr, !decide_False; set_solver.
    + case_decide; rewrite ?lookup_delete_ne by done;
        (destruct (entries_ c !! h0); [repeat case_decide; set_solver|done]).
Qed.

Lemma evict_sequence_spec c seq :
  (∃ gone, evicts seq c (evict_sequence c seq) gone) ∧
  (∀ h, entries_ (evict_sequence c seq) !! h =
     match entries_ c !! h with
     | Some r => if decide (e_seq (r_entry r) = seq) then None else Some r
     | None => None
     end).
Proof.
  destruct (evict_fold seq (map_to_list (entries_ c)) c) as [H1 H2].
  - apply NoDup_fst_map_to_list.
  - intros h r. apply elem_of_map_to_list.
  - split; [done|]. intros h. unfold evict_sequence. rewrite H2.
    destruct (entries_ c !! h) as [r|] eqn:E; [|done].
    assert (h ∈ (map_to_list (entries_ c)).*1).
    { apply list_elem_of_fmap. exists (h, r). by rewrite elem_of_map_to_list. }
    repeat case_decide; naive_solver.
Qed.

(** ** Lookup *)

(** The cache has an entry for exactly the first [n] tokens. *)
Definition matches (c : t) (tokens : list Token) (n : N) : bool :=
  match entries_ c !! hash_prefix tokens n with
  | Some r => e_n_tokens (r_entry r) =? n
  | None => false
  end.

(** [r] is the outcome of looking for the longest match among [nb] blocks. *)
Definition found (c : t) (tokens : list Token) (bs nb : N) (r : option Entry * t) : Prop :=
  match r with
  | (Some e, c') => ∃ k u, 0 < k ≤ nb ∧
      e_n_tokens e = k * bs ∧ entries_ c !! hash_prefix tokens (k * bs) = Some (mkRec e u) ∧
      entries_ c' !! hash_prefix tokens (k * bs) = Some (mkRec e (tick_ c')) ∧
      tick_ c' = add64 (tick_ c) 1 ∧
      ∀ k', k < k' ≤ nb → matches c tokens (k' * bs) = false
  | (None, c') => c' = c ∧ ∀ k', 0 < k' ≤ nb → matches c tokens (k' * bs) = false
  end.

Lemma found_weaken c tokens bs nb r :
  matches c tokens ((nb + 1) * bs) = false → found c tokens bs nb r → found c tokens bs (nb + 1) r.
Proof.
  intros Hno. destruct r as [[e|] c']; simpl.
  - intros (k & u & Hk & H1 & H2 & H3 & H4 & H5). exists k, u. split_and!; try done; try lia.
    intros k' Hk'. destruct (decide (k' = nb + 1)) as [->|]; [done|apply H5; lia].
  - intros [-> H]. split; [done|]. intros k' Hk'.
    destruct (decide (k' = nb + 1)) as [->|]; [done|apply H; lia].
Qed.

Lemma find_loop_longest c tokens bs nb :
  N.of_nat nb * bs < 4294967296 → found c tokens bs (N.of_nat nb) (find_loop c tokens bs nb).
Proof.
  induction nb as [|nb IH]; intros Hlt; cbn [find_loop].
  { split; [done|lia]. }
  rewrite mul32_small by done. specialize (IH ltac:(nia)).
  replace (N.of_nat (S nb)) with (N.of_nat nb + 1) in * by lia.
  pose proof (found_weaken c tokens bs (N.of_nat nb) (find_loop c tokens bs nb)) as Hw.
  unfold matches in Hw. destruct (entries_ c !! hash_prefix tokens _) as [[e u]|] eqn:E; [|by apply Hw].
  simpl in *. destruct (e_n_tokens e =? _) eqn:En; [|by apply Hw]. bool_hyps.
  exists (N.of_nat nb + 1), u. split_and!; try done; try lia. simpl. apply lookup_insert_eq.
Qed.

(** The number of whole blocks [find_longest] starts from. *)
Lemma max_blocks_mul tokens bs :
  0 < bs → len tokens < 4294967296 →
  wrap32 (@len Token tokens / bs) = len tokens / bs ∧ len tokens / bs * bs ≤ len tokens.
Proof.
  intros Hb Hl. pose proof (N.Div0.mul_div_le (len tokens) bs).
  rewrite wrap32_small by nia. split; [done|lia].
Qed.

Lemma find_longest_found c tokens bs :
  0 < bs → len tokens < 4294967296 →
  found c tokens bs (len tokens / bs) (find_longest c tokens bs).
Proof.
  intros Hb Hl. unfold find_longest. destruct (max_blocks_mul tokens bs Hb Hl) as [-> Hm].
  destruct (bs =? 0) eqn:Eb; bool_hyps; [lia|]. simpl.
  destruct (len tokens =? 0) eqn:E0; bool_hyps.
  { split; [done|]. rewrite E0, N.Div0.div_0_l. lia. }
  pose proof (find_loop_longest c tokens bs (N.to_nat (len tokens / bs))) as H.
  rewrite N2Nat.id in H. apply H. lia.
Qed.

(** [find_longest] returns the longest cached block-aligned prefix and marks
    it as just used.  A hit covers [k] whole blocks of the prompt, is the entry
    stored under the hash of exactly those tokens, no longer aligned prefix has an
    entry, and its record carries the new tick; a miss changes nothing and means
    that no aligned prefix has an entry. *)
Theorem find_longest_longest c tokens bs :
  0 < bs → len tokens < 4294967296 →
  found c tokens bs (len tokens / bs) (find_longest c tokens bs).
Proof. apply find_longest_found. Qed.

Lemma find_longest_longest_witness :
  let c := insert (insert empty (hash_prefix [1; 2; 3; 4; 5]%Z 2) (mkEntry 7%Z 2 [0] false))
                  (hash_prefix [1; 2; 3; 4; 5]%Z 4) (mkEntry 9%Z 4 [0; 1] false) in
  match find_longest c [1; 2; 3; 4; 5]%Z 2 with
  | (Some e, _) => ∃ k, e_n_tokens e = k * 2
  | (None, _) => False
  end.
Proof.
  intros c. pose proof (find_longest_longest c [1; 2; 3; 4; 5]%Z 2 ltac:(lia) ltac:(vm_compute; reflexivity)) as H.
  destruct (find_longest c [1; 2; 3; 4; 5]%Z 2) as [[e|] c'] eqn:E.
  - destruct H as (k & _ & _ & H & _). by exists k.
  - vm_compute in E. discriminate.
Defined.

(** A published prefix is found by every later prompt that shares it.  After
    [insert] under the hash of the first [k] blocks of [p], a prompt [q] with the
    same first [k] blocks gets a hit of at least that length. *)
Theorem insert_then_find c p q bs k seq blocks kept :
  0 < bs → len q < 4294967296 → 0 < k → k * bs ≤ len p → k * bs ≤ len q →
  take (N.to_nat (k * bs)) p = take (N.to_nat (k * bs)) q →
  match find_longest (insert c (hash_prefix p (k * bs)) (mkEntry seq (k * bs) blocks kept)) q bs with
  | (Some e, _) => k * bs ≤ e_n_tokens e
  | (None, _) => False
  end.
Proof.
  intros Hb Hq Hk Hp Hkq Heq. set (c1 := insert _ _ _).
  assert (Hm : matches c1 q (k * bs) = true).
  { unfold matches, hash_prefix. rewrite <- Heq. simpl. fold (hash_prefix p (k * bs)).
    rewrite lookup_insert_eq. simpl. apply N.eqb_refl. }
  assert (Hkb : k ≤ len q / bs) by (apply N.div_le_lower_bound; lia).
  pose proof (find_longest_found c1 q bs Hb Hq) as H.
  destruct (find_longest c1 q bs) as [[e|] c'].
  - destruct H as (k0 & u & H1 & -> & _ & _ & _ & H2).
    destruct (decide (k ≤ k0)); [nia|]. rewrite H2 in Hm; [done|lia].
  - destruct H as [_ H]. rewrite H in Hm; [done|lia].
Qed.

Lemma insert_then_find_witness :
  match find_longest (insert empty (hash_prefix [1; 2; 3]%Z (1 * 2)) (mkEntry 3%Z (1 * 2) [0] true))
                     [1; 2; 9; 9]%Z 2 with
  | (Some e, _) => 1 * 2 ≤ e_n_tokens e
  | (None, _) => False
  end.
Proof.
  apply (insert_then_find empty [1; 2; 3]%Z [1; 2; 9; 9]%Z 2 1 3%Z [0] true);
    first [vm_compute; reflexivity | vm_compute; discriminate].
Defined.

(** The token match behind a hash hit is never checked.  The comment in
    [hash_prefix] says a collision is guarded against by verifying the tokens at
    the call site; the lookup compares only the hash and the token count, and there
    are two 16-token prompts of ordinary vocabulary ids, different in their first
    four tokens, such that a cache holding the first one's prefix reports it as a
    hit of all 16 tokens for the second. *)
Theorem hash_collision_is_a_hit :
  let p := ([32534; 21334; 23460; 0] ++ replicate 12 7)%Z in
  let q := ([19430; 15127; 14187; 26724] ++ replicate 12 7)%Z in
  p ≠ q ∧
  ∀ seq blocks,
    (find_longest (insert empty (hash_prefix p 16) (mkEntry seq 16 blocks false)) q 16).1
      = Some (mkEntry seq 16 blocks false).
Proof.
  intros p q. split; [done|]. intros seq blocks.
  unfold find_longest. change (len q) with 16. simpl ((16 =? 0) || (16 =? 0))%bool.
  change (N.to_nat (wrap32 (16 / 16))) with 1%nat. cbn [find_loop].
  change (mul32 (N.of_nat 1) 16) with 16.
  assert (E : hash_prefix q 16 = hash_prefix p 16) by (vm_compute; reflexivity).
  rewrite E. cbn [insert entries_]. rewrite lookup_insert_eq. reflexivity.
Qed.

(** ** Donor slots *)

Lemma slots_ok_perm c c' held held' :
  free_donor_slots_ c' ++ (e_seq <$> retained c') ++ held'
    ≡ₚ free_donor_slots_ c ++ (e_seq <$> retained c) ++ held →
  first_donor_slot_ c' = first_donor_slot_ c → donor_capacity_ c' = donor_capacity_ c →
  slots_ok c held → slots_ok c' held'.
Proof. unfold slots_ok. by intros -> -> ->. Qed.

Lemma insert_slots c h e held :
  (∀ r0, entries_ c !! h = Some r0 → e_retained (r_entry r0) = false) →
  slots_ok c ((if e_retained e then [e_seq e] else []) ++ held) → slots_ok (insert c h e) held.
Proof.
  intros Hn. apply slots_ok_perm; try done. rewrite insert_retained by done.
  simpl. rewrite fmap_app. destruct (e_retained e); simpl; [|done].
  apply Permutation_app_head, Permutation_middle.
Qed.

Lemma find_longest_slots c tokens bs held :
  slots_ok c held → slots_ok (find_longest c tokens bs).2 held.
Proof.
  destruct (find_longest_frame c tokens bs) as (H1 & H2 & H3 & H4 & _).
  apply slots_ok_perm; [|done|done]. by rewrite H1, H2.
Qed.

Lemma take_donor_slot_spec c :
  match take_donor_slot c with
  | (None, c') => c' = c ∧ free_donor_slots_ c = []
  | (Some slot, c') => free_donor_slots_ c = free_donor_slots_ c' ++ [slot] ∧
      entries_ c' = entries_ c ∧ first_donor_slot_ c' = first_donor_slot_ c ∧
      donor_capacity_ c' = donor_capacity_ c ∧ tick_ c' = tick_ c
  end.
Proof.
  unfold take_donor_slot. destruct (back _) as [slot|] eqn:E.
  - simpl. split_and!; try done. by apply back_Some.
  - split; [done|]. by apply back_None.
Qed.

Lemma take_donor_slot_slots c slot c' held :
  take_donor_slot c = (Some slot, c') → slots_ok c held → slots_ok c' (slot :: held).
Proof.
  intros E. pose proof (take_donor_slot_spec c) as H. rewrite E in H.
  destruct H as (H1 & H2 & H3 & H4 & _). apply slots_ok_perm; try done.
  unfold retained. rewrite H1, H2, <- app_assoc. simpl.
  apply Permutation_app_head. symmetry. apply Permutation_middle.
Qed.

Lemma evict_lru_slots c held : slots_ok c held → slots_ok (evict_lru_retained c).2 held.
Proof.
  pose proof (evict_lru_cases c) as H. destruct (evict_lru_retained c) as [[e|] c']; simpl.
  - destruct H as (H1 & _ & H2 & H3 & H4 & _). apply slots_ok_perm; try done.
    rewrite H1, H2, <- app_assoc. done.
  - by destruct H as [-> _].
Qed.

Lemma evict_sequence_slots c seq held : slots_ok c held → slots_ok (evict_sequence c seq) held.
Proof.
  destruct (evict_sequence_spec c seq) as [[gone (H1 & _ & H2 & H3 & H4 & _)] _].
  apply slots_ok_perm; try done. by rewrite H1, H2, fmap_app, <- !app_assoc.
Qed.

Lemma elem_of_donor_slots first n z : z ∈ donor_slots first n ↔ (first ≤ z < first + Z.of_nat n)%Z.
Proof.
  induction n as [|n IH]; simpl; [set_unfold; lia|]. rewrite elem_of_cons, IH. lia.
Qed.

Lemma donor_slots_NoDup first n : NoDup (donor_slots first n).
Proof.
  induction n as [|n IH]; simpl; constructor; [|done]. rewrite elem_of_donor_slots. lia.
Qed.

Lemma length_donor_slots first n : length (donor_slots first n) = n.
Proof. induction n; simpl; lia. Qed.

Lemma slots_ok_held c held :
  slots_ok c held → donor_capacity_ c < 4294967296 →
  donors_held c = len (retained c) + len held.
Proof.
  unfold slots_ok. intros H Hc. apply Permutation_length in H.
  rewrite !length_app, length_donor_slots, length_fmap in H.
  unfold donors_held, len. rewrite wrap32_small, sub32_small by lia. lia.
Qed.

(** A caller's use of the donor slots: look up, publish under a key no donor
    occupies, take a slot, store a donor in a slot it took, evict. *)
Inductive slot_step : t * list Z → t * list Z → Prop :=
  | slot_find c held tokens bs : slot_step (c, held) ((find_longest c tokens bs).2, held)
  | slot_insert c held h e :
      e_retained e = false →
      (∀ r0, entries_ c !! h = Some r0 → e_retained (r_entry r0) = false) →
      slot_step (c, held) (insert c h e, held)
  | slot_take c held slot c' :
      take_donor_slot c = (Some slot, c') → slot_step (c, held) (c', slot :: held)
  | slot_retain c held h slot n blocks :
      (∀ r0, entries_ c !! h = Some r0 → e_retained (r_entry r0) = false) →
      slot_step (c, slot :: held) (retain c h slot n blocks, held)
  | slot_evict_lru c held : slot_step (c, held) ((evict_lru_retained c).2, held)
  | slot_evict_seq c held seq : slot_step (c, held) (evict_sequence c seq, held).

Lemma slot_step_ok s s' : slot_step s s' → slots_ok s.1 s.2 → slots_ok s'.1 s'.2.
Proof.
  destruct 1; simpl.
  - apply find_longest_slots.
  - intros H1. apply insert_slots; [done|]. by rewrite H.
  - by apply take_donor_slot_slots.
  - intros H1. by apply insert_slots.
  - apply evict_lru_slots.
  - apply evict_sequence_slots.
Qed.

(** The donor slots in sight: those that are free, and those of the donors.  A record
    that overwrites a donor's loses its slot; no operation makes one up. *)
Definition donor_ids (c : t) : list Z := free_donor_slots_ c ++ (e_seq <$> retained c).

Lemma donor_ids_perm c c' : free_donor_slots_ c' = free_donor_slots_ c → retained c' ≡ₚ retained c → donor_ids c' ≡ₚ donor_ids c.
Proof. unfold donor_ids. by intros -> ->. Qed.

Lemma insert_retained_fewer c h e :
  retained (insert c h e) ⊆+ (if e_retained e then [e] else []) ++ retained c.
Proof.
  unfold retained. simpl. rewrite retained_insert. unfold retained_of at 1. simpl.
  assert (Hd : omap retained_of (map_to_list (delete h (entries_ c))) ⊆+ omap retained_of (map_to_list (entries_ c))).
  { destruct (entries_ c !! h) as [r|] eqn:Er; [|by rewrite delete_id].
    rewrite (retained_delete _ h r Er). apply submseteq_inserts_l. done. }
  destruct (e_retained e); simpl; [by apply submseteq_skip|done].
Qed.

Lemma insert_ids c h e : donor_ids (insert c h e) ⊆+ (if e_retained e then [e_seq e] else []) ++ donor_ids c.
Proof.
  unfold donor_ids. simpl. etrans; [apply submseteq_app; [done|apply fmap_submseteq, insert_retained_fewer]|].
  rewrite fmap_app. destruct (e_retained e); simpl; [|done]. by rewrite <- Permutation_middle.
Qed.

Lemma find_longest_ids c tokens bs : donor_ids (find_longest c tokens bs).2 ⊆+ donor_ids c.
Proof. destruct (find_longest_frame c tokens bs) as (H1 & H2 & _). by rewrite (donor_ids_perm _ _ H2 H1). Qed.

Lemma take_donor_slot_ids c :
  match take_donor_slot c with
  | (None, c') => c' = c
  | (Some slot, c') => donor_ids c ≡ₚ slot :: donor_ids c'
  end.
Proof.
  pose proof (take_donor_slot_spec c) as H. destruct (take_donor_slot c) as [[slot|] c']; [|by destruct H].
  destruct H as (H1 & H2 & _). unfold donor_ids, retained. rewrite H1, H2, <- app_assoc. simpl. by rewrite <- Permutation_middle.
Qed.

Lemma evict_lru_ids c : donor_ids (evict_lru_retained c).2 ⊆+ donor_ids c.
Proof.
  pose proof (evict_lru_cases c) as H. destruct (evict_lru_retained c) as [[e|] c']; simpl; [|by destruct H as [-> _]].
  destruct H as (H1 & _ & H2 & _). unfold donor_ids. by rewrite H1, H2, <- app_assoc.
Qed.

Lemma evict_sequence_ids c seq : donor_ids (evict_sequence c seq) ⊆+ donor_ids c.
Proof.
  destruct (evict_sequence_spec c seq) as [[gone (H1 & _ & H2 & _)] _]. unfold donor_ids.
  by rewrite H1, H2, fmap_app, <- app_assoc.
Qed.

(** Donor slots are conserved as long as no donor's key is overwritten.  After
    any history of lookups, publications, retentions and evictions in which no
    record of a donor is overwritten, every reserved slot is exactly once free,
    occupied by one retained entry, or in the caller's hands; so no two donors share
    a slot and [donors_held] is exactly the slots in use. *)
Theorem donor_slots_conserved first cap c held :
  cap < 4294967296 → rtc slot_step (configure_donors empty first cap, []) (c, held) →
  slots_ok c held ∧
  NoDup (free_donor_slots_ c ++ (e_seq <$> retained c) ++ held) ∧
  (donor_capacity_ c = cap → donors_held c = len (retained c) + len held).
Proof.
  intros Hc Hs. assert (S : slots_ok c held).
  { change (slots_ok (c, held).1 (c, held).2).
    assert (S0 : slots_ok (configure_donors empty first cap, @nil Z).1 (configure_donors empty first cap, @nil Z).2).
    { unfold slots_ok, retained. simpl. rewrite map_to_list_empty. simpl. by rewrite app_nil_r. }
    revert S0. induction Hs; [done|]. eauto using slot_step_ok. }
  split_and!; [done| |].
  - rewrite S. apply donor_slots_NoDup.
  - intros E. apply slots_ok_held; [done|lia].
Qed.

Lemma donor_slots_conserved_witness :
  donors_held (retain (take_donor_slot (configure_donors empty 8%Z 4)).2 42 8%Z 16 [0]) = 1.
Proof.
  destruct (donor_slots_conserved 8%Z 4
    (retain (take_donor_slot (configure_donors empty 8%Z 4)).2 42 8%Z 16 [0]) []) as (_ & _ & H).
  - lia.
  - eapply rtc_l; [apply (slot_take _ [] 8%Z); vm_compute; reflexivity|].
    eapply rtc_l; [|apply rtc_refl]. apply (slot_retain _ [] 42 8%Z 16 [0]).
    intros r0 H. vm_compute in H. discriminate.
  - rewrite H by (vm_compute; reflexivity). vm_compute. reflexivity.
Defined.

(** C38: publishing over a retained prefix leaks its donor slot.  When [insert]
    stores a live sequence's entry under a key that a donor occupies, the donor's
    record disappears but its slot does not return to the free list: [donors_held]
    stays the same while one fewer donor is stored, so from then on the slot is
    neither free nor evictable, and the blocks the donor references are no longer
    in any entry. *)
Theorem insert_over_donor_leaks c h e r held :
  entries_ c !! h = Some r → e_retained (r_entry r) = true → e_retained e = false →
  slots_ok c held →
  let c' := insert c h e in
  retained c ≡ₚ r_entry r :: retained c' ∧
  donors_held c' = donors_held c ∧
  e_seq (r_entry r) ∉ free_donor_slots_ c' ∧ e_seq (r_entry r) ∉ (e_seq <$> retained c').
Proof.
  intros E Er Ee S c'. destruct (insert_over_donor c h e r E Er) as [H1 H2].
  rewrite Ee in H2. simpl in H2. fold c' in H2. rewrite <- H2 in H1.
  assert (Hnd : NoDup (free_donor_slots_ c ++ (e_seq <$> retained c) ++ held))
    by (rewrite S; apply donor_slots_NoDup).
  rewrite H1 in Hnd. simpl in Hnd. apply NoDup_app in Hnd as (_ & Hd & Hnd).
  apply NoDup_cons in Hnd as [Hn _]. split_and!; [done|done| |].
  - intros Hin. apply (Hd _ Hin). set_solver.
  - set_solver.
Qed.

Lemma insert_over_donor_leaks_witness :
  let c := retain (take_donor_slot (configure_donors empty 8%Z 4)).2 42 8%Z 16 [0] in
  donors_held (insert c 42 (mkEntry 0%Z 16 [1] false)) = 1 ∧
  retained (insert c 42 (mkEntry 0%Z 16 [1] false)) = [].
Proof.
  intros c. split.
  - destruct (insert_over_donor_leaks c 42 (mkEntry 0%Z 16 [1] false) (mkRec (mkEntry 8%Z 16 [0] true) 1) [])
      as (_ & -> & _); vm_compute; reflexivity.
  - vm_compute. reflexivity.
Defined.

(** ** Recency *)

Lemma ticks_insert c h e :
  ticks_ok c → tick_ c + 1 < 18446744073709551616 → ticks_ok (insert c h e).
Proof.
  intros [H1 H2] Ht. unfold ticks_ok, insert, add64. simpl. rewrite wrap64_small by done. split.
  - intros h0 r. rewrite lookup_insert. case_decide; [naive_solver lia|].
    intros Hr. specialize (H1 _ _ Hr). lia.
  - intros h0 h1 r r'. rewrite !lookup_insert. repeat case_decide; subst; try done.
    + intros [= <-] Hr. simpl. specialize (H1 _ _ Hr). lia.
    + intros Hr [= <-]. simpl. specialize (H1 _ _ Hr). lia.
    + apply H2.
Qed.

(** Eviction takes the least recently used donor.  When ticks are distinct,
    [evict_lru_retained] returns nothing exactly when no donor is held; otherwise it
    returns the donor whose tick is strictly smaller than every other donor's,
    whatever the iteration order of the map, removes only its record and returns
    its slot to the free list. *)
Theorem evict_lru_strict c :
  ticks_ok c →
  match evict_lru_retained c with
  | (None, c') => c' = c ∧ retained c = []
  | (Some e, c') => ∃ h u,
      entries_ c !! h = Some (mkRec e u) ∧ e_retained e = true ∧
      (∀ h' r', h' ≠ h → entries_ c !! h' = Some r' → e_retained (r_entry r') = true →
         u < r_last_used r') ∧
      entries_ c' = delete h (entries_ c) ∧
      free_donor_slots_ c' = free_donor_slots_ c ++ [e_seq e]
  end.
Proof.
  intros [_ HT]. pose proof (evict_lru_cases c) as H.
  destruct (evict_lru_retained c) as [[e|] c']; [|done].
  destruct H as (H1 & H2 & H3 & _ & _ & h & u & H4 & H5 & H6). exists h, u. split_and!; try done.
  intros h' r' Hne Hr' Hk. specialize (H6 h' r' Hr' Hk).
  destruct (decide (u = r_last_used r')) as [E|]; [|lia].
  exfalso. apply Hne. eapply HT; eauto.
Qed.

Lemma evict_lru_strict_witness :
  let c := retain (retain (configure_donors empty 8%Z 4) 42 8%Z 16 [0]) 43 9%Z 16 [1] in
  ∃ e, (evict_lru_retained c).1 = Some e ∧ e_retained e = true.
Proof.
  intros c. assert (T : ticks_ok c).
  { do 2 (apply ticks_insert; [|vm_compute; reflexivity]). split; intros *; simpl;
      rewrite lookup_empty; discriminate. }
  pose proof (evict_lru_strict c T) as H.
  destruct (evict_lru_retained c) as [[e|] c'] eqn:E.
  - destruct H as (h & u & _ & H & _). by exists e.
  - vm_compute in E. discriminate.
Defined.

End PrefixCache.
