(* ===== verification/Timing.v ===== *)
(** Request timing and latency histograms: [include/microvllm/timing.hpp] and
    [include/microvllm/latency_histogram.hpp].  A [steady_clock] time point is its
    count of nanoseconds; durations in milliseconds are IEEE doubles computed with
    the operations the code uses. *)
From Stdlib Require Import SpecFloat Lia.
From S2P Require Import Prelude Types.
From stdpp Require Import base list sets.

Local Open Scope N_scope.

Definition TimePoint := Z.

Definition f64_zero : double := S754_zero false.

Module RequestTiming.

Record t := mk {
  enqueued : TimePoint;
  admitted : option TimePoint;
  first_token : option TimePoint;
  finished : option TimePoint }.

Definition ms (a b : TimePoint) : double := f64_div (f64_of_Z (b - a)) (f64_of_Z 1000000).

Definition queue_wait_ms (r : t) : double :=
  match admitted r with Some a => ms (enqueued r) a | None => f64_zero end.

Definition ttft_ms (r : t) : double :=
  match admitted r, first_token r with
  | Some a, Some f => ms a f
  | _, _ => f64_zero
  end.

Definition tpot_ms (r : t) (completion_tokens : N) : double :=
  match first_token r, finished r with
  | Some f, Some e =>
      if completion_tokens <? 2 then f64_zero
      else f64_div (ms f e) (f64_of_Z (Z.of_N (sub32 completion_tokens 1)))
  | _, _ => f64_zero
  end.

Definition total_ms (r : t) : double :=
  match finished r with Some e => ms (enqueued r) e | None => f64_zero end.

Definition output_tokens_per_sec (r : t) (completion_tokens : N) : double :=
  let total := total_ms r in
  if f64_leb total f64_zero || (completion_tokens =? 0) then f64_zero
  else f64_div (f64_of_Z (Z.of_N completion_tokens)) (f64_div total (f64_of_Z 1000)).

Definition set_admitted (r : t) (o : option TimePoint) : t :=
  mk (enqueued r) o (first_token r) (finished r).
Definition set_first_token (r : t) (o : option TimePoint) : t :=
  mk (enqueued r) (admitted r) o (finished r).
Definition set_finished (r : t) (o : option TimePoint) : t :=
  mk (enqueued r) (admitted r) (first_token r) o.

End RequestTiming.

Module LatencyHistogram.

Record t := mk {
  counts_ : list N;
  count_ : N;
  sum_us_ : N }.

Definition kBounds : list double :=
  f64_of_Z <$> [1; 5; 10; 25; 50; 100; 250; 500; 1000; 2500; 5000; 10000]%Z.

Definition empty : t := mk (replicate 12 0) 0 0.

(** [static_cast<std::uint64_t>] of a double: truncation toward zero.  Negative,
    infinite and NaN arguments are undefined behaviour in C++ and do not arise from
    a steady clock; they map to 0 here. *)
Definition f64_to_u64 (v : double) : N :=
  match v with
  | S754_finite false m e => wrap64 (Z.to_N (Z.shiftl (Zpos m) e))
  | _ => 0
  end.

(** The loop of [observe]: increment the first bucket whose bound covers the
    value, then [break]. *)
Fixpoint bump (bounds : list double) (counts : list N) (v : double) : list N :=
  match bounds, counts with
  | b :: bs, c :: cs => if f64_leb v b then add64 c 1 :: cs else c :: bump bs cs v
  | _, _ => counts
  end.

Definition observe (h : t) (value_ms : double) : t :=
  mk (bump kBounds (counts_ h) value_ms)
     (add64 (count_ h) 1)
     (add64 (sum_us_ h) (f64_to_u64 (f64_mul value_ms (f64_of_Z 1000)))).

Definition bucket (h : t) (i : N) : N := at_or_0 (counts_ h) i.
Definition count (h : t) : N := count_ h.
Definition sum_seconds (h : t) : double :=
  f64_div (f64_of_Z (Z.of_N (sum_us_ h))) (f64_of_Z 1000000).

(** The running total a scrape of [/metrics] prints for bucket [i]. *)
Definition cumulative (h : t) (i : nat) : N := fold_left add64 (take (S i) (counts_ h)) 0.

(** How many of [vs] a bound covers. *)
Definition covered (vs : list double) (b : double) : N :=
  len (filter (λ v, f64_leb v b = true) vs).

(** ** Lemmas *)

(** A value covered by a positive finite bound is covered by every larger one. *)
Lemma leb_mono v m1 e1 m2 e2 :
  f64_leb (S754_finite false m1 e1) (S754_finite false m2 e2) = true →
  f64_leb v (S754_finite false m1 e1) = true → f64_leb v (S754_finite false m2 e2) = true.
Proof.
  unfold f64_leb, SFleb. destruct v as [s|s| |s m e]; try (by destruct s); try done.
  cbn. destruct s; [done|].
  rewrite !Pos.compare_cont_spec. unfold Pos.switch_Eq.
  destruct (Z.compare_spec e1 e2), (Z.compare_spec e e1), (Z.compare_spec e e2); try lia; try done;
    subst;
    repeat match goal with |- context [(?a ?= ?b)%positive] => destruct (Pos.compare_spec a b) end;
    try lia; done.
Qed.

Lemma kBounds_pos i b : kBounds !! i = Some b → ∃ m e, b = S754_finite false m e.
Proof. intros H. do 12 (destruct i as [|i]; [vm_compute in H; naive_solver|]). done. Qed.

Lemma kBounds_sorted i j b1 b2 :
  (i ≤ j)%nat → kBounds !! i = Some b1 → kBounds !! j = Some b2 → f64_leb b1 b2 = true.
Proof.
  intros Hij H1 H2.
  assert (Hall : forallb (λ k, match kBounds !! k, kBounds !! S k with
      | Some x, Some y => f64_leb x y | _, _ => true end) (seq 0 12) = true)
    by (vm_compute; reflexivity).
  rewrite forallb_forall in Hall.
  assert (Hlen : length kBounds = 12%nat) by reflexivity.
  revert b2 H2. induction Hij as [|j Hij IH]; intros b2 H2.
  - rewrite H1 in H2. injection H2 as <-. destruct (kBounds_pos i b1 H1) as (m & e & ->).
    unfold f64_leb, SFleb. cbn. rewrite Z.compare_refl, Pos.compare_cont_refl. done.
  - assert (S j < 12)%nat by (rewrite <- Hlen; by eapply lookup_lt_Some).
    destruct (kBounds !! j) as [b|] eqn:Ej.
    2:{ apply lookup_ge_None_1 in Ej. rewrite Hlen in Ej. lia. }
    specialize (Hall j ltac:(apply in_seq; lia)). rewrite Ej, H2 in Hall.
    destruct (kBounds_pos _ _ Ej) as (m & e & ->), (kBounds_pos _ _ H2) as (m' & e' & ->).
    eapply leb_mono; [exact Hall|]. by apply IH.
Qed.

Lemma covers_mono v i j b1 b2 :
  (i ≤ j)%nat → kBounds !! i = Some b1 → kBounds !! j = Some b2 →
  f64_leb v b1 = true → f64_leb v b2 = true.
Proof.
  intros Hij H1 H2. pose proof (kBounds_sorted i j b1 b2 Hij H1 H2) as Hb.
  destruct (kBounds_pos _ _ H1) as (m & e & ->), (kBounds_pos _ _ H2) as (m' & e' & ->).
  by apply leb_mono.
Qed.

Lemma bump_length bounds counts v : length (bump bounds counts v) = length counts.
Proof.
  revert counts. induction bounds as [|b bs IH]; intros [|c cs]; simpl; try done.
  destruct (f64_leb v b); simpl; [done|]. by rewrite IH.
Qed.

(** The plain sum of the first buckets, without the wrap. *)
Definition sum_upto (counts : list N) (i : nat) : N := fold_right N.add 0 (take (S i) counts).

Lemma bump_sum bounds counts v i b :
  (∀ c, c ∈ counts → c + 1 < 18446744073709551616) → length counts = length bounds →
  bounds !! i = Some b →
  (∀ j b', (j ≤ i)%nat → bounds !! j = Some b' → f64_leb v b' = true → f64_leb v b = true) →
  sum_upto (bump bounds counts v) i = sum_upto counts i + (if f64_leb v b then 1 else 0).
Proof.
  unfold sum_upto.
  revert counts i. induction bounds as [|b0 bs IH]; intros [|c cs] i Hc Hl Hb Hm; try done.
  cbn [bump]. destruct (f64_leb v b0) eqn:E0.
  - rewrite (Hm 0%nat b0) by (done || lia). cbn [take fold_right].
    unfold add64. rewrite wrap64_small by (apply Hc; set_solver). lia.
  - destruct i as [|i]; simpl in *.
    + simplify_eq. rewrite E0. lia.
    + rewrite IH; [lia|set_solver|lia|done|].
      intros j b' Hj Hb'. apply (Hm (S j) b'); [lia|done].
Qed.

Lemma fold_add64 l k :
  k + fold_right N.add 0 l < 18446744073709551616 →
  fold_left add64 l k = k + fold_right N.add 0 l.
Proof.
  revert k. induction l as [|x l IH]; intros k Hk; simpl in *; [lia|].
  unfold add64 at 2. rewrite wrap64_small by lia. rewrite IH by lia. lia.
Qed.

Lemma covered_snoc vs v b :
  covered (vs ++ [v]) b = covered vs b + (if f64_leb v b then 1 else 0).
Proof.
  unfold covered. rewrite filter_app, len_app. simpl. unfold filter at 2. simpl.
  destruct (decide (f64_leb v b = true)) as [E|E].
  - by rewrite E.
  - apply not_true_is_false in E. by rewrite E.
Qed.

Lemma covered_le vs b : covered vs b ≤ len vs.
Proof.
  unfold covered, len. pose proof (length_filter (λ v, f64_leb v b = true) vs). lia.
Qed.

Lemma elem_le_sum x l : x ∈ l → x ≤ fold_right N.add 0 l.
Proof. induction 1; simpl; lia. Qed.

(** After observing [vs], the buckets sum as the bounds cover and the count is the
    number of observations. *)
Lemma observe_all_spec vs :
  len vs < 18446744073709551616 →
  let h := fold_left observe vs empty in
  length (counts_ h) = 12%nat ∧ count_ h = len vs ∧
  (∀ i b, kBounds !! i = Some b → sum_upto (counts_ h) i = covered vs b) ∧
  (∀ c, c ∈ counts_ h → c ≤ len vs).
Proof.
  induction vs as [|v vs IH] using rev_ind; intros Hl.
  { simpl. split_and!; try done.
    - intros i b H. do 12 (destruct i as [|i]; [reflexivity|]). done.
    - intros c Hc. change (c ∈ replicate 12 0) in Hc. apply elem_of_replicate in Hc as [-> _]. lia. }
  rewrite len_app, len_cons, len_nil in Hl. rewrite fold_left_app. cbn [fold_left observe counts_ count_].
  destruct IH as (I1 & I2 & I3 & I4); [lia|]. set (h := fold_left observe vs empty) in *.
  assert (Hs : ∀ i b, kBounds !! i = Some b →
    sum_upto (bump kBounds (counts_ h) v) i = covered (vs ++ [v]) b).
  { intros i b Hb. rewrite covered_snoc, <- (I3 i b Hb). apply bump_sum; try done.
    - intros c Hc. specialize (I4 c Hc). lia.
    - intros j b' Hj Hb'. by apply (covers_mono v j i). }
  split_and!; try done.
  - by rewrite bump_length.
  - rewrite I2. unfold add64. rewrite wrap64_small by lia. by rewrite len_app.
  - intros c Hc.
    assert (Hle : c ≤ sum_upto (bump kBounds (counts_ h) v) 11).
    { unfold sum_upto. apply elem_le_sum. rewrite take_ge; [done|]. rewrite bump_length, I1. lia. }
    rewrite (Hs 11%nat (f64_of_Z 10000)) in Hle by reflexivity.
    pose proof (covered_le (vs ++ [v]) (f64_of_Z 10000)). lia.
Qed.

(** The exported histogram is a Prometheus histogram.  After any sequence of
    fewer than 2^64 observations, the running total of the buckets up to bound [i],
    which is what a scrape prints, is exactly the number of observations that are
    at most the bound, and [count] is the number of observations, those above the
    last bound included. *)
Theorem histogram_cumulative vs i b :
  len vs < 18446744073709551616 → kBounds !! i = Some b →
  let h := fold_left observe vs empty in
  cumulative h i = covered vs b ∧ count h = len vs.
Proof.
  intros Hl Hb h. destruct (observe_all_spec vs Hl) as (_ & H2 & H3 & _). split; [|done].
  specialize (H3 i b Hb). fold h in H3. unfold cumulative.
  pose proof (covered_le vs b).
  unfold sum_upto in H3. rewrite fold_add64; lia.
Qed.

Lemma histogram_cumulative_witness :
  cumulative (fold_left observe (f64_of_Z <$> [3; 700; 12; 20000]%Z) empty) 2 = 1.
Proof.
  destruct (histogram_cumulative (f64_of_Z <$> [3; 700; 12; 20000]%Z) 2 (f64_of_Z 10)) as [H _].
  - vm_compute. reflexivity.
  - vm_compute. reflexivity.
  - rewrite H. vm_compute. reflexivity.
Defined.

End LatencyHistogram.
