(* ===== verification/Engine.v ===== *)
(** The two interfaces of the serving core, as type classes: [IModelEngine]
    ([include/microvllm/model_engine.hpp]) over an engine's state [E], and
    [ITokenSink] ([include/microvllm/token_sink.hpp]) over a sink's state [K].

    A method that changes the object returns its new state.  [decode],
    [begin_sequence] and [copy_sequence] may throw: the interface documents it for
    [decode], and the scheduler catches around the other two.  What the interface
    promises its callers is the class [EngineContract]. *)
From S2P Require Import Prelude Types.
From stdpp Require Import base list gmap strings.

Local Open Scope N_scope.

Class IModelEngine (E : Type) := {
  caps : E → EngineCaps;
  tokenize : E → bytes → bool → list Token * E;
  piece : E → Token → bytes * E;
  begin_sequence : E → SeqId → SamplingParams → res unit * E;
  decode : E → list BatchItem → res (list GenStep) * E;
  release_sequence : E → SeqId → E;
  copy_sequence : E → SeqId → SeqId → Pos → res unit * E }.

(** The items of a batch that ask for a token. *)
Definition sampled (items : list BatchItem) : list BatchItem :=
  filter (λ i, item_sample i = true) items.

(** Every item that asks for a token submits at least one: the last position of an
    item is where its next token is sampled. *)
Definition samples_from_tokens (items : list BatchItem) : Prop :=
  Forall (λ i, item_sample i = true → item_tokens i ≠ []) items.

(** What the header documents: the capabilities are fixed, and a successful
    [decode] returns one step per sampling item, in the same order.  The header
    promises the latter for every batch; an engine can only keep it for items that
    submit tokens, so that is what the contract asks and what the scheduler shows of
    its batches. *)
Class EngineContract (E : Type) `{IModelEngine E} : Prop := {
  caps_tokenize e s b : caps (tokenize e s b).2 = caps e;
  caps_piece e t : caps (piece e t).2 = caps e;
  caps_begin e s p : caps (begin_sequence e s p).2 = caps e;
  caps_decode e items : caps (decode e items).2 = caps e;
  caps_release e s : caps (release_sequence e s) = caps e;
  caps_copy e s d n : caps (copy_sequence e s d n).2 = caps e;
  decode_in_order e items steps e' :
    samples_from_tokens items → decode e items = (Ok steps, e') →
    step_seq <$> steps = item_seq <$> sampled items }.

(** ** Cancellation flags

    [std::shared_ptr<std::atomic<bool>>]: an address into a memory shared with the
    HTTP threads. *)

Definition FlagId := N.
Definition Flags := gmap N bool.
Definition load (m : Flags) (f : FlagId) : bool := default false (m !! f).
Definition store (m : Flags) (f : FlagId) (b : bool) : Flags := <[f := b]> m.

Class ITokenSink (K : Type) := {
  on_text : K → bytes → K;
  on_finish : K → FinishReason → Usage → K;
  on_error : K → bytes → K;
  cancelled : K → Flags → bool }.

(** ** Call traces

    What a caller does to a sink, as data; [calls] replays a trace. *)

Inductive SinkCall : Type :=
  | CText (delta : bytes)
  | CFinish (reason : FinishReason) (usage : Usage)
  | CError (message : bytes).

Definition call {K} `{ITokenSink K} (k : K) (c : SinkCall) : K :=
  match c with
  | CText d => on_text k d
  | CFinish r u => on_finish k r u
  | CError m => on_error k m
  end.

Definition calls {K} `{ITokenSink K} (k : K) (cs : list SinkCall) : K := fold_left call cs k.

Definition is_text (c : SinkCall) : bool := match c with CText _ => true | _ => false end.

Definition call_text (c : SinkCall) : bytes := match c with CText d => d | _ => [] end.

(** The text a trace delivered. *)
Definition delivered (cs : list SinkCall) : bytes := concat (call_text <$> cs).

Lemma calls_app {K} `{ITokenSink K} (k : K) cs ds : calls k (cs ++ ds) = calls (calls k cs) ds.
Proof. apply fold_left_app. Qed.

Lemma delivered_app cs ds : delivered (cs ++ ds) = delivered cs ++ delivered ds.
Proof. unfold delivered. by rewrite fmap_app, concat_app. Qed.
