(* ===== verification/Sinks.v ===== *)
(** The two sinks: [include/microvllm/collecting_sink.hpp] and
    [include/microvllm/streaming_sink.hpp], with the theorems that say what each
    delivers for a call trace. *)
From Stdlib Require Import Lia.
From S2P Require Import Prelude Types Engine.
From stdpp Require Import base list gmap strings.

Local Open Scope N_scope.

Module CollectingSink.

Record t := mk {
  text_ : bytes;
  error_ : bytes;
  usage_ : Usage;
  reason_ : FinishReason;
  done_ : bool;
  cancel_ : FlagId }.

Definition make (cancel : FlagId) : t := mk [] [] no_usage kUnset false cancel.

Definition on_text (s : t) (delta : bytes) : t :=
  mk (text_ s ++ delta) (error_ s) (usage_ s) (reason_ s) (done_ s) (cancel_ s).

Definition on_finish (s : t) (reason : FinishReason) (usage : Usage) : t :=
  mk (text_ s) (error_ s) usage reason true (cancel_ s).

Definition on_error (s : t) (message : bytes) : t :=
  mk (text_ s) message (usage_ s) kError true (cancel_ s).

Definition cancelled (s : t) (m : Flags) : bool := load m (cancel_ s).

Definition cancel (s : t) (m : Flags) : Flags := store m (cancel_ s) true.

#[global] Instance sink : ITokenSink t := {
  Engine.on_text := on_text;
  Engine.on_finish := on_finish;
  Engine.on_error := on_error;
  Engine.cancelled := cancelled }.

Lemma calls_text s cs : text_ (calls s cs) = text_ s ++ delivered cs.
Proof.
  revert s. induction cs as [|c cs IH]; intros s.
  { unfold delivered. simpl. by rewrite app_nil_r. }
  change (calls s (c :: cs)) with (calls (call s c) cs). rewrite IH.
  unfold delivered. simpl. destruct c; simpl; by rewrite <- ?app_assoc.
Qed.

End CollectingSink.

Module StreamingSink.

Record Event := mkEvent {
  ev_text : bytes;
  ev_terminal : bool;
  ev_reason : FinishReason;
  ev_usage : Usage;
  ev_error : bytes }.

Record t := mk {
  events_ : list Event;
  cancel_ : FlagId }.

Definition make (cancel : FlagId) : t := mk [] cancel.

(** [events_.push_back] under the mutex. *)
Definition push (s : t) (e : Event) : t := mk (push_back (events_ s) e) (cancel_ s).

Definition on_text (s : t) (delta : bytes) : t :=
  match delta with
  | [] => s
  | _ => push s (mkEvent delta false kUnset no_usage [])
  end.

Definition on_finish (s : t) (reason : FinishReason) (usage : Usage) : t :=
  push s (mkEvent [] true reason usage []).

Definition on_error (s : t) (message : bytes) : t :=
  push s (mkEvent [] true kError no_usage message).

Definition cancelled (s : t) (m : Flags) : bool := load m (cancel_ s).

Definition cancel (s : t) (m : Flags) : Flags := store m (cancel_ s) true.

(** [next] blocks until an event is available: [None] while it would wait. *)
Definition next (s : t) : option (Event * t) :=
  match events_ s with
  | [] => None
  | e :: es => Some (e, mk es (cancel_ s))
  end.

#[global] Instance sink : ITokenSink t := {
  Engine.on_text := on_text;
  Engine.on_finish := on_finish;
  Engine.on_error := on_error;
  Engine.cancelled := cancelled }.

(** Reading events until the terminal one, as the HTTP handler does. *)
Fixpoint drain (fuel : nat) (s : t) (got : list Event) : list Event * t :=
  match fuel with
  | O => (got, s)
  | S fuel' =>
      match next s with
      | None => (got, s)
      | Some (e, s') => if ev_terminal e then (got ++ [e], s') else drain fuel' s' (got ++ [e])
      end
  end.

Lemma calls_events s cs :
  concat (ev_text <$> events_ (calls s cs)) = concat (ev_text <$> events_ s) ++ delivered cs.
Proof.
  revert s. induction cs as [|c cs IH]; intros s.
  { unfold delivered. simpl. by rewrite app_nil_r. }
  change (calls s (c :: cs)) with (calls (call s c) cs). rewrite IH.
  unfold delivered. destruct c as [d| |]; [destruct d as [|x d]|..]; simpl; unfold push_back;
    rewrite ?fmap_app, ?concat_app; simpl; rewrite ?app_nil_r, <- ?app_assoc; done.
Qed.

Lemma text_events s cs :
  Forall (λ c, is_text c = true) cs →
  Forall (λ e, ev_terminal e = false) (events_ s) →
  Forall (λ e, ev_terminal e = false) (events_ (calls s cs)).
Proof.
  revert s. induction cs as [|c cs IH]; intros s Hc He; [done|].
  apply Forall_cons in Hc as [Hc Hcs]. change (calls s (c :: cs)) with (calls (call s c) cs).
  apply IH; [done|]. destruct c as [d| |]; try done. simpl. destruct d; [done|].
  simpl. unfold push_back. apply Forall_app. split; [done|]. by constructor.
Qed.

Lemma drain_all es e s got fuel :
  Forall (λ e, ev_terminal e = false) es → ev_terminal e = true →
  (length es < fuel)%nat → events_ s = es ++ [e] →
  drain fuel s got = (got ++ es ++ [e], mk [] (cancel_ s)).
Proof.
  revert s got fuel. induction es as [|x es IH]; intros s got fuel Hes He Hf Hs;
    (destruct fuel as [|fuel]; [simpl in Hf; lia|]); simpl; unfold next; rewrite Hs; simpl.
  - by rewrite He.
  - apply Forall_cons in Hes as [-> Hes]. rewrite (IH (mk (es ++ [e]) (cancel_ s))); try done.
    + by rewrite <- app_assoc.
    + simpl in Hf. lia.
Qed.

(** A stream delivers the whole response and ends exactly once.  For a call
    trace of text deltas followed by one terminal call, reading events until the
    terminal one yields events whose texts concatenate to exactly the text
    delivered, the last event and only the last is terminal, and nothing is left in
    the queue. *)
Theorem stream_delivers_once cancel cs term fuel :
  Forall (λ c, is_text c = true) cs → is_text term = false → (length cs < fuel)%nat →
  ∃ es e, drain fuel (calls (make cancel) (cs ++ [term])) [] = (es ++ [e], make cancel) ∧
    concat (ev_text <$> es) = delivered cs ∧
    Forall (λ e, ev_terminal e = false) es ∧ ev_terminal e = true.
Proof.
  intros Hcs Ht Hf. set (s1 := calls (make cancel) cs).
  assert (Hterm : ∃ e, events_ (call s1 term) = events_ s1 ++ [e] ∧ ev_terminal e = true)
    by (destruct term; try done; eexists; split; reflexivity).
  destruct Hterm as (e & He & Hte).
  assert (Hnt : Forall (λ e, ev_terminal e = false) (events_ s1))
    by (apply text_events; [done|constructor]).
  assert (Hlen : (length (events_ s1) ≤ length cs)%nat ∧ cancel_ s1 = cancel).
  { unfold s1. clear. assert (G : ∀ s, (length (events_ (calls s cs)) ≤ length (events_ s) + length cs)%nat
        ∧ cancel_ (calls s cs) = cancel_ s).
    { induction cs as [|c cs IH]; intros s; simpl; [split; [lia|done]|].
      change (fold_left call cs (call s c)) with (calls (call s c) cs).
      destruct (IH (call s c)) as [I1 I2]. rewrite I2.
      destruct c as [[|x d]| |]; simpl in *; unfold push_back in *;
        rewrite ?length_app in I1; simpl in I1; split; (lia || done). }
    specialize (G (make cancel)). done. }
  destruct Hlen as [Hlen Hcan].
  exists (events_ s1), e. rewrite calls_app. change (calls s1 [term]) with (call s1 term).
  split_and!; try done.
  - rewrite (drain_all (events_ s1) e); try done; [|lia]. simpl. unfold make. do 2 f_equal.
    destruct term; try done; simpl; exact Hcan.
  - pose proof (calls_events (make cancel) cs) as H. simpl in H. exact H.
Qed.

Lemma stream_delivers_once_witness :
  ∃ es e, drain 3 (calls (make 0) ([CText (str "He"); CText (str "llo")] ++ [CFinish kEos no_usage])) []
            = (es ++ [e], make 0) ∧ concat (ev_text <$> es) = str "Hello".
Proof.
  destruct (stream_delivers_once 0 [CText (str "He"); CText (str "llo")] (CFinish kEos no_usage) 3)
    as (es & e & H1 & H2 & _).
  - repeat constructor.
  - reflexivity.
  - simpl. lia.
  - exists es, e. split; [exact H1|]. rewrite H2. vm_compute. reflexivity.
Defined.

End StreamingSink.
