(* ===== verification/Sequence.v ===== *)
(** The per-request generation state machine: class [SequenceState] of
    [include/microvllm/sequence_state.hpp] and [src/core/sequence_state.cpp].

    The C++ object holds a reference to its sink; here the sink's state is an
    argument and a result of the operations that call it. *)
From Stdlib Require Import Lia.
From S2P Require Import Prelude Types Engine.
From stdpp Require Import base list gmap strings.

Local Open Scope N_scope.

Module SequenceState.

(** ** Stop strings *)

Fixpoint starts_with (s text : bytes) : bool :=
  match s, text with
  | [], _ => true
  | c :: s', d :: text' => if decide (c = d) then starts_with s' text' else false
  | _ :: _, [] => false
  end.

(** [text.find(s)], with [None] for [npos]. *)
Fixpoint find_from (s text : bytes) (i : N) : option N :=
  if starts_with s text then Some i
  else match text with
       | [] => None
       | _ :: text' => find_from s text' (i + 1)
       end.

Definition find (text s : bytes) : option N := find_from s text 0.

(** [std::min] on positions, [npos] being the largest [std::size_t]. *)
Definition min_pos (a b : option N) : option N :=
  match a, b with
  | Some x, Some y => Some (N.min x y)
  | Some x, None => Some x
  | None, o => o
  end.

Definition earliest_stop (text : bytes) (stops : list bytes) : option N :=
  fold_left (λ best s, match s with [] => best | _ => min_pos best (find text s) end) stops None.

Definition max_stop_len (stops : list bytes) : N :=
  fold_left (λ m s, N.max m (len s)) stops 0.

(** ** State *)

Record t := mk {
  seq_ : SeqId;
  spec_ : RequestSpec;
  prompt_ : list Token;
  holdback_ : N;
  prefilled_ : N;
  pending_ : Token;
  text_ : bytes;
  emitted_ : N;
  usage_ : Usage;
  reason_ : FinishReason;
  finished_ : bool;
  notified_ : bool;
  error_ : bytes }.

Definition make (seq : SeqId) (spec : RequestSpec) (prompt : list Token) : t :=
  mk seq spec prompt (max_stop_len (stop spec)) 0 0%Z [] 0
     (mkUsage (wrap32 (len prompt)) 0 0) kUnset false false [].

Definition set_prefilled (s : t) (n : N) : t :=
  mk (seq_ s) (spec_ s) (prompt_ s) (holdback_ s) n (pending_ s) (text_ s) (emitted_ s)
     (usage_ s) (reason_ s) (finished_ s) (notified_ s) (error_ s).
Definition set_pending (s : t) (tok : Token) : t :=
  mk (seq_ s) (spec_ s) (prompt_ s) (holdback_ s) (prefilled_ s) tok (text_ s) (emitted_ s)
     (usage_ s) (reason_ s) (finished_ s) (notified_ s) (error_ s).
Definition set_text (s : t) (x : bytes) : t :=
  mk (seq_ s) (spec_ s) (prompt_ s) (holdback_ s) (prefilled_ s) (pending_ s) x (emitted_ s)
     (usage_ s) (reason_ s) (finished_ s) (notified_ s) (error_ s).
Definition set_emitted (s : t) (n : N) : t :=
  mk (seq_ s) (spec_ s) (prompt_ s) (holdback_ s) (prefilled_ s) (pending_ s) (text_ s) n
     (usage_ s) (reason_ s) (finished_ s) (notified_ s) (error_ s).
Definition set_usage (s : t) (u : Usage) : t :=
  mk (seq_ s) (spec_ s) (prompt_ s) (holdback_ s) (prefilled_ s) (pending_ s) (text_ s) (emitted_ s)
     u (reason_ s) (finished_ s) (notified_ s) (error_ s).
Definition set_notified (s : t) : t :=
  mk (seq_ s) (spec_ s) (prompt_ s) (holdback_ s) (prefilled_ s) (pending_ s) (text_ s) (emitted_ s)
     (usage_ s) (reason_ s) true true (error_ s).
Definition set_error (s : t) (e : bytes) : t :=
  mk (seq_ s) (spec_ s) (prompt_ s) (holdback_ s) (prefilled_ s) (pending_ s) (text_ s) (emitted_ s)
     (usage_ s) (reason_ s) (finished_ s) (notified_ s) e.

(** [finished_ = true; reason_ = reason]. *)
Definition stop_with (s : t) (reason : FinishReason) : t :=
  mk (seq_ s) (spec_ s) (prompt_ s) (holdback_ s) (prefilled_ s) (pending_ s) (text_ s) (emitted_ s)
     (usage_ s) reason true (notified_ s) (error_ s).

Definition emitted_text (s : t) : bytes := take (N.to_nat (emitted_ s)) (text_ s).

(** ** Prefill *)

(** The casts are those of the code; the sum of two [int]s is exact, since overflowing it
    is undefined.  The runs considered stay below 2^31 tokens. *)
Definition feed_pos (s : t) : Pos :=
  (to_i32 (len (prompt_ s)) + to_i32 (completion_tokens (usage_ s)) - 1)%Z.

Definition adopt_cached_prefix (s : t) (n_tokens : N) : t :=
  let take := N.min n_tokens (if len (prompt_ s) =? 0 then 0 else len (prompt_ s) - 1) in
  set_usage (set_prefilled s take)
    (mkUsage (prompt_tokens (usage_ s)) (completion_tokens (usage_ s)) (wrap32 take)).

Definition prefill_remaining (s : t) : N := len (prompt_ s) - prefilled_ s.

Definition prefilling (s : t) : bool := 0 <? prefill_remaining s.

Definition take_prefill_chunk (s : t) (budget : N) : BatchItem * t :=
  let n := N.min budget (prefill_remaining s) in
  let from := prefilled_ s in
  let s' := set_prefilled s (from + n) in
  (mkItem (seq_ s) (take (N.to_nat n) (drop (N.to_nat from) (prompt_ s))) (to_i32 from)
          (prefill_remaining s' =? 0), s').

Definition prefill_item (s : t) : BatchItem * t := take_prefill_chunk s (len (prompt_ s)).

Definition decode_item (s : t) : BatchItem := mkItem (seq_ s) [pending_ s] (feed_pos s) true.

(** ** Generation *)

Definition safe_prefix (s : t) : N :=
  if holdback_ s =? 0 then len (text_ s)
  else if holdback_ s - 1 <=? len (text_ s) then len (text_ s) - (holdback_ s - 1) else 0.

Section Sink.
Context {E K : Type} `{IModelEngine E} `{ITokenSink K}.

Definition flush_upto (s : t) (k : K) (upto : N) : t * K :=
  if emitted_ s <? upto then
    (set_emitted s upto,
     on_text k (take (N.to_nat (upto - emitted_ s)) (drop (N.to_nat (emitted_ s)) (text_ s))))
  else (s, k).

Definition accept (e : E) (m : Flags) (s : t) (k : K) (step : GenStep) : bool * (E * t * K) :=
  if finished_ s then (false, (e, s, k))
  else if step_is_eog step then (false, (e, stop_with s kEos, k))
  else if max_tokens (spec_ s) <=? completion_tokens (usage_ s)
  then (false, (e, stop_with s kMaxTokens, k))
  else
    let (p, e') := piece e (step_token step) in
    let u := usage_ s in
    let s1 := set_usage (set_text s (text_ s ++ p))
                (mkUsage (prompt_tokens u) (add32 (completion_tokens u) 1) (cached_prompt_tokens u)) in
    match earliest_stop (text_ s1) (stop (spec_ s1)) with
    | Some stop_at =>
        let (s2, k') := flush_upto s1 k stop_at in
        (false, (e', stop_with s2 kStopString, k'))
    | None =>
        let (s2, k') := flush_upto s1 k (safe_prefix s1) in
        if cancelled k' m then
          let (s3, k'') := flush_upto s2 k' (len (text_ s2)) in
          (false, (e', stop_with s3 kCancelled, k''))
        else (true, (e', set_pending s2 (step_token step), k'))
    end.

Definition fail (s : t) (message : bytes) (reason : FinishReason) : t :=
  stop_with (set_error s message) reason.

Definition finish (s : t) (k : K) : t * K :=
  if notified_ s then (s, k)
  else
    let s1 := set_notified s in
    if decide (reason_ s1 = kError ∨ reason_ s1 = kContextOverflow) then (s1, on_error k (error_ s1))
    else
      let (s2, k') :=
        if decide (reason_ s1 = kEos ∨ reason_ s1 = kMaxTokens)
        then flush_upto s1 k (len (text_ s1)) else (s1, k) in
      (s2, on_finish k' (reason_ s2) (usage_ s2)).

(** What a sequence is about never changes under [accept] and [finish]. *)
Definition same_request (s s' : t) : Prop :=
  seq_ s' = seq_ s ∧ spec_ s' = spec_ s ∧ prompt_ s' = prompt_ s ∧ prefilled_ s' = prefilled_ s ∧
  prompt_tokens (usage_ s') = prompt_tokens (usage_ s).

Lemma flush_upto_frame (s : t) (k : K) upto : same_request s (flush_upto s k upto).1.
Proof. unfold flush_upto. by destruct (_ <? _). Qed.

Lemma accept_frame (e : E) m s (k : K) step : same_request s (accept e m s k step).2.1.2.
Proof.
  unfold accept. destruct (finished_ s); [done|]. destruct (step_is_eog step); [done|].
  destruct (_ <=? _); [done|]. destruct (piece _ _) as [p e'].
  destruct (earliest_stop _ _) as [q|].
  - set (s1 := set_usage _ _). pose proof (flush_upto_frame s1 k q) as F.
    by destruct (flush_upto s1 k q).
  - set (s1 := set_usage _ _). pose proof (flush_upto_frame s1 k (safe_prefix s1)) as F.
    destruct (flush_upto s1 k _) as [s2 k2]. simpl in F. destruct (cancelled _ _); [|done].
    pose proof (flush_upto_frame s2 k2 (len (text_ s2))) as F2.
    destruct (flush_upto s2 k2 _) as [s3 k3]. simpl in *. unfold same_request in *. simpl.
    destruct F as (? & ? & ? & ? & ?), F2 as (? & ? & ? & ? & ?). subst s1; simpl in *; split_and!; congruence.
Qed.

Lemma finish_frame (s : t) (k : K) :
  let s' := (finish s k).1 in
  same_request s s' ∧ usage_ s' = usage_ s ∧ notified_ s' = true ∧
  (notified_ s = false → finished_ s' = true) ∧ (finished_ s = true → finished_ s' = true).
Proof.
  unfold finish, flush_upto. destruct (notified_ s) eqn:En; [done|].
  case_decide; [done|]. case_decide; [|done]. simpl. by destruct (_ <? _).
Qed.

End Sink.

(** ** Lemmas on stop strings *)

Lemma starts_with_spec s text : starts_with s text = true ↔ s `prefix_of` text.
Proof.
  revert text. induction s as [|c s IH]; intros text; simpl.
  { split; [intros _; apply prefix_nil|done]. }
  destruct text as [|d text].
  - split; [done|]. intros H. by apply prefix_nil_not in H.
  - case_decide; subst.
    + rewrite IH. split; [apply prefix_cons|apply prefix_cons_inv_2].
    + split; [done|]. intros Hp. by apply prefix_cons_inv_1 in Hp.
Qed.

(** [s] occurs in [text] at position [i]. *)
Definition occurs (s text : bytes) (i : N) : Prop := s `prefix_of` drop (N.to_nat i) text.

Lemma find_from_spec s text b :
  match find_from s text b with
  | Some i => b ≤ i ∧ occurs s text (i - b) ∧ ∀ j, j < i - b → ¬ occurs s text j
  | None => ∀ j, j ≤ len text → ¬ occurs s text j
  end.
Proof.
  revert b. induction text as [|c text IH]; intros b; cbn [find_from].
  - destruct (starts_with s []) eqn:E.
    + apply starts_with_spec in E. rewrite N.sub_diag. split_and!; [lia|done|lia].
    + intros j Hj Ho. unfold occurs in Ho. rewrite drop_nil in Ho.
      apply starts_with_spec in Ho. congruence.
  - destruct (starts_with s (c :: text)) eqn:E.
    + apply starts_with_spec in E. rewrite N.sub_diag. split_and!; [lia|done|lia].
    + assert (H0 : ¬ occurs s (c :: text) 0).
      { unfold occurs. simpl. intros Ho%starts_with_spec. congruence. }
      assert (Hs : ∀ j, 0 < j → occurs s (c :: text) j ↔ occurs s text (j - 1)).
      { intros j Hj. unfold occurs.
        replace (N.to_nat j) with (S (N.to_nat (j - 1))) by lia. done. }
      specialize (IH (b + 1)). destruct (find_from s text (b + 1)) as [i|].
      * destruct IH as (I1 & I2 & I3). split_and!; [lia| |].
        -- apply Hs; [lia|]. by replace (i - b - 1) with (i - (b + 1)) by lia.
        -- intros j Hj. destruct (decide (j = 0)) as [->|]; [done|].
           rewrite Hs by lia. apply I3. lia.
      * intros j Hj. rewrite len_cons in Hj. destruct (decide (j = 0)) as [->|]; [done|].
        rewrite Hs by lia. apply IH. lia.
Qed.

Lemma occurs_bound s text i : s ≠ [] → occurs s text i → i + len s ≤ len text.
Proof.
  intros Hs Ho. apply prefix_length in Ho. rewrite length_drop in Ho.
  unfold len. destruct s; [done|]. simpl in *. lia.
Qed.

(** Past the end of the text only the empty string occurs, and it occurs there. *)
Lemma occurs_clip s text j : occurs s text j → occurs s text (N.min j (len text)).
Proof.
  unfold occurs, len. intros Ho. destruct (decide (j ≤ N.of_nat (length text))).
  - by rewrite N.min_l.
  - rewrite drop_ge in Ho by lia. rewrite N.min_r, Nat2N.id, drop_all by lia. done.
Qed.

Lemma find_None text s : find text s = None ↔ ∀ j, ¬ occurs s text j.
Proof.
  unfold find. pose proof (find_from_spec s text 0) as H. destruct (find_from s text 0) as [k|].
  - split; [done|]. intros Hn. rewrite N.sub_0_r in H. by destruct (Hn k), H as (_ & ? & _).
  - split; [|done]. intros _ j Ho%occurs_clip. by apply (H (N.min j (len text))); [lia|].
Qed.

Lemma find_Some text s i :
  find text s = Some i ↔ occurs s text i ∧ ∀ j, j < i → ¬ occurs s text j.
Proof.
  pose proof (find_None text s) as HN. unfold find in *. pose proof (find_from_spec s text 0) as H.
  destruct (find_from s text 0) as [k|].
  - rewrite N.sub_0_r in H. destruct H as (_ & H2 & H3). split; [by intros [= <-]|].
    intros [Ho Hm]. f_equal. destruct (N.lt_trichotomy k i) as [Hl|[->|Hl]]; [|done|].
    + by destruct (Hm _ Hl).
    + by destruct (H3 _ Hl).
  - split; [done|]. intros [Ho _]. by destruct (proj1 HN eq_refl i).
Qed.

(** [earliest_stop] is the least position at which a non-empty stop occurs. *)
Lemma earliest_fold text stops best :
  let r := fold_left (λ best s, match s with [] => best | _ => min_pos best (find text s) end) stops best in
  match r with
  | Some p =>
      (best = Some p ∨ ∃ s, s ∈ stops ∧ s ≠ [] ∧ find text s = Some p) ∧
      (∀ q, best = Some q → p ≤ q) ∧
      (∀ s q, s ∈ stops → s ≠ [] → find text s = Some q → p ≤ q)
  | None => best = None ∧ ∀ s, s ∈ stops → s ≠ [] → find text s = None
  end.
Proof.
  revert best. induction stops as [|s stops IH]; intros best; cbn [fold_left].
  { destruct best as [p|]; [|set_solver]. split_and!; [by left| |set_solver].
    intros q [= ->]. lia. }
  specialize (IH (match s with [] => best | _ => min_pos best (find text s) end)). cbv zeta in *.
  destruct (fold_left _ _ _) as [p|].
  - destruct IH as (I1 & I2 & I3). destruct s as [|c s0].
    { split_and!; [destruct I1 as [?|(s & ? & ? & ?)]; [by left|right; exists s; set_solver]|done|].
      intros s' q [->|Hin]%elem_of_cons; [done|eauto]. }
    set (s := c :: s0) in *. assert (Hs : s ≠ []) by done.
    assert (Hmin : ∀ q, (best = Some q ∨ find text s = Some q) → p ≤ q).
    { intros q Hq. destruct best as [b|], (find text s) as [f|]; simpl in I2; destruct Hq as [[=]|[=]];
        subst; specialize (I2 _ eq_refl); lia. }
    split_and!.
    + destruct I1 as [I1|(s' & ? & ? & ?)]; [|right; exists s'; set_solver].
      destruct best as [b|], (find text s) as [f|] eqn:Ef; simpl in I1; simplify_eq.
      * destruct (N.min_spec b f) as [[_ ->]|[_ ->]]; [by left|right; exists s; set_solver].
      * by left.
      * right. exists s. set_solver.
    + intros q Hq. apply Hmin. by left.
    + intros s' q [->|Hin]%elem_of_cons Hne Hf; [apply Hmin; by right|eauto].
  - destruct IH as [I1 I2]. destruct s as [|c s0].
    + split; [done|]. intros s' [->|Hin]%elem_of_cons Hne; [done|auto].
    + set (s := c :: s0) in *. destruct best as [b|], (find text s) as [f|] eqn:Ef; try done.
      split; [done|]. intros s' [->|Hin]%elem_of_cons Hne; [done|auto].
Qed.

Lemma earliest_None text stops :
  earliest_stop text stops = None ↔ ∀ s, s ∈ stops → s ≠ [] → ∀ j, ¬ occurs s text j.
Proof.
  unfold earliest_stop. pose proof (earliest_fold text stops None) as H. cbv zeta in H.
  destruct (fold_left _ _ _) as [p|].
  - split; [done|]. intros Hn. destruct H as ([?|(s & Hs & Hne & Hf)] & _); [done|].
    apply find_Some in Hf as [Ho _]. by destruct (Hn s Hs Hne p).
  - split; [|done]. intros _ s Hs Hne. apply find_None. by apply H.
Qed.

Lemma earliest_Some text stops p :
  earliest_stop text stops = Some p →
  (∃ s, s ∈ stops ∧ s ≠ [] ∧ occurs s text p) ∧
  (∀ s j, s ∈ stops → s ≠ [] → occurs s text j → p ≤ j).
Proof.
  unfold earliest_stop. intros E. pose proof (earliest_fold text stops None) as H. cbv zeta in H.
  rewrite E in H. destruct H as ([?|(s & Hs & Hne & Hf)] & _ & Hm); [done|]. split.
  - exists s. apply find_Some in Hf as [? _]. done.
  - intros s' j Hs' Hne' Ho. destruct (find text s') as [i|] eqn:Ei.
    + specialize (Hm s' i Hs' Hne' Ei). apply find_Some in Ei as [_ Hmin].
      destruct (decide (j < i)) as [Hl|]; [by destruct (Hmin j Hl)|lia].
    + by destruct (proj1 (find_None text s') Ei j).
Qed.

Lemma max_stop_len_ge stops s : s ∈ stops → len s ≤ max_stop_len stops.
Proof.
  unfold max_stop_len.
  assert (G : ∀ m, m ≤ fold_left (λ m s, N.max m (len s)) stops m ∧
    (s ∈ stops → len s ≤ fold_left (λ m s, N.max m (len s)) stops m)).
  { induction stops as [|x stops IH]; intros m; simpl; [split; [lia|set_solver]|].
    destruct (IH (N.max m (len x))) as [I1 I2]. split; [lia|].
    intros [->|Hin]%elem_of_cons; [lia|by apply I2]. }
  apply G.
Qed.

(** The reason for the holdback: a stop that appears only once a piece is added
    begins less than the longest stop before the old end. *)
Lemma new_stop_is_late text p stops q :
  earliest_stop text stops = None → earliest_stop (text ++ p) stops = Some q →
  len text < q + max_stop_len stops ∧ q ≤ len (text ++ p) ∧ 0 < max_stop_len stops.
Proof.
  intros Hn Hq. destruct (earliest_Some _ _ _ Hq) as [(s & Hs & Hne & Ho) _].
  pose proof (max_stop_len_ge stops s Hs) as Hmax.
  pose proof (occurs_bound s _ q Hne Ho) as Hb.
  assert (0 < len s) by (destruct s; [done|rewrite len_cons; lia]).
  split_and!; try lia.
  destruct (decide (q + len s ≤ len text)) as [Hle|]; [|lia]. exfalso.
  apply (proj1 (earliest_None text stops) Hn s Hs Hne q). unfold occurs in *.
  rewrite drop_app_le in Ho by (unfold len in *; lia).
  destruct Ho as [r Hr]. exists (drop (length s) (drop (N.to_nat q) text)).
  apply (f_equal (take (length s))) in Hr. rewrite take_app_length, take_app_le in Hr
    by (rewrite length_drop; unfold len in *; lia).
  rewrite <- Hr at 1. by rewrite take_drop.
Qed.

(** ** The invariant of a sequence *)

Record inv (s : t) : Prop := mk_inv {
  inv_holdback : holdback_ s = max_stop_len (stop (spec_ s));
  inv_prefilled : prefilled_ s ≤ len (prompt_ s);
  inv_emitted : emitted_ s ≤ len (text_ s);
  inv_max : max_tokens (spec_ s) < 4294967296;
  inv_tokens : completion_tokens (usage_ s) ≤ max_tokens (spec_ s);
  inv_running : finished_ s = false →
    reason_ s = kUnset ∧ notified_ s = false ∧
    earliest_stop (text_ s) (stop (spec_ s)) = None ∧ emitted_ s ≤ safe_prefix s;
  inv_clean : earliest_stop (emitted_text s) (stop (spec_ s)) = None }.

Lemma earliest_nil stops : earliest_stop [] stops = None.
Proof.
  apply earliest_None. intros s Hs Hne j Ho. apply (occurs_bound s [] j Hne) in Ho.
  rewrite len_nil in Ho. destruct s; [done|]. rewrite len_cons in Ho. lia.
Qed.

Lemma inv_make seq spec prompt :
  max_tokens spec < 4294967296 → inv (make seq spec prompt).
Proof.
  intros Hm. split; simpl; try done; try lia.
  - intros _. split_and!; try done; [apply earliest_nil|lia].
  - apply earliest_nil.
Qed.

(** A stop inside a prefix of the text is a stop of the text. *)
Lemma earliest_take text stops n :
  (∀ p, earliest_stop text stops = Some p → n ≤ p) →
  earliest_stop (take (N.to_nat n) text) stops = None.
Proof.
  intros Hp. apply earliest_None. intros s Hs Hne j Ho.
  pose proof (occurs_bound s _ j Hne Ho) as Hb. unfold len in Hb. rewrite length_take in Hb.
  assert (0 < len s) by (destruct s; [done|rewrite len_cons; lia]). unfold len in *.
  assert (Ho' : occurs s text j).
  { unfold occurs in *. rewrite <- (take_drop (N.to_nat n) text), drop_app_le
      by (rewrite length_take; lia). by apply prefix_app_r. }
  destruct (earliest_stop text stops) as [p|] eqn:E.
  - destruct (earliest_Some _ _ _ E) as [_ Hm]. specialize (Hm s j Hs Hne Ho').
    specialize (Hp p eq_refl). lia.
  - by apply (proj1 (earliest_None text stops) E s Hs Hne j).
Qed.

Section SinkLemmas.
Context {E K : Type} `{IModelEngine E} `{ITokenSink K}.

Lemma set_emitted_same s : set_emitted s (emitted_ s) = s.
Proof. by destruct s. Qed.

(** [flush_upto] only moves the emission mark, and the sink gets exactly the text
    between the old and the new mark. *)
Lemma flush_upto_spec (s : t) (k : K) upto :
  upto ≤ len (text_ s) →
  let (s', k') := flush_upto s k upto in
  s' = set_emitted s (N.max (emitted_ s) upto) ∧
  ∃ cs, k' = calls k cs ∧ Forall (λ c, is_text c = true) cs ∧
    emitted_text s' = emitted_text s ++ delivered cs.
Proof.
  intros Hu. unfold flush_upto. destruct (emitted_ s <? upto) eqn:El; bool_hyps.
  - rewrite N.max_r by lia. split; [done|].
    exists [CText (take (N.to_nat (upto - emitted_ s)) (drop (N.to_nat (emitted_ s)) (text_ s)))].
    split_and!; [done|by repeat constructor|].
    unfold emitted_text, delivered. simpl. rewrite app_nil_r.
    rewrite take_take_drop. f_equal. lia.
  - rewrite N.max_l by lia. split; [by rewrite set_emitted_same|]. exists [].
    split_and!; [done|constructor|]. unfold delivered. simpl. by rewrite app_nil_r.
Qed.

(** The state of a sequence after one more piece of text. *)
Definition grow (s : t) (p : bytes) : t :=
  let u := usage_ s in
  set_usage (set_text s (text_ s ++ p))
    (mkUsage (prompt_tokens u) (completion_tokens u + 1) (cached_prompt_tokens u)).

(** What [accept] does on a running sequence, branch by branch. *)
Inductive accepted (e : E) (m : Flags) (s : t) (k : K) (step : GenStep)
    : bool → E → t → K → Prop :=
  | acc_eos :
      step_is_eog step = true → accepted e m s k step false e (stop_with s kEos) k
  | acc_max :
      step_is_eog step = false → max_tokens (spec_ s) ≤ completion_tokens (usage_ s) →
      accepted e m s k step false e (stop_with s kMaxTokens) k
  | acc_stop p e' q cs :
      step_is_eog step = false → completion_tokens (usage_ s) < max_tokens (spec_ s) →
      piece e (step_token step) = (p, e') →
      earliest_stop (text_ s ++ p) (stop (spec_ s)) = Some q →
      Forall (λ c, is_text c = true) cs →
      take (N.to_nat q) (text_ s ++ p) = emitted_text s ++ delivered cs →
      accepted e m s k step false e' (stop_with (set_emitted (grow s p) q) kStopString) (calls k cs)
  | acc_cancel p e' cs0 cs :
      step_is_eog step = false → completion_tokens (usage_ s) < max_tokens (spec_ s) →
      piece e (step_token step) = (p, e') →
      earliest_stop (text_ s ++ p) (stop (spec_ s)) = None →
      Forall (λ c, is_text c = true) cs → text_ s ++ p = emitted_text s ++ delivered cs →
      cancelled (calls k cs0) m = true →
      accepted e m s k step false e'
        (stop_with (set_emitted (grow s p) (len (text_ s ++ p))) kCancelled) (calls k cs)
  | acc_more p e' cs :
      step_is_eog step = false → completion_tokens (usage_ s) < max_tokens (spec_ s) →
      piece e (step_token step) = (p, e') →
      earliest_stop (text_ s ++ p) (stop (spec_ s)) = None →
      Forall (λ c, is_text c = true) cs →
      take (N.to_nat (safe_prefix (grow s p))) (text_ s ++ p) = emitted_text s ++ delivered cs →
      cancelled (calls k cs) m = false →
      accepted e m s k step true e'
        (set_pending (set_emitted (grow s p) (safe_prefix (grow s p))) (step_token step)) (calls k cs).

Lemma safe_prefix_le s : safe_prefix s ≤ len (text_ s).
Proof. unfold safe_prefix. destruct (_ =? _); [lia|]. destruct (_ <=? _) eqn:E1; bool_hyps; lia. Qed.

Lemma safe_prefix_grow s p : safe_prefix s ≤ safe_prefix (grow s p).
Proof.
  unfold safe_prefix, grow. simpl. rewrite len_app.
  destruct (_ =? _); [lia|].
  destruct (N.leb_spec (holdback_ s - 1) (len (text_ s))),
    (N.leb_spec (holdback_ s - 1) (len (text_ s) + len p)); lia.
Qed.

Lemma emitted_grow s p : emitted_ s ≤ len (text_ s) → emitted_text (grow s p) = emitted_text s.
Proof. intros Hl. unfold emitted_text. simpl. apply take_app_le. unfold len in Hl. lia. Qed.

Lemma stop_after_emitted s p q :
  inv s → finished_ s = false → earliest_stop (text_ s ++ p) (stop (spec_ s)) = Some q →
  emitted_ s ≤ q ∧ q ≤ len (text_ s ++ p).
Proof.
  intros I Hf Hq. destruct (inv_running s I Hf) as (_ & _ & Hn & Hs).
  destruct (new_stop_is_late _ _ _ _ Hn Hq) as (H1 & H2 & H3). split; [|done].
  unfold safe_prefix in Hs. rewrite (inv_holdback s I) in Hs.
  destruct (_ =? 0) eqn:E0; bool_hyps; [lia|]. destruct (_ <=? _) eqn:E1; bool_hyps; lia.
Qed.

Lemma accept_spec e m s k step :
  inv s → finished_ s = false →
  let '(b, (e', s', k')) := accept e m s k step in accepted e m s k step b e' s' k'.
Proof.
  intros I Hf. pose proof (inv_running s I Hf) as (_ & _ & Hn & Hsafe).
  unfold accept. rewrite Hf. destruct (step_is_eog step) eqn:Eg; [by constructor|].
  destruct (_ <=? _) eqn:Em; bool_hyps; [by constructor|].
  destruct (piece e (step_token step)) as [p e'] eqn:Ep.
  rewrite add32_small by (pose proof (inv_max s I); lia). fold (grow s p).
  pose proof (emitted_grow s p (inv_emitted s I)) as Hg.
  change (text_ (grow s p)) with (text_ s ++ p). change (spec_ (grow s p)) with (spec_ s).
  destruct (earliest_stop (text_ s ++ p) _) as [q|] eqn:Es.
  - destruct (stop_after_emitted s p q I Hf Es) as [H1 H2].
    pose proof (flush_upto_spec (grow s p) k q H2) as Hfl.
    destruct (flush_upto (grow s p) k q) as [s2 k']. destruct Hfl as (-> & cs & -> & Hc & Ht).
    rewrite N.max_r in * by done. rewrite Hg in Ht. by eapply acc_stop.
  - pose proof (flush_upto_spec (grow s p) k _ (safe_prefix_le (grow s p))) as Hfl.
    destruct (flush_upto (grow s p) k _) as [s2 k']. destruct Hfl as (-> & cs & -> & Hc & Ht).
    rewrite N.max_r in * by (pose proof (safe_prefix_grow s p); simpl; lia). rewrite Hg in Ht.
    destruct (cancelled (calls k cs) m) eqn:Ec; [|by eapply acc_more].
    set (s2 := set_emitted (grow s p) (safe_prefix (grow s p))) in *.
    pose proof (flush_upto_spec s2 (calls k cs) (len (text_ s2)) ltac:(lia)) as Hfl.
    destruct (flush_upto s2 _ _) as [s3 k'']. destruct Hfl as (-> & ds & -> & Hd & Ht2).
    assert (Hmx : N.max (emitted_ s2) (len (text_ s2)) = len (text_ s2))
      by (apply N.max_r, (safe_prefix_le (grow s p))).
    rewrite Hmx in *. rewrite <- calls_app.
    eapply acc_cancel; eauto; [by apply Forall_app|]. rewrite delivered_app, app_assoc, <- Ht.
    rewrite <- Ht2. unfold emitted_text. simpl. by rewrite take_ge by (unfold len; lia).
Qed.

Lemma accepted_inv e m s k step b e' s' k' :
  inv s → finished_ s = false → accepted e m s k step b e' s' k' →
  inv s' ∧ finished_ s' = negb b.
Proof.
  intros I Hf A. pose proof I as [I1 I2 I3 I4 I5 I6 I7]. pose proof (I6 Hf) as (H1 & H2 & H3 & H4).
  destruct A as [Hg|Hg Hm|p ? q cs Hg Hm Hp Hs Hc Ht|p ? cs0 cs Hg Hm Hp Hs Hc Ht Hk|p ? cs Hg Hm Hp Hs Hc Ht Hk];
    (split; [|done]).
  - split; try done.
  - split; try done.
  - destruct (stop_after_emitted s p q I Hf Hs) as [Hq1 Hq2].
    split; simpl; try done; try lia. unfold emitted_text. simpl.
    apply earliest_take. intros q' Hq'. rewrite Hs in Hq'. injection Hq' as <-. lia.
  - split; simpl; try done; try lia. unfold emitted_text. simpl.
    apply earliest_take. rewrite Hs. done.
  - split; simpl; try done; try lia.
    + apply safe_prefix_le.
    + unfold emitted_text. simpl. apply earliest_take. rewrite Hs. done.
Qed.

(** [finish] notifies the sink once, flushing the withheld tail exactly on a clean
    end. *)
Definition terminal_call (s : t) : SinkCall :=
  if decide (reason_ s = kError ∨ reason_ s = kContextOverflow) then CError (error_ s)
  else CFinish (reason_ s) (usage_ s).

Lemma finish_spec s (k : K) :
  emitted_ s ≤ len (text_ s) → notified_ s = false →
  let (s', k') := finish s k in
  s' = set_emitted (set_notified s) (emitted_ s') ∧
  emitted_text s' = (if decide (reason_ s = kEos ∨ reason_ s = kMaxTokens)
                     then text_ s else emitted_text s) ∧
  ∃ cs, k' = calls k (cs ++ [terminal_call s]) ∧ Forall (λ c, is_text c = true) cs ∧
    emitted_text s' = emitted_text s ++ delivered cs.
Proof.
  intros He Hn. unfold finish, terminal_call. rewrite Hn. simpl.
  assert (Hid : ∀ s0, s0 = set_emitted s0 (emitted_ s0)) by (by destruct s0).
  destruct (decide (reason_ s = kError ∨ _)) as [Hr|Hr].
  { split_and!; [by apply (Hid (set_notified s))| |].
    - rewrite decide_False; [done|]. by destruct Hr as [-> | ->]; intros [].
    - exists []. split_and!; [done|constructor|]. unfold delivered. simpl. by rewrite app_nil_r. }
  case_decide as Hc.
  - pose proof (flush_upto_spec (set_notified s) k (len (text_ s)) ltac:(simpl; lia)) as Hf.
    destruct (flush_upto _ _ _) as [s2 k2]. destruct Hf as (-> & cs & -> & Hcs & Ht). simpl in *.
    split_and!; [done| |].
    + unfold emitted_text. simpl. rewrite take_ge; [done|]. unfold len in *. lia.
    + exists cs. rewrite calls_app. done.
  - split_and!; [by apply (Hid (set_notified s))|done|]. exists [].
    split_and!; [done|constructor|]. unfold delivered. simpl. by rewrite app_nil_r.
Qed.

(** Consuming sampled tokens until the sequence ends, then [finish]: the life of a
    sequence under every driver.  Each token comes with the flag memory at the
    moment [accept] polls it. *)
Fixpoint drive (e : E) (s : t) (k : K) (steps : list (Flags * GenStep)) : E * t * K :=
  match steps with
  | [] => (e, s, k)
  | (m, st) :: rest =>
      match accept e m s k st with
      | (true, (e', s', k')) => drive e' s' k' rest
      | (false, (e', s', k')) => let (s'', k'') := finish s' k' in (e', s'', k'')
      end
  end.

(** The pieces the engine renders for the tokens, [None] for an end token. *)
Fixpoint pieces (e : E) (steps : list (Flags * GenStep)) : list (option bytes) :=
  match steps with
  | [] => []
  | (_, st) :: rest =>
      if step_is_eog st then [None]
      else let (p, e') := piece e (step_token st) in Some p :: pieces e' rest
  end.

(** The reference: collect whole pieces, check the end conditions, truncate at the
    earliest stop.  No holdback, no incremental emission. *)
Fixpoint reference (stops : list bytes) (max : N) (ps : list (option bytes)) (n : N) (text : bytes)
    : bytes * FinishReason * N :=
  match ps with
  | [] => (text, kUnset, n)
  | None :: _ => (text, kEos, n)
  | Some p :: rest =>
      if max <=? n then (text, kMaxTokens, n)
      else match earliest_stop (text ++ p) stops with
           | Some q => (take (N.to_nat q) (text ++ p), kStopString, n + 1)
           | None => reference stops max rest (n + 1) (text ++ p)
           end
  end.

(** [s] and [k] became [s'] and [k'] by a completed run that delivered [cs] and one
    terminal call. *)
Definition completed (s : t) (k : K) (s' : t) (k' : K) (cs : list SinkCall) : Prop :=
  k' = calls k (cs ++ [terminal_call s']) ∧ Forall (λ c, is_text c = true) cs ∧
  emitted_text s' = emitted_text s ++ delivered cs ∧
  notified_ s' = true ∧ finished_ s' = true ∧ spec_ s' = spec_ s ∧
  completion_tokens (usage_ s') ≤ max_tokens (spec_ s) ∧
  earliest_stop (emitted_text s') (stop (spec_ s)) = None.

(** The last step of a run: [accept] ended the sequence and [finish] is called. *)
Lemma finish_completed s s1 (k k1 : K) cs :
  inv s1 → notified_ s1 = false → spec_ s1 = spec_ s →
  (reason_ s1 = kEos ∨ reason_ s1 = kMaxTokens →
     earliest_stop (text_ s1) (stop (spec_ s1)) = None) →
  k1 = calls k cs → Forall (λ c, is_text c = true) cs →
  emitted_text s1 = emitted_text s ++ delivered cs →
  let (s2, k2) := finish s1 k1 in
  (∃ cs', completed s k s2 k2 cs') ∧ reason_ s2 = reason_ s1 ∧ usage_ s2 = usage_ s1 ∧
  error_ s2 = error_ s1 ∧
  emitted_text s2 = (if decide (reason_ s1 = kEos ∨ reason_ s1 = kMaxTokens)
                     then text_ s1 else emitted_text s1).
Proof.
  intros I Hn Hsp Hclean -> Hcs Ht. pose proof (finish_spec s1 (calls k cs) (inv_emitted s1 I) Hn) as Hf.
  destruct (finish s1 (calls k cs)) as [s2 k2]. destruct Hf as (Hs2 & He & ds & -> & Hds & Hd).
  assert (Hterm : terminal_call s2 = terminal_call s1) by (rewrite Hs2; done).
  split_and!; try (rewrite Hs2; done); [|exact He].
  exists (cs ++ ds). unfold completed. rewrite Hterm.
  split_and!; try (rewrite Hs2; done).
  - by rewrite <- calls_app, app_assoc.
  - by apply Forall_app.
  - by rewrite Hd, Ht, delivered_app, app_assoc.
  - rewrite <- Hsp. rewrite Hs2. simpl. apply (inv_tokens s1 I).
  - rewrite He, <- Hsp. case_decide; [by apply Hclean|]. apply (inv_clean s1 I).
Qed.

Lemma drive_completed e s k steps :
  inv s → finished_ s = false →
  let '(_, s', k') := drive e s k steps in
  notified_ s' = true → ∃ cs, completed s k s' k' cs.
Proof.
  revert e s k. induction steps as [|[m st] steps IH]; intros e s k I Hf; simpl.
  { intros Hn. destruct (inv_running s I Hf) as (_ & ? & _). congruence. }
  pose proof (accept_spec e m s k st I Hf) as A.
  destruct (accept e m s k st) as [b [[e1 s1] k1]].
  destruct (accepted_inv _ _ _ _ _ _ _ _ _ I Hf A) as [I1 Hf1].
  destruct (inv_running s I Hf) as (_ & Hnot & Hstop & _).
  assert (G : ∃ cs, k1 = calls k cs ∧ Forall (λ c, is_text c = true) cs ∧
    emitted_text s1 = emitted_text s ++ delivered cs ∧ spec_ s1 = spec_ s ∧ notified_ s1 = false ∧
    (reason_ s1 = kEos ∨ reason_ s1 = kMaxTokens → earliest_stop (text_ s1) (stop (spec_ s1)) = None)).
  { destruct A as [Hg|Hg Hm|p ? q cs Hg Hm Hp Hs Hc Ht|p ? cs0 cs Hg Hm Hp Hs Hc Ht Hk|p ? cs Hg Hm Hp Hs Hc Ht Hk];
      [exists []; unfold delivered; simpl; rewrite app_nil_r; by repeat split
      |exists []; unfold delivered; simpl; rewrite app_nil_r; by repeat split|..];
      exists cs; split_and!; try done; try (by intros []).
    unfold emitted_text. simpl. rewrite take_ge by (unfold len; lia). done. }
  destruct G as (cs & -> & Hcs & Ht & Hsp & Hn1 & Hcl).
  destruct b; simpl in Hf1.
  - specialize (IH e1 s1 (calls k cs) I1 Hf1). destruct (drive e1 s1 (calls k cs) steps) as [[e2 s2] k2].
    intros Hn. destruct (IH Hn) as (ds & -> & D2 & D3 & D4 & D5 & D6 & D7 & D8). exists (cs ++ ds).
    unfold completed. rewrite <- Hsp. split_and!; try done.
    + by rewrite <- calls_app, app_assoc.
    + by apply Forall_app.
    + by rewrite D3, Ht, delivered_app, app_assoc.
  - pose proof (finish_completed s s1 k _ cs I1 Hn1 Hsp Hcl eq_refl Hcs Ht) as F.
    destruct (finish s1 (calls k cs)) as [s2 k2]. intros _. apply F.
Qed.

(** An uncancelled run ends as the reference does. *)
Lemma drive_reference e s k steps :
  inv s → finished_ s = false →
  (∀ m st (k' : K), (m, st) ∈ steps → cancelled k' m = false) →
  let '(text, reason, n) :=
    reference (stop (spec_ s)) (max_tokens (spec_ s)) (pieces e steps)
      (completion_tokens (usage_ s)) (text_ s) in
  reason ≠ kUnset →
  let '(_, s', _) := drive e s k steps in
  notified_ s' = true ∧ emitted_text s' = text ∧ reason_ s' = reason ∧
  completion_tokens (usage_ s') = n.
Proof.
  revert e s k. induction steps as [|[m st] steps IH]; intros e s k I Hf Hc; [done|].
  cbn [drive pieces]. pose proof (accept_spec e m s k st I Hf) as A.
  destruct (accept e m s k st) as [b [[e1 s1] k1]].
  destruct (accepted_inv _ _ _ _ _ _ _ _ _ I Hf A) as [I1 Hf1].
  destruct (inv_running s I Hf) as (_ & Hnot & _ & _).
  assert (Hfin : b = false → notified_ s1 = false → let (s2, _) := finish s1 k1 in
    notified_ s2 = true ∧ reason_ s2 = reason_ s1 ∧ usage_ s2 = usage_ s1 ∧
    emitted_text s2 = (if decide (reason_ s1 = kEos ∨ reason_ s1 = kMaxTokens) then text_ s1
                       else emitted_text s1)).
  { intros _ Hn. pose proof (finish_spec s1 k1 (inv_emitted s1 I1) Hn) as F.
    destruct (finish s1 k1) as [s2 k2]. destruct F as (Hs & He & _).
    split_and!; try (rewrite Hs; done). exact He. }
  destruct A as [Hg|Hg Hm|p e2 q cs Hg Hm Hp Hs Hcs Ht|p e2 cs0 cs Hg Hm Hp Hs Hcs Ht Hk|p e2 cs Hg Hm Hp Hs Hcs Ht Hk];
    rewrite Hg; rewrite ?Hp.
  - simpl. intros _. specialize (Hfin eq_refl Hnot). destruct (finish _ _) as [s2 k2].
    destruct Hfin as (F1 & F2 & F3 & F4). rewrite F2, F3, F4. done.
  - destruct (piece e (step_token st)) as [p e2]. cbn [reference].
    rewrite (proj2 (N.leb_le _ _) Hm). intros _. specialize (Hfin eq_refl Hnot).
    destruct (finish _ _) as [s2 k2]. destruct Hfin as (F1 & F2 & F3 & F4). rewrite F2, F3, F4. done.
  - cbn [reference]. rewrite (proj2 (N.leb_gt _ _) Hm), Hs. intros _.
    specialize (Hfin eq_refl Hnot). destruct (finish _ _) as [s2 k2].
    destruct Hfin as (F1 & F2 & F3 & F4). rewrite F2, F3, F4. done.
  - rewrite (Hc m st) in Hk; [done|set_solver].
  - cbn [reference]. rewrite (proj2 (N.leb_gt _ _) Hm), Hs.
    apply (IH e2 _ (calls k cs) I1 Hf1). set_solver.
Qed.

(** C28: a sequence keeps the sink protocol whatever ends it.  From a fresh
    sequence, once the run has ended (end token, token budget, stop string or
    cancellation) the sink has received text deltas followed by exactly one terminal
    call, the deltas concatenate to exactly the response body [emitted_text], the
    body contains no stop string, and at most [max_tokens] tokens were counted. *)
Theorem sink_protocol (e : E) (k : K) seq spec prompt steps :
  max_tokens spec < 4294967296 →
  let '(_, s', k') := drive e (make seq spec prompt) k steps in
  notified_ s' = true →
  ∃ cs, k' = calls k (cs ++ [terminal_call s']) ∧ Forall (λ c, is_text c = true) cs ∧
    delivered cs = emitted_text s' ∧
    earliest_stop (delivered cs) (stop spec) = None ∧
    completion_tokens (usage_ s') ≤ max_tokens spec.
Proof.
  intros Hm. pose proof (drive_completed e (make seq spec prompt) k steps (inv_make seq spec prompt Hm) eq_refl) as D.
  destruct (drive _ _ _ _) as [[e' s'] k']. intros Hn.
  destruct (D Hn) as (cs & D1 & D2 & D3 & _ & _ & _ & D4 & D5). simpl in *.
  exists cs. rewrite <- D3. done.
Qed.

(** C27: streaming with stop strings held back produces exactly the unoptimised
    result.  When nobody cancels, for every stream of sampled tokens on which the
    reference ends (it concatenates whole pieces, stops at the end token or after
    [max_tokens] pieces, and truncates at the earliest stop string), the incremental
    state machine ends too, with the same body, the same reason and the same token
    count, however the stop strings are split across pieces. *)
Theorem streaming_matches_reference (e : E) (k : K) seq spec prompt steps text reason n :
  max_tokens spec < 4294967296 →
  (∀ m st (k' : K), (m, st) ∈ steps → cancelled k' m = false) →
  reference (stop spec) (max_tokens spec) (pieces e steps) 0 [] = (text, reason, n) →
  reason ≠ kUnset →
  let '(_, s', k') := drive e (make seq spec prompt) k steps in
  notified_ s' = true ∧ emitted_text s' = text ∧ reason_ s' = reason ∧
  completion_tokens (usage_ s') = n.
Proof.
  intros Hm Hc Hr Hu.
  pose proof (drive_reference e (make seq spec prompt) k steps (inv_make seq spec prompt Hm) eq_refl Hc) as D.
  simpl in D. rewrite Hr in D. specialize (D Hu).
  destruct (drive _ _ _ _) as [[e' s'] k']. exact D.
Qed.

(** [finish] is idempotent: a second call neither changes the sequence nor
    calls the sink, whatever state the sequence is in. *)
Theorem finish_idempotent (s : t) (k : K) :
  let (s1, k1) := finish s k in
  notified_ s1 = true ∧ finish s1 k1 = (s1, k1).
Proof.
  assert (Hn : notified_ (finish s k).1 = true).
  { unfold finish, flush_upto. destruct (notified_ s) eqn:En; [done|].
    case_decide; [done|]. case_decide; [|done]. simpl. by destruct (_ <? _). }
  destruct (finish s k) as [s1 k1]. simpl in Hn. split; [done|].
  unfold finish. by rewrite Hn.
Qed.

End SinkLemmas.

(** ** Chunked prefill *)

(** Taking chunks of the given budgets while the prompt lasts. *)
Fixpoint prefill_chunks (s : t) (budgets : list N) : list BatchItem * t :=
  match budgets with
  | [] => ([], s)
  | b :: bs =>
      if prefilling s then
        let (i, s1) := take_prefill_chunk s b in
        let (its, s2) := prefill_chunks s1 bs in (i :: its, s2)
      else ([], s)
  end.

(** The items cover consecutive positions from [p]. *)
Fixpoint contiguous (p : Z) (items : list BatchItem) : Prop :=
  match items with
  | [] => True
  | i :: its => item_pos0 i = p ∧ contiguous (p + Z.of_N (len (item_tokens i)))%Z its
  end.

Lemma set_prefilled_twice s a b : set_prefilled (set_prefilled s a) b = set_prefilled s b.
Proof. done. Qed.

Lemma chunk_spec s b :
  prefilled_ s ≤ len (prompt_ s) → prefilling s = true →
  let (i, s1) := take_prefill_chunk s b in
  let n := N.min b (prefill_remaining s) in
  s1 = set_prefilled s (prefilled_ s + n) ∧ item_seq i = seq_ s ∧ len (item_tokens i) = n ∧
  item_tokens i ++ drop (N.to_nat (prefilled_ s1)) (prompt_ s) = drop (N.to_nat (prefilled_ s)) (prompt_ s) ∧
  item_pos0 i = to_i32 (prefilled_ s) ∧ item_sample i = negb (prefilling s1) ∧
  prefilled_ s1 ≤ len (prompt_ s).
Proof.
  intros Hp Hr. unfold take_prefill_chunk, prefilling, prefill_remaining in *. simpl. bool_hyps.
  split_and!; try done.
  - unfold len in *. rewrite length_take, length_drop. lia.
  - rewrite N2Nat.inj_add. rewrite <- drop_drop. apply take_drop.
  - destruct (N.eqb_spec (len (prompt_ s) - (prefilled_ s + N.min b (len (prompt_ s) - prefilled_ s))) 0),
      (N.ltb_spec 0 (len (prompt_ s) - (prefilled_ s + N.min b (len (prompt_ s) - prefilled_ s)))); try done; lia.
  - lia.
Qed.

(** C34: chunked prefill submits the prompt exactly once.  Whatever positive chunk
    budgets are used, as long as together they cover what is left of the prompt: the
    items concatenate to exactly the remaining prompt, their positions continue
    where the cached prefix ended, only the last item samples, and the sequence ends
    in the same state as if the prompt had been submitted in one item. *)
Theorem chunked_prefill s budgets :
  prefilled_ s ≤ len (prompt_ s) → len (prompt_ s) < 2147483648 →
  Forall (λ b, 0 < b) budgets →
  0 < prefill_remaining s ≤ fold_right N.add 0 budgets →
  let (items, s') := prefill_chunks s budgets in
  ∃ its last, items = its ++ [last] ∧
    concat (item_tokens <$> items) = drop (N.to_nat (prefilled_ s)) (prompt_ s) ∧
    contiguous (Z.of_N (prefilled_ s)) items ∧
    Forall (λ i, item_sample i = false) its ∧ item_sample last = true ∧
    Forall (λ i, item_seq i = seq_ s) items ∧
    s' = (take_prefill_chunk s (prefill_remaining s)).2.
Proof.
  intros Hp Hl. revert s Hp Hl. induction budgets as [|b bs IH]; intros s Hp Hl Hb [Hr1 Hr2].
  { simpl in Hr2. lia. }
  apply Forall_cons in Hb as [Hb Hbs]. cbn [prefill_chunks].
  assert (Hf : prefilling s = true) by (unfold prefilling; by apply N.ltb_lt). rewrite Hf.
  pose proof (chunk_spec s b Hp Hf) as C. destruct (take_prefill_chunk s b) as [i s1].
  destruct C as (Es1 & C1 & C2 & C3 & C4 & C5 & C6).
  rewrite to_i32_small in C4 by lia.
  assert (Hrem : prefill_remaining s1 = prefill_remaining s - N.min b (prefill_remaining s))
    by (subst s1; unfold prefill_remaining; simpl; lia).
  destruct (prefilling s1) eqn:Ef1.
  - assert (Hpos : 0 < prefill_remaining s1) by (unfold prefilling in Ef1; by bool_hyps).
    specialize (IH s1). replace (prompt_ s1) with (prompt_ s) in IH by (by subst s1).
    destruct (prefill_chunks s1 bs) as [items s2].
    destruct IH as (its & last & -> & I1 & I2 & I3 & I4 & I5 & I6); try done.
    { simpl in Hr2. lia. }
    exists (i :: its), last. split_and!; try done.
    + change (item_tokens i ++ concat (item_tokens <$> its ++ [last]) = drop (N.to_nat (prefilled_ s)) (prompt_ s)). by rewrite I1.
    + simpl. split; [done|]. rewrite C2. replace (Z.of_N (prefilled_ s) + _)%Z with (Z.of_N (prefilled_ s1)); [done|].
      subst s1. simpl. lia.
    + by constructor.
    + constructor; [done|]. by replace (seq_ s) with (seq_ s1) by (by subst s1).
    + rewrite I6. subst s1. unfold take_prefill_chunk. simpl. rewrite set_prefilled_twice.
      f_equal. unfold prefill_remaining in *. simpl in *. lia.
  - assert (Hz : prefill_remaining s1 = 0) by (unfold prefilling in Ef1; bool_hyps; lia).
    assert (Hn : prefill_chunks s1 bs = ([], s1)) by (destruct bs; simpl; [done|by rewrite Ef1]).
    rewrite Hn. exists [], i. split_and!; try done.
    + simpl. rewrite app_nil_r, <- C3. rewrite (drop_ge _ (N.to_nat (prefilled_ s1))), app_nil_r; [done|].
      unfold prefill_remaining in Hz. replace (prompt_ s1) with (prompt_ s) in Hz by (by subst s1).
      unfold len in *. lia.
    + by repeat constructor.
    + unfold take_prefill_chunk. simpl. rewrite Es1. f_equal. lia.
Qed.

Lemma chunked_prefill_witness :
  let s := make 3%Z (mkSpec [] [] 4 default_sampling) [10; 11; 12; 13; 14]%Z in
  ∃ last, (prefill_chunks s [2; 2; 2]).1 = [mkItem 3%Z [10; 11]%Z 0%Z false; mkItem 3%Z [12; 13]%Z 2%Z false] ++ [last]
    ∧ item_sample last = true.
Proof.
  intros s. pose proof (chunked_prefill s [2; 2; 2]) as H.
  specialize (H ltac:(vm_compute; discriminate) ltac:(vm_compute; reflexivity)
    ltac:(repeat constructor; lia) ltac:(vm_compute; split; [reflexivity|discriminate])).
  destruct (prefill_chunks s [2; 2; 2]) as [items s'] eqn:E.
  destruct H as (its & last & H1 & _ & _ & _ & H2 & _). vm_compute in E. simplify_eq.
  exists last. split; [|exact H2]. simpl.
  destruct its as [|i1 [|i2 [|i3 its]]]; simpl in *; simplify_eq; try done.
  destruct its; simpl in *; simplify_eq.
Defined.

(** Adopting a cached prefix always leaves at least one prompt token to
    prefill, counts no more cached tokens than the cache offered, and records them
    as a subset of the prompt. *)
Theorem adopt_leaves_work s n :
  prompt_ s ≠ [] → len (prompt_ s) < 4294967296 →
  let s' := adopt_cached_prefix s n in
  prefilling s' = true ∧ prefilled_ s' ≤ n ∧
  cached_prompt_tokens (usage_ s') = prefilled_ s' ∧
  cached_prompt_tokens (usage_ s') < len (prompt_ s) ∧
  completion_tokens (usage_ s') = completion_tokens (usage_ s).
Proof.
  intros Hne Hl s'. unfold s', adopt_cached_prefix, prefilling, prefill_remaining. simpl.
  destruct (prompt_ s) as [|x l] eqn:E; [done|]. rewrite len_cons in *.
  destruct (len l + 1 =? 0) eqn:E0; bool_hyps; [lia|].
  rewrite wrap32_small by lia. split_and!; try lia. apply N.ltb_lt. lia.
Qed.

Lemma adopt_leaves_work_witness :
  prefilling (adopt_cached_prefix (make 0%Z default_spec (replicate 16 5%Z)) 16) = true.
Proof.
  destruct (adopt_leaves_work (make 0%Z default_spec (replicate 16 5%Z)) 16) as [H _].
  - discriminate.
  - vm_compute. reflexivity.
  - exact H.
Defined.

End SequenceState.
