(* ===== verification/Mock.v ===== *)
(** The deterministic engine: class [MockModelEngine] of
    [include/microvllm/mock_engine.hpp] and [src/engine/mock_engine.cpp], an
    instance of [IModelEngine] that satisfies [EngineContract].  [token_latency]
    only makes [decode] sleep; it is kept in the configuration and has no effect on
    the state. *)
From Stdlib Require Import Lia Ascii.
From S2P Require Import Prelude Types Engine Sinks Sequence.
From stdpp Require Import base list gmap strings.

Local Open Scope N_scope.

Module MockModelEngine.

Record Config := mkConfig {
  response : bytes;
  echo_prompt : bool;
  token_latency : N;
  cfg_n_ctx : N;
  cfg_n_batch : N;
  cfg_n_seq_max : N }.

Record SeqState := mkSeq {
  gen_index : N;
  prefilled : list Token }.

Record t := mk {
  config_ : Config;
  response_tokens_ : list Token;
  sequences_ : gmap Z SeqState;
  tokens_copied_ : N;
  tokens_prefilled_ : N }.

Definition kEosToken : Token := 256%Z.
Definition kBosToken : Token := 257%Z.

(** [static_cast<Token>(static_cast<unsigned char>(c))]. *)
Definition byte_token (c : ascii) : Token := Z.of_N (N_of_ascii c).

Definition make (config : Config) : t :=
  mk config (byte_token <$> response config) ∅ 0 0.

Definition caps (e : t) : EngineCaps :=
  mkCaps (cfg_n_ctx (config_ e)) (cfg_n_batch (config_ e)) (cfg_n_seq_max (config_ e))
         kEosToken (cfg_n_ctx (config_ e)).

Definition tokenize (e : t) (text : bytes) (add_special : bool) : list Token * t :=
  ((if add_special then [kBosToken] else []) ++ (byte_token <$> text), e).

Definition piece (e : t) (token : Token) : bytes * t :=
  (if (token =? kEosToken)%Z || (token =? kBosToken)%Z then []
   else if (0 <=? token)%Z && (token <=? 255)%Z then [ascii_of_N (Z.to_N token)]
   else [], e).

Definition set_sequences (e : t) (m : gmap Z SeqState) : t :=
  mk (config_ e) (response_tokens_ e) m (tokens_copied_ e) (tokens_prefilled_ e).

Definition begin_sequence (e : t) (seq : SeqId) (params : SamplingParams) : res unit * t :=
  (Ok tt, set_sequences e (<[seq := mkSeq 0 []]> (sequences_ e))).

(** What a sequence replays: the configured response, or in echo mode its own
    prompt without the BOS token. *)
Definition reply (e : t) (st : SeqState) : list Token :=
  if echo_prompt (config_ e) then filter (λ tok, tok ≠ kBosToken) (prefilled st)
  else response_tokens_ e.

(** One iteration of [decode]'s loop: the step it pushes, if any. *)
Definition decode1 (e : t) (item : BatchItem) : res (list GenStep) * t :=
  match sequences_ e !! item_seq item with
  | None => (Throw (str "MockModelEngine::decode on a sequence without begin_sequence"), e)
  | Some st =>
      let first := gen_index st =? 0 in
      let pre := if first then add64 (tokens_prefilled_ e) (len (item_tokens item))
                 else tokens_prefilled_ e in
      let st1 := mkSeq (gen_index st)
                   (if echo_prompt (config_ e) && first
                    then prefilled st ++ item_tokens item else prefilled st) in
      let upd st' := mk (config_ e) (response_tokens_ e)
                        (<[item_seq item := st']> (sequences_ e)) (tokens_copied_ e) pre in
      if negb (item_sample item) then (Ok [], upd st1)
      else
        match reply e st1 !! N.to_nat (gen_index st1) with
        | Some tok => (Ok [mkStep (item_seq item) tok false],
                       upd (mkSeq (gen_index st1 + 1) (prefilled st1)))
        | None => (Ok [mkStep (item_seq item) kEosToken true], upd st1)
        end
  end.

(** The loop: an exception keeps the effects of the items before it. *)
Fixpoint decode_loop (items : list BatchItem) (e : t) (steps : list GenStep)
    : res (list GenStep) * t :=
  match items with
  | [] => (Ok steps, e)
  | item :: rest =>
      match decode1 e item with
      | (Throw w, e') => (Throw w, e')
      | (Ok more, e') => decode_loop rest e' (steps ++ more)
      end
  end.

Definition decode (e : t) (batch : list BatchItem) : res (list GenStep) * t :=
  decode_loop batch e [].

Definition release_sequence (e : t) (seq : SeqId) : t :=
  set_sequences e (delete seq (sequences_ e)).

Definition copy_sequence (e : t) (src dst : SeqId) (n_tokens : Pos) : res unit * t :=
  if (n_tokens <=? 0)%Z || (src =? dst)%Z then (Ok tt, e)
  else
    match sequences_ e !! src, sequences_ e !! dst with
    | Some s, Some d =>
        let taken := take (Z.to_nat n_tokens) (prefilled s) in
        (Ok tt,
         mk (config_ e) (response_tokens_ e)
            (<[dst := mkSeq (gen_index d) taken]> (sequences_ e))
            (add64 (tokens_copied_ e) (len taken)) (tokens_prefilled_ e))
    | _, _ => (Ok tt, e)
    end.

#[global] Instance engine : IModelEngine t := {
  Engine.caps := caps;
  Engine.tokenize := tokenize;
  Engine.piece := piece;
  Engine.begin_sequence := begin_sequence;
  Engine.decode := decode;
  Engine.release_sequence := release_sequence;
  Engine.copy_sequence := copy_sequence }.

(** ** Lemmas *)

Lemma decode1_frame e item :
  config_ (decode1 e item).2 = config_ e ∧ response_tokens_ (decode1 e item).2 = response_tokens_ e.
Proof. unfold decode1. split_ifs; done. Qed.

Lemma decode_loop_frame items e steps :
  config_ (decode_loop items e steps).2 = config_ e ∧
  response_tokens_ (decode_loop items e steps).2 = response_tokens_ e.
Proof.
  revert e steps. induction items as [|i items IH]; intros e steps; simpl; [done|].
  pose proof (decode1_frame e i) as F. destruct (decode1 e i) as [[more|w] e']; simpl in *; [|done].
  destruct (IH e' (steps ++ more)) as [-> ->]. done.
Qed.

Lemma decode1_order e item more e' :
  decode1 e item = (Ok more, e') → step_seq <$> more = item_seq <$> sampled [item].
Proof.
  unfold decode1, sampled. intros E. unfold filter. simpl.
  destruct (sequences_ e !! _) as [st|]; [|done].
  destruct (item_sample item) eqn:Es; simpl in E.
  - rewrite decide_True by done. split_ifs_in E; simplify_eq; done.
  - rewrite decide_False by done. by simplify_eq.
Qed.

Lemma decode_loop_order items e steps r e' :
  decode_loop items e steps = (Ok r, e') →
  step_seq <$> r = (step_seq <$> steps) ++ (item_seq <$> sampled items).
Proof.
  revert e steps. induction items as [|i items IH]; intros e steps; simpl.
  { intros [= -> _]. by rewrite app_nil_r. }
  destruct (decode1 e i) as [[more|w] e1] eqn:E1; [|done]. intros E.
  rewrite (IH _ _ E), fmap_app, (decode1_order e i more e1 E1), <- app_assoc.
  unfold sampled. rewrite (filter_app _ [i] items : filter _ (i :: items) = _). by rewrite fmap_app.
Qed.

(** The mock honours the engine interface. *)
#[global] Instance contract : EngineContract t.
Proof.
  split; try done.
  - intros e items. simpl. unfold caps, decode. by destruct (decode_loop_frame items e []) as [-> _].
  - intros e s d n. simpl. unfold copy_sequence. split_ifs; done.
  - intros e items steps e' _ E. by apply decode_loop_order in E.
Qed.

Lemma byte_piece e c : piece e (byte_token c) = ([c], e).
Proof.
  unfold piece, byte_token, kEosToken, kBosToken. pose proof (N_ascii_bounded c) as Hb.
  destruct (Z.eqb_spec (Z.of_N (N_of_ascii c)) 256); [lia|].
  destruct (Z.eqb_spec (Z.of_N (N_of_ascii c)) 257); [lia|]. simpl.
  destruct (Z.leb_spec 0 (Z.of_N (N_of_ascii c))); [|lia].
  destruct (Z.leb_spec (Z.of_N (N_of_ascii c)) 255); [|lia]. simpl.
  by rewrite N2Z.id, ascii_N_embedding.
Qed.

Lemma byte_token_not_bos c : byte_token c ≠ kBosToken.
Proof. unfold byte_token, kBosToken. pose proof (N_ascii_bounded c). lia. Qed.

(** The mock tokenizer is exactly reversible: rendering the tokens of a text
    one by one, with or without the leading BOS token, gives the text back. *)
Theorem mock_tokenize_roundtrip e text add_special :
  concat ((λ tok, (piece e tok).1) <$> (tokenize e text add_special).1) = text.
Proof.
  unfold tokenize. cbn [fst]. rewrite fmap_app, concat_app.
  assert (Ht : concat ((λ tok, (piece e tok).1) <$> (byte_token <$> text)) = text).
  { induction text as [|c text IH]; [done|]. rewrite !fmap_cons. cbn [concat].
    rewrite byte_piece, IH. done. }
  rewrite Ht. by destruct add_special.
Qed.

(** A copied prefix is the source's own: after [copy_sequence src dst n] between
    two registered sequences, the destination holds exactly the first [n] positions
    of the source, every other sequence is untouched, and the copied tokens are
    counted. *)
Theorem mock_copy_prefix e src dst n s d :
  (0 < n)%Z → src ≠ dst → sequences_ e !! src = Some s → sequences_ e !! dst = Some d →
  let e' := (copy_sequence e src dst n).2 in
  sequences_ e' !! dst = Some (mkSeq (gen_index d) (take (Z.to_nat n) (prefilled s))) ∧
  (∀ q, q ≠ dst → sequences_ e' !! q = sequences_ e !! q) ∧
  tokens_copied_ e' = add64 (tokens_copied_ e) (len (take (Z.to_nat n) (prefilled s))) ∧
  tokens_prefilled_ e' = tokens_prefilled_ e.
Proof.
  intros Hn Hne Hs Hd. unfold copy_sequence. rewrite Hs, Hd.
  destruct (Z.leb_spec n 0); [lia|]. destruct (Z.eqb_spec src dst); [done|]. simpl.
  split_and!; try done.
  - apply lookup_insert_eq.
  - intros q Hq. by apply lookup_insert_ne.
Qed.

Lemma mock_copy_prefix_witness :
  let e := set_sequences (make (mkConfig [] true 0 64 16 4))
             (<[0%Z := mkSeq 0 [257; 65; 66]%Z]> (<[1%Z := mkSeq 0 []]> ∅)) in
  sequences_ (copy_sequence e 0%Z 1%Z 2%Z).2 !! 1%Z = Some (mkSeq 0 [257; 65]%Z).
Proof.
  intros e. destruct (mock_copy_prefix e 0%Z 1%Z 2%Z (mkSeq 0 [257; 65; 66]%Z) (mkSeq 0 [])) as [H _].
  - lia.
  - lia.
  - vm_compute. reflexivity.
  - vm_compute. reflexivity.
  - exact H.
Defined.

(** ** The witnesses of the sequence theorems, on the mock and a collecting sink *)

Definition demo : t := make (mkConfig (str "ab#cd") false 0 64 16 4).

Definition demo_spec : RequestSpec := mkSpec (str "hi") [str "#c"] 8 default_sampling.

Definition demo_steps : list (Flags * GenStep) :=
  (λ tok, (∅, mkStep 0%Z tok false)) <$> (byte_token <$> str "ab#cd").

Lemma sink_protocol_witness :
  ∃ cs, delivered cs = str "ab" ∧
    (SequenceState.drive demo (SequenceState.make 0%Z demo_spec [257; 104; 105]%Z)
       (CollectingSink.make 0) demo_steps).2
      = calls (CollectingSink.make 0) (cs ++ [CFinish kStopString (mkUsage 3 4 0)]).
Proof.
  pose proof (SequenceState.sink_protocol demo (CollectingSink.make 0) 0%Z demo_spec [257; 104; 105]%Z
    demo_steps ltac:(vm_compute; reflexivity)) as H.
  destruct (SequenceState.drive _ _ _ _) as [[e s] k] eqn:Ed.
  vm_compute in Ed. simplify_eq. destruct (H eq_refl) as (cs & H1 & _ & H2 & _).
  exists cs. split; [exact H2|exact H1].
Defined.

Lemma streaming_matches_reference_witness :
  SequenceState.emitted_text
    (SequenceState.drive demo (SequenceState.make 0%Z demo_spec [257; 104; 105]%Z)
       (CollectingSink.make 0) demo_steps).1.2 = str "ab".
Proof.
  pose proof (SequenceState.streaming_matches_reference demo (CollectingSink.make 0) 0%Z demo_spec
    [257; 104; 105]%Z demo_steps (str "ab") kStopString 4 ltac:(vm_compute; reflexivity)) as H.
  destruct (SequenceState.drive _ _ _ _) as [[e s] k]. apply H.
  - intros m st k' Hin. apply list_elem_of_fmap in Hin as (tok & [= -> ->] & _). done.
  - vm_compute. reflexivity.
  - discriminate.
Defined.

End MockModelEngine.
