(* ===== verification/Generator.v ===== *)
(** Running one request to completion: [generate_one] of
    [include/microvllm/generator.hpp] and [src/core/generator.cpp].

    The loop is bounded by a fuel that [generate_terminates] shows to be enough;
    [flags i] is the cancellation memory at the [i]-th poll. *)
From Stdlib Require Import Lia Ascii.
From stdpp Require Import base list gmap strings.
From S2P Require Import Prelude Types Engine Sinks Sequence Mock.

Local Open Scope N_scope.

Section Generate.
Context {E K : Type} `{IModelEngine E} `{ITokenSink K}.

(** [std::vector::at(0)] on the steps of a decode. *)
Definition first_step (r : res (list GenStep)) : res GenStep :=
  match r with
  | Throw w => Throw w
  | Ok (st :: _) => Ok st
  | Ok [] => Throw (range_what 0 0)
  end.

Fixpoint generate_loop (fuel : nat) (flags : nat → Flags) (i : nat) (e : E)
    (s : SequenceState.t) (k : K) (step : GenStep) : option (res unit * (E * K)) :=
  match fuel with
  | O => None
  | S fuel' =>
      match SequenceState.accept e (flags i) s k step with
      | (false, (e', s', k')) =>
          let e'' := release_sequence e' (SequenceState.seq_ s') in
          let (_, k'') := SequenceState.finish s' k' in
          Some (Ok tt, (e'', k''))
      | (true, (e', s', k')) =>
          let (r, e'') := decode e' [SequenceState.decode_item s'] in
          match first_step r with
          | Throw w => Some (Throw w, (e'', k'))
          | Ok next => generate_loop fuel' flags (S i) e'' s' k' next
          end
      end
  end.

Definition generate_one (fuel : nat) (flags : nat → Flags) (e : E) (seq : SeqId)
    (spec : RequestSpec) (k : K) : option (res unit * (E * K)) :=
  let (tokens, e1) := tokenize e (prompt spec) true in
  let s := SequenceState.make seq spec tokens in
  match begin_sequence e1 seq (sampling spec) with
  | (Throw w, e2) => Some (Throw w, (e2, k))
  | (Ok _, e2) =>
      let (item, s1) := SequenceState.prefill_item s in
      let (r, e3) := decode e2 [item] in
      match first_step r with
      | Throw w => Some (Throw w, (e3, k))
      | Ok step => generate_loop fuel flags 0 e3 s1 k step
      end
  end.

Lemma generate_loop_terminates fuel flags i e s k step :
  SequenceState.inv s → SequenceState.finished_ s = false →
  max_tokens (SequenceState.spec_ s) - completion_tokens (SequenceState.usage_ s) < N.of_nat fuel →
  generate_loop fuel flags i e s k step ≠ None.
Proof.
  revert i e s k step. induction fuel as [|fuel IH]; intros i e s k step I Hf Hm; [lia|].
  cbn [generate_loop]. pose proof (SequenceState.accept_spec e (flags i) s k step I Hf) as A.
  destruct (SequenceState.accept e (flags i) s k step) as [b [[e1 s1] k1]].
  pose proof (SequenceState.accepted_inv _ _ _ _ _ _ _ _ _ I Hf A) as [I1 Hf1].
  destruct b; [|by destruct (SequenceState.finish s1 k1)].
  destruct (decode e1 _) as [r e2]. destruct (first_step r) as [next|w]; [|done].
  apply IH; [done|done|]. inversion A; subst. simpl. lia.
Qed.

(** C32: [generate_one] terminates on every engine and every sink: with fuel for
    one step more than the request's [max_tokens] the loop has ended, whatever
    tokens the engine produces and whether or not it throws. *)
Theorem generate_terminates fuel flags (e : E) seq spec (k : K) :
  max_tokens spec < 4294967296 → (N.to_nat (max_tokens spec) < fuel)%nat →
  generate_one fuel flags e seq spec k ≠ None.
Proof.
  intros Hm Hf. unfold generate_one. destruct (tokenize e (prompt spec) true) as [tokens e1].
  destruct (begin_sequence e1 seq (sampling spec)) as [[u|w] e2]; [|done].
  unfold SequenceState.prefill_item, SequenceState.take_prefill_chunk.
  destruct (decode e2 _) as [r e3]. destruct (first_step r) as [step|w]; [|done].
  set (s1 := SequenceState.set_prefilled _ _).
  assert (I1 : SequenceState.inv s1).
  { pose proof (SequenceState.inv_make seq spec tokens Hm) as [I1 I2 I3 I4 I5 I6 I7].
    split; try done. simpl. unfold SequenceState.prefill_remaining. simpl. lia. }
  apply generate_loop_terminates; [done|done|]. simpl. lia.
Qed.

End Generate.

(** ** Generation on the mock engine *)

Section MockGeneration.
Import MockModelEngine.

Lemma generate_terminates_witness :
  generate_one 9 (λ _, ∅) demo 0%Z demo_spec (CollectingSink.make 0) ≠ None.
Proof.
  apply (generate_terminates 9 (λ _, ∅) demo 0%Z demo_spec (CollectingSink.make 0));
    [vm_compute; reflexivity|apply Nat.leb_le; vm_compute; reflexivity].
Defined.

(** The steps the mock produces for a reply, with the flags of each poll. *)
Fixpoint replay (flags : nat → Flags) (i : nat) (seq : SeqId) (r : bytes) : list (Flags * GenStep) :=
  match r with
  | [] => [(flags i, mkStep seq kEosToken true)]
  | c :: r' => (flags i, mkStep seq (byte_token c) false) :: replay flags (S i) seq r'
  end.

Definition next_step (seq : SeqId) (r : bytes) : GenStep :=
  match r with
  | [] => mkStep seq kEosToken true
  | c :: _ => mkStep seq (byte_token c) false
  end.

(** What a mock request is answered with. *)
Definition mock_reply (c : Config) (p : bytes) : bytes := if echo_prompt c then p else response c.

(** The mock has emitted [n] tokens of the reply [r] for [seq]. *)
Definition at_index (e : t) (seq : SeqId) (n : nat) (r : bytes) : Prop :=
  ∃ pre, sequences_ e !! seq = Some (mkSeq (N.of_nat n) pre) ∧
    reply e (mkSeq (N.of_nat n) pre) = byte_token <$> r.

Lemma mock_decode_next e seq n r tokens pos :
  at_index e seq (S n) r →
  ∃ e', decode e [mkItem seq tokens pos true] = (Ok [next_step seq (drop (S n) r)], e') ∧
    at_index e' seq (if drop (S n) r is [] then S n else S (S n)) r ∧
    (∀ q, q ≠ seq → sequences_ e' !! q = sequences_ e !! q).
Proof.
  intros (pre & Hs & Hr). unfold decode. cbn [decode_loop]. unfold decode1. cbn [item_seq item_sample].
  rewrite Hs. cbn [gen_index prefilled]. rewrite (proj2 (N.eqb_neq (N.of_nat (S n)) 0)) by lia.
  rewrite andb_false_r. cbn [negb]. rewrite Hr, Nat2N.id, list_lookup_fmap.
  rewrite <- (Nat.add_0_r (S n)), <- lookup_drop, Nat.add_0_r. destruct (drop (S n) r) as [|c r'] eqn:Ed.
  - eexists. split; [done|]. split.
    + exists pre. cbn [sequences_]. rewrite lookup_insert_eq. split; [done|]. exact Hr.
    + intros q Hq. cbn [sequences_]. by apply lookup_insert_ne.
  - eexists. split; [done|]. split.
    + exists pre. cbn [sequences_]. rewrite lookup_insert_eq. split; [do 2 f_equal; lia|]. exact Hr.
    + intros q Hq. cbn [sequences_]. by apply lookup_insert_ne.
Qed.

Context {K : Type} `{ITokenSink K}.

(** [accept] on the mock does not touch the engine. *)
Lemma accept_mock (e e0 : t) m s (k : K) st :
  SequenceState.accept e m s k st =
    (let '(b, (_, s', k')) := SequenceState.accept e0 m s k st in (b, (e, s', k'))).
Proof. unfold SequenceState.accept. simpl. unfold piece. split_ifs; done. Qed.

Lemma accept_seq (e : t) m s (k : K) st :
  SequenceState.seq_ (SequenceState.accept e m s k st).2.1.2 = SequenceState.seq_ s.
Proof.
  unfold SequenceState.accept, SequenceState.flush_upto.
  repeat (case_match; simplify_eq; simpl; try done).
Qed.

Lemma loop_replay fuel flags i e e0 s (k : K) n r :
  at_index e (SequenceState.seq_ s) (if drop n r is [] then n else S n) r →
  (length (drop n r) < fuel)%nat →
  ∃ e', generate_loop fuel flags i e s k (next_step (SequenceState.seq_ s) (drop n r))
    = Some (Ok tt, (e', (SequenceState.drive e0 s k (replay flags i (SequenceState.seq_ s) (drop n r))).2)) ∧
    sequences_ e' !! SequenceState.seq_ s = None ∧
    (∀ q, q ≠ SequenceState.seq_ s → sequences_ e' !! q = sequences_ e !! q).
Proof.
  revert i e s k n. induction fuel as [|fuel IH]; intros i e s k n Ha Hf; [lia|]. cbn [generate_loop].
  rewrite (accept_mock e e0). pose proof (accept_seq e0 (flags i) s k (next_step (SequenceState.seq_ s) (drop n r))) as Hseq.
  assert (Hdr : SequenceState.drive e0 s k (replay flags i (SequenceState.seq_ s) (drop n r)) =
    (let '(b, (e1, s1, k1)) := SequenceState.accept e0 (flags i) s k (next_step (SequenceState.seq_ s) (drop n r)) in
     if b then SequenceState.drive e1 s1 k1 (if drop n r is _ :: r' then replay flags (S i) (SequenceState.seq_ s) r' else [])
     else let (s2, k2) := SequenceState.finish s1 k1 in (e1, s2, k2)))
    by (destruct (drop n r); simpl; destruct (SequenceState.accept _ _ _ _ _) as [[] [[? ?] ?]]; done).
  rewrite Hdr. clear Hdr.
  destruct (SequenceState.accept e0 (flags i) s k _) as [b [[e1 s1] k1]] eqn:Eacc. cbn [fst snd] in Hseq.
  destruct b.
  - destruct (drop n r) as [|c r'] eqn:Ed.
    { unfold SequenceState.accept in Eacc. simpl in Eacc. by destruct (SequenceState.finished_ s). }
    assert (Hr' : r' = drop (S n) r).
    { change (S n) with (1 + n)%nat. rewrite Nat.add_comm, <- drop_drop, Ed. done. }
    destruct (mock_decode_next e (SequenceState.seq_ s) n r [SequenceState.pending_ s1] (SequenceState.feed_pos s1))
      as (e2 & Hdec & Ha2 & Hfr); [done|].
    unfold SequenceState.decode_item. rewrite Hseq. cbn [Engine.decode engine]. rewrite Hdec. cbn [first_step].
    assert (He1 : e1 = e0).
    { pose proof (accept_mock e0 e0 (flags i) s k (next_step (SequenceState.seq_ s) (c :: r'))) as Ha0.
      rewrite Eacc in Ha0. congruence. }
    rewrite <- Hseq in Ha2 |- *. rewrite He1, Hr'.
    destruct (IH (S i) e2 s1 k1 (S n)) as (e3 & I1 & I2 & I3); [done|rewrite <- Hr'; simpl in Hf; lia|].
    exists e3. split_and!; [exact I1|done|]. intros q Hq. rewrite I3 by done. apply Hfr. congruence.
  - destruct (SequenceState.finish s1 k1) as [s2 k2]. rewrite Hseq.
    eexists. split; [done|]. simpl. split; [apply lookup_delete_eq|].
    intros q Hq. by apply lookup_delete_ne.
Qed.

Lemma pieces_replay (e : t) flags i seq r :
  SequenceState.pieces e (replay flags i seq r) = ((λ c, Some [c]) <$> r) ++ [None].
Proof.
  revert i. induction r as [|c r IH]; intros i; [done|]. cbn [replay SequenceState.pieces].
  cbn [step_is_eog step_token Engine.piece engine]. rewrite byte_piece, IH. done.
Qed.

Lemma replay_flags flags i seq r m st :
  (m, st) ∈ replay flags i seq r → ∃ j, m = flags j.
Proof.
  revert i. induction r as [|c r IH]; intros i; simpl; rewrite elem_of_cons.
  - intros [[= -> _]|Hin]; [by exists i|set_solver].
  - intros [[= -> _]|Hin]; [by exists i|eauto].
Qed.

(** After the prefill of a fresh sequence the mock is about to reply. *)
Lemma mock_prefill e seq p params tokens :
  response_tokens_ e = byte_token <$> response (config_ e) →
  tokens = kBosToken :: (byte_token <$> p) →
  let r := mock_reply (config_ e) p in
  ∃ e', decode (begin_sequence e seq params).2 [mkItem seq tokens 0%Z true]
          = (Ok [next_step seq r], e') ∧
    at_index e' seq (if r is [] then O else 1%nat) r ∧
    (∀ q, q ≠ seq → sequences_ e' !! q = sequences_ e !! q).
Proof.
  intros Hrt -> r. unfold begin_sequence. cbn [snd]. unfold decode. cbn [decode_loop]. unfold decode1.
  cbn [item_seq item_sample item_tokens set_sequences sequences_ config_]. rewrite lookup_insert_eq. cbn [gen_index prefilled N.eqb negb].
  rewrite andb_true_r.
  set (pre := if echo_prompt (config_ e) then [] ++ kBosToken :: (byte_token <$> p) else []).
  assert (Hr : ∀ e1 n, config_ e1 = config_ e → response_tokens_ e1 = response_tokens_ e →
    reply e1 (mkSeq n pre) = byte_token <$> r).
  { intros e1 n H1 H2. unfold reply, r, mock_reply, pre. rewrite H1, H2.
    destruct (echo_prompt (config_ e)); [|done]. cbn [prefilled app].
    rewrite filter_cons_False by naive_solver. clear. induction p as [|c p IH]; [done|].
    rewrite fmap_cons, filter_cons_True by apply byte_token_not_bos. by rewrite IH. }
  rewrite Hr by done. change (N.to_nat 0) with O. rewrite list_lookup_fmap.
  destruct r as [|c r'] eqn:Er; cbn [lookup list_lookup fmap option_fmap option_map].
  - eexists. split; [done|]. split.
    + exists pre. cbn [sequences_]. rewrite lookup_insert_eq. split; [done|]. by apply Hr.
    + intros q Hq. cbn [sequences_]. by rewrite !lookup_insert_ne by done.
  - eexists. split; [done|]. split.
    + exists pre. cbn [sequences_]. rewrite lookup_insert_eq. split; [done|]. by apply Hr.
    + intros q Hq. cbn [sequences_]. by rewrite !lookup_insert_ne by done.
Qed.

End MockGeneration.

(** The prefill item of a fresh sequence is its whole prompt at position 0. *)
Lemma prefill_fresh seq spec tokens :
  SequenceState.prefill_item (SequenceState.make seq spec tokens)
    = (mkItem seq tokens 0%Z true,
       SequenceState.set_prefilled (SequenceState.make seq spec tokens) (len tokens)).
Proof.
  unfold SequenceState.prefill_item, SequenceState.take_prefill_chunk, SequenceState.prefill_remaining.
  cbn [SequenceState.prompt_ SequenceState.prefilled_ SequenceState.make SequenceState.set_prefilled SequenceState.seq_].
  rewrite N.sub_0_r, N.min_id, N.add_0_l, N.sub_diag. change (N.to_nat 0) with O. rewrite drop_0.
  rewrite take_ge by (unfold len; lia). done.
Qed.

(** A reference run over a reply that ends does end, and not with an error. *)
Lemma reference_ends stops max (r : bytes) n text t' reason n' :
  SequenceState.reference stops max (((λ c, Some [c]) <$> r) ++ [None]) n text = (t', reason, n') →
  reason = kEos ∨ reason = kMaxTokens ∨ reason = kStopString.
Proof.
  revert n text. induction r as [|c r IH]; intros n text; simpl.
  - intros [= _ <- _]. by left.
  - destruct (max <=? n); [intros [= _ <- _]; auto|].
    destruct (SequenceState.earliest_stop _ _); [intros [= _ <- _]; auto|]. apply IH.
Qed.

(** What a collecting sink holds after a completed run that did not fail. *)
Lemma collected s k s' k' cs :
  SequenceState.completed s k s' k' cs →
  SequenceState.reason_ s' ≠ kError ∧ SequenceState.reason_ s' ≠ kContextOverflow →
  CollectingSink.text_ k' = CollectingSink.text_ k ++ delivered cs ∧
  CollectingSink.reason_ k' = SequenceState.reason_ s' ∧
  CollectingSink.usage_ k' = SequenceState.usage_ s' ∧ CollectingSink.done_ k' = true.
Proof.
  intros (-> & _) [H1 H2]. unfold SequenceState.terminal_call. rewrite decide_False by naive_solver.
  rewrite calls_app. simpl. rewrite CollectingSink.calls_text. done.
Qed.

(** On the mock engine [generate_one] computes the reference response.  For a
    fresh slot, an uncancelled request and enough fuel it succeeds; the collecting
    sink ends with the reply (the configured response, or the prompt itself in echo
    mode) cut at the first stop string or at [max_tokens] characters, with the
    matching reason and token count; the slot is released and no other sequence of
    the engine is touched. *)
Theorem mock_generate fuel flags cfg seq spec text reason n :
  max_tokens spec < 4294967296 →
  (length (MockModelEngine.response cfg) + length (prompt spec) < fuel)%nat →
  (∀ i f, load (flags i) f = false) →
  SequenceState.reference (stop spec) (max_tokens spec)
    (((λ c, Some [c]) <$> mock_reply cfg (prompt spec)) ++ [None]) 0 [] = (text, reason, n) →
  ∃ e' k', generate_one fuel flags (MockModelEngine.make cfg) seq spec (CollectingSink.make 0)
      = Some (Ok tt, (e', k')) ∧
    CollectingSink.text_ k' = text ∧ CollectingSink.reason_ k' = reason ∧
    completion_tokens (CollectingSink.usage_ k') = n ∧ CollectingSink.done_ k' = true ∧
    MockModelEngine.sequences_ e' = ∅.
Proof.
  intros Hm Hf Hfl Href. unfold generate_one. cbn [Engine.tokenize MockModelEngine.engine].
  set (e := MockModelEngine.make cfg). set (tokens := MockModelEngine.kBosToken :: (MockModelEngine.byte_token <$> prompt spec)).
  change (MockModelEngine.tokenize e (prompt spec) true) with (tokens, e). cbv iota beta.
  rewrite prefill_fresh. set (s1 := SequenceState.set_prefilled _ _).
  destruct (mock_prefill e seq (prompt spec) (sampling spec) tokens eq_refl eq_refl) as (e3 & Hdec & Ha & Hfr).
  set (r := mock_reply cfg (prompt spec)) in *. change (mock_reply (MockModelEngine.config_ e) (prompt spec)) with r in *.
  cbn [Engine.begin_sequence MockModelEngine.engine]. unfold MockModelEngine.begin_sequence at 1.
  cbn [Engine.decode MockModelEngine.engine].
  cbn [snd MockModelEngine.begin_sequence] in Hdec. rewrite Hdec. cbn [first_step].
  assert (I1 : SequenceState.inv s1).
  { pose proof (SequenceState.inv_make seq spec tokens Hm) as [I1 I2 I3 I4 I5 I6 I7].
    by split. }
  destruct (loop_replay fuel flags 0 e3 e s1 (CollectingSink.make 0) 0 r) as (e' & Hloop & Hs & Hother).
  { exact Ha. }
  { rewrite drop_0. unfold r, mock_reply. destruct (MockModelEngine.echo_prompt cfg); lia. }
  rewrite drop_0 in Hloop. change (SequenceState.seq_ s1) with seq in *. rewrite Hloop.
  eexists e', _. split; [reflexivity|].
  assert (Hcan : ∀ m st (k' : CollectingSink.t), (m, st) ∈ replay flags 0 seq r → cancelled k' m = false).
  { intros m st k' Hin. apply replay_flags in Hin as [j ->]. apply Hfl. }
  pose proof (SequenceState.drive_reference e s1 (CollectingSink.make 0) _ I1 eq_refl Hcan) as D.
  rewrite pieces_replay in D. change (SequenceState.text_ s1) with (@nil ascii) in D.
  change (completion_tokens (SequenceState.usage_ s1)) with 0 in D.
  change (SequenceState.spec_ s1) with spec in D. rewrite Href in D.
  pose proof (reference_ends _ _ _ _ _ _ _ _ Href) as Hend.
  pose proof (SequenceState.drive_completed e s1 (CollectingSink.make 0) (replay flags 0 seq r) I1 eq_refl) as C.
  destruct (SequenceState.drive e s1 _ _) as [[ed s'] k']. cbn [snd].
  destruct D as (D1 & D2 & D3 & D4); [by destruct Hend as [-> | [-> | ->]]|]. destruct (C D1) as [cs Hc].
  destruct (collected _ _ _ _ _ Hc) as (C1 & C2 & C3 & C4);
    [rewrite D3; by destruct Hend as [-> | [-> | ->]]|].
  rewrite C1, C2, C3, C4, D3, D4. destruct Hc as (_ & _ & Hd & _). rewrite D2 in Hd.
  split_and!; try done.
  apply map_eq. intros q. rewrite lookup_empty. destruct (decide (q = seq)) as [->|Hq]; [done|].
  rewrite Hother, Hfr by done. done.
Qed.

Lemma mock_generate_witness :
  ∃ e' k', generate_one 20 (λ _, ∅) MockModelEngine.demo 0%Z MockModelEngine.demo_spec (CollectingSink.make 0)
      = Some (Ok tt, (e', k')) ∧ CollectingSink.text_ k' = str "ab".
Proof.
  destruct (mock_generate 20 (λ _, ∅) (MockModelEngine.config_ MockModelEngine.demo) 0%Z
    MockModelEngine.demo_spec (str "ab") kStopString 4) as (e' & k' & H1 & H2 & _).
  - vm_compute. reflexivity.
  - apply Nat.ltb_lt. vm_compute. reflexivity.
  - reflexivity.
  - vm_compute. reflexivity.
  - exists e', k'. split; [exact H1|exact H2].
Defined.
