(* ===== verification/Queue.v ===== *)
(** Requests, their results and the queue between the HTTP threads and the
    scheduler: [include/microvllm/request.hpp], [include/microvllm/request_queue.hpp]
    and [src/core/request_queue.cpp].

    Every operation of the queue holds its mutex, so a concurrent execution is a
    sequence of operations ([qstep]).  Shared objects are addresses: the
    cancellation flag, the promise and the caller's sink of a request. *)
From Stdlib Require Import Permutation Lia.
From S2P Require Import Prelude Types Timing Engine.
From stdpp Require Import base list gmap.

Local Open Scope N_scope.

(** ** Requests and results *)

Definition PromiseId := N.
Definition SinkId := N.

Record GenResult := mkResult {
  res_text : bytes;
  res_reason : FinishReason;
  res_usage : Usage;
  res_error : bytes;
  res_timing : RequestTiming.t }.

Record Request := mkRequest {
  req_id : RequestId;
  req_spec : RequestSpec;
  req_cancel : FlagId;
  req_result : PromiseId;
  req_sink : option SinkId;
  req_timing : RequestTiming.t }.

Definition set_timing (r : Request) (tm : RequestTiming.t) : Request :=
  mkRequest (req_id r) (req_spec r) (req_cancel r) (req_result r) (req_sink r) tm.

(** ** The queue *)

Module RequestQueue.

Record t := mk {
  queue_ : list Request;
  capacity_ : N;
  closed_ : bool }.

Definition make (capacity : N) : t := mk [] capacity false.

Definition size (q : t) : N := len (queue_ q).
Definition closed (q : t) : bool := closed_ q.
Definition capacity (q : t) : N := capacity_ q.

Definition try_push (q : t) (req : Request) : bool * t :=
  if closed_ q || (capacity_ q <=? size q) then (false, q)
  else (true, mk (push_back (queue_ q) req) (capacity_ q) (closed_ q)).

Definition try_pop (q : t) : option Request * t :=
  match queue_ q with
  | [] => (None, q)
  | r :: rest => (Some r, mk rest (capacity_ q) (closed_ q))
  end.

(** [pop] waits on the condition variable while the queue is empty and open: the
    result is [None] then, and [Some] of what it returns otherwise. *)
Definition pop (q : t) : option (option Request * t) :=
  match queue_ q with
  | [] => if closed_ q then Some (None, q) else None
  | r :: rest => Some (Some r, mk rest (capacity_ q) (closed_ q))
  end.

Definition push_front (q : t) (req : Request) : bool * t :=
  if closed_ q then (false, q)
  else (true, mk (req :: queue_ q) (capacity_ q) (closed_ q)).

Definition close (q : t) : t := mk (queue_ q) (capacity_ q) true.

(** ** Interleaved use

    A state is the queue with the requests accepted so far and the requests handed
    out so far, both in order. *)

Record trace := mkTrace {
  tq : t;
  accepted : list Request;
  popped : list Request }.

Inductive qstep : trace → trace → Prop :=
  | q_push q acc out req ok q' :
      try_push q req = (ok, q') →
      qstep (mkTrace q acc out) (mkTrace q' (if ok then acc ++ [req] else acc) out)
  | q_try_pop q acc out o q' :
      try_pop q = (o, q') →
      qstep (mkTrace q acc out) (mkTrace q' acc (out ++ option_list o))
  | q_pop q acc out o q' :
      pop q = Some (o, q') →
      qstep (mkTrace q acc out) (mkTrace q' acc (out ++ option_list o))
  | q_close q acc out :
      qstep (mkTrace q acc out) (mkTrace (close q) acc out).

Definition fifo (cap : N) (s : trace) : Prop :=
  accepted s = popped s ++ queue_ (tq s) ∧ size (tq s) ≤ cap ∧ capacity_ (tq s) = cap.

Lemma qstep_fifo cap s s' : qstep s s' → fifo cap s → fifo cap s'.
Proof.
  intros St (H1 & H2 & H3). unfold fifo, size in *.
  destruct St as [q acc out req ok q' P|q acc out o q' P|q acc out o q' P|q acc out]; simpl in *;
    [unfold try_push, size in P|unfold try_pop in P|unfold pop in P|by split_and!].
  - destruct (_ || _) eqn:Eo; simplify_eq; [done|]. bool_hyps. simpl. unfold push_back.
    rewrite len_app, len_cons, len_nil, <- app_assoc. split_and!; [done|lia|done].
  - destruct (queue_ q) as [|r rest] eqn:Eq; simplify_eq; simpl.
    + rewrite Eq, ?app_nil_r. done.
    + rewrite <- app_assoc. rewrite len_cons in H2. split_and!; [done|lia|done].
  - destruct (queue_ q) as [|r rest] eqn:Eq.
    + destruct (closed_ q); simplify_eq. simpl. rewrite Eq, ?app_nil_r. done.
    + simplify_eq. simpl. rewrite <- app_assoc. rewrite len_cons in H2. split_and!; [done|lia|done].
Qed.

Lemma qstep_closed s s' :
  qstep s s' → closed_ (tq s) = true → closed_ (tq s') = true ∧ accepted s' = accepted s.
Proof.
  intros St Hc. destruct St as [q acc out req ok q' P|q acc out o q' P|q acc out o q' P|q acc out];
    simpl in *; [unfold try_push in P; rewrite Hc in P|unfold try_pop in P|unfold pop in P|done].
  - simpl in P. by injection P as <- <-.
  - destruct (queue_ q); by injection P as <- <-.
  - rewrite Hc in P. destruct (queue_ q); by injection P as <- <-.
Qed.

(** The queue between the HTTP threads and the scheduler is a bounded FIFO that
    loses nothing.  After any interleaving of pushes, pops and closes on a fresh
    queue, the requests accepted are exactly the requests handed out followed by the
    requests still waiting, in the same order; no more than [capacity] wait; and from
    the moment it is closed nothing more is accepted while [pop] never blocks again:
    it keeps handing out what is waiting and says so when nothing is left. *)
Theorem queue_fifo cap s s' :
  rtc qstep (mkTrace (make cap) [] []) s → rtc qstep s s' →
  accepted s = popped s ++ queue_ (tq s) ∧ size (tq s) ≤ cap ∧
  (closed_ (tq s) = true →
     accepted s' = accepted s ∧ closed_ (tq s') = true ∧
     ∃ o q', pop (tq s') = Some (o, q') ∧ (o = None ↔ queue_ (tq s') = [])).
Proof.
  intros R1 R2. assert (F : fifo cap s).
  { assert (F0 : fifo cap (mkTrace (make cap) [] [])) by (split_and!; [done|apply N.le_0_l|done]).
    revert F0. induction R1; [done|]. eauto using qstep_fifo. }
  destruct F as (F1 & F2 & _). split_and!; try done. intros Hc.
  assert (G : accepted s' = accepted s ∧ closed_ (tq s') = true).
  { clear R1 F1 F2. induction R2 as [|a b c Hab _ IH]; [done|].
    destruct (qstep_closed _ _ Hab Hc) as [H1 H2]. destruct (IH H1). split; congruence. }
  destruct G as [G1 G2]. split_and!; try done. unfold pop. rewrite G2.
  destruct (queue_ (tq s')); eexists _, _; by split.
Qed.

Definition demo_request : Request :=
  mkRequest 1 default_spec 0 7 None (RequestTiming.mk 0%Z None None None).

Lemma queue_fifo_witness :
  let s := mkTrace (mk [demo_request] 1 true) [demo_request] [] in
  accepted s = popped s ++ queue_ (tq s) ∧ ∃ o q', pop (tq s) = Some (o, q') ∧ o ≠ None.
Proof.
  intros s. destruct (queue_fifo 1 s s) as (H1 & _ & H3).
  - eapply rtc_l; [by eapply (q_push _ _ _ demo_request)|].
    eapply rtc_l; [by eapply (q_push _ _ _ demo_request)|].
    eapply rtc_l; [by eapply q_close|]. apply rtc_refl.
  - apply rtc_refl.
  - split; [exact H1|]. destruct (H3 eq_refl) as (_ & _ & o & q' & P & Hn).
    exists o, q'. split; [exact P|]. intros Ho. by apply Hn in Ho.
Defined.

End RequestQueue.
