(* ===== verification/Scheduler.v ===== *)
(** The state and the building blocks of the scheduler: class [Scheduler] of
    [include/microvllm/scheduler.hpp] and [src/core/scheduler.cpp], less its two
    loops, which are in [Continuous.v] and [Static.v].

    [t] is the object together with what it references: the engine, the request
    queue, and the [World] it shares with the HTTP threads (cancellation flags,
    sinks, promises, the clock).  The world carries a script of what the HTTP
    threads do; one entry of it happens at each point where the scheduler thread
    looks at shared state ([sync]), so a script is an interleaving.

    [Job] objects are compared by address in the code; [job_ptr] is that address. *)
From Stdlib Require Import Permutation Lia.
From stdpp Require Import base list gmap strings.
From S2P Require Import Prelude Types Blocks Tables Prefix Timing Engine Sinks Sequence Queue.

Local Open Scope N_scope.

(** The two kinds of sink a request can have, behind the [ITokenSink] pointer. *)
Inductive Sink : Type :=
  | Collecting (s : CollectingSink.t)
  | Streaming (s : StreamingSink.t).

#[export] Instance Sink_sink : ITokenSink Sink := {
  on_text k d := match k with
    | Collecting s => Collecting (CollectingSink.on_text s d)
    | Streaming s => Streaming (StreamingSink.on_text s d) end;
  on_finish k r u := match k with
    | Collecting s => Collecting (CollectingSink.on_finish s r u)
    | Streaming s => Streaming (StreamingSink.on_finish s r u) end;
  on_error k m := match k with
    | Collecting s => Collecting (CollectingSink.on_error s m)
    | Streaming s => Streaming (StreamingSink.on_error s m) end;
  cancelled k m := match k with
    | Collecting s => CollectingSink.cancelled s m
    | Streaming s => StreamingSink.cancelled s m end }.

Module Scheduler.

(** ** Configuration and counters *)

Inductive BatchingMode : Type := kStatic | kContinuous.

Record SchedulerConfig := mkConfig {
  max_batch_size : N;
  mode : BatchingMode;
  kv_blocks : N;
  block_size : N;
  prefix_donors : N;
  prefix_caching : bool;
  prefill_chunk : N }.

Definition default_config : SchedulerConfig := mkConfig 8 kContinuous 0 16 4 true 128.

(** The fields of [AtomicStats]; the atomics themselves are a map from fields to
    values. *)
Inductive Counter : Type :=
  | admitted | completed | preemptions | deferred | prefix_hits | prefix_tokens_saved
  | donors_retained | donor_evictions | donors_held | prompt_tokens | completion_tokens
  | kv_blocks_total | kv_blocks_used.

#[export] Instance Counter_eq_dec : EqDecision Counter.
Proof. solve_decision. Defined.

Definition AtomicStats := Counter → N.

Definition fetch_add (st : AtomicStats) (c : Counter) (n : N) : AtomicStats :=
  λ c', if decide (c' = c) then add64 (st c) n else st c'.
Definition store_stat (st : AtomicStats) (c : Counter) (n : N) : AtomicStats :=
  λ c', if decide (c' = c) then n else st c'.

(** ** The world around the scheduler thread *)

Inductive EnvAction : Type :=
  | ASubmit (r : Request)
  | AClose
  | ACancel (f : FlagId).

Record World := mkWorld {
  script_ : list (list EnvAction);
  flags_ : Flags;
  sinks_ : gmap N Sink;
  next_sink_ : SinkId;
  next_job_ : N;
  ticks_ : nat;
  answers_ : list (Request * bool);
  results_ : list (PromiseId * GenResult) }.

(** One in-flight request.  Both callers of [make_job] install the block table
    before anything reads it, so it is not optional here. *)
Record Job := mkJob {
  job_ptr : N;
  job_request : Request;
  job_sink : SinkId;
  job_state : SequenceState.t;
  job_blocks : BlockTable.t }.

Definition set_state (j : Job) (s : SequenceState.t) : Job :=
  mkJob (job_ptr j) (job_request j) (job_sink j) s (job_blocks j).
Definition set_table (j : Job) (tb : BlockTable.t) : Job :=
  mkJob (job_ptr j) (job_request j) (job_sink j) (job_state j) tb.
Definition set_job_timing (j : Job) (tm : RequestTiming.t) : Job :=
  mkJob (job_ptr j) (set_timing (job_request j) tm) (job_sink j) (job_state j) (job_blocks j).

Definition job_seq (j : Job) : SeqId := SequenceState.seq_ (job_state j).
Definition job_usage (j : Job) : Usage := SequenceState.usage_ (job_state j).
Definition job_finished (j : Job) : bool := SequenceState.finished_ (job_state j).
Definition job_prefilling (j : Job) : bool := SequenceState.prefilling (job_state j).
Definition job_promise (j : Job) : PromiseId := req_result (job_request j).

(** [job->state->usage().prompt_tokens + job->state->usage().completion_tokens]. *)
Definition job_tokens (j : Job) : N :=
  add32 (Types.prompt_tokens (job_usage j)) (Types.completion_tokens (job_usage j)).

(** How a [run] ends: it returns, it waits for ever on the queue, an exception
    leaves it, or the fuel of the model is spent. *)
Inductive Outcome : Type :=
  | Returned
  | Blocked
  | Threw (what : bytes)
  | OutOfFuel.

(** The batch under construction: its items and the jobs that sample. *)
Record Batch := mkBatch {
  items : list BatchItem;
  sampling : list N }.

(** Through a [Job*]. *)
Fixpoint find_job (p : N) (act : list Job) : option Job :=
  match act with
  | [] => None
  | j :: rest => if job_ptr j =? p then Some j else find_job p rest
  end.

Definition put_job (j : Job) (act : list Job) : list Job :=
  (λ x, if job_ptr x =? job_ptr j then j else x) <$> act.

Section Engine.
Context {E : Type} `{IModelEngine E}.

(** [Clock::now()] at its [i]-th call. *)
Variable clock : nat → TimePoint.

Record t := mk {
  engine_ : E;
  queue_ : RequestQueue.t;
  config_ : SchedulerConfig;
  blocks_ : BlockAllocator.t;
  prefix_cache_ : PrefixCache.t;
  stats_ : AtomicStats;
  ttft_hist_ : LatencyHistogram.t;
  e2e_hist_ : LatencyHistogram.t;
  world_ : World }.

Definition set_engine (w : t) (e : E) : t :=
  mk e (queue_ w) (config_ w) (blocks_ w) (prefix_cache_ w) (stats_ w) (ttft_hist_ w) (e2e_hist_ w) (world_ w).
Definition set_queue (w : t) (q : RequestQueue.t) : t :=
  mk (engine_ w) q (config_ w) (blocks_ w) (prefix_cache_ w) (stats_ w) (ttft_hist_ w) (e2e_hist_ w) (world_ w).
Definition set_blocks (w : t) (a : BlockAllocator.t) : t :=
  mk (engine_ w) (queue_ w) (config_ w) a (prefix_cache_ w) (stats_ w) (ttft_hist_ w) (e2e_hist_ w) (world_ w).
Definition set_cache (w : t) (c : PrefixCache.t) : t :=
  mk (engine_ w) (queue_ w) (config_ w) (blocks_ w) c (stats_ w) (ttft_hist_ w) (e2e_hist_ w) (world_ w).
Definition set_stats (w : t) (st : AtomicStats) : t :=
  mk (engine_ w) (queue_ w) (config_ w) (blocks_ w) (prefix_cache_ w) st (ttft_hist_ w) (e2e_hist_ w) (world_ w).
Definition set_hists (w : t) (ttft e2e : LatencyHistogram.t) : t :=
  mk (engine_ w) (queue_ w) (config_ w) (blocks_ w) (prefix_cache_ w) (stats_ w) ttft e2e (world_ w).
Definition set_world (w : t) (v : World) : t :=
  mk (engine_ w) (queue_ w) (config_ w) (blocks_ w) (prefix_cache_ w) (stats_ w) (ttft_hist_ w) (e2e_hist_ w) v.

Definition add_stat (w : t) (c : Counter) (n : N) : t := set_stats w (fetch_add (stats_ w) c n).
Definition put_stat (w : t) (c : Counter) (n : N) : t := set_stats w (store_stat (stats_ w) c n).

Definition now (w : t) : TimePoint * t :=
  let v := world_ w in
  (clock (ticks_ v),
   set_world w (mkWorld (script_ v) (flags_ v) (sinks_ v) (next_sink_ v) (next_job_ v)
                        (S (ticks_ v)) (answers_ v) (results_ v))).

(** ** What the HTTP threads do *)

Definition set_script (w : t) (sc : list (list EnvAction)) : t :=
  let v := world_ w in
  set_world w (mkWorld sc (flags_ v) (sinks_ v) (next_sink_ v) (next_job_ v)
                       (ticks_ v) (answers_ v) (results_ v)).

Definition act (w : t) (a : EnvAction) : t :=
  let v := world_ w in
  match a with
  | ASubmit r =>
      let (ok, q) := RequestQueue.try_push (queue_ w) r in
      set_world (set_queue w q)
        (mkWorld (script_ v) (flags_ v) (sinks_ v) (next_sink_ v) (next_job_ v)
                 (ticks_ v) (answers_ v ++ [(r, ok)]) (results_ v))
  | AClose => set_queue w (RequestQueue.close (queue_ w))
  | ACancel f =>
      set_world w (mkWorld (script_ v) (store (flags_ v) f true) (sinks_ v) (next_sink_ v)
                           (next_job_ v) (ticks_ v) (answers_ v) (results_ v))
  end.

Definition sync (w : t) : t :=
  match script_ (world_ w) with
  | [] => w
  | acts :: rest => fold_left act acts (set_script w rest)
  end.

(** [queue_.pop()]: wait for the HTTP threads while the queue is empty and open.
    [None] is a wait that the script never ends. *)
Fixpoint pop_wait (n : nat) (w : t) : option (option Request) * t :=
  let w1 := sync w in
  match RequestQueue.pop (queue_ w1) with
  | Some (o, q) => (Some o, set_queue w1 q)
  | None => match n with O => (None, w1) | S n' => pop_wait n' w1 end
  end.

Definition pop (w : t) : option (option Request) * t := pop_wait (length (script_ (world_ w))) w.

Definition try_pop (w : t) : option Request * t :=
  let w1 := sync w in
  let (o, q) := RequestQueue.try_pop (queue_ w1) in (o, set_queue w1 q).

(** ** Sinks, through the job's pointer *)

Definition deref (w : t) (k : SinkId) : Sink :=
  default (Collecting (CollectingSink.make 0)) (sinks_ (world_ w) !! k).

Definition put_sink (w : t) (id : SinkId) (k : Sink) : t :=
  let v := world_ w in
  set_world w (mkWorld (script_ v) (flags_ v) (<[id := k]> (sinks_ v)) (next_sink_ v) (next_job_ v)
                       (ticks_ v) (answers_ v) (results_ v)).

(** [std::make_shared<CollectingSink>] and [std::make_unique<Job>] return new
    addresses. *)
Definition new_sink (w : t) (k : Sink) : SinkId * t :=
  let v := world_ w in
  (next_sink_ v,
   set_world w (mkWorld (script_ v) (flags_ v) (<[next_sink_ v := k]> (sinks_ v))
                        (next_sink_ v + 1) (next_job_ v) (ticks_ v) (answers_ v) (results_ v))).

Definition new_ptr (w : t) : N * t :=
  let v := world_ w in
  (next_job_ v,
   set_world w (mkWorld (script_ v) (flags_ v) (sinks_ v) (next_sink_ v) (next_job_ v + 1)
                        (ticks_ v) (answers_ v) (results_ v))).

Definition set_value (w : t) (p : PromiseId) (r : GenResult) : t :=
  let v := world_ w in
  set_world w (mkWorld (script_ v) (flags_ v) (sinks_ v) (next_sink_ v) (next_job_ v)
                       (ticks_ v) (answers_ v) (results_ v ++ [(p, r)])).

(** [job.state->finish()]. *)
Definition finish_job (w : t) (job : Job) : t * Job :=
  let (s, k) := SequenceState.finish (job_state job) (deref w (job_sink job)) in
  (put_sink w (job_sink job) k, set_state job s).

(** [job.state->fail(message, reason)]. *)
Definition fail_job (job : Job) (message : bytes) (reason : FinishReason) : Job :=
  set_state job (SequenceState.fail (job_state job) message reason).

(** ** Operations *)

Definition deliver (w : t) (job : Job) : t :=
  let s := job_state job in
  let reason := SequenceState.reason_ s in
  let error := if decide (reason = kError ∨ reason = kContextOverflow)
               then SequenceState.error_ s else [] in
  let tm0 := req_timing (job_request job) in
  let (tm, w1) :=
    match RequestTiming.finished tm0 with
    | Some _ => (tm0, w)
    | None => let (n, w1) := now w in (RequestTiming.set_finished tm0 (Some n), w1)
    end in
  let usage := SequenceState.usage_ s in
  let w2 := add_stat w1 prompt_tokens (Types.prompt_tokens usage) in
  let w3 := add_stat w2 completion_tokens (Types.completion_tokens usage) in
  let ttft := match RequestTiming.first_token tm with
              | Some _ => LatencyHistogram.observe (ttft_hist_ w3) (RequestTiming.ttft_ms tm)
              | None => ttft_hist_ w3
              end in
  let w4 := set_hists w3 ttft (LatencyHistogram.observe (e2e_hist_ w3) (RequestTiming.total_ms tm)) in
  set_value w4 (job_promise job) (mkResult (SequenceState.emitted_text s) reason usage error tm).

Definition make_job (w : t) (req : Request) (seq : SeqId) : res Job * t :=
  let (ptr, w1) := new_ptr w in
  let (sink, w2) :=
    match req_sink req with
    | Some k => (k, w1)
    | None => new_sink w1 (Collecting (CollectingSink.make (req_cancel req)))
    end in
  let (prompt, e1) := tokenize (engine_ w2) (Types.prompt (req_spec req)) true in
  let state := SequenceState.make seq (req_spec req) prompt in
  let c := caps e1 in
  let needed := add32 (Types.prompt_tokens (SequenceState.usage_ state)) (max_tokens (req_spec req)) in
  let state1 :=
    if (0 <? n_ctx_seq c) && (n_ctx_seq c <? needed) then
      SequenceState.fail state
        (str "request needs " ++ num needed
           ++ str " tokens (prompt + max_tokens) but the per-request context holds "
           ++ num (n_ctx_seq c) ++ str "; raise --ctx or lower max_tokens")
        kContextOverflow
    else state in
  match begin_sequence e1 seq (Types.sampling (req_spec req)) with
  | (Throw what, e2) => (Throw what, set_engine w2 e2)
  | (Ok _, e2) => (Ok (mkJob ptr req sink state1 BlockTable.empty), set_engine w2 e2)
  end.

(** The constructor. *)
Definition make (engine : E) (queue : RequestQueue.t) (config : SchedulerConfig) (v : World) : t :=
  let c := caps engine in
  let batch := if (0 <? n_seq_max c) && (n_seq_max c <? max_batch_size config)
               then n_seq_max c else max_batch_size config in
  let bs := if block_size config =? 0 then 16 else block_size config in
  let pool :=
    if kv_blocks config =? 0 then
      let cells := if 0 <? n_ctx c then n_ctx c else 4096 in
      sub32 (add32 cells bs) 1 / bs
    else kv_blocks config in
  let donors := if prefix_caching config then prefix_donors config else 0 in
  let donors1 :=
    if 0 <? donors then
      let room := if wrap32 batch <? n_seq_max c then n_seq_max c - wrap32 batch else 0 in
      if room <? donors then room else donors
    else donors in
  mk engine queue
     (mkConfig (if batch =? 0 then 1 else batch) (mode config) pool bs donors1
               (prefix_caching config) (prefill_chunk config))
     (BlockAllocator.make pool bs)
     (PrefixCache.configure_donors PrefixCache.empty (to_i32 batch) donors1)
     (store_stat (λ _, 0) kv_blocks_total pool)
     LatencyHistogram.empty LatencyHistogram.empty v.

(** [stats()], a snapshot of the counters. *)
Record Stats := mkStats {
  s_admitted : N; s_completed : N; s_preemptions : N; s_deferred : N; s_prefix_hits : N;
  s_prefix_tokens_saved : N; s_donors_retained : N; s_donor_evictions : N; s_donors_held : N;
  s_prompt_tokens : N; s_completion_tokens : N; s_kv_blocks_total : N; s_kv_blocks_used : N }.

Definition stats (w : t) : Stats :=
  let st := stats_ w in
  mkStats (st admitted) (st completed) (st preemptions) (st deferred) (st prefix_hits)
    (st prefix_tokens_saved) (st donors_retained) (st donor_evictions) (st donors_held)
    (st prompt_tokens) (st completion_tokens) (st kv_blocks_total) (st kv_blocks_used).

(** The sweep of [next_batch]: at most [n] more requests, without waiting. *)
Fixpoint sweep_queue (n : nat) (w : t) (batch : list Request) : list Request * t :=
  match n with
  | O => (batch, w)
  | S n' =>
      match try_pop w with
      | (None, w1) => (batch, w1)
      | (Some more, w1) => sweep_queue n' w1 (push_back batch more)
      end
  end.

(** [None] when the first [pop] waits for ever. *)
Definition next_batch (w : t) : option (list Request) * t :=
  match pop w with
  | (None, w1) => (None, w1)
  | (Some None, w1) => (Some [], w1)
  | (Some (Some first), w1) =>
      let (batch, w2) := sweep_queue (N.to_nat (max_batch_size (config_ w1) - 1)) w1 [first] in
      (Some batch, w2)
  end.

(** ** Donors *)

Definition release_donor (w : t) (donor : PrefixCache.Entry) : t :=
  let w1 := set_blocks w (BlockAllocator.free (blocks_ w) (PrefixCache.e_blocks donor)) in
  let w2 := set_engine w1 (release_sequence (engine_ w1) (PrefixCache.e_seq donor)) in
  let w3 := add_stat w2 donor_evictions 1 in
  put_stat w3 donors_held (PrefixCache.donors_held (prefix_cache_ w3)).

Definition reclaim_donor_blocks (w : t) : bool * t :=
  match PrefixCache.evict_lru_retained (prefix_cache_ w) with
  | (None, _) => (false, w)
  | (Some victim, c) => (true, release_donor (set_cache w c) victim)
  end.

(** The slot search of [retain_prefix]: a free donor slot, or the slot of the
    least recently used donor, evicted for it. *)
Definition find_donor_slot (w : t) : option SeqId * t :=
  match PrefixCache.take_donor_slot (prefix_cache_ w) with
  | (Some slot, c) => (Some slot, set_cache w c)
  | (None, _) =>
      match PrefixCache.evict_lru_retained (prefix_cache_ w) with
      | (None, _) => (None, w)
      | (Some victim, c) =>
          let w1 := release_donor (set_cache w c) victim in
          let (slot, c') := PrefixCache.take_donor_slot (prefix_cache_ w1) in
          (slot, set_cache w1 c')
      end
  end.

(** The [catch] of [retain_prefix]. *)
Definition abandon_donor (w : t) (slot : SeqId) : t :=
  let w1 := set_engine w (release_sequence (engine_ w) slot) in
  set_cache w1 (PrefixCache.evict_sequence (prefix_cache_ w1) slot).

Definition retain_prefix (w : t) (job : Job) : t :=
  if negb (prefix_caching (config_ w)) || (PrefixCache.donor_capacity (prefix_cache_ w) =? 0) then w
  else
    let prompt := SequenceState.prompt_ (job_state job) in
    let bs := block_size (config_ w) in
    let n_tokens := mul32 (wrap32 (len prompt) / bs) bs in
    if n_tokens =? 0 then w
    else
      let n_blocks := n_tokens / bs in
      if BlockTable.n_blocks (job_blocks job) <? n_blocks then w
      else
        let hash := PrefixCache.hash_prefix prompt n_tokens in
        match find_donor_slot w with
        | (None, w1) => w1
        | (Some slot, w1) =>
            match begin_sequence (engine_ w1) slot default_sampling with
            | (Throw _, e) => abandon_donor (set_engine w1 e) slot
            | (Ok _, e) =>
                match copy_sequence e (job_seq job) slot (to_i32 n_tokens) with
                | (Throw _, e') => abandon_donor (set_engine w1 e') slot
                | (Ok _, e') =>
                    let blocks := take (N.to_nat n_blocks) (BlockTable.blocks_ (job_blocks job)) in
                    let w2 := set_blocks (set_engine w1 e')
                                (fold_left BlockAllocator.incref blocks (blocks_ w1)) in
                    let w3 := set_cache w2
                                (PrefixCache.retain (prefix_cache_ w2) hash slot n_tokens blocks) in
                    let w4 := add_stat w3 donors_retained 1 in
                    put_stat w4 donors_held (PrefixCache.donors_held (prefix_cache_ w4))
                end
            end
        end.

(** ** Leaving the batch *)

(** [job.blocks->release()]. *)
Definition release_blocks (w : t) (job : Job) : t * Job :=
  let (a, tb) := BlockTable.release (blocks_ w) (job_blocks job) in
  (set_blocks w a, set_table job tb).

Definition retire (w : t) (job : Job) : t :=
  let (w1, job1) := finish_job w job in
  let w2 := set_cache w1 (PrefixCache.evict_sequence (prefix_cache_ w1) (job_seq job1)) in
  let w3 := retain_prefix w2 job1 in
  let (w4, job2) := release_blocks w3 job1 in
  let w5 := set_engine w4 (release_sequence (engine_ w4) (job_seq job2)) in
  deliver (add_stat w5 completed 1) job2.

Definition reclaim (job : Job) : Request :=
  let r := job_request job in
  set_timing r (RequestTiming.set_first_token (RequestTiming.set_admitted (req_timing r) None) None).

(** The scan of [preempt_one], over the active jobs from the last: the victim and
    the jobs without it. *)
Fixpoint pick_victim (except : option N) (rev_active : list Job) : option (Job * list Job) :=
  match rev_active with
  | [] => None
  | job :: rest =>
      if job_finished job || bool_decide (Some (job_ptr job) = except) then
        match pick_victim except rest with
        | None => None
        | Some (victim, rest') => Some (victim, job :: rest')
        end
      else Some (job, rest)
  end.

(** ** Shared by the two loops *)

(** [if (!job.request.timing.first_token) ... = Clock::now()]. *)
Definition stamp_first (w : t) (job : Job) : t * Job :=
  let tm := req_timing (job_request job) in
  match RequestTiming.first_token tm with
  | Some _ => (w, job)
  | None =>
      let (n, w1) := now w in (w1, set_job_timing job (RequestTiming.set_first_token tm (Some n)))
  end.

(** [job.state->accept(engine_, step)], the HTTP threads running up to its poll of
    the cancellation flag. *)
Definition accept_job (w : t) (job : Job) (step : GenStep) : bool * (t * Job) :=
  let w1 := sync w in
  let '(more, (e, s, k)) :=
    SequenceState.accept (engine_ w1) (flags_ (world_ w1)) (job_state job) (deref w1 (job_sink job)) step in
  (more, (put_sink (set_engine w1 e) (job_sink job) k, set_state job s)).

(** ** The books

    What the scheduler owes: [accepted_promises] are those the queue accepted,
    [answered] those fulfilled.  [book w held] says that every accepted promise is
    exactly once answered, waiting in the queue, or held by the scheduler. *)

Definition accepted_promises (v : World) : list PromiseId :=
  req_result <$> (fst <$> filter (λ x, x.2 = true) (answers_ v)).
Definition answered (v : World) : list PromiseId := fst <$> results_ v.
Definition queued (w : t) : list PromiseId := req_result <$> RequestQueue.queue_ (queue_ w).

Definition book (w : t) (held : list PromiseId) : Prop :=
  accepted_promises (world_ w) ≡ₚ answered (world_ w) ++ queued w ++ held.

(** [quiet w w']: nothing the HTTP threads see of the books has changed, nor the
    configuration. *)
Record quiet (w w' : t) : Prop := mk_quiet {
  q_queue : queue_ w' = queue_ w;
  q_config : config_ w' = config_ w;
  q_script : script_ (world_ w') = script_ (world_ w);
  q_flags : flags_ (world_ w') = flags_ (world_ w);
  q_answers : answers_ (world_ w') = answers_ (world_ w);
  q_results : results_ (world_ w') = results_ (world_ w);
  q_next : next_job_ (world_ w') = next_job_ (world_ w) }.

#[export] Instance quiet_preorder : PreOrder quiet.
Proof.
  split.
  - done.
  - intros a b c [] []. split; congruence.
Qed.

#[export] Instance book_quiet : Proper (quiet ==> (≡ₚ) ==> iff) book.
Proof.
  intros w w' [Hq _ _ _ Ha Hr _] l k Hlk. unfold book, queued, accepted_promises, answered.
  by rewrite Hq, Ha, Hr, Hlk.
Qed.

Lemma quiet_finish_job w job : quiet w (finish_job w job).1.
Proof. unfold finish_job. by destruct (SequenceState.finish _ _). Qed.

Lemma quiet_release_donor w d : quiet w (release_donor w d).
Proof. done. Qed.

Lemma quiet_reclaim_donor_blocks w : quiet w (reclaim_donor_blocks w).2.
Proof. unfold reclaim_donor_blocks. by destruct (PrefixCache.evict_lru_retained _) as [[|] ?]. Qed.

Lemma quiet_find_donor_slot w : quiet w (find_donor_slot w).2.
Proof.
  unfold find_donor_slot. destruct (PrefixCache.take_donor_slot _) as [[|] ?]; [done|].
  destruct (PrefixCache.evict_lru_retained _) as [[|] ?]; [|done].
  by destruct (PrefixCache.take_donor_slot _) as [? ?].
Qed.

Lemma quiet_retain_prefix w job : quiet w (retain_prefix w job).
Proof.
  unfold retain_prefix. split_ifs; try done; pose proof (quiet_find_donor_slot w) as Q;
    match goal with H : find_donor_slot w = _ |- _ => rewrite H in Q end; simpl in Q; by etrans.
Qed.

Lemma quiet_release_blocks w job : quiet w (release_blocks w job).1.
Proof. done. Qed.

Lemma quiet_stamp_first w job : quiet w (stamp_first w job).1.
Proof. unfold stamp_first. by destruct (RequestTiming.first_token _). Qed.

(** The requests still to come: queued, or submitted later by the script. *)
Definition submitted (a : EnvAction) : option Request := match a with ASubmit r => Some r | _ => None end.
Definition incoming (w : t) : list Request :=
  RequestQueue.queue_ (queue_ w) ++ omap submitted (concat (script_ (world_ w))).

(** The queue is closed, or will be. *)
Definition closing (w : t) : Prop :=
  RequestQueue.closed_ (queue_ w) = true ∨ AClose ∈ concat (script_ (world_ w)).

(** What the scheduler shares with the HTTP threads. *)
Definition environ (w : t) : RequestQueue.t * list (list EnvAction) * Flags := (queue_ w, script_ (world_ w), flags_ (world_ w)).

(** A request is cancelled, or will be. *)
Definition disturbed (w : t) : Prop :=
  (∃ f, load (flags_ (world_ w)) f = true) ∨ ∃ f, ACancel f ∈ concat (script_ (world_ w)).

(** [fed more w w']: [more] was taken from what was to come, nothing else appeared,
    and a queue that was to be closed still is. *)
Definition fed (more : list Request) (w w' : t) : Prop :=
  more ++ incoming w' `sublist_of` incoming w ∧ (closing w → closing w').

Lemma environ_incoming w w' : environ w' = environ w → incoming w' = incoming w.
Proof. intros [= Hq Hs _]. unfold incoming. by rewrite Hq, Hs. Qed.

Lemma environ_fed w w' : environ w' = environ w → fed [] w w'.
Proof.
  intros Ee. split; [by rewrite (environ_incoming _ _ Ee)|]. injection Ee as Hq Hs _. unfold closing. by rewrite Hq, Hs.
Qed.

Lemma environ_disturbed w w' : environ w' = environ w → disturbed w' → disturbed w.
Proof. intros [= _ Hs Hf]. unfold disturbed. by rewrite Hs, Hf. Qed.

Lemma fed_trans more more' w w1 w' : fed more w w1 → fed more' w1 w' → fed (more ++ more') w w'.
Proof.
  intros [F1 F2] [G1 G2]. split; [|auto]. etrans; [|exact F1]. rewrite <- app_assoc. by apply sublist_app.
Qed.

(** [steady w w']: the books stay balanced and no request appears from nowhere,
    whatever the HTTP threads did. *)
Record steady (w w' : t) : Prop := mk_steady {
  s_config : config_ w' = config_ w;
  s_next : next_job_ (world_ w') = next_job_ (world_ w);
  s_results : results_ (world_ w') = results_ (world_ w);
  s_fed : fed [] w w';
  s_calm : disturbed w' → disturbed w;
  s_book : ∀ held, book w held → book w' held }.

#[export] Instance steady_preorder : PreOrder steady.
Proof.
  split.
  - done.
  - intros a b c [? ? ? F1 D1 B1] [? ? ? F2 D2 B2]. split; [congruence..|by apply (fed_trans [] [] _ b)|auto|auto].
Qed.

Lemma quiet_environ w w' : quiet w w' → environ w' = environ w.
Proof. intros Q. unfold environ. by rewrite (q_queue _ _ Q), (q_script _ _ Q), (q_flags _ _ Q). Qed.

Lemma quiet_steady w w' : quiet w w' → steady w w'.
Proof.
  intros Q. split; [apply Q..|by apply environ_fed, quiet_environ|by apply environ_disturbed, quiet_environ|].
  intros held B. by rewrite <- Q.
Qed.

(** One action of an HTTP thread. *)
Lemma act_spec w a :
  let w' := act w a in
  config_ w' = config_ w ∧ next_job_ (world_ w') = next_job_ (world_ w) ∧
  results_ (world_ w') = results_ (world_ w) ∧ script_ (world_ w') = script_ (world_ w) ∧
  RequestQueue.queue_ (queue_ w') `sublist_of` RequestQueue.queue_ (queue_ w) ++ option_list (submitted a) ∧
  (RequestQueue.closed_ (queue_ w) = true ∨ a = AClose → RequestQueue.closed_ (queue_ w') = true) ∧
  ∀ held, book w held → book w' held.
Proof.
  destruct a as [r| |f]; simpl; rewrite ?app_nil_r; try (split_and!; naive_solver).
  unfold RequestQueue.try_push. destruct (_ || _) eqn:Eo; simpl; split_and!; try naive_solver.
  - by apply sublist_inserts_r.
  - intros held. unfold book, accepted_promises, queued, answered. simpl.
    rewrite filter_app. simpl. by rewrite app_nil_r.
  - intros held. unfold book, accepted_promises, queued, answered. simpl.
    intros B. rewrite filter_app, !fmap_app, B. simpl. unfold push_back. rewrite fmap_app. simpl.
    rewrite <- !app_assoc. apply Permutation_app_head, Permutation_app_head. apply Permutation_app_comm.
Qed.

Lemma acts_spec acts w :
  let w' := fold_left act acts w in
  config_ w' = config_ w ∧ next_job_ (world_ w') = next_job_ (world_ w) ∧
  results_ (world_ w') = results_ (world_ w) ∧ script_ (world_ w') = script_ (world_ w) ∧
  RequestQueue.queue_ (queue_ w') `sublist_of` RequestQueue.queue_ (queue_ w) ++ omap submitted acts ∧
  (RequestQueue.closed_ (queue_ w) = true ∨ AClose ∈ acts → RequestQueue.closed_ (queue_ w') = true) ∧
  ∀ held, book w held → book w' held.
Proof.
  revert w. induction acts as [|a acts IH]; intros w; cbn [fold_left].
  { rewrite app_nil_r. split_and!; try done. intros [?|?%not_elem_of_nil]; done. }
  destruct (act_spec w a) as (A1 & A2 & A3 & A4 & A5 & A6 & A7), (IH (act w a)) as (I1 & I2 & I3 & I4 & I5 & I6 & I7).
  split_and!; [congruence..| |rewrite elem_of_cons; naive_solver|auto]. etrans; [exact I5|]. simpl.
  rewrite (sublist_app _ _ _ _ A5 (reflexivity (omap submitted acts))), <- app_assoc.
  by destruct (submitted a).
Qed.

(** Flags are only ever raised by an action. *)
Lemma acts_flags acts w f :
  load (flags_ (world_ (fold_left act acts w))) f = true → load (flags_ (world_ w)) f = true ∨ ACancel f ∈ acts.
Proof.
  revert w. induction acts as [|a acts IH]; intros w; simpl; [by left|]. intros [Hf|?]%IH; [|by right; constructor].
  destruct a as [r| |f']; simpl in Hf; [destruct (RequestQueue.try_push _ _); by left|by left|].
  destruct (decide (f' = f)) as [->|Hne]; [right; constructor|]. left. unfold load, store in *.
  by rewrite (lookup_insert_ne (M := gmap N) (flags_ (world_ w)) f' f true Hne) in Hf.
Qed.

Lemma sync_steady w : steady w (sync w).
Proof.
  unfold sync. destruct (script_ (world_ w)) as [|acts rest] eqn:Es; [done|].
  destruct (acts_spec acts (set_script w rest)) as (A1 & A2 & A3 & A4 & A5 & A6 & A7).
  split; try done; [split|].
  - unfold incoming. rewrite A4, Es. simpl. rewrite omap_app, app_assoc. by apply sublist_app.
  - unfold closing. rewrite A4, Es. simpl. rewrite elem_of_app. naive_solver.
  - unfold disturbed. rewrite A4, Es. cbn [concat]. intros [[f Hf]|[f Hf]]; [|right; exists f; rewrite elem_of_app; auto].
    apply acts_flags in Hf as [?|?]; [left; by exists f|right; exists f; rewrite elem_of_app; auto].
Qed.

Lemma sync_script w : script_ (world_ (sync w)) = tail (script_ (world_ w)).
Proof.
  unfold sync. destruct (script_ (world_ w)) as [|acts rest] eqn:Es; [done|].
  by destruct (acts_spec acts (set_script w rest)) as (_ & _ & _ & -> & _).
Qed.

(** The HTTP threads never touch what the scheduler thread owns. *)
Lemma sync_frame w :
  engine_ (sync w) = engine_ w ∧ blocks_ (sync w) = blocks_ w ∧ prefix_cache_ (sync w) = prefix_cache_ w.
Proof.
  unfold sync. destruct (script_ (world_ w)) as [|acts rest]; [done|].
  assert (G : ∀ w0, engine_ (fold_left act acts w0) = engine_ w0 ∧ blocks_ (fold_left act acts w0) = blocks_ w0 ∧
    prefix_cache_ (fold_left act acts w0) = prefix_cache_ w0).
  { induction acts as [|a acts IH]; intros w0; simpl; [done|]. destruct (IH (act w0 a)) as (-> & -> & ->).
    destruct a; simpl; [|done..]. by destruct (RequestQueue.try_push _ _). }
  apply (G (set_script w rest)).
Qed.

(** What a pop does to the books. *)
Definition popped (w : t) (o : option Request) (w' : t) : Prop :=
  config_ w' = config_ w ∧ next_job_ (world_ w') = next_job_ (world_ w) ∧
  (∀ held, book w held → book w' ((req_result <$> option_list o) ++ held)) ∧
  fed (option_list o) w w' ∧
  (o = None → RequestQueue.queue_ (queue_ w') = []).

Lemma popped_steady w w1 o w' : steady w w1 → popped w1 o w' → popped w o w'.
Proof.
  intros [? ? ? ? _ B] (? & ? & B' & ? & ?). split_and!; [congruence..| |by apply (fed_trans [] _ _ w1)|done].
  intros held Hb. by apply B', B.
Qed.

Lemma pop_front_popped w r rest :
  RequestQueue.queue_ (queue_ w) = r :: rest →
  popped w (Some r)
    (set_queue w (RequestQueue.mk rest (RequestQueue.capacity_ (queue_ w)) (RequestQueue.closed_ (queue_ w)))).
Proof.
  intros Eq. split_and!; try done; [|split; [unfold incoming; simpl; by rewrite Eq|done]]. intros held. unfold book, queued, accepted_promises, answered.
  simpl. rewrite Eq. simpl. intros ->. by rewrite Permutation_middle.
Qed.

Lemma try_pop_popped w : popped w (try_pop w).1 (try_pop w).2.
Proof.
  unfold try_pop, RequestQueue.try_pop. eapply popped_steady; [apply sync_steady|].
  set (w1 := sync w). destruct (RequestQueue.queue_ (queue_ w1)) as [|r rest] eqn:Eq; simpl.
  - split_and!; try done.
  - by apply pop_front_popped.
Qed.

Lemma pop_wait_popped n w :
  (length (script_ (world_ w)) ≤ n)%nat →
  match pop_wait n w with
  | (Some o, w') => popped w o w' ∧ (o = None → RequestQueue.closed_ (queue_ w') = true)
  | (None, w') => steady w w' ∧ RequestQueue.queue_ (queue_ w') = [] ∧ ¬ closing w'
  end.
Proof.
  revert w. induction n as [|n IH]; intros w Hn; cbn [pop_wait]; pose proof (sync_steady w) as S;
    pose proof (sync_script w) as Sc; set (w1 := sync w) in *; unfold RequestQueue.pop;
    destruct (RequestQueue.queue_ (queue_ w1)) as [|r rest] eqn:Eq.
  1,3: destruct (RequestQueue.closed_ (queue_ w1)) eqn:Ec;
    [split; [eapply popped_steady; [exact S|]; split_and!; done|done]|].
  - split_and!; [done..|]. destruct (script_ (world_ w)); [|simpl in Hn; lia]. unfold closing. rewrite Sc, Ec.
    intros [?|?%not_elem_of_nil]; done.
  - specialize (IH w1). destruct (pop_wait n w1) as [[o|] w'].
    + destruct IH; [rewrite Sc; destruct (script_ (world_ w)); simpl in *; lia|]. split; [by eapply popped_steady|done].
    + destruct IH as [? ?]; [rewrite Sc; destruct (script_ (world_ w)); simpl in *; lia|]. split; [by etrans|done].
  - split; [|done]. eapply popped_steady; [exact S|]. by apply pop_front_popped.
  - split; [|done]. eapply popped_steady; [exact S|]. by apply pop_front_popped.
Qed.

Lemma pop_popped w :
  match pop w with
  | (Some o, w') => popped w o w' ∧ (o = None → RequestQueue.closed_ (queue_ w') = true)
  | (None, w') => steady w w' ∧ RequestQueue.queue_ (queue_ w') = [] ∧ ¬ closing w'
  end.
Proof. by apply pop_wait_popped. Qed.

Lemma deliver_book w job :
  config_ (deliver w job) = config_ w ∧
  next_job_ (world_ (deliver w job)) = next_job_ (world_ w) ∧
  ∀ held, book w (job_promise job :: held) → book (deliver w job) held.
Proof.
  unfold deliver. destruct (RequestTiming.finished _) as [f|]; simpl; split_and!; try done;
    intros held; unfold book, queued, accepted_promises, answered; simpl; intros ->;
    rewrite fmap_app; simpl; rewrite <- !app_assoc; apply Permutation_app_head; simpl;
    by rewrite Permutation_middle.
Qed.

Lemma deliver_environ w job : environ (deliver w job) = environ w.
Proof. unfold deliver. by destruct (RequestTiming.finished _). Qed.

Lemma pop_wait_blocks n w : blocks_ (pop_wait n w).2 = blocks_ w.
Proof.
  revert w. induction n as [|n IH]; intros w; cbn [pop_wait]; destruct (sync_frame w) as (_ & F & _);
    destruct (RequestQueue.pop _) as [[]|]; simpl; [done..|]. by rewrite IH.
Qed.

Lemma sweep_queue_spec n w batch :
  let (batch', w') := sweep_queue n w batch in
  config_ w' = config_ w ∧ blocks_ w' = blocks_ w ∧
  (∃ more, batch' = batch ++ more ∧ fed more w w' ∧
     ∀ held, book w held → book w' ((req_result <$> more) ++ held)).
Proof.
  revert w batch. induction n as [|n IH]; intros w batch; cbn [sweep_queue].
  { split_and!; try done. exists []. rewrite app_nil_r. done. }
  pose proof (try_pop_popped w) as P. assert (Hb : blocks_ (try_pop w).2 = blocks_ w).
  { unfold try_pop. destruct (RequestQueue.try_pop _). apply sync_frame. }
  destruct (try_pop w) as [[r|] w1]; simpl in P, Hb; destruct P as (P1 & P2 & P3 & P4 & P5).
  - specialize (IH w1 (push_back batch r)). destruct (sweep_queue n w1 _) as [batch' w'].
    destruct IH as (I1 & I2 & more & -> & I4 & I5). split_and!; [congruence..|].
    exists (r :: more). unfold push_back. split_and!; [by rewrite <- app_assoc| |].
    + by apply (fed_trans [r] more w w1).
    + intros held B. simpl. rewrite Permutation_middle. apply I5. by apply P3.
  - split_and!; try done. exists []. rewrite app_nil_r. split_and!; try done.
Qed.

(** [next_batch] takes its requests from what is coming, and keeps the books. *)
Lemma next_batch_spec w :
  match next_batch w with
  | (None, w') => steady w w' ∧ blocks_ w' = blocks_ w ∧ RequestQueue.queue_ (queue_ w') = [] ∧ ¬ closing w
  | (Some batch, w') =>
      config_ w' = config_ w ∧ blocks_ w' = blocks_ w ∧
      fed batch w w' ∧
      (∀ held, book w held → book w' ((req_result <$> batch) ++ held)) ∧
      (batch = [] → RequestQueue.queue_ (queue_ w') = [] ∧ RequestQueue.closed_ (queue_ w') = true)
  end.
Proof.
  unfold next_batch. pose proof (pop_popped w) as P.
  pose proof (pop_wait_blocks (length (script_ (world_ w))) w) as Hb. fold (pop w) in Hb.
  destruct (pop w) as [[[first|]|] w1]; simpl in Hb.
  - destruct P as [(P1 & P2 & P3 & P4 & _) _].
    pose proof (sweep_queue_spec (N.to_nat (max_batch_size (config_ w1) - 1)) w1 [first]) as S.
    destruct (sweep_queue _ _ _) as [batch w2]. destruct S as (S1 & S2 & more & -> & S4 & S5).
    split_and!; [congruence..| | |done].
    + by apply (fed_trans [first] more w w1).
    + intros held B. simpl. rewrite Permutation_middle. apply S5. by apply P3.
  - destruct P as [(P1 & P2 & P3 & P4 & P5) P6]. split_and!; try done. intros _. auto.
  - destruct P as (P1 & P2 & P3). split_and!; [done..|]. intros Hc. by apply P3, (s_fed _ _ P1).
Qed.

(** A new job carries the request, the slot and a new address. *)
Lemma make_job_spec w req seq :
  match make_job w req seq with
  | (Throw _, w') => ∀ held, book w held → book w' held
  | (Ok job, w') =>
      job_ptr job = next_job_ (world_ w) ∧ job_request job = req ∧ job_seq job = seq ∧
      job_blocks job = BlockTable.empty ∧
      config_ w' = config_ w ∧ next_job_ (world_ w') = next_job_ (world_ w) + 1 ∧
      blocks_ w' = blocks_ w ∧ prefix_cache_ w' = prefix_cache_ w ∧ environ w' = environ w ∧
      ∀ held, book w held → book w' held
  end.
Proof.
  unfold make_job. simpl.
  destruct (req_sink req); simpl; destruct (tokenize _ _ _) as [p e1];
    destruct (begin_sequence _ _ _) as [[]]; try done; simpl;
    split_and!; try done; unfold job_seq; simpl; by destruct (_ && _).
Qed.

Lemma retire_book w job :
  config_ (retire w job) = config_ w ∧
  next_job_ (world_ (retire w job)) = next_job_ (world_ w) ∧
  ∀ held, book w (job_promise job :: held) → book (retire w job) held.
Proof.
  unfold retire. destruct (finish_job w job) as [w1 job1] eqn:Ef.
  pose proof (quiet_finish_job w job) as Q1. rewrite Ef in Q1. simpl in Q1.
  assert (Hp : job_promise job1 = job_promise job).
  { unfold finish_job in Ef. destruct (SequenceState.finish _ _). by simplify_eq. }
  set (w2 := set_cache w1 _). pose proof (quiet_retain_prefix w2 job1) as Q3.
  set (w3 := retain_prefix w2 job1) in *.
  destruct (release_blocks w3 job1) as [w4 job2] eqn:Er.
  pose proof (quiet_release_blocks w3 job1) as Q4. rewrite Er in Q4. simpl in Q4.
  set (w5 := add_stat _ _ _).
  assert (Q : quiet w w5) by (etrans; [exact Q1|]; etrans; [|etrans; [exact Q4|done]]; etrans; [|exact Q3]; done).
  destruct (deliver_book w5 job2) as (D1 & D2 & D3).
  assert (Hp2 : job_promise job2 = job_promise job)
    by (unfold release_blocks in Er; simpl in Er; injection Er as <- <-; exact Hp).
  split_and!; [by rewrite D1, (q_config _ _ Q)|by rewrite D2, (q_next _ _ Q)|].
  intros held B. apply D3. rewrite Hp2, <- Q. done.
Qed.

End Engine.

Arguments t E : clear implicits.

End Scheduler.
