(* ===== verification/Continuous.v ===== *)
(** Continuous batching: [Scheduler::preempt_one] and [Scheduler::run_continuous] of
    [src/core/scheduler.cpp].

    [Loop] holds the local variables of [run_continuous].  One iteration is
    [iterate]: take work ([take_work]), admit what fits ([admit_loop]), build the
    mixed batch ([build_batch]), decode and accept ([accept_loop], with the
    [catch] in [fail_all]), retire ([sweep]), resolve cache exhaustion ([resolve])
    and sweep again.  Inner loops recurse on what they consume or on a bound that
    their lemmas show to be enough; only the outer [while (true)] takes fuel. *)
From Stdlib Require Import Permutation Lia.
From stdpp Require Import base list gmap strings.
From S2P Require Import Prelude Types Blocks Tables Prefix Timing Engine Sinks Sequence Queue Scheduler.

Local Open Scope N_scope.

Module Continuous.
Import Scheduler.

Section Engine.
Context {E : Type} `{IModelEngine E}.
Variable clock : nat → TimePoint.

Record Loop := mkLoop {
  sched : t E;
  active : list Job;
  free_slots : list SeqId;
  pending : list Request }.

(** ** Preemption *)

Definition preempt_one (l : Loop) (except : option N) : bool * Loop :=
  match pick_victim except (rev (active l)) with
  | None => (false, l)
  | Some (job, rest) =>
      let requeued := reclaim job in
      let w1 := set_cache (sched l)
                  (PrefixCache.evict_sequence (prefix_cache_ (sched l)) (job_seq job)) in
      let (w2, _) := release_blocks w1 job in
      let w3 := set_engine w2 (release_sequence (engine_ w2) (job_seq job)) in
      (true, mkLoop (add_stat w3 preemptions 1) (rev rest)
                    (push_back (free_slots l) (job_seq job)) (requeued :: pending l))
  end.

(** ** 1. Take work from the queue *)

(** At most [n] more requests; [None] when an idle scheduler waits for ever. *)
Fixpoint take_work (n : nat) (w : t E) (act : list Job) (pend : list Request)
    : option (list Request) * t E :=
  match n with
  | O => (Some pend, w)
  | S n' =>
      let r := match act, pend with
               | [], [] => pop w
               | _, _ => let (o, w1) := try_pop w in (Some o, w1)
               end in
      match r with
      | (None, w1) => (None, w1)
      | (Some None, w1) => (Some pend, w1)
      | (Some (Some req), w1) => take_work n' w1 act (push_back pend req)
      end
  end.

(** ** 2. Admit what fits *)

(** [while (blocks_->free_blocks() < target && reclaim_donor_blocks()) {}], at most
    [n] times. *)
Fixpoint reclaim_until (n : nat) (target : N) (w : t E) : t E :=
  match n with
  | O => w
  | S n' =>
      if BlockAllocator.free_blocks (blocks_ w) <? target then
        match reclaim_donor_blocks w with
        | (true, w1) => reclaim_until n' target w1
        | (false, w1) => w1
        end
      else w
  end.

(** Every iteration removes a cache entry, so their number bounds the loop. *)
Definition donor_bound (w : t E) : nat := S (base.size (PrefixCache.entries_ (prefix_cache_ w))).

(** Prefix sharing.  The exception of [copy_sequence] is not caught here. *)
Definition share_prefix (w : t E) (job : Job) : res Job * t E :=
  if prefix_caching (config_ w) && negb (job_finished job) then
    let (hit, c) := PrefixCache.find_longest (prefix_cache_ w) (SequenceState.prompt_ (job_state job))
                      (BlockAllocator.block_size (blocks_ w)) in
    let w1 := set_cache w c in
    match hit with
    | None => (Ok job, w1)
    | Some hit =>
        if (PrefixCache.e_seq hit =? job_seq job)%Z then (Ok job, w1)
        else
          match copy_sequence (engine_ w1) (PrefixCache.e_seq hit) (job_seq job)
                  (to_i32 (PrefixCache.e_n_tokens hit)) with
          | (Throw what, e) => (Throw what, set_engine w1 e)
          | (Ok _, e) =>
              let (a, tb) := BlockTable.adopt_shared_prefix (blocks_ w1) (job_blocks job)
                               (PrefixCache.e_blocks hit) (PrefixCache.e_n_tokens hit) in
              let job1 := set_state (set_table job tb)
                            (SequenceState.adopt_cached_prefix (job_state job)
                               (PrefixCache.e_n_tokens hit)) in
              let w2 := set_blocks (set_engine w1 e) a in
              let w3 := add_stat w2 prefix_hits 1 in
              (Ok job1, add_stat w3 prefix_tokens_saved (PrefixCache.e_n_tokens hit))
          end
    end
  else (Ok job, w).

(** What admission does with a request. *)
Inductive Admission : Type :=
  | Rejected
  | Deferred (r : Request)
  | Running (j : Job).

(** The part of the loop body between [make_job] and [if (!fits)]: does the job's
    prompt fit, with one spare block per running sequence? *)
Definition reserve (w : t E) (act : list Job) (job : Job) : bool * (t E * Job) :=
  let want := BlockAllocator.blocks_for (blocks_ w) (Types.prompt_tokens (job_usage job)) in
  let headroom := match act with [] => 0 | _ => add32 (wrap32 (len act)) 1 end in
  let target := add32 want headroom in
  let w1 := reclaim_until (donor_bound w) target w in
  if job_finished job then (true, (w1, job))
  else if target <=? BlockAllocator.free_blocks (blocks_ w1) then
    let '(ok, a, tb) := BlockTable.ensure_capacity (blocks_ w1) (job_blocks job)
                          (Types.prompt_tokens (job_usage job)) in
    (ok, (set_blocks w1 a, set_table job tb))
  else (false, (w1, job)).

Definition admit_one (w : t E) (act : list Job) (slot : SeqId) (req : Request)
    : res Admission * t E :=
  match make_job w req slot with
  | (Throw what, w1) => (Throw what, w1)
  | (Ok job, w1) =>
      match reserve w1 act job with
      | (false, (w2, job1)) =>
          match act with
          | [] =>
              let job2 := fail_job job1
                (str "KV cache exhausted: prompt needs "
                   ++ num (BlockAllocator.blocks_for (blocks_ w2) (Types.prompt_tokens (job_usage job1)))
                   ++ str " blocks but the pool holds " ++ num (BlockAllocator.total_blocks (blocks_ w2)))
                kContextOverflow in
              let (w3, job3) := finish_job w2 job2 in
              let w4 := set_engine w3 (release_sequence (engine_ w3) slot) in
              (Ok Rejected, deliver clock w4 job3)
          | _ =>
              let w3 := set_engine w2 (release_sequence (engine_ w2) slot) in
              (Ok (Deferred (reclaim job1)), add_stat w3 deferred 1)
          end
      | (true, (w2, job1)) =>
          match share_prefix w2 job1 with
          | (Throw what, w3) => (Throw what, w3)
          | (Ok job2, w3) =>
              let (n, w4) := now clock w3 in
              let tm := RequestTiming.set_admitted (req_timing (job_request job2)) (Some n) in
              (Ok (Running (set_job_timing job2 tm)), add_stat w4 admitted 1)
          end
      end
  end.

(** [while (!pending.empty() && !free_slots.empty())]: each iteration takes the
    front of [pending] or stops.  The request has been moved into the job by the time an
    exception comes, and is destroyed with it. *)
Fixpoint admit_loop (w : t E) (act : list Job) (slots : list SeqId) (pend : list Request)
    : res unit * Loop :=
  match pend with
  | [] => (Ok tt, mkLoop w act slots [])
  | req :: rest =>
      match back slots with
      | None => (Ok tt, mkLoop w act slots pend)
      | Some slot =>
          match admit_one w act slot req with
          | (Throw what, w1) => (Throw what, mkLoop w1 act slots rest)
          | (Ok Rejected, w1) => admit_loop w1 act slots rest
          | (Ok (Deferred r), w1) => (Ok tt, mkLoop w1 act slots (r :: rest))
          | (Ok (Running job), w1) => admit_loop w1 (push_back act job) (pop_back slots) rest
          end
      end
  end.

(** ** 3. Build the mixed batch *)

Fixpoint build_decodes (act : list Job) (budget : N) : Batch * N :=
  match act with
  | [] => (mkBatch [] [], budget)
  | job :: rest =>
      if job_finished job || job_prefilling job then build_decodes rest budget
      else if budget =? 0 then (mkBatch [] [], budget)
      else
        let (b, left) := build_decodes rest (budget - 1) in
        (mkBatch (SequenceState.decode_item (job_state job) :: items b) (job_ptr job :: sampling b), left)
  end.

(** Prefill chunks move the jobs' marks, so the active list is rebuilt. *)
Fixpoint build_prefills (act : list Job) (budget chunk_cap : N) : Batch * list Job :=
  match act with
  | [] => (mkBatch [] [], [])
  | job :: rest =>
      if job_finished job || negb (job_prefilling job) || (budget =? 0) then
        let (b, rest') := build_prefills rest budget chunk_cap in (b, job :: rest')
      else
        let n := N.min budget (N.min chunk_cap (SequenceState.prefill_remaining (job_state job))) in
        if n =? 0 then let (b, rest') := build_prefills rest budget chunk_cap in (b, job :: rest')
        else
          let (item, s) := SequenceState.take_prefill_chunk (job_state job) n in
          let (b, rest') := build_prefills rest (budget - len (item_tokens item)) chunk_cap in
          (mkBatch (item :: items b) (if item_sample item then job_ptr job :: sampling b else sampling b),
           set_state job s :: rest')
  end.

Definition build_batch (n_batch prefill_chunk : N) (act : list Job) : Batch * list Job :=
  let (d, budget) := build_decodes act n_batch in
  let chunk_cap := if prefill_chunk =? 0 then n_batch else prefill_chunk in
  let (p, act') := build_prefills act budget chunk_cap in
  (mkBatch (items d ++ items p) (sampling d ++ sampling p), act').

(** ** 4. Accept *)

(** Publish the prompt's whole blocks once prefill is done. *)
Definition publish (w : t E) (job : Job) : t E :=
  if prefix_caching (config_ w) && negb (job_prefilling job) then
    let prompt := SequenceState.prompt_ (job_state job) in
    let bs := BlockAllocator.block_size (blocks_ w) in
    let n_blocks := wrap32 (len prompt / bs) in
    if (0 <? n_blocks) && (n_blocks <=? BlockTable.n_blocks (job_blocks job)) then
      let n_tokens := mul32 n_blocks bs in
      set_cache w
        (PrefixCache.insert (prefix_cache_ w) (PrefixCache.hash_prefix prompt n_tokens)
           (PrefixCache.mkEntry (job_seq job) n_tokens
              (take (N.to_nat n_blocks) (BlockTable.blocks_ (job_blocks job))) false))
    else w
  else w.

(** One iteration of the accept loop on a job: the job afterwards, and whether it
    could not get the block it needs. *)
Definition accept_one (w : t E) (job : Job) (step : GenStep) : bool * (t E * Job) :=
  match accept_job w job step with
  | (false, (w1, job1)) => let (w2, job2) := finish_job w1 job1 in (false, (w2, job2))
  | (true, (w1, job1)) =>
      let '(ok, a, tb) := BlockTable.ensure_capacity (blocks_ w1) (job_blocks job1) (job_tokens job1) in
      let w2 := set_blocks w1 a in
      let job2 := set_table job1 tb in
      if ok then (false, (publish w2 job2, job2)) else (true, (w2, job2))
  end.

(** [for (k = 0; k < sampling.size(); ++k)], with [steps.at(k)]. *)
Fixpoint accept_loop (w : t E) (act : list Job) (steps : list GenStep) (k : nat) (ptrs : list N)
    (short : list N) : res unit * (t E * list Job * list N) :=
  match ptrs with
  | [] => (Ok tt, (w, act, short))
  | p :: rest =>
      match find_job p act with
      | None => accept_loop w act steps (S k) rest short
      | Some job =>
          let (w1, job1) := stamp_first clock w job in
          match steps !! k with
          | None => (Throw (range_what (N.of_nat k) (len steps)), (w1, put_job job1 act, short))
          | Some step =>
              let '(starved, (w2, job2)) := accept_one w1 job1 step in
              accept_loop w2 (put_job job2 act) steps (S k) rest
                (if starved then push_back short p else short)
          end
      end
  end.

(** The [catch]: every running sequence fails. *)
Definition fail_all (what : bytes) (act : list Job) : list Job :=
  (λ j, if job_finished j then j else fail_job j what kError) <$> act.

(** The [try] block with its [catch]. *)
Definition decode_accept (n_batch : N) (w : t E) (act : list Job) : t E * list Job * list N :=
  let (b, act1) := build_batch n_batch (prefill_chunk (config_ w)) act in
  match items b with
  | [] => (w, act1, [])
  | _ =>
      match decode (engine_ w) (items b) with
      | (Throw what, e) => (set_engine w e, fail_all what act1, [])
      | (Ok steps, e) =>
          match accept_loop (set_engine w e) act1 steps 0 (sampling b) [] with
          | (Ok _, r) => r
          | (Throw what, (w2, act2, short)) => (w2, fail_all what act2, short)
          end
      end
  end.

(** ** Retire finished sequences and reclaim their slots *)

Fixpoint sweep (w : t E) (slots : list SeqId) (act : list Job) : t E * list SeqId * list Job :=
  match act with
  | [] => (w, slots, [])
  | job :: rest =>
      if job_finished job then sweep (retire clock w job) (push_back slots (job_seq job)) rest
      else let '(w1, slots1, rest1) := sweep w slots rest in (w1, slots1, job :: rest1)
  end.

Definition sweep_all (l : Loop) : Loop :=
  let '(w, slots, act) := sweep (sched l) (free_slots l) (active l) in mkLoop w act slots (pending l).

(** ** Resolve cache exhaustion *)

(** [starved->blocks->ensure_capacity(needed)]. *)
Definition grow_job (l : Loop) (p : N) (needed : N) : bool * Loop :=
  match find_job p (active l) with
  | None => (true, l)
  | Some job =>
      let '(ok, a, tb) := BlockTable.ensure_capacity (blocks_ (sched l)) (job_blocks job) needed in
      (ok, mkLoop (set_blocks (sched l) a) (put_job (set_table job tb) (active l))
                  (free_slots l) (pending l))
  end.

(** [while (!ensure_capacity(needed) && reclaim_donor_blocks()) {}]. *)
Fixpoint grow_by_donors (n : nat) (l : Loop) (p needed : N) : Loop :=
  match n with
  | O => l
  | S n' =>
      match grow_job l p needed with
      | (true, l1) => l1
      | (false, l1) =>
          match reclaim_donor_blocks (sched l1) with
          | (false, w) => mkLoop w (active l1) (free_slots l1) (pending l1)
          | (true, w) => grow_by_donors n' (mkLoop w (active l1) (free_slots l1) (pending l1)) p needed
          end
      end
  end.

(** [while (!ensure_capacity(needed)) if (!preempt_one(..., starved)) break;]: each
    iteration removes an active job. *)
Fixpoint grow_by_preempting (n : nat) (l : Loop) (p needed : N) : Loop :=
  match n with
  | O => l
  | S n' =>
      match grow_job l p needed with
      | (true, l1) => l1
      | (false, l1) =>
          match preempt_one l1 (Some p) with
          | (false, l2) => l2
          | (true, l2) => grow_by_preempting n' l2 p needed
          end
      end
  end.

(** One starved sequence. *)
Definition resolve_one (l : Loop) (p : N) : Loop :=
  match find_job p (active l) with
  | None => l
  | Some job =>
      let w := sched l in
      let needed := job_tokens job in
      if BlockAllocator.total_blocks (blocks_ w) <? BlockAllocator.blocks_for (blocks_ w) needed then
        let job1 := fail_job job
          (str "KV cache exhausted: sequence needs "
             ++ num (BlockAllocator.blocks_for (blocks_ w) needed)
             ++ str " blocks but the pool holds only " ++ num (BlockAllocator.total_blocks (blocks_ w)))
          kContextOverflow in
        let (w1, job2) := finish_job w job1 in
        mkLoop w1 (put_job job2 (active l)) (free_slots l) (pending l)
      else
        let l1 := grow_by_donors (donor_bound w) l p needed in
        grow_by_preempting (S (length (active l1))) l1 p needed
  end.

Definition resolve (l : Loop) (short : list N) : Loop := fold_left resolve_one short l.

(** ** The loop *)

(** [for (i = max_batch_size; i > 0; --i) push_back(i - 1)].  The cast to [SeqId] is the
    identity up to 2^31 slots. *)
Fixpoint init_slots (n : nat) : list SeqId :=
  match n with O => [] | S n' => Z.of_nat n' :: init_slots n' end.

Definition init (w : t E) : Loop :=
  mkLoop w [] (init_slots (N.to_nat (max_batch_size (config_ w)))) [].

(** From the batch to the end of the iteration, with at least one active job. *)
Definition advance (n_batch : N) (l : Loop) : Loop :=
  let '(w, act, short) := decode_accept n_batch (sched l) (active l) in
  let l1 := sweep_all (mkLoop w act (free_slots l) (pending l)) in
  let l2 := sweep_all (resolve l1 short) in
  mkLoop (put_stat (sched l2) kv_blocks_used (BlockAllocator.used_blocks (blocks_ (sched l2))))
         (active l2) (free_slots l2) (pending l2).

(** One iteration: [None] when the loop goes on. *)
Definition iterate (n_batch : N) (l : Loop) : option Outcome * Loop :=
  let room := max_batch_size (config_ (sched l)) - (len (pending l) + len (active l)) in
  match take_work (N.to_nat room) (sched l) (active l) (pending l) with
  | (None, w) => (Some Blocked, mkLoop w (active l) (free_slots l) (pending l))
  | (Some pend, w) =>
      match active l, pend with
      | [], [] => (Some Returned, mkLoop w [] (free_slots l) [])
      | _, _ =>
          match admit_loop w (active l) (free_slots l) pend with
          | (Throw what, l1) => (Some (Threw what), l1)
          | (Ok _, l1) =>
              match active l1 with
              | [] => (None, l1)
              | _ => (None, advance n_batch l1)
              end
          end
      end
  end.

Fixpoint run_loop (fuel : nat) (n_batch : N) (l : Loop) : Outcome * Loop :=
  match fuel with
  | O => (OutOfFuel, l)
  | S fuel' =>
      match iterate n_batch l with
      | (Some o, l1) => (o, l1)
      | (None, l1) => run_loop fuel' n_batch l1
      end
  end.

Definition run_continuous (fuel : nat) (w : t E) : Outcome * t E :=
  let (o, l) := run_loop fuel (n_batch (caps (engine_ w))) (init w) in (o, sched l).

End Engine.

Arguments Loop E : clear implicits.

End Continuous.
