(* ===== verification/Static.v ===== *)
(** Static batching: [Scheduler::run_batch], [Scheduler::run_static] and
    [Scheduler::run] of [src/core/scheduler.cpp].

    The jobs of a batch are one list, in the order of the batch; [prefill_loop]
    splits it at the index [i] of the code.  The [while (true)] of the decode phase
    takes fuel, which [run_batch_answers] shows to be enough. *)
From Stdlib Require Import Permutation Lia.
From stdpp Require Import base list gmap strings.
From S2P Require Import Prelude Types Blocks Tables Prefix Timing Engine Sinks Sequence Queue Scheduler Continuous.

Local Open Scope N_scope.

Module Static.
Import Scheduler.

Section Engine.
Context {E : Type} `{IModelEngine E}.
Variable clock : nat → TimePoint.

(** ** Admission: slot [i] for the [i]-th request *)

Definition admit_static (w : t E) (job : Job) : t E * Job :=
  let '(ok, w1, job1) :=
    if job_finished job then (true, w, job)
    else
      let '(ok, a, tb) := BlockTable.ensure_capacity (blocks_ w) (job_blocks job)
        (add32 (Types.prompt_tokens (job_usage job)) (max_tokens (req_spec (job_request job)))) in
      (ok, set_blocks w a, set_table job tb) in
  if ok then
    let (n, w2) := now clock w1 in
    let tm := RequestTiming.set_admitted (req_timing (job_request job1)) (Some n) in
    (add_stat w2 admitted 1, set_job_timing job1 tm)
  else
    (w1, fail_job job1 (str "KV cache exhausted: not enough blocks for this batch") kContextOverflow).

Fixpoint make_jobs (w : t E) (i : N) (batch : list Request) : res (list Job) * t E :=
  match batch with
  | [] => (Ok [], w)
  | req :: rest =>
      match make_job w req (to_i32 i) with
      | (Throw what, w1) => (Throw what, w1)
      | (Ok job, w1) =>
          let (w2, job1) := admit_static w1 job in
          match make_jobs w2 (i + 1) rest with
          | (Throw what, w3) => (Throw what, w3)
          | (Ok jobs, w3) => (Ok (job1 :: jobs), w3)
          end
      end
  end.

(** ** Prefill *)

(** The inner loop: prompts until the next would exceed [n_batch].  [its] is the
    number of items so far; the result is the batch, the jobs passed over and the
    jobs left. *)
Fixpoint pack (n_batch : N) (its tokens : N) (rest : list Job) : Batch * list Job * list Job :=
  match rest with
  | [] => (mkBatch [] [], [], [])
  | job :: rest' =>
      if job_finished job then
        let '(b, passed, later) := pack n_batch its tokens rest' in (b, job :: passed, later)
      else
        let n := SequenceState.prefill_remaining (job_state job) in
        if (0 <? its) && (n_batch <? tokens + n) then (mkBatch [] [], [], rest)
        else
          let (item, s) := SequenceState.prefill_item (job_state job) in
          let '(b, passed, later) := pack n_batch (its + 1) (tokens + n) rest' in
          (mkBatch (item :: items b) (job_ptr job :: sampling b), set_state job s :: passed, later)
  end.

(** [for (k = 0; k < submitted.size(); ++k)]: accept, and on the end of a sequence
    finish it and release its slot. *)
Fixpoint accept_static (w : t E) (jobs : list Job) (steps : list GenStep) (k : nat) (ptrs : list N)
    : res unit * (t E * list Job) :=
  match ptrs with
  | [] => (Ok tt, (w, jobs))
  | p :: rest =>
      match find_job p jobs with
      | None => accept_static w jobs steps (S k) rest
      | Some job =>
          let (w1, job1) := stamp_first clock w job in
          match steps !! k with
          | None => (Throw (range_what (N.of_nat k) (len steps)), (w1, put_job job1 jobs))
          | Some step =>
              match accept_job w1 job1 step with
              | (true, (w2, job2)) => accept_static w2 (put_job job2 jobs) steps (S k) rest
              | (false, (w2, job2)) =>
                  let (w3, job3) := finish_job w2 job2 in
                  let w4 := set_engine w3 (release_sequence (engine_ w3) (job_seq job3)) in
                  accept_static w4 (put_job job3 jobs) steps (S k) rest
              end
          end
      end
  end.

(** One decode call with its accepts. *)
Definition submit (w : t E) (jobs : list Job) (b : Batch) : res unit * (t E * list Job) :=
  match decode (engine_ w) (items b) with
  | (Throw what, e) => (Throw what, (set_engine w e, jobs))
  | (Ok steps, e) => accept_static (set_engine w e) jobs steps 0 (sampling b)
  end.

(** The outer loop; [first] are the jobs before index [i].  Each iteration passes at
    least one job. *)
Fixpoint prefill_loop (n : nat) (n_batch : N) (w : t E) (first rest : list Job)
    : res unit * (t E * list Job) :=
  match n, rest with
  | _, [] => (Ok tt, (w, first))
  | O, _ => (Ok tt, (w, first ++ rest))
  | S n', _ =>
      let '(b, passed, later) := pack n_batch 0 0 rest in
      match items b with
      | [] => prefill_loop n' n_batch w (first ++ passed) later
      | _ =>
          match submit w (first ++ passed ++ later) b with
          | (Throw what, r) => (Throw what, r)
          | (Ok _, (w1, jobs1)) =>
              let i := (length first + length passed)%nat in
              prefill_loop n' n_batch w1 (take i jobs1) (drop i jobs1)
          end
      end
  end.

(** ** Decode *)

(** Every running sequence feeds its last token. *)
Definition build_step (jobs : list Job) : Batch :=
  let run := filter (λ j, job_finished j = false) jobs in
  mkBatch ((λ j, SequenceState.decode_item (job_state j)) <$> run) (job_ptr <$> run).

(** [None]: out of fuel. *)
Fixpoint decode_phase (fuel : nat) (w : t E) (jobs : list Job) : option (res unit * (t E * list Job)) :=
  match fuel with
  | O => None
  | S fuel' =>
      let b := build_step jobs in
      match sampling b with
      | [] => Some (Ok tt, (w, jobs))
      | _ =>
          match submit w jobs b with
          | (Throw what, r) => Some (Throw what, r)
          | (Ok _, (w1, jobs1)) => decode_phase fuel' w1 jobs1
          end
      end
  end.

(** ** The end of the batch *)

(** The [catch]. *)
Fixpoint abort_all (what : bytes) (w : t E) (jobs : list Job) : t E * list Job :=
  match jobs with
  | [] => (w, [])
  | job :: rest =>
      let job1 := if job_finished job then job else fail_job job what kError in
      let (w1, job2) := finish_job w job1 in
      let w2 := set_engine w1 (release_sequence (engine_ w1) (job_seq job2)) in
      let (w3, rest') := abort_all what w2 rest in (w3, job2 :: rest')
  end.

Definition close_job (w : t E) (job : Job) : t E :=
  let (w1, job1) := finish_job w job in
  let (w2, job2) := release_blocks w1 job1 in
  deliver clock (add_stat w2 completed 1) job2.

Definition run_batch (fuel : nat) (w : t E) (batch : list Request) : Outcome * t E :=
  match batch with
  | [] => (Returned, w)
  | _ =>
      match make_jobs w 0 batch with
      | (Throw what, w1) => (Threw what, w1)
      | (Ok jobs, w1) =>
          let n_batch := n_batch (caps (engine_ w1)) in
          let r :=
            match prefill_loop (length jobs) n_batch w1 [] jobs with
            | (Throw what, r) => Some (Throw what, r)
            | (Ok _, (w2, jobs2)) => decode_phase fuel w2 jobs2
            end in
          match r with
          | None => (OutOfFuel, w1)
          | Some (r, (w2, jobs2)) =>
              let (w3, jobs3) :=
                match r with
                | Ok _ => (w2, jobs2)
                | Throw what => abort_all what w2 jobs2
                end in
              let w4 := fold_left close_job jobs3 w3 in
              (Returned, put_stat w4 kv_blocks_used (BlockAllocator.used_blocks (blocks_ w4)))
          end
      end
  end.

(** [steps] bounds the decode steps of each batch, [fuel] the number of batches. *)
Fixpoint run_static (fuel steps : nat) (w : t E) : Outcome * t E :=
  match fuel with
  | O => (OutOfFuel, w)
  | S fuel' =>
      match next_batch w with
      | (None, w1) => (Blocked, w1)
      | (Some [], w1) => (Returned, w1)
      | (Some batch, w1) =>
          match run_batch steps w1 batch with
          | (Returned, w2) => run_static fuel' steps w2
          | r => r
          end
      end
  end.

Definition run (fuel steps : nat) (w : t E) : Outcome * t E :=
  match mode (config_ w) with
  | kContinuous => Continuous.run_continuous clock fuel w
  | kStatic => run_static fuel steps w
  end.

End Engine.

End Static.
