(* ===== verification/Demo.v ===== *)
(** Concrete schedulers over the deterministic engine, on which the theorems about
    the scheduler are evaluated. *)
From stdpp Require Import base list gmap strings.
From S2P Require Import Prelude Types Blocks Tables Prefix Timing Engine Sinks Sequence Mock Queue Scheduler.

Local Open Scope N_scope.

Import Scheduler.

(** One millisecond per reading. *)
Definition demo_clock (n : nat) : TimePoint := (Z.of_nat n * 1000000)%Z.

(** Request number [n]: its promise, its flag and its id are all [n]. *)
Definition demo_req (n : N) (prompt : string) (max : N) : Request :=
  mkRequest n (mkSpec (str prompt) [] max default_sampling) n n None
            (RequestTiming.mk 0%Z None None None).

Definition demo_env (sc : list (list EnvAction)) : World := mkWorld sc ∅ ∅ 0 0 0 [] [].

Definition demo_engine : MockModelEngine.t :=
  MockModelEngine.make
    (MockModelEngine.mkConfig (str "abcdefghijklmnopqrstuvwxyz") false 0 64 16 4).

Definition demo_sched (cfg : SchedulerConfig) (sc : list (list EnvAction)) : t MockModelEngine.t :=
  make demo_engine (RequestQueue.make 8) cfg (demo_env sc).

(** Two requests, a third while they run, then the queue closes. *)
Definition demo_script : list (list EnvAction) :=
  [[ASubmit (demo_req 1 "hello" 6); ASubmit (demo_req 2 "yo" 3)];
   [ASubmit (demo_req 3 "hi" 4)]; [AClose]].

(** Two sequences at once, no prefix cache. *)
Definition plain_config (m : BatchingMode) : SchedulerConfig := mkConfig 2 m 0 4 0 false 128.

Definition demo (m : BatchingMode) : t MockModelEngine.t := demo_sched (plain_config m) demo_script.

(** A scheduler with an empty, open queue owes nothing. *)
Lemma book_demo cfg sc : book (demo_sched cfg sc) [].
Proof. unfold book. reflexivity. Qed.
