(* ===== verification/Conservation.v ===== *)
(** Nothing is lost: the bookkeeping theorems of continuous batching.

    [inv] is the invariant of the loop of [run_continuous]: the books balance
    ([Scheduler.book]), the sequence slots are exactly the free ones and those of
    the active jobs, and job addresses are distinct. *)
From Stdlib Require Import Permutation Lia.
From stdpp Require Import base list gmap strings.
From S2P Require Import Prelude Types Blocks Tables Prefix Timing Engine Sinks Sequence Mock Queue Scheduler Continuous Demo.

Local Open Scope N_scope.

Import Scheduler Continuous.

(** What identifies a job: its address, the promise it owes, its slot. *)
Definition key (j : Job) : N * PromiseId * SeqId := (job_ptr j, job_promise j, job_seq j).

Lemma keys_ptrs (act act' : list Job) : key <$> act' = key <$> act → job_ptr <$> act' = job_ptr <$> act.
Proof. intros Hk. apply (f_equal (fmap (λ x, x.1.1))) in Hk. by rewrite <- !list_fmap_compose in Hk. Qed.
Lemma keys_promises (act act' : list Job) : key <$> act' = key <$> act → job_promise <$> act' = job_promise <$> act.
Proof. intros Hk. apply (f_equal (fmap (λ x, x.1.2))) in Hk. by rewrite <- !list_fmap_compose in Hk. Qed.
Lemma keys_seqs (act act' : list Job) : key <$> act' = key <$> act → job_seq <$> act' = job_seq <$> act.
Proof. intros Hk. apply (f_equal (fmap (λ x, x.2))) in Hk. by rewrite <- !list_fmap_compose in Hk. Qed.

Lemma find_job_Some p act j : find_job p act = Some j → j ∈ act ∧ job_ptr j = p.
Proof.
  induction act as [|x act IH]; simpl; [done|].
  destruct (job_ptr x =? p) eqn:Ex; bool_hyps.
  - intros [= ->]. set_solver.
  - intros Hf. destruct (IH Hf). set_solver.
Qed.

(** Writing through a pointer keeps every job in place. *)
Lemma put_job_keys j j' act :
  NoDup (job_ptr <$> act) → find_job (job_ptr j) act = Some j → key j' = key j →
  key <$> put_job j' act = key <$> act.
Proof.
  intros Hn Hf Hk. assert (Hp : job_ptr j' = job_ptr j) by (by injection Hk).
  unfold put_job. rewrite Hp. induction act as [|x act IH]; simpl; [done|].
  apply NoDup_cons in Hn as [Hx Hn]. simpl in Hf. destruct (job_ptr x =? job_ptr j) eqn:Ex; bool_hyps.
  - injection Hf as ->. rewrite Hk. f_equal. rewrite <- list_fmap_compose.
    apply list_fmap_ext. intros i y Hy. simpl. destruct (job_ptr y =? job_ptr j) eqn:Ey; [|done].
    bool_hyps. destruct Hx. rewrite <- Ey. apply list_elem_of_fmap. exists y. split; [done|].
    by eapply list_elem_of_lookup_2.
  - f_equal. by apply IH.
Qed.

Lemma pick_victim_spec except ra :
  let skipped := λ j, job_finished j = true ∨ Some (job_ptr j) = except in
  match pick_victim except ra with
  | None => Forall skipped ra
  | Some (v, rest) =>
      ∃ l1 l2, ra = l1 ++ v :: l2 ∧ rest = l1 ++ l2 ∧ Forall skipped l1 ∧
        job_finished v = false ∧ Some (job_ptr v) ≠ except
  end.
Proof.
  intros skipped. induction ra as [|j ra IH]; simpl; [constructor|].
  destruct (job_finished j || bool_decide (Some (job_ptr j) = except)) eqn:Es.
  - assert (Hj : skipped j).
    { apply orb_true_iff in Es as [?|Hb%bool_decide_eq_true]; [by left|by right]. }
    destruct (pick_victim except ra) as [[v rest]|]; [|by constructor].
    destruct IH as (l1 & l2 & -> & -> & H1 & H2). exists (j :: l1), l2.
    split_and!; try done; [by constructor|apply H2..].
  - apply orb_false_iff in Es as [Ef Hb%bool_decide_eq_false]. exists [], ra. split_and!; try done.
Qed.

Section Engine.
Context {E : Type} `{IModelEngine E}.
Variable clock : nat → TimePoint.

Record inv (cfg : SchedulerConfig) (l : Loop E) : Prop := mk_inv {
  inv_config : config_ (sched l) = cfg;
  inv_book : book (sched l) ((req_result <$> pending l) ++ (job_promise <$> active l));
  inv_slots : free_slots l ++ (job_seq <$> active l) ≡ₚ init_slots (N.to_nat (max_batch_size cfg));
  inv_ptrs : NoDup (job_ptr <$> active l);
  inv_fresh : ∀ j, j ∈ active l → job_ptr j < next_job_ (world_ (sched l));
  inv_load : (length (pending l) + length (active l) ≤ N.to_nat (max_batch_size cfg))%nat }.

(** A phase that only works on jobs in place keeps the invariant. *)
Lemma inv_in_place cfg l w act :
  inv cfg l → steady (sched l) w → key <$> act = key <$> active l →
  inv cfg (mkLoop w act (free_slots l) (pending l)).
Proof.
  intros [I1 I2 I3 I4 I5 I6] [S1 S2 _ _ S3] Hk. split; simpl.
  - congruence.
  - rewrite (keys_promises _ _ Hk). auto.
  - by rewrite (keys_seqs _ _ Hk).
  - by rewrite (keys_ptrs _ _ Hk).
  - intros j Hj. rewrite S2. apply (list_elem_of_fmap_2 job_ptr) in Hj.
    rewrite (keys_ptrs _ _ Hk) in Hj. apply list_elem_of_fmap in Hj as (j0 & -> & Hj0). auto.
  - apply (f_equal length) in Hk. rewrite !length_fmap in Hk. lia.
Qed.

(** ** Decode and accept *)

Lemma finish_job_key (w : t E) job : key (finish_job w job).2 = key job.
Proof.
  unfold finish_job. pose proof (SequenceState.finish_frame (job_state job) (deref w (job_sink job))) as F.
  destruct (SequenceState.finish _ _) as [s k]. destruct F as ((F & _) & _).
  unfold key, job_seq. simpl in *. by rewrite F.
Qed.

Lemma accept_job_spec (w : t E) job step :
  let r := accept_job w job step in
  steady w r.2.1 ∧ key r.2.2 = key job ∧ job_blocks r.2.2 = job_blocks job ∧
  blocks_ r.2.1 = blocks_ w ∧ prefix_cache_ r.2.1 = prefix_cache_ w.
Proof.
  unfold accept_job. destruct (sync_frame w) as (_ & F1 & F2). set (w1 := sync w) in *.
  pose proof (SequenceState.accept_frame (engine_ w1) (flags_ (world_ w1)) (job_state job)
    (deref w1 (job_sink job)) step) as F.
  destruct (SequenceState.accept _ _ _ _ _) as [more [[e s] k]]. destruct F as (F & _). simpl in *.
  split_and!; try done.
  - etrans; [apply sync_steady|]. by apply quiet_steady.
  - unfold key, job_seq. simpl. by rewrite F.
Qed.

Lemma publish_quiet (w : t E) job : quiet w (publish w job).
Proof. unfold publish. split_ifs; done. Qed.

Lemma accept_one_spec (w : t E) job step :
  let r := accept_one w job step in steady w r.2.1 ∧ key r.2.2 = key job.
Proof.
  unfold accept_one. pose proof (accept_job_spec w job step) as A.
  destruct (accept_job w job step) as [[|] [w1 job1]]; simpl in A; destruct A as (A1 & A2 & _).
  - destruct (BlockTable.ensure_capacity _ _ _) as [[ok a] tb]. destruct ok; simpl; (split; [|exact A2]);
      (etrans; [exact A1|]; apply quiet_steady); [|done]. etrans; [|apply publish_quiet]. done.
  - pose proof (quiet_finish_job w1 job1) as Q. pose proof (finish_job_key w1 job1) as K.
    destruct (finish_job w1 job1) as [w2 job2]. simpl in *. split; [|congruence].
    etrans; [exact A1|]. by apply quiet_steady.
Qed.

Lemma stamp_first_key (w : t E) job : key (stamp_first clock w job).2 = key job.
Proof. unfold stamp_first. by destruct (RequestTiming.first_token _). Qed.

Lemma accept_loop_spec (w : t E) act steps k ptrs short :
  NoDup (job_ptr <$> act) →
  let '(_, (w', act', short')) := accept_loop clock w act steps k ptrs short in
  steady w w' ∧ key <$> act' = key <$> act.
Proof.
  revert w act k short. induction ptrs as [|p ptrs IH]; intros w act k short Hn; simpl; [done|].
  destruct (find_job p act) as [job|] eqn:Ef; [|by apply IH].
  destruct (find_job_Some _ _ _ Ef) as [_ <-].
  pose proof (quiet_stamp_first clock w job) as Q. pose proof (stamp_first_key w job) as K.
  destruct (stamp_first clock w job) as [w1 job1]. simpl in Q, K.
  destruct (steps !! k) as [step|]; [|split; [by apply quiet_steady|by eapply put_job_keys]].
  pose proof (accept_one_spec w1 job1 step) as A.
  destruct (accept_one w1 job1 step) as [starved [w2 job2]]. simpl in A. destruct A as [A1 A2].
  assert (Hk : key <$> put_job job2 act = key <$> act) by (eapply put_job_keys; [done|done|congruence]).
  specialize (IH w2 (put_job job2 act) (S k) (if starved then push_back short (job_ptr job) else short)).
  destruct (accept_loop _ _ _ _ _ _ _) as [? [[w3 act3] short3]].
  destruct IH as [I1 I2]; [by rewrite (keys_ptrs _ _ Hk)|]. split; [|congruence].
  etrans; [by apply quiet_steady|]. by etrans.
Qed.

Lemma build_prefills_keys act budget cap : key <$> (build_prefills act budget cap).2 = key <$> act.
Proof.
  revert budget. induction act as [|j act IH]; intros budget; simpl; [done|].
  destruct (_ || _ || _).
  { specialize (IH budget). destruct (build_prefills act budget cap). simpl in *. by f_equal. }
  destruct (_ =? 0).
  { specialize (IH budget). destruct (build_prefills act budget cap). simpl in *. by f_equal. }
  set (n := N.min _ _). set (b' := budget - _). specialize (IH b').
  destruct (build_prefills act b' cap). simpl in *. by f_equal.
Qed.

Lemma build_batch_keys nb chunk act : key <$> (build_batch nb chunk act).2 = key <$> act.
Proof.
  unfold build_batch. destruct (build_decodes act nb) as [d budget].
  set (cap := if chunk =? 0 then nb else chunk). pose proof (build_prefills_keys act budget cap) as K.
  by destruct (build_prefills act budget cap).
Qed.

Lemma fail_all_keys what act : key <$> fail_all what act = key <$> act.
Proof.
  unfold fail_all. rewrite <- list_fmap_compose. apply list_fmap_ext. intros i j _. simpl.
  by destruct (job_finished j).
Qed.

Lemma decode_accept_spec nb (w : t E) act :
  NoDup (job_ptr <$> act) →
  let '(w', act', _) := decode_accept clock nb w act in
  steady w w' ∧ key <$> act' = key <$> act.
Proof.
  intros Hn. unfold decode_accept. pose proof (build_batch_keys nb (prefill_chunk (config_ w)) act) as Kb.
  destruct (build_batch _ _ _) as [b act1]. simpl in Kb. destruct (items b) eqn:Ei; [done|].
  rewrite <- Ei. destruct (decode (engine_ w) (items b)) as [[steps|what] e].
  - pose proof (accept_loop_spec (set_engine w e) act1 steps 0 (sampling b) []) as A.
    destruct (accept_loop _ _ _ _ _ _ _) as [r [[w2 act2] short]].
    destruct A as [A1 A2]; [by rewrite (keys_ptrs _ _ Kb)|].
    assert (steady w w2) by (etrans; [|exact A1]; done).
    destruct r; (split; [done|]); rewrite ?fail_all_keys; congruence.
  - split; [done|]. by rewrite fail_all_keys.
Qed.

(** ** Retiring *)

Lemma sweep_spec (w : t E) slots act :
  let '(w', slots', act') := sweep clock w slots act in
  config_ w' = config_ w ∧ next_job_ (world_ w') = next_job_ (world_ w) ∧
  (∀ held, book w ((job_promise <$> act) ++ held) → book w' ((job_promise <$> act') ++ held)) ∧
  slots' ++ (job_seq <$> act') ≡ₚ slots ++ (job_seq <$> act) ∧
  act' = filter (λ j, job_finished j = false) act.
Proof.
  revert w slots. induction act as [|job act IH]; intros w slots; simpl; [done|].
  destruct (job_finished job) eqn:Ef.
  - destruct (retire_book clock w job) as (R1 & R2 & R3).
    specialize (IH (retire clock w job) (push_back slots (job_seq job))).
    destruct (sweep _ _ _ _) as [[w' slots'] act']. destruct IH as (I1 & I2 & I3 & I4 & I5).
    rewrite filter_cons_False by congruence. split_and!; [congruence..| | |done].
    + intros held B. apply I3, R3. exact B.
    + rewrite I4. unfold push_back. by rewrite <- app_assoc.
  - specialize (IH w slots). destruct (sweep _ _ _ _) as [[w' slots'] act'].
    destruct IH as (I1 & I2 & I3 & I4 & ->). rewrite filter_cons_True by done. split_and!; try done.
    + intros held B. simpl. rewrite Permutation_middle. apply I3. by rewrite <- Permutation_middle.
    + simpl. by rewrite <- !Permutation_middle, I4.
Qed.

Lemma sweep_all_inv cfg (l : Loop E) :
  inv cfg l →
  inv cfg (sweep_all clock l) ∧
  active (sweep_all clock l) = filter (λ j, job_finished j = false) (active l).
Proof.
  intros [I1 I2 I3 I4 I5 I6]. unfold sweep_all.
  pose proof (sweep_spec (sched l) (free_slots l) (active l)) as S.
  destruct (sweep _ _ _ _) as [[w' slots'] act']. destruct S as (S1 & S2 & S3 & S4 & ->).
  split; [|done]. split; simpl.
  - congruence.
  - rewrite Permutation_app_comm. apply S3. by rewrite Permutation_app_comm.
  - by rewrite S4.
  - eapply sublist_NoDup; [exact I4|]. apply fmap_sublist, sublist_filter.
  - intros j [_ Hj]%list_elem_of_filter. rewrite S2. auto.
  - pose proof (length_filter (λ j, job_finished j = false) (active l)). lia.
Qed.

(** ** Preemption *)

Lemma preempt_one_spec (l : Loop E) except :
  match preempt_one l except with
  | (false, l') => l' = l ∧
      Forall (λ j, job_finished j = true ∨ Some (job_ptr j) = except) (active l)
  | (true, l') => ∃ older v newer,
      active l = older ++ v :: newer ∧ active l' = older ++ newer ∧
      Forall (λ j, job_finished j = true ∨ Some (job_ptr j) = except) newer ∧
      job_finished v = false ∧ Some (job_ptr v) ≠ except ∧
      pending l' = reclaim v :: pending l ∧ free_slots l' = free_slots l ++ [job_seq v] ∧
      quiet (sched l) (sched l') ∧
      blocks_ (sched l') = BlockAllocator.free (blocks_ (sched l)) (BlockTable.blocks_ (job_blocks v)) ∧
      prefix_cache_ (sched l') = PrefixCache.evict_sequence (prefix_cache_ (sched l)) (job_seq v)
  end.
Proof.
  unfold preempt_one. pose proof (pick_victim_spec except (rev (active l))) as P.
  destruct (pick_victim except (rev (active l))) as [[v rest]|].
  - destruct P as (l1 & l2 & Ea & -> & P1 & P2 & P3). simpl. exists (rev l2), v, (rev l1).
    split_and!; try done.
    + rewrite <- (rev_involutive (active l)), Ea, rev_app_distr. simpl. by rewrite <- app_assoc.
    + by rewrite rev_app_distr.
    + by apply Forall_rev.
  - split; [done|]. apply Forall_rev in P. by rewrite rev_involutive in P.
Qed.

Lemma preempt_one_inv cfg (l : Loop E) except :
  inv cfg l → inv cfg (preempt_one l except).2.
Proof.
  intros I. pose proof (preempt_one_spec l except) as P.
  destruct (preempt_one l except) as [[|] l']; simpl; [|by destruct P as [-> _]].
  destruct P as (older & v & newer & Ea & Ea' & _ & _ & _ & Ep & Ef & Q & _).
  destruct I as [I1 I2 I3 I4 I5 I6]. rewrite Ea in *. split; rewrite ?Ea', ?Ep, ?Ef.
  - by rewrite (q_config _ _ Q).
  - rewrite <- Q. rewrite fmap_app, fmap_cons in I2. rewrite <- Permutation_middle in I2.
    rewrite fmap_app, fmap_cons. change (req_result (reclaim v)) with (job_promise v).
    rewrite <- app_comm_cons. by rewrite Permutation_middle.
  - rewrite fmap_app, fmap_cons in I3. rewrite <- Permutation_middle in I3.
    rewrite <- I3, <- app_assoc, fmap_app. done.
  - eapply sublist_NoDup; [exact I4|]. apply fmap_sublist, sublist_app; [done|by apply sublist_cons].
  - intros j Hj. rewrite (q_next _ _ Q). apply I5. set_solver.
  - rewrite length_app in *. simpl in *. lia.
Qed.

(** ** Cache exhaustion *)

Lemma inv_world cfg (l : Loop E) w :
  inv cfg l → quiet (sched l) w → inv cfg (mkLoop w (active l) (free_slots l) (pending l)).
Proof. intros I Q. apply inv_in_place; [done|by apply quiet_steady|done]. Qed.

Lemma grow_job_inv cfg (l : Loop E) p n : inv cfg l → inv cfg (grow_job l p n).2.
Proof.
  intros I. unfold grow_job. destruct (find_job p (active l)) as [job|] eqn:Ef; [|done].
  destruct (find_job_Some _ _ _ Ef) as [_ <-].
  destruct (BlockTable.ensure_capacity _ _ _) as [[ok a] tb]. simpl.
  apply inv_in_place; [done|by apply quiet_steady|].
  eapply put_job_keys; [apply I|exact Ef|done].
Qed.

Lemma grow_by_donors_inv cfg n (l : Loop E) p needed :
  inv cfg l → inv cfg (grow_by_donors n l p needed).
Proof.
  revert l. induction n as [|n IH]; intros l I; simpl; [done|].
  pose proof (grow_job_inv cfg l p needed I) as I1.
  destruct (grow_job l p needed) as [[|] l1]; simpl in I1; [done|].
  pose proof (quiet_reclaim_donor_blocks (sched l1)) as Q.
  destruct (reclaim_donor_blocks (sched l1)) as [[|] w]; simpl in Q; [apply IH|]; by apply inv_world.
Qed.

Lemma grow_by_preempting_inv cfg n (l : Loop E) p needed :
  inv cfg l → inv cfg (grow_by_preempting n l p needed).
Proof.
  revert l. induction n as [|n IH]; intros l I; simpl; [done|].
  pose proof (grow_job_inv cfg l p needed I) as I1.
  destruct (grow_job l p needed) as [[|] l1]; simpl in I1; [done|].
  pose proof (preempt_one_inv cfg l1 (Some p) I1) as I2.
  destruct (preempt_one l1 (Some p)) as [[|] l2]; simpl in I2; [by apply IH|done].
Qed.

Lemma resolve_one_inv cfg (l : Loop E) p : inv cfg l → inv cfg (resolve_one l p).
Proof.
  intros I. unfold resolve_one. destruct (find_job p (active l)) as [job|] eqn:Ef; [|done].
  destruct (find_job_Some _ _ _ Ef) as [_ <-]. destruct (_ <? _).
  - set (job1 := fail_job _ _ _). pose proof (quiet_finish_job (sched l) job1) as Q.
    pose proof (finish_job_key (sched l) job1) as K.
    destruct (finish_job (sched l) job1) as [w1 job2]. simpl in Q, K.
    apply inv_in_place; [done|by apply quiet_steady|].
    eapply put_job_keys; [apply I|exact Ef|done].
  - by apply grow_by_preempting_inv, grow_by_donors_inv.
Qed.

Lemma resolve_inv cfg (l : Loop E) short : inv cfg l → inv cfg (resolve l short).
Proof.
  unfold resolve. revert l. induction short as [|p short IH]; intros l I; simpl; [done|].
  by apply IH, resolve_one_inv.
Qed.

Lemma advance_inv cfg nb (l : Loop E) : inv cfg l → inv cfg (advance clock nb l).
Proof.
  intros I. unfold advance. pose proof (decode_accept_spec nb (sched l) (active l) (inv_ptrs _ _ I)) as D.
  destruct (decode_accept _ _ _ _) as [[w act] short]. destruct D as [D1 D2].
  pose proof (inv_in_place _ _ _ _ I D1 D2) as I1.
  apply (sweep_all_inv _ _) in I1 as [I1 _]. apply (resolve_inv _ _ short) in I1.
  apply sweep_all_inv in I1 as [I1 _]. by apply inv_world.
Qed.

(** ** Taking and admitting work *)

Lemma take_work_spec n (w : t E) act pend :
  match take_work n w act pend with
  | (None, w') => act = [] ∧ pend = [] ∧ steady w w' ∧ RequestQueue.queue_ (queue_ w') = [] ∧ ¬ closing w
  | (Some pend', w') =>
      config_ w' = config_ w ∧ next_job_ (world_ w') = next_job_ (world_ w) ∧
      (∀ held, book w ((req_result <$> pend) ++ held) → book w' ((req_result <$> pend') ++ held)) ∧
      (act = [] → pend' = [] → (0 < n)%nat →
         RequestQueue.queue_ (queue_ w') = [] ∧ RequestQueue.closed_ (queue_ w') = true) ∧
      (length pend ≤ length pend' ≤ length pend + n)%nat
  end.
Proof.
  revert w pend. induction n as [|n IH]; intros w pend; cbn [take_work].
  { split_and!; try done; try lia. }
  assert (P : ∀ o w1, (match act, pend with
      | [], [] => pop w
      | _, _ => let (o, w1) := try_pop w in (Some o, w1) end) = (Some o, w1) →
      popped w o w1 ∧ (act = [] → pend = [] → o = None → RequestQueue.closed_ (queue_ w1) = true)).
  { intros o w1. pose proof (pop_popped w) as P1. pose proof (try_pop_popped w) as P2.
    destruct act, pend; [destruct (pop w) as [[]]; intros [= -> ->]; naive_solver|..];
      destruct (try_pop w); intros [= -> ->]; naive_solver. }
  destruct (match act, pend with
      | [], [] => pop w
      | _, _ => let (o, w1) := try_pop w in (Some o, w1) end) as [[[req|]|] w1] eqn:Er.
  - destruct (P _ _ eq_refl) as [(P1 & P2 & P3 & _) _]. specialize (IH w1 (push_back pend req)).
    destruct (take_work n w1 act (push_back pend req)) as [[pend'|] w'].
    + destruct IH as (I1 & I2 & I3 & I4 & I5). unfold push_back in I5.
      rewrite length_app in I5. simpl in I5. split; [congruence|]. split; [congruence|].
      split_and!; [| |lia..].
      * intros held B. apply I3. apply P3 in B. simpl in B. unfold push_back. rewrite fmap_app. simpl.
        rewrite <- app_assoc. simpl. by rewrite <- Permutation_middle.
      * intros _ -> _. simpl in I5. lia.
    + destruct IH as (_ & I2 & _). by destruct pend.
  - destruct (P _ _ eq_refl) as [(P1 & P2 & P3 & _ & P4) P5]. split_and!; try done; try lia.
    { intros held. apply P3. }
    intros -> -> _. split; [by apply P4|by apply P5].
  - pose proof (pop_popped w) as P1. destruct act, pend; [rewrite Er in P1|by destruct (try_pop w)..].
    destruct P1 as (P1 & P2 & P3). split_and!; [done..|]. intros Hc. by apply P3, (s_fed _ _ P1).
Qed.

Lemma reclaim_until_quiet n target (w : t E) : quiet w (reclaim_until n target w).
Proof.
  revert w. induction n as [|n IH]; intros w; simpl; [done|]. destruct (_ <? _); [|done].
  pose proof (quiet_reclaim_donor_blocks w) as Q.
  destruct (reclaim_donor_blocks w) as [[|] w1]; simpl in Q; [|done]. by etrans.
Qed.

Lemma reserve_spec (w : t E) act job :
  let r := reserve w act job in quiet w r.2.1 ∧ key r.2.2 = key job.
Proof.
  unfold reserve. set (target := add32 _ _).
  pose proof (reclaim_until_quiet (donor_bound w) target w) as Q.
  set (w1 := reclaim_until _ _ _) in *. destruct (job_finished job); [done|].
  destruct (_ <=? _); [|done]. destruct (BlockTable.ensure_capacity _ _ _) as [[ok a] tb]. simpl.
  split; [|done]. etrans; [exact Q|done].
Qed.

Lemma share_prefix_spec (w : t E) job :
  match share_prefix w job with
  | (Throw _, w') => quiet w w'
  | (Ok job', w') => quiet w w' ∧ key job' = key job
  end.
Proof.
  unfold share_prefix. destruct (_ && _); [|done].
  destruct (PrefixCache.find_longest _ _ _) as [[hit|] c]; [|done]. destruct (_ =? _)%Z; [done|].
  destruct (copy_sequence _ _ _ _) as [[u|what] e]; [|done].
  by destruct (BlockTable.adopt_shared_prefix _ _ _ _) as [a tb].
Qed.

(** What admission does to the books, on every branch. *)
Lemma admit_one_spec (w : t E) act slot req held :
  book w (req_result req :: held) →
  match admit_one clock w act slot req with
  | (Throw _, w') => book w' (req_result req :: held)
  | (Ok a, w') =>
      config_ w' = config_ w ∧ next_job_ (world_ w') = next_job_ (world_ w) + 1 ∧
      match a with
      | Rejected => book w' held
      | Deferred r => act ≠ [] ∧ book w' (req_result r :: held)
      | Running job =>
          key job = (next_job_ (world_ w), req_result req, slot) ∧ book w' (job_promise job :: held)
      end
  end.
Proof.
  intros B. unfold admit_one. pose proof (make_job_spec w req slot) as M.
  destruct (make_job w req slot) as [[job|what] w1]; [|by apply M].
  destruct M as (M1 & M2 & M3 & _ & M4 & M5 & _ & _ & _ & M6). apply M6 in B.
  assert (Hp : job_promise job = req_result req) by (unfold job_promise; by rewrite M2).
  pose proof (reserve_spec w1 act job) as R. destruct (reserve w1 act job) as [fits [w2 job1]].
  simpl in R. destruct R as [Q K]. assert (Hp1 : job_promise job1 = req_result req)
    by (injection K as _ K _; congruence).
  rewrite Q in B. destruct fits.
  - pose proof (share_prefix_spec w2 job1) as S. destruct (share_prefix w2 job1) as [[job2|what] w3].
    + destruct S as [Q2 K2]. rewrite Q2 in B. simpl.
      rewrite (q_config _ _ Q2), (q_config _ _ Q), (q_next _ _ Q2), (q_next _ _ Q).
      split_and!; [done|done| |].
      * change (key job2 = (next_job_ (world_ w), req_result req, slot)).
        rewrite K2, K. unfold key. by rewrite M1, Hp, M3.
      * change (book w3 (job_promise job2 :: held)). injection K2 as _ K2 _. by rewrite K2, Hp1.
    + by rewrite <- S.
  - destruct act as [|a act].
    + set (job2 := fail_job _ _ _). pose proof (quiet_finish_job w2 job2) as Q3.
      pose proof (finish_job_key w2 job2) as K3.
      destruct (finish_job w2 job2) as [w3 job3]. simpl in Q3, K3.
      set (w4 := set_engine _ _). destruct (deliver_book clock w4 job3) as (D1 & D2 & D3).
      rewrite D1, D2. simpl. rewrite (q_config _ _ Q3), (q_config _ _ Q), (q_next _ _ Q3), (q_next _ _ Q).
      split_and!; try done. apply D3. injection K3 as _ K3 _. rewrite K3.
      change (job_promise job2) with (job_promise job1). rewrite Hp1. by rewrite Q3 in B.
    + simpl. rewrite (q_config _ _ Q), (q_next _ _ Q). split_and!; try done.
      unfold job_promise in Hp1. by rewrite Hp1.
Qed.

(** A running job takes the next address and the slot at the back of the free list. *)
Lemma inv_push cfg (w w' : t E) act slots slot job req rest :
  inv cfg (mkLoop w act slots (req :: rest)) → back slots = Some slot →
  config_ w' = config_ w → next_job_ (world_ w') = next_job_ (world_ w) + 1 →
  key job = (next_job_ (world_ w), req_result req, slot) →
  book w' (job_promise job :: (req_result <$> rest) ++ (job_promise <$> act)) →
  inv cfg (mkLoop w' (push_back act job) (pop_back slots) rest).
Proof.
  intros [I1 I2 I3 I4 I5 I6] Hs Hc Hn Hk B. simpl in *. unfold push_back.
  injection Hk as Kp Kq Ks. split; simpl; rewrite ?fmap_app; simpl.
  - congruence.
  - rewrite app_assoc. by rewrite Permutation_app_comm.
  - rewrite <- I3. rewrite (back_Some slots slot Hs) at 2. rewrite Ks.
    rewrite <- app_assoc. apply Permutation_app_head, Permutation_app_comm.
  - apply NoDup_app. split_and!; [done| |apply NoDup_singleton].
    intros p Hp Hin%list_elem_of_singleton. subst p. apply list_elem_of_fmap in Hp as (j & Hj & Hin).
    specialize (I5 j Hin). lia.
  - intros j. rewrite elem_of_app, list_elem_of_singleton. intros [Hj| ->]; [specialize (I5 j Hj)|]; lia.
  - rewrite length_app. simpl. lia.
Qed.

Lemma admit_loop_inv cfg (w : t E) act slots pend :
  inv cfg (mkLoop w act slots pend) →
  match admit_loop clock w act slots pend with
  | (Throw _, l') => ∃ held, book (sched l') held
  | (Ok _, l') => inv cfg l'
  end.
Proof.
  revert w act slots. induction pend as [|req pend IH]; intros w act slots I; simpl; [done|].
  destruct (back slots) as [slot|] eqn:Hs; [|done].
  pose proof (admit_one_spec w act slot req _ (inv_book _ _ I)) as A.
  destruct (admit_one clock w act slot req) as [[a|what] w1]; [|by eexists].
  destruct A as (A1 & A2 & A3). destruct I as [I1 I2 I3 I4 I5 I6]; simpl in *.
  assert (I5' : ∀ j, j ∈ act → job_ptr j < next_job_ (world_ w1))
    by (intros j Hj; specialize (I5 j Hj); lia).
  destruct a as [|r|job].
  - apply IH. split; simpl; try done; [congruence|lia].
  - destruct A3 as [_ A3]. split; simpl; try done. congruence.
  - destruct A3 as [A3 A4]. apply IH. eapply inv_push; [split|..]; simpl; try done.
Qed.

Lemma take_work_inv cfg (l : Loop E) pend w :
  inv cfg l →
  take_work (N.to_nat (max_batch_size (config_ (sched l)) - (len (pending l) + len (active l))))
    (sched l) (active l) (pending l) = (Some pend, w) →
  inv cfg (mkLoop w (active l) (free_slots l) pend).
Proof.
  intros [I1 I2 I3 I4 I5 I6] Et. pose proof (take_work_spec (N.to_nat
    (max_batch_size (config_ (sched l)) - (len (pending l) + len (active l)))) (sched l) (active l) (pending l)) as T.
  rewrite Et in T. destruct T as (T1 & T2 & T3 & T4 & T5). split; simpl; try done; [congruence|by apply T3| |].
  - intros j Hj. rewrite T2. auto.
  - unfold len in T5. rewrite I1 in T5. lia.
Qed.

Lemma iterate_inv cfg nb (l : Loop E) :
  inv cfg l → 0 < max_batch_size cfg →
  match iterate clock nb l with
  | (None, l') => inv cfg l'
  | (Some (Threw _), l') => ∃ held, book (sched l') held
  | (Some o, l') =>
      book (sched l') [] ∧ RequestQueue.queue_ (queue_ (sched l')) = [] ∧
      (o = Returned → RequestQueue.closed_ (queue_ (sched l')) = true)
  end.
Proof.
  intros I Hmax. unfold iterate. set (room := N.to_nat _).
  pose proof (take_work_spec room (sched l) (active l) (pending l)) as T.
  destruct (take_work _ _ _ _) as [[pend|] w] eqn:Et; simpl.
  2: { destruct T as (Ha & Hp & [_ _ _ _ _ T] & Hq & _). pose proof (inv_book _ _ I) as B.
       rewrite Ha, Hp in B. split_and!; [by apply T|done|done]. }
  destruct T as (T1 & T2 & T3 & T4 & T5).
  pose proof (take_work_inv cfg l pend w I Et) as I'.
  assert (G : match admit_loop clock w (active l) (free_slots l) pend with
    | (Throw what, l1) => ∃ held, book (sched l1) held
    | (Ok _, l1) => inv cfg (match active l1 with [] => l1 | _ => advance clock nb l1 end)
    end).
  { pose proof (admit_loop_inv cfg w _ _ _ I') as A. destruct (admit_loop _ _ _ _ _) as [[u|what] l1]; [|done].
    destruct (active l1) eqn:Ea; [done|]. by apply advance_inv. }
  destruct (admit_loop _ _ _ _ _) as [[u|what] l1] eqn:Eadm.
  - destruct (active l) as [|j0 act0] eqn:Ea; [destruct pend as [|r0 pend0] eqn:Ep|].
    + assert (Hroom : (0 < room)%nat).
      { unfold room. rewrite ?Ea, (inv_config _ _ I). unfold len. destruct (pending l); [simpl; lia|].
        simpl in T5. lia. }
      destruct (T4 eq_refl eq_refl Hroom) as [T4a T4b]. split_and!; try done. apply (inv_book _ _ I').
    + destruct (active l1); done.
    + destruct (active l1); done.
  - destruct (active l) as [|j0 act0] eqn:Ea; [destruct pend as [|r0 pend0] eqn:Ep|]; try done.
Qed.

Lemma run_loop_inv cfg fuel nb (l : Loop E) :
  inv cfg l → 0 < max_batch_size cfg →
  let (o, l') := run_loop clock fuel nb l in
  ∃ held, book (sched l') held ∧
    (o = Returned ∨ o = Blocked → held = [] ∧ RequestQueue.queue_ (queue_ (sched l')) = []) ∧
    (o = Returned → RequestQueue.closed_ (queue_ (sched l')) = true).
Proof.
  intros I Hmax. revert l I. induction fuel as [|fuel IH]; intros l I; simpl.
  { eexists. split_and!; [apply I|naive_solver|done]. }
  pose proof (iterate_inv cfg nb l I Hmax) as J. destruct (iterate clock nb l) as [[o|] l1]; [|by apply IH].
  destruct o; [|naive_solver|naive_solver|naive_solver].
  destruct J as (J1 & J2 & J3). exists []. split_and!; auto.
Qed.

Lemma init_inv (w : t E) : book w [] → inv (config_ w) (init w).
Proof.
  intros B. split; simpl; try done.
  - by rewrite app_nil_r.
  - constructor.
  - intros j Hj. by apply not_elem_of_nil in Hj.
  - lia.
Qed.

(** When the run returns, or waits for more work, everybody has been answered. *)
Lemma run_answers fuel (w : t E) :
  book w [] → 0 < max_batch_size (config_ w) →
  let (o, w') := run_continuous clock fuel w in
  (o = Returned ∨ o = Blocked → accepted_promises (world_ w') ≡ₚ answered (world_ w')) ∧
  (o = Returned → RequestQueue.closed_ (queue_ w') = true).
Proof.
  intros B Hmax. unfold run_continuous.
  pose proof (run_loop_inv (config_ w) fuel (n_batch (caps (engine_ w))) (init w) (init_inv w B) Hmax) as R.
  destruct (run_loop _ _ _ _) as [o l]. destruct R as (held & R1 & R2 & R3). split; [|done].
  intros Ho. destruct (R2 Ho) as [-> Hq]. unfold book, queued in R1. rewrite Hq in R1.
  by rewrite !app_nil_r in R1.
Qed.

(** C5: continuous batching never loses a request and never answers one twice.
    Whatever the engine does (exceptions included), whatever the HTTP threads do
    meanwhile and however the run ends, the promises the queue accepted are exactly
    those answered, those still queued and those the scheduler holds, or held when an
    exception ended it, each once.  When [run_continuous] returns, or waits for more work, it holds none and
    the queue is empty: every accepted request has been answered exactly once; it
    returns only once the queue is closed. *)
Theorem requests_conserved fuel (w : t E) :
  book w [] → 0 < max_batch_size (config_ w) →
  let (o, w') := run_continuous clock fuel w in
  ∃ held,
    accepted_promises (world_ w') ≡ₚ answered (world_ w') ++ queued w' ++ held ∧
    (NoDup (accepted_promises (world_ w')) → NoDup (answered (world_ w'))) ∧
    (o = Returned ∨ o = Blocked → accepted_promises (world_ w') ≡ₚ answered (world_ w')) ∧
    (o = Returned → RequestQueue.closed_ (queue_ w') = true).
Proof.
  intros B Hmax. pose proof (run_answers fuel w B Hmax) as A. unfold run_continuous in *.
  pose proof (run_loop_inv (config_ w) fuel (n_batch (caps (engine_ w))) (init w) (init_inv w B) Hmax) as R.
  destruct (run_loop _ _ _ _) as [o l]. destruct R as (held & R1 & _). destruct A as [A1 A2].
  exists held. split_and!; [done| |done|done].
  intros Hn. unfold book in R1. rewrite R1 in Hn. by apply NoDup_app in Hn as [? _].
Qed.

(** ** Sequence ids *)

Lemma elem_of_init_slots n z : z ∈ init_slots n ↔ (0 ≤ z < Z.of_nat n)%Z.
Proof.
  induction n as [|n IH]; cbn [init_slots]; [set_unfold; lia|]. rewrite elem_of_cons, IH. lia.
Qed.

Lemma NoDup_init_slots n : NoDup (init_slots n).
Proof.
  induction n as [|n IH]; cbn [init_slots]; constructor; [|done]. rewrite elem_of_init_slots. lia.
Qed.

Definition iterates (nb : N) : relation (Loop E) := λ l l', iterate clock nb l = (None, l').

Lemma iterates_inv cfg nb (l l' : Loop E) :
  rtc (iterates nb) l l' → 0 < max_batch_size cfg → inv cfg l → inv cfg l'.
Proof.
  intros R Hmax. induction R as [|l l1 l' St _ IH]; [done|]. intros I. apply IH.
  pose proof (iterate_inv cfg nb l I Hmax) as J. by rewrite St in J.
Qed.

(** The constructor never asks for more sequences than the engine has. *)
Lemma make_clamps (e : E) q cfg v :
  let w := make e q cfg v in
  0 < n_seq_max (caps e) < 2147483648 → 0 < max_batch_size cfg →
  0 < max_batch_size (config_ w) ≤ n_seq_max (caps e) ∧
  PrefixCache.first_donor_slot_ (prefix_cache_ w) = Z.of_N (max_batch_size (config_ w)) ∧
  max_batch_size (config_ w) + PrefixCache.donor_capacity_ (prefix_cache_ w) ≤ n_seq_max (caps e).
Proof.
  intros w Hs Hb. unfold w, make. simpl. rewrite (proj2 (N.ltb_lt 0 _)) by lia. simpl.
  set (batch := if _ <? _ then _ else _).
  assert (Hbatch : 0 < batch ≤ n_seq_max (caps e))
    by (unfold batch; destruct (N.ltb_spec (n_seq_max (caps e)) (max_batch_size cfg)); lia).
  rewrite (proj2 (N.eqb_neq batch 0)) by lia. rewrite to_i32_small, wrap32_small by lia.
  split_and!; try lia; try done.
  destruct (prefix_caching cfg); [|simpl; lia]. destruct (0 <? prefix_donors cfg) eqn:Ed; bool_hyps; [|lia].
  destruct (N.ltb_spec batch (n_seq_max (caps e))), (N.ltb_spec (n_seq_max (caps e) - batch) (prefix_donors cfg));
    try lia.
  all: destruct (0 <? prefix_donors cfg) eqn:E0; bool_hyps; lia.
Qed.

(** ** Donor slots

    No step of the scheduler makes up a donor slot: those in sight are among those that
    were. *)
Definition sheds (w w' : t E) : Prop :=
  PrefixCache.donor_ids (prefix_cache_ w') ⊆+ PrefixCache.donor_ids (prefix_cache_ w).

#[local] Instance sheds_preorder : PreOrder sheds.
Proof. split; [intros w; unfold sheds; done|intros w1 w2 w3 H1 H2; unfold sheds in *; by etrans]. Qed.

Lemma sheds_same (w w' : t E) : prefix_cache_ w' = prefix_cache_ w → sheds w w'.
Proof. unfold sheds. by intros ->. Qed.

Lemma reclaim_donor_blocks_sheds (w : t E) : sheds w (reclaim_donor_blocks w).2.
Proof.
  unfold reclaim_donor_blocks, sheds. pose proof (PrefixCache.evict_lru_ids (prefix_cache_ w)) as Hl.
  by destruct (PrefixCache.evict_lru_retained _) as [[]].
Qed.

Lemma find_donor_slot_sheds (w : t E) :
  option_list (find_donor_slot w).1 ++ PrefixCache.donor_ids (prefix_cache_ (find_donor_slot w).2)
    ⊆+ PrefixCache.donor_ids (prefix_cache_ w).
Proof.
  unfold find_donor_slot. pose proof (PrefixCache.take_donor_slot_ids (prefix_cache_ w)) as Ht.
  destruct (PrefixCache.take_donor_slot _) as [[slot|] c]; simpl; [by rewrite Ht|].
  pose proof (PrefixCache.evict_lru_ids (prefix_cache_ w)) as Hl. destruct (PrefixCache.evict_lru_retained _) as [[e|] c1]; [|done]. simpl in *.
  pose proof (PrefixCache.take_donor_slot_ids c1) as Ht1. destruct (PrefixCache.take_donor_slot c1) as [[slot|] c2]; simpl in *.
  - by rewrite <- Ht1.
  - by rewrite Ht1.
Qed.

Lemma retain_prefix_sheds (w : t E) job : sheds w (retain_prefix w job).
Proof.
  unfold retain_prefix. destruct (_ || _); [done|]. destruct (_ =? _); [done|]. destruct (_ <? _); [done|].
  pose proof (find_donor_slot_sheds w) as F. destruct (find_donor_slot w) as [[slot|] w1]; simpl in F; [|done].
  assert (Ab : ∀ e, sheds w (abandon_donor (set_engine w1 e) slot)).
  { intros e. unfold sheds. simpl. etrans; [apply PrefixCache.evict_sequence_ids|]. etrans; [|exact F]. by apply submseteq_cons. }
  destruct (begin_sequence _ _ _) as [[u|what] e]; [|apply Ab]. destruct (copy_sequence _ _ _ _) as [[u'|what] e']; [|apply Ab].
  unfold sheds. simpl. etrans; [apply PrefixCache.insert_ids|exact F].
Qed.

Lemma finish_job_cache (w : t E) job : prefix_cache_ (finish_job w job).1 = prefix_cache_ w.
Proof. unfold finish_job. by destruct (SequenceState.finish _ _). Qed.

Lemma deliver_cache (w : t E) job : prefix_cache_ (deliver clock w job) = prefix_cache_ w.
Proof. unfold deliver. by destruct (RequestTiming.finished _). Qed.

Lemma retire_sheds (w : t E) job : sheds w (retire clock w job).
Proof.
  unfold retire. pose proof (finish_job_cache w job) as Hf. destruct (finish_job w job) as [w1 job1]. simpl in Hf.
  set (w2 := set_cache w1 _). transitivity w2.
  { unfold sheds. simpl. rewrite Hf. apply PrefixCache.evict_sequence_ids. }
  transitivity (retain_prefix w2 job1); [apply retain_prefix_sheds|]. destruct (release_blocks _ _) as [w4 job2] eqn:Er.
  apply sheds_same. rewrite deliver_cache. simpl. unfold release_blocks, BlockTable.release in Er. by injection Er as <- _.
Qed.

Lemma sweep_sheds (w : t E) slots act : sheds w (sweep clock w slots act).1.1.
Proof.
  revert w slots. induction act as [|job act IH]; intros w slots; cbn [sweep]; [done|]. destruct (job_finished job).
  - etrans; [apply retire_sheds|apply IH].
  - specialize (IH w slots). by destruct (sweep _ _ _ _) as [[w' slots'] act'].
Qed.

Lemma sweep_all_sheds (l : Loop E) : sheds (sched l) (sched (sweep_all clock l)).
Proof.
  unfold sweep_all. pose proof (sweep_sheds (sched l) (free_slots l) (active l)) as S. by destruct (sweep _ _ _ _) as [[w slots] act].
Qed.

Lemma accept_one_sheds (w : t E) job step : sheds w (accept_one w job step).2.1.
Proof.
  unfold accept_one. destruct (accept_job_spec w job step) as (_ & _ & _ & _ & Hc). simpl in Hc.
  destruct (accept_job w job step) as [[] [w1 job1]]; simpl in Hc.
  - destruct (BlockTable.ensure_capacity _ _ _) as [[ok a] tb]. destruct ok; [|by apply sheds_same].
    unfold publish. destruct (_ && _); [|by apply sheds_same]. destruct (_ && _); [|by apply sheds_same].
    unfold sheds. simpl. rewrite <- Hc. etrans; [apply PrefixCache.insert_ids|done].
  - pose proof (finish_job_cache w1 job1) as Hf. destruct (finish_job w1 job1) as [w2 job2]. apply sheds_same. simpl in *. congruence.
Qed.

Lemma stamp_first_cache (w : t E) job : prefix_cache_ (stamp_first clock w job).1 = prefix_cache_ w.
Proof. unfold stamp_first. by destruct (RequestTiming.first_token _). Qed.

Lemma accept_loop_sheds (w : t E) act steps k ptrs short : sheds w (accept_loop clock w act steps k ptrs short).2.1.1.
Proof.
  revert w act k short. induction ptrs as [|p ptrs IH]; intros w act k short; cbn [accept_loop]; [done|].
  destruct (find_job p act) as [job|]; [|apply IH]. pose proof (stamp_first_cache w job) as Hs.
  destruct (stamp_first clock w job) as [w1 job1]. simpl in Hs. apply sheds_same in Hs. etrans; [exact Hs|].
  destruct (steps !! k) as [step|]; [|done]. pose proof (accept_one_sheds w1 job1 step) as Ha.
  destruct (accept_one w1 job1 step) as [starved [w2 job2]]. etrans; [exact Ha|apply IH].
Qed.

Lemma decode_accept_sheds nb (w : t E) act : sheds w (decode_accept clock nb w act).1.1.
Proof.
  unfold decode_accept. destruct (build_batch _ _ _) as [b act1]. destruct (items b); [done|].
  destruct (decode _ _) as [[steps|what] e]; [|by apply sheds_same].
  pose proof (accept_loop_sheds (set_engine w e) act1 steps 0 (sampling b) []) as Ha.
  by destruct (accept_loop _ _ _ _ _ _ _) as [[u|what] [[w2 act2] short]].
Qed.

Lemma grow_job_cache (l : Loop E) p n : prefix_cache_ (sched (grow_job l p n).2) = prefix_cache_ (sched l).
Proof. unfold grow_job. destruct (find_job p _); [|done]. by destruct (BlockTable.ensure_capacity _ _ _) as [[ok a] tb]. Qed.

Lemma grow_by_donors_sheds n (l : Loop E) p needed : sheds (sched l) (sched (grow_by_donors n l p needed)).
Proof.
  revert l. induction n as [|n IH]; intros l; simpl; [done|]. pose proof (sheds_same _ _ (grow_job_cache l p needed)) as Hg.
  destruct (grow_job l p needed) as [[] l1]; [exact Hg|]. simpl in Hg. etrans; [exact Hg|].
  pose proof (reclaim_donor_blocks_sheds (sched l1)) as Hr. destruct (reclaim_donor_blocks (sched l1)) as [[] w]; [|done].
  etrans; [exact Hr|]. apply (IH (mkLoop w _ _ _)).
Qed.

Lemma preempt_one_sheds (l : Loop E) except : sheds (sched l) (sched (preempt_one l except).2).
Proof.
  unfold preempt_one. destruct (pick_victim _ _) as [[job rest]|]; [|done]. unfold release_blocks, BlockTable.release, sheds. simpl.
  apply PrefixCache.evict_sequence_ids.
Qed.

Lemma grow_by_preempting_sheds n (l : Loop E) p needed : sheds (sched l) (sched (grow_by_preempting n l p needed)).
Proof.
  revert l. induction n as [|n IH]; intros l; simpl; [done|]. pose proof (sheds_same _ _ (grow_job_cache l p needed)) as Hg.
  destruct (grow_job l p needed) as [[] l1]; [exact Hg|]. simpl in Hg. etrans; [exact Hg|].
  pose proof (preempt_one_sheds l1 (Some p)) as Hr. destruct (preempt_one l1 (Some p)) as [[] l2]; [|done]. etrans; [exact Hr|apply IH].
Qed.

Lemma resolve_sheds (l : Loop E) short : sheds (sched l) (sched (resolve l short)).
Proof.
  unfold resolve. revert l. induction short as [|p short IH]; intros l; [done|]. simpl. etrans; [|apply IH].
  unfold resolve_one. destruct (find_job p (active l)) as [job|]; [|done]. destruct (_ <? _).
  - set (job1 := fail_job _ _ _). pose proof (finish_job_cache (sched l) job1) as Hf. destruct (finish_job _ _) as [w1 job2]. by apply sheds_same.
  - etrans; [apply grow_by_donors_sheds|apply grow_by_preempting_sheds].
Qed.

Lemma advance_sheds nb (l : Loop E) : sheds (sched l) (sched (advance clock nb l)).
Proof.
  unfold advance. pose proof (decode_accept_sheds nb (sched l) (active l)) as Hd.
  destruct (decode_accept _ _ _ _) as [[w act] short]. etrans; [exact Hd|]. set (l1 := mkLoop w act _ _).
  etrans; [apply (sweep_all_sheds l1)|]. etrans; [apply resolve_sheds|]. apply sweep_all_sheds.
Qed.

Lemma reserve_sheds (w : t E) act job : sheds w (reserve w act job).2.1.
Proof.
  assert (Hr : ∀ n target w0, sheds w0 (reclaim_until n target w0)).
  { induction n as [|n IH]; intros target w0; simpl; [done|]. destruct (_ <? _); [|done].
    pose proof (reclaim_donor_blocks_sheds w0) as R. destruct (reclaim_donor_blocks w0) as [[] w1]; [|done]. etrans; [exact R|apply IH]. }
  unfold reserve. set (target := add32 _ _). specialize (Hr (donor_bound w) target w). set (w1 := reclaim_until _ _ _) in *.
  destruct (job_finished job); [done|]. destruct (_ <=? _); [|done]. by destruct (BlockTable.ensure_capacity _ _ _) as [[ok a] tb].
Qed.

Lemma share_prefix_sheds (w : t E) job : sheds w (share_prefix w job).2.
Proof.
  unfold share_prefix. destruct (_ && _); [|done].
  match goal with |- context [PrefixCache.find_longest ?c ?ts ?b] =>
    pose proof (PrefixCache.find_longest_ids c ts b) as Hf; destruct (PrefixCache.find_longest c ts b) as [[hit|] c'] end; [|done].
  destruct (_ =? _)%Z; [done|]. destruct (copy_sequence _ _ _ _) as [[u|what] e]; [|done].
  by destruct (BlockTable.adopt_shared_prefix _ _ _ _).
Qed.

Lemma make_job_cache (w : t E) req slot : prefix_cache_ (make_job w req slot).2 = prefix_cache_ w.
Proof.
  unfold make_job. destruct (new_ptr w) as [ptr w1] eqn:En. destruct (match req_sink req with Some k => (k, w1) | None => _ end) as [sink w2] eqn:Es.
  assert (Hc : prefix_cache_ w2 = prefix_cache_ w).
  { injection En as _ <-. by destruct (req_sink req); injection Es as _ <-. }
  destruct (tokenize _ _ _) as [prompt e1]. by destruct (begin_sequence _ _ _) as [[u|what] e2].
Qed.

Lemma admit_one_sheds (w : t E) act slot req : sheds w (admit_one clock w act slot req).2.
Proof.
  unfold admit_one. pose proof (sheds_same _ _ (make_job_cache w req slot)) as Hm. destruct (make_job w req slot) as [[job|what] w1]; [|done].
  simpl in Hm. etrans; [exact Hm|]. pose proof (reserve_sheds w1 act job) as Hr. destruct (reserve w1 act job) as [[] [w2 job1]]; (etrans; [exact Hr|]).
  - pose proof (share_prefix_sheds w2 job1) as Hs. by destruct (share_prefix w2 job1) as [[job2|what] w3].
  - destruct act; [|by apply sheds_same]. set (job2 := fail_job _ _ _). pose proof (finish_job_cache w2 job2) as Hf. destruct (finish_job w2 job2) as [w3 job3].
    apply sheds_same. simpl in *. by rewrite deliver_cache.
Qed.

Lemma admit_loop_sheds (w : t E) act slots pend : sheds w (sched (admit_loop clock w act slots pend).2).
Proof.
  revert w act slots. induction pend as [|req pend IH]; intros w act slots; cbn [admit_loop]; [done|].
  destruct (back slots) as [slot|]; [|done]. pose proof (admit_one_sheds w act slot req) as Ha.
  destruct (admit_one clock w act slot req) as [[[|r|job]|what] w1]; try done; (etrans; [exact Ha|apply IH]).
Qed.

Lemma take_work_cache n (w : t E) act pend : prefix_cache_ (take_work n w act pend).2 = prefix_cache_ w.
Proof.
  assert (Pw : ∀ m w1, prefix_cache_ (pop_wait m w1 : _ * t E).2 = prefix_cache_ w1).
  { induction m as [|m IH]; intros w1; cbn [pop_wait]; destruct (sync_frame w1) as (_ & _ & Hs);
      destruct (RequestQueue.pop _) as [[]|]; simpl; try done. by rewrite IH. }
  assert (Tp : ∀ w1 : t E, prefix_cache_ (try_pop w1).2 = prefix_cache_ w1).
  { intros w1. unfold try_pop. destruct (sync_frame w1) as (_ & _ & Hs). by destruct (RequestQueue.try_pop _). }
  revert w pend. induction n as [|n IH]; intros w pend; cbn [take_work]; [done|].
  pose proof (Pw (length (script_ (world_ w))) w) as Ep. fold (pop w) in Ep. specialize (Tp w).
  destruct act as [|a act], pend as [|r pend]; [destruct (pop w) as [[[req|]|] w1]|destruct (try_pop w) as [[req|] w1]..];
    simpl in *; try done; by rewrite IH.
Qed.

Lemma iterates_sheds nb (l l' : Loop E) : rtc (iterates nb) l l' → sheds (sched l) (sched l').
Proof.
  induction 1 as [|l l1 l' St _ IH]; [done|]. etrans; [|exact IH]. unfold iterates, iterate in St.
  pose proof (take_work_cache (N.to_nat (max_batch_size (config_ (sched l)) - (len (pending l) + len (active l)))) (sched l) (active l) (pending l)) as Ht.
  destruct (take_work _ _ _ _) as [[pend|] w]; [|done]. simpl in Ht. apply sheds_same in Ht. etrans; [exact Ht|].
  pose proof (admit_loop_sheds w (active l) (free_slots l) pend) as Ha.
  destruct (active l) as [|j act], pend as [|r pend']; [done|..];
    (destruct (admit_loop _ _ _ _ _) as [[u|what] l2]; [|done]); (etrans; [exact Ha|]);
    (destruct (active l2); injection St as <-; [done|apply advance_sheds]).
Qed.

(** C10: sequence ids stay inside what the engine was built for and never collide.
    For a scheduler built with a positive batch size on an engine with [n_seq_max]
    sequences, whatever number of donors was configured: at the start of every iteration
    the running sequences have distinct ids in [\[0, max_batch_size)], the ids not in
    use are exactly the free list, at most [max_batch_size] requests are held, and the
    slots of the donors and those kept for donors are distinct, lie above all of these
    and below [n_seq_max]. *)
Theorem sequence_ids_safe (e : E) q cfg v nb (l : Loop E) :
  let w := make e q cfg v in
  0 < n_seq_max (caps e) < 2147483648 → 0 < max_batch_size cfg → book w [] →
  rtc (iterates nb) (init w) l →
  NoDup (free_slots l ++ (job_seq <$> active l)) ∧
  (∀ s, s ∈ free_slots l ++ (job_seq <$> active l) ↔
        (0 ≤ s < Z.of_N (max_batch_size (config_ w)))%Z) ∧
  max_batch_size (config_ w) ≤ n_seq_max (caps e) ∧
  len (pending l) + len (active l) ≤ max_batch_size (config_ w) ∧
  let donors := PrefixCache.free_donor_slots_ (prefix_cache_ (sched l)) ++
                (PrefixCache.e_seq <$> PrefixCache.retained (prefix_cache_ (sched l))) in
  NoDup donors ∧
  (∀ s, s ∈ donors → (Z.of_N (max_batch_size (config_ w)) ≤ s < Z.of_N (n_seq_max (caps e)))%Z).
Proof.
  intros w Hs Hb B R. destruct (make_clamps e q cfg v Hs Hb) as (C1 & C2 & C3). fold w in C1, C2, C3.
  pose proof (iterates_inv (config_ w) nb _ _ R ltac:(lia) (init_inv w B)) as [I1 I2 I3 I4 I5 I6].
  pose proof (iterates_sheds nb _ _ R) as Sh. change (sched (init w)) with w in Sh.
  assert (H0 : PrefixCache.donor_ids (prefix_cache_ w) =
    PrefixCache.donor_slots (PrefixCache.first_donor_slot_ (prefix_cache_ w)) (N.to_nat (PrefixCache.donor_capacity_ (prefix_cache_ w)))).
  { unfold PrefixCache.donor_ids, PrefixCache.retained. simpl. rewrite map_to_list_empty. simpl. by rewrite app_nil_r. }
  unfold sheds in Sh. rewrite H0, C2 in Sh. cbv zeta.
  split_and!; try lia.
  - rewrite I3. apply NoDup_init_slots.
  - intros s. rewrite I3, elem_of_init_slots. lia.
  - unfold len. lia.
  - destruct (submseteq_Permutation _ _ Sh) as [k Hk].
    pose proof (PrefixCache.donor_slots_NoDup (Z.of_N (max_batch_size (config_ w))) (N.to_nat (PrefixCache.donor_capacity_ (prefix_cache_ w)))) as Hn.
    rewrite Hk in Hn. apply NoDup_app in Hn as [Hn _]. exact Hn.
  - intros s Hin. eapply elem_of_submseteq in Hin; [|exact Sh]. apply PrefixCache.elem_of_donor_slots in Hin. lia.
Qed.

End Engine.

Lemma requests_conserved_witness :
  let r := run_continuous demo_clock 100 (demo kContinuous) in
  r.1 = Returned ∧ accepted_promises (world_ r.2) ≡ₚ answered (world_ r.2) ∧
  length (answered (world_ r.2)) = 3%nat.
Proof.
  intros r. assert (Hr : r.1 = Returned) by (vm_compute; reflexivity).
  pose proof (requests_conserved demo_clock 100 (demo kContinuous) (book_demo _ _) eq_refl) as R.
  fold r in R. destruct r as [o w'] eqn:Er. destruct R as (held & _ & _ & R & _).
  split_and!; [exact Hr|apply R; left; exact Hr|].
  replace w' with (run_continuous demo_clock 100 (demo kContinuous)).2 by (fold r; by rewrite Er).
  vm_compute. reflexivity.
Defined.

Lemma sequence_ids_safe_witness :
  let l := (iterate demo_clock 16 (init (demo kContinuous))).2 in
  length (active l) = 2%nat ∧ NoDup (free_slots l ++ (job_seq <$> active l)).
Proof.
  intros l. split; [vm_compute; reflexivity|].
  apply (sequence_ids_safe demo_clock demo_engine (RequestQueue.make 8) (plain_config kContinuous)
           (demo_env demo_script) 16 l); [vm_compute; done|vm_compute; done|apply book_demo|].
  apply rtc_once. unfold iterates, l. rewrite (surjective_pairing (iterate _ _ _)). by f_equal.
Defined.
