(* ===== verification/Batching.v ===== *)
(** The mixed batch of continuous batching: [build_batch] respects the token
    budget, serves decodes first, always makes progress, and pairs every sampled
    token with the job that asked for it. *)
From Stdlib Require Import Permutation Lia.
From stdpp Require Import base list gmap strings.
From S2P Require Import Prelude Types Blocks Tables Prefix Timing Engine Sinks Sequence Mock Queue Scheduler Continuous Demo Conservation.

Local Open Scope N_scope.

Import Scheduler Continuous.

(** The tokens a batch submits. *)
Definition batch_tokens (its : list BatchItem) : N := fold_right N.add 0 ((λ i, len (item_tokens i)) <$> its).

Lemma batch_tokens_app its its' : batch_tokens (its ++ its') = batch_tokens its + batch_tokens its'.
Proof.
  unfold batch_tokens. rewrite fmap_app. induction (_ <$> its) as [|n l IH]; simpl; [done|]. lia.
Qed.

Lemma batch_tokens_cons i its : batch_tokens (i :: its) = len (item_tokens i) + batch_tokens its.
Proof. done. Qed.

(** A job that generates: it takes one token of every batch. *)
Definition decoding (j : Job) : Prop := job_finished j = false ∧ job_prefilling j = false.

#[export] Instance decoding_dec j : Decision (decoding j).
Proof. apply _. Defined.

Lemma decoding_test j : job_finished j || job_prefilling j = false ↔ decoding j.
Proof. unfold decoding. rewrite orb_false_iff. done. Qed.

Lemma build_decodes_spec act budget :
  let (b, rest) := build_decodes act budget in
  let chosen := take (N.to_nat budget) (filter decoding act) in
  items b = (λ j, SequenceState.decode_item (job_state j)) <$> chosen ∧
  sampling b = job_ptr <$> chosen ∧ rest = budget - len chosen.
Proof.
  revert budget. induction act as [|j act IH]; intros budget; cbn [build_decodes].
  { rewrite filter_nil, take_nil. simpl. split_and!; try done. unfold len. simpl. lia. }
  destruct (job_finished j || job_prefilling j) eqn:Ed.
  - rewrite filter_cons_False; [apply IH|]. intros Hd%decoding_test. congruence.
  - rewrite filter_cons_True by (by apply decoding_test). destruct (budget =? 0) eqn:E0; bool_hyps.
    + subst. simpl. done.
    + specialize (IH (budget - 1)). destruct (build_decodes act (budget - 1)) as [b rest].
      destruct IH as (-> & -> & ->).
      replace (N.to_nat budget) with (S (N.to_nat (budget - 1))) by lia. simpl.
      rewrite len_cons. split_and!; try done. lia.
Qed.

(** How a prefill chunk changes a job. *)
Definition advanced (cap : N) (j j' : Job) : Prop :=
  j' = j ∨ ∃ n, 0 < n ≤ cap ∧ n ≤ SequenceState.prefill_remaining (job_state j) ∧
    j' = set_state j (SequenceState.set_prefilled (job_state j) (SequenceState.prefilled_ (job_state j) + n)).

Lemma chunk_len s n :
  n ≤ SequenceState.prefill_remaining s →
  len (item_tokens (SequenceState.take_prefill_chunk s n).1) = n ∧
  SequenceState.take_prefill_chunk s n
    = ((SequenceState.take_prefill_chunk s n).1, SequenceState.set_prefilled s (SequenceState.prefilled_ s + n)).
Proof.
  intros Hn. unfold SequenceState.take_prefill_chunk. rewrite (N.min_l _ _ Hn). simpl.
  unfold SequenceState.prefill_remaining in Hn. split; [|done].
  unfold len in *. rewrite length_take, length_drop. lia.
Qed.

(** The sampling jobs of a batch, in the order of its sampling items. *)
Definition paired (act : list Job) (ptrs : list N) (its : list BatchItem) : Prop :=
  Forall2 (λ p i, ∃ j, j ∈ act ∧ job_ptr j = p ∧ job_seq j = item_seq i ∧ job_finished j = false)
    ptrs (sampled its).

Lemma paired_app act p1 p2 i1 i2 : paired act p1 i1 → paired act p2 i2 → paired act (p1 ++ p2) (i1 ++ i2).
Proof. unfold paired, sampled. rewrite filter_app. apply Forall2_app. Qed.

Lemma paired_mono act act' p i : (∀ j, j ∈ act → j ∈ act') → paired act p i → paired act' p i.
Proof. intros Hs Hp. eapply Forall2_impl; [exact Hp|]. intros ?? (j & ? & ?). exists j. auto. Qed.

Lemma build_prefills_spec act budget cap :
  let (b, act') := build_prefills act budget cap in
  batch_tokens (items b) ≤ budget ∧
  Forall (λ i, 0 < len (item_tokens i) ≤ cap) (items b) ∧
  Forall2 (advanced cap) act act' ∧
  paired act (sampling b) (items b) ∧
  (0 < budget → 0 < cap → Exists (λ j, job_finished j = false ∧ job_prefilling j = true) act → items b ≠ []).
Proof.
  revert budget. induction act as [|j act IH]; intros budget; cbn [build_prefills].
  { split_and!; try constructor; [apply N.le_0_l|]. intros _ _ He. inversion He. }
  assert (Hskip : job_finished j || negb (job_prefilling j) || (budget =? 0) = true ∨ cap = 0 →
    let (b, rest') := build_prefills act budget cap in
    batch_tokens (items b) ≤ budget ∧
    Forall (λ i, 0 < len (item_tokens i) ≤ cap) (items b) ∧
    Forall2 (advanced cap) (j :: act) (j :: rest') ∧ paired (j :: act) (sampling b) (items b) ∧
    (0 < budget → 0 < cap →
     Exists (λ j, job_finished j = false ∧ job_prefilling j = true) (j :: act) → items b ≠ [])).
  { intros Hs. specialize (IH budget). destruct (build_prefills act budget cap) as [b rest'].
    destruct IH as (H1 & H2 & H3 & H4 & H5). split_and!; try done.
    - constructor; [by left|done].
    - eapply paired_mono; [|exact H4]. set_solver.
    - intros Hb Hc He. apply Exists_cons in He as [[Hf Hp]|He]; [|by apply H5].
      exfalso. destruct Hs as [Hs|Hs]; [|lia]. rewrite Hf, Hp in Hs. simpl in Hs. bool_hyps. lia. }
  destruct (job_finished j || negb (job_prefilling j) || (budget =? 0)) eqn:Es.
  { specialize (Hskip (or_introl eq_refl)). by destruct (build_prefills act budget cap). }
  bool_hyps. set (n := N.min budget _).
  assert (Hrem : 0 < SequenceState.prefill_remaining (job_state j)) by (apply N.ltb_lt; done).
  destruct (n =? 0) eqn:En; bool_hyps.
  { assert (cap = 0) by lia. specialize (Hskip (or_intror ltac:(done))).
    by destruct (build_prefills act budget cap). }
  destruct (chunk_len (job_state j) n ltac:(lia)) as [Hl Hc].
  set (i := (SequenceState.take_prefill_chunk (job_state j) n).1) in *.
  assert (Hseq : item_seq i = job_seq j) by done. rewrite Hc, Hl. clearbody i. clear Hc.
  specialize (IH (budget - n)). destruct (build_prefills act (budget - n) cap) as [b rest'].
  destruct IH as (J1 & J2 & J3 & J4 & J5). simpl. split_and!.
  - rewrite batch_tokens_cons. lia.
  - constructor; [lia|done].
  - constructor; [|done]. right. exists n. split_and!; try done; lia.
  - assert (K4 : paired (j :: act) (sampling b) (items b)) by (eapply paired_mono; [|exact J4]; set_solver).
    unfold paired, sampled in *. destruct (item_sample i) eqn:Ei.
    + rewrite filter_cons_True by done. constructor; [|done]. exists j. split_and!; try done. set_solver.
    + rewrite filter_cons_False by congruence. done.
  - done.
Qed.

(** Everything about the batch that the theorems below use. *)
Lemma build_batch_spec nb chunk act :
  let cap := if chunk =? 0 then nb else chunk in
  let chosen := take (N.to_nat nb) (filter decoding act) in
  let (b, act') := build_batch nb chunk act in
  ∃ prefills,
    items b = ((λ j, SequenceState.decode_item (job_state j)) <$> chosen) ++ prefills ∧
    len chosen + batch_tokens prefills ≤ nb ∧
    Forall (λ i, 0 < len (item_tokens i) ≤ cap) prefills ∧
    Forall2 (advanced cap) act act' ∧
    paired act (sampling b) (items b) ∧
    (0 < nb → Exists (λ j, job_finished j = false) act → items b ≠ []).
Proof.
  intros cap chosen. unfold build_batch. pose proof (build_decodes_spec act nb) as D.
  destruct (build_decodes act nb) as [d budget]. fold chosen in D. destruct D as (D1 & D2 & D3).
  fold cap. pose proof (build_prefills_spec act budget cap) as P.
  destruct (build_prefills act budget cap) as [p act']. destruct P as (P1 & P2 & P3 & P4 & P5).
  exists (items p). simpl. rewrite D1, D2.
  assert (Hlen : len chosen ≤ nb) by (unfold chosen, len; rewrite length_take; lia).
  split_and!; try done; [lia| |].
  - apply paired_app; [|done]. unfold paired, sampled.
    assert (Hall : Forall (λ j, j ∈ act ∧ decoding j) chosen).
    { apply Forall_forall. intros j Hj. apply elem_of_take in Hj as (i & Hi & _).
      apply list_elem_of_lookup_2, list_elem_of_filter in Hi. tauto. }
    clear -Hall. induction Hall as [|j l [Hj [Hf _]] _ IH]; simpl; [constructor|].
    rewrite filter_cons_True by done. constructor; [|done]. by exists j.
  - intros Hnb He. destruct (decide (len chosen = 0)) as [H0|H0].
    2: { intros [Hn%fmap_nil_inv _]%app_nil. by rewrite Hn in H0. }
    apply len_0 in H0 as Ec. rewrite Ec. simpl. apply P5.
    + lia.
    + unfold cap. destruct (chunk =? 0) eqn:E0; bool_hyps; lia.
    + apply Exists_exists in He as (j & Hj & Hf). apply Exists_exists. exists j. split_and!; try done.
      destruct (job_prefilling j) eqn:Hp; [done|]. exfalso.
      assert (Hin : j ∈ filter decoding act) by (apply list_elem_of_filter; done).
      unfold chosen in Ec. destruct (filter decoding act) as [|x l]; [set_solver|].
      destruct (N.to_nat nb) eqn:Enb; [lia|done].
Qed.

Lemma decode_items_tokens (js : list Job) :
  batch_tokens ((λ j, SequenceState.decode_item (job_state j)) <$> js) = len js.
Proof.
  induction js as [|j l IH]; [done|].
  rewrite fmap_cons, batch_tokens_cons, len_cons, IH. simpl. unfold len at 1. simpl. lia.
Qed.

Lemma build_batch_fits nb chunk act : batch_tokens (items (build_batch nb chunk act).1) ≤ nb.
Proof.
  pose proof (build_batch_spec nb chunk act) as B. destruct (build_batch nb chunk act) as [b act'].
  destruct B as (ps & Hi & Hb & _). cbn [fst]. by rewrite Hi, batch_tokens_app, decode_items_tokens.
Qed.

(** C14: every batch of continuous batching fits the engine, serves generation
    first and makes progress.  For any jobs, the batch holds first one token for
    each generating sequence, in admission order and as many as [n_batch] allows,
    then prompt chunks; in total it never exceeds [n_batch] tokens, no chunk is
    longer than [prefill_chunk] (unlimited when that is 0), every sequence either
    stays as it was or has its prefill mark moved by one such chunk; and whenever
    some sequence is unfinished and [n_batch] is positive the batch is not empty. *)
Theorem batch_budget nb chunk act :
  let cap := if chunk =? 0 then nb else chunk in
  let chosen := take (N.to_nat nb) (filter decoding act) in
  let (b, act') := build_batch nb chunk act in
  batch_tokens (items b) ≤ nb ∧
  (∃ prefills,
     items b = ((λ j, SequenceState.decode_item (job_state j)) <$> chosen) ++ prefills ∧
     Forall (λ i, 0 < len (item_tokens i) ≤ cap) prefills) ∧
  Forall2 (advanced cap) act act' ∧
  (0 < nb → Exists (λ j, job_finished j = false) act → items b ≠ []).
Proof.
  intros cap chosen. pose proof (build_batch_spec nb chunk act) as B. fold cap chosen in B. cbv zeta in B.
  destruct (build_batch nb chunk act) as [b act']. destruct B as (ps & B1 & B2 & B3 & B4 & _ & B5).
  split_and!; try done; [|by exists ps]. rewrite B1, batch_tokens_app, decode_items_tokens. done.
Qed.

(** ** Every token reaches the job that asked for it *)

Lemma find_job_elem j act : NoDup (job_ptr <$> act) → j ∈ act → find_job (job_ptr j) act = Some j.
Proof.
  induction act as [|x act IH]; intros Hn Hj; [by apply not_elem_of_nil in Hj|]. simpl.
  apply NoDup_cons in Hn as [Hx Hn]. apply elem_of_cons in Hj as [->|Hj]; [by rewrite N.eqb_refl|].
  destruct (job_ptr x =? job_ptr j) eqn:Ex; bool_hyps; [|by apply IH].
  destruct Hx. rewrite Ex. by apply list_elem_of_fmap_2.
Qed.

(** Every item of a built batch submits a token, so the engine owes a step for each
    that samples. *)
Lemma build_batch_sampled nb chunk act : samples_from_tokens (items (build_batch nb chunk act).1).
Proof.
  pose proof (build_batch_spec nb chunk act) as B. destruct (build_batch nb chunk act) as [b act'].
  destruct B as (ps & Hi & _ & Hps & _). cbn [fst]. rewrite Hi. unfold samples_from_tokens.
  apply Forall_app. split.
  - apply Forall_fmap, Forall_true. done.
  - eapply Forall_impl; [exact Hps|]. cbv beta. intros i [Hl _] _ En. rewrite En in Hl. by apply N.lt_irrefl in Hl.
Qed.

Lemma advanced_elem cap act act' j :
  Forall2 (advanced cap) act act' → j ∈ act →
  ∃ j', j' ∈ act' ∧ key j' = key j ∧ job_finished j' = job_finished j.
Proof.
  induction 1 as [|x x' act act' Hx _ IH]; intros Hj; [by apply not_elem_of_nil in Hj|].
  apply elem_of_cons in Hj as [->|Hj].
  - exists x'. split; [set_solver|]. by destruct Hx as [->|(n & _ & _ & ->)].
  - destruct (IH Hj) as (j' & ? & ?). exists j'. split; [set_solver|done].
Qed.

(** C39: a prompt that tokenizes to nothing is decoded from garbage.  A job whose prompt
    has no tokens has nothing to prefill, so the first batch it joins treats it as
    already generating: it submits token 0, which no one sampled, at position -1. *)
Theorem empty_prompt_decodes_garbage nb chunk act j q spec :
  j ∈ act → job_state j = SequenceState.make q spec [] → len act ≤ nb →
  mkItem q [0%Z] (-1)%Z true ∈ items (build_batch nb chunk act).1.
Proof.
  intros Hj Hs Hl. pose proof (build_batch_spec nb chunk act) as B.
  destruct (build_batch nb chunk act) as [b act']. destruct B as (ps & Hi & _). cbn [fst]. rewrite Hi.
  apply elem_of_app. left. apply list_elem_of_fmap. exists j. split; [by rewrite Hs|].
  pose proof (length_filter decoding act) as Hlen. rewrite take_ge by (unfold len in Hl; lia).
  apply list_elem_of_filter. split; [|done]. unfold decoding, job_finished, job_prefilling. by rewrite Hs.
Qed.

Lemma empty_prompt_decodes_garbage_witness :
  let j := mkJob 0 (demo_req 1 "" 4) 0 (SequenceState.make 3%Z default_spec []) BlockTable.empty in
  mkItem 3%Z [0%Z] (-1)%Z true ∈ items (build_batch 16 128 [j]).1.
Proof.
  intros j. apply (empty_prompt_decodes_garbage 16 128 [j] j 3%Z default_spec).
  - left.
  - reflexivity.
  - discriminate.
Defined.

Section Engine.
Context {E : Type} `{HE : IModelEngine E} `{HC : !EngineContract E}.
Variable clock : nat → TimePoint.

(** With a step for every pointer, [steps.at(k)] never throws. *)
Lemma accept_loop_ok (w : t E) act steps k ptrs short :
  (k + length ptrs ≤ length steps)%nat → (accept_loop clock w act steps k ptrs short).1 = Ok tt.
Proof.
  revert w act k short. induction ptrs as [|p ptrs IH]; intros w act k short Hl; simpl in *; [done|].
  destruct (find_job p act) as [job|]; [|apply IH; lia]. destruct (stamp_first clock w job) as [w1 job1].
  destruct (lookup_lt_is_Some_2 steps k) as [st Hst]; [lia|]. rewrite Hst.
  destruct (accept_one w1 job1 st) as [starved [w2 job2]]. apply IH. lia.
Qed.

(** C15: every sampled token reaches the sequence it was sampled for.  When the
    engine keeps its documented contract (one step per sampling item, in order),
    the [k]-th step of a successful decode of the built batch carries the sequence
    id of the [k]-th sampling job, that job is still active and unfinished, and the
    accept loop runs to its end: [steps.at(k)] never throws. *)
Theorem tokens_reach_their_jobs (w : t E) act nb chunk b act' steps e' :
  NoDup (job_ptr <$> act) → build_batch nb chunk act = (b, act') →
  decode (engine_ w) (items b) = (Ok steps, e') →
  Forall2 (λ p st, ∃ j, find_job p act' = Some j ∧ job_seq j = step_seq st ∧ job_finished j = false)
    (sampling b) steps ∧
  (accept_loop clock (set_engine w e') act' steps 0 (sampling b) []).1 = Ok tt.
Proof.
  intros Hn Hb Hd. pose proof (build_batch_spec nb chunk act) as B.
  pose proof (build_batch_keys nb chunk act) as Kb. rewrite Hb in B, Kb. simpl in Kb.
  pose proof (build_batch_sampled nb chunk act) as Hsam. rewrite Hb in Hsam. simpl in Hsam.
  destruct B as (ps & _ & _ & _ & B4 & B5 & _). apply (decode_in_order _ _ _ _ Hsam) in Hd. unfold paired in B5.
  assert (F : Forall2 (λ p st, ∃ j, find_job p act' = Some j ∧ job_seq j = step_seq st ∧ job_finished j = false)
    (sampling b) steps).
  { apply Forall2_same_length_lookup. split.
    - apply Forall2_length in B5. apply (f_equal length) in Hd. rewrite !length_fmap in Hd. lia.
    - intros k p st Hp Hst. destruct (Forall2_lookup_l _ _ _ _ _ B5 Hp) as (i & Hi & j & Hj & <- & Hs & Hf).
      destruct (advanced_elem _ _ _ j B4 Hj) as (j' & Hj' & K & Hf'). exists j'.
      injection K as K1 _ K2. rewrite <- K1. split_and!.
      + apply find_job_elem; [by rewrite (keys_ptrs _ _ Kb)|done].
      + rewrite K2, Hs. apply (f_equal (.!! k)) in Hd. rewrite !list_lookup_fmap, Hi, Hst in Hd.
        by injection Hd.
      + congruence. }
  split; [done|]. apply accept_loop_ok. simpl. apply Forall2_length in F. lia.
Qed.

End Engine.

Lemma tokens_reach_their_jobs_witness :
  let l := (iterate demo_clock 16 (init (demo kContinuous))).2 in
  let r := build_batch 16 128 (active l) in
  ∃ steps e', decode (engine_ (sched l)) (items r.1) = (Ok steps, e') ∧ length steps = 2%nat ∧
    (accept_loop demo_clock (set_engine (sched l) e') r.2 steps 0 (sampling r.1) []).1 = Ok tt.
Proof.
  intros l r.
  assert (Hd : ∃ steps, (decode (engine_ (sched l)) (items r.1)).1 = Ok steps ∧ length steps = 2%nat)
    by (eexists; split; [vm_compute; reflexivity|reflexivity]).
  destruct Hd as (steps & Hd & Hl). exists steps, (decode (engine_ (sched l)) (items r.1)).2.
  assert (He : decode (engine_ (sched l)) (items r.1) = (Ok steps, (decode (engine_ (sched l)) (items r.1)).2))
    by (rewrite <- Hd; apply surjective_pairing).
  split_and!; [exact He|exact Hl|].
  apply (tokens_reach_their_jobs demo_clock (sched l) (active l) 16 128 r.1 r.2 steps).
  - apply (bool_decide_unpack _). vm_compute. exact I.
  - apply surjective_pairing.
  - exact He.
Defined.
