(* ===== verification/Pressure.v ===== *)
(** Under cache pressure: who gives way.  Retained prefixes go before any running
    sequence, the newest running sequence goes first, a request that is set back
    keeps everything the client sees of it, and the loops that make room end.  The
    file also holds the counterexamples: the preemption policy can livelock, a
    preempted stream repeats its text, and a failed donor copy loses its slot. *)
From Stdlib Require Import Permutation Lia.
From stdpp Require Import base list gmap strings.
From S2P Require Import Prelude Types Blocks Tables Prefix Timing Engine Sinks Sequence Mock Queue Scheduler Continuous Static Demo Conservation.

Local Open Scope N_scope.

Import Scheduler Continuous.

(** A request as its client knows it: everything but the stamps of one attempt. *)
Definition same_client (r r' : Request) : Prop :=
  req_id r' = req_id r ∧ req_spec r' = req_spec r ∧ req_cancel r' = req_cancel r ∧
  req_result r' = req_result r ∧ req_sink r' = req_sink r ∧
  RequestTiming.enqueued (req_timing r') = RequestTiming.enqueued (req_timing r) ∧
  RequestTiming.admitted (req_timing r') = None ∧ RequestTiming.first_token (req_timing r') = None.

Lemma reclaim_same_client job : same_client (job_request job) (reclaim job).
Proof. done. Qed.

Section Engine.
Context {E : Type} `{IModelEngine E}.
Variable clock : nat → TimePoint.

(** C18: preemption takes the newest eligible sequence and loses nothing.
    [preempt_one] picks the last active job that is neither finished nor the one
    room is made for: every job after it is finished or that one.  The victim's
    request goes to the front of [pending] as the client submitted it, with its
    enqueue stamp kept and its attempt stamps cleared; its slot returns to the free
    list; and exactly its references leave the pool, so every other sequence keeps
    its blocks.  It reports failure, changing nothing, only when no job is
    eligible. *)
Theorem preempt_newest (l : Loop E) except refs :
  match preempt_one l except with
  | (false, l') => l' = l ∧
      ∀ j, j ∈ active l → job_finished j = true ∨ Some (job_ptr j) = except
  | (true, l') => ∃ older v newer r,
      active l = older ++ v :: newer ∧ active l' = older ++ newer ∧
      (∀ j, j ∈ newer → job_finished j = true ∨ Some (job_ptr j) = except) ∧
      job_finished v = false ∧ Some (job_ptr v) ≠ except ∧
      pending l' = r :: pending l ∧ same_client (job_request v) r ∧
      free_slots l' = free_slots l ++ [job_seq v] ∧
      (BlockAllocator.accounts (blocks_ (sched l)) (BlockTable.blocks_ (job_blocks v) ++ refs) →
       BlockAllocator.accounts (blocks_ (sched l')) refs)
  end.
Proof.
  pose proof (preempt_one_spec l except) as P. destruct (preempt_one l except) as [[|] l'].
  - destruct P as (older & v & newer & P1 & P2 & P3 & P4 & P5 & P6 & P7 & _ & P8 & _).
    exists older, v, newer, (reclaim v). split_and!; try done; [by apply Forall_forall|].
    rewrite P8. apply BlockAllocator.free_accounts.
  - destruct P as [-> P]. split; [done|]. by apply Forall_forall.
Qed.


(** ** Donors yield first *)

Definition no_donors (w : t E) : Prop := PrefixCache.retained (prefix_cache_ w) = [].

(** The pool holds the blocks of retained prefixes and the references [refs]. *)
Definition pool (w : t E) (refs : list N) : Prop :=
  BlockAllocator.accounts (blocks_ w) (PrefixCache.retained_blocks (prefix_cache_ w) ++ refs).

Lemma reclaim_donor_blocks_spec (w : t E) :
  match reclaim_donor_blocks w with
  | (false, w') => w' = w ∧ no_donors w
  | (true, w') =>
      (S (base.size (PrefixCache.entries_ (prefix_cache_ w')))
         = base.size (PrefixCache.entries_ (prefix_cache_ w)))%nat ∧
      BlockAllocator.total_ (blocks_ w') = BlockAllocator.total_ (blocks_ w) ∧
      BlockAllocator.block_size_ (blocks_ w') = BlockAllocator.block_size_ (blocks_ w) ∧
      ∀ refs, pool w refs → pool w' refs
  end.
Proof.
  unfold reclaim_donor_blocks. pose proof (PrefixCache.evict_lru_cases (prefix_cache_ w)) as C.
  destruct (PrefixCache.evict_lru_retained (prefix_cache_ w)) as [[e|] c]; [|by destruct C].
  destruct C as (C1 & _ & _ & _ & _ & h & k & Hh & Hd & _).
  destruct (BlockAllocator.free_frame (blocks_ w) (PrefixCache.e_blocks e)) as (F1 & F2).
  simpl. split_and!; try done.
  - rewrite Hd, map_size_delete_Some by (by eexists).
    assert (base.size (PrefixCache.entries_ (prefix_cache_ w)) ≠ 0%nat); [|lia].
    intros H0%map_size_empty_inv. by rewrite H0 in Hh.
  - intros refs A. unfold pool in *. simpl. apply BlockAllocator.free_accounts.
    unfold PrefixCache.retained_blocks in A. rewrite C1 in A. simpl in A. by rewrite <- app_assoc in A.
Qed.

Lemma reclaim_until_spec n target (w : t E) refs :
  pool w refs → (base.size (PrefixCache.entries_ (prefix_cache_ w)) < n)%nat →
  let w' := reclaim_until n target w in
  pool w' refs ∧
  BlockAllocator.block_size_ (blocks_ w') = BlockAllocator.block_size_ (blocks_ w) ∧
  (target ≤ BlockAllocator.free_blocks (blocks_ w') ∨ no_donors w').
Proof.
  revert w. induction n as [|n IH]; intros w A Hn; simpl; [lia|].
  destruct (_ <? _) eqn:E1; bool_hyps; [|by auto]. pose proof (reclaim_donor_blocks_spec w) as R.
  destruct (reclaim_donor_blocks w) as [[|] w1].
  - destruct R as (R1 & R2 & R3 & R4). rewrite <- R3. apply IH; [auto|lia].
  - destruct R as [-> R]. auto.
Qed.

(** The headroom the admission loop asks for beside the prompt. *)
Definition headroom (act : list Job) : N := match act with [] => 0 | _ => len act + 1 end.

(** C17: admission control is exact, and retained prefixes never make a request
    wait.  For a request that fits its context, in a pool that accounts for the
    retained prefixes and the references of the running sequences: if it is let in,
    it holds exactly the blocks of its prompt and one spare block per sequence of the
    enlarged batch is still free (none is asked for when nothing runs); if it is not,
    nothing was reserved, every retained prefix has been given up and still fewer
    blocks are free than prompt and headroom need. *)
Theorem admission_exact (w : t E) act job refs :
  let want := BlockAllocator.blocks_for (blocks_ w) (Types.prompt_tokens (job_usage job)) in
  pool w refs → job_blocks job = BlockTable.empty → job_finished job = false →
  want + headroom act < 4294967296 →
  let '(fits, (w', job')) := reserve w act job in
  BlockAllocator.accounts (blocks_ w')
    (BlockTable.blocks_ (job_blocks job') ++ PrefixCache.retained_blocks (prefix_cache_ w') ++ refs) ∧
  if fits then
    len (BlockTable.blocks_ (job_blocks job')) = want ∧
    headroom act ≤ BlockAllocator.free_blocks (blocks_ w')
  else
    job' = job ∧ no_donors w' ∧ BlockAllocator.free_blocks (blocks_ w') < want + headroom act.
Proof.
  intros want A Hb Hf Hw. unfold reserve. fold want.
  assert (Ht : add32 want (match act with [] => 0 | _ => add32 (wrap32 (len act)) 1 end) = want + headroom act).
  { unfold headroom in *. destruct act as [|j act]; [by apply add32_small|].
    rewrite (wrap32_small (len (j :: act))) by lia. rewrite (add32_small (len (j :: act))) by lia.
    by apply add32_small. }
  rewrite Ht. set (w1 := reclaim_until _ _ _).
  destruct (reclaim_until_spec (donor_bound w) (want + headroom act) w refs A ltac:(unfold donor_bound; lia))
    as (R1 & R2 & R3). fold w1 in R1, R2, R3. rewrite Hf, Hb.
  destruct (_ <=? _) eqn:El; bool_hyps.
  - pose proof (BlockTable.ensure_capacity_spec (blocks_ w1) BlockTable.empty
      (Types.prompt_tokens (job_usage job)) _ R1 ltac:(vm_compute; done)) as C.
    rewrite (BlockTable.blocks_for_frame (blocks_ w) (blocks_ w1)) in C by done. fold want in C.
    destruct (BlockTable.ensure_capacity _ _ _) as [[[] a] tb]; simpl in C |- *.
    + destruct C as (extra & C1 & C2 & C3 & C4 & C5 & C6 & C7 & C8). rewrite len_nil in C3.
      split; [done|]. rewrite C1, C4, C3. lia.
    + destruct C as (_ & _ & C). rewrite len_nil in C. lia.
  - rewrite Hb. split; [exact R1|]. split_and!; [done| |done]. destruct R3; [lia|done].
Qed.

(** ** A starved sequence *)

(** The references the active sequences hold. *)
Definition tables (act : list Job) : list N := concat ((λ j, BlockTable.blocks_ (job_blocks j)) <$> act).

Lemma tables_app act act' : tables (act ++ act') = tables act ++ tables act'.
Proof. unfold tables. by rewrite fmap_app, concat_app. Qed.

Lemma tables_cons j act : tables (j :: act) = BlockTable.blocks_ (job_blocks j) ++ tables act.
Proof. done. Qed.

(** Writing through a pointer replaces the one job it points to. *)
Lemma put_job_split p j act :
  NoDup (job_ptr <$> act) → find_job p act = Some j →
  ∃ l1 l2, act = l1 ++ j :: l2 ∧ ∀ j', job_ptr j' = p → put_job j' act = l1 ++ j' :: l2.
Proof.
  intros Hn Hf. unfold put_job.
  induction act as [|x act IH]; simpl in *; [done|]. apply NoDup_cons in Hn as [Hx Hn].
  destruct (job_ptr x =? p) eqn:Ex; bool_hyps.
  - injection Hf as ->. exists [], act. split; [done|]. intros j' ->. rewrite Ex, N.eqb_refl. simpl. f_equal.
    rewrite <- (list_fmap_id act) at 2. apply list_fmap_ext. intros i y Hy. simpl.
    destruct (job_ptr y =? p) eqn:Ey; bool_hyps; [|done]. destruct Hx. rewrite Ex, <- Ey.
    apply list_elem_of_fmap_2. by eapply list_elem_of_lookup_2.
  - destruct (IH Hn Hf) as (l1 & l2 & -> & E2). exists (x :: l1), l2. split; [done|]. intros j' Hp.
    rewrite Hp, (proj2 (N.eqb_neq _ _) Ex). simpl. f_equal. rewrite <- (E2 j' Hp). by rewrite Hp.
Qed.

Lemma find_job_app p l1 j l2 :
  NoDup (job_ptr <$> (l1 ++ j :: l2)) → job_ptr j = p → find_job p (l1 ++ j :: l2) = Some j.
Proof.
  intros Hn <-. induction l1 as [|x l1 IH]; simpl in *; [by rewrite N.eqb_refl|].
  apply NoDup_cons in Hn as [Hx Hn]. destruct (job_ptr x =? job_ptr j) eqn:Ex; bool_hyps; [|by apply IH].
  destruct Hx. rewrite Ex. apply list_elem_of_fmap_2. set_solver.
Qed.

(** The state of the loop while room is made for the sequence at [p]. *)
Record making_room (p : N) (k : N * PromiseId * SeqId) (l : Loop E) (j : Job) : Prop := mk_room {
  mr_ptrs : NoDup (job_ptr <$> active l);
  mr_find : find_job p (active l) = Some j;
  mr_key : key j = k;
  mr_run : ∀ j', j' ∈ active l → job_finished j' = false;
  mr_len : ∀ j', j' ∈ active l → len (BlockTable.blocks_ (job_blocks j')) < 4294967296;
  mr_pool : pool (sched l) (tables (active l)) }.

(** One attempt to grow. *)
Lemma grow_job_room p k (l : Loop E) j needed :
  making_room p k l j →
  let (ok, l') := grow_job l p needed in
  BlockAllocator.total_ (blocks_ (sched l')) = BlockAllocator.total_ (blocks_ (sched l)) ∧
  BlockAllocator.block_size_ (blocks_ (sched l')) = BlockAllocator.block_size_ (blocks_ (sched l)) ∧
  prefix_cache_ (sched l') = prefix_cache_ (sched l) ∧
  length (active l') = length (active l) ∧
  ∃ j', making_room p k l' j' ∧
    if ok then BlockAllocator.blocks_for (blocks_ (sched l)) needed ≤ len (BlockTable.blocks_ (job_blocks j'))
    else j' = j ∧ blocks_ (sched l') = blocks_ (sched l) ∧
      BlockAllocator.free_blocks (blocks_ (sched l)) + len (BlockTable.blocks_ (job_blocks j))
        < BlockAllocator.blocks_for (blocks_ (sched l)) needed.
Proof.
  intros [M1 M2 M3 M4 M5 M6]. unfold grow_job. rewrite M2. set (a := blocks_ (sched l)) in *.
  destruct (find_job_Some _ _ _ M2) as [Hin Hp].
  destruct (put_job_split p j (active l) M1 M2) as (l1 & l2 & Ea & Ep).
  rewrite Ea in M6. unfold pool in M6. fold a in M6. rewrite tables_app, tables_cons in M6.
  assert (P : ∀ b, PrefixCache.retained_blocks (prefix_cache_ (sched l)) ++ tables l1 ++ b ++ tables l2
    ≡ₚ b ++ PrefixCache.retained_blocks (prefix_cache_ (sched l)) ++ tables l1 ++ tables l2)
    by (intros b; solve_Permutation).
  rewrite P in M6. pose proof (BlockTable.ensure_capacity_spec _ _ needed _ M6 (M5 j Hin)) as C.
  pose proof (BlockTable.blocks_for_lt a needed (proj1 M6)) as Hlt.
  destruct (BlockTable.ensure_capacity _ _ _) as [[ok a'] tb]. simpl.
  rewrite (Ep (set_table j tb) Hp).
  assert (G : BlockAllocator.accounts a' (BlockTable.blocks_ tb ++
      PrefixCache.retained_blocks (prefix_cache_ (sched l)) ++ tables l1 ++ tables l2) →
    len (BlockTable.blocks_ tb) < 4294967296 →
    making_room p k (mkLoop (set_blocks (sched l) a') (l1 ++ set_table j tb :: l2) (free_slots l) (pending l))
      (set_table j tb)).
  { intros GA Gl. rewrite Ea in M1, M4, M5. rewrite fmap_app in M1. split; simpl.
    - rewrite fmap_app. exact M1.
    - apply find_job_app; [|done]. rewrite fmap_app. exact M1.
    - exact M3.
    - intros j'. rewrite elem_of_app, elem_of_cons. intros [Hj|[->|Hj]];
        [apply M4; set_solver|apply (M4 j); set_solver|apply M4; set_solver].
    - intros j'. rewrite elem_of_app, elem_of_cons. intros [Hj|[->|Hj]];
        [apply M5; set_solver|exact Gl|apply M5; set_solver].
    - unfold pool. simpl. rewrite tables_app, tables_cons. simpl. by rewrite P. }
  assert (Hlen : length (l1 ++ set_table j tb :: l2) = length (active l))
    by (rewrite Ea, !length_app; done).
  destruct ok.
  - destruct C as (extra & C1 & C2 & C3 & C4 & C5 & C6 & C7 & C8). split_and!; try done.
    exists (set_table j tb). simpl. rewrite C1, len_app in *. specialize (M5 j Hin).
    split; [apply G; [done|lia]|lia].
  - destruct C as (-> & -> & C). split_and!; try done. exists j.
    assert (Hj : set_table j (job_blocks j) = j) by (by destruct j). rewrite Hj in G |- *.
    split_and!; try done. apply G; [done|]. by apply M5.
Qed.

(** Preempting while room is made: the others give way, one at a time. *)
Lemma preempt_room p k (l : Loop E) j :
  making_room p k l j →
  match preempt_one l (Some p) with
  | (false, l') => l' = l ∧ active l = [j]
  | (true, l') =>
      BlockAllocator.total_ (blocks_ (sched l')) = BlockAllocator.total_ (blocks_ (sched l)) ∧
      BlockAllocator.block_size_ (blocks_ (sched l')) = BlockAllocator.block_size_ (blocks_ (sched l)) ∧
      S (length (active l')) = length (active l) ∧
      (no_donors (sched l) → no_donors (sched l') ∧ making_room p k l' j)
  end.
Proof.
  intros [M1 M2 M3 M4 M5 M6]. pose proof (preempt_one_spec l (Some p)) as P.
  destruct (find_job_Some _ _ _ M2) as [Hin Hp].
  destruct (preempt_one l (Some p)) as [[|] l'].
  - destruct P as (older & v & newer & P1 & P2 & P3 & P4 & P5 & P6 & P7 & Q & P8 & P9).
    destruct (BlockAllocator.free_frame (blocks_ (sched l)) (BlockTable.blocks_ (job_blocks v))) as [F1 F2].
    rewrite <- P8 in F1, F2. split_and!; try done.
    { rewrite P1, P2, !length_app. simpl. lia. }
    intros Hd. assert (Hd' : no_donors (sched l')).
    { unfold no_donors in *. rewrite P9.
      destruct (PrefixCache.evict_sequence_spec (prefix_cache_ (sched l)) (job_seq v)) as [(g & G & _) _].
      rewrite Hd in G. by apply Permutation_nil in G as [_ ?]%app_nil. }
    split; [done|]. rewrite P1 in *.
    assert (Hsub : ∀ j', j' ∈ older ++ newer → j' ∈ older ++ v :: newer) by set_solver.
    assert (M1' : NoDup (job_ptr <$> (older ++ newer))).
    { eapply sublist_NoDup; [exact M1|]. apply fmap_sublist, sublist_app; [done|by apply sublist_cons]. }
    split; rewrite ?P2; auto.
    + assert (Hin' : j ∈ older ++ newer).
      { rewrite elem_of_app, elem_of_cons in Hin. rewrite elem_of_app.
        destruct Hin as [?|[->|?]]; [by left|congruence|by right]. }
      apply list_elem_of_split in Hin' as (l1 & l2 & El). rewrite El in *. by apply find_job_app.
    + unfold pool, PrefixCache.retained_blocks in *. unfold no_donors in Hd, Hd'. rewrite Hd', P8.
      rewrite Hd in M6. simpl in *. apply BlockAllocator.free_accounts.
      rewrite tables_app, tables_cons in M6. rewrite tables_app.
      eapply BlockAllocator.accounts_proper; [done| |exact M6]. solve_Permutation.
  - destruct P as [-> P]. split; [done|]. rewrite Forall_forall in P.
    destruct (put_job_split p j (active l) M1 M2) as (l1 & l2 & Ea & _). rewrite Ea in *.
    assert (Hall : ∀ j', j' ∈ l1 ++ j :: l2 → job_ptr j' = p).
    { intros j' Hj'. destruct (P j' Hj') as [Hf|Hf]; [by rewrite (M4 j' Hj') in Hf|congruence]. }
    rewrite fmap_app, fmap_cons in M1. apply NoDup_app in M1 as (_ & Hd & [Hx _]%NoDup_cons).
    destruct l1 as [|y l1].
    + destruct l2 as [|y l2]; [done|]. destruct Hx. simpl. rewrite Hp, (Hall y) by set_solver. set_solver.
    + destruct (Hd (job_ptr y)); simpl; [set_solver|]. rewrite Hp, (Hall y) by set_solver. set_solver.
Qed.

(** The comment's argument: alone in the pool, a sequence that fits the pool fits. *)
Lemma alone_fits p k (l : Loop E) j needed :
  making_room p k l j → no_donors (sched l) → active l = [j] →
  BlockAllocator.blocks_for (blocks_ (sched l)) needed ≤ BlockAllocator.total_ (blocks_ (sched l)) →
  BlockAllocator.blocks_for (blocks_ (sched l)) needed
    ≤ BlockAllocator.free_blocks (blocks_ (sched l)) + len (BlockTable.blocks_ (job_blocks j)).
Proof.
  intros M Hd Ha Hn. pose proof (mr_pool _ _ _ _ M) as A. unfold pool, PrefixCache.retained_blocks in A.
  unfold no_donors in Hd. rewrite Hd, Ha in A. unfold tables in A. simpl in A. rewrite app_nil_r in A.
  destruct (BlockAllocator.used_blocks_distinct _ _ A) as [_ D].
  pose proof (len_remove_dups (BlockTable.blocks_ (job_blocks j))). lia.
Qed.


Lemma grow_by_donors_room n p k (l : Loop E) j needed :
  making_room p k l j → (base.size (PrefixCache.entries_ (prefix_cache_ (sched l))) < n)%nat →
  let l' := grow_by_donors n l p needed in
  BlockAllocator.total_ (blocks_ (sched l')) = BlockAllocator.total_ (blocks_ (sched l)) ∧
  BlockAllocator.block_size_ (blocks_ (sched l')) = BlockAllocator.block_size_ (blocks_ (sched l)) ∧
  length (active l') = length (active l) ∧
  ∃ j', making_room p k l' j' ∧
    (no_donors (sched l') ∨
     BlockAllocator.blocks_for (blocks_ (sched l)) needed ≤ len (BlockTable.blocks_ (job_blocks j'))).
Proof.
  revert l j. induction n as [|n IH]; intros l j M Hn; simpl; [lia|].
  pose proof (grow_job_room p k l j needed M) as G. destruct (grow_job l p needed) as [[|] l1];
    destruct G as (G1 & G2 & G3 & G4 & j' & Mj & G5).
  { split_and!; try done. exists j'. auto. }
  destruct G5 as (-> & Gb & _). pose proof (reclaim_donor_blocks_spec (sched l1)) as R.
  destruct (reclaim_donor_blocks (sched l1)) as [[|] w]; simpl.
  - destruct R as (R1 & R2 & R3 & R4). rewrite G3 in R1. set (l2 := mkLoop w _ _ _).
    assert (M2 : making_room p k l2 j).
    { destruct Mj as [A1 A2 A3 A4 A5 A6]. split; simpl; auto. }
    destruct (IH l2 j M2) as (I1 & I2 & I3 & j2 & I4 & I5); [simpl; lia|]. simpl in *.
    split_and!; [congruence..|]. exists j2. split; [done|].
    rewrite (BlockTable.blocks_for_frame (blocks_ (sched l)) (blocks_ w)) in I5 by congruence. done.
  - destruct R as [-> R]. split_and!; try done. exists j. split; [|by left].
    by destruct Mj.
Qed.

Lemma grow_by_preempting_room n p k (l : Loop E) j needed :
  making_room p k l j →
  no_donors (sched l) ∨ BlockAllocator.blocks_for (blocks_ (sched l)) needed ≤ len (BlockTable.blocks_ (job_blocks j)) →
  BlockAllocator.blocks_for (blocks_ (sched l)) needed ≤ BlockAllocator.total_ (blocks_ (sched l)) →
  (length (active l) ≤ n)%nat →
  let l' := grow_by_preempting n l p needed in
  (no_donors (sched l) → no_donors (sched l')) ∧ (no_donors (sched l) ∨ length (active l') = length (active l)) ∧
  ∃ j', making_room p k l' j' ∧
    BlockAllocator.blocks_for (blocks_ (sched l)) needed ≤ len (BlockTable.blocks_ (job_blocks j')).
Proof.
  revert l j. induction n as [|n IH]; intros l j M Hd Hfit Hn; simpl.
  { destruct M as [_ M2 _ _ _ _]. apply find_job_Some in M2 as [M2 _]. destruct (active l); [set_solver|simpl in Hn; lia]. }
  pose proof (grow_job_room p k l j needed M) as G. destruct (grow_job l p needed) as [[|] l1];
    destruct G as (G1 & G2 & G3 & G4 & j' & Mj & G5).
  { split_and!; [unfold no_donors; by rewrite G3|by right|by exists j']. }
  destruct G5 as (-> & Gb & Glt). destruct Hd as [Hd|Hd]; [|lia].
  assert (Hd1 : no_donors (sched l1)) by (unfold no_donors in *; by rewrite G3).
  pose proof (preempt_room p k l1 j Mj) as P. destruct (preempt_one l1 (Some p)) as [[|] l2].
  - destruct P as (P1 & P2 & P3 & P4). destruct (P4 Hd1) as [P5 P6].
    assert (Hbf : BlockAllocator.blocks_for (blocks_ (sched l2)) needed = BlockAllocator.blocks_for (blocks_ (sched l)) needed)
      by (apply BlockTable.blocks_for_frame; congruence).
    destruct (IH l2 j P6) as (I1 & _ & j2 & I2 & I3); [by left|rewrite Hbf; congruence|lia|].
    rewrite Hbf in I3. split_and!; [auto|by left|by exists j2].
  - destruct P as [-> Pa].
    pose proof (alone_fits p k l1 j needed Mj Hd1 Pa) as F. rewrite Gb in F. specialize (F Hfit). lia.
Qed.

(** Resolving ends with room for the starved sequence. *)
Lemma resolve_one_room (l : Loop E) p j :
  making_room p (key j) l j →
  BlockAllocator.blocks_for (blocks_ (sched l)) (job_tokens j) ≤ BlockAllocator.total_ (blocks_ (sched l)) →
  ∃ j', making_room p (key j) (resolve_one l p) j' ∧
    BlockAllocator.blocks_for (blocks_ (sched l)) (job_tokens j) ≤ len (BlockTable.blocks_ (job_blocks j')) ∧
    (no_donors (sched (resolve_one l p)) ∨ length (active (resolve_one l p)) = length (active l)).
Proof.
  intros M Hfit. unfold resolve_one. rewrite (mr_find _ _ _ _ M). unfold BlockAllocator.total_blocks.
  rewrite (proj2 (N.ltb_ge _ _) Hfit).
  destruct (grow_by_donors_room (donor_bound (sched l)) p (key j) l j (job_tokens j) M) as (D1 & D2 & D3 & j1 & D4 & D5);
    [unfold donor_bound; lia|].
  set (l1 := grow_by_donors _ _ _ _) in *.
  assert (Hbf : BlockAllocator.blocks_for (blocks_ (sched l1)) (job_tokens j)
    = BlockAllocator.blocks_for (blocks_ (sched l)) (job_tokens j)) by (by apply BlockTable.blocks_for_frame).
  destruct (grow_by_preempting_room (S (length (active l1))) p (key j) l1 j1 (job_tokens j) D4) as (P3 & P4 & j2 & P1 & P2);
    [by rewrite Hbf|by rewrite Hbf, D1|lia|].
  exists j2. rewrite Hbf in P2. split_and!; [done..|]. destruct P4 as [P4|P4]; [by left; auto|right; congruence].
Qed.

(** C16: a starved sequence that fits the pool always gets its blocks, and donors are
    dropped before anyone is preempted.  When every active sequence is running and the
    pool accounts for exactly the retained prefixes and the sequences' tables, resolving
    a starved sequence whose tokens fit the pool ends with that sequence still active,
    under the same address, promise and slot, and holding the blocks it needs; when
    another sequence had to give way for it no retained prefix is left; and the pool
    still accounts for exactly what is held. *)
Theorem starved_gets_room (l : Loop E) p j :
  making_room p (key j) l j →
  BlockAllocator.blocks_for (blocks_ (sched l)) (job_tokens j) ≤ BlockAllocator.total_ (blocks_ (sched l)) →
  let l' := resolve_one l p in
  (∃ j', find_job p (active l') = Some j' ∧ key j' = key j ∧
    BlockAllocator.blocks_for (blocks_ (sched l)) (job_tokens j) ≤ len (BlockTable.blocks_ (job_blocks j'))) ∧
  (length (active l') ≠ length (active l) → PrefixCache.retained (prefix_cache_ (sched l')) = []) ∧
  pool (sched l') (tables (active l')).
Proof.
  intros M Hfit. destruct (resolve_one_room l p j M Hfit) as (j' & [_ Q1 Q2 _ _ Q3] & Hj & Hd). split_and!; [by exists j'| |done].
  intros Hl. by destruct Hd.
Qed.

(** A failed donor copy loses its slot.  The comment beside the [catch] of
    [retain_prefix] says that evicting the slot's sequence hands the slot back; no
    entry carries the slot yet, so nothing is handed back: the free list is the same
    as before and the slot, which its taker has forgotten, is in nobody's hands. *)
Theorem failed_copy_loses_slot (w : t E) slot held :
  PrefixCache.slots_ok (prefix_cache_ w) (slot :: held) →
  let c' := prefix_cache_ (abandon_donor w slot) in
  PrefixCache.free_donor_slots_ c' = PrefixCache.free_donor_slots_ (prefix_cache_ w) ∧
  slot ∉ PrefixCache.free_donor_slots_ c' ∧ slot ∉ (PrefixCache.e_seq <$> PrefixCache.retained c').
Proof.
  intros S. simpl. set (c := prefix_cache_ w) in *.
  assert (Hn : NoDup (PrefixCache.free_donor_slots_ c ++ (PrefixCache.e_seq <$> PrefixCache.retained c) ++ slot :: held))
    by (unfold PrefixCache.slots_ok in S; rewrite S; apply PrefixCache.donor_slots_NoDup).
  apply NoDup_app in Hn as (_ & Hf & (_ & Hr & _)%NoDup_app).
  assert (Hfree : slot ∉ PrefixCache.free_donor_slots_ c) by (intros Hin; apply (Hf slot Hin); set_solver).
  assert (Hret : slot ∉ (PrefixCache.e_seq <$> PrefixCache.retained c))
    by (intros Hin; apply (Hr slot Hin); set_solver).
  destruct (PrefixCache.evict_sequence_spec c slot) as [(gone & G1 & G2 & G3 & _) _].
  assert (gone = []) as ->.
  { destruct gone as [|e gone]; [done|]. destruct Hret. apply list_elem_of_fmap. exists e.
    split; [symmetry; apply G2; set_solver|]. rewrite G1. set_solver. }
  simpl in *. rewrite app_nil_r in G3. rewrite G3. split_and!; try done. by rewrite <- G1.
Qed.

End Engine.

(** ** Witnesses *)

Definition demo_job (p : N) (prompt : string) (blocks : list N) : Job :=
  let req := demo_req p prompt 4 in
  mkJob p req 0 (SequenceState.make (Z.of_N p) (req_spec req) (MockModelEngine.tokenize demo_engine (str prompt) true).1)
        (BlockTable.mk blocks 0 0 0).

Lemma admission_exact_witness :
  let w := demo kContinuous in
  let r := reserve w [] (demo_job 0 "hello" []) in
  r.1 = true ∧ len (BlockTable.blocks_ (job_blocks r.2.2)) = 2.
Proof.
  intros w r. assert (Hr : r.1 = true) by (vm_compute; reflexivity). split; [exact Hr|].
  assert (A : pool w []) by (apply BlockAllocator.make_accounts; vm_compute; done).
  pose proof (admission_exact w [] (demo_job 0 "hello" []) [] A eq_refl eq_refl eq_refl) as X.
  fold r in X. destruct r as [fits [w' job']]. simpl in Hr. subst fits. destruct X as (_ & X & _).
  simpl. rewrite X. vm_compute. reflexivity.
Defined.

(** Two sequences fill a pool of two blocks of two tokens; the older one needs both. *)
Definition tight_loop : Loop MockModelEngine.t :=
  let w := demo_sched (mkConfig 2 kContinuous 2 2 0 false 128) [] in
  mkLoop (set_blocks w (BlockAllocator.allocate (blocks_ w) 2).2)
         [demo_job 0 "ab" [0]; demo_job 1 "a" [1]] [] [].

Lemma starved_gets_room_witness :
  ∃ j', find_job 0 (active (resolve_one tight_loop 0)) = Some j' ∧
    2 ≤ len (BlockTable.blocks_ (job_blocks j')) ∧ length (pending (resolve_one tight_loop 0)) = 1%nat.
Proof.
  assert (M : making_room 0 (key (demo_job 0 "ab" [0])) tight_loop (demo_job 0 "ab" [0])).
  { split.
    - apply (bool_decide_unpack _). vm_compute. exact I.
    - reflexivity.
    - reflexivity.
    - intros j' [->|[->|[]%not_elem_of_nil]%elem_of_cons]%elem_of_cons; reflexivity.
    - intros j' [->|[->|[]%not_elem_of_nil]%elem_of_cons]%elem_of_cons; reflexivity.
    - apply (BlockAllocator.allocate_Some (BlockAllocator.make 2 2) 2 [0; 1] _ []);
        [apply BlockAllocator.make_accounts; lia|vm_compute; reflexivity]. }
  destruct (starved_gets_room tight_loop 0 (demo_job 0 "ab" [0]) M) as [(j' & H1 & H2 & H3) _].
  { vm_compute. discriminate. }
  exists j'. split_and!; [exact H1|exact H3|vm_compute; reflexivity].
Defined.

Lemma failed_copy_loses_slot_witness :
  let c := PrefixCache.configure_donors PrefixCache.empty 2%Z 1 in
  let w := set_cache (demo kContinuous) (PrefixCache.take_donor_slot c).2 in
  PrefixCache.free_donor_slots_ (prefix_cache_ (abandon_donor w 2%Z)) = [].
Proof.
  intros c w. destruct (failed_copy_loses_slot w 2%Z []) as (H1 & _ & _).
  - vm_compute. reflexivity.
  - rewrite H1. vm_compute. reflexivity.
Defined.

(** ** Two defects of the preemption policy *)

(** Three requests that each fit the pool of 12 blocks of 3 tokens. *)
Definition thrash_config : SchedulerConfig := mkConfig 3 kContinuous 12 3 0 false 128.
Definition thrash_requests : list Request :=
  [demo_req 1 "a" 26; demo_req 2 "aaa" 26; demo_req 3 "aaaa" 26].
Definition thrash (rs : list Request) : t MockModelEngine.t :=
  demo_sched thrash_config [ASubmit <$> rs; [AClose]].

(** The preemption policy thrashes.  Three requests, each of which alone is
    answered within 40 iterations, together keep evicting one another: after 2000
    iterations of the loop none of them has been answered, although every eviction
    made room for a sequence that fits the pool.  A starved sequence may evict an
    older one, so no request is safe from being restarted. *)
Example preemption_thrashes :
  (∀ r, r ∈ thrash_requests →
     (run_continuous demo_clock 40 (thrash [r])).1 = Returned ∧
     answered (world_ (run_continuous demo_clock 40 (thrash [r])).2) = [req_result r]) ∧
  (let (o, w) := run_continuous demo_clock 2000 (thrash thrash_requests) in
   o = OutOfFuel ∧ answered (world_ w) = [] ∧ 300 < stats_ w preemptions).
Proof.
  split.
  - intros r [->|[->|[->|[]%not_elem_of_nil]%elem_of_cons]%elem_of_cons]%elem_of_cons;
      split; vm_compute; reflexivity.
  - vm_compute. split; [reflexivity|split; reflexivity].
Qed.

(** Two streaming requests in a pool of 5 blocks of 2 tokens. *)
Definition stream_req (n : N) : Request :=
  mkRequest n (mkSpec (str "a") [] 7 default_sampling) n n (Some n) (RequestTiming.mk 0%Z None None None).
Definition stream_sched : t MockModelEngine.t :=
  make demo_engine (RequestQueue.make 8) (mkConfig 2 kContinuous 5 2 0 false 128)
    (mkWorld [[ASubmit (stream_req 0); ASubmit (stream_req 1)]; [AClose]] ∅
       {[ 0 := Streaming (StreamingSink.make 0); 1 := Streaming (StreamingSink.make 1) ]} 2 0 0 [] []).

(** The text a stream received. *)
Definition streamed (w : t MockModelEngine.t) (k : SinkId) : bytes :=
  match deref w k with
  | Streaming s => concat (StreamingSink.ev_text <$> StreamingSink.events_ s)
  | Collecting _ => []
  end.

(** A preempted stream repeats its text ([preempted_stream_restarts]).  Both requests are answered with the
    same text, but the one that was preempted and recomputed has received the
    beginning of its response twice: the restarted sequence emits to the same sink
    from the start. *)
Example preempted_stream_repeats :
  let (o, w) := run_continuous demo_clock 100 stream_sched in
  o = Returned ∧ (res_text <$> (snd <$> results_ (world_ w))) = [str "abcdefg"; str "abcdefg"] ∧
  streamed w 1 = str "abcdefg" ∧ streamed w 0 = str "abcabcdefg" ∧ stats_ w preemptions = 1.
Proof. vm_compute. split_and!; reflexivity. Qed.

(** The first eviction of that run. *)
Definition evicting : Loop MockModelEngine.t := (iterate demo_clock 16 (iterate demo_clock 16 (init stream_sched)).2).2.

Lemma evicting_preempts : (preempt_one evicting None).1 = true.
Proof. vm_compute. reflexivity. Qed.

Lemma pair_first {A B} (x : A * B) a : x.1 = a → x = (a, x.2).
Proof. destruct x. by intros <-. Qed.

