(* ===== verification/StaticRun.v ===== *)
(** Static batching answers every batch.  [run_batch] ends within the token budget
    of its longest request, fulfils every promise in the order of the batch with a
    set finish reason, and gives every block back, whatever the engine throws. *)
From Stdlib Require Import Permutation Lia.
From stdpp Require Import base list gmap strings.
From S2P Require Import Prelude Types Blocks Tables Prefix Timing Engine Sinks Sequence Mock Queue Scheduler Continuous Static Demo Conservation Batching Pressure.

Local Open Scope N_scope.

Import Scheduler Static.

(** A job between two steps: running and well formed, or ended with a reason. *)
Definition job_ok (j : Job) : Prop :=
  if job_finished j then SequenceState.reason_ (job_state j) ≠ kUnset else SequenceState.inv (job_state j).

(** The tokens a running job may still produce. *)
Definition left (j : Job) : N :=
  max_tokens (SequenceState.spec_ (job_state j)) - Types.completion_tokens (job_usage j).

(** What static batching never changes about a job. *)
Definition skey (j : Job) : N * PromiseId * SeqId * BlockTable.t := (key j, job_blocks j).

Lemma skeys_keys (jobs jobs' : list Job) : skey <$> jobs' = skey <$> jobs → key <$> jobs' = key <$> jobs.
Proof. intros Hk. apply (f_equal (fmap fst)) in Hk. by rewrite <- !list_fmap_compose in Hk. Qed.

Lemma skeys_tables (jobs jobs' : list Job) : skey <$> jobs' = skey <$> jobs → tables jobs' = tables jobs.
Proof.
  intros Hk. apply (f_equal (fmap (λ x, BlockTable.blocks_ x.2))) in Hk.
  rewrite <- !list_fmap_compose in Hk. unfold tables. by f_equal.
Qed.

Lemma inv_set_prefilled s n :
  SequenceState.inv s → n ≤ len (SequenceState.prompt_ s) → SequenceState.inv (SequenceState.set_prefilled s n).
Proof. intros [] Hn. by split. Qed.

(** How a round moves a job: jobs outside [ptrs] stay, the others end or come nearer
    to their token budget. *)
Definition moved (ptrs : list N) (j j' : Job) : Prop :=
  (job_ptr j ∉ ptrs → j' = j) ∧ (job_ptr j ∈ ptrs → job_finished j' = true ∨ left j' < left j).

(** Every running job of [ptrs] is there. *)
Definition running (ptrs : list N) (jobs : list Job) : Prop :=
  ∀ p, p ∈ ptrs → ∃ j, find_job p jobs = Some j ∧ job_finished j = false.

Section Engine.
Context {E : Type} `{IModelEngine E}.
Variable clock : nat → TimePoint.

Lemma accept_progress (e : E) m s (k : Sink) st :
  SequenceState.inv s → SequenceState.finished_ s = false →
  let '(b, (_, s', _)) := SequenceState.accept e m s k st in
  SequenceState.finished_ s' = negb b ∧ SequenceState.spec_ s' = SequenceState.spec_ s ∧
  SequenceState.inv s' ∧ (b = false → SequenceState.reason_ s' ≠ kUnset) ∧
  (b = true → Types.completion_tokens (SequenceState.usage_ s)
                < Types.completion_tokens (SequenceState.usage_ s') ≤ max_tokens (SequenceState.spec_ s)).
Proof.
  intros I Hf. pose proof (SequenceState.accept_spec e m s k st I Hf) as A.
  destruct (SequenceState.accept e m s k st) as [b [[e1 s1] k1]].
  destruct (SequenceState.accepted_inv _ _ _ _ _ _ _ _ _ I Hf A) as [I1 Hf1].
  destruct A; split_and!; try done; simpl; intros _; lia.
Qed.

Lemma accept_job_ok (w : t E) job step :
  job_ok job → job_finished job = false →
  let r := accept_job w job step in
  job_ok r.2.2 ∧ job_finished r.2.2 = negb r.1 ∧ (r.1 = true → left r.2.2 < left job).
Proof.
  unfold job_ok. intros I Hf. rewrite Hf in I. unfold accept_job.
  set (w1 := sync w). pose proof (accept_progress (engine_ w1) (flags_ (world_ w1)) (job_state job)
    (deref w1 (job_sink job)) step I Hf) as A.
  destruct (SequenceState.accept _ _ _ _ _) as [b [[e s] k]]. destruct A as (A1 & A2 & A3 & A4 & A5).
  unfold job_finished, left, job_usage. simpl. rewrite A1, A2. split_and!; try done.
  - destruct b; simpl; auto.
  - intros Hb. specialize (A5 Hb). lia.
Qed.

Lemma finish_job_ok (w : t E) job :
  job_finished job = true → job_ok job →
  job_finished (finish_job w job).2 = true ∧ job_ok (finish_job w job).2 ∧
  skey (finish_job w job).2 = skey job ∧ blocks_ (finish_job w job).1 = blocks_ w.
Proof.
  unfold job_ok. intros Hf Ho. rewrite Hf in Ho. pose proof (finish_job_key w job) as K.
  unfold finish_job in *.
  pose proof (SequenceState.finish_frame (job_state job) (deref w (job_sink job))) as F.
  assert (R : SequenceState.reason_ (SequenceState.finish (job_state job) (deref w (job_sink job))).1
    = SequenceState.reason_ (job_state job)).
  { unfold SequenceState.finish, SequenceState.flush_upto. destruct (SequenceState.notified_ _); [done|].
    case_decide; [done|]. case_decide; [|done]. simpl. by destruct (_ <? _). }
  destruct (SequenceState.finish _ _) as [s k]. destruct F as (_ & _ & _ & _ & F).
  unfold job_finished, skey in *. simpl in *. rewrite (F Hf), R, K. done.
Qed.

Lemma stamp_first_ok (w : t E) job :
  let r := stamp_first clock w job in
  job_state r.2 = job_state job ∧ skey r.2 = skey job ∧ blocks_ r.1 = blocks_ w.
Proof. unfold stamp_first. by destruct (RequestTiming.first_token _). Qed.

Lemma put_job_skeys p j j' jobs :
  NoDup (job_ptr <$> jobs) → find_job p jobs = Some j → skey j' = skey j →
  skey <$> put_job j' jobs = skey <$> jobs.
Proof.
  intros Hn Hf Hk. destruct (find_job_Some _ _ _ Hf) as [_ Hp].
  destruct (put_job_split p j jobs Hn Hf) as (l1 & l2 & -> & Ep).
  rewrite Ep by (injection Hk; congruence). by rewrite !fmap_app, !fmap_cons, Hk.
Qed.

Lemma put_job_ok j jobs : Forall job_ok jobs → job_ok j → Forall job_ok (put_job j jobs).
Proof.
  intros Ha Hj. unfold put_job. apply Forall_fmap. eapply Forall_impl; [exact Ha|]. intros x Hx. simpl.
  by destruct (_ =? _).
Qed.

(** The jobs of a batch and the pool, before and after a phase that only accepts. *)
Definition phase (w : t E) (jobs : list Job) (w' : t E) (jobs' : list Job) : Prop :=
  steady w w' ∧ blocks_ w' = blocks_ w ∧ skey <$> jobs' = skey <$> jobs ∧ Forall job_ok jobs'.

Lemma phase_trans w1 j1 w2 j2 w3 j3 : phase w1 j1 w2 j2 → phase w2 j2 w3 j3 → phase w1 j1 w3 j3.
Proof. intros (? & ? & ? & ?) (? & ? & ? & ?). split_and!; [by etrans|congruence..|done]. Qed.

Lemma phase_ptrs w jobs w' jobs' : phase w jobs w' jobs' → job_ptr <$> jobs' = job_ptr <$> jobs.
Proof. intros (_ & _ & Hk & _). by apply keys_ptrs, skeys_keys. Qed.

(** One job of a round. *)
Lemma phase_put (w w' : t E) jobs p j j' :
  NoDup (job_ptr <$> jobs) → Forall job_ok jobs → find_job p jobs = Some j →
  steady w w' → blocks_ w' = blocks_ w → skey j' = skey j → job_ok j' →
  phase w jobs w' (put_job j' jobs).
Proof.
  intros Hn Ha Hf Hs Hb Hk Hj. split_and!; try done; [by eapply put_job_skeys|by apply put_job_ok].
Qed.

Lemma find_job_put_ne p j jobs : job_ptr j ≠ p → find_job p (put_job j jobs) = find_job p jobs.
Proof.
  intros Hp. unfold put_job. induction jobs as [|x jobs IH]; [done|]. rewrite fmap_cons. cbn [find_job].
  rewrite IH. destruct (job_ptr x =? job_ptr j) eqn:Ex; bool_hyps; [|done].
  by rewrite Ex, (proj2 (N.eqb_neq _ _) Hp).
Qed.

(** Moving one job and then the others moves them all. *)
Lemma moved_cons p j j' jobs ptrs jobs' :
  NoDup (job_ptr <$> jobs) → find_job p jobs = Some j → job_ptr j' = p → p ∉ ptrs →
  job_finished j' = true ∨ left j' < left j →
  Forall2 (moved ptrs) (put_job j' jobs) jobs' → Forall2 (moved (p :: ptrs)) jobs jobs'.
Proof.
  intros Hn Hf Hp Hnp Hm F. destruct (put_job_split p j jobs Hn Hf) as (l1 & l2 & Ej & Ep).
  rewrite (Ep j' Hp) in F. rewrite Ej in *. destruct (find_job_Some _ _ _ Hf) as [_ Hpj].
  rewrite fmap_app, fmap_cons in Hn. apply NoDup_app in Hn as (_ & Hd & [Hx _]%NoDup_cons).
  assert (W : ∀ x x', job_ptr x ≠ p → moved ptrs x x' → moved (p :: ptrs) x x').
  { intros x x' Hne [M1 M2]. split; rewrite elem_of_cons; naive_solver. }
  apply Forall2_app_inv_l in F as (k1 & k2' & F1 & F2 & ->).
  apply Forall2_cons_inv_l in F2 as (j2 & k2 & M & F2 & ->). apply Forall2_app; [|constructor].
  - eapply Forall2_impl_elem; [exact F1|]. intros x x' Hi Mx. apply W; [|done].
    intros Hxp. apply (Hd (job_ptr x)); [by apply list_elem_of_fmap_2|].
    rewrite Hxp, Hpj. set_solver.
  - split; rewrite elem_of_cons; [naive_solver|]. intros _. destruct M as [M _]. rewrite M; [done|congruence].
  - eapply Forall2_impl_elem; [exact F2|]. intros x x' Hi Mx. apply W; [|done].
    intros Hxp. apply Hx. rewrite Hpj, <- Hxp. by apply list_elem_of_fmap_2.
Qed.

Lemma accept_static_spec (w : t E) jobs steps k ptrs :
  NoDup (job_ptr <$> jobs) → NoDup ptrs → Forall job_ok jobs → running ptrs jobs →
  let '(r, (w', jobs')) := accept_static clock w jobs steps k ptrs in
  phase w jobs w' jobs' ∧ (r = Ok tt → Forall2 (moved ptrs) jobs jobs').
Proof.
  revert w jobs k. induction ptrs as [|p ptrs IH]; intros w jobs k Hn Hnp Ha Hr; cbn [accept_static].
  { split; [split_and!; done|]. intros _. apply Forall_Forall2_diag, Forall_forall. intros j _.
    split; [done|]. intros Hin. by apply not_elem_of_nil in Hin. }
  apply NoDup_cons in Hnp as [Hp Hnp].
  destruct (Hr p) as (job & Hf & Hun); [set_solver|]. rewrite Hf.
  destruct (find_job_Some _ _ _ Hf) as [Hin Hptr]. rewrite Forall_forall in Ha. pose proof (Ha job Hin) as Hok.
  rewrite <- Forall_forall in Ha.
  pose proof (quiet_stamp_first clock w job) as Q. pose proof (stamp_first_ok w job) as (S1 & S2 & S3).
  destruct (stamp_first clock w job) as [w1 job1]. simpl in *. apply quiet_steady in Q.
  assert (Hok1 : job_ok job1 ∧ job_finished job1 = false)
    by (unfold job_ok, job_finished in *; by rewrite S1).
  destruct Hok1 as [Hok1 Hun1].
  destruct (steps !! k) as [st|]; [|split; [by eapply phase_put|done]].
  pose proof (accept_job_ok w1 job1 st Hok1 Hun1) as (A1 & A2 & A3).
  pose proof (accept_job_spec w1 job1 st) as (B1 & B2 & B3 & B4 & _).
  assert (G : ∀ w2 job2, phase w jobs w2 (put_job job2 jobs) → skey job2 = skey job →
    job_finished job2 = true ∨ left job2 < left job →
    let '(r, (w', jobs')) := accept_static clock w2 (put_job job2 jobs) steps (S k) ptrs in
    phase w jobs w' jobs' ∧ (r = Ok tt → Forall2 (moved (p :: ptrs)) jobs jobs')).
  { intros w2 job2 P K M. assert (Hp2 : job_ptr job2 = p) by (injection K; congruence).
    specialize (IH w2 (put_job job2 jobs) (S k)).
    destruct (accept_static clock w2 _ steps (S k) ptrs) as [r [w' jobs']].
    destruct IH as [I1 I2]; [by rewrite (phase_ptrs _ _ _ _ P)|done|apply P| |].
    - intros q Hq. rewrite find_job_put_ne by congruence. apply Hr. set_solver.
    - split; [by eapply phase_trans|]. intros Hok2. by eapply (moved_cons p job job2); auto. }
  assert (Hleft : left job1 = left job) by (unfold left, job_usage; by rewrite S1).
  destruct (accept_job w1 job1 st) as [b [w2 job2]]. simpl in *.
  assert (K2 : skey job2 = skey job) by (rewrite <- S2; unfold skey; by rewrite B2, B3).
  destruct b.
  - apply G; [|done|right; rewrite <- Hleft; auto].
    eapply phase_put; eauto; [by etrans|congruence].
  - pose proof (finish_job_ok w2 job2 A2 A1) as (F1 & F2 & F3 & F4).
    pose proof (quiet_finish_job w2 job2) as Q2. destruct (finish_job w2 job2) as [w3 job3]. simpl in *.
    apply G; [|congruence|by left]. eapply phase_put; eauto; [|simpl; congruence|congruence].
    etrans; [exact Q|]. etrans; [exact B1|]. etrans; [apply quiet_steady, Q2|done].
Qed.

Lemma submit_spec (w : t E) jobs b :
  NoDup (job_ptr <$> jobs) → NoDup (sampling b) → Forall job_ok jobs → running (sampling b) jobs →
  let '(r, (w', jobs')) := submit clock w jobs b in
  phase w jobs w' jobs' ∧ (r = Ok tt → Forall2 (moved (sampling b)) jobs jobs').
Proof.
  intros Hn Hs Ha Hr. unfold submit. destruct (decode (engine_ w) (items b)) as [[steps|what] e].
  - pose proof (accept_static_spec (set_engine w e) jobs steps 0 (sampling b) Hn Hs Ha Hr) as A.
    destruct (accept_static _ _ _ _ _ _) as [r [w' jobs']]. destruct A as [A1 A2]. split; [|done].
    eapply phase_trans; [|exact A1]. split_and!; done.
  - split; [split_and!; done|done].
Qed.

(** The unfinished jobs of a list are running in any list that holds them. *)
Lemma running_filter jobs some :
  NoDup (job_ptr <$> jobs) → (∀ j, j ∈ some → j ∈ jobs) →
  running (job_ptr <$> filter (λ j, job_finished j = false) some) jobs.
Proof.
  intros Hn Hs p Hp. apply list_elem_of_fmap in Hp as (j & -> & [Hf Hj]%list_elem_of_filter).
  exists j. split; [by apply find_job_elem; auto|done].
Qed.

(** Every running job has at most [m] tokens to go. *)
Definition bounded (m : N) (jobs : list Job) : Prop := ∀ j, j ∈ jobs → job_finished j = true ∨ left j ≤ m.

Lemma moved_bounded ptrs jobs jobs' m :
  NoDup (job_ptr <$> jobs) → Forall2 (moved ptrs) jobs jobs' → running ptrs jobs →
  bounded m jobs →
  bounded m jobs' ∧
  ((∀ j, j ∈ jobs → job_finished j = false → job_ptr j ∈ ptrs) →
   ∀ j, j ∈ jobs' → job_finished j = true ∨ left j < m).
Proof.
  intros Hn F Hr Hb.
  assert (G : ∀ j', j' ∈ jobs' → job_finished j' = true ∨ left j' < m ∨
    (j' ∈ jobs ∧ job_ptr j' ∉ ptrs)).
  { intros j' Hj'. apply list_elem_of_lookup in Hj' as [i Hi].
    destruct (Forall2_lookup_r _ _ _ _ _ F Hi) as (j & Hj%list_elem_of_lookup_2 & M1 & M2).
    destruct (decide (job_ptr j ∈ ptrs)) as [Hin|Hin]; [|rewrite (M1 Hin); auto].
    destruct (M2 Hin); [by left|right; left].
    destruct (Hr _ Hin) as (j0 & Hf0 & Hun). rewrite (find_job_elem j jobs Hn Hj) in Hf0.
    injection Hf0 as <-. destruct (Hb j Hj); [congruence|lia]. }
  split.
  - intros j' Hj'. destruct (G j' Hj') as [?|[?|[? _]]]; [by left|right; lia|auto].
  - intros Hall j' Hj'. destruct (G j' Hj') as [?|[?|[Hin Hnot]]]; [by left|by right|].
    destruct (job_finished j') eqn:Ef; [by left|]. by destruct Hnot; apply Hall.
Qed.

Lemma decode_phase_spec fuel (w : t E) jobs :
  NoDup (job_ptr <$> jobs) → Forall job_ok jobs →
  (∀ j, j ∈ jobs → job_finished j = true ∨ left j + 1 < N.of_nat fuel) → (0 < fuel)%nat →
  ∃ r w' jobs', decode_phase clock fuel w jobs = Some (r, (w', jobs')) ∧ phase w jobs w' jobs' ∧
    (r = Ok tt → Forall (λ j, job_finished j = true) jobs').
Proof.
  revert w jobs. induction fuel as [|fuel IH]; intros w jobs Hn Ha Hb Hpos; [lia|]. cbn [decode_phase].
  set (b := build_step jobs).
  assert (Es : sampling b = job_ptr <$> filter (λ j, job_finished j = false) jobs) by done.
  assert (Hr : running (sampling b) jobs) by (rewrite Es; by apply running_filter).
  assert (Hall : ∀ j, j ∈ jobs → job_finished j = false → job_ptr j ∈ sampling b).
  { intros j Hj Hf. rewrite Es. apply list_elem_of_fmap_2, list_elem_of_filter. done. }
  assert (Hnd : NoDup (sampling b)).
  { rewrite Es. eapply sublist_NoDup; [exact Hn|]. apply fmap_sublist, sublist_filter. }
  destruct (sampling b) as [|p ptrs] eqn:Eb.
  - exists (Ok tt), w, jobs. split; [done|]. split; [split_and!; done|]. intros _. apply Forall_forall.
    intros j Hj. destruct (job_finished j) eqn:Ef; [done|]. by apply Hall, not_elem_of_nil in Ef.
  - rewrite <- Eb in *. pose proof (submit_spec w jobs b Hn Hnd Ha Hr) as S.
    destruct (submit clock w jobs b) as [[u|what] [w1 jobs1]]; destruct S as [S1 S2].
    + destruct u. specialize (S2 eq_refl).
      assert (Hf1 : (0 < fuel)%nat).
      { destruct (Hr p) as (j & Hj & Hf); [rewrite Eb; set_solver|]. apply find_job_Some in Hj as [Hj _].
        destruct (Hb j Hj); [congruence|lia]. }
      destruct (moved_bounded (sampling b) jobs jobs1 (N.of_nat fuel - 1) Hn S2 Hr) as [_ B1].
      { intros j Hj. destruct (Hb j Hj); [by left|right; lia]. }
      destruct (IH w1 jobs1) as (r & w' & jobs' & I1 & I2 & I3); [by rewrite (phase_ptrs _ _ _ _ S1)|apply S1| |lia|].
      { intros j Hj. destruct (B1 Hall j Hj); [by left|right; lia]. }
      exists r, w', jobs'. split_and!; [done|by eapply phase_trans|done].
    + exists (Throw what), w1, jobs1. split_and!; done.
Qed.

(** ** Prefill *)

Lemma pack_spec nb its tokens rest :
  Forall job_ok rest →
  let '(b, passed, later) := pack nb its tokens rest in
  sampling b = job_ptr <$> filter (λ j, job_finished j = false) passed ∧
  (items b = [] ↔ sampling b = []) ∧
  skey <$> (passed ++ later) = skey <$> rest ∧ Forall job_ok (passed ++ later) ∧
  (∀ m, bounded m rest → bounded m (passed ++ later)) ∧
  (its = 0 → rest ≠ [] → (length later < length rest)%nat) ∧ (length later ≤ length rest)%nat.
Proof.
  revert its tokens. induction rest as [|job rest IH]; intros its tokens Ha; cbn [pack].
  { split_and!; try done. }
  apply Forall_cons in Ha as [Hj Ha].
  assert (Hb : ∀ j' l m, (job_finished job = true ∨ left job ≤ m → job_finished j' = true ∨ left j' ≤ m) →
    (bounded m rest → bounded m l) → bounded m (job :: rest) → bounded m (j' :: l)).
  { intros j' l m H1 H2 H3 x [->|Hx]%elem_of_cons.
    - apply H1, H3. set_solver.
    - apply H2; [|done]. intros y Hy. apply H3. set_solver. }
  destruct (job_finished job) eqn:Ef.
  - specialize (IH its tokens Ha). destruct (pack nb its tokens rest) as [[b passed] later].
    destruct IH as (I1 & I2 & I3 & I4 & I5 & I6 & I7).
    rewrite filter_cons_False by congruence. simpl. split_and!; try done; try lia.
    + by f_equal.
    + by constructor.
    + intros m. apply Hb; auto.
  - destruct ((0 <? its) && _) eqn:Ec.
    { bool_hyps. split_and!; try done; [by constructor|lia]. }
    destruct (SequenceState.prefill_item (job_state job)) as [item s] eqn:Ei.
    specialize (IH (its + 1) (tokens + SequenceState.prefill_remaining (job_state job)) Ha).
    destruct (pack nb (its + 1) _ rest) as [[b passed] later].
    destruct IH as (I1 & I2 & I3 & I4 & I5 & I6 & I7).
    unfold SequenceState.prefill_item, SequenceState.take_prefill_chunk in Ei. injection Ei as <- <-.
    unfold job_ok in Hj. rewrite Ef in Hj. simpl. rewrite filter_cons_True by done.
    split_and!; try done; try lia.
    + simpl. by f_equal.
    + by f_equal.
    + constructor; [|done]. unfold job_ok, job_finished in *. simpl. rewrite Ef.
      apply inv_set_prefilled; [done|]. unfold SequenceState.prefill_remaining.
      pose proof (SequenceState.inv_prefilled _ Hj). lia.
    + intros m. apply Hb; [|auto]. intros [?|?]; [done|by right].
Qed.

(** The prefill phase passes over every job, within its bound. *)
Lemma prefill_loop_spec n nb (w : t E) first rest :
  (length rest ≤ n)%nat → NoDup (job_ptr <$> (first ++ rest)) → Forall job_ok (first ++ rest) →
  let '(r, (w', jobs')) := prefill_loop clock n nb w first rest in
  phase w (first ++ rest) w' jobs' ∧
  (r = Ok tt → ∀ m, bounded m (first ++ rest) → bounded m jobs').
Proof.
  revert w first rest. induction n as [|n IH]; intros w first rest Hl Hn Ha.
  { destruct rest; [|simpl in Hl; lia]. simpl. rewrite app_nil_r in *. split; [split_and!; done|done]. }
  destruct rest as [|j0 rest0]; cbn [prefill_loop].
  { rewrite app_nil_r in *. split; [split_and!; done|done]. }
  set (rest := j0 :: rest0) in *. pose proof (pack_spec nb 0 0 rest) as P.
  destruct (pack nb 0 0 rest) as [[b passed] later].
  apply Forall_app in Ha as [Ha1 Ha2]. destruct (P Ha2) as (P1 & P2 & P3 & P4 & P5 & P6 & P7).
  specialize (P6 eq_refl ltac:(done)).
  assert (Hk : skey <$> (first ++ passed ++ later) = skey <$> (first ++ rest))
    by (rewrite !(fmap_app skey first), P3; done).
  assert (Hb : ∀ m, bounded m (first ++ rest) → bounded m (first ++ passed ++ later)).
  { intros m Hm j [Hj|Hj]%elem_of_app; [apply Hm; set_solver|]. apply P5; [|done].
    intros x Hx. apply Hm. set_solver. }
  assert (Ph : phase w (first ++ rest) w (first ++ passed ++ later)) by (split_and!; [done..|by apply Forall_app]).
  assert (Hn' : NoDup (job_ptr <$> (first ++ passed ++ later))) by (by rewrite (phase_ptrs _ _ _ _ Ph)).
  destruct (items b) as [|it its] eqn:Eb.
  - specialize (IH w (first ++ passed) later ltac:(lia)). rewrite <- app_assoc in IH.
    specialize (IH Hn' ltac:(apply Ph)). destruct (prefill_loop _ _ _ _ _ _) as [r [w' jobs']].
    destruct IH as [I1 I2]. split; [by eapply phase_trans|auto].
  - assert (Hs : NoDup (sampling b) ∧ running (sampling b) (first ++ passed ++ later)).
    { rewrite P1. split; [|apply running_filter; [done|set_solver]].
      eapply sublist_NoDup; [exact Hn'|]. apply fmap_sublist. etrans; [apply sublist_filter|].
      apply sublist_inserts_l, sublist_inserts_r. done. }
    destruct Hs as [Hs1 Hs2].
    pose proof (submit_spec w (first ++ passed ++ later) b Hn' Hs1 ltac:(apply Ph) Hs2) as S.
    destruct (submit clock w (first ++ passed ++ later) b) as [[u|what] [w1 jobs1]]; destruct S as [S1 S2].
    + destruct u. specialize (S2 eq_refl).
      assert (Hlen : length jobs1 = (length first + length passed + length later)%nat).
      { apply Forall2_length in S2. rewrite !length_app in S2. lia. }
      set (i := (length first + length passed)%nat).
      specialize (IH w1 (take i jobs1) (drop i jobs1)). rewrite take_drop, length_drop in IH.
      specialize (IH ltac:(unfold i; lia) ltac:(by rewrite (phase_ptrs _ _ _ _ S1)) ltac:(apply S1)).
      destruct (prefill_loop _ _ _ _ _ _) as [r [w' jobs']]. destruct IH as [I1 I2]. split.
      * eapply phase_trans; [exact Ph|]. by eapply phase_trans.
      * intros Hr m Hm. apply (I2 Hr). by apply (moved_bounded (sampling b) _ _ m Hn' S2 Hs2), Hb.
    + split; [by eapply phase_trans|done].
Qed.

(** ** The ends *)

Lemma abort_all_spec what (w : t E) jobs :
  Forall job_ok jobs →
  let '(w', jobs') := abort_all what w jobs in
  phase w jobs w' jobs' ∧ Forall (λ j, job_finished j = true) jobs'.
Proof.
  revert w. induction jobs as [|job jobs IH]; intros w Ha; simpl.
  { split; [split_and!; done|done]. }
  apply Forall_cons in Ha as [Hj Ha].
  set (job1 := if job_finished job then job else _).
  assert (H1 : job_finished job1 = true ∧ job_ok job1 ∧ skey job1 = skey job).
  { unfold job1, job_ok in *. destruct (job_finished job) eqn:Ef; [|done]. by rewrite Ef. }
  destruct H1 as (H1 & H2 & H3). pose proof (finish_job_ok w job1 H1 H2) as (F1 & F2 & F3 & F4).
  pose proof (quiet_finish_job w job1) as Q. destruct (finish_job w job1) as [w1 job2]. simpl in *.
  set (w2 := set_engine _ _). specialize (IH w2 Ha).
  destruct (abort_all what w2 jobs) as [w3 jobs']. destruct IH as [(I1 & I2 & I3 & I4) I5].
  split; [|by constructor]. split_and!.
  - etrans; [apply quiet_steady, Q|]. etrans; [|exact I1]. done.
  - rewrite I2. done.
  - simpl. rewrite F3, H3. by f_equal.
  - by constructor.
Qed.

(** What the last loop does with one job. *)
Lemma close_job_spec (w : t E) job refs :
  job_finished job = true → job_ok job →
  BlockAllocator.accounts (blocks_ w) (BlockTable.blocks_ (job_blocks job) ++ refs) →
  let w' := close_job clock w job in
  (∃ r, results_ (world_ w') = results_ (world_ w) ++ [(job_promise job, r)] ∧ res_reason r ≠ kUnset) ∧
  BlockAllocator.accounts (blocks_ w') refs ∧ config_ w' = config_ w ∧ environ w' = environ w ∧
  ∀ held, book w (job_promise job :: held) → book w' held.
Proof.
  intros Hf Ho A. unfold close_job. pose proof (finish_job_ok w job Hf Ho) as (F1 & F2 & F3 & F4).
  pose proof (quiet_finish_job w job) as Q. destruct (finish_job w job) as [w1 job1]. simpl in Q, F1, F2, F3, F4.
  injection F3 as K1 K2 K3 K4. unfold job_ok in F2. rewrite F1 in F2. simpl.
  set (job2 := set_table job1 _). set (w2 := add_stat _ _ _).
  destruct (deliver_book clock w2 job2) as (D1 & _ & D3).
  assert (Hp : job_promise job2 = job_promise job) by exact K2.
  split_and!.
  - unfold deliver. destruct (RequestTiming.finished _); simpl; rewrite (q_results _ _ Q); rewrite <- Hp; eauto.
  - assert (Hb : blocks_ (deliver clock w2 job2) = blocks_ w2)
      by (unfold deliver; by destruct (RequestTiming.finished _)).
    rewrite Hb. simpl. rewrite F4, K4. by apply BlockAllocator.free_accounts.
  - rewrite D1. apply Q.
  - rewrite deliver_environ. apply (quiet_environ _ _ Q).
  - intros held B. apply D3. rewrite Hp. change (book w1 (job_promise job :: held)). by rewrite <- Q.
Qed.

Lemma close_all_spec (w : t E) jobs refs :
  Forall (λ j, job_finished j = true ∧ job_ok j) jobs →
  BlockAllocator.accounts (blocks_ w) (tables jobs ++ refs) →
  let w' := fold_left (close_job clock) jobs w in
  (∃ rs, results_ (world_ w') = results_ (world_ w) ++ rs ∧ rs.*1 = job_promise <$> jobs ∧
     Forall (λ x, res_reason x.2 ≠ kUnset) rs) ∧
  BlockAllocator.accounts (blocks_ w') refs ∧ config_ w' = config_ w ∧ environ w' = environ w ∧
  ∀ held, book w ((job_promise <$> jobs) ++ held) → book w' held.
Proof.
  revert w. induction jobs as [|job jobs IH]; intros w Ha A; simpl.
  { split_and!; try done. exists []. by rewrite app_nil_r. }
  apply Forall_cons in Ha as [[Hf Ho] Ha]. rewrite tables_cons, <- app_assoc in A.
  destruct (close_job_spec w job _ Hf Ho A) as ((r & R1 & R2) & A' & C1 & N1 & B1).
  destruct (IH _ Ha A') as ((rs & I1 & I2 & I3) & I4 & I5 & I7 & I6). split_and!; try done.
  - exists ((job_promise job, r) :: rs). rewrite I1, R1, <- app_assoc.
    rewrite fmap_cons, I2. split_and!; try done. by constructor.
  - congruence.
  - congruence.
  - intros held B. by apply I6, B1.
Qed.

(** ** Admission *)

Definition begin_threw (what : bytes) : Prop :=
  ∃ (e e' : E) seq params, begin_sequence e seq params = (Throw what, e').

Lemma make_job_ok (w : t E) req seq :
  max_tokens (req_spec req) < 4294967296 →
  match make_job w req seq with
  | (Throw what, _) => begin_threw what
  | (Ok job, w') =>
      job_ok job ∧ left job ≤ max_tokens (req_spec req) ∧ results_ (world_ w') = results_ (world_ w)
  end.
Proof.
  intros Hm. unfold make_job, begin_threw. simpl.
  destruct (req_sink req); simpl; destruct (tokenize _ _ _) as [p e1];
    destruct (begin_sequence e1 seq _) as [[u|what] e2] eqn:Eb; eauto; simpl;
    unfold job_ok, left, job_finished, job_usage; simpl;
    (destruct (_ && _); simpl; split_and!; try done; try lia; by apply SequenceState.inv_make).
Qed.

Lemma admit_static_spec (w : t E) job refs :
  job_ok job → job_blocks job = BlockTable.empty → BlockAllocator.accounts (blocks_ w) refs →
  let (w', job') := admit_static clock w job in
  quiet w w' ∧ key job' = key job ∧ job_ok job' ∧ (job_finished job' = true ∨ left job' = left job) ∧
  BlockAllocator.accounts (blocks_ w') (BlockTable.blocks_ (job_blocks job') ++ refs).
Proof.
  intros Hj Hb A. unfold admit_static. destruct (job_finished job) eqn:Ef.
  - simpl. rewrite Hb. split_and!; try done; auto.
  - set (n := add32 _ _). rewrite Hb.
    pose proof (BlockTable.ensure_capacity_spec (blocks_ w) BlockTable.empty n refs A ltac:(vm_compute; done)) as C.
    destruct (BlockTable.ensure_capacity _ _ n) as [[[] a] tb]; simpl.
    + destruct C as (extra & C1 & _ & _ & _ & _ & _ & _ & C8). split_and!; try done. by right.
    + destruct C as (-> & -> & _). split_and!; try done. by left.
Qed.

Lemma make_jobs_spec (w : t E) i batch refs :
  Forall (λ r, max_tokens (req_spec r) < 4294967296) batch → BlockAllocator.accounts (blocks_ w) refs →
  match make_jobs clock w i batch with
  | (Throw what, _) => begin_threw what
  | (Ok jobs, w') =>
      job_promise <$> jobs = req_result <$> batch ∧
      NoDup (job_ptr <$> jobs) ∧ (∀ j, j ∈ jobs → next_job_ (world_ w) ≤ job_ptr j) ∧
      Forall job_ok jobs ∧
      (∀ m, Forall (λ r, max_tokens (req_spec r) ≤ m) batch → bounded m jobs) ∧
      results_ (world_ w') = results_ (world_ w) ∧ config_ w' = config_ w ∧ environ w' = environ w ∧
      BlockAllocator.accounts (blocks_ w') (tables jobs ++ refs) ∧
      (∀ held, book w held → book w' held)
  end.
Proof.
  revert w i refs. induction batch as [|req batch IH]; intros w i refs Hm A; cbn [make_jobs].
  { split_and!; try done; [constructor|set_solver|]. intros m _ j Hj. by apply not_elem_of_nil in Hj. }
  apply Forall_cons in Hm as [Hm1 Hm]. pose proof (make_job_spec w req (to_i32 i)) as M.
  pose proof (make_job_ok w req (to_i32 i) Hm1) as O.
  destruct (make_job w req (to_i32 i)) as [[job|what] w1]; [|done].
  destruct M as (M1 & M2 & M3 & M4 & M5 & M6 & M7 & _ & M9 & M8), O as (O1 & O2 & O3).
  rewrite <- M7 in A. pose proof (admit_static_spec w1 job refs O1 M4 A) as S.
  destruct (admit_static clock w1 job) as [w2 job1]. destruct S as (Q & K & S1 & S2 & A2).
  specialize (IH w2 (i + 1) _ Hm A2). destruct (make_jobs clock w2 (i + 1) batch) as [[jobs|what] w3]; [|done].
  destruct IH as (I1 & I2 & I3 & I4 & I5 & I6 & I7 & I10 & I8 & I9).
  rewrite (q_next _ _ Q), M6 in I3. injection K as K1 K2 K3. split_and!.
  - rewrite !fmap_cons, I1, K2. unfold job_promise. by rewrite M2.
  - simpl. constructor; [|done]. intros Hin. apply list_elem_of_fmap in Hin as (j & Hj & Hin).
    specialize (I3 j Hin). lia.
  - intros j [->|Hj]%elem_of_cons; [lia|]. specialize (I3 j Hj). lia.
  - by constructor.
  - intros m [Hr Hrs]%Forall_cons j [->|Hj]%elem_of_cons; [|by apply (I5 m)].
    destruct S2 as [?|S2]; [by left|right; lia].
  - by rewrite I6, (q_results _ _ Q).
  - by rewrite I7, (q_config _ _ Q).
  - by rewrite I10, (quiet_environ _ _ Q).
  - rewrite tables_cons. eapply BlockAllocator.accounts_proper; [done| |exact I8]. solve_Permutation.
  - intros held B. apply I9. rewrite <- Q. by apply M8.
Qed.

(** ** The batch *)

(** What a batch ends with: one result per request, in order, each with a reason;
    the pool and the books as they were, the batch's own share settled. *)
Definition settled (w : t E) (batch : list Request) (refs : list N) (w' : t E) : Prop :=
  (∃ rs, results_ (world_ w') = results_ (world_ w) ++ rs ∧ rs.*1 = req_result <$> batch ∧
     Forall (λ x, res_reason x.2 ≠ kUnset) rs) ∧
  BlockAllocator.accounts (blocks_ w') refs ∧ config_ w' = config_ w ∧
  fed [] w w' ∧
  ∀ held, book w ((req_result <$> batch) ++ held) → book w' held.

Lemma run_batch_settles fuel m (w : t E) batch refs :
  Forall (λ r, max_tokens (req_spec r) ≤ m) batch → m < 4294967296 → (N.to_nat m + 2 ≤ fuel)%nat →
  BlockAllocator.accounts (blocks_ w) refs →
  match run_batch clock fuel w batch with
  | (Returned, w') => settled w batch refs w'
  | (Threw what, _) => begin_threw what
  | _ => False
  end.
Proof.
  intros Hm Hm32 Hfuel A. unfold run_batch. destruct batch as [|r0 batch0].
  { split_and!; try done. exists []. by rewrite app_nil_r. }
  set (batch := r0 :: batch0) in *. pose proof (make_jobs_spec w 0 batch refs) as M.
  destruct (make_jobs clock w 0 batch) as [[jobs|what] w1].
  2: { apply M; [|done]. eapply Forall_impl; [exact Hm|]. simpl. lia. }
  destruct M as (M1 & M2 & _ & M4 & M5 & M6 & M7 & M10 & M8 & M9); [|done|].
  { eapply Forall_impl; [exact Hm|]. simpl. lia. }
  set (nb := n_batch _). pose proof (prefill_loop_spec (length jobs) nb w1 [] jobs ltac:(lia) M2 M4) as P.
  assert (G : ∃ r w2 jobs2,
    match prefill_loop clock (length jobs) nb w1 [] jobs with
    | (Throw what, r) => Some (Throw what, r)
    | (Ok _, (w2, jobs2)) => decode_phase clock fuel w2 jobs2
    end = Some (r, (w2, jobs2)) ∧ phase w1 jobs w2 jobs2 ∧
    (r = Ok tt → Forall (λ j, job_finished j = true) jobs2)).
  { destruct (prefill_loop clock (length jobs) nb w1 [] jobs) as [[u|what] [w2 jobs2]]; destruct P as [P1 P2];
      simpl in P1, P2; [|by eexists _, _, _].
    destruct u. specialize (P2 eq_refl m (M5 m Hm)).
    destruct (decode_phase_spec fuel w2 jobs2) as (r & w3 & jobs3 & D1 & D2 & D3);
      [by rewrite (phase_ptrs _ _ _ _ P1)|apply P1| |lia|].
    { intros j Hj. destruct (P2 j Hj); [by left|right; lia]. }
    exists r, w3, jobs3. split_and!; [done|by eapply phase_trans|done]. }
  destruct G as (r & w2 & jobs2 & -> & Ph & Hfin).
  assert (G : let '(w3, jobs3) := match r with Ok _ => (w2, jobs2) | Throw what => abort_all what w2 jobs2 end in
    phase w1 jobs w3 jobs3 ∧ Forall (λ j, job_finished j = true) jobs3).
  { destruct r as [[]|what]; [auto|]. pose proof (abort_all_spec what w2 jobs2 ltac:(apply Ph)) as B.
    destruct (abort_all what w2 jobs2) as [w3 jobs3]. destruct B. split; [by eapply phase_trans|done]. }
  destruct (match r with Ok _ => (w2, jobs2) | Throw what => abort_all what w2 jobs2 end) as [w3 jobs3].
  destruct G as [(H1 & H2 & H3 & H4) H5].
  assert (Hp : job_promise <$> jobs3 = req_result <$> batch)
    by (rewrite <- M1; apply keys_promises, skeys_keys, H3).
  destruct (close_all_spec w3 jobs3 refs) as ((rs & C1 & C2 & C3) & C4 & C5 & C7 & C6).
  { rewrite Forall_forall in H4, H5. apply Forall_forall. auto. }
  { rewrite H2, (skeys_tables _ _ H3). done. }
  split_and!; simpl; try done.
  - exists rs. rewrite C1, (s_results _ _ H1), M6, C2, Hp. done.
  - rewrite C5, (s_config _ _ H1). done.
  - change (fed [] w (fold_left (close_job clock) jobs3 w3)). apply (fed_trans [] [] _ w3); [|by apply environ_fed].
    apply (fed_trans [] [] _ w1); [by apply environ_fed|apply H1].
  - intros held B. change (book (fold_left (close_job clock) jobs3 w3) held). apply C6. rewrite Hp.
    apply (s_book _ _ H1), M9, B.
Qed.

(** A static batch is always answered, in order, within the budget of its
    longest request, and returns every block it took.  For requests of at most [m]
    tokens, [m + 2] decode rounds are enough: [run_batch] ends, and unless
    [begin_sequence] throws while the batch is being formed it fulfils every promise
    of the batch exactly once, in the order of the batch, each with a finish reason,
    whatever the engine throws while decoding; the pool accounts for exactly the
    references it accounted for before. *)
Theorem run_batch_answers fuel m (w : t E) batch refs :
  Forall (λ r, max_tokens (req_spec r) ≤ m) batch → m < 4294967296 → (N.to_nat m + 2 ≤ fuel)%nat →
  BlockAllocator.accounts (blocks_ w) refs →
  match run_batch clock fuel w batch with
  | (Returned, w') =>
      (∃ rs, results_ (world_ w') = results_ (world_ w) ++ rs ∧ rs.*1 = req_result <$> batch ∧
         Forall (λ x, res_reason x.2 ≠ kUnset) rs) ∧
      BlockAllocator.accounts (blocks_ w') refs
  | (Threw what, _) => begin_threw what
  | _ => False
  end.
Proof.
  intros Hm Hm32 Hf A. pose proof (run_batch_settles fuel m w batch refs Hm Hm32 Hf A) as R.
  destruct (run_batch clock fuel w batch) as [[] w']; try done. by destruct R as (R1 & R2 & _).
Qed.

Lemma run_static_ends fuel steps m (w : t E) refs :
  Forall (λ r, max_tokens (req_spec r) ≤ m) (incoming w) → m < 4294967296 →
  (N.to_nat m + 2 ≤ steps)%nat → (length (incoming w) < fuel)%nat →
  BlockAllocator.accounts (blocks_ w) refs → book w [] →
  match run_static clock fuel steps w with
  | (Threw what, _) => begin_threw what
  | (OutOfFuel, _) => False
  | (o, w') =>
      accepted_promises (world_ w') ≡ₚ answered (world_ w') ∧
      BlockAllocator.accounts (blocks_ w') refs ∧
      (o = Returned → RequestQueue.closed_ (queue_ w') = true) ∧ (closing w → o = Returned)
  end.
Proof.
  intros Hm Hm32 Hs. revert w Hm. induction fuel as [|fuel IH]; intros w Hm Hf A B; [lia|]. cbn [run_static].
  assert (Hdone : ∀ w' : t E, book w' [] → RequestQueue.queue_ (queue_ w') = [] →
    accepted_promises (world_ w') ≡ₚ answered (world_ w')).
  { intros w' B' Hq. unfold book, queued in B'. rewrite Hq in B'. by rewrite !app_nil_r in B'. }
  pose proof (next_batch_spec w) as N. destruct (next_batch w) as [[batch|] w1].
  - destruct N as (N1 & N2 & N3 & N4 & N5). specialize (N4 [] B).
    destruct batch as [|r0 batch0]; [destruct (N5 eq_refl); rewrite N2; split_and!; auto|].
    set (batch := r0 :: batch0) in *.
    assert (Hall : Forall (λ r, max_tokens (req_spec r) ≤ m) (batch ++ incoming w1))
      by (eapply Forall_sublist; [apply N3|exact Hm]).
    apply Forall_app in Hall as [Hb Hi]. rewrite <- N2 in A.
    pose proof (run_batch_settles steps m w1 batch refs Hb Hm32 Hs A) as R.
    destruct (run_batch clock steps w1 batch) as [[] w2]; try done.
    destruct R as (_ & R2 & R3 & [R4 R6] & R5), N3 as [N3 N6].
    assert (Hlen : (length (incoming w2) < fuel)%nat)
      by (apply sublist_length in R4, N3; rewrite length_app in N3; simpl in R4, N3; lia).
    specialize (IH w2 ltac:(by eapply Forall_sublist) Hlen R2 ltac:(by apply R5)).
    destruct (run_static clock fuel steps w2) as [[] w']; try done; naive_solver.
  - destruct N as (N1 & N2 & N3 & N4). rewrite N2. split_and!; [|done|done|done]. apply Hdone; [|done].
    by apply (s_book _ _ N1).
Qed.

(** C9: static batching serves everything that comes and then stops.  For a finite
    script of what the HTTP threads do, with requests of at most [m] tokens, as many
    batches as requests still to come plus one are enough: [run_static] ends.  It ends
    by returning once the queue is closed and drained, or, when nobody closes the
    queue, by waiting for ever; either way every accepted request has been answered
    exactly once and the pool is as it was.  Only an exception of [begin_sequence] while a
    batch is formed can end it otherwise. *)
Theorem static_serves_all fuel steps m (w : t E) refs :
  Forall (λ r, max_tokens (req_spec r) ≤ m) (incoming w) → m < 4294967296 →
  (N.to_nat m + 2 ≤ steps)%nat → (length (incoming w) < fuel)%nat →
  BlockAllocator.accounts (blocks_ w) refs → book w [] →
  match run_static clock fuel steps w with
  | (Threw what, _) => begin_threw what
  | (OutOfFuel, _) => False
  | (o, w') =>
      accepted_promises (world_ w') ≡ₚ answered (world_ w') ∧
      BlockAllocator.accounts (blocks_ w') refs ∧
      (o = Returned → RequestQueue.closed_ (queue_ w') = true) ∧ (closing w → o = Returned)
  end.
Proof. apply run_static_ends. Qed.

End Engine.

(** ** Witnesses *)

Lemma run_batch_answers_witness :
  let w := demo kStatic in
  let r := run_batch demo_clock 10 w [demo_req 1 "hello" 6; demo_req 2 "yo" 3] in
  r.1 = Returned ∧ answered (world_ r.2) = [1; 2].
Proof.
  intros w r. assert (Hr : r.1 = Returned) by (vm_compute; reflexivity). split; [exact Hr|].
  pose proof (run_batch_answers demo_clock 10 6 w [demo_req 1 "hello" 6; demo_req 2 "yo" 3] []) as R.
  fold r in R. destruct r as [o w']. simpl in Hr. subst o.
  destruct R as ((rs & R1 & R2 & _) & _).
  - repeat constructor; vm_compute; discriminate.
  - lia.
  - vm_compute. lia.
  - apply BlockAllocator.make_accounts; vm_compute; done.
  - unfold answered. simpl. rewrite R1. simpl. exact R2.
Defined.

Lemma static_serves_all_witness :
  let r := run_static demo_clock 4 8 (demo kStatic) in
  r.1 = Returned ∧ accepted_promises (world_ r.2) ≡ₚ answered (world_ r.2).
Proof.
  intros r. assert (Hr : r.1 = Returned) by (vm_compute; reflexivity). split; [exact Hr|].
  pose proof (static_serves_all demo_clock 4 8 6 (demo kStatic) []) as R.
  fold r in R. destruct r as [o w']. simpl in Hr. subst o. apply R.
  - repeat constructor; vm_compute; discriminate.
  - lia.
  - vm_compute. lia.
  - vm_compute. lia.
  - apply BlockAllocator.make_accounts; vm_compute; done.
  - apply book_demo.
Defined.
