(* ===== verification/LlamaEngine.v ===== *)
(** The llama.cpp engine: [include/microvllm/llama_engine.hpp] and
    [src/engine/llama_engine.cpp].

    llama.cpp is not part of the repository: the functions of its C API that the
    engine calls are the class [LlamaApi], over the types of a model [M], its
    vocabulary [V], a context [C] (with its KV memory, which the code reaches through
    [llama_get_memory]) and a sampler [S].  What the engine relies on is
    [LlamaLaws], documented in [llama.h]: a context's sizes are fixed, and a batch
    has room for the tokens it was created for.

    [llama_batch] is a C struct of parallel arrays, allocated once and reused, so
    entries past [n_tokens] are left over from earlier calls; [b_slots] keeps them. *)
From Stdlib Require Import Lia SpecFloat Ascii.
From stdpp Require Import base list gmap strings.
From S2P Require Import Prelude Types Timing Engine Sinks Sequence Mock Queue Scheduler Continuous Demo Batching.

Local Open Scope N_scope.

Import Scheduler Continuous.

(** [std::to_string] on a signed value. *)
Definition num_signed (z : Z) : bytes :=
  if (z <? 0)%Z then str "-" ++ num (Z.to_N (- z)) else num (Z.to_N z).

(** ** The C API *)

(** One index of the arrays [token], [pos], [n_seq_id], [seq_id] and [logits]. *)
Record Slot := mkSlot {
  s_token : Token;
  s_pos : Pos;
  s_n_seq_id : Z;
  s_seq_id : SeqId;
  s_logits : Z }.

Record llama_batch := mkLBatch {
  b_n_tokens : Z;
  b_slots : list Slot }.

(** The fields of [llama_context_params] the engine sets; the others keep the
    library's defaults. *)
Record ContextParams := mkCParams {
  cp_n_ctx : N;
  cp_n_batch : N;
  cp_n_seq_max : N;
  cp_n_threads : Z;
  cp_n_threads_batch : Z;
  cp_kv_unified : bool }.

Class LlamaApi (M V C S : Type) := {
  llama_model_load_from_file : bytes → Z → option M;
  llama_model_get_vocab : M → V;
  llama_init_from_model : M → ContextParams → option C;
  llama_vocab_eos : V → Token;
  llama_vocab_is_eog : V → Token → bool;
  llama_n_ctx : C → N;
  llama_n_batch : C → N;
  llama_n_seq_max : C → N;
  llama_n_ctx_seq : C → N;
  llama_batch_init : Z → list Slot;
  (** the return code, and what is written to the buffer: text, its size, the
      buffer's size, [add_special], [parse_special] *)
  llama_tokenize : V → bytes → Z → Z → bool → bool → Z * list Token;
  llama_token_to_piece : V → Token → Z → Z → bool → Z * bytes;
  llama_sampler_chain_init : S;
  llama_sampler_chain_add : S → S → S;
  llama_sampler_init_penalties : Z → float32 → float32 → float32 → S;
  llama_sampler_init_greedy : S;
  llama_sampler_init_top_k : Z → S;
  llama_sampler_init_top_p : float32 → N → S;
  llama_sampler_init_temp : float32 → S;
  (** the seed, and which sampler of the process it is: with [LLAMA_DEFAULT_SEED] the
      seed is drawn from the system's entropy, which differs from call to call *)
  llama_sampler_init_dist : N → nat → S;
  LLAMA_DEFAULT_SEED : N;
  llama_decode : C → llama_batch → Z * C;
  llama_sampler_sample : S → C → Z → Token * (S * C);
  llama_memory_seq_rm : C → SeqId → Pos → Pos → C;
  llama_memory_seq_cp : C → SeqId → SeqId → Pos → Pos → C }.

(** The sizes a context reports. *)
Definition sizes {M V C S} `{LlamaApi M V C S} (c : C) : N * N * N * N :=
  (llama_n_ctx c, llama_n_batch c, llama_n_seq_max c, llama_n_ctx_seq c).

Class LlamaLaws (M V C S : Type) `{LlamaApi M V C S} : Prop := {
  decode_sizes (c : C) b : sizes (llama_decode c b).2 = sizes c;
  sample_sizes (s : S) (c : C) i : sizes (llama_sampler_sample s c i).2.2 = sizes c;
  seq_rm_sizes (c : C) q p0 p1 : sizes (llama_memory_seq_rm c q p0 p1) = sizes c;
  seq_cp_sizes (c : C) q q' p0 p1 : sizes (llama_memory_seq_cp c q q' p0 p1) = sizes c;
  batch_room n : (0 ≤ n)%Z → length (llama_batch_init n) = Z.to_nat n }.

Module LlamaModelEngine.

Record LlamaEngineConfig := mkConfig {
  model_path : bytes;
  cfg_n_ctx : N;
  cfg_n_batch : N;
  cfg_n_seq_max : N;
  n_threads : Z;
  n_gpu_layers : Z;
  kv_unified : bool }.

Definition default_config : LlamaEngineConfig := mkConfig [] 4096 2048 16 8 0 true.

Section Api.
Context {M V C S : Type} `{HA : LlamaApi M V C S}.

(** [Impl]; [memory] is part of the context.  [entropy] is no member: it counts the
    samplers created, to tell apart what the system's entropy source gave them. *)
Record t := mk {
  model : M;
  context : C;
  vocab : V;
  batch : llama_batch;
  eos_ : Token;
  n_batch_ : N;
  samplers : gmap Z S;
  entropy : nat }.

Definition set_context (e : t) (c : C) : t :=
  mk (model e) c (vocab e) (batch e) (eos_ e) (n_batch_ e) (samplers e) (entropy e).
Definition set_batch (e : t) (b : llama_batch) : t :=
  mk (model e) (context e) (vocab e) b (eos_ e) (n_batch_ e) (samplers e) (entropy e).
Definition set_samplers (e : t) (m : gmap Z S) : t :=
  mk (model e) (context e) (vocab e) (batch e) (eos_ e) (n_batch_ e) m (entropy e).
Definition set_entropy (e : t) (k : nat) : t :=
  mk (model e) (context e) (vocab e) (batch e) (eos_ e) (n_batch_ e) (samplers e) k.

Definition make (cfg : LlamaEngineConfig) : res t :=
  match llama_model_load_from_file (model_path cfg) (n_gpu_layers cfg) with
  | None => Throw (str "failed to load model: " ++ model_path cfg)
  | Some m =>
      let v := llama_model_get_vocab m in
      let cp := mkCParams (cfg_n_ctx cfg) (cfg_n_batch cfg) (cfg_n_seq_max cfg)
                          (n_threads cfg) (n_threads cfg) (kv_unified cfg) in
      match llama_init_from_model m cp with
      | None => Throw (str "failed to create llama_context")
      | Some c =>
          let nb := llama_n_batch c in
          Ok (mk m c v (mkLBatch 0 (llama_batch_init (to_i32 nb))) (llama_vocab_eos v) nb ∅ 0)
      end
  end.

Definition caps (e : t) : EngineCaps :=
  mkCaps (llama_n_ctx (context e)) (llama_n_batch (context e)) (llama_n_seq_max (context e))
         (eos_ e) (llama_n_ctx_seq (context e)).

(** The first [length l] elements of a buffer overwritten by [l], and [resize]. *)
Definition written {A} (l buf : list A) : list A := l ++ drop (length l) buf.
Definition resized {A} (fill : A) (n : Z) (buf : list A) : list A :=
  take (Z.to_nat n) buf ++ replicate (Z.to_nat n - length buf) fill.

(** What [tokenize] and [piece] read: the vocabulary only. *)
Definition text_tokens (v : V) (text : bytes) (add_special : bool) : list Token :=
  let tokens := replicate (A:=Token) (length text + 2) 0%Z in
  let (n, l) := llama_tokenize v text (to_i32 (len text)) (to_i32 (len tokens)) add_special true in
  let tokens := written l tokens in
  let (n, tokens) :=
    if (n <? 0)%Z then
      let tokens := resized (A:=Token) 0%Z (- n) tokens in
      let (n', l') := llama_tokenize v text (to_i32 (len text)) (to_i32 (len tokens)) add_special true in
      (n', written l' tokens)
    else (n, tokens) in
  resized (A:=Token) 0%Z (if (n <? 0)%Z then 0%Z else n) tokens.

Definition token_text (v : V) (token : Token) : bytes :=
  let buf := replicate 256 Ascii.zero in
  let (n, l) := llama_token_to_piece v token 256 0 false in
  if (0 <=? n)%Z then take (Z.to_nat n) (written l buf)
  else
    let s := replicate (Z.to_nat (- n)) Ascii.zero in
    let (n', l') := llama_token_to_piece v token (to_i32 (len s)) 0 false in
    resized Ascii.zero (if (n' <? 0)%Z then 0%Z else n') (written l' s).

Definition tokenize (e : t) (text : bytes) (add_special : bool) : list Token * t :=
  (text_tokens (vocab e) text add_special, e).

Definition piece (e : t) (token : Token) : bytes * t := (token_text (vocab e) token, e).

Definition f32_one : float32 := f32_of_Z 1.
Definition f32_zero : float32 := S754_zero false.

(** The sampler chain of a request, built as the code adds its stages, with the [k]-th
    reading of the entropy source. *)
Definition sampler_chain (p : SamplingParams) (k : nat) : S :=
  let chain := llama_sampler_chain_init in
  let chain :=
    if negb (SFeqb (repeat_penalty p) f32_one) then
      llama_sampler_chain_add chain
        (llama_sampler_init_penalties 64 (repeat_penalty p) f32_zero f32_zero)
    else chain in
  if SFleb (temperature p) f32_zero then llama_sampler_chain_add chain llama_sampler_init_greedy
  else
    let chain :=
      if (0 <? top_k p)%Z then llama_sampler_chain_add chain (llama_sampler_init_top_k (top_k p))
      else chain in
    let chain := llama_sampler_chain_add chain (llama_sampler_init_top_p (top_p p) 1) in
    let chain := llama_sampler_chain_add chain (llama_sampler_init_temp (temperature p)) in
    let sd := if seed p =? 0 then LLAMA_DEFAULT_SEED else seed p in
    llama_sampler_chain_add chain (llama_sampler_init_dist sd k).

Definition begin_sequence (e : t) (seq : SeqId) (p : SamplingParams) : res unit * t :=
  (Ok tt, set_entropy (set_samplers e (<[seq := sampler_chain p (entropy e)]> (samplers e))) (Datatypes.S (entropy e))).

(** The inner loop of [decode] from index [k] of the item's tokens on.  Writing past
    the arrays would be undefined; [decode] has checked that the batch has room. *)
Fixpoint fill_tokens (item : BatchItem) (toks : list Token) (k : N) (b : llama_batch) : llama_batch :=
  match toks with
  | [] => b
  | tok :: rest =>
      let is_last := k + 1 =? len (item_tokens item) in
      let slot := mkSlot tok (item_pos0 item + to_i32 k)%Z 1 (item_seq item)
                         (if item_sample item && is_last then 1 else 0)%Z in
      fill_tokens item rest (k + 1)
        (mkLBatch (b_n_tokens b + 1) (<[Z.to_nat (b_n_tokens b) := slot]> (b_slots b)))
  end.

(** The outer loop: the filled batch, and where to sample for whom. *)
Fixpoint fill_items (items : list BatchItem) (b : llama_batch) (to_sample : list (SeqId * Z))
    : llama_batch * list (SeqId * Z) :=
  match items with
  | [] => (b, to_sample)
  | item :: rest =>
      let b' := fill_tokens item (item_tokens item) 0 b in
      let to_sample' :=
        if item_sample item && negb (len (item_tokens item) =? 0)
        then push_back to_sample (item_seq item, b_n_tokens b' - 1)%Z else to_sample in
      fill_items rest b' to_sample'
  end.

(** The sampling loop: an exception keeps the effects of the samples before it. *)
Fixpoint sample_loop (todo : list (SeqId * Z)) (e : t) (steps : list GenStep)
    : res (list GenStep) * t :=
  match todo with
  | [] => (Ok steps, e)
  | (seq, index) :: rest =>
      match samplers e !! seq with
      | None => (Throw (str "decode on a sequence without begin_sequence"), e)
      | Some smpl =>
          let '(tok, (smpl', c)) := llama_sampler_sample smpl (context e) index in
          sample_loop rest (set_context (set_samplers e (<[seq := smpl']> (samplers e))) c)
            (push_back steps (mkStep seq tok (llama_vocab_is_eog (vocab e) tok)))
      end
  end.

Definition total_size (items : list BatchItem) : N :=
  fold_left (λ total item, add64 total (len (item_tokens item))) items 0.

Definition decode (e : t) (items : list BatchItem) : res (list GenStep) * t :=
  let total := total_size items in
  if n_batch_ e <? total then
    (Throw (str "decode: batch of " ++ num total ++ str " tokens exceeds n_batch="
              ++ num (n_batch_ e) ++ str " (chunked prefill lands in Phase 4)"), e)
  else
    let (b, to_sample) := fill_items items (mkLBatch 0 (b_slots (batch e))) [] in
    let (rc, c) := llama_decode (context e) b in
    let e1 := set_context (set_batch e b) c in
    if negb (rc =? 0)%Z then (Throw (str "llama_decode failed with code " ++ num_signed rc), e1)
    else sample_loop to_sample e1 [].

Definition release_sequence (e : t) (seq : SeqId) : t :=
  set_context (set_samplers e (delete seq (samplers e)))
              (llama_memory_seq_rm (context e) seq (-1)%Z (-1)%Z).

Definition copy_sequence (e : t) (src dst : SeqId) (n_tokens : Pos) : res unit * t :=
  if (n_tokens <=? 0)%Z || (src =? dst)%Z then (Ok tt, e)
  else (Ok tt, set_context e (llama_memory_seq_cp (context e) src dst 0%Z n_tokens)).

End Api.
Arguments t : clear implicits.

#[global] Instance engine {M V C S} `{LlamaApi M V C S} : IModelEngine (t M V C S) := {
  Engine.caps := caps;
  Engine.tokenize := tokenize;
  Engine.piece := piece;
  Engine.begin_sequence := begin_sequence;
  Engine.decode := decode;
  Engine.release_sequence := release_sequence;
  Engine.copy_sequence := copy_sequence }.

(** ** What a batch must look like *)

(** The items that get a step. *)
Definition answered (items : list BatchItem) : list BatchItem :=
  filter (λ i, item_sample i = true ∧ item_tokens i ≠ []) items.

(** The entry of an item's [k]-th token: consecutive positions of its sequence, and
    logits for the last token of an item that samples. *)
Definition slot_at (i : BatchItem) (k : nat) (tok : Token) : Slot :=
  mkSlot tok (item_pos0 i + Z.of_nat k)%Z 1 (item_seq i)
    (if item_sample i && (Nat.eqb (k + 1) (length (item_tokens i))) then 1 else 0)%Z.

Definition item_slots (i : BatchItem) : list Slot := imap (slot_at i) (item_tokens i).

(** The entries the backend reads. *)
Definition live (b : llama_batch) : list Slot := take (Z.to_nat (b_n_tokens b)) (b_slots b).

(** The entries that ask for logits, with their index. *)
Fixpoint requested (off : Z) (l : list Slot) : list (SeqId * Z) :=
  match l with
  | [] => []
  | s :: rest =>
      (if (s_logits s =? 1)%Z then [(s_seq_id s, off)] else []) ++ requested (off + 1)%Z rest
  end.

Lemma requested_app off l l' :
  requested off (l ++ l') = requested off l ++ requested (off + Z.of_nat (length l))%Z l'.
Proof.
  revert off. induction l as [|s l IH]; intros off; simpl.
  { f_equal. lia. }
  rewrite IH, <- app_assoc. do 3 f_equal. lia.
Qed.

Lemma requested_slots i toks k off :
  (k + length toks = length (item_tokens i))%nat →
  requested off (imap (λ j, slot_at i (k + j)) toks)
    = if item_sample i && negb (Nat.eqb (length toks) 0)
      then [(item_seq i, off + Z.of_nat (length toks) - 1)%Z] else [].
Proof.
  revert k off. induction toks as [|tok toks IH]; intros k off Hk; simpl.
  { by rewrite andb_false_r. }
  rewrite (imap_ext _ (λ j, slot_at i (Datatypes.S k + j))) by (intros; simpl; f_equal; lia).
  simpl in Hk. rewrite IH by lia. unfold slot_at. simpl. rewrite andb_true_r.
  destruct (item_sample i); simpl; [|done].
  destruct toks as [|t2 toks]; simpl in *.
  - rewrite (proj2 (Nat.eqb_eq _ _)) by lia. simpl. do 2 f_equal. lia.
  - rewrite (proj2 (Nat.eqb_neq _ _)) by lia. simpl. do 2 f_equal. lia.
Qed.

Lemma requested_item i off :
  requested off (item_slots i)
    = if item_sample i && negb (len (item_tokens i) =? 0)
      then [(item_seq i, off + Z.of_nat (length (item_tokens i)) - 1)%Z] else [].
Proof.
  unfold item_slots. etrans; [by apply (requested_slots i (item_tokens i) 0 off)|].
  unfold len. by destruct (item_tokens i).
Qed.

Lemma length_item_slots i : length (item_slots i) = length (item_tokens i).
Proof. apply length_imap. Qed.

(** Filling, seen from a batch whose live entries are [l]. *)
Definition holds (b : llama_batch) (l : list Slot) (room : nat) : Prop :=
  b_n_tokens b = Z.of_nat (length l) ∧ live b = l ∧ length (b_slots b) = room.

Lemma holds_push b l room s :
  holds b l room → (length l < room)%nat →
  holds (mkLBatch (b_n_tokens b + 1) (<[Z.to_nat (b_n_tokens b) := s]> (b_slots b))) (l ++ [s]) room.
Proof.
  intros (H1 & H2 & H3) Hl. unfold holds, live in *. simpl. rewrite H1, Nat2Z.id in *.
  rewrite length_insert, length_app. simpl. split_and!; [lia| |done].
  replace (Z.to_nat (Z.of_nat (length l) + 1)) with (Datatypes.S (length l)) by lia.
  rewrite (take_S_r _ _ s) by (rewrite list_lookup_insert_eq; [done|lia]).
  by rewrite take_insert_ge, H2 by lia.
Qed.

Lemma fill_tokens_holds i toks k b l room :
  holds b l room → (k + length toks = length (item_tokens i))%nat →
  (length l + length toks ≤ room)%nat → len (item_tokens i) < 2147483648 →
  holds (fill_tokens i toks (N.of_nat k) b) (l ++ imap (λ j, slot_at i (k + j)) toks) room.
Proof.
  revert k b l. induction toks as [|tok toks IH]; intros k b l Hb Hk Hr Hlt; cbn [fill_tokens].
  { simpl. by rewrite app_nil_r. }
  simpl in Hk, Hr. assert (Hk32 : N.of_nat k < 2147483648) by (unfold len in Hlt; lia).
  rewrite to_i32_small by done.
  replace (N.of_nat k + 1 =? len (item_tokens i)) with (Nat.eqb (k + 1) (length (item_tokens i))).
  2: { unfold len. destruct (Nat.eqb_spec (k + 1) (length (item_tokens i))), (N.eqb_spec (N.of_nat k + 1) (N.of_nat (length (item_tokens i)))); try done; lia. }
  replace (N.of_nat k + 1) with (N.of_nat (Datatypes.S k)) by lia.
  rewrite imap_cons. rewrite (imap_ext _ (λ j, slot_at i (Datatypes.S k + j)) toks) by (intros; simpl; f_equal; lia).
  rewrite (cons_middle _ _ (imap _ _)), app_assoc. apply IH; [|simpl; lia|rewrite length_app; simpl; lia|done].
  replace (slot_at i (k + 0) tok) with (mkSlot tok (item_pos0 i + Z.of_N (N.of_nat k))%Z 1 (item_seq i)
    (if item_sample i && Nat.eqb (k + 1) (length (item_tokens i)) then 1 else 0)%Z).
  - apply holds_push; [done|lia].
  - unfold slot_at. by rewrite nat_N_Z, Nat.add_0_r.
Qed.

Lemma fill_items_holds items b l room ts :
  holds b l room → (N.of_nat (length l) + batch_tokens items ≤ N.of_nat room) → N.of_nat room < 2147483648 →
  let (b', ts') := fill_items items b ts in
  holds b' (l ++ concat (item_slots <$> items)) room ∧
  ts' = ts ++ requested (Z.of_nat (length l)) (concat (item_slots <$> items)).
Proof.
  revert b l ts. induction items as [|i items IH]; intros b l ts Hb Hr Hlt; cbn [fill_items].
  { simpl. by rewrite !app_nil_r. }
  rewrite batch_tokens_cons in Hr. rewrite fmap_cons. cbn [concat].
  assert (Hl : (length l + length (item_tokens i) ≤ room)%nat) by (unfold len in Hr; lia).
  pose proof (fill_tokens_holds i (item_tokens i) 0 b l room Hb eq_refl Hl ltac:(lia)) as Hf.
  change (imap (λ j, slot_at i (0 + j)) (item_tokens i)) with (item_slots i) in Hf.
  change (N.of_nat 0) with 0 in Hf. set (b1 := fill_tokens i (item_tokens i) 0 b) in *.
  set (ts1 := if item_sample i && _ then _ else ts).
  assert (Hts : ts1 = ts ++ requested (Z.of_nat (length l)) (item_slots i)).
  { rewrite requested_item. unfold ts1. destruct (_ && _); [|by rewrite app_nil_r].
    unfold push_back. do 4 f_equal. destruct Hf as (-> & _). rewrite length_app, length_item_slots. lia. }
  specialize (IH b1 (l ++ item_slots i) ts1 Hf). rewrite length_app, length_item_slots in IH.
  specialize (IH ltac:(unfold len in Hr; lia) Hlt). destruct (fill_items items b1 ts1) as [b2 ts2].
  destruct IH as [I1 I2]. rewrite app_assoc. split; [done|]. rewrite I2, Hts, <- app_assoc. f_equal.
  rewrite requested_app, length_item_slots. do 2 f_equal. lia.
Qed.

(** Whatever the buffers hold, the sequences to sample for are those of the items
    that get a step. *)
Lemma fill_items_seqs items b ts :
  ((fill_items items b ts).2).*1 = ts.*1 ++ (item_seq <$> answered items).
Proof.
  revert b ts. induction items as [|i items IH]; intros b ts; cbn [fill_items].
  { by rewrite app_nil_r. }
  rewrite IH. unfold answered. destruct (item_sample i) eqn:Es; simpl.
  - destruct (N.eqb_spec (len (item_tokens i)) 0) as [E|E]; simpl.
    + rewrite filter_cons_False; [done|]. intros [_ Hn]. by apply Hn, len_0.
    + rewrite filter_cons_True. { unfold push_back. rewrite fmap_app, <- app_assoc. done. }
      split; [done|]. intros Hn. by rewrite Hn in E.
  - rewrite filter_cons_False; [done|]. intros [Hn _]. congruence.
Qed.

Lemma fill_items_room items b ts : length (b_slots (fill_items items b ts).1) = length (b_slots b).
Proof.
  assert (Ht : ∀ i toks k b, length (b_slots (fill_tokens i toks k b)) = length (b_slots b)).
  { intros i toks. induction toks as [|tk toks IH]; intros k b'; cbn [fill_tokens]; [done|].
    rewrite IH. apply length_insert. }
  revert b ts. induction items as [|i items IH]; intros b ts; cbn [fill_items]; [done|]. by rewrite IH, Ht.
Qed.

Lemma answered_sampled items : samples_from_tokens items → answered items = sampled items.
Proof.
  induction 1 as [|i items Hi _ IH]; [done|]. unfold answered, sampled in *.
  destruct (item_sample i) eqn:Es.
  - rewrite !filter_cons_True by auto. by f_equal.
  - rewrite !filter_cons_False; [done|congruence|intros [? _]; congruence].
Qed.

(** ** The engine against its API *)

Section Laws.
Context {M V C S : Type} `{HA : LlamaApi M V C S} `{HL : !LlamaLaws M V C S}.
Implicit Types e : t M V C S.

(** The cached batch size is the context's, and the arrays have that many entries. *)
Definition wf (e : t M V C S) : Prop :=
  n_batch_ e = llama_n_batch (context e) ∧ n_batch_ e < 2147483648 ∧
  length (b_slots (batch e)) = N.to_nat (n_batch_ e).

Lemma sizes_n_batch (c c' : C) : sizes c' = sizes c → llama_n_batch c' = llama_n_batch c.
Proof. unfold sizes. congruence. Qed.

Lemma make_wf cfg e :
  make cfg = Ok e → llama_n_batch (context e) < 2147483648 → wf e.
Proof.
  unfold make. split_ifs; intros [= <-] Hn; simpl in *. unfold wf. simpl. split_and!; try done.
  rewrite batch_room; rewrite to_i32_small by done; lia.
Qed.

Lemma begin_wf e q p : wf e → wf (begin_sequence e q p).2.
Proof. done. Qed.

Lemma release_wf e q : wf e → wf (release_sequence e q).
Proof.
  intros (H1 & H2 & H3). split_and!; try done. simpl. by rewrite (sizes_n_batch _ _ (seq_rm_sizes _ _ _ _)).
Qed.

Lemma copy_wf e q q' n : wf e → wf (copy_sequence e q q' n).2.
Proof.
  intros (H1 & H2 & H3). unfold copy_sequence. destruct (_ || _); [done|]. split_and!; try done.
  simpl. by rewrite (sizes_n_batch _ _ (seq_cp_sizes _ _ _ _ _)).
Qed.

(** What sampling leaves alone. *)
Definition same_frame (e e' : t M V C S) : Prop :=
  sizes (context e') = sizes (context e) ∧ vocab e' = vocab e ∧ batch e' = batch e ∧
  eos_ e' = eos_ e ∧ n_batch_ e' = n_batch_ e.

Lemma sample_loop_frame todo e steps : same_frame e (sample_loop todo e steps).2.
Proof.
  revert e steps. induction todo as [|[q ix] todo IH]; intros e steps; cbn [sample_loop]; [done|].
  destruct (samplers e !! q) as [smpl|]; [|done].
  pose proof (sample_sizes smpl (context e) ix) as Hs.
  destruct (llama_sampler_sample smpl (context e) ix) as [tok [smpl' c]]. simpl in Hs.
  unfold same_frame. destruct (IH (set_context (set_samplers e (<[q := smpl']> (samplers e))) c)
              (push_back steps (mkStep q tok (llama_vocab_is_eog (vocab e) tok))))
    as (-> & -> & -> & -> & ->). done.
Qed.

Lemma sample_loop_seqs todo e steps r e' :
  sample_loop todo e steps = (Ok r, e') → step_seq <$> r = (step_seq <$> steps) ++ todo.*1.
Proof.
  revert e steps. induction todo as [|[q ix] todo IH]; intros e steps; cbn [sample_loop].
  { intros [= -> _]. by rewrite app_nil_r. }
  destruct (samplers e !! q) as [smpl|]; [|done].
  destruct (llama_sampler_sample smpl (context e) ix) as [tok [smpl' c]].
  intros ->%IH. unfold push_back. by rewrite fmap_app, <- app_assoc.
Qed.

Lemma sample_loop_ok todo e steps :
  Forall (λ q, is_Some (samplers e !! q)) todo.*1 →
  ∃ r e', sample_loop todo e steps = (Ok r, e').
Proof.
  revert e steps. induction todo as [|[q ix] todo IH]; intros e steps Hs; cbn [sample_loop]; [eauto|].
  rewrite fmap_cons in Hs. apply Forall_cons in Hs as [[smpl Hq] Hs]. simpl in Hq. rewrite Hq.
  destruct (llama_sampler_sample smpl (context e) ix) as [tok [smpl' c]]. apply IH.
  eapply Forall_impl; [exact Hs|]. intros q' Hq'. simpl.
  destruct (decide (q = q')) as [->|Hne]; [rewrite lookup_insert_eq|rewrite lookup_insert_ne by done]; eauto.
Qed.

(** One sequence without a sampler is enough for the exception. *)
Lemma sample_loop_throws todo e steps :
  Exists (λ q, samplers e !! q = None) todo.*1 →
  ∃ e', sample_loop todo e steps = (Throw (str "decode on a sequence without begin_sequence"), e').
Proof.
  revert e steps. induction todo as [|[q ix] todo IH]; intros e steps Hs; cbn [sample_loop]; [by apply Exists_nil in Hs|].
  destruct (samplers e !! q) as [smpl|] eqn:Eq; [|eauto].
  rewrite fmap_cons in Hs. apply Exists_cons in Hs as [Hs|Hs]; [simpl in Hs; congruence|].
  destruct (llama_sampler_sample smpl (context e) ix) as [tok [smpl' c]]. apply IH.
  eapply Exists_impl; [exact Hs|]. intros q' Hq'. simpl. rewrite lookup_insert_ne; [done|]. intros ->. congruence.
Qed.

Lemma total_size_small items :
  batch_tokens items < 18446744073709551616 → total_size items = batch_tokens items.
Proof.
  unfold total_size. rewrite <- (N.add_0_l (batch_tokens items)). generalize 0.
  induction items as [|i items IH]; intros n Hn; [by rewrite N.add_0_r|].
  simpl. rewrite batch_tokens_cons in *.
  unfold add64. rewrite wrap64_small by lia. rewrite IH by lia. lia.
Qed.

(** [decode] past its size check, as one call of the backend and one sampling loop. *)
Lemma decode_unfold e items :
  wf e → batch_tokens items ≤ n_batch_ e →
  ∃ b, live b = concat (item_slots <$> items) ∧ b_n_tokens b = Z.of_N (batch_tokens items) ∧
    length (b_slots b) = length (b_slots (batch e)) ∧
    (requested 0 (live b)).*1 = item_seq <$> answered items ∧
    decode e items =
      (let (rc, c) := llama_decode (context e) b in
       let e1 := set_context (set_batch e b) c in
       if negb (rc =? 0)%Z then (Throw (str "llama_decode failed with code " ++ num_signed rc), e1)
       else sample_loop (requested 0 (live b)) e1 []).
Proof.
  intros (W1 & W2 & W3) Hb. unfold decode. rewrite total_size_small by lia.
  destruct (N.ltb_spec (n_batch_ e) (batch_tokens items)); [lia|].
  pose proof (fill_items_holds items (mkLBatch 0 (b_slots (batch e))) [] (N.to_nat (n_batch_ e)) []) as F.
  pose proof (fill_items_seqs items (mkLBatch 0 (b_slots (batch e))) []) as Q.
  destruct (fill_items items _ []) as [b ts]. destruct F as [(F1 & F2 & F3) F4].
  { by split_and!. }
  { simpl. lia. }
  { lia. }
  change (Z.of_nat (length [])) with 0%Z in F4. cbn [app] in F1, F2, F4. change (([] : list (SeqId * Z)).*1) with (@nil SeqId) in Q.
  cbn [app snd] in Q. exists b. rewrite F2, <- F4, F3, W3. split_and!; try done.
  rewrite F1. clear. induction items as [|i items IH]; [done|].
  rewrite fmap_cons, batch_tokens_cons. cbn [concat]. rewrite length_app, length_item_slots. unfold len. lia.
Qed.

End Laws.

#[global] Instance contract {M V C S} `{HA : LlamaApi M V C S} `{HL : !LlamaLaws M V C S} :
  EngineContract (t M V C S).
Proof.
  assert (Hc : ∀ e e' : t M V C S, sizes (context e') = sizes (context e) → eos_ e' = eos_ e → caps e' = caps e).
  { intros e e' Hs He. unfold sizes in Hs. unfold caps. congruence. }
  split; simpl.
  - done.
  - done.
  - done.
  - intros e items. unfold decode. destruct (_ <? _); [done|]. destruct (fill_items _ _ _) as [b ts].
    pose proof (decode_sizes (context e) b) as Hd. destruct (llama_decode (context e) b) as [rc c].
    simpl in Hd. destruct (negb _); [by apply Hc|].
    destruct (sample_loop_frame ts (set_context (set_batch e b) c) []) as (F1 & _ & _ & F2 & _).
    apply Hc; simpl in *; congruence.
  - intros e s. apply Hc; [apply seq_rm_sizes|done].
  - intros e s d n. unfold copy_sequence. destruct (_ || _); [done|]. apply Hc; [apply seq_cp_sizes|done].
  - intros e items steps e' Hs. unfold decode. destruct (_ <? _); [done|].
    pose proof (fill_items_seqs items (mkLBatch 0 (b_slots (batch e))) []) as Q.
    destruct (fill_items _ _ _) as [b ts]. destruct (llama_decode (context e) b) as [rc c].
    destruct (negb _); [done|]. intros ->%sample_loop_seqs. simpl in *. by rewrite Q, answered_sampled.
Qed.

Section Claims.
Context {M V C S : Type} `{HA : LlamaApi M V C S} `{HL : !LlamaLaws M V C S}.
Implicit Types e : t M V C S.

Lemma decode_wf e items : wf e → wf (decode e items).2.
Proof.
  intros (W1 & W2 & W3). unfold decode. destruct (_ <? _); [done|].
  pose proof (fill_items_room items (mkLBatch 0 (b_slots (batch e))) []) as Hlen.
  destruct (fill_items _ _ _) as [b ts]. simpl in Hlen.
  pose proof (decode_sizes (context e) b) as Hd. destruct (llama_decode (context e) b) as [rc c]. simpl in Hd.
  apply sizes_n_batch in Hd. destruct (negb _).
  { unfold wf. simpl. split_and!; try done; congruence. }
  destruct (sample_loop_frame ts (set_context (set_batch e b) c) []) as (F1%sizes_n_batch & _ & F2 & _ & F3).
  unfold wf. rewrite F1, F2, F3. simpl. split_and!; try done; congruence.
Qed.

(** C29: [decode] hands llama.cpp exactly the batch it was asked for.  A batch that
    exceeds [n_batch] is refused before the backend is touched.  Otherwise the entries
    the backend reads are the items' tokens in order, each at its item's consecutive
    positions and in its item's sequence, with logits requested exactly at the last
    token of every sampling item, whatever an earlier batch left in the arrays; a
    failing backend is reported with its code and no sampler is advanced; and when it
    succeeds the tokens are sampled at exactly the entries that requested logits: one
    step per sampling item that submits tokens, in order, when their sequences have been
    begun, and the exception about a sequence without [begin_sequence] when one has
    not. *)
Theorem llama_decode_batch e items :
  wf e → batch_tokens items < 18446744073709551616 →
  (n_batch_ e < batch_tokens items → ∃ w, decode e items = (Throw w, e)) ∧
  (batch_tokens items ≤ n_batch_ e →
   ∃ b, live b = concat (item_slots <$> items) ∧ b_n_tokens b = Z.of_N (batch_tokens items) ∧
     let (rc, c) := llama_decode (context e) b in
     let e1 := set_context (set_batch e b) c in
     (rc ≠ 0%Z → decode e items = (Throw (str "llama_decode failed with code " ++ num_signed rc), e1)) ∧
     (rc = 0%Z → decode e items = sample_loop (requested 0 (live b)) e1 [] ∧
        (Forall (λ i, is_Some (samplers e !! item_seq i)) (answered items) →
         ∃ steps e', decode e items = (Ok steps, e') ∧
           step_seq <$> steps = item_seq <$> answered items) ∧
        (Exists (λ i, samplers e !! item_seq i = None) (answered items) →
         ∃ e', decode e items = (Throw (str "decode on a sequence without begin_sequence"), e')))) ∧
  wf (decode e items).2.
Proof.
  intros W Hlt. split_and!.
  - intros Hb. unfold decode. rewrite total_size_small by done.
    destruct (N.ltb_spec (n_batch_ e) (batch_tokens items)); [eauto|lia].
  - intros Hb. destruct (decode_unfold e items W Hb) as (b & B1 & B2 & _ & B3 & ->). exists b.
    split_and!; try done. destruct (llama_decode (context e) b) as [rc c].
    destruct (Z.eqb_spec rc 0) as [->|Hrc]; simpl; (split; [|]); try done.
    intros _. split_and!; [done|intros Hs|intros Hs].
    + destruct (sample_loop_ok (requested 0 (live b)) (set_context (set_batch e b) c) []) as (r & e' & E).
      { rewrite B3. by apply Forall_fmap. }
      exists r, e'. split; [done|]. apply sample_loop_seqs in E. by rewrite E, B3.
    + apply sample_loop_throws. rewrite B3. by apply Exists_fmap.
  - by apply decode_wf.
Qed.

(** The scheduler and the llama.cpp engine fit together.  A mixed batch built for
    the engine's own [n_batch] is never refused: when every active job's sequence has
    been begun and the backend decodes non-empty batches, [decode] returns, with one
    step per sampling job in the order of the jobs. *)
Theorem llama_serves_built_batches e chunk act :
  wf e → 0 < n_batch_ e → Exists (λ j, job_finished j = false) act →
  Forall (λ j, is_Some (samplers e !! job_seq j)) act →
  (∀ b, (0 < b_n_tokens b)%Z → (llama_decode (context e) b).1 = 0%Z) →
  let b := (build_batch (n_batch (caps e)) chunk act).1 in
  ∃ steps e', decode e (items b) = (Ok steps, e') ∧
    step_seq <$> steps = item_seq <$> sampled (items b) ∧ length steps = length (sampling b) ∧ wf e'.
Proof.
  intros W Hnb Hex Hs Hrc b. assert (Hn : n_batch (caps e) = n_batch_ e) by (simpl; by destruct W as [-> _]).
  pose proof (build_batch_fits (n_batch (caps e)) chunk act) as Hfit.
  pose proof (build_batch_sampled (n_batch (caps e)) chunk act) as Hsam.
  pose proof (build_batch_spec (n_batch (caps e)) chunk act) as B.
  subst b. destruct (build_batch (n_batch (caps e)) chunk act) as [b act'] eqn:Eb. simpl fst in *.
  destruct B as (ps & Hi & _ & Hps & _ & Hp & Hne). rewrite Hn in Hfit.
  destruct (decode_unfold e (items b) W Hfit) as (lb & B1 & B2 & _ & B3 & E). rewrite answered_sampled in B3 by done.
  assert (Hpos : (0 < b_n_tokens lb)%Z).
  { rewrite B2. specialize (Hne ltac:(lia) Hex). revert Hne. rewrite Hi, batch_tokens_app, decode_items_tokens.
    destruct (take _ _) as [|j js]; [|rewrite len_cons; lia].
    simpl. destruct Hps as [|i ps Hl _]; [done|]. rewrite batch_tokens_cons. simpl in Hl. lia. }
  specialize (Hrc lb Hpos). destruct (llama_decode (context e) lb) as [rc c]. simpl in Hrc. subst rc. simpl in E.
  destruct (sample_loop_ok (requested 0 (live lb)) (set_context (set_batch e lb) c) []) as (steps & e' & El).
  { rewrite B3. apply Forall_fmap, Forall_forall. intros i Hin.
    apply list_elem_of_lookup in Hin as [k Hk]. destruct (Forall2_lookup_r _ _ _ _ _ Hp Hk) as (p & _ & j & Hj & _ & Hq & _).
    simpl. rewrite <- Hq. by apply (proj1 (Forall_forall _ _) Hs j Hj). }
  pose proof (decode_wf e (items b) W) as W'. rewrite E, El in W'.
  exists steps, e'. apply sample_loop_seqs in El as Q. rewrite B3 in Q. rewrite E, El. split_and!; try done.
  apply (f_equal length) in Q. rewrite !length_fmap in Q. apply Forall2_length in Hp. simpl in Q.
  rewrite length_fmap in Q. lia.
Qed.

(** A tokenizer that reports how much room it needs, as [llama.h] documents. *)
Definition tokenizes (v : V) (full : bytes → bool → list Token) : Prop :=
  ∀ text room add, (0 ≤ room)%Z →
    llama_tokenize v text (Z.of_N (len text)) room add true
      = if (Z.of_N (len (full text add)) <=? room)%Z then (Z.of_N (len (full text add)), full text add)
        else (- Z.of_N (len (full text add)), [])%Z.

Definition renders (v : V) (full : Token → bytes) : Prop :=
  ∀ tok room, (0 ≤ room)%Z →
    llama_token_to_piece v tok room 0 false
      = if (Z.of_N (len (full tok)) <=? room)%Z then (Z.of_N (len (full tok)), full tok)
        else (- Z.of_N (len (full tok)), [])%Z.

Lemma resized_written {A} (d : A) l buf :
  (length l ≤ length buf)%nat → resized d (Z.of_N (len l)) (written l buf) = l.
Proof.
  intros Hl. unfold resized, written, len. rewrite nat_N_Z, Nat2Z.id, take_app_length, length_app, length_drop.
  replace (length l - _)%nat with 0%nat by lia. apply app_nil_r.
Qed.

Lemma length_resized {A} (d : A) n buf : length (resized d n buf) = Z.to_nat n.
Proof. unfold resized. rewrite length_app, length_take, length_replicate. lia. Qed.

(** Tokenizing and rendering lose nothing.  Over a backend that reports the room
    it needs, [tokenize] and [piece] return the whole tokenization and the whole text
    of a token, also when it does not fit the first buffer. *)
Theorem llama_text_complete e full text add rend tok :
  tokenizes (vocab e) full → renders (vocab e) rend →
  len text < 2147483646 → len (full text add) < 2147483648 → len (rend tok) < 2147483648 →
  tokenize e text add = (full text add, e) ∧ piece e tok = (rend tok, e).
Proof.
  intros Ht Hr Hl Hf Hp. split; unfold tokenize, piece; f_equal.
  - unfold text_tokens. set (buf := replicate (A:=Token) (length text + 2) 0%Z).
    assert (Hb : len buf = len text + 2) by (unfold len, buf; rewrite length_replicate; lia).
    rewrite !to_i32_small, Ht, Hb by lia. destruct (Z.leb_spec (Z.of_N (len (full text add))) (Z.of_N (len text + 2))).
    + destruct (Z.ltb_spec (Z.of_N (len (full text add))) 0); [lia|].
      destruct (Z.ltb_spec (Z.of_N (len (full text add))) 0); [lia|].
      rewrite resized_written; [done|]. unfold len in *. lia.
    + destruct (Z.ltb_spec (- Z.of_N (len (full text add))) 0); [|lia].
      set (buf2 := resized _ _ _). assert (Hb2 : len buf2 = len (full text add)).
      { unfold buf2, len. rewrite length_resized. unfold len. lia. }
      rewrite to_i32_small, Ht, Hb2, Z.leb_refl by lia.
      destruct (Z.ltb_spec (Z.of_N (len (full text add))) 0); [lia|].
      rewrite resized_written; [done|]. unfold len in Hb2. lia.
  - unfold token_text. rewrite Hr by lia. destruct (Z.leb_spec (Z.of_N (len (rend tok))) 256).
    + destruct (Z.leb_spec 0 (Z.of_N (len (rend tok)))); [|lia].
      unfold written, len. rewrite nat_N_Z, Nat2Z.id. apply take_app_length.
    + destruct (Z.leb_spec 0 (- Z.of_N (len (rend tok)))); [lia|].
      set (buf := replicate _ _). assert (Hb : len buf = len (rend tok)).
      { unfold buf, len. rewrite length_replicate. unfold len. lia. }
      rewrite to_i32_small, Hr, Hb, Z.leb_refl by lia.
      destruct (Z.ltb_spec (Z.of_N (len (rend tok))) 0); [lia|].
      rewrite resized_written; [done|]. unfold len in Hb. lia.
Qed.

End Claims.

End LlamaModelEngine.

(** ** A small backend, on which the theorems are evaluated

    Tokens are bytes, doubled, after a leading 1; token 7 renders as 300 bytes; the
    backend accepts non-empty batches and samples the index it is asked about. *)
Module ToyLlama.

Inductive Stage : Type := Chain | Penalties (p : float32) | Greedy | TopK (k : Z) | TopP (p : float32)
  | Temp (f : float32) | Dist (s : N).

Record Ctx := mkCtx {
  room : N;
  seen : list llama_batch }.

Definition full (text : bytes) (add : bool) : list Token :=
  (if add then [1%Z] else []) ++ concat ((λ c, [Z.of_N (N_of_ascii c); Z.of_N (N_of_ascii c)]) <$> text).

Definition render (tok : Token) : bytes :=
  if (tok =? 7)%Z then replicate 300 "a"%char else [ascii_of_N (Z.to_N tok)].

Definition sized {A} (l : list A) (n : Z) : Z * list A :=
  if (Z.of_N (len l) <=? n)%Z then (Z.of_N (len l), l) else ((- Z.of_N (len l))%Z, []).

#[global] Instance toy : LlamaApi unit unit Ctx (list Stage) := {
  llama_model_load_from_file path layers := match path with [] => None | _ => Some tt end;
  llama_model_get_vocab m := m;
  llama_init_from_model m cp := Some (mkCtx (cp_n_batch cp) []);
  llama_vocab_eos v := 2%Z;
  llama_vocab_is_eog v tok := (tok =? 2)%Z;
  llama_n_ctx c := 64;
  llama_n_batch c := room c;
  llama_n_seq_max c := 4;
  llama_n_ctx_seq c := 16;
  llama_batch_init n := replicate (Z.to_nat n) (mkSlot 0 0 0 0 0)%Z;
  llama_tokenize v text size n add parse := sized (full text add) n;
  llama_token_to_piece v tok n lstrip special := sized (render tok) n;
  llama_sampler_chain_init := [Chain];
  llama_sampler_chain_add c s := c ++ s;
  llama_sampler_init_penalties n p f q := [Penalties p];
  llama_sampler_init_greedy := [Greedy];
  llama_sampler_init_top_k k := [TopK k];
  llama_sampler_init_top_p p n := [TopP p];
  llama_sampler_init_temp f := [Temp f];
  llama_sampler_init_dist s k := [Dist (if s =? 4294967295 then N.of_nat k else s)];
  LLAMA_DEFAULT_SEED := 4294967295;
  llama_decode c b := ((if (b_n_tokens b =? 0)%Z then -1 else 0)%Z, mkCtx (room c) (b :: seen c));
  llama_sampler_sample s c i := (i, (s, c));
  llama_memory_seq_rm c q p0 p1 := c;
  llama_memory_seq_cp c q q' p0 p1 := c }.

#[global] Instance toy_laws : LlamaLaws unit unit Ctx (list Stage).
Proof. split; try done. intros n _. apply length_replicate. Qed.

Definition e0 : LlamaModelEngine.t unit unit Ctx (list Stage) :=
  LlamaModelEngine.mk tt (mkCtx 16 []) tt (mkLBatch 0 (replicate 16 (mkSlot 9 9 9 9 9)%Z)) 2%Z 16
    (list_to_map ((λ q, (q, [Greedy])) <$> [0; 1; 2; 3]%Z)) 4.

Definition two_items : list BatchItem := [mkItem 0 [5; 6; 7] 0 true; mkItem 1 [8] 4 true]%Z.

Lemma e0_wf : LlamaModelEngine.wf e0.
Proof. vm_compute. split_and!; reflexivity. Qed.

Lemma llama_decode_batch_witness :
  ∃ steps e', LlamaModelEngine.decode e0 two_items = (Ok steps, e') ∧ step_seq <$> steps = [0; 1]%Z.
Proof.
  destruct (LlamaModelEngine.llama_decode_batch e0 two_items e0_wf ltac:(reflexivity)) as (_ & H & _).
  destruct (H ltac:(discriminate)) as (b & _ & Hn & H'). simpl in H'. rewrite Hn in H'. simpl in H'.
  destruct H' as [_ H']. destruct (H' eq_refl) as (_ & Hs & _). apply Hs.
  vm_compute. repeat constructor; eauto.
Defined.

Lemma llama_text_complete_witness :
  LlamaModelEngine.tokenize e0 (str "abcd") true
    = ([1; 97; 97; 98; 98; 99; 99; 100; 100]%Z, e0) ∧
  LlamaModelEngine.piece e0 7%Z = (replicate 300 "a"%char, e0).
Proof.
  apply (LlamaModelEngine.llama_text_complete e0 full (str "abcd") true render 7%Z).
  - intros text n add _. reflexivity.
  - intros tok n _. reflexivity.
  - reflexivity.
  - reflexivity.
  - reflexivity.
Defined.

(** Two running jobs of the demonstration scheduler. *)
Definition jobs : list Job := active (iterate demo_clock 16 (init (demo kContinuous))).2.

Lemma llama_serves_built_batches_witness :
  length jobs = 2%nat ∧
  ∃ steps e', LlamaModelEngine.decode e0 (items (build_batch 16 128 jobs).1) = (Ok steps, e') ∧
    length steps = length (sampling (build_batch 16 128 jobs).1).
Proof.
  split; [vm_compute; reflexivity|].
  destruct (LlamaModelEngine.llama_serves_built_batches e0 128 jobs e0_wf) as (steps & e' & H1 & _ & H2 & _).
  - reflexivity.
  - vm_compute. constructor. reflexivity.
  - vm_compute. repeat constructor; eauto.
  - intros b Hb. simpl. destruct (Z.eqb_spec (b_n_tokens b) 0); [lia|reflexivity].
  - exists steps, e'. split; [exact H1|exact H2].
Defined.

(** The header promises a step for every item with [sample] set; an item without
    tokens gets none. *)
Example empty_item_gets_no_step :
  ∃ steps e', LlamaModelEngine.decode e0 [mkItem 0 [] 0 true; mkItem 1 [8] 4 true]%Z = (Ok steps, e') ∧
    step_seq <$> steps = [1%Z] ∧
    item_seq <$> sampled [mkItem 0 [] 0 true; mkItem 1 [8] 4 true]%Z = [0; 1]%Z.
Proof. eexists _, _. split_and!; vm_compute; reflexivity. Qed.

End ToyLlama.
