(* ===== verification/HttpApi.v ===== *)
(** The JSON contract of the server: [include/microvllm/http_api.hpp] and
    [src/http/http_api.cpp].

    nlohmann::json is not part of the repository: [Json] is the part of its interface
    the code uses, over the type [J] of its values, and [JsonLaws] is what its
    documentation says of it.  [json::parse] throws [parse_error] for text that is
    not JSON and [out_of_range] for a number no double can hold; [get] converts an
    integer by [static_cast]; [dump] throws [type_error] when a string is not UTF-8. *)
From Stdlib Require Import Lia SpecFloat Ascii.
From stdpp Require Import base list gmap strings.
From S2P Require Import Prelude Types Timing Engine Queue.

Local Open Scope N_scope.

(** A double quote, which the messages and the metrics text contain. *)
Definition dq : bytes := [ascii_of_N 34].
Definition quoted (s : string) : bytes := dq ++ str s ++ dq.

(** ** The JSON library *)

Inductive Parsed (J : Type) : Type :=
  | PJson (j : J)
  | PParseError (what : bytes)
  | POutOfRange (what : bytes).
Arguments PJson {J} j.
Arguments PParseError {J} what.
Arguments POutOfRange {J} what.

Class Json (J : Type) := {
  json_parse : bytes → Parsed J;
  is_object : J → bool;
  is_string : J → bool;
  is_array : J → bool;
  is_number : J → bool;
  is_number_integer : J → bool;
  is_number_unsigned : J → bool;
  find : J → bytes → option J;
  elements : J → list J;
  get_string : J → bytes;
  get_u64 : J → N;
  get_integer : J → Z;
  get_u32 : J → N;
  get_i32 : J → Z;
  get_float : J → float32;
  jstring : bytes → J;
  junsigned : N → J;
  jdouble : double → J;
  jobject : list (bytes * J) → J;
  dump : J → res bytes }.

(** UTF-8 as RFC 3629 defines it: shortest forms only, no surrogates, up to U+10FFFF. *)
Definition between (lo hi : N) (c : ascii) : bool := (lo <=? N_of_ascii c) && (N_of_ascii c <=? hi).
Definition cont : ascii → bool := between 128 191.

Fixpoint utf8 (s : bytes) : bool :=
  match s with
  | [] => true
  | a :: s1 =>
      if between 0 127 a then utf8 s1
      else match s1 with
      | [] => false
      | b :: s2 =>
          if between 194 223 a then cont b && utf8 s2
          else match s2 with
          | [] => false
          | c :: s3 =>
              if between 224 239 a then
                (if between 224 224 a then between 160 191 b
                 else if between 237 237 a then between 128 159 b else cont b) && cont c && utf8 s3
              else match s3 with
              | [] => false
              | d :: s4 =>
                  between 240 244 a
                  && (if between 240 240 a then between 144 191 b
                      else if between 244 244 a then between 128 143 b else cont b)
                  && cont c && cont d && utf8 s4
              end
          end
      end
  end.

(** Objects, strings and unsigned numbers: what the code puts in a response. *)
Inductive plain {J} `{Json J} : J → Prop :=
  | plain_string s : utf8 s = true → plain (jstring s)
  | plain_unsigned n : n < 18446744073709551616 → plain (junsigned n)
  | plain_object kvs :
      NoDup kvs.*1 → Forall (λ k, utf8 k = true) kvs.*1 → Forall plain kvs.*2 → plain (jobject kvs).

(** The value under a key of a list of members. *)
Fixpoint member {J} (kvs : list (bytes * J)) (k : bytes) : option J :=
  match kvs with
  | [] => None
  | (k', v) :: rest => if decide (k = k') then Some v else member rest k
  end.

(** An integer converted to [std::int32_t]. *)
Definition narrow_i32 (z : Z) : Z := to_i32 (Z.to_N (z mod 4294967296)).

Class JsonLaws (J : Type) `{Json J} : Prop := {
  get_u32_cast j : is_number_unsigned j = true → get_u32 j = wrap32 (get_u64 j);
  get_i32_cast j : is_number_integer j = true → get_i32 j = narrow_i32 (get_integer j);
  get_u64_unsigned n : n < 18446744073709551616 → get_u64 (junsigned n) = n;
  unsigned_unsigned n : is_number_unsigned (junsigned n) = true;
  get_string_string s : get_string (jstring s) = s;
  string_string s : is_string (jstring s) = true;
  object_object kvs : is_object (jobject kvs) = true;
  find_object kvs k : NoDup kvs.*1 → find (jobject kvs) k = member kvs k;
  dump_plain j : plain j → ∃ s, dump j = Ok s ∧ json_parse s = PJson j;
  dump_strict kvs k s :
    (k, jstring s) ∈ kvs → utf8 s = false → ∃ w, dump (jobject kvs) = Throw w }.

(** ** Results of parsing a request

    A value, a [BadRequest] with its message, or another exception. *)

Inductive api (A : Type) : Type :=
  | Accepted (a : A)
  | BadRequest (message : bytes)
  | Escaped (what : bytes).
Arguments Accepted {A} a.
Arguments BadRequest {A} message.
Arguments Escaped {A} what.

Notation "'let?' x ':=' c 'in' k" :=
  (match c with Accepted x => k | BadRequest m => BadRequest m | Escaped w => Escaped w end)
  (at level 10, x pattern, c at level 200, k at level 200) : mv_scope.
Local Open Scope mv_scope.

(** ** Assignments to the fields of a specification *)

Definition set_prompt (s : RequestSpec) (p : bytes) : RequestSpec :=
  mkSpec p (stop s) (max_tokens s) (sampling s).
Definition set_stop (s : RequestSpec) (l : list bytes) : RequestSpec :=
  mkSpec (prompt s) l (max_tokens s) (sampling s).
Definition set_max_tokens (s : RequestSpec) (n : N) : RequestSpec :=
  mkSpec (prompt s) (stop s) n (sampling s).
Definition set_sampling (s : RequestSpec) (p : SamplingParams) : RequestSpec :=
  mkSpec (prompt s) (stop s) (max_tokens s) p.
Definition set_temperature (s : RequestSpec) (f : float32) : RequestSpec :=
  let p := sampling s in set_sampling s (mkSampling f (top_p p) (top_k p) (repeat_penalty p) (seed p)).
Definition set_top_p (s : RequestSpec) (f : float32) : RequestSpec :=
  let p := sampling s in set_sampling s (mkSampling (temperature p) f (top_k p) (repeat_penalty p) (seed p)).
Definition set_top_k (s : RequestSpec) (k : Z) : RequestSpec :=
  let p := sampling s in set_sampling s (mkSampling (temperature p) (top_p p) k (repeat_penalty p) (seed p)).
Definition set_seed (s : RequestSpec) (n : N) : RequestSpec :=
  let p := sampling s in set_sampling s (mkSampling (temperature p) (top_p p) (top_k p) (repeat_penalty p) n).

Module HttpApi.

Section Json.
Context {J : Type} `{HJ : Json J}.

(** One [if (auto it = j.find(key); it != j.end())] block: a type test that throws,
    then an assignment. *)
Definition optional (j : J) (key : string) (test : J → bool) (message : bytes)
    (assign : J → RequestSpec) (spec : RequestSpec) : api RequestSpec :=
  match find j (str key) with
  | None => Accepted spec
  | Some it => if negb (test it) then BadRequest message else Accepted (assign it)
  end.

(** The loop over a [stop] array. *)
Fixpoint push_stops (elems : list J) (spec : RequestSpec) : api RequestSpec :=
  match elems with
  | [] => Accepted spec
  | elem :: rest =>
      if negb (is_string elem) then BadRequest (quoted "stop" ++ str " array must contain only strings")
      else push_stops rest (set_stop spec (push_back (stop spec) (get_string elem)))
  end.

Definition parse_stop (j : J) (spec : RequestSpec) : api RequestSpec :=
  match find j (str "stop") with
  | None => Accepted spec
  | Some it =>
      if is_string it then Accepted (set_stop spec (push_back (stop spec) (get_string it)))
      else if is_array it then push_stops (elements it) spec
      else BadRequest (quoted "stop" ++ str " must be a string or an array of strings")
  end.

Definition parse_generate_request (body : bytes) : api RequestSpec :=
  let? j :=
    match json_parse body with
    | PJson j => Accepted j
    | PParseError what => BadRequest (str "invalid JSON: " ++ what)
    | POutOfRange what => Escaped what
    end in
  if negb (is_object j) then BadRequest (str "request body must be a JSON object")
  else
    let spec := default_spec in
    let? spec :=
      match find j (str "prompt") with
      | None => BadRequest (quoted "prompt" ++ str " is required and must be a string")
      | Some p =>
          if negb (is_string p)
          then BadRequest (quoted "prompt" ++ str " is required and must be a string")
          else Accepted (set_prompt spec (get_string p))
      end in
    let? spec := optional j "max_tokens" is_number_unsigned
      (quoted "max_tokens" ++ str " must be a non-negative integer")
      (λ it, set_max_tokens spec (get_u32 it)) spec in
    let? spec := optional j "temperature" is_number
      (quoted "temperature" ++ str " must be a number")
      (λ it, set_temperature spec (get_float it)) spec in
    let? spec := optional j "top_p" is_number
      (quoted "top_p" ++ str " must be a number")
      (λ it, set_top_p spec (get_float it)) spec in
    let? spec := optional j "top_k" is_number_integer
      (quoted "top_k" ++ str " must be an integer")
      (λ it, set_top_k spec (get_i32 it)) spec in
    let? spec := optional j "seed" is_number_unsigned
      (quoted "seed" ++ str " must be a non-negative integer")
      (λ it, set_seed spec (get_u32 it)) spec in
    parse_stop j spec.

(** ** Serialization *)

Definition usage_json (u : Usage) : J :=
  jobject [(str "prompt_tokens", junsigned (prompt_tokens u));
           (str "completion_tokens", junsigned (completion_tokens u));
           (str "total_tokens", junsigned (total_tokens u))].

Definition make_generate_response (text : bytes) (reason : FinishReason) (usage : Usage) : res bytes :=
  dump (jobject [(str "text", jstring text);
                 (str "finish_reason", jstring (to_string reason));
                 (str "usage", usage_json usage)]).

Definition make_error_response (message : bytes) : res bytes :=
  dump (jobject [(str "error", jstring message)]).

(** [std::round]: to the nearest integer, halves away from zero. *)
Definition f64_round (v : double) : double :=
  match v with
  | S754_finite s m e =>
      if (0 <=? e)%Z then v
      else
        let n := Z.shiftr (Zpos m + Z.shiftl 1 (- e - 1)) (- e) in
        match n with
        | Zpos _ => f64_of_Z (if s then - n else n)%Z
        | _ => S754_zero s
        end
  | _ => v
  end.

Definition round2 (v : double) : double :=
  f64_div (f64_round (f64_mul v (f64_of_Z 100))) (f64_of_Z 100).

Definition make_request_log (id : RequestId) (result : GenResult) : res bytes :=
  let t := res_timing result in
  let u := res_usage result in
  dump (jobject [(str "event", jstring (str "request_complete"));
                 (str "request_id", junsigned id);
                 (str "finish_reason", jstring (to_string (res_reason result)));
                 (str "prompt_tokens", junsigned (prompt_tokens u));
                 (str "completion_tokens", junsigned (completion_tokens u));
                 (str "cached_prompt_tokens", junsigned (cached_prompt_tokens u));
                 (str "queue_wait_ms", jdouble (round2 (RequestTiming.queue_wait_ms t)));
                 (str "ttft_ms", jdouble (round2 (RequestTiming.ttft_ms t)));
                 (str "tpot_ms", jdouble (round2 (RequestTiming.tpot_ms t (completion_tokens u))));
                 (str "total_ms", jdouble (round2 (RequestTiming.total_ms t)));
                 (str "output_tokens_per_sec",
                  jdouble (round2 (RequestTiming.output_tokens_per_sec t (completion_tokens u))))]).

Definition make_stream_delta (delta : bytes) : res bytes := dump (jobject [(str "text", jstring delta)]).

Definition make_stream_done (reason : FinishReason) (usage : Usage) : res bytes :=
  dump (jobject [(str "finish_reason", jstring (to_string reason));
                 (str "usage", usage_json usage)]).

(** ** What a body must contain, and what it means *)

Definition field {A} (j : J) (key : string) (get : J → A) (absent : A) : A :=
  match find j (str key) with Some it => get it | None => absent end.

Definition stop_of (j : J) : list bytes :=
  field j "stop" (λ it, if is_string it then [get_string it] else get_string <$> elements it) [].

(** The specification a valid body describes, given how its integers are read ... *)
Definition spec_with (u32 : J → N) (i32 : J → Z) (j : J) : RequestSpec :=
  let d := default_sampling in
  mkSpec (field j "prompt" get_string []) (stop_of j) (field j "max_tokens" u32 128)
    (mkSampling (field j "temperature" get_float (temperature d)) (field j "top_p" get_float (top_p d))
                (field j "top_k" i32 (top_k d)) (repeat_penalty d) (field j "seed" u32 (seed d))).

(** ... which is modulo 2^32. *)
Definition spec_of : J → RequestSpec := spec_with (λ it, wrap32 (get_u64 it)) (λ it, narrow_i32 (get_integer it)).

(** The conditions on a body, each with the message that reports it. *)
Definition checks (j : J) : list (bool * bytes) :=
  [(is_object j, str "request body must be a JSON object");
   (field j "prompt" is_string false, quoted "prompt" ++ str " is required and must be a string");
   (field j "max_tokens" is_number_unsigned true,
    quoted "max_tokens" ++ str " must be a non-negative integer");
   (field j "temperature" is_number true, quoted "temperature" ++ str " must be a number");
   (field j "top_p" is_number true, quoted "top_p" ++ str " must be a number");
   (field j "top_k" is_number_integer true, quoted "top_k" ++ str " must be an integer");
   (field j "seed" is_number_unsigned true, quoted "seed" ++ str " must be a non-negative integer");
   (field j "stop" (λ it, is_string it || is_array it) true,
    quoted "stop" ++ str " must be a string or an array of strings");
   (field j "stop" (λ it, is_string it || forallb is_string (elements it)) true,
    quoted "stop" ++ str " array must contain only strings")].

Definition first_error (l : list (bool * bytes)) : option bytes :=
  snd <$> head (filter (λ c, c.1 = false) l).

Lemma first_error_cons b m l :
  first_error ((b, m) :: l) = if b then first_error l else Some m.
Proof.
  unfold first_error. destruct b.
  - by rewrite filter_cons_False.
  - by rewrite filter_cons_True.
Qed.

Lemma push_stops_all elems spec :
  push_stops elems spec
    = if forallb is_string elems then Accepted (set_stop spec (stop spec ++ (get_string <$> elems)))
      else BadRequest (quoted "stop" ++ str " array must contain only strings").
Proof.
  revert spec. induction elems as [|x elems IH]; intros spec; cbn [push_stops forallb].
  { rewrite app_nil_r. by destruct spec. }
  destruct (is_string x); simpl; [|done]. rewrite IH. destruct (forallb _ _); [|done].
  unfold push_back, set_stop. simpl. by rewrite <- app_assoc.
Qed.

Lemma parse_generate_request_with (body : bytes) :
  parse_generate_request body =
    match json_parse body with
    | PParseError what => BadRequest (str "invalid JSON: " ++ what)
    | POutOfRange what => Escaped what
    | PJson j =>
        match first_error (checks j) with
        | Some message => BadRequest message
        | None => Accepted (spec_with get_u32 get_i32 j)
        end
    end.
Proof.
  unfold parse_generate_request. destruct (json_parse body) as [j|w|w]; [|done..].
  unfold checks. rewrite !first_error_cons. unfold optional, parse_stop, spec_with, stop_of, field.
  destruct (is_object j); cbn [negb andb orb]; [|done].
  destruct (find j (str "prompt")) as [p|]; [|done]. destruct (is_string p); cbn [negb andb orb]; [|done].
  destruct (find j (str "max_tokens")) as [a|]; [destruct (is_number_unsigned a); [|done]|]; cbn [negb andb orb];
  (destruct (find j (str "temperature")) as [b|]; [destruct (is_number b); [|done]|]; cbn [negb andb orb]);
  (destruct (find j (str "top_p")) as [c|]; [destruct (is_number c); [|done]|]; cbn [negb andb orb]);
  (destruct (find j (str "top_k")) as [d|]; [destruct (is_number_integer d); [|done]|]; cbn [negb andb orb]);
  (destruct (find j (str "seed")) as [e|]; [destruct (is_number_unsigned e); [|done]|]; cbn [negb andb orb]);
  (destruct (find j (str "stop")) as [f|]; [destruct (is_string f); cbn [negb andb orb]; [done|]|done]);
  (destruct (is_array f); [rewrite push_stops_all; by destruct (forallb is_string (elements f))|done]).
Qed.

(** ** Clients *)

(** A body a client sends: a prompt, a budget and one stop string. *)
Definition request_members (p : bytes) (n : N) (st : bytes) : list (bytes * J) :=
  [(str "prompt", jstring p); (str "max_tokens", junsigned n); (str "stop", jstring st)].

(** What a client reads from a response. *)
Definition read_usage (u : J) : N * N * N :=
  (field u "prompt_tokens" get_u64 0, field u "completion_tokens" get_u64 0, field u "total_tokens" get_u64 0).
Definition read_response (j : J) : bytes * bytes * (N * N * N) :=
  (field j "text" get_string [], field j "finish_reason" get_string [],
   field j "usage" read_usage (0, 0, 0)).

Section Laws.
Context `{HL : !JsonLaws J}.

(** The integers of a valid body are narrowed to 32 bits. *)
Lemma checked_integers j : first_error (checks j) = None → spec_with get_u32 get_i32 j = spec_of j.
Proof.
  unfold checks, spec_of, spec_with. rewrite !first_error_cons. intros Hc.
  assert (Hu : ∀ key absent, field j key is_number_unsigned true = true →
    field j key get_u32 absent = field j key (λ it, wrap32 (get_u64 it)) absent).
  { unfold field. intros key absent. destruct (find j (str key)) as [it|]; [apply get_u32_cast|done]. }
  assert (Hi : ∀ key absent, field j key is_number_integer true = true →
    field j key get_i32 absent = field j key (λ it, narrow_i32 (get_integer it)) absent).
  { unfold field. intros key absent. destruct (find j (str key)) as [it|]; [apply get_i32_cast|done]. }
  destruct (is_object j); [|done]. destruct (field j "prompt" _ _); [|done].
  destruct (field j "max_tokens" is_number_unsigned true) eqn:E1; [|done]. destruct (field j "temperature" is_number true); [|done].
  destruct (field j "top_p" is_number true); [|done]. destruct (field j "top_k" is_number_integer true) eqn:E2; [|done].
  destruct (field j "seed" is_number_unsigned true) eqn:E3; [|done].
  by rewrite (Hu "max_tokens"%string), (Hu "seed"%string), (Hi "top_k"%string).
Qed.

(** C31: a request body means what the API documents, with integers modulo 2^32.  Text
    that is not JSON is a [BadRequest] with the parser's message.  A parsed body is
    accepted exactly when it is an object with a string [prompt] whose optional members
    have their documented types; the specification then has the members' values, and the
    defaults for members that are absent; otherwise the [BadRequest] names the first
    condition that fails.  Two departures from what one might expect are part of the
    statement: [max_tokens], [seed] and [top_k] are narrowed to 32 bits instead of
    checked for range, and a number beyond the range of a double makes the parser's
    [out_of_range] leave the function as it is. *)
Theorem parse_generate_request_exact (body : bytes) :
  parse_generate_request body =
    match json_parse body with
    | PParseError what => BadRequest (str "invalid JSON: " ++ what)
    | POutOfRange what => Escaped what
    | PJson j =>
        match first_error (checks j) with
        | Some message => BadRequest message
        | None => Accepted (spec_of j)
        end
    end.
Proof.
  rewrite parse_generate_request_with. destruct (json_parse body) as [j|w|w]; [|done..].
  destruct (first_error (checks j)) eqn:Ef; [done|]. by rewrite checked_integers.
Qed.

Lemma keys_distinct (l : list bytes) : bool_decide (NoDup l) = true → NoDup l.
Proof. apply bool_decide_eq_true_1. Qed.

(** A request survives the wire, except for large numbers.  Parsing the JSON a
    client dumps gives back its prompt and its stop string byte for byte, and the
    budget modulo 2^32: a [max_tokens] of 4294967296 is accepted as 0 rather than
    refused. *)
Theorem request_roundtrip p n st :
  utf8 p = true → utf8 st = true → n < 18446744073709551616 →
  ∃ body, dump (jobject (request_members p n st)) = Ok body ∧
    parse_generate_request body = Accepted (mkSpec p [st] (n mod 4294967296) default_sampling).
Proof.
  intros Hp Hs Hn. set (kvs := request_members p n st).
  assert (Hd : NoDup kvs.*1) by (apply keys_distinct; vm_compute; reflexivity).
  destruct (dump_plain (jobject kvs)) as (body & Hb & Hj).
  { constructor; [done|apply Forall_forall; intros k Hk|repeat constructor; done].
    change kvs.*1 with [str "prompt"; str "max_tokens"; str "stop"] in Hk.
    rewrite !elem_of_cons, elem_of_nil in Hk. by destruct Hk as [->|[->|[->|[]]]]. }
  exists body. split; [done|]. unfold parse_generate_request, optional, parse_stop. rewrite Hj, object_object.
  cbn [negb]. rewrite !find_object by done.
  change (member kvs (str "prompt")) with (Some (jstring p)).
  change (member kvs (str "max_tokens")) with (Some (junsigned n)).
  change (member kvs (str "temperature")) with (@None J).
  change (member kvs (str "top_p")) with (@None J).
  change (member kvs (str "top_k")) with (@None J).
  change (member kvs (str "seed")) with (@None J).
  change (member kvs (str "stop")) with (Some (jstring st)). cbv beta iota.
  rewrite !string_string, unsigned_unsigned, !get_string_string. cbn [negb].
  rewrite get_u32_cast, get_u64_unsigned by (done || apply unsigned_unsigned). done.
Qed.

Lemma usage_plain (u : Usage) :
  prompt_tokens u < 4294967296 → completion_tokens u < 4294967296 → plain (usage_json u).
Proof.
  intros Hp Hc. pose proof (wrap32_lt (prompt_tokens u + completion_tokens u)). constructor.
  - apply keys_distinct. vm_compute. reflexivity.
  - repeat constructor.
  - repeat constructor; [lia..|]. unfold total_tokens, add32. lia.
Qed.

Lemma read_usage_json (u : Usage) :
  prompt_tokens u < 4294967296 → completion_tokens u < 4294967296 →
  read_usage (usage_json u) = (prompt_tokens u, completion_tokens u, total_tokens u).
Proof.
  intros Hp Hc. pose proof (wrap32_lt (prompt_tokens u + completion_tokens u)).
  unfold read_usage, field, usage_json. set (kvs := [(str "prompt_tokens", _); _; _]).
  assert (Hd : NoDup kvs.*1) by (apply keys_distinct; vm_compute; reflexivity).
  rewrite !find_object by done.
  change (member kvs (str "prompt_tokens")) with (Some (junsigned (prompt_tokens u))).
  change (member kvs (str "completion_tokens")) with (Some (junsigned (completion_tokens u))).
  change (member kvs (str "total_tokens")) with (Some (junsigned (total_tokens u))). cbv beta iota.
  rewrite !get_u64_unsigned by (unfold total_tokens, add32; lia). done.
Qed.

(** A response survives the wire.  When the text is UTF-8, [make_generate_response]
    produces a body from which a client reads back the text byte for byte, the name of
    the finish reason and the three token counts. *)
Theorem response_roundtrip text reason (u : Usage) :
  utf8 text = true → prompt_tokens u < 4294967296 → completion_tokens u < 4294967296 →
  ∃ body j, make_generate_response text reason u = Ok body ∧ json_parse body = PJson j ∧
    read_response j = (text, to_string reason, (prompt_tokens u, completion_tokens u, total_tokens u)).
Proof.
  intros Ht Hp Hc. unfold make_generate_response. set (kvs := [(str "text", _); _; _]).
  assert (Hd : NoDup kvs.*1) by (apply keys_distinct; vm_compute; reflexivity).
  destruct (dump_plain (jobject kvs)) as (body & Hb & Hj).
  { constructor; [done|repeat constructor|].
    apply Forall_cons_2; [by constructor|]. apply Forall_cons_2; [constructor; by destruct reason|].
    apply Forall_cons_2; [by apply usage_plain|constructor]. }
  exists body, (jobject kvs). split_and!; try done. unfold read_response, field. rewrite !find_object by done.
  change (member kvs (str "text")) with (Some (jstring text)).
  change (member kvs (str "finish_reason")) with (Some (jstring (to_string reason))).
  change (member kvs (str "usage")) with (Some (usage_json u)). cbv beta iota.
  by rewrite !get_string_string, read_usage_json.
Qed.

Lemma delta_strict delta : utf8 delta = false → ∃ w, make_stream_delta delta = Throw w.
Proof. intros Hd. apply (dump_strict _ (str "text") delta); [left|done]. Qed.

Lemma delta_ok delta : utf8 delta = true → ∃ s, make_stream_delta delta = Ok s.
Proof.
  intros Hd. destruct (dump_plain (jobject [(str "text", jstring delta)])) as (s & Hs & _); [|by exists s].
  constructor; [apply keys_distinct; vm_compute; reflexivity|repeat constructor|by repeat constructor].
Qed.

Lemma done_ok reason (u : Usage) :
  prompt_tokens u < 4294967296 → completion_tokens u < 4294967296 → ∃ s, make_stream_done reason u = Ok s.
Proof.
  intros Hp Hc. unfold make_stream_done. set (kvs := [(str "finish_reason", _); _]).
  destruct (dump_plain (jobject kvs)) as (s & Hs & _); [|by exists s].
  constructor; [apply keys_distinct; vm_compute; reflexivity|repeat constructor|].
  apply Forall_cons_2; [constructor; by destruct reason|].
  apply Forall_cons_2; [by apply usage_plain|constructor].
Qed.

Lemma error_ok m : utf8 m = true → ∃ s, make_error_response m = Ok s.
Proof.
  intros Hd. destruct (dump_plain (jobject [(str "error", jstring m)])) as (s & Hs & _); [|by exists s].
  constructor; [apply keys_distinct; vm_compute; reflexivity|repeat constructor|by repeat constructor].
Qed.

End Laws.

End Json.

End HttpApi.

(** ** A small JSON library, on which the theorems are evaluated

    Values are trees over strings and numbers; [dump] writes their code in binary, so
    that reading it back is decoding. *)
Module ToyJson.

Definition value := gen_tree (bytes + N).

Fixpoint members (l : list value) : list (bytes * value) :=
  match l with
  | GenLeaf (inl k) :: v :: rest => (k, v) :: members rest
  | _ => []
  end.

Fixpoint flatten (kvs : list (bytes * value)) : list value :=
  match kvs with
  | [] => []
  | (k, v) :: rest => GenLeaf (inl k) :: v :: flatten rest
  end.

Lemma members_flatten kvs : members (flatten kvs) = kvs.
Proof. induction kvs as [|[k v] kvs IH]; simpl; by rewrite ?IH. Qed.

Definition good (v : value) : bool := match v with GenLeaf (inl s) => utf8 s | _ => true end.

Fixpoint bits (p : positive) : bytes :=
  match p with
  | xH => []
  | xO q => "0"%char :: bits q
  | xI q => "1"%char :: bits q
  end.

Fixpoint unbits (s : bytes) : positive :=
  match s with
  | [] => xH
  | c :: rest => if decide (c = "0"%char) then xO (unbits rest) else xI (unbits rest)
  end.

Lemma unbits_bits p : unbits (bits p) = p.
Proof. induction p as [p IH|p IH|]; simpl; by rewrite ?IH. Qed.

Definition is_leaf_string (v : value) : bool := match v with GenLeaf (inl _) => true | _ => false end.
Definition is_leaf_number (v : value) : bool := match v with GenLeaf (inr _) => true | _ => false end.
Definition leaf_number (v : value) : N := match v with GenLeaf (inr n) => n | _ => 0 end.
Definition children (v : value) : list value := match v with GenNode _ l => l | _ => [] end.
Definition tag (v : value) : option nat := match v with GenNode n _ => Some n | _ => None end.

Definition write (v : value) : res bytes :=
  if forallb good (snd <$> members (children v)) && good v then Ok (bits (countable.encode v))
  else Throw (str "invalid UTF-8 byte").

#[global] Instance toy : Json value := {
  json_parse s := match countable.decode (unbits s) with Some v => PJson v | None => PParseError (str "syntax error") end;
  is_object v := bool_decide (tag v = Some 0%nat);
  is_string := is_leaf_string;
  is_array v := bool_decide (tag v = Some 1%nat);
  is_number := is_leaf_number;
  is_number_integer := is_leaf_number;
  is_number_unsigned := is_leaf_number;
  find v k := member (members (children v)) k;
  elements := children;
  get_string v := match v with GenLeaf (inl s) => s | _ => [] end;
  get_u64 := leaf_number;
  get_integer v := Z.of_N (leaf_number v);
  get_u32 v := wrap32 (leaf_number v);
  get_i32 v := narrow_i32 (Z.of_N (leaf_number v));
  get_float v := f32_of_Z (Z.of_N (leaf_number v));
  jstring s := GenLeaf (inl s);
  junsigned n := GenLeaf (inr n);
  jdouble d := GenNode 2 [];
  jobject kvs := GenNode 0 (flatten kvs);
  dump := write }.

#[global] Instance toy_laws : JsonLaws value.
Proof.
  split; try done; simpl.
  - intros kvs k _. by rewrite members_flatten.
  - intros j Hj. unfold write. exists (bits (countable.encode j)). rewrite unbits_bits, decode_encode.
    replace (_ && _) with true; [done|]. symmetry. apply andb_true_intro.
    destruct Hj as [s Hs|n Hn|kvs _ _ Hv]; simpl; [done..|]. rewrite members_flatten. split; [|done].
    apply forallb_forall. intros v Hin%list_elem_of_In.
    pose proof (proj1 (Forall_forall _ _) Hv v Hin) as Hp. destruct v as [[s|n]|]; try done. simpl.
    inversion Hp; done.
  - intros kvs k s Hin Hs. unfold write. exists (str "invalid UTF-8 byte"). simpl. rewrite members_flatten.
    replace (forallb good kvs.*2) with false; [done|]. symmetry. apply not_true_iff_false.
    intros Hall. rewrite forallb_forall in Hall. specialize (Hall (GenLeaf (inl s))).
    rewrite <- list_elem_of_In in Hall. simpl in Hall. rewrite Hall in Hs; [done|].
    apply list_elem_of_fmap. by exists (k, GenLeaf (inl s)).
Qed.

(** A [top_k] of 2^32 + 7 is read as 7. *)
Definition wide_body : bytes :=
  bits (countable.encode (jobject (J:=value) [(str "prompt", jstring (str "hi")); (str "top_k", junsigned 4294967303)])).

Lemma parse_generate_request_exact_witness :
  HttpApi.parse_generate_request (J:=value) wide_body
    = Accepted (mkSpec (str "hi") [] 128 (let d := default_sampling in
        mkSampling (temperature d) (top_p d) 7 (repeat_penalty d) (seed d))).
Proof. rewrite (HttpApi.parse_generate_request_exact (J:=value) wide_body). vm_compute. reflexivity. Defined.

Lemma request_roundtrip_witness :
  ∃ body, dump (jobject (HttpApi.request_members (J:=value) (str "hi") 4294967296 (str "##"))) = Ok body ∧
    HttpApi.parse_generate_request (J:=value) body
      = Accepted (mkSpec (str "hi") [str "##"] 0 default_sampling).
Proof. apply (HttpApi.request_roundtrip (J:=value) (str "hi") 4294967296 (str "##")); reflexivity. Defined.

Lemma response_roundtrip_witness :
  ∃ body j, HttpApi.make_generate_response (J:=value) (str "hello") kEos (mkUsage 3 5 0) = Ok body ∧
    json_parse (J:=value) body = PJson j ∧
    HttpApi.read_response j = (str "hello", str "eos", (3, 5, 8)).
Proof. apply (HttpApi.response_roundtrip (J:=value) (str "hello") kEos (mkUsage 3 5 0)); reflexivity. Defined.

End ToyJson.
