(* ===== verification/Server.v ===== *)
(** The HTTP server: [include/microvllm/server.hpp] and [src/http/server.cpp].

    The handlers run on cpp-httplib's threads (a library that is not part of the
    repository): a handler is the steps its thread takes between the points where it
    waits, over the state [Shared] that the handlers, the watcher thread and the
    scheduler thread share.  A response status of [None] is the library's default,
    200.  What happens to an exception that leaves a handler is the library's affair;
    the handler ends in [Raised] then. *)
From Stdlib Require Import Lia SpecFloat Ascii.
From stdpp Require Import base list gmap strings.
From S2P Require Import Prelude Types Blocks Timing Engine Sinks Sequence Mock Generator Queue Scheduler HttpApi.

Local Open Scope N_scope.

(** [std::to_string] on a double: ["%f"], six decimals, rounded to nearest even from
    the exact binary value. *)
Definition scaled6 (m : positive) (e : Z) : N :=
  if (0 <=? e)%Z then Z.to_N (Z.shiftl (Zpos m * 1000000) e)
  else
    let n := (Zpos m * 1000000)%Z in
    let d := Z.shiftl 1 (- e) in
    let q := (n / d)%Z in
    let r := (n mod d)%Z in
    Z.to_N (match (2 * r ?= d)%Z with
            | Lt => q
            | Gt => q + 1
            | Eq => if Z.even q then q else q + 1
            end)%Z.

Definition fixed6 (n : N) : bytes :=
  let frac := num (n mod 1000000) in
  num (n / 1000000) ++ str "." ++ replicate (6 - length frac) "0"%char ++ frac.

Definition f64_to_string (v : double) : bytes :=
  match v with
  | S754_zero s => (if s then str "-" else []) ++ fixed6 0
  | S754_infinity s => if s then str "-inf" else str "inf"
  | S754_nan => str "nan"
  | S754_finite s m e => (if s then str "-" else []) ++ fixed6 (scaled6 m e)
  end.

Definition nl : bytes := [ascii_of_N 10].

Module Server.

Record ServerConfig := mkConfig {
  host : bytes;
  port : Z;
  max_queue_depth : N;
  max_batch_size : N;
  mode : Scheduler.BatchingMode;
  prefill_chunk : N;
  kv_blocks : N;
  block_size : N;
  prefix_caching : bool;
  log_requests : bool;
  prefix_donors : N }.

Definition default_config : ServerConfig :=
  mkConfig (str "0.0.0.0") 8080 64 8 Scheduler.kContinuous 128 0 16 true false 4.

(** The scheduler [serve] starts. *)
Definition scheduler_config (c : ServerConfig) : Scheduler.SchedulerConfig :=
  Scheduler.mkConfig (max_batch_size c) (mode c) (kv_blocks c) (block_size c) (prefix_donors c)
    (prefix_caching c) (prefill_chunk c).

Record Response := mkResponse {
  status : option N;
  content : bytes;
  content_type : bytes }.

Definition kJson : bytes := str "application/json".

Definition health : Response :=
  mkResponse None (str "{" ++ quoted "status" ++ str ":" ++ quoted "ok" ++ str "}") kJson.

(** ** GET /metrics *)

Definition preamble (name help : string) (kind : string) : bytes :=
  str "# HELP microvllm_" ++ str name ++ str " " ++ str help ++ nl
    ++ str "# TYPE microvllm_" ++ str name ++ str " " ++ str kind ++ nl.

Definition counter (name help : string) (value : N) : bytes :=
  preamble name help "counter" ++ str "microvllm_" ++ str name ++ str " " ++ num value ++ nl.

(** [gauge] at an integer and at a double. *)
Definition gauge_text (name help : string) (value : bytes) : bytes :=
  preamble name help "gauge" ++ str "microvllm_" ++ str name ++ str " " ++ value ++ nl.
Definition gauge (name help : string) (value : N) : bytes := gauge_text name help (num value).
Definition gauge_f64 (name help : string) (value : double) : bytes :=
  gauge_text name help (f64_to_string value).

Definition bucket_line (name : string) (le : bytes) (value : N) : bytes :=
  str "microvllm_" ++ str name ++ str "_bucket{le=" ++ dq ++ le ++ dq ++ str "} " ++ num value ++ nl.

(** The loop over [kBounds]. *)
Fixpoint bucket_lines (name : string) (bounds : list double) (i : N) (cumulative : N)
    (h : LatencyHistogram.t) : bytes :=
  match bounds with
  | [] => []
  | b :: rest =>
      let cumulative := add64 cumulative (LatencyHistogram.bucket h i) in
      bucket_line name (f64_to_string (f64_div b (f64_of_Z 1000))) cumulative
        ++ bucket_lines name rest (i + 1) cumulative h
  end.

Definition histogram (name help : string) (h : LatencyHistogram.t) : bytes :=
  preamble name help "histogram"
    ++ bucket_lines name LatencyHistogram.kBounds 0 0 h
    ++ bucket_line name (str "+Inf") (LatencyHistogram.count h)
    ++ str "microvllm_" ++ str name ++ str "_sum " ++ f64_to_string (LatencyHistogram.sum_seconds h) ++ nl
    ++ str "microvllm_" ++ str name ++ str "_count " ++ num (LatencyHistogram.count h) ++ nl.

Definition kv_utilization (s : Scheduler.Stats) : double :=
  if Scheduler.s_kv_blocks_total s =? 0 then f64_zero
  else f64_div (f64_of_Z (Z.of_N (Scheduler.s_kv_blocks_used s)))
               (f64_of_Z (Z.of_N (Scheduler.s_kv_blocks_total s))).

Definition metrics {E} (w : Scheduler.t E) : Response :=
  let s := Scheduler.stats w in
  let out :=
    counter "requests_admitted_total" "Sequences admitted to the batch." (Scheduler.s_admitted s)
    ++ counter "requests_completed_total" "Sequences run to completion." (Scheduler.s_completed s)
    ++ counter "preemptions_total" "Sequences evicted to free KV cache and requeued."
         (Scheduler.s_preemptions s)
    ++ counter "admissions_deferred_total" "Admissions delayed because the KV pool was full."
         (Scheduler.s_deferred s)
    ++ counter "prefix_cache_hits_total" "Requests that inherited a cached prompt prefix."
         (Scheduler.s_prefix_hits s)
    ++ counter "prefix_tokens_saved_total" "Prompt tokens not prefilled thanks to sharing."
         (Scheduler.s_prefix_tokens_saved s)
    ++ counter "prefix_donors_retained_total" "Prompt prefixes kept past their request's retirement."
         (Scheduler.s_donors_retained s)
    ++ counter "prefix_donor_evictions_total" "Retained prefixes dropped, by LRU or block pressure."
         (Scheduler.s_donor_evictions s)
    ++ gauge "prefix_donors_held" "Donor slots currently holding a prefix." (Scheduler.s_donors_held s)
    ++ counter "prompt_tokens_total" "Input tokens served." (Scheduler.s_prompt_tokens s)
    ++ counter "completion_tokens_total" "Output tokens generated." (Scheduler.s_completion_tokens s)
    ++ histogram "ttft_seconds" "Time from admission to first token." (Scheduler.ttft_hist_ w)
    ++ histogram "request_duration_seconds" "End-to-end request latency including queueing."
         (Scheduler.e2e_hist_ w)
    ++ gauge "queue_depth" "Requests waiting to be admitted." (RequestQueue.size (Scheduler.queue_ w))
    ++ gauge "kv_blocks_total" "KV-cache blocks in the pool." (Scheduler.s_kv_blocks_total s)
    ++ gauge "kv_blocks_used" "KV-cache blocks currently allocated." (Scheduler.s_kv_blocks_used s)
    ++ gauge_f64 "kv_utilization" "Fraction of the KV pool in use." (kv_utilization s) in
  mkResponse None out (str "text/plain; version=0.0.4").

Lemma bucket_lines_covered name vs bounds i :
  len vs < 18446744073709551616 → bounds = drop i LatencyHistogram.kBounds →
  let h := fold_left LatencyHistogram.observe vs LatencyHistogram.empty in
  bucket_lines name bounds (N.of_nat i) (fold_right N.add 0 (take i (LatencyHistogram.counts_ h))) h
    = concat ((λ b, bucket_line name (f64_to_string (f64_div b (f64_of_Z 1000)))
                                (LatencyHistogram.covered vs b)) <$> bounds).
Proof.
  intros Hl Hb h. destruct (LatencyHistogram.observe_all_spec vs Hl) as (L & _ & Hc & _). fold h in L, Hc.
  revert i Hb. induction bounds as [|b bounds IH]; intros i Hb; cbn [bucket_lines]; [done|].
  assert (Hi : LatencyHistogram.kBounds !! i = Some b)
    by (rewrite <- (Nat.add_0_r i), <- lookup_drop, <- Hb; done).
  assert (Hlt : (i < 12)%nat) by (apply lookup_lt_Some in Hi; done).
  destruct (lookup_lt_is_Some_2 (LatencyHistogram.counts_ h) i) as [c Hci]; [lia|].
  assert (Hsum : add64 (fold_right N.add 0 (take i (LatencyHistogram.counts_ h))) (LatencyHistogram.bucket h (N.of_nat i))
    = LatencyHistogram.covered vs b).
  { specialize (Hc i b Hi). unfold LatencyHistogram.sum_upto in Hc. rewrite (take_S_r _ _ c Hci) in Hc.
    unfold LatencyHistogram.bucket. rewrite (at_or_0_lookup _ _ c) by (by rewrite Nat2N.id).
    pose proof (LatencyHistogram.covered_le vs b).
    assert (Ha : ∀ l, fold_right N.add 0 (l ++ [c]) = fold_right N.add 0 l + c).
    { intros l. induction l as [|x l IHl]; simpl; [lia|]. rewrite IHl. lia. }
    rewrite Ha in Hc. unfold add64. rewrite wrap64_small by lia. exact Hc. }
  rewrite Hsum, fmap_cons. cbn [concat]. f_equal.
  replace (N.of_nat i + 1) with (N.of_nat (S i)) by lia.
  rewrite <- (Hc i b Hi). apply IH.
  rewrite <- Nat.add_1_r, <- drop_drop, <- Hb. done.
Qed.

(** A scrape of [/metrics] prints a correct Prometheus histogram.  After any
    sequence of fewer than 2^64 latencies, the text of a histogram has one line per
    bound, in increasing order, each printing exactly how many latencies were at most
    that bound, then the [+Inf] bucket and the count, both the number of latencies. *)
Theorem metrics_histogram name help vs :
  len vs < 18446744073709551616 →
  let h := fold_left LatencyHistogram.observe vs LatencyHistogram.empty in
  histogram name help h =
    preamble name help "histogram"
      ++ concat ((λ b, bucket_line name (f64_to_string (f64_div b (f64_of_Z 1000)))
                                   (LatencyHistogram.covered vs b)) <$> LatencyHistogram.kBounds)
      ++ bucket_line name (str "+Inf") (len vs)
      ++ str "microvllm_" ++ str name ++ str "_sum " ++ f64_to_string (LatencyHistogram.sum_seconds h) ++ nl
      ++ str "microvllm_" ++ str name ++ str "_count " ++ num (len vs) ++ nl.
Proof.
  intros Hl h. unfold histogram. destruct (LatencyHistogram.observe_all_spec vs Hl) as (_ & Hn & _).
  fold h in Hn. unfold LatencyHistogram.count. rewrite Hn.
  pose proof (bucket_lines_covered name vs LatencyHistogram.kBounds 0 Hl eq_refl) as Hb. cbv zeta in Hb.
  fold h in Hb. change (take 0 (LatencyHistogram.counts_ h)) with (@nil N) in Hb. simpl fold_right in Hb.
  change (N.of_nat 0) with 0 in Hb. by rewrite Hb.
Qed.

Lemma metrics_histogram_witness :
  let vs := f64_of_Z <$> [3; 700; 12; 20000]%Z in
  ∃ rest, histogram "x" "y" (fold_left LatencyHistogram.observe vs LatencyHistogram.empty) =
    preamble "x" "y" "histogram"
      ++ bucket_line "x" (str "0.001000") 0 ++ bucket_line "x" (str "0.005000") 1 ++ rest.
Proof.
  intros vs. rewrite (metrics_histogram "x" "y" vs); [|vm_compute; reflexivity].
  eexists. apply (f_equal (preamble "x" "y" "histogram" ++.)).
  assert (E : f64_to_string (f64_div (f64_of_Z 1) (f64_of_Z 1000)) = str "0.001000" ∧
    f64_to_string (f64_div (f64_of_Z 5) (f64_of_Z 1000)) = str "0.005000") by (split; vm_compute; reflexivity).
  destruct E as [E1 E2]. unfold LatencyHistogram.kBounds. rewrite !fmap_cons. cbn [concat].
  rewrite E1, E2, <- !app_assoc. reflexivity.
Defined.

(** ** The state the threads share

    [sv_next_addr] is the allocator of the flags, promises and sinks that the handlers
    create; they live in memories of their own, so one fresh number serves all three. *)
Record Shared := mkShared {
  sv_queue : RequestQueue.t;
  sv_next_id : N;
  sv_next_addr : N;
  sv_flags : Flags;
  sv_sinks : gmap N StreamingSink.t;
  sv_results : gmap N GenResult;
  sv_shutting_down : bool;
  sv_log : list bytes }.

Definition set_queue (s : Shared) (q : RequestQueue.t) : Shared :=
  mkShared q (sv_next_id s) (sv_next_addr s) (sv_flags s) (sv_sinks s) (sv_results s)
           (sv_shutting_down s) (sv_log s).
Definition set_flags (s : Shared) (m : Flags) : Shared :=
  mkShared (sv_queue s) (sv_next_id s) (sv_next_addr s) m (sv_sinks s) (sv_results s)
           (sv_shutting_down s) (sv_log s).
Definition set_sinks (s : Shared) (m : gmap N StreamingSink.t) : Shared :=
  mkShared (sv_queue s) (sv_next_id s) (sv_next_addr s) (sv_flags s) m (sv_results s)
           (sv_shutting_down s) (sv_log s).
Definition set_results (s : Shared) (m : gmap N GenResult) : Shared :=
  mkShared (sv_queue s) (sv_next_id s) (sv_next_addr s) (sv_flags s) (sv_sinks s) m
           (sv_shutting_down s) (sv_log s).
Definition set_shutting_down (s : Shared) : Shared :=
  mkShared (sv_queue s) (sv_next_id s) (sv_next_addr s) (sv_flags s) (sv_sinks s) (sv_results s)
           true (sv_log s).
Definition add_log (s : Shared) (line : bytes) : Shared :=
  mkShared (sv_queue s) (sv_next_id s) (sv_next_addr s) (sv_flags s) (sv_sinks s) (sv_results s)
           (sv_shutting_down s) (sv_log s ++ [line]).

(** A server that has just been started. *)
Definition start (c : ServerConfig) : Shared :=
  mkShared (RequestQueue.make (max_queue_depth c)) 1 0 ∅ ∅ ∅ false [].

(** [cancel->store(true)]. *)
Definition cancel (s : Shared) (a : FlagId) : Shared := set_flags s (store (sv_flags s) a true).

(** A handler thread: it has answered, an exception left it, it waits for its future,
    or the library is calling its content provider. *)
Inductive Handler : Type :=
  | Replied (r : Response)
  | Raised (what : bytes)
  | Waiting (id : RequestId) (addr : N)
  | Streaming (addr : N) (written : bytes)
  | Streamed (written : bytes) (complete : bool).

Section Json.
Context {J : Type} `{HJ : Json J}.

(** [res.status = code; res.set_content(make_error_response(message), kJson)]. *)
Definition reply_error (code : N) (message : bytes) : Handler :=
  match HttpApi.make_error_response (J:=J) message with
  | Ok body => Replied (mkResponse (Some code) body kJson)
  | Throw what => Raised what
  end.

(** The request both handlers submit: a fresh flag, promise and id, stamped [now]. *)
Definition new_request (s : Shared) (now : TimePoint) (spec : RequestSpec) (sink : option SinkId)
    : Request * Shared :=
  let a := sv_next_addr s in
  (mkRequest (sv_next_id s) spec a a sink (RequestTiming.mk now None None None),
   mkShared (sv_queue s) (add64 (sv_next_id s) 1) (a + 1) (store (sv_flags s) a false) (sv_sinks s)
            (sv_results s) (sv_shutting_down s) (sv_log s)).

(** POST /generate up to its wait. *)
Definition generate (s : Shared) (now : TimePoint) (body : bytes) : Handler * Shared :=
  match HttpApi.parse_generate_request (J:=J) body with
  | BadRequest message => (reply_error 400 message, s)
  | Escaped what => (Raised what, s)
  | Accepted spec =>
      let (r, s1) := new_request s now spec None in
      let (ok, q) := RequestQueue.try_push (sv_queue s1) r in
      let s2 := set_queue s1 q in
      if negb ok then (reply_error 503 (str "server at capacity; retry later"), s2)
      else (Waiting (req_id r) (req_result r), s2)
  end.

(** Its response, once the future is ready. *)
Definition generate_reply (result : GenResult) : Handler :=
  if decide (res_reason result = kContextOverflow) then reply_error 400 (res_error result)
  else if decide (res_reason result = kError) then reply_error 500 (res_error result)
  else
    match HttpApi.make_generate_response (J:=J) (res_text result) (res_reason result) (res_usage result) with
    | Ok body => Replied (mkResponse None body kJson)
    | Throw what => Raised what
    end.

Definition generate_finish (c : ServerConfig) (s : Shared) (id : RequestId) (result : GenResult)
    : Handler * Shared :=
  if log_requests c then
    match HttpApi.make_request_log (J:=J) id result with
    | Ok line => (generate_reply result, add_log s (line ++ nl))
    | Throw what => (Raised what, s)
    end
  else (generate_reply result, s).

(** One turn of the wait loop: [wait_for], and what follows. *)
Definition generate_poll (c : ServerConfig) (s : Shared) (id : RequestId) (addr : N)
    (connection_closed : bool) : Handler * Shared :=
  match sv_results s !! addr with
  | Some result => generate_finish c s id result
  | None =>
      (Waiting id addr,
       if connection_closed || sv_shutting_down s then cancel s addr else s)
  end.

(** POST /generate/stream up to its content provider. *)
Definition generate_stream (s : Shared) (now : TimePoint) (body : bytes) : Handler * Shared :=
  match HttpApi.parse_generate_request (J:=J) body with
  | BadRequest message => (reply_error 400 message, s)
  | Escaped what => (Raised what, s)
  | Accepted spec =>
      let a := sv_next_addr s in
      let s0 := set_sinks s (<[a := StreamingSink.make a]> (sv_sinks s)) in
      let (r, s1) := new_request s0 now spec (Some a) in
      let (ok, q) := RequestQueue.try_push (sv_queue s1) r in
      let s2 := set_queue s1 q in
      if negb ok then (reply_error 503 (str "server at capacity; retry later"), s2)
      else (Streaming a [], s2)
  end.

Definition frame (body : bytes) : bytes := str "data: " ++ body ++ nl ++ nl.

Definition final_body (ev : StreamingSink.Event) : res bytes :=
  if decide (StreamingSink.ev_reason ev = kError)
  then HttpApi.make_error_response (J:=J) (StreamingSink.ev_error ev)
  else HttpApi.make_stream_done (J:=J) (StreamingSink.ev_reason ev) (StreamingSink.ev_usage ev).

(** One call of the content provider; it stays where it is while [next] blocks. *)
Definition provide (s : Shared) (addr : N) (written : bytes) (write_ok : bool) : Handler * Shared :=
  match sv_sinks s !! addr with
  | None => (Streaming addr written, s)
  | Some k =>
      match StreamingSink.next k with
      | None => (Streaming addr written, s)
      | Some (ev, k') =>
          let s1 := set_sinks s (<[addr := k']> (sv_sinks s)) in
          if negb (StreamingSink.ev_terminal ev) then
            match HttpApi.make_stream_delta (J:=J) (StreamingSink.ev_text ev) with
            | Throw what => (Raised what, s1)
            | Ok d =>
                if negb write_ok then (Streamed written false, cancel s1 addr)
                else
                  (Streaming addr (written ++ frame d),
                   if sv_shutting_down s1 then cancel s1 addr else s1)
            end
          else
            match final_body ev with
            | Throw what => (Raised what, s1)
            | Ok body =>
                (Streamed (written ++ (if write_ok then frame body ++ frame (str "[DONE]") else [])) true, s1)
            end
      end
  end.

(** ** The server as a system of threads

    [taken] are the requests the scheduler has popped.  Of the scheduler only what the
    other threads see is kept here: it pops, it fulfils the promise of a request it has
    taken, once, and it calls the sinks of requests it has taken. *)
Record Sys := mkSys {
  sh : Shared;
  handlers : list Handler;
  taken : list Request }.

Definition submitted (y : Sys) : list Request := taken y ++ RequestQueue.queue_ (sv_queue (sh y)).

Inductive sstep (c : ServerConfig) : Sys → Sys → Prop :=
  | st_generate y now body h s :
      generate (sh y) now body = (h, s) →
      sstep c y (mkSys s (handlers y ++ [h]) (taken y))
  | st_stream y now body h s :
      generate_stream (sh y) now body = (h, s) →
      sstep c y (mkSys s (handlers y ++ [h]) (taken y))
  | st_poll y i id a closed h s :
      handlers y !! i = Some (Waiting id a) → generate_poll c (sh y) id a closed = (h, s) →
      sstep c y (mkSys s (<[i := h]> (handlers y)) (taken y))
  | st_provide y i a w ok h s :
      handlers y !! i = Some (Streaming a w) → provide (sh y) a w ok = (h, s) →
      sstep c y (mkSys s (<[i := h]> (handlers y)) (taken y))
  | st_signal y :
      sstep c y (mkSys (set_shutting_down (sh y)) (handlers y) (taken y))
  | st_pop y r q :
      RequestQueue.pop (sv_queue (sh y)) = Some (Some r, q) →
      sstep c y (mkSys (set_queue (sh y) q) (handlers y) (taken y ++ [r]))
  | st_deliver y r result :
      r ∈ taken y → sv_results (sh y) !! req_result r = None →
      sstep c y (mkSys (set_results (sh y) (<[req_result r := result]> (sv_results (sh y))))
                       (handlers y) (taken y))
  | st_sink y r a k cl :
      r ∈ taken y → req_sink r = Some a → sv_sinks (sh y) !! a = Some k →
      sstep c y (mkSys (set_sinks (sh y) (<[a := call k cl]> (sv_sinks (sh y)))) (handlers y) (taken y))
  | st_close y :
      sstep c y (mkSys (set_queue (sh y) (RequestQueue.close (sv_queue (sh y)))) (handlers y) (taken y)).

(** The address an unfinished handler works with. *)
Definition open_addr (h : Handler) : option N :=
  match h with Waiting _ a => Some a | Streaming a _ => Some a | _ => None end.

(** A handler is about a request that was accepted for it. *)
Definition about (rs : list Request) (h : Handler) : Prop :=
  match h with
  | Waiting id a => ∃ r, r ∈ rs ∧ req_id r = id ∧ req_result r = a ∧ req_sink r = None
  | Streaming a _ => ∃ r, r ∈ rs ∧ req_result r = a ∧ req_sink r = Some a
  | _ => True
  end.

Definition fresh_request (next : N) (r : Request) : Prop :=
  req_result r < next ∧ req_cancel r = req_result r ∧ req_id r = wrap64 (req_result r + 1).

Record sys_inv (y : Sys) : Prop := {
  i_ids : sv_next_id (sh y) = wrap64 (sv_next_addr (sh y) + 1);
  i_fresh : Forall (fresh_request (sv_next_addr (sh y))) (submitted y);
  i_promises : NoDup (req_result <$> submitted y);
  i_about : Forall (about (submitted y)) (handlers y);
  i_open : NoDup (omap open_addr (handlers y));
  i_results a x : sv_results (sh y) !! a = Some x → ∃ r, r ∈ taken y ∧ req_result r = a }.

Lemma about_mono rs rs' h : (∀ r, r ∈ rs → r ∈ rs') → about rs h → about rs' h.
Proof. intros Hs. destruct h; simpl; naive_solver. Qed.

Lemma about_open y h a : sys_inv y → about (submitted y) h → open_addr h = Some a → a < sv_next_addr (sh y).
Proof.
  intros I Ha Ho. assert (∃ r, r ∈ submitted y ∧ req_result r = a) as (r & Hr & <-)
    by (destruct h; simpl in *; naive_solver).
  by apply (proj1 (Forall_forall _ _) (i_fresh _ I) r Hr).
Qed.

Lemma open_addrs_below y : sys_inv y → Forall (λ a, a < sv_next_addr (sh y)) (omap open_addr (handlers y)).
Proof.
  intros I. apply Forall_forall. intros a Ha. apply list_elem_of_omap in Ha as (h & Hh & Ho).
  eapply about_open; [done| |exact Ho]. by apply (proj1 (Forall_forall _ _) (i_about _ I) h Hh).
Qed.

(** Elements distinct under [g] are distinct under [f] when [f] tells apart what [g] does. *)
Lemma NoDup_fmap_fmap_inj {A B C} (g : A → B) (f : A → C) l :
  (∀ x y, x ∈ l → y ∈ l → f x = f y → g x = g y) → NoDup (g <$> l) → NoDup (f <$> l).
Proof.
  induction l as [|x l IH]; intros Hf Hg; [constructor|]. rewrite fmap_cons in *.
  apply NoDup_cons in Hg as [Hx Hg]. apply NoDup_cons. split.
  - intros (z & Hz & Hin)%list_elem_of_fmap. apply Hx, list_elem_of_fmap. exists z. split; [|done].
    apply Hf; [left|by right|done].
  - apply IH; [|done]. intros a b Ha Hb. apply Hf; by right.
Qed.

Lemma NoDup_snoc {A} (l : list A) x : NoDup l → x ∉ l → NoDup (l ++ [x]).
Proof.
  intros Hl Hx. apply NoDup_app. split_and!; [done| |apply NoDup_singleton].
  intros z Hz ->%list_elem_of_singleton. done.
Qed.

(** Submitting a request, refused or accepted, with the handler it leaves. *)
Lemma submit_inv y now spec sink h :
  sys_inv y →
  let (r, s1) := new_request (sh y) now spec sink in
  let (ok, q) := RequestQueue.try_push (sv_queue s1) r in
  (if ok then about [r] h ∧ open_addr h = Some (sv_next_addr (sh y)) else open_addr h = None) →
  sys_inv (mkSys (set_queue s1 q) (handlers y ++ [h]) (taken y)).
Proof.
  intros I. unfold new_request. set (r := mkRequest _ _ _ _ _ _). simpl.
  assert (Hf : Forall (fresh_request (sv_next_addr (sh y) + 1)) (submitted y)).
  { eapply Forall_impl; [apply (i_fresh _ I)|]. intros x (H1 & H2). split; [lia|done]. }
  assert (Hr : fresh_request (sv_next_addr (sh y) + 1) r).
  { unfold fresh_request. simpl. rewrite (i_ids _ I). split_and!; [lia|done..]. }
  assert (Hi : add64 (sv_next_id (sh y)) 1 = wrap64 (sv_next_addr (sh y) + 1 + 1)).
  { rewrite (i_ids _ I). unfold add64, wrap64. by rewrite N.Div0.add_mod_idemp_l. }
  assert (Hn : sv_next_addr (sh y) ∉ req_result <$> submitted y).
  { intros (x & Hx & Hin)%list_elem_of_fmap.
    destruct (proj1 (Forall_forall _ _) (i_fresh _ I) x Hin) as [Hlt _]. lia. }
  unfold RequestQueue.try_push. destruct (_ || _); intros Hh; split; unfold submitted; simpl in *.
  - done.
  - done.
  - apply (i_promises _ I).
  - apply Forall_app. split; [apply (i_about _ I)|]. by destruct h; repeat constructor.
  - rewrite omap_app. simpl. rewrite Hh, app_nil_r. apply (i_open _ I).
  - intros a x. apply (i_results _ I).
  - done.
  - unfold push_back. rewrite app_assoc. apply Forall_app. split; [done|by constructor].
  - unfold push_back. rewrite app_assoc, fmap_app. apply NoDup_snoc; [apply (i_promises _ I)|done].
  - destruct Hh as [Hh _]. unfold push_back. apply Forall_app. split; [|constructor; [|done]].
    + eapply Forall_impl; [apply (i_about _ I)|]. intros x. apply about_mono. intros z. unfold submitted. set_solver.
    + eapply about_mono; [|exact Hh]. set_solver.
  - destruct Hh as [_ Hh]. rewrite omap_app. simpl. rewrite Hh. apply NoDup_snoc; [apply (i_open _ I)|].
    intros Hin. pose proof (proj1 (Forall_forall _ _) (open_addrs_below _ I) _ Hin) as Hlt. simpl in Hlt. lia.
  - intros a x. apply (i_results _ I).
Qed.

(** A step that keeps the queue, the counters and the results, and replaces a handler
    by one that is finished or the same request's. *)
Lemma replace_inv y i h h' s :
  sys_inv y → handlers y !! i = Some h →
  sv_queue s = sv_queue (sh y) → sv_next_id s = sv_next_id (sh y) →
  sv_next_addr s = sv_next_addr (sh y) → sv_results s = sv_results (sh y) →
  (open_addr h' = None ∨ open_addr h' = open_addr h ∧ (about (submitted y) h → about (submitted y) h')) →
  sys_inv (mkSys s (<[i := h']> (handlers y)) (taken y)).
Proof.
  intros I Hi Hq Hid Ha Hr Hh. assert (Hlt := lookup_lt_Some _ _ _ Hi).
  pose proof (list_insert_id _ _ _ Hi) as Hsame.
  assert (Hsub : submitted (mkSys s (<[i := h']> (handlers y)) (taken y)) = submitted y)
    by (unfold submitted; simpl; by rewrite Hq).
  split; rewrite ?Hsub; simpl; rewrite ?Hid, ?Ha, ?Hr; try apply I.
  - apply Forall_insert; [apply I|]. destruct Hh as [Hh|[_ Hh]]; [by destruct h'|].
    apply Hh. by apply (proj1 (Forall_forall _ _) (i_about _ I) h), (list_elem_of_lookup_2 _ i).
  - assert (Hsub' : omap open_addr (<[i := h']> (handlers y)) `sublist_of` omap open_addr (handlers y));
      [|eapply sublist_NoDup; [apply (i_open _ I)|exact Hsub']].
    rewrite <- Hsame at 2. rewrite !insert_take_drop, !omap_app by done. simpl.
    apply sublist_app; [done|]. destruct Hh as [->|[-> _]]; [|done].
    destruct (open_addr h); [by apply sublist_cons|done].
Qed.

(** A step that keeps the queue, the counters and the results, and starts a handler
    that is already finished. *)
Lemma closed_inv y h : sys_inv y → open_addr h = None → sys_inv (mkSys (sh y) (handlers y ++ [h]) (taken y)).
Proof.
  intros I Hh. split; simpl; try apply I.
  - apply Forall_app. split; [apply I|]. by destruct h; repeat constructor.
  - rewrite omap_app. simpl. rewrite Hh, app_nil_r. apply I.
Qed.

(** A step of another thread that keeps the counters and the results and only moves
    requests from the queue to the scheduler. *)
Lemma frame_inv y s tk :
  sys_inv y → submitted (mkSys s (handlers y) tk) = submitted y →
  sv_next_id s = sv_next_id (sh y) → sv_next_addr s = sv_next_addr (sh y) →
  sv_results s = sv_results (sh y) → (∀ r, r ∈ taken y → r ∈ tk) → sys_inv (mkSys s (handlers y) tk).
Proof.
  intros I Hs Hid Ha Hr Ht. split; rewrite ?Hs; simpl; rewrite ?Hid, ?Ha, ?Hr; try apply I.
  intros a x Hx. destruct (i_results _ I a x Hx) as (r & ? & ?). eauto.
Qed.

Lemma reply_error_open code m : open_addr (reply_error code m) = None.
Proof. unfold reply_error. by destruct (HttpApi.make_error_response m). Qed.

Lemma generate_reply_open result : open_addr (generate_reply result) = None.
Proof.
  unfold generate_reply. repeat case_decide; try apply reply_error_open.
  by destruct (HttpApi.make_generate_response _ _ _).
Qed.

Lemma generate_inv y now body :
  sys_inv y →
  sys_inv (mkSys (generate (sh y) now body).2 (handlers y ++ [(generate (sh y) now body).1]) (taken y)).
Proof.
  intros I. unfold generate. destruct (HttpApi.parse_generate_request body) as [spec|m|w].
  2: { apply closed_inv; [done|apply reply_error_open]. }
  2: { by apply closed_inv. }
  pose proof (λ h, submit_inv y now spec None h I) as H. destruct (new_request (sh y) now spec None) as [r s1] eqn:En.
  unfold new_request in En. injection En as <- <-.
  destruct (RequestQueue.try_push _ _) as [ok q]. destruct ok; simpl in *; apply H.
  - split; [|done]. eexists. by split; [left|].
  - apply reply_error_open.
Qed.

Lemma generate_stream_inv y now body :
  sys_inv y →
  sys_inv (mkSys (generate_stream (sh y) now body).2
                 (handlers y ++ [(generate_stream (sh y) now body).1]) (taken y)).
Proof.
  intros I. unfold generate_stream. destruct (HttpApi.parse_generate_request body) as [spec|m|w].
  2: { apply closed_inv; [done|apply reply_error_open]. }
  2: { by apply closed_inv. }
  set (a := sv_next_addr (sh y)). set (s0 := set_sinks (sh y) _).
  assert (I0 : sys_inv (mkSys s0 (handlers y) (taken y))) by (apply frame_inv; done).
  pose proof (λ h, submit_inv _ now spec (Some a) h I0) as H. cbn [sh handlers taken] in H.
  destruct (new_request s0 now spec (Some a)) as [r s1] eqn:En.
  unfold new_request in En. injection En as <- <-.
  destruct (RequestQueue.try_push _ _) as [ok q]. destruct ok; simpl in *; apply H.
  - split; [|done]. eexists. by split; [left|].
  - apply reply_error_open.
Qed.

Lemma generate_poll_inv c y i id a closed :
  sys_inv y → handlers y !! i = Some (Waiting id a) →
  let r := generate_poll c (sh y) id a closed in
  sys_inv (mkSys r.2 (<[i := r.1]> (handlers y)) (taken y)).
Proof.
  intros I Hi r. subst r. unfold generate_poll, generate_finish. destruct (sv_results (sh y) !! a) as [x|].
  - destruct (log_requests c); [destruct (HttpApi.make_request_log id x)|];
      (eapply replace_inv; [done|exact Hi|done..|left; done || apply generate_reply_open]).
  - destruct (closed || _); (eapply replace_inv; [done|exact Hi|done..|by right]).
Qed.

Lemma provide_inv y i a w ok :
  sys_inv y → handlers y !! i = Some (Streaming a w) →
  let r := provide (sh y) a w ok in sys_inv (mkSys r.2 (<[i := r.1]> (handlers y)) (taken y)).
Proof.
  intros I Hi r. subst r. unfold provide.
  assert (Hstay : ∀ s w', sv_queue s = sv_queue (sh y) → sv_next_id s = sv_next_id (sh y) →
    sv_next_addr s = sv_next_addr (sh y) → sv_results s = sv_results (sh y) →
    sys_inv (mkSys s (<[i := Streaming a w']> (handlers y)) (taken y))).
  { intros s w' ????. eapply replace_inv; [done|exact Hi|done..|by right]. }
  assert (Hstop : ∀ s h, sv_queue s = sv_queue (sh y) → sv_next_id s = sv_next_id (sh y) →
    sv_next_addr s = sv_next_addr (sh y) → sv_results s = sv_results (sh y) → open_addr h = None →
    sys_inv (mkSys s (<[i := h]> (handlers y)) (taken y))).
  { intros s h ?????. eapply replace_inv; [done|exact Hi|done..|by left]. }
  destruct (sv_sinks (sh y) !! a) as [k|]; [|by apply Hstay].
  destruct (StreamingSink.next k) as [[ev k']|]; [|by apply Hstay].
  destruct (negb (StreamingSink.ev_terminal ev)).
  - destruct (HttpApi.make_stream_delta _); [|by apply Hstop]. destruct ok; simpl; [|by apply Hstop].
    apply Hstay; by destruct (sv_shutting_down (sh y)).
  - destruct (final_body ev); by apply Hstop.
Qed.

Lemma sstep_inv c y y' : sstep c y y' → sys_inv y → sys_inv y'.
Proof.
  intros St I. destruct St as [y now body h s E|y now body h s E|y i id a closed h s Hi E|y i a w ok h s Hi E
    |y|y r q E|y r x Hr Hn|y r a k cl Hr Ha Hk|y].
  - pose proof (generate_inv y now body I) as G. by rewrite E in G.
  - pose proof (generate_stream_inv y now body I) as G. by rewrite E in G.
  - pose proof (generate_poll_inv c y i id a closed I Hi) as G. by rewrite E in G.
  - pose proof (provide_inv y i a w ok I Hi) as G. by rewrite E in G.
  - by apply frame_inv.
  - apply frame_inv; try done; [|set_solver]. unfold submitted, RequestQueue.pop in *. simpl.
    destruct (RequestQueue.queue_ (sv_queue (sh y))) as [|x rest]; [by destruct (RequestQueue.closed_ _)|].
    injection E as <- <-. simpl. by rewrite <- app_assoc.
  - destruct I. split; simpl; try done. intros a z. rewrite lookup_insert_Some. naive_solver.
  - by apply frame_inv.
  - by apply frame_inv.
Qed.

Lemma start_inv c : sys_inv (mkSys (start c) [] []).
Proof. split; simpl; try constructor. intros a x. by rewrite lookup_empty. Qed.

Lemma reachable_inv c y : rtc (sstep c) (mkSys (start c) [] []) y → sys_inv y.
Proof.
  intros R. assert (G : ∀ a, rtc (sstep c) a y → sys_inv a → sys_inv y).
  { intros a Ra. induction Ra; [done|]. eauto using sstep_inv. }
  by apply (G _ R), start_inv.
Qed.

(** C22: requests never get mixed up between HTTP threads.  In every state the server
    can reach by any interleaving of its handlers, the signal watcher and the
    scheduler, the requests ever accepted have distinct ids (while fewer than 2^64
    were submitted), promises and cancellation flags; every handler that waits or
    streams does so for one accepted request that is its own, and no two handlers share
    one; and once the scheduler has taken every queued request and answered all it
    took, every waiting handler answers at its next turn. *)
Theorem server_requests_distinct c y :
  rtc (sstep c) (mkSys (start c) [] []) y →
  (sv_next_addr (sh y) < 18446744073709551616 → NoDup (req_id <$> submitted y)) ∧
  NoDup (req_result <$> submitted y) ∧ NoDup (req_cancel <$> submitted y) ∧
  Forall (about (submitted y)) (handlers y) ∧ NoDup (omap open_addr (handlers y)) ∧
  (RequestQueue.queue_ (sv_queue (sh y)) = [] →
   Forall (λ r, is_Some (sv_results (sh y) !! req_result r)) (taken y) →
   ∀ i id a closed, handlers y !! i = Some (Waiting id a) →
     open_addr (generate_poll c (sh y) id a closed).1 = None).
Proof.
  intros R%reachable_inv. split_and!; try apply R.
  - intros Hlt. eapply (NoDup_fmap_fmap_inj req_result); [|apply R].
    intros r1 r2 H1 H2 E.
    destruct (proj1 (Forall_forall _ _) (i_fresh _ R) _ H1) as (L1 & _ & E1).
    destruct (proj1 (Forall_forall _ _) (i_fresh _ R) _ H2) as (L2 & _ & E2).
    rewrite E1, E2 in E. rewrite !wrap64_small in E by lia. lia.
  - replace (req_cancel <$> submitted y) with (req_result <$> submitted y); [apply R|].
    apply list_fmap_ext. intros i r Hr%list_elem_of_lookup_2.
    by destruct (proj1 (Forall_forall _ _) (i_fresh _ R) _ Hr) as (_ & -> & _).
  - intros Hq Ha i id a closed Hi. assert (Hab := i_about _ R). rewrite Forall_lookup in Hab.
    destruct (Hab _ _ Hi) as (r & Hr & _ & <- & _). unfold submitted in Hr. rewrite Hq, app_nil_r in Hr.
    destruct (proj1 (Forall_forall _ _) Ha r Hr) as [x Hx].
    unfold generate_poll, generate_finish, PromiseId in *. rewrite Hx.
    destruct (log_requests c); [destruct (HttpApi.make_request_log id x)|]; [apply generate_reply_open|done|apply generate_reply_open].
Qed.

(** ** What a streaming client receives *)

(** The library calls the provider, each write succeeding, until it returns [false]. *)
Fixpoint provide_all (fuel : nat) (s : Shared) (addr : N) (written : bytes) : Handler * Shared :=
  match fuel with
  | O => (Streaming addr written, s)
  | S fuel' =>
      match provide s addr written true with
      | (Streaming a w, s') => provide_all fuel' s' a w
      | done => done
      end
  end.

(** The deltas of a call trace that make an event. *)
Definition deltas (cs : list SinkCall) : list bytes := filter (λ d, d ≠ []) (call_text <$> cs).

Lemma calls_delta_events k cs :
  Forall (λ c, is_text c = true) cs →
  StreamingSink.events_ (calls k cs)
    = StreamingSink.events_ k ++ ((λ d, StreamingSink.mkEvent d false kUnset no_usage []) <$> deltas cs).
Proof.
  revert k. induction cs as [|c cs IH]; intros k Hc; [by rewrite app_nil_r|].
  apply Forall_cons in Hc as [Hc Hcs]. change (calls k (c :: cs)) with (calls (call k c) cs).
  rewrite IH by done. destruct c as [d| |]; try done. unfold deltas. rewrite fmap_cons. simpl.
  destruct d as [|x d]; [by rewrite filter_cons_False by auto|].
  rewrite filter_cons_True by done. rewrite fmap_cons. simpl. unfold push_back. by rewrite <- app_assoc.
Qed.

Lemma provide_event s a k w ev es :
  sv_sinks s !! a = Some k → StreamingSink.events_ k = ev :: es →
  provide s a w true =
    let s1 := set_sinks s (<[a := StreamingSink.mk es (StreamingSink.cancel_ k)]> (sv_sinks s)) in
    if negb (StreamingSink.ev_terminal ev) then
      match HttpApi.make_stream_delta (StreamingSink.ev_text ev) with
      | Throw what => (Raised what, s1)
      | Ok d => (Streaming a (w ++ frame d), if sv_shutting_down s1 then cancel s1 a else s1)
      end
    else
      match final_body ev with
      | Throw what => (Raised what, s1)
      | Ok body => (Streamed (w ++ frame body ++ frame (str "[DONE]")) true, s1)
      end.
Proof. intros Hk He. unfold provide. rewrite Hk. unfold StreamingSink.next. by rewrite He. Qed.

Lemma provide_all_events fuel s a k w ds bodies ev body :
  sv_sinks s !! a = Some k →
  StreamingSink.events_ k = ((λ d, StreamingSink.mkEvent d false kUnset no_usage []) <$> ds) ++ [ev] →
  Forall2 (λ d b, HttpApi.make_stream_delta d = Ok b) ds bodies →
  StreamingSink.ev_terminal ev = true → final_body ev = Ok body → (length ds < fuel)%nat →
  (provide_all fuel s a w).1
    = Streamed (w ++ concat (frame <$> bodies) ++ frame body ++ frame (str "[DONE]")) true.
Proof.
  intros Hk He Hb. revert fuel s k w Hk He. induction Hb as [|d b ds bodies Hd _ IH];
    intros fuel s k w Hk He Ht Hf Hl; (destruct fuel as [|fuel]; [simpl in Hl; lia|]); cbn [provide_all].
  - simpl in He. rewrite (provide_event s a k w ev [] Hk He), Ht, Hf. done.
  - rewrite fmap_cons in He. simpl in He. rewrite (provide_event s a k w _ _ Hk He). cbn [StreamingSink.ev_terminal
      StreamingSink.ev_text negb]. rewrite Hd. set (s1 := set_sinks s _).
    assert (Hs1 : sv_sinks (if sv_shutting_down s1 then cancel s1 a else s1) !! a
      = Some (StreamingSink.mk (((λ d, StreamingSink.mkEvent d false kUnset no_usage []) <$> ds) ++ [ev])
                               (StreamingSink.cancel_ k))).
    { destruct (sv_shutting_down s1); simpl; apply lookup_insert_eq. }
    rewrite (IH fuel _ _ (w ++ frame b) Hs1 eq_refl Ht Hf ltac:(simpl in Hl; lia)).
    rewrite fmap_cons. cbn [concat]. by rewrite <- !app_assoc.
Qed.

Section Laws.
Context `{HL : !JsonLaws J}.

(** The event of a terminal call, and that its body can be written. *)
Definition sendable (c : SinkCall) : Prop :=
  match c with
  | CText _ => False
  | CFinish r u => r ≠ kError ∧ prompt_tokens u < 4294967296 ∧ completion_tokens u < 4294967296
  | CError m => utf8 m = true
  end.

Definition last_body (c : SinkCall) : res bytes :=
  match c with
  | CFinish r u => HttpApi.make_stream_done (J:=J) r u
  | CError m => HttpApi.make_error_response (J:=J) m
  | CText d => HttpApi.make_stream_delta (J:=J) d
  end.

(** C30: a streaming client receives the response as it was generated.  When the
    generation delivered text deltas that are each UTF-8 and then ended, once, the
    provider writes one [data:] frame per non-empty delta, in order, then a frame with
    the reason and usage (or the error), then [data: \[DONE\]], and says it is done. *)
Theorem sse_stream s a cs term fuel :
  Forall (λ c, is_text c = true ∧ utf8 (call_text c) = true) cs → sendable term → (length cs < fuel)%nat →
  sv_sinks s !! a = Some (calls (StreamingSink.make a) (cs ++ [term])) →
  ∃ bodies final,
    Forall2 (λ d b, HttpApi.make_stream_delta (J:=J) d = Ok b) (deltas cs) bodies ∧ last_body term = Ok final ∧
    (provide_all fuel s a []).1
      = Streamed (concat (frame <$> bodies) ++ frame final ++ frame (str "[DONE]")) true.
Proof.
  intros Hcs Ht Hf Hs.
  assert (Hb : ∃ bodies, Forall2 (λ d b, HttpApi.make_stream_delta (J:=J) d = Ok b) (deltas cs) bodies).
  { clear -Hcs HL. unfold deltas. induction Hcs as [|c cs [_ Hu] _ [bs IH]]; [by exists []|]. rewrite fmap_cons.
    destruct (decide (call_text c = [])) as [E|E]; [rewrite filter_cons_False by auto; by exists bs|].
    rewrite filter_cons_True by done. destruct (HttpApi.delta_ok _ Hu) as [b Hb]. exists (b :: bs). by constructor. }
  destruct Hb as [bodies Hb].
  assert (Hfin : ∃ ev final, StreamingSink.ev_terminal ev = true ∧ last_body term = Ok final ∧
    final_body ev = Ok final ∧
    ∀ k, StreamingSink.events_ (call k term) = StreamingSink.events_ k ++ [ev]).
  { destruct term as [d|r u|m]; [done| |]; simpl in Ht.
    - destruct Ht as (Hr & Hp & Hc). destruct (HttpApi.done_ok r u Hp Hc) as [b Hd].
      exists (StreamingSink.mkEvent [] true r u []), b. unfold final_body. simpl. by rewrite decide_False.
    - destruct (HttpApi.error_ok m Ht) as [b Hd].
      exists (StreamingSink.mkEvent [] true kError no_usage m), b. unfold final_body. simpl. done. }
  destruct Hfin as (ev & final & H1 & H2 & H3 & H4). exists bodies, final. split_and!; [done..|].
  apply (provide_all_events fuel s a _ [] (deltas cs) bodies ev final Hs); try done.
  - rewrite calls_app. change (calls ?k [term]) with (call k term). rewrite H4. f_equal.
    rewrite calls_delta_events; [done|]. eapply Forall_impl; [exact Hcs|]. by intros c [? _].
  - assert (length (deltas cs) ≤ length cs)%nat; [|lia]. unfold deltas.
    rewrite <- (length_fmap call_text cs). apply length_filter.
Qed.

(** An accented letter: two bytes, and one token per byte on the mock engine. *)
Definition accent : bytes := [ascii_of_N 195; ascii_of_N 169].
Definition accent_engine : MockModelEngine.t :=
  MockModelEngine.make (MockModelEngine.mkConfig accent false 0 64 16 4).

(** C40: a character split over two tokens breaks the stream.  The mock engine serving
    a response of one two-byte character streams it as two deltas of one byte each;
    the text as a whole is UTF-8, but the first delta is not, so writing it throws out
    of the content provider and the client gets nothing. *)
Theorem split_character_breaks_stream :
  ∃ e k, generate_one 8 (λ _, ∅) accent_engine 0%Z (mkSpec (str "hi") [] 4 default_sampling)
           (StreamingSink.make 0) = Some (Ok tt, (e, k)) ∧
    utf8 accent = true ∧ concat (StreamingSink.ev_text <$> StreamingSink.events_ k) = accent ∧
    ∀ s a, sv_sinks s !! a = Some k →
      ∃ w, (provide s a [] true).1 = Raised w ∧ (provide_all 8 s a []).1 = Raised w.
Proof.
  eexists _, _. split; [vm_compute; reflexivity|]. split_and!; [reflexivity..|].
  intros s a Hs. destruct (HttpApi.delta_strict [ascii_of_N 195] eq_refl) as [w Hw]. exists w.
  cbn [provide_all]. erewrite provide_event; [|exact Hs|reflexivity].
  cbv zeta. cbn [StreamingSink.ev_terminal StreamingSink.ev_text negb].
  match goal with |- context [HttpApi.make_stream_delta ?d] => change d with [ascii_of_N 195] end. by rewrite Hw.
Qed.

End Laws.

End Json.

(** ** Evaluation on the small JSON library *)

Definition demo_body : bytes :=
  match dump (jobject (HttpApi.request_members (J:=ToyJson.value) (str "hi") 4 (str "##"))) with
  | Ok b => b
  | Throw _ => []
  end.

Definition demo1 : Handler * Shared := generate (J:=ToyJson.value) (start default_config) 5%Z demo_body.
Definition demo2 : Handler * Shared := generate_stream (J:=ToyJson.value) demo1.2 6%Z demo_body.
Definition demo_sys : Sys := mkSys demo2.2 [demo1.1; demo2.1] [].

Lemma server_requests_distinct_witness :
  handlers demo_sys = [Waiting 1 0; Streaming 1 []] ∧ req_id <$> submitted demo_sys = [1; 2] ∧
  NoDup (req_id <$> submitted demo_sys).
Proof.
  split_and!; [vm_compute; reflexivity..|].
  apply (server_requests_distinct (J:=ToyJson.value) default_config demo_sys).
  - eapply rtc_l; [by apply (st_generate _ (mkSys _ _ _) 5%Z demo_body), surjective_pairing|].
    eapply rtc_l; [by apply (st_stream _ (mkSys _ _ _) 6%Z demo_body), surjective_pairing|].
    apply rtc_refl.
  - vm_compute. reflexivity.
Defined.

Definition demo_trace : list SinkCall := [CText (str "He"); CText []; CText (str "llo")].

Lemma sse_stream_witness :
  let s := set_sinks (start default_config)
             (<[0 := calls (StreamingSink.make 0) (demo_trace ++ [CFinish kEos (mkUsage 2 5 0)])]> ∅) in
  ∃ bodies final, length bodies = 2%nat ∧
    (provide_all (J:=ToyJson.value) 4 s 0 []).1
      = Streamed (concat (frame <$> bodies) ++ frame final ++ frame (str "[DONE]")) true.
Proof.
  intros s. destruct (sse_stream (J:=ToyJson.value) s 0 demo_trace (CFinish kEos (mkUsage 2 5 0)) 4)
    as (bodies & final & H1 & _ & H2).
  - repeat constructor.
  - split_and!; [discriminate|reflexivity..].
  - simpl. lia.
  - apply lookup_insert_eq.
  - exists bodies, final. split; [|exact H2]. apply Forall2_length in H1. exact (eq_sym H1).
Defined.

Lemma split_character_breaks_stream_witness :
  ∃ k, concat (StreamingSink.ev_text <$> StreamingSink.events_ k) = accent ∧
    ∃ w, (provide (J:=ToyJson.value) (set_sinks (start default_config) (<[0 := k]> ∅)) 0 [] true).1 = Raised w.
Proof.
  destruct (split_character_breaks_stream (J:=ToyJson.value)) as (e & k & _ & _ & H1 & H2).
  exists k. split; [exact H1|].
  destruct (H2 (set_sinks (start default_config) (<[0 := k]> ∅)) 0) as (w & Hw & _).
  - apply lookup_insert_eq.
  - exists w. exact Hw.
Defined.

End Server.
