(* ===== verification/Main.v ===== *)
(** The command line: [src/main.cpp], with the configurations it builds for the
    server, the mock engine and the llama.cpp engine.

    [usage] prints and exits, so it is an outcome of parsing with its error line; the
    text it prints is in [Usage.v].  [atoi] is glibc's: [strtol] in base 10, saturating at
    64 bits, narrowed to [int] (values an [int] cannot hold are undefined in C). *)
From Stdlib Require Import Lia Ascii.
From stdpp Require Import base list gmap strings pretty.
From S2P Require Import Prelude Types Engine Mock Scheduler LlamaEngine Server.

Local Open Scope N_scope.

(** ** [std::atoi] *)

Definition is_space (c : ascii) : bool :=
  (N_of_ascii c =? 32) || ((9 <=? N_of_ascii c) && (N_of_ascii c <=? 13)).
Definition is_digit (c : ascii) : bool := (48 <=? N_of_ascii c) && (N_of_ascii c <=? 57).

Fixpoint skip_space (s : bytes) : bytes :=
  match s with
  | c :: rest => if is_space c then skip_space rest else s
  | [] => []
  end.

Fixpoint digits (s : bytes) (acc : N) : N :=
  match s with
  | c :: rest => if is_digit c then digits rest (acc * 10 + (N_of_ascii c - 48)) else acc
  | [] => acc
  end.

Definition strtol (s : bytes) : Z :=
  let s := skip_space s in
  match s with
  | c :: rest =>
      if N_of_ascii c =? 45 then Z.max (- Z.of_N (digits rest 0))%Z (-9223372036854775808)%Z
      else Z.min (Z.of_N (digits (if N_of_ascii c =? 43 then rest else s) 0)) 9223372036854775807%Z
  | [] => 0%Z
  end.

Definition narrow (z : Z) : Z := ((z + 2147483648) mod 4294967296 - 2147483648)%Z.
Definition atoi (s : bytes) : Z := narrow (strtol s).

(** [static_cast<std::size_t>] of an [int]. *)
Definition to_size (z : Z) : N := Z.to_N (z mod 18446744073709551616)%Z.

Module Main.

Record Args := mkArgs {
  model : bytes;
  host : bytes;
  port : Z;
  threads : Z;
  n_ctx : N;
  mock : bytes;
  has_mock : bool;
  mock_echo : bool;
  quiet : bool;
  queue_depth : N;
  batch_size : N;
  prefill_chunk : N;
  kv_blocks : N;
  block_size : N;
  no_prefix_cache : bool;
  log_requests : bool;
  prefix_donors : N;
  mode : Scheduler.BatchingMode }.

Definition default_args : Args :=
  mkArgs [] (str "0.0.0.0") 8080 8 4096 [] false false false 64 8 128 0 16 false false 4
         Scheduler.kContinuous.

(** Parsing ends with the arguments, or in [usage(prog, code)] after an error line. *)
Inductive ArgResult : Type :=
  | Run (a : Args)
  | Usage (code : Z) (error : bytes).

(** The options that take a value: what they do with it. *)
Definition value_option (arg : bytes) : option (Args → bytes → ArgResult) :=
  if decide (arg = str "--model") then Some (λ '(mkArgs _ ho po th cx mk hm me qu qd bs pc kb bl np lr pd mo) v,
    Run (mkArgs v ho po th cx mk hm me qu qd bs pc kb bl np lr pd mo))
  else if decide (arg = str "--host") then Some (λ '(mkArgs ml _ po th cx mk hm me qu qd bs pc kb bl np lr pd mo) v,
    Run (mkArgs ml v po th cx mk hm me qu qd bs pc kb bl np lr pd mo))
  else if decide (arg = str "--port") then Some (λ '(mkArgs ml ho _ th cx mk hm me qu qd bs pc kb bl np lr pd mo) v,
    Run (mkArgs ml ho (atoi v) th cx mk hm me qu qd bs pc kb bl np lr pd mo))
  else if decide (arg = str "--threads") then Some (λ '(mkArgs ml ho po _ cx mk hm me qu qd bs pc kb bl np lr pd mo) v,
    Run (mkArgs ml ho po (atoi v) cx mk hm me qu qd bs pc kb bl np lr pd mo))
  else if decide (arg = str "--ctx") then Some (λ '(mkArgs ml ho po th _ mk hm me qu qd bs pc kb bl np lr pd mo) v,
    Run (mkArgs ml ho po th (to_u32 (atoi v)) mk hm me qu qd bs pc kb bl np lr pd mo))
  else if decide (arg = str "--mock") then Some (λ '(mkArgs ml ho po th cx _ _ me qu qd bs pc kb bl np lr pd mo) v,
    Run (mkArgs ml ho po th cx v true me qu qd bs pc kb bl np lr pd mo))
  else if decide (arg = str "--queue") then Some (λ '(mkArgs ml ho po th cx mk hm me qu _ bs pc kb bl np lr pd mo) v,
    Run (mkArgs ml ho po th cx mk hm me qu (to_size (atoi v)) bs pc kb bl np lr pd mo))
  else if decide (arg = str "--batch-size") then Some (λ '(mkArgs ml ho po th cx mk hm me qu qd _ pc kb bl np lr pd mo) v,
    if to_size (atoi v) =? 0 then Usage 2 (str "error: --batch-size must be >= 1")
    else Run (mkArgs ml ho po th cx mk hm me qu qd (to_size (atoi v)) pc kb bl np lr pd mo))
  else if decide (arg = str "--scheduler") then Some (λ '(mkArgs ml ho po th cx mk hm me qu qd bs pc kb bl np lr pd _) v,
    if decide (v = str "continuous")
    then Run (mkArgs ml ho po th cx mk hm me qu qd bs pc kb bl np lr pd Scheduler.kContinuous)
    else if decide (v = str "static")
    then Run (mkArgs ml ho po th cx mk hm me qu qd bs pc kb bl np lr pd Scheduler.kStatic)
    else Usage 2 (str "error: --scheduler must be 'continuous' or 'static'"))
  else if decide (arg = str "--prefill-chunk") then Some (λ '(mkArgs ml ho po th cx mk hm me qu qd bs _ kb bl np lr pd mo) v,
    Run (mkArgs ml ho po th cx mk hm me qu qd bs (to_size (atoi v)) kb bl np lr pd mo))
  else if decide (arg = str "--kv-blocks") then Some (λ '(mkArgs ml ho po th cx mk hm me qu qd bs pc _ bl np lr pd mo) v,
    Run (mkArgs ml ho po th cx mk hm me qu qd bs pc (to_u32 (atoi v)) bl np lr pd mo))
  else if decide (arg = str "--block-size") then Some (λ '(mkArgs ml ho po th cx mk hm me qu qd bs pc kb _ np lr pd mo) v,
    Run (mkArgs ml ho po th cx mk hm me qu qd bs pc kb (to_u32 (atoi v)) np lr pd mo))
  else if decide (arg = str "--prefix-donors") then Some (λ '(mkArgs ml ho po th cx mk hm me qu qd bs pc kb bl np lr _ mo) v,
    Run (mkArgs ml ho po th cx mk hm me qu qd bs pc kb bl np lr (to_u32 (atoi v)) mo))
  else None.

(** The options without a value. *)
Definition flag_option (arg : bytes) : option (Args → Args) :=
  if decide (arg = str "--mock-echo") then Some (λ '(mkArgs ml ho po th cx mk _ _ qu qd bs pc kb bl np lr pd mo),
    mkArgs ml ho po th cx mk true true qu qd bs pc kb bl np lr pd mo)
  else if decide (arg = str "--no-prefix-cache") then Some (λ '(mkArgs ml ho po th cx mk hm me qu qd bs pc kb bl _ lr pd mo),
    mkArgs ml ho po th cx mk hm me qu qd bs pc kb bl true lr pd mo)
  else if decide (arg = str "--log-requests") then Some (λ '(mkArgs ml ho po th cx mk hm me qu qd bs pc kb bl np _ pd mo),
    mkArgs ml ho po th cx mk hm me qu qd bs pc kb bl np true pd mo)
  else if decide (arg = str "--quiet") then Some (λ '(mkArgs ml ho po th cx mk hm me _ qd bs pc kb bl np lr pd mo),
    mkArgs ml ho po th cx mk hm me true qd bs pc kb bl np lr pd mo)
  else None.

(** The loop over [argv] after the program's name. *)
Fixpoint parse_loop (args : list bytes) (a : Args) : ArgResult :=
  match args with
  | [] => Run a
  | arg :: rest =>
      match value_option arg with
      | Some set =>
          match rest with
          | [] => Usage 2 (str "error: " ++ arg ++ str " needs a value")
          | v :: rest' =>
              match set a v with
              | Run a' => parse_loop rest' a'
              | Usage code error => Usage code error
              end
          end
      | None =>
          match flag_option arg with
          | Some set => parse_loop rest (set a)
          | None =>
              if decide (arg = str "--help" ∨ arg = str "-h") then Usage 0 []
              else Usage 2 (str "error: unknown argument '" ++ arg ++ str "'")
          end
      end
  end.

Definition parse_args (argv : list bytes) : ArgResult :=
  match parse_loop argv default_args with
  | Run a =>
      if negb (has_mock a) && (len (model a) =? 0)
      then Usage 2 (str "error: one of --model or --mock is required") else Run a
  | stop => stop
  end.

(** ** The configurations [main] builds *)

Definition server_cfg (a : Args) : Server.ServerConfig :=
  Server.mkConfig (host a) (port a) (queue_depth a) (batch_size a) (mode a) (prefill_chunk a) (kv_blocks a)
    (block_size a) (negb (no_prefix_cache a)) (log_requests a) (prefix_donors a).

(** The mock's configuration, its other members at their defaults. *)
Definition mock_cfg (a : Args) : MockModelEngine.Config :=
  MockModelEngine.mkConfig (mock a) (mock_echo a) 0 4096 512 16.

Definition llama_cfg (a : Args) : LlamaModelEngine.LlamaEngineConfig :=
  let d := LlamaModelEngine.default_config in
  let seqs := wrap32 (N.max (batch_size a) (LlamaModelEngine.cfg_n_seq_max d)) in
  LlamaModelEngine.mkConfig (model a) (mul32 (n_ctx a) seqs) (LlamaModelEngine.cfg_n_batch d) seqs
    (threads a) (LlamaModelEngine.n_gpu_layers d) (negb (no_prefix_cache a)).

(** [main] up to [serve]: the exit code, or the engine it serves with. *)
Inductive Launch : Type :=
  | ExitCode (code : Z)
  | ServeMock (engine : MockModelEngine.Config) (cfg : Server.ServerConfig)
  | ServeLlama (engine : LlamaModelEngine.LlamaEngineConfig) (cfg : Server.ServerConfig).

(** [has_llama] is the build option [MICROVLLM_HAS_LLAMA]. *)
Definition main (has_llama : bool) (argv : list bytes) : Launch :=
  match parse_args argv with
  | Usage code _ => ExitCode code
  | Run args =>
      if has_mock args then ServeMock (mock_cfg args) (server_cfg args)
      else if has_llama then ServeLlama (llama_cfg args) (server_cfg args)
      else ExitCode 1
  end.

(** ** Lemmas *)

Lemma digit_char x : x < 10 →
  is_digit (pretty_N_char x) = true ∧ N_of_ascii (pretty_N_char x) - 48 = x ∧
  is_space (pretty_N_char x) = false ∧ 48 ≤ N_of_ascii (pretty_N_char x).
Proof.
  intros H. assert (x = 0 ∨ x = 1 ∨ x = 2 ∨ x = 3 ∨ x = 4 ∨ x = 5 ∨ x = 6 ∨ x = 7 ∨ x = 8 ∨ x = 9) as Hx by lia.
  by destruct_or! Hx; subst x; vm_compute.
Qed.

(** Reading back what [pretty] writes. *)
Lemma digits_go x s : digits (str (pretty_N_go x s)) 0 = digits (str s) x.
Proof.
  revert s. induction (N.lt_wf_0 x) as [x _ IH]; intros s.
  destruct (decide (x = 0)) as [->|Hx]; [done|].
  rewrite pretty_N_go_step by lia. rewrite IH by (apply N.div_lt; lia).
  change (str (String ?c s)) with (c :: str s). cbn [digits].
  destruct (digit_char (x mod 10)) as (-> & -> & _); [by apply N.mod_lt|].
  f_equal. pose proof (N.div_mod x 10 ltac:(done)). lia.
Qed.

Lemma go_head x s : 0 < x → ∃ d t, d < 10 ∧ pretty_N_go x s = String (pretty_N_char d) t.
Proof.
  revert s. induction (N.lt_wf_0 x) as [x _ IH]; intros s Hx. rewrite pretty_N_go_step by done.
  destruct (decide (x / 10 = 0)) as [->|Hd].
  - rewrite pretty_N_go_0. eexists _, _. split; [by apply (N.mod_lt x 10)|done].
  - apply IH; [apply N.div_lt; lia|by apply N.neq_0_lt_0].
Qed.

Lemma atoi_num n : n < 2147483648 → atoi (num n) = Z.of_N n.
Proof.
  intros Hn. unfold atoi, num, pretty, pretty_N. case_decide as H0; [subst; reflexivity|].
  destruct (go_head n EmptyString ltac:(lia)) as (d & t & Hd & E). pose proof (digits_go n EmptyString) as Hg.
  rewrite E in *. destruct (digit_char d Hd) as (_ & _ & Hs & H48). unfold strtol.
  change (str (String (pretty_N_char d) t)) with (pretty_N_char d :: str t) in *. cbn [skip_space]. rewrite Hs.
  destruct (N.eqb_spec (N_of_ascii (pretty_N_char d)) 45); [lia|].
  destruct (N.eqb_spec (N_of_ascii (pretty_N_char d)) 43); [lia|].
  rewrite Hg. change (digits (str EmptyString) n) with n. unfold narrow. rewrite Z.min_l by lia.
  rewrite Z.mod_small by lia. lia.
Qed.

(** A command line that asks for [a]. *)
Definition render (a : Args) : list bytes :=
  [str "--model"; model a; str "--host"; host a; str "--port"; num (Z.to_N (port a));
   str "--threads"; num (Z.to_N (threads a)); str "--ctx"; num (n_ctx a)]
  ++ (if has_mock a then [str "--mock"; mock a] else [])
  ++ (if mock_echo a then [str "--mock-echo"] else [])
  ++ [str "--queue"; num (queue_depth a); str "--batch-size"; num (batch_size a);
      str "--scheduler"; match mode a with
                         | Scheduler.kContinuous => str "continuous"
                         | Scheduler.kStatic => str "static"
                         end;
      str "--prefill-chunk"; num (prefill_chunk a); str "--kv-blocks"; num (kv_blocks a);
      str "--block-size"; num (block_size a); str "--prefix-donors"; num (prefix_donors a)]
  ++ (if no_prefix_cache a then [str "--no-prefix-cache"] else [])
  ++ (if log_requests a then [str "--log-requests"] else [])
  ++ (if quiet a then [str "--quiet"] else []).

(** What a command line can ask for: numbers an [int] holds, a batch, and a model or
    the mock. *)
Definition askable (a : Args) : Prop :=
  (0 ≤ port a < 2147483648)%Z ∧ (0 ≤ threads a < 2147483648)%Z ∧
  Forall (λ n, n < 2147483648)
    [n_ctx a; queue_depth a; batch_size a; prefill_chunk a; kv_blocks a; block_size a; prefix_donors a] ∧
  0 < batch_size a ∧
  (if has_mock a then True else mock a = [] ∧ mock_echo a = false ∧ model a ≠ []).

Lemma to_u32_num n : n < 2147483648 → to_u32 (atoi (num n)) = n.
Proof. intros Hn. rewrite atoi_num by done. rewrite to_u32_small by lia. lia. Qed.

Lemma to_size_num n : n < 2147483648 → to_size (atoi (num n)) = n.
Proof. intros Hn. rewrite atoi_num by done. unfold to_size. rewrite Z.mod_small by lia. lia. Qed.

Lemma int_num z : (0 ≤ z < 2147483648)%Z → atoi (num (Z.to_N z)) = z.
Proof. intros Hz. rewrite atoi_num by lia. lia. Qed.

Lemma parse_value set key v rest a :
  value_option key = Some set →
  parse_loop (key :: v :: rest) a
    = match set a v with Run a' => parse_loop rest a' | Usage c e => Usage c e end.
Proof. intros H. cbn [parse_loop]. by rewrite H. Qed.

Lemma parse_flag set key rest a :
  value_option key = None → flag_option key = Some set → parse_loop (key :: rest) a = parse_loop rest (set a).
Proof. intros H1 H2. cbn [parse_loop]. by rewrite H1, H2. Qed.

(** Consume one rendered option. *)
Ltac consume :=
  first [erewrite parse_value by reflexivity | erewrite parse_flag by reflexivity]; cbv beta iota.

(** C33: every configuration can be asked for.  Parsing the command line that spells out
    a set of arguments gives back exactly those arguments: each option sets its own
    field and no other, and numbers are read back as they were written. *)
Theorem args_roundtrip a : askable a → parse_args (render a) = Run a.
Proof.
  destruct a as [ml ho po th cx mk hm me qu qd bs pc kb bl np lr pd mo].
  intros (Hpo & Hth & Hn & Hbs & Hm). cbn in Hpo, Hth, Hn, Hbs, Hm. rewrite !Forall_cons in Hn.
  destruct Hn as (Hcx & Hqd & Hbs' & Hpc & Hkb & Hbl & Hpd & _).
  unfold parse_args, render, default_args. cbn [model host port threads n_ctx mock has_mock mock_echo quiet queue_depth batch_size
    prefill_chunk kv_blocks block_size no_prefix_cache log_requests prefix_donors mode].
  cbn [app]. do 5 consume. rewrite !int_num, !to_u32_num by done.
  assert (Hmock : ∀ rest, parse_loop ((if hm then [str "--mock"; mk] else []) ++ (if me then [str "--mock-echo"] else []) ++ rest)
      (mkArgs ml ho po th cx [] false false false 64 8 128 0 16 false false 4 Scheduler.kContinuous)
    = parse_loop rest (mkArgs ml ho po th cx mk hm me false 64 8 128 0 16 false false 4 Scheduler.kContinuous)).
  { intros rest. destruct hm.
    - cbn [app]. consume. by destruct me; cbn [app]; [consume|].
    - destruct Hm as (-> & -> & _). done. }
  rewrite Hmock. cbn [app]. do 2 consume. rewrite !to_size_num by done.
  destruct (N.eqb_spec bs 0); [lia|]. consume.
  assert (Hmode : ∀ (k : Args → ArgResult) c e b1, (match (if decide (match mo with Scheduler.kContinuous => str "continuous"
      | Scheduler.kStatic => str "static" end = str "continuous") then Run (b1 Scheduler.kContinuous)
      else if decide (match mo with Scheduler.kContinuous => str "continuous"
      | Scheduler.kStatic => str "static" end = str "static") then Run (b1 Scheduler.kStatic) else Usage c e)
    with Run a' => k a' | Usage c e => Usage c e end) = k (b1 mo)) by (intros; by destruct mo).
  rewrite (Hmode _ _ _ (λ m, mkArgs ml ho po th cx mk hm me false qd bs 128 0 16 false false 4 m)).
  cbn [app]. do 4 consume. rewrite !to_u32_num, !to_size_num by done.
  destruct np, lr, qu; cbn [app]; repeat consume; cbn [parse_loop has_mock model];
    (destruct hm; [done|]; destruct Hm as (_ & _ & Hml); by destruct ml).
Qed.

(** The loop never accepts an empty batch. *)
Lemma parse_loop_batch argv a a' : 0 < batch_size a → parse_loop argv a = Run a' → 0 < batch_size a'.
Proof.
  remember (length argv) as n eqn:Hn. revert argv a Hn.
  induction (lt_wf n) as [n _ IH]; intros argv a -> Ha.
  destruct argv as [|arg rest]; cbn [parse_loop]; [by intros [= <-]|].
  destruct (value_option arg) as [set|] eqn:Ev.
  - destruct rest as [|v rest]; [done|]. destruct (set a v) as [b|] eqn:Es; [|done].
    apply (IH (length rest)); [simpl; lia|done|]. revert Ev Es. unfold value_option. destruct a. simpl in *.
    repeat (case_decide; [intros [= <-] E; revert E; (intros [= <-]; done) || idtac|]); try done.
    + destruct (to_size (atoi v) =? 0) eqn:E0; [done|]. bool_hyps. intros [= <-]. simpl. lia.
    + repeat case_decide; try done; by intros [= <-].
  - destruct (flag_option arg) as [set|] eqn:Ef; [|by case_decide].
    apply (IH (length rest)); [simpl; lia|done|]. revert Ef. unfold flag_option. destruct a. simpl in *.
    repeat (case_decide; [by intros [= <-]|]). done.
Qed.

Definition demo_args : Args :=
  mkArgs (str "m.gguf") (str "localhost") 9000 4 2048 [] false false true 7 12 64 300 8 true true 2 Scheduler.kStatic.

Lemma args_roundtrip_witness : parse_args (render demo_args) = Run demo_args.
Proof.
  apply args_roundtrip. split_and!; cbn; try lia; [repeat constructor|].
  split_and!; [reflexivity|reflexivity|discriminate].
Defined.

(** C35: what [main] launches is consistent.  Whatever the command line, a server is
    only started with a positive batch size; with the llama.cpp engine, the context is
    unified exactly when the scheduler may copy prefixes, and, for a batch size below
    2^32, it has a sequence for every slot of the batch, so the scheduler's own clamp
    never applies; and unless the product overflows 32 bits, each sequence's share of
    the context is the [--ctx] that was asked for. *)
Theorem main_launch_consistent has_llama argv :
  match main has_llama argv with
  | ExitCode _ => True
  | ServeMock _ c => 0 < Server.max_batch_size c
  | ServeLlama e c =>
      0 < Server.max_batch_size c ∧ LlamaModelEngine.kv_unified e = Server.prefix_caching c ∧
      (Server.max_batch_size c < 4294967296 →
       Server.max_batch_size c ≤ LlamaModelEngine.cfg_n_seq_max e ∧
       ∃ a, parse_args argv = Run a ∧
         (n_ctx a * LlamaModelEngine.cfg_n_seq_max e < 4294967296 →
          LlamaModelEngine.cfg_n_ctx e / LlamaModelEngine.cfg_n_seq_max e = n_ctx a))
  end.
Proof.
  unfold main. destruct (parse_args argv) as [a|] eqn:Ep; [|done].
  assert (Hb : 0 < batch_size a).
  { unfold parse_args in Ep. destruct (parse_loop argv default_args) as [a'|] eqn:El; [|done].
    destruct (_ && _); [done|]. injection Ep as ->. by apply (parse_loop_batch argv default_args). }
  destruct (has_mock a); [done|]. destruct has_llama; [|done]. simpl. split_and!; [done..|]. intros Hlt.
  rewrite wrap32_small by lia. split; [lia|]. exists a. split; [done|]. intros Hc.
  rewrite mul32_small by done. apply N.div_mul. lia.
Qed.

(** Numbers are not checked.  The documented limits can be passed by numbers that
    the casts turn into others: a batch size of -1 is accepted as 2^64 - 1, a port that
    is not a number as 0, and a per-request context of 131072 for 32768 sequences
    gives llama.cpp a total context of 0. *)
Theorem numbers_unchecked :
  (∃ a, parse_args [str "--mock"; str "x"; str "--batch-size"; str "-1"] = Run a ∧
        batch_size a = 18446744073709551615) ∧
  (∃ a, parse_args [str "--mock"; str "x"; str "--port"; str "http"] = Run a ∧ port a = 0%Z) ∧
  (∃ a, parse_args [str "--model"; str "m"; str "--ctx"; str "131072"; str "--batch-size"; str "32768"] = Run a ∧
        n_ctx a = 131072 ∧ LlamaModelEngine.cfg_n_ctx (llama_cfg a) = 0).
Proof. split_and!; eexists; split_and!; vm_compute; reflexivity. Qed.

End Main.
