(* ===== verification/Usage.v ===== *)
(** What the program prints: [usage] and the start-up line of [src/main.cpp], with
    [include/microvllm/version.hpp].

    The options that the help text names, with or without a value, and the defaults it
    promises are read out of the text by [documented] and [promised]; the theorems
    compare them with the parser. *)
From Stdlib Require Import Lia Ascii.
From stdpp Require Import base list gmap strings pretty.
From S2P Require Import Prelude Types Engine Mock Scheduler LlamaEngine Server Main.

Local Open Scope N_scope.

Module Usage.
Import Main.

(** ** The version *)

Definition kVersionMajor : N := 0.
Definition kVersionMinor : N := 1.
Definition kVersionPatch : N := 0.
Definition kVersion : bytes := str "0.1.0".

(** ** The help text *)

Definition newline : ascii := ascii_of_N 10.

Definition options : list bytes := str <$>
  [ "  --model <path>    GGUF model to serve";
    "  --host <addr>     bind address (default 0.0.0.0)";
    "  --port <n>        bind port (default 8080)";
    "  --threads <n>     inference threads (default 8)";
    "  --ctx <n>         per-request context length (default 4096)";
    "  --mock <text>     serve a deterministic mock engine instead of a model";
    "  --mock-echo       mock mode that echoes each prompt back (load testing)";
    "  --queue <n>       max waiting requests before 503 (default 64)";
    "  --batch-size <n>  sequences batched into one forward pass (default 8)";
    "  --scheduler <m>   continuous (default) | static";
    "  --prefill-chunk <n>  prompt tokens per sequence per step (default 128,";
    "                    0 = submit whole prompts; continuous mode only)";
    "  --kv-blocks <n>   KV-cache budget in blocks (default: derived from --ctx).";
    "                    Lower it to exercise admission control and preemption";
    "  --block-size <n>  tokens per KV block (default 16)";
    "  --no-prefix-cache disable KV sharing between common prompt prefixes";
    "  --prefix-donors <n>  prefixes retained past their request's exit";
    "                    (default 4, 0 = off)";
    "  --log-requests    emit one JSON line per completed request";
    "  --quiet           silence llama.cpp info logging";
    "  --help" ]%string.

Definition usage_lines (prog : bytes) : list bytes :=
  [str "microvllm " ++ kVersion;
   str "usage: " ++ prog ++ str " --model <path.gguf> [options]";
   str "       " ++ prog ++ str " --mock <response> [options]   (no model; echoes a fixed response)";
   []; str "options:"] ++ options.

Definition print_lines (ls : list bytes) : bytes := concat ((λ l, l ++ [newline]) <$> ls).

Inductive Stream := Stdout | Stderr.

(** [usage(prog, code)] prints and exits. *)
Definition usage (prog : bytes) (code : Z) : Stream * bytes * Z :=
  (if (code =? 0)%Z then Stdout else Stderr, print_lines (usage_lines prog), code).

(** What a command line that is not run prints, and its exit code. *)
Definition refuse (prog : bytes) (code : Z) (error : bytes) : list (Stream * bytes) * Z :=
  let '(to, text, c) := usage prog code in
  ((match error with [] => [] | _ => [(Stderr, error ++ [newline])] end) ++ [(to, text)], c).

(** The first line of a server with the mock engine. *)
Definition mock_banner (a : Args) : bytes :=
  str "microvllm " ++ kVersion ++ str " (mock engine" ++ (if mock_echo a then str ", echo" else []) ++ str ")" ++ [newline].

(** ** Reading the help text *)

Fixpoint words (s : bytes) : list bytes :=
  match s with
  | [] => [[]]
  | c :: s' => if decide (c = " "%char) then [] :: words s'
               else match words s' with w :: ws => (c :: w) :: ws | [] => [[c]] end
  end.

Definition is_option (w : bytes) : bool := bool_decide (take 2 w = str "--").

(** The options of the text, each with the words after it. *)
Definition entries (ls : list bytes) : list (bytes * list bytes) :=
  foldr (λ l acc, match filter (λ w, w ≠ []) (words l) with
    | w :: ws => if is_option w then (w, ws) :: acc else acc
    | [] => acc end) [] ls.

Definition documented (ls : list bytes) : list (bytes * bool) :=
  (λ x : bytes * list bytes, (x.1, match x.2 with (c :: _) :: _ => bool_decide (c = "<"%char) | _ => false end)) <$> entries ls.

(** The value after [(default], without the bracket or comma that ends it. *)
Fixpoint promise (ws : list bytes) : option bytes :=
  match ws with
  | [] => None
  | w :: ws' => if decide (w = str "(default") then (λ v, take (pred (length v)) v) <$> head ws' else promise ws'
  end.

Definition promised (ls : list bytes) : list (bytes * bytes) :=
  omap (λ x : bytes * list bytes, v ← promise x.2; Some (x.1, v)) (entries ls).

(** ** The text is right *)

(** Every option the parser compares [arg] with is in the text. *)
Ltac which_option Hf :=
  repeat match type of Hf with context [if decide ?P then _ else _] =>
    destruct (decide P) as [->|_]; [clear Hf; apply (bool_decide_unpack _); vm_compute; exact I|] end; done.

(** The help text documents the parser: it names an option with a value exactly when the
    parser takes it with a value, and one without exactly when the parser takes it
    without, [--help] itself included; only the short form [-h] is missing. *)
Theorem usage_complete arg :
  (is_Some (value_option arg) ↔ (arg, true) ∈ documented options) ∧
  (is_Some (flag_option arg) ∨ arg = str "--help" ↔ (arg, false) ∈ documented options).
Proof.
  split; split.
  - unfold value_option. intros [f Hf].
    which_option Hf.
  - intros Hd. assert (Hall : Forall (λ x : bytes * bool, x.2 = true → is_Some (value_option x.1)) (documented options))
      by (apply (bool_decide_unpack _); vm_compute; exact I).
    rewrite Forall_forall in Hall. by apply (Hall _ Hd).
  - unfold flag_option. intros [[f Hf]| ->]; [|apply (bool_decide_unpack _); vm_compute; exact I].
    which_option Hf.
  - intros Hd. assert (Hall : Forall (λ x : bytes * bool, x.2 = false → is_Some (flag_option x.1) ∨ x.1 = str "--help") (documented options)).
    { apply (bool_decide_unpack _). vm_compute. exact I. }
    rewrite Forall_forall in Hall. by apply (Hall _ Hd).
Qed.

(** The defaults the help text promises on the option's line are those of [Args]. *)
Theorem usage_defaults :
  promised options =
    [(str "--host", host default_args); (str "--port", num (Z.to_N (port default_args)));
     (str "--threads", num (Z.to_N (threads default_args))); (str "--ctx", num (n_ctx default_args));
     (str "--queue", num (queue_depth default_args)); (str "--batch-size", num (batch_size default_args));
     (str "--prefill-chunk", num (prefill_chunk default_args)); (str "--block-size", num (block_size default_args))].
Proof. vm_compute. reflexivity. Qed.

Lemma version_parts :
  kVersion = num kVersionMajor ++ str "." ++ num kVersionMinor ++ str "." ++ num kVersionPatch.
Proof. vm_compute. reflexivity. Qed.

End Usage.
