(* ===== verification/KvAccounting.v ===== *)
(** The key-value cache of continuous batching.

    [kv] is the invariant of the pool, the prefix cache and the active jobs: the pool
    accounts for the tables of the active jobs, the blocks of the donors and a list of
    leaked references that nobody holds any more, and every published prefix belongs to
    an active job that holds its blocks.  References leak when a prefix is published
    over a donor with the same hash ([PrefixCache.insert] drops the record without
    freeing its blocks); each such leak also loses a donor slot, which bounds them
    ([strays_len]).  Without donors nothing leaks.

    This file shows what one operation on one job does to the invariant;
    [ContinuousRun.v] follows the phases of [run_continuous].  It holds for every pool
    size, preemption included, as long as no request needs more than [K] tokens and the
    counters do not wrap. *)
From Stdlib Require Import Permutation Lia.
From stdpp Require Import base list gmap strings.
From S2P Require Import Prelude Types Blocks Tables Prefix Timing Engine Sinks Sequence Mock Queue Scheduler Continuous Static Demo Conservation Batching Pressure StaticRun.

Local Open Scope N_scope.

Import Scheduler Continuous.

(** The blocks of a table. *)
Notation held j := (BlockTable.blocks_ (job_blocks j)).

(** The blocks that [n] tokens fill. *)
Definition ceil_blocks (bs n : N) : N := (n + bs - 1) / bs.

Lemma ceil_blocks_mono bs n m : 0 < bs → n ≤ m → ceil_blocks bs n ≤ ceil_blocks bs m.
Proof. intros Hb Hn. unfold ceil_blocks. apply N.Div0.div_le_mono. lia. Qed.

Lemma blocks_for_limit a bs n K :
  BlockAllocator.block_size_ a = bs → 0 < bs → n ≤ K → K + bs ≤ 4294967296 →
  BlockAllocator.blocks_for a n ≤ ceil_blocks bs K.
Proof.
  intros Hbs Hb Hn HK. rewrite BlockAllocator.blocks_for_ceil by lia. rewrite Hbs.
  by apply ceil_blocks_mono.
Qed.

Lemma len_remove_dups_app (l k : list N) :
  len (remove_dups (l ++ k)) ≤ len l + len (remove_dups k).
Proof.
  induction l as [|x l IH]; simpl; [lia|]. case_decide; rewrite ?len_cons; lia.
Qed.

(** The blocks a request of at most [K] tokens may need. *)
Definition quota (K bs : N) : N := ceil_blocks bs K.

(** No request needs more than [K] tokens, no table holds more than [L] blocks. *)
Class Limits (K bs L : N) : Prop := mk_limits {
  limits_bs : 0 < bs;
  limits_K : K + bs ≤ 4294967296;
  limits_L : quota K bs ≤ L }.

(** The blocks of a list, whatever its order. *)
Lemma concat_perm {A} (f : A → list N) l k : l ≡ₚ k → concat (f <$> l) ≡ₚ concat (f <$> k).
Proof.
  induction 1; rewrite ?fmap_cons; simpl; [done|by f_equiv| |by etrans].
  rewrite !app_assoc. apply Permutation_app_tail, Permutation_app_comm.
Qed.

Lemma tables_perm act act' : act ≡ₚ act' → tables act ≡ₚ tables act'.
Proof. apply concat_perm. Qed.

Lemma entry_blocks_perm l k :
  l ≡ₚ k → concat (PrefixCache.e_blocks <$> l) ≡ₚ concat (PrefixCache.e_blocks <$> k).
Proof. apply concat_perm. Qed.

Section Kv.

(** The pool has [T] blocks of [bs] tokens, the cache [D] donor slots from [first] on;
    [brief] is what is known of every request. *)
Context {K T bs L D : N} {first : Z} {brief : RequestSpec → Prop} `{!Limits K bs L}.

Notation quota := (quota K bs).

Let Hbs : 0 < bs := limits_bs.
Let HK : K + bs ≤ 4294967296 := limits_K.
Let HL : quota ≤ L := limits_L.

(** A job within the limits. *)
Record fits (j : Job) : Prop := mk_fits {
  fits_ok : job_ok j;
  fits_spec : SequenceState.spec_ (job_state j) = req_spec (job_request j);
  fits_prompt : Types.prompt_tokens (job_usage j) = len (SequenceState.prompt_ (job_state j));
  fits_size : len (SequenceState.prompt_ (job_state j)) + max_tokens (req_spec (job_request j)) ≤ K;
  fits_tokens : Types.completion_tokens (job_usage j) ≤ max_tokens (req_spec (job_request j));
  fits_table : len (held j) ≤ L;
  fits_seq : (0 ≤ job_seq j < first)%Z;
  fits_brief : brief (req_spec (job_request j)) }.

(** The references no running job holds: the donors' and the leaked ones.  Each donor
    slot is free, occupied, in the hands of a caller ([hand]) or lost, and every lost
    slot accounts for at most one leaked prefix. *)
Definition strays (hand : list SeqId) (c : PrefixCache.t) (refs : list N) : Prop :=
  ∃ leaked lost, refs ≡ₚ PrefixCache.retained_blocks c ++ leaked ∧
    PrefixCache.slots_ok c (hand ++ lost) ∧ len leaked ≤ quota * len lost.

(** A job that runs on the slot of an entry, whose table starts with the entry's
    blocks, whose prompt has the entry's hash and which has computed as much of it as
    the entry promises. *)
Definition backs (h : N) (e : PrefixCache.Entry) (j : Job) : Prop :=
  job_seq j = PrefixCache.e_seq e ∧ PrefixCache.e_blocks e `prefix_of` held j ∧
  PrefixCache.hash_prefix (SequenceState.prompt_ (job_state j)) (PrefixCache.e_n_tokens e) = h ∧
  PrefixCache.e_n_tokens e ≤ SequenceState.prefilled_ (job_state j).

Definition known (act : list Job) (h : N) (e : PrefixCache.Entry) : Prop :=
  len (PrefixCache.e_blocks e) ≤ quota ∧
  (PrefixCache.e_retained e = true ∨ ∃ j, j ∈ act ∧ backs h e j).

(** What a later state of a job keeps. *)
Definition continues (j j' : Job) : Prop :=
  job_seq j' = job_seq j ∧ held j `prefix_of` held j' ∧
  SequenceState.prompt_ (job_state j') = SequenceState.prompt_ (job_state j) ∧
  SequenceState.prefilled_ (job_state j) ≤ SequenceState.prefilled_ (job_state j').

Lemma continues_state j s :
  SequenceState.seq_ s = job_seq j → SequenceState.prompt_ s = SequenceState.prompt_ (job_state j) →
  SequenceState.prefilled_ (job_state j) ≤ SequenceState.prefilled_ s → continues j (set_state j s).
Proof. unfold continues. simpl. auto. Qed.

Lemma backs_continues h e j j' : backs h e j → continues j j' → backs h e j'.
Proof.
  intros (B1 & B2 & B3 & B4) (C1 & C2 & C3 & C4). unfold backs. rewrite C1, C3.
  split_and!; [done|by etrans|done|lia].
Qed.

Record kv (d : list SeqId) (a : BlockAllocator.t) (c : PrefixCache.t) (act : list Job) : Prop := mk_kv {
  kv_total : BlockAllocator.total_ a = T;
  kv_bs : BlockAllocator.block_size_ a = bs;
  kv_first : PrefixCache.first_donor_slot_ c = first;
  kv_capacity : PrefixCache.donor_capacity_ c = D;
  kv_pool : ∃ refs, BlockAllocator.accounts a (tables act ++ refs) ∧ strays d c refs;
  kv_jobs : Forall fits act;
  kv_entries : ∀ h r, PrefixCache.entries_ c !! h = Some r → known act h (PrefixCache.r_entry r) }.

Lemma known_mono act act' h e : (∀ j, j ∈ act → j ∈ act') → known act h e → known act' h e.
Proof. intros Hs [? [?|(j & ? & ?)]]; (split; [done|]); [by left|right]. exists j. auto. Qed.

#[export] Instance kv_proper : Proper ((=) ==> (=) ==> (=) ==> (≡ₚ) ==> iff) kv.
Proof.
  assert (G : ∀ d a c act act', act ≡ₚ act' → kv d a c act → kv d a c act').
  { intros d a c act act' P [V1 V2 V0 V3 (refs & V4 & V5) V6 V7]. split; try done.
    - exists refs. by rewrite <- (tables_perm _ _ P).
    - by rewrite <- P.
    - intros h r Hr. eapply known_mono; [|by apply (V7 h)]. intros j. by rewrite P. }
  intros d ? <- a ? <- c ? <- act act' P. split; apply G; [done|by symmetry].
Qed.

(** A slot that is dropped is lost. *)
Lemma kv_lose slot d a c act : kv (slot :: d) a c act → kv d a c act.
Proof.
  intros [V1 V2 V0 V3 (refs & V4 & lk & lost & V5 & V6 & V7) V8 V9]. split; try done.
  exists refs. split; [done|]. exists lk, (slot :: lost). split_and!; [done| |rewrite len_cons; lia].
  eapply (PrefixCache.slots_ok_perm c); [|done|done|exact V6]. simpl. by rewrite <- Permutation_middle.
Qed.

(** ** One job *)

(** Replacing a job by a later state of it. *)
Lemma kv_replace d a c j rest a' j' :
  kv d a c (j :: rest) → continues j j' → fits j' →
  BlockAllocator.total_ a' = BlockAllocator.total_ a →
  BlockAllocator.block_size_ a' = BlockAllocator.block_size_ a →
  (∀ refs, strays d c refs → BlockAllocator.accounts a (held j ++ tables rest ++ refs) →
     BlockAllocator.accounts a' (held j' ++ tables rest ++ refs)) →
  kv d a' c (j' :: rest).
Proof.
  intros [V1 V2 V0 V3 (refs & V4 & V5) V6 V7] Hs Hj Ht Hz Ha. apply Forall_cons in V6 as [_ V6].
  split; try done; [congruence..| |by constructor|].
  - exists refs. rewrite tables_cons, <- app_assoc in V4 |- *. auto.
  - intros h r Hr. destruct (V7 h r Hr) as [L1 [L2|(j0 & L3 & L4)]]; (split; [done|]); [by left|right].
    apply elem_of_cons in L3 as [->|L3]; [exists j'|exists j0]; rewrite elem_of_cons; eauto using backs_continues.
Qed.

(** ... without touching its table. *)
Lemma kv_state d a c j rest j' :
  kv d a c (j :: rest) → continues j j' → job_blocks j' = job_blocks j → fits j' → kv d a c (j' :: rest).
Proof. intros V Hs Hb Hj. eapply kv_replace; try done; rewrite Hb; done. Qed.

Lemma kv_states d a c act act' :
  kv d a c act →
  Forall2 (λ j j', continues j j' ∧ job_blocks j' = job_blocks j ∧ fits j') act act' →
  kv d a c act'.
Proof.
  intros V F. assert (G : ∀ done_, kv d a c (done_ ++ act) → kv d a c (done_ ++ act')).
  { clear V. induction F as [|j j' act act' (H1 & H2 & H3) _ IH]; intros done_ V; [done|].
    rewrite cons_middle, app_assoc in V |- *. apply IH. rewrite <- app_assoc in V |- *. simpl in *.
    rewrite <- Permutation_middle in V |- *. by eapply kv_state. }
  by apply (G []).
Qed.

(** A new job holds nothing. *)
Lemma kv_enter d a c j act : kv d a c act → fits j → held j = [] → kv d a c (j :: act).
Proof.
  intros [V1 V2 V0 V3 V4 V5 V6] Hj Hb. split; try done.
  - by rewrite tables_cons, Hb.
  - by constructor.
  - intros h r Hr. eapply known_mono; [|by apply (V6 h)]. set_solver.
Qed.

(** No entry but donors is on slot [s]. *)
Definition cleared (c : PrefixCache.t) (s : SeqId) : Prop :=
  ∀ h r, PrefixCache.entries_ c !! h = Some r →
    PrefixCache.e_retained (PrefixCache.r_entry r) = true ∨ PrefixCache.e_seq (PrefixCache.r_entry r) ≠ s.

(** A job whose slot is cleared can leave with its references. *)
Lemma kv_leave d a c j act :
  kv d a c (j :: act) → cleared c (job_seq j) → kv d (BlockAllocator.free a (held j)) c act.
Proof.
  intros [V1 V2 V0 V3 (refs & V4 & V5) V6 V7] Hc. apply Forall_cons in V6 as [_ V6].
  destruct (BlockAllocator.free_frame a (held j)) as [F1 F2]. split; try congruence; try done.
  - exists refs. split; [|done]. apply BlockAllocator.free_accounts. by rewrite tables_cons, <- app_assoc in V4.
  - intros h r Hr. destruct (V7 h r Hr) as [L1 [L2|(j0 & L3 & L4)]]; (split; [done|]); [by left|].
    destruct (Hc h r Hr) as [?|Hs]; [by left|right]. exists j0.
    apply elem_of_cons in L3 as [->|L3]; [by destruct L4|done].
Qed.

Lemma job_tokens_fit j : fits j → job_tokens j ≤ K.
Proof.
  intros [_ _ F3 F4 F5 _ _ _]. unfold job_tokens. rewrite F3.
  rewrite add32_small by lia. lia.
Qed.

(** Growing a table, or failing to, keeps the invariant. *)
Lemma kv_grow d a c j rest n :
  kv d a c (j :: rest) → n ≤ K → L < 4294967296 →
  let '(ok, a', tb) := BlockTable.ensure_capacity a (job_blocks j) n in
  kv d a' c (set_table j tb :: rest) ∧
  (ok = true → len (BlockTable.blocks_ tb) ≤ len (held j) ∨ len (BlockTable.blocks_ tb) ≤ quota) ∧
  (ok = false → a' = a ∧ tb = job_blocks j ∧ BlockAllocator.free_blocks a + len (held j) < quota).
Proof.
  intros V Hn HLw. pose proof (kv_jobs _ _ _ _ V) as [Fj _]%Forall_cons. pose proof (fits_table _ Fj) as Ft.
  pose proof (blocks_for_limit a bs n K (kv_bs _ _ _ _ V) Hbs Hn HK) as Hlim. fold (KvAccounting.quota K bs) in Hlim.
  pose proof (λ refs A, BlockTable.ensure_capacity_spec a (job_blocks j) n refs A ltac:(lia)) as S.
  pose proof (kv_pool _ _ _ _ V) as (refs & A & _). rewrite tables_cons, <- app_assoc in A.
  pose proof (S _ A) as S0. destruct (BlockTable.ensure_capacity a (job_blocks j) n) as [[[] a'] tb].
  - destruct S0 as (extra & S1 & _ & S3 & _ & _ & S6 & S7 & _). split_and!; [|intros _; rewrite S1, len_app; lia|done].
    eapply (kv_replace d a c j rest); try done.
    + split_and!; simpl; try done. rewrite S1. by apply prefix_app_r.
    + destruct Fj as [F1 F2 F3 F4 F5 F6 F7 F8]. split; try done. simpl. rewrite S1, len_app. lia.
    + intros refs' _ A'. by destruct (S _ A') as (? & _ & _ & _ & _ & _ & _ & _ & ?).
  - destruct S0 as (-> & -> & S0). split_and!; [by destruct j|done|intros _; split_and!; [done..|lia]].
Qed.

(** How many blocks the others can hold. *)
Lemma tables_len act : Forall fits act → len (tables act) ≤ len act * L.
Proof.
  induction 1 as [|j act Fj _ IH]; [done|]. rewrite tables_cons, len_app, len_cons.
  pose proof (fits_table _ Fj). lia.
Qed.

(** Strays never outgrow the donor slots. *)
Lemma strays_len d c refs :
  strays d c refs → PrefixCache.donor_capacity_ c = D →
  (∀ e, e ∈ PrefixCache.retained c → len (PrefixCache.e_blocks e) ≤ quota) → len refs ≤ quota * D.
Proof.
  intros (lk & lost & P & So & Hl) HD He. apply Permutation_length in So.
  rewrite !length_app, length_fmap, PrefixCache.length_donor_slots, HD in So.
  assert (Hr : len (PrefixCache.retained_blocks c) ≤ quota * len (PrefixCache.retained c)).
  { unfold PrefixCache.retained_blocks. clear -He. induction (PrefixCache.retained c) as [|e l IH]; [apply N.le_0_l|].
    rewrite fmap_cons. cbn [concat]. rewrite len_app, len_cons. pose proof (He e ltac:(set_solver)).
    specialize (IH ltac:(set_solver)). lia. }
  assert (Hs : len (PrefixCache.retained c) + len lost ≤ D) by (unfold len; lia).
  apply (N.mul_le_mono_l _ _ quota) in Hs. unfold len in *. rewrite P, length_app. lia.
Qed.

Lemma retained_known d a c act e :
  kv d a c act → e ∈ PrefixCache.retained c → len (PrefixCache.e_blocks e) ≤ quota.
Proof.
  intros V [_ (h & k & Hh)]%PrefixCache.elem_of_retained. by destruct (kv_entries _ _ _ _ V h _ Hh).
Qed.

(** Without donors there are no strays. *)
Lemma kv_exact d a c act : kv d a c act → D = 0 → BlockAllocator.accounts a (tables act) ∧ PrefixCache.retained c = [].
Proof.
  intros V HD. destruct (kv_pool _ _ _ _ V) as (refs & A & St).
  pose proof (strays_len _ _ _ St (kv_capacity _ _ _ _ V) (λ e, retained_known _ _ _ _ e V)) as Hl.
  rewrite HD, N.mul_0_r in Hl. assert (refs = []) as -> by (apply len_0; lia). rewrite app_nil_r in A. split; [done|].
  destruct St as (lk & lost & _ & So & _). unfold PrefixCache.slots_ok in So.
  rewrite (kv_capacity _ _ _ _ V), HD in So. simpl in So. apply Permutation_nil_r in So.
  apply app_nil in So as [_ [So _]%app_nil]. by apply fmap_nil_inv in So.
Qed.

(** In a pool with room for [M] tables and the donors, a job among at most [M] always
    gets its blocks. *)
Lemma kv_ample d a c j rest M :
  kv d a c (j :: rest) → len rest < M → M * L + quota * D ≤ T →
  quota ≤ BlockAllocator.free_blocks a + len (held j).
Proof.
  intros V Hr HM. destruct (kv_pool _ _ _ _ V) as (refs & A & St). rewrite tables_cons, <- app_assoc in A.
  pose proof (strays_len _ _ _ St (kv_capacity _ _ _ _ V) (λ e, retained_known _ _ _ _ e V)) as Hl.
  pose proof (kv_jobs _ _ _ _ V) as [_ Fr]%Forall_cons. apply tables_len in Fr.
  destruct (BlockAllocator.used_blocks_distinct a _ A) as [_ Hd]. rewrite (kv_total _ _ _ _ V) in Hd.
  pose proof (len_remove_dups_app (held j) (tables rest ++ refs)). pose proof (len_remove_dups (tables rest ++ refs)).
  rewrite len_app in *. assert (Hm : len rest * L + L ≤ M * L) by (clear -Hr; nia). lia.
Qed.

(** ** The prefix cache *)

(** Donors that vanish from the cache leave their references behind and lose their
    slots. *)
Lemma strays_shed d c c' gone refs :
  strays d c refs → PrefixCache.retained c ≡ₚ gone ++ PrefixCache.retained c' →
  PrefixCache.first_donor_slot_ c' = PrefixCache.first_donor_slot_ c →
  PrefixCache.donor_capacity_ c' = PrefixCache.donor_capacity_ c →
  PrefixCache.free_donor_slots_ c' = PrefixCache.free_donor_slots_ c →
  Forall (λ e, len (PrefixCache.e_blocks e) ≤ quota) gone → strays d c' refs.
Proof.
  intros (lk & lost & S1 & S2 & S3) P H1 H2 H3 Hg.
  exists (concat (PrefixCache.e_blocks <$> gone) ++ lk), ((PrefixCache.e_seq <$> gone) ++ lost). split_and!.
  - rewrite S1. unfold PrefixCache.retained_blocks.
    rewrite (entry_blocks_perm _ _ P), fmap_app, concat_app. solve_Permutation.
  - eapply (PrefixCache.slots_ok_perm c); [|done|done|exact S2]. rewrite P, H3, fmap_app. solve_Permutation.
  - rewrite !len_app. assert (Hl : len (concat (PrefixCache.e_blocks <$> gone)) ≤ quota * len (PrefixCache.e_seq <$> gone)).
    { clear -Hg. induction Hg as [|e gone He _ IH]; [apply N.le_0_l|]. rewrite !fmap_cons. cbn [concat].
      rewrite len_app, len_cons. lia. }
    lia.
Qed.

Lemma kv_shed d a c c' gone act :
  kv d a c act → PrefixCache.retained c ≡ₚ gone ++ PrefixCache.retained c' →
  PrefixCache.first_donor_slot_ c' = PrefixCache.first_donor_slot_ c →
  PrefixCache.donor_capacity_ c' = PrefixCache.donor_capacity_ c →
  PrefixCache.free_donor_slots_ c' = PrefixCache.free_donor_slots_ c →
  (∀ h r, PrefixCache.entries_ c' !! h = Some r → known act h (PrefixCache.r_entry r)) →
  kv d a c' act.
Proof.
  intros V P H1 H2 H3 He. pose proof V as [V1 V2 V0 V3 (refs & V4 & V5) V6 V7]. split; try done; [congruence..|].
  exists refs. split; [done|]. eapply strays_shed; try done.
  apply Forall_forall. intros e Hin. apply (retained_known _ _ _ _ e V). rewrite P, elem_of_app. by left.
Qed.

(** The blocks of an entry are referenced. *)
Lemma entry_referenced d c act h r refs b :
  strays d c refs → PrefixCache.entries_ c !! h = Some r → known act h (PrefixCache.r_entry r) →
  b ∈ PrefixCache.e_blocks (PrefixCache.r_entry r) → b ∈ tables act ++ refs.
Proof.
  intros (lk & lost & S1 & _ & _) Hr [_ [Hk|(j & Hj & _ & Hk & _)]] Hb; rewrite elem_of_app.
  - right. rewrite S1, elem_of_app. left. unfold PrefixCache.retained_blocks. apply list_elem_of_In, in_concat.
    exists (PrefixCache.e_blocks (PrefixCache.r_entry r)). split; [|by apply list_elem_of_In].
    apply list_elem_of_In, list_elem_of_fmap_2, PrefixCache.elem_of_retained. split; [done|].
    exists h, (PrefixCache.r_last_used r). by destruct r.
  - left. unfold tables. apply list_elem_of_In, in_concat. exists (held j).
    split; [|by apply list_elem_of_In; eapply elem_of_prefix]. apply list_elem_of_In. by apply (list_elem_of_fmap_2 (λ j, held j)).
Qed.

(** Adopting the blocks of an entry. *)
Lemma kv_adopt d a c j rest h r n :
  kv d a c (j :: rest) → PrefixCache.entries_ c !! h = Some r → len (held j) ≤ quota → 2 * quota ≤ L →
  (len rest + 1) * L + quota * D + quota < 4294967296 →
  let (a', tb) := BlockTable.adopt_shared_prefix a (job_blocks j) (PrefixCache.e_blocks (PrefixCache.r_entry r)) n in
  kv d a' c (set_table j tb :: rest).
Proof.
  intros V Hr Hj HL2 Hw. set (ids := PrefixCache.e_blocks _).
  pose proof (kv_entries _ _ _ _ V h r Hr) as Kn.
  pose proof (tables_len _ (kv_jobs _ _ _ _ V)) as Hlen. rewrite len_cons, tables_cons in Hlen.
  assert (S : ∀ refs, strays d c refs → BlockAllocator.accounts a (held j ++ tables rest ++ refs) →
    let r := BlockTable.adopt_shared_prefix a (job_blocks j) ids n in
    BlockTable.blocks_ r.2 = held j ++ ids ∧ BlockAllocator.accounts r.1 (BlockTable.blocks_ r.2 ++ tables rest ++ refs) ∧
    BlockAllocator.free_list_ r.1 = BlockAllocator.free_list_ a ∧
    BlockAllocator.total_ r.1 = BlockAllocator.total_ a ∧
    BlockAllocator.block_size_ r.1 = BlockAllocator.block_size_ a).
  { intros refs St A. apply BlockTable.adopt_shared_prefix_spec; [done| |].
    - intros b Hb. rewrite app_assoc, <- tables_cons. by eapply entry_referenced.
    - pose proof (strays_len _ _ _ St (kv_capacity _ _ _ _ V) (λ e, retained_known _ _ _ _ e V)).
      destruct Kn as [Kn _]. fold ids in Kn. rewrite !len_app in *. lia. }
  pose proof (kv_pool _ _ _ _ V) as (refs & A & St). rewrite tables_cons, <- app_assoc in A.
  pose proof (S refs St A) as S0. destruct (BlockTable.adopt_shared_prefix _ _ _ _) as [a' tb]. simpl in S, S0.
  destruct S0 as (S1 & _ & _ & S4 & S5). pose proof (kv_jobs _ _ _ _ V) as [Fj _]%Forall_cons.
  eapply (kv_replace d a c j rest); try done.
  - split_and!; simpl; try done. rewrite S1. by apply prefix_app_r.
  - destruct Fj as [F1 F2 F3 F4 F5 F6 F7 F8], Kn as [Kn _]. split; try done. simpl. rewrite S1, len_app. fold ids in Kn. lia.
  - intros refs' St' A'. by destruct (S refs' St' A') as (_ & ? & _).
Qed.

(** A lookup only touches the entry it finds. *)
Lemma kv_find d a c act tokens :
  kv d a c act → len tokens < 4294967296 →
  let (hit, c') := PrefixCache.find_longest c tokens bs in
  kv d a c' act ∧ ∀ e, hit = Some e → ∃ h k, PrefixCache.entries_ c' !! h = Some (PrefixCache.mkRec e k).
Proof.
  intros V Hl. pose proof (PrefixCache.find_longest_frame c tokens bs) as (Fr & Ff & Fs & Fd & Fe).
  pose proof (PrefixCache.find_longest_found c tokens bs Hbs Hl) as Fo.
  destruct (PrefixCache.find_longest c tokens bs) as [hit c']. simpl in *. split.
  - eapply (kv_shed _ _ _ _ []); [done|by rewrite Fr|done..|]. intros h r Hr. specialize (Fe h).
    rewrite Hr in Fe. simpl in Fe. symmetry in Fe. apply fmap_Some in Fe as (r0 & E0 & ->).
    by apply (kv_entries _ _ _ _ V h).
  - intros e ->. destruct Fo as (k & u & _ & _ & _ & Fo & _). eauto.
Qed.

(** Publishing over a donor sheds it. *)
Lemma insert_shed c h e :
  PrefixCache.e_retained e = false →
  ∃ gone, PrefixCache.retained c ≡ₚ gone ++ PrefixCache.retained (PrefixCache.insert c h e).
Proof.
  intros He. destruct (PrefixCache.entries_ c !! h) as [r|] eqn:Er;
    [destruct (PrefixCache.e_retained (PrefixCache.r_entry r)) eqn:Et|].
  - destruct (PrefixCache.insert_over_donor c h e r Er Et) as [P1 P2]. rewrite He in P2.
    exists [PrefixCache.r_entry r]. rewrite P1, P2. done.
  - exists []. rewrite PrefixCache.insert_retained, He; [done|]. intros r0 E0. congruence.
  - exists []. rewrite PrefixCache.insert_retained, He; [done|]. intros r0 E0. congruence.
Qed.

(** Publishing a prefix of one's own blocks. *)
Lemma kv_publish d a c j rest h n k :
  kv d a c (j :: rest) → N.of_nat k ≤ quota →
  PrefixCache.hash_prefix (SequenceState.prompt_ (job_state j)) n = h → n ≤ SequenceState.prefilled_ (job_state j) →
  kv d a (PrefixCache.insert c h (PrefixCache.mkEntry (job_seq j) n (take k (held j)) false)) (j :: rest).
Proof.
  intros V Hk Hh Hn. set (e := PrefixCache.mkEntry _ _ _ _).
  destruct (insert_shed c h e eq_refl) as [gone P]. eapply (kv_shed _ _ _ _ gone); [done..|].
  intros h' r. simpl. rewrite lookup_insert. case_decide; [|apply (kv_entries _ _ _ _ V)].
  intros [= <-]. split; simpl; [unfold len; rewrite length_take; lia|right].
  exists j. subst h'. split_and!; [set_solver|]. split_and!; try done. apply prefix_take.
Qed.

(** The slots of donors. *)
Lemma donor_seq d a c act e :
  kv d a c act → e ∈ PrefixCache.retained c → (first ≤ PrefixCache.e_seq e)%Z ∧ PrefixCache.e_seq e ∉ d.
Proof.
  intros V He. destruct (kv_pool _ _ _ _ V) as (refs & _ & lk & lost & _ & So & _).
  unfold PrefixCache.slots_ok in So. rewrite (kv_first _ _ _ _ V) in So.
  assert (Hin : PrefixCache.e_seq e ∈ PrefixCache.e_seq <$> PrefixCache.retained c) by (by apply list_elem_of_fmap_2).
  split.
  - assert (Hs : PrefixCache.e_seq e ∈ PrefixCache.free_donor_slots_ c ++ (PrefixCache.e_seq <$> PrefixCache.retained c) ++ d ++ lost)
      by (rewrite !elem_of_app; auto).
    rewrite So in Hs. apply PrefixCache.elem_of_donor_slots in Hs. lia.
  - assert (Hn : NoDup (PrefixCache.free_donor_slots_ c ++ (PrefixCache.e_seq <$> PrefixCache.retained c) ++ d ++ lost))
      by (rewrite So; apply PrefixCache.donor_slots_NoDup).
    apply NoDup_app in Hn as (_ & _ & (_ & Hn & _)%NoDup_app). intros Hd. apply (Hn _ Hin). rewrite elem_of_app. by left.
Qed.

(** Evicting the entries of a slot that is not a donor's drops no donor ... *)
Lemma evict_no_donor d a c act s g :
  kv d a c act → (s < first)%Z ∨ s ∈ d → PrefixCache.evicts s c (PrefixCache.evict_sequence c s) g → g = [].
Proof.
  intros V Hs (G1 & G2 & _). destruct g as [|e g]; [done|]. destruct (donor_seq _ _ _ _ e V) as [H1 H2]; [rewrite G1; set_solver|].
  rewrite (G2 e) in H1, H2 by set_solver. destruct Hs; [lia|done].
Qed.

(** ..., gives no donor slot back, *)
Lemma evict_spare d a c act s :
  kv d a c act → (s < first)%Z ∨ s ∈ d →
  PrefixCache.free_donor_slots_ (PrefixCache.evict_sequence c s) = PrefixCache.free_donor_slots_ c.
Proof.
  intros V Hs. destruct (PrefixCache.evict_sequence_spec c s) as [(g & Eg) _].
  rewrite (evict_no_donor _ _ _ _ _ _ V Hs Eg) in Eg. destruct Eg as (_ & _ & G3 & _). by rewrite app_nil_r in G3.
Qed.

(** ... and keeps the invariant. *)
Lemma kv_evict d a c act s :
  kv d a c act → (s < first)%Z ∨ s ∈ d →
  kv d a (PrefixCache.evict_sequence c s) act ∧ cleared (PrefixCache.evict_sequence c s) s.
Proof.
  intros V Hs. destruct (PrefixCache.evict_sequence_spec c s) as [(g & Eg) Hl].
  rewrite (evict_no_donor _ _ _ _ _ _ V Hs Eg) in Eg. destruct Eg as (G1 & _ & G3 & G4 & G5 & _).
  rewrite app_nil_r in G3. split.
  - eapply (kv_shed _ _ _ _ []); [done..|]. intros h r. rewrite Hl.
    destruct (PrefixCache.entries_ c !! h) as [r0|] eqn:E0; [|done]. case_decide; [done|].
    intros [= <-]. by apply (kv_entries _ _ _ _ V h).
  - intros h r. rewrite Hl. destruct (PrefixCache.entries_ c !! h) as [r0|]; [|done].
    case_decide; [done|]. intros [= <-]. by right.
Qed.

Lemma cleared_evict c s s' : cleared c s → cleared (PrefixCache.evict_sequence c s') s.
Proof.
  intros Hc h r. destruct (PrefixCache.evict_sequence_spec c s') as [_ Hl]. rewrite Hl.
  destruct (PrefixCache.entries_ c !! h) as [r0|] eqn:E0; [|done]. case_decide; [done|]. intros [= <-]. by apply (Hc h).
Qed.

(** Giving up the least recently used donor. *)
Lemma kv_evict_lru d a c act :
  kv d a c act →
  match PrefixCache.evict_lru_retained c with
  | (None, c') => c' = c
  | (Some e, c') =>
      kv d (BlockAllocator.free a (PrefixCache.e_blocks e)) c' act ∧ ∀ s, cleared c s → cleared c' s
  end.
Proof.
  intros V. pose proof (PrefixCache.evict_lru_cases c) as C. pose proof (λ hd, PrefixCache.evict_lru_slots c hd) as So.
  destruct (PrefixCache.evict_lru_retained c) as [[e|] c']; [|by destruct C]. simpl in So.
  destruct C as (C1 & _ & _ & C4 & C5 & h & k & Hh & Hd & _).
  destruct V as [V1 V2 V0 V3 (refs & V4 & lk & lost & V5 & V6 & V7) V8 V9].
  destruct (BlockAllocator.free_frame a (PrefixCache.e_blocks e)) as [F1 F2].
  assert (Q : PrefixCache.retained_blocks c ≡ₚ PrefixCache.e_blocks e ++ PrefixCache.retained_blocks c')
    by (exact (entry_blocks_perm _ (e :: PrefixCache.retained c') C1)).
  split.
  - split; try congruence; try done.
    + exists (PrefixCache.retained_blocks c' ++ lk). rewrite V5, Q in V4. split.
      * apply BlockAllocator.free_accounts. eapply BlockAllocator.accounts_proper; [done| |exact V4]. solve_Permutation.
      * exists lk, lost. split_and!; auto.
    + intros h' r'. rewrite Hd. intros [_ Hr]%lookup_delete_Some. by apply (V9 h').
  - intros s Hs h' r'. rewrite Hd. intros [_ Hr]%lookup_delete_Some. by apply (Hs h').
Qed.

Lemma kv_take_donor_slot d a c act :
  kv d a c act →
  let (slot, c') := PrefixCache.take_donor_slot c in
  kv (option_list slot ++ d) a c' act ∧ ∀ s, cleared c s → cleared c' s.
Proof.
  intros V. pose proof V as [V1 V2 V0 V3 (refs & V4 & lk & lost & V5 & V6 & V7) V8 V9].
  pose proof (PrefixCache.take_donor_slot_spec c) as Sp.
  pose proof (λ s c', PrefixCache.take_donor_slot_slots c s c' (d ++ lost)) as So.
  destruct (PrefixCache.take_donor_slot c) as [[slot|] c']; [|by destruct Sp as [-> _]].
  destruct Sp as (_ & T2 & T3 & T4 & _). split; [|intros s Hs h r; rewrite T2; apply Hs].
  split; try congruence; try done.
  - exists refs. split; [done|]. exists lk, lost. unfold PrefixCache.retained_blocks, PrefixCache.retained in *.
    rewrite T2. split_and!; try done. by apply So.
  - intros h r. rewrite T2. apply V9.
Qed.

(** References to blocks that are already referenced. *)
Lemma incref_all_accounts a ids refs :
  BlockAllocator.accounts a refs → (∀ b, b ∈ ids → b ∈ refs) → len refs + len ids < 4294967296 →
  let a' := fold_left BlockAllocator.incref ids a in
  BlockAllocator.accounts a' (ids ++ refs) ∧
  BlockAllocator.total_ a' = BlockAllocator.total_ a ∧ BlockAllocator.block_size_ a' = BlockAllocator.block_size_ a.
Proof.
  revert a refs. induction ids as [|id ids IH]; intros a refs A Hin Hl; [done|]. rewrite len_cons in Hl. cbn [fold_left].
  destruct (BlockAllocator.incref_frame a id) as (F1 & F2 & _). pose proof (occ_le_len id refs).
  destruct (IH (BlockAllocator.incref a id) (id :: refs)) as (I1 & I2 & I3).
  - apply BlockAllocator.incref_accounts; [done|apply Hin; set_solver|lia].
  - set_solver.
  - rewrite len_cons. lia.
  - rewrite I2, I3, F1, F2. split_and!; try done.
    eapply BlockAllocator.accounts_proper; [done|apply Permutation_middle|done].
Qed.

(** Storing a donor in a slot one holds; a donor under the same key is shed. *)
Lemma strays_retain slot d c refs h n ids :
  strays (slot :: d) c refs → (∀ e, e ∈ PrefixCache.retained c → len (PrefixCache.e_blocks e) ≤ quota) →
  strays d (PrefixCache.retain c h slot n ids) (ids ++ refs).
Proof.
  intros (lk & lost & S1 & S2 & S3) He. unfold PrefixCache.retain. set (e := PrefixCache.mkEntry slot n ids true).
  assert (P : ∃ gone, e :: PrefixCache.retained c ≡ₚ option_list gone ++ PrefixCache.retained (PrefixCache.insert c h e) ∧
    ∀ g, gone = Some g → g ∈ PrefixCache.retained c).
  { destruct (PrefixCache.entries_ c !! h) as [r|] eqn:Er;
      [destruct (PrefixCache.e_retained (PrefixCache.r_entry r)) eqn:Et|].
    - destruct (PrefixCache.insert_over_donor c h e r Er Et) as [P1 P2]. exists (Some (PrefixCache.r_entry r)).
      split; [rewrite P1, P2; simpl; by rewrite perm_swap|]. intros g [= <-]. rewrite P1. set_solver.
    - exists None. rewrite PrefixCache.insert_retained; [done|]. intros r0 E0. congruence.
    - exists None. rewrite PrefixCache.insert_retained; [done|]. intros r0 E0. congruence. }
  destruct P as (gone & P & Hg). pose proof (entry_blocks_perm _ _ P) as Q.
  assert (Q1 : ids ++ PrefixCache.retained_blocks c
    ≡ₚ concat (PrefixCache.e_blocks <$> option_list gone) ++ PrefixCache.retained_blocks (PrefixCache.insert c h e))
    by (unfold PrefixCache.retained_blocks; by rewrite <- concat_app, <- fmap_app).
  assert (P1 : slot :: (PrefixCache.e_seq <$> PrefixCache.retained c)
    ≡ₚ (PrefixCache.e_seq <$> option_list gone) ++ (PrefixCache.e_seq <$> PrefixCache.retained (PrefixCache.insert c h e)))
    by (rewrite <- fmap_app; by apply (fmap_Permutation PrefixCache.e_seq) in P).
  exists (concat (PrefixCache.e_blocks <$> option_list gone) ++ lk), ((PrefixCache.e_seq <$> option_list gone) ++ lost).
  split_and!.
  - rewrite S1, app_assoc, Q1. solve_Permutation.
  - eapply (PrefixCache.slots_ok_perm c); [|done|done|exact S2]. simpl.
    apply Permutation_app_head. rewrite <- Permutation_middle, app_comm_cons, P1. solve_Permutation.
  - rewrite !len_app. destruct gone as [g|]; simpl; [|rewrite !len_nil; lia].
    specialize (He g (Hg g eq_refl)). rewrite app_nil_r, len_cons, len_nil. lia.
Qed.

(** Retaining a prefix of a job's blocks. *)
Lemma kv_retain slot d a c j rest h n k :
  kv (slot :: d) a c (j :: rest) → N.of_nat k ≤ quota → (len rest + 1) * L + quota * D + quota < 4294967296 →
  kv d (fold_left BlockAllocator.incref (take k (held j)) a)
    (PrefixCache.retain c h slot n (take k (held j))) (j :: rest) ∧
  (∀ s, cleared c s → cleared (PrefixCache.retain c h slot n (take k (held j))) s).
Proof.
  intros V Hk Hw. pose proof V as [V1 V2 V0 V3 (refs & V4 & V5) V8 V9].
  pose proof (strays_len _ _ _ V5 V3 (λ e, retained_known _ _ _ _ e V)) as Hs.
  set (ids := take k (held j)). assert (Hids : len ids ≤ quota) by (unfold ids, len; rewrite length_take; lia).
  assert (Hsub : ∀ b, b ∈ ids → b ∈ held j).
  { intros b Hb. apply elem_of_take in Hb as (i & Hi & _). by eapply list_elem_of_lookup_2. }
  pose proof (tables_len _ V8) as Hlen. rewrite len_cons in Hlen.
  destruct (incref_all_accounts a ids _ V4) as (A1 & A2 & A3).
  { intros b Hb. rewrite tables_cons, !elem_of_app. left; left. auto. }
  { rewrite len_app. lia. }
  split.
  - split; try congruence; try done.
    + exists (ids ++ refs). split; [eapply BlockAllocator.accounts_proper; [done| |exact A1]; solve_Permutation|].
      apply strays_retain; [done|]. intros e. by apply (retained_known _ _ _ _ e V).
    + intros h' r'. simpl. rewrite lookup_insert. case_decide; [|apply V9]. intros [= <-]. split; [done|by left].
  - intros s Hs' h' r'. simpl. rewrite lookup_insert. case_decide; [|apply Hs']. intros [= <-]. by left.
Qed.

(** ** What never changes about a job, and the work it has left *)

(** The steps left to a job: its prompt, its tokens and its retirement. *)
Definition weight (j : Job) : N :=
  if job_finished j then 1 else 2 + SequenceState.prefill_remaining (job_state j) + left j.

Definition work (act : list Job) : N := fold_right N.add 0 (weight <$> act).

Lemma work_cons j act : work (j :: act) = weight j + work act.
Proof. done. Qed.

Lemma work_app act act' : work (act ++ act') = work act + work act'.
Proof. unfold work. rewrite fmap_app. induction (weight <$> act) as [|n l IH]; simpl; [done|]. lia. Qed.

#[export] Instance work_perm : Proper ((≡ₚ) ==> (=)) work.
Proof. intros act act' P. unfold work. induction P; rewrite ?fmap_cons; cbn [fold_right]; lia. Qed.

Lemma weight_pos j : 0 < weight j.
Proof. unfold weight. destruct (job_finished j); lia. Qed.

Lemma weight_fits j : fits j → weight j ≤ K + 2.
Proof.
  intros [_ F2 _ F4 _ _ _ _]. unfold weight, SequenceState.prefill_remaining, left. rewrite F2.
  destruct (job_finished j); lia.
Qed.

Lemma fits_set_state j s :
  fits j → (if SequenceState.finished_ s then SequenceState.reason_ s ≠ kUnset else SequenceState.inv s) →
  SequenceState.seq_ s = job_seq j → SequenceState.spec_ s = SequenceState.spec_ (job_state j) →
  SequenceState.prompt_ s = SequenceState.prompt_ (job_state j) →
  Types.prompt_tokens (SequenceState.usage_ s) = Types.prompt_tokens (job_usage j) →
  Types.completion_tokens (SequenceState.usage_ s) ≤ max_tokens (SequenceState.spec_ s) →
  fits (set_state j s).
Proof.
  intros [F1 F2 F3 F4 F5 F6 F7 F8] Ho Hq Hs Hp Ht Hc. split; simpl; try done.
  - congruence.
  - unfold job_usage in *. simpl. congruence.
  - by rewrite Hp.
  - rewrite <- F2, <- Hs. done.
  - unfold job_seq. simpl. by rewrite Hq.
Qed.

Lemma fits_running j : fits j → job_finished j = false → SequenceState.inv (job_state j).
Proof. intros F Hf. pose proof (fits_ok _ F) as Ho. unfold job_ok in Ho. by rewrite Hf in Ho. Qed.

(** Prefill moves the marks of running jobs, and uses up as much work as it submits
    tokens. *)
Lemma build_prefills_fits act budget cap :
  Forall fits act →
  let (b, act') := build_prefills act budget cap in
  Forall2 (λ j j', key j' = key j ∧ continues j j' ∧ job_blocks j' = job_blocks j ∧
             job_finished j' = job_finished j ∧ fits j') act act' ∧
  work act' + batch_tokens (items b) = work act.
Proof.
  revert budget. induction act as [|j act IH]; intros budget F; cbn [build_prefills]; [split; [constructor|done]|].
  apply Forall_cons in F as [Fj F].
  assert (Hskip : let (b, rest') := build_prefills act budget cap in
    Forall2 (λ j j', key j' = key j ∧ continues j j' ∧ job_blocks j' = job_blocks j ∧
               job_finished j' = job_finished j ∧ fits j') (j :: act) (j :: rest') ∧
    work (j :: rest') + batch_tokens (items b) = work (j :: act)).
  { specialize (IH budget F). destruct (build_prefills act budget cap) as [b rest']. destruct IH as [I1 I2].
    split; [by constructor|]. rewrite !work_cons. lia. }
  destruct (job_finished j || _ || _) eqn:Es; [by destruct (build_prefills act budget cap)|].
  bool_hyps. set (n := N.min budget _). destruct (n =? 0) eqn:En; [by destruct (build_prefills act budget cap)|].
  bool_hyps. clear Hskip. destruct (chunk_len (job_state j) n ltac:(lia)) as [Hl Hc].
  set (i := (SequenceState.take_prefill_chunk (job_state j) n).1) in *. rewrite Hc, Hl. clearbody i.
  specialize (IH (budget - n) F). destruct (build_prefills act (budget - n) cap) as [b rest'].
  destruct IH as [I1 I2]. pose proof (fits_running j Fj ltac:(done)) as I.
  assert (Hn : n ≤ SequenceState.prefill_remaining (job_state j)) by lia.
  split.
  - constructor; [|done]. split_and!; try done; [split_and!; simpl; [done..|lia]|]. apply fits_set_state; try done; simpl.
    + replace (SequenceState.finished_ (job_state j)) with false by done.
      apply inv_set_prefilled; [done|]. unfold SequenceState.prefill_remaining in Hn.
      pose proof (SequenceState.inv_prefilled _ I). lia.
    + rewrite (fits_spec _ Fj). apply Fj.
  - rewrite !work_cons. cbn [items]. rewrite batch_tokens_cons, Hl.
    assert (Hw : weight (set_state j (SequenceState.set_prefilled (job_state j) (SequenceState.prefilled_ (job_state j) + n)))
      + n = weight j).
    { unfold weight, job_finished, left, job_usage, SequenceState.prefill_remaining in *. simpl.
      destruct (SequenceState.finished_ _); [done|]. lia. }
    lia.
Qed.

Lemma fits_fail_job j what reason : fits j → reason ≠ kUnset → fits (fail_job j what reason).
Proof. intros F Hr. apply fits_set_state; try done. simpl. rewrite (fits_spec _ F). apply F. Qed.

Lemma fits_timing j tm : fits j → fits (set_job_timing j tm).
Proof. by intros []. Qed.

End Kv.
