(* ===== verification/ContinuousRun.v ===== *)
(** The run of continuous batching: where every block is at every iteration, and that
    the run ends.

    The phases of an iteration keep [KvAccounting.kv], and in a pool with room for a
    full batch each iteration uses up some of the work of the requests it holds, so
    enough iterations answer them all.  [KvAccounting] says what one operation on one
    job does. *)
From Stdlib Require Import Permutation Lia.
From stdpp Require Import base list gmap strings.
From S2P Require Import Prelude Types Blocks Tables Prefix Timing Engine Sinks Sequence Mock Queue Scheduler Continuous Static Demo Conservation Batching Pressure StaticRun KvAccounting.

Local Open Scope N_scope.

Import Scheduler Continuous.

Section Run.
Context {K T bs L donors : N} {brief : RequestSpec → Prop} `{!Limits K bs L}.
Context {E : Type} `{IModelEngine E}.
Variable clock : nat → TimePoint.
Variable cfg : SchedulerConfig.

Notation first := (Z.of_N (max_batch_size cfg)).
Notation quota := (quota K bs).
Notation fits := (@fits K L first brief).
Notation kv := (@kv K T bs L donors first brief).
Notation M := (max_batch_size cfg).

Let Hbs : 0 < bs := limits_bs.
Let HK : K + bs ≤ 4294967296 := limits_K.
Let HL : quota ≤ L := limits_L.
Hypothesis Hbrief : ∀ spec, brief spec → ∀ e : E, len (tokenize e (Types.prompt spec) true).1 + max_tokens spec ≤ K.
Hypothesis Hshare : prefix_caching cfg = true → 2 * quota ≤ L.
Hypothesis Hcbs : block_size cfg = bs.
Hypothesis Hwidth : M * L + quota * donors + quota < 4294967296.
Hypothesis HM : 0 < M.

Definition kvs (w : t E) (act : list Job) : Prop := kv [] (blocks_ w) (prefix_cache_ w) act.

(** The pool has room for a full batch of tables and for every donor. *)
Definition ample : Prop := M * L + quota * donors ≤ T.

Lemma L_width : L < 4294967296.
Proof. nia. Qed.

(** ** Accepting *)

Lemma stamp_first_fits (w : t E) job :
  fits job → fits (stamp_first clock w job).2 ∧ weight (stamp_first clock w job).2 = weight job ∧
  continues job (stamp_first clock w job).2 ∧
  prefix_cache_ (stamp_first clock w job).1 = prefix_cache_ w.
Proof. unfold stamp_first. intros F. destruct (RequestTiming.first_token _); [done|]. by destruct F. Qed.

Lemma finish_job_fits (w : t E) job :
  fits job → job_finished job = true →
  let r := finish_job w job in
  fits r.2 ∧ job_finished r.2 = true ∧ skey r.2 = skey job ∧ continues job r.2 ∧
  blocks_ r.1 = blocks_ w ∧ prefix_cache_ r.1 = prefix_cache_ w.
Proof.
  intros F Hf. pose proof (finish_job_ok w job Hf (fits_ok _ F)) as (O1 & O2 & O3 & O4).
  unfold finish_job in *. pose proof (SequenceState.finish_frame (job_state job) (deref w (job_sink job))) as G.
  destruct (SequenceState.finish _ _) as [s k]. destruct G as ((G1 & G2 & G3 & G4 & G5) & G6 & _). simpl in *.
  split_and!; try done.
  - apply fits_set_state; try done. rewrite G6, G2, (fits_spec _ F). apply F.
  - apply continues_state; [done..|]. by rewrite G4.
Qed.

Lemma accept_job_fits (w : t E) job step :
  fits job →
  let r := accept_job w job step in
  fits r.2.2 ∧ skey r.2.2 = skey job ∧ continues job r.2.2 ∧ job_finished r.2.2 = negb r.1 ∧
  weight r.2.2 ≤ weight job ∧ (job_finished job = false → weight r.2.2 < weight job) ∧
  blocks_ r.2.1 = blocks_ w ∧ prefix_cache_ r.2.1 = prefix_cache_ w ∧ steady w r.2.1.
Proof.
  intros F. pose proof (accept_job_spec w job step) as (B1 & B2 & B3 & B4 & B5).
  assert (K2 : skey (accept_job w job step).2.2 = skey job) by (unfold skey; by rewrite B2, B3).
  destruct (job_finished job) eqn:Ef.
  - assert (R : (accept_job w job step).1 = false ∧ (accept_job w job step).2.2 = job).
    { unfold accept_job, SequenceState.accept. unfold job_finished in Ef. rewrite Ef. by destruct job. }
    cbv zeta. destruct R as [R1 R2]. rewrite R1, R2 in *. split_and!; try done.
  - pose proof (fits_running _ F Ef) as I.
    pose proof (accept_job_ok w job step (fits_ok _ F) Ef) as (O1 & O2 & O3).
    unfold accept_job in *. set (w1 := sync w) in *.
    pose proof (SequenceState.accept_frame (engine_ w1) (flags_ (world_ w1)) (job_state job)
      (deref w1 (job_sink job)) step) as (G1 & G2 & G3 & G4 & G5).
    pose proof (accept_progress (engine_ w1) (flags_ (world_ w1)) (job_state job)
      (deref w1 (job_sink job)) step I Ef) as A.
    destruct (SequenceState.accept _ _ _ _ _) as [b [[e s] k]]. destruct A as (A1 & A2 & A3 & A4 & A5). simpl in *.
    assert (Hw : weight (set_state job s) < weight job).
    { unfold weight, SequenceState.prefill_remaining. rewrite Ef, O2. simpl. rewrite G3, G4.
      destruct b; simpl; [|lia]. specialize (O3 eq_refl). lia. }
    split_and!; try done; [| |lia].
    + apply fits_set_state; try done. apply (SequenceState.inv_tokens _ A3).
    + apply continues_state; [done..|]. by rewrite G4.
Qed.

(** The whole blocks of a prompt. *)
Lemma whole_blocks p :
  p ≤ K → p / bs ≤ quota ∧ wrap32 (p / bs) = p / bs ∧ mul32 (p / bs) bs = p / bs * bs ∧ p / bs * bs ≤ p.
Proof.
  intros Hp. pose proof (N.Div0.mul_div_le p bs) as Hm. rewrite (N.mul_comm bs) in Hm.
  assert (Hd : p / bs ≤ p) by (clear -Hm Hbs; nia). split_and!; [|apply wrap32_small; lia|apply mul32_small; lia|done].
  unfold KvAccounting.quota, ceil_blocks. apply N.Div0.div_le_mono. lia.
Qed.

Lemma publish_kv (w : t E) job rest :
  kvs w (job :: rest) → kvs (publish w job) (job :: rest).
Proof.
  intros V. unfold publish. destruct (_ && _) eqn:Ep; [|done]. set (n := wrap32 _).
  destruct ((0 <? n) && _); [|done]. bool_hyps. unfold kvs. simpl.
  pose proof (kv_jobs _ _ _ _ V) as [Fj _]%Forall_cons. pose proof (fits_size _ Fj).
  destruct (whole_blocks (len (SequenceState.prompt_ (job_state job))) ltac:(lia)) as (W1 & W2 & W3 & W4).
  unfold job_prefilling, SequenceState.prefilling, SequenceState.prefill_remaining in *. bool_hyps.
  unfold n, BlockAllocator.block_size. rewrite (kv_bs _ _ _ _ V), W2, W3.
  apply kv_publish; [done|by rewrite N2Nat.id|done|lia].
Qed.

Lemma accept_one_kv (w : t E) job rest step :
  kvs w (job :: rest) →
  let '(starved, (w', job')) := accept_one w job step in
  kvs w' (job' :: rest) ∧ key job' = key job ∧ steady w w' ∧
  weight job' ≤ weight job ∧ (job_finished job = false → weight job' < weight job) ∧
  (starved = true → BlockAllocator.free_blocks (blocks_ w) + len (held job) < quota).
Proof.
  intros V. pose proof (kv_jobs _ _ _ _ V) as [Fj _]%Forall_cons. unfold accept_one.
  pose proof (accept_job_fits w job step Fj) as (A1 & A2 & A0 & A3 & A4 & A5 & A6 & A7 & A8).
  destruct (accept_job w job step) as [more [w1 job1]]. simpl in *. injection A2 as K1 K2 K3 K4.
  assert (Hkey : key job1 = key job) by (unfold key; congruence).
  assert (V1 : kvs w1 (job1 :: rest)).
  { unfold kvs in *. rewrite A6, A7. by eapply kv_state. }
  destruct more.
  - pose proof (kv_grow _ _ _ _ _ (job_tokens job1) V1 (job_tokens_fit _ A1) L_width) as G.
    destruct (BlockTable.ensure_capacity _ _ _) as [[ok a] tb]. destruct G as (G1 & _ & G2).
    assert (Hw : weight (set_table job1 tb) = weight job1) by done.
    assert (Hs : steady w (set_blocks w1 a)) by (etrans; [exact A8|by apply quiet_steady]).
    destruct ok; simpl; split_and!; rewrite ?Hw; try done.
    + apply publish_kv. exact G1.
    + etrans; [exact Hs|]. apply quiet_steady, publish_quiet.
    + intros _. rewrite <- A6, <- K4. by destruct (G2 eq_refl) as (_ & _ & ?).
  - pose proof (finish_job_fits w1 job1 A1 A3) as (F1 & F2 & F3 & F0 & F4 & F5).
    pose proof (quiet_finish_job w1 job1) as Q.
    destruct (finish_job w1 job1) as [w2 job2]. simpl in *. injection F3 as J1 J2 J3 J4.
    assert (Hw : weight job2 = weight job1) by (unfold weight; by rewrite F2, A3).
    rewrite Hw. split_and!; try done.
    + unfold kvs in *. rewrite F4, F5. by eapply kv_state.
    + unfold key in *. congruence.
    + etrans; [exact A8|]. by apply quiet_steady.
Qed.

(** Working on the job a pointer leads to. *)
Lemma put_job_perm p j act :
  NoDup (job_ptr <$> act) → find_job p act = Some j →
  ∃ rest, act ≡ₚ j :: rest ∧ ∀ j', job_ptr j' = p → put_job j' act ≡ₚ j' :: rest.
Proof.
  intros Hn Hf. destruct (put_job_split p j act Hn Hf) as (l1 & l2 & -> & Ep). exists (l1 ++ l2).
  split; [by rewrite Permutation_middle|]. intros j' Hp. rewrite (Ep j' Hp). by rewrite Permutation_middle.
Qed.

Lemma kvs_proper w act act' : act ≡ₚ act' → kvs w act → kvs w act'.
Proof. intros P. unfold kvs. by rewrite P. Qed.

Lemma accept_loop_kv (w : t E) act steps k ptrs short :
  kvs w act → NoDup (job_ptr <$> act) →
  let '(r, (w', act', short')) := accept_loop clock w act steps k ptrs short in
  kvs w' act' ∧ work act' ≤ work act ∧
  (len act ≤ M → ample → short' = short) ∧
  (r = Ok tt → ∀ p j, head ptrs = Some p → find_job p act = Some j → job_finished j = false →
     work act' < work act).
Proof.
  revert w act k short. induction ptrs as [|p ptrs IH]; intros w act k short V Hn; cbn [accept_loop]; [done|].
  destruct (find_job p act) as [job|] eqn:Ef.
  2: { specialize (IH w act (S k) short V Hn). destruct (accept_loop _ _ _ _ _ _ _) as [r [[w' act'] short']].
       destruct IH as (I1 & I2 & I3 & _). split_and!; try done. intros _ q j [= <-]. congruence. }
  destruct (put_job_perm p job act Hn Ef) as (rest & Pa & Pp). destruct (find_job_Some _ _ _ Ef) as [_ Hptr].
  pose proof (kvs_proper _ _ _ Pa V) as V0. pose proof (kv_jobs _ _ _ _ V0) as [Fj _]%Forall_cons.
  pose proof (stamp_first_fits w job Fj) as (S1 & S2 & S0 & S3). pose proof (stamp_first_ok clock w job) as (S4 & S5 & S6).
  destruct (stamp_first clock w job) as [w1 job1]. simpl in *. injection S5 as K1 K2 K3 K4.
  assert (V1 : kvs w1 (job1 :: rest)) by (unfold kvs in *; rewrite S3, S6; by eapply kv_state).
  assert (Hp1 : job_ptr job1 = p) by congruence.
  destruct (steps !! k) as [step|].
  2: { split_and!; [by eapply kvs_proper; [symmetry; apply Pp|]| |done|done].
       rewrite (Pp job1 Hp1), Pa, !work_cons. lia. }
  pose proof (accept_one_kv w1 job1 rest step V1) as A.
  destruct (accept_one w1 job1 step) as [starved [w2 job2]]. destruct A as (A1 & A2 & _ & A4 & A5 & A6).
  assert (Hp2 : job_ptr job2 = p) by (injection A2; congruence).
  assert (Hk : key <$> put_job job2 act = key <$> act).
  { rewrite <- Hptr in Ef. eapply put_job_keys; [done|exact Ef|]. rewrite A2. unfold key. congruence. }
  specialize (IH w2 (put_job job2 act) (S k) (if starved then push_back short p else short)).
  destruct (accept_loop _ _ _ _ _ _ _) as [r [[w' act'] short']].
  destruct IH as (I1 & I2 & I3 & _); [by eapply kvs_proper; [symmetry; apply Pp|]|by rewrite (keys_ptrs _ _ Hk)|].
  assert (Hw : work (put_job job2 act) = weight job2 + work rest) by (by rewrite (Pp job2 Hp2), work_cons).
  assert (Hw0 : work act = weight job + work rest) by (by rewrite Pa, work_cons).
  assert (Hlen : len act = len rest + 1)
    by (unfold len; rewrite (Permutation_length Pa); simpl; lia).
  split_and!; try done.
  - lia.
  - intros Hl HT. rewrite I3; [|unfold len, put_job; by rewrite length_fmap|done].
    destruct starved; [|done]. specialize (A6 eq_refl).
    pose proof (kv_ample _ _ _ _ _ M V1 ltac:(lia) HT). lia.
  - intros _ q j [= <-] Hj Hf. rewrite Ef in Hj. injection Hj as <-. unfold job_finished in A5. rewrite S4 in A5.
    specialize (A5 Hf). lia.
Qed.

Lemma fail_all_kv w what act :
  kvs w act → kvs w (fail_all what act) ∧ Forall (λ j, job_finished j = true) (fail_all what act).
Proof.
  intros V. unfold fail_all. split.
  - apply (kv_states _ _ _ act); [done|]. pose proof (kv_jobs _ _ _ _ V) as F. clear V.
    induction F as [|j act Fj _ IH]; [constructor|]. rewrite fmap_cons. constructor; [|done].
    destruct (job_finished j); [done|]. split_and!; try done. by apply fits_fail_job.
  - apply Forall_fmap, Forall_forall. intros j _. simpl. by destruct (job_finished j) eqn:Ej.
Qed.

Lemma build_batch_kv nb chunk w act :
  kvs w act →
  let (b, act') := build_batch nb chunk act in
  kvs w act' ∧ work act' ≤ work act ∧
  (∀ p, head (sampling b) = Some p → NoDup (job_ptr <$> act) →
     ∃ j, find_job p act' = Some j ∧ job_finished j = false) ∧
  (0 < nb → work act' < work act ∨ sampling b ≠ [] ∨
     items b = [] ∧ Forall (λ j, job_finished j = true) act').
Proof.
  intros V. pose proof (build_batch_spec nb chunk act) as S. pose proof (build_batch_keys nb chunk act) as Kb.
  unfold build_batch in *. pose proof (build_decodes_spec act nb) as D.
  destruct (build_decodes act nb) as [ds budget]. destruct D as (D1 & D2 & _).
  set (cap := if chunk =? 0 then nb else chunk) in *.
  pose proof (build_prefills_fits act budget cap (kv_jobs _ _ _ _ V)) as B.
  pose proof (build_prefills_spec act budget cap) as P.
  destruct (build_prefills act budget cap) as [b act']. destruct B as [B1 B2]. destruct P as (_ & P2 & _).
  destruct S as (prefills & _ & _ & _ & _ & S5 & S6). simpl in *.
  split_and!.
  - apply (kv_states _ _ _ act); [done|]. eapply Forall2_impl; [exact B1|]. naive_solver.
  - lia.
  - intros p Hp Hn. unfold paired in S5. destruct (sampling ds ++ sampling b) as [|q ptrs]; [done|].
    injection Hp as ->. apply Forall2_cons_inv_l in S5 as (i & its & (j & Hj & Hjp & _ & Hjf) & _).
    apply list_elem_of_lookup in Hj as [x Hx].
    destruct (Forall2_lookup_l _ _ _ _ _ B1 Hx) as (j' & Hj' & K1 & _ & _ & K4 & _).
    exists j'. rewrite K4. split; [|done]. injection K1 as K1 _ _. rewrite <- Hjp, <- K1.
    apply find_job_elem; [by rewrite (keys_ptrs _ _ Kb)|by eapply list_elem_of_lookup_2].
  - intros Hnb. destruct (items b) as [|i its] eqn:Ei.
    + right. destruct (sampling ds) eqn:Ed; [right|by left].
      symmetry in D2. apply fmap_nil_inv in D2. rewrite D2 in D1. simpl in D1. rewrite D1 in S6. simpl in S6.
      split; [by rewrite D1|]. apply Forall_forall. intros j' Hj'. destruct (job_finished j') eqn:Ef; [done|].
      destruct S6; [done| |done]. apply Exists_exists.
      apply list_elem_of_lookup in Hj' as [x Hx].
      destruct (Forall2_lookup_r _ _ _ _ _ B1 Hx) as (j & Hj & _ & _ & _ & K4 & _).
      exists j. split; [by eapply list_elem_of_lookup_2|congruence].
    + left. apply Forall_cons in P2 as [P2 _]. rewrite batch_tokens_cons in B2. lia.
Qed.

Lemma decode_accept_kv nb (w : t E) act :
  kvs w act → NoDup (job_ptr <$> act) →
  let '(w', act', short) := decode_accept clock nb w act in
  kvs w' act' ∧ (len act ≤ M → ample → short = []) ∧
  (0 < nb → work act' < work act ∨ Forall (λ j, job_finished j = true) act').
Proof.
  intros V Hn. unfold decode_accept.
  pose proof (build_batch_kv nb (prefill_chunk (config_ w)) w act V) as B.
  pose proof (build_batch_keys nb (prefill_chunk (config_ w)) act) as Kb.
  pose proof (build_batch_spec nb (prefill_chunk (config_ w)) act) as S.
  destruct (build_batch _ _ _) as [b act1]. destruct B as (B1 & B2 & B3 & B4). simpl in Kb.
  destruct S as (prefills & _ & _ & _ & _ & S5 & S6).
  destruct (items b) as [|i its] eqn:Ei.
  - split_and!; try done. intros Hnb. destruct (B4 Hnb) as [?|[Hs|[_ ?]]]; [by left| |by right].
    unfold paired in S5. apply Forall2_nil_inv_r in S5. done.
  - destruct (decode (engine_ w) (i :: its)) as [[steps|what] e].
    + assert (Hn1 : NoDup (job_ptr <$> act1)) by (by rewrite (keys_ptrs _ _ Kb)).
      assert (V1 : kvs (set_engine w e) act1) by exact B1.
      pose proof (accept_loop_kv (set_engine w e) act1 steps 0 (sampling b) [] V1 Hn1) as A.
      destruct (accept_loop _ _ _ _ _ _ _) as [r [[w2 act2] short]]. destruct A as (A1 & A2 & A3 & A4).
      assert (Hlen : len act1 = len act).
      { apply (f_equal length) in Kb. rewrite !length_fmap in Kb. unfold len. by rewrite Kb. }
      rewrite Hlen in A3. destruct r as [u|what].
      * destruct u. split_and!; try done. intros Hnb. destruct (B4 Hnb) as [?|[Hs|[? _]]]; [| |done].
        -- left. lia.
        -- left. destruct (sampling b) as [|p ptrs]; [done|].
           destruct (B3 p eq_refl Hn) as (j & Hj & Hf). specialize (A4 eq_refl p j eq_refl Hj Hf). lia.
      * destruct (fail_all_kv w2 what act2 A1). split_and!; try done. by right.
    + destruct (fail_all_kv w what act1 B1). split_and!; try done. by right.
Qed.

(** ** Retiring *)

(** Every answer given so far says why it ended. *)
Definition reasoned (w : t E) : Prop := Forall (λ x, res_reason x.2 ≠ kUnset) (results_ (world_ w)).

Lemma deliver_frame (w : t E) job :
  blocks_ (deliver clock w job) = blocks_ w ∧ prefix_cache_ (deliver clock w job) = prefix_cache_ w ∧
  environ (deliver clock w job) = environ w ∧
  (SequenceState.reason_ (job_state job) ≠ kUnset → reasoned w → reasoned (deliver clock w job)).
Proof.
  unfold deliver, reasoned. destruct (RequestTiming.finished _); simpl; split_and!; try done;
    intros Hr Hw; apply Forall_app; auto.
Qed.

(** Searching a donor slot may give up the least recently used donor. *)
Lemma find_donor_slot_kv (w : t E) act s :
  kvs w act → cleared (prefix_cache_ w) s →
  let (slot, w') := find_donor_slot w in
  kv (option_list slot) (blocks_ w') (prefix_cache_ w') act ∧ cleared (prefix_cache_ w') s.
Proof.
  intros V Hc. unfold find_donor_slot. pose proof (kv_take_donor_slot _ _ _ _ V) as Tk.
  destruct (PrefixCache.take_donor_slot (prefix_cache_ w)) as [[slot|] c]; destruct Tk as [T1 T2]; [auto|].
  pose proof (kv_evict_lru _ _ _ _ V) as Ev.
  destruct (PrefixCache.evict_lru_retained (prefix_cache_ w)) as [[e|] c1]; [|done].
  destruct Ev as (V1 & Hc1). simpl. pose proof (kv_take_donor_slot _ _ _ _ V1) as Tk.
  destruct (PrefixCache.take_donor_slot c1) as [slot c2]. destruct Tk as [T3 T4]. rewrite app_nil_r in T3. auto.
Qed.

(** A finished job leaves a donor behind, or not. *)
Lemma retain_prefix_kv (w : t E) job rest :
  kvs w (job :: rest) → config_ w = cfg → cleared (prefix_cache_ w) (job_seq job) → len rest < M →
  kvs (retain_prefix w job) (job :: rest) ∧ cleared (prefix_cache_ (retain_prefix w job)) (job_seq job).
Proof.
  intros V Hcfg Hc Hlen. unfold retain_prefix. rewrite Hcfg, Hcbs. destruct (_ || _); [done|].
  set (n := mul32 _ _). destruct (n =? 0); [done|]. destruct (_ <? _); [done|].
  pose proof (find_donor_slot_kv w (job :: rest) (job_seq job) V Hc) as Fd.
  destruct (find_donor_slot w) as [[slot|] w1]; destruct Fd as [F1 F2]; [|done]. simpl in F1.
  assert (Ab : ∀ e, kvs (abandon_donor (set_engine w1 e) slot) (job :: rest) ∧
    cleared (prefix_cache_ (abandon_donor (set_engine w1 e) slot)) (job_seq job)).
  { intros e. destruct (kv_evict _ _ _ _ slot F1) as [V2 _]; [set_solver|].
    split; [by apply (kv_lose slot)|by apply cleared_evict]. }
  destruct (begin_sequence _ _ _) as [[u|what] e]; [|apply Ab].
  destruct (copy_sequence _ _ _ _) as [[u'|what] e']; [|apply Ab].
  assert (Hk : N.of_nat (N.to_nat (n / bs)) ≤ quota).
  { rewrite N2Nat.id. pose proof (kv_jobs _ _ _ _ V) as [Fj _]%Forall_cons. pose proof (fits_size _ Fj) as Hsz.
    unfold n. set (p := len (SequenceState.prompt_ (job_state job))) in *. rewrite (wrap32_small p) by lia.
    pose proof (N.Div0.mul_div_le p bs). rewrite mul32_small, N.div_mul by lia.
    unfold KvAccounting.quota, ceil_blocks. apply N.Div0.div_le_mono. lia. }
  destruct (kv_retain _ _ _ _ _ _ (PrefixCache.hash_prefix (SequenceState.prompt_ (job_state job)) n) n _ F1
    Hk ltac:(nia)) as [R1 R2].
  split; [exact R1|]. by apply R2.
Qed.

Lemma retire_kv (w : t E) job rest :
  kvs w (job :: rest) → job_finished job = true → config_ w = cfg → len rest < M →
  let w' := retire clock w job in
  kvs w' rest ∧ environ w' = environ w ∧ (reasoned w → reasoned w').
Proof.
  intros V Hf Hcfg Hlen. pose proof (kv_jobs _ _ _ _ V) as [Fj _]%Forall_cons. unfold retire.
  pose proof (finish_job_fits w job Fj Hf) as (F1 & F2 & F3 & F0 & F4 & F5). pose proof (quiet_finish_job w job) as Q.
  destruct (finish_job w job) as [w1 job1]. simpl in *. injection F3 as J1 J2 J3 J4.
  assert (V1 : kvs w1 (job1 :: rest)).
  { unfold kvs in *. rewrite F4, F5. by eapply kv_state. }
  destruct (kv_evict _ _ _ _ (job_seq job1) V1 (or_introl (proj2 (fits_seq _ F1)))) as [V2 C2]. set (w2 := set_cache w1 _).
  assert (Hc2 : config_ w2 = cfg) by (simpl; rewrite (q_config _ _ Q); done).
  destruct (retain_prefix_kv w2 job1 rest V2 Hc2 C2 Hlen) as [V3 C3].
  pose proof (quiet_retain_prefix w2 job1) as Q3. set (w3 := retain_prefix w2 job1) in *.
  set (job2 := set_table job1 _). set (w5 := add_stat _ _ _).
  destruct (deliver_frame w5 job2) as (D1 & D2 & D3 & D4). unfold kvs. rewrite D1, D2, D3.
  split_and!.
  - exact (kv_leave _ _ _ _ _ V3 C3).
  - change (environ w3 = environ w). rewrite (quiet_environ _ _ Q3). exact (quiet_environ _ _ Q).
  - intros Hr. apply D4.
    + pose proof (fits_ok _ F1) as Ho. unfold job_ok in Ho. by rewrite F2 in Ho.
    + unfold reasoned in *. simpl. rewrite (q_results _ _ Q3). simpl. by rewrite (q_results _ _ Q).
Qed.

Lemma sweep_kv (w : t E) slots act others :
  kvs w (act ++ others) → config_ w = cfg → len (act ++ others) ≤ M →
  let '(w', slots', act') := sweep clock w slots act in
  kvs w' (act' ++ others) ∧ environ w' = environ w ∧ (reasoned w → reasoned w') ∧
  work act' ≤ work act ∧ (Forall (λ j, job_finished j = true) act → act' = []).
Proof.
  revert w slots others. induction act as [|job act IH]; intros w slots others V Hcfg Hlen; cbn [sweep]; [done|].
  pose proof Hlen as Hlen'. rewrite <- app_comm_cons, len_cons in Hlen'. destruct (job_finished job) eqn:Ef.
  - destruct (retire_kv w job (act ++ others) V Ef Hcfg ltac:(lia)) as (R1 & R2 & R3).
    destruct (retire_book clock w job) as (B1 & _).
    specialize (IH (retire clock w job) (push_back slots (job_seq job)) others R1 ltac:(congruence) ltac:(lia)).
    destruct (sweep _ _ _ _) as [[w' slots'] act']. destruct IH as (I1 & I3 & I4 & I5 & I6).
    rewrite work_cons. split_and!; [done|congruence|auto|lia|]. intros [_ Ha]%Forall_cons. auto.
  - specialize (IH w slots (job :: others)). destruct (sweep _ _ _ _) as [[w' slots'] act'].
    destruct IH as (I1 & I3 & I4 & I5 & I6); [|done|rewrite len_app, len_cons in *; lia|].
    { eapply kvs_proper; [|exact V]. simpl. by rewrite Permutation_middle. }
    rewrite !work_cons. split_and!; try done; [|lia|].
    + eapply kvs_proper; [|exact I1]. simpl. by rewrite Permutation_middle.
    + intros [? _]%Forall_cons. congruence.
Qed.

Lemma sweep_all_kv (l : Loop E) :
  kvs (sched l) (active l) → inv cfg l →
  let l' := sweep_all clock l in
  kvs (sched l') (active l') ∧ environ (sched l') = environ (sched l) ∧ pending l' = pending l ∧
  (reasoned (sched l) → reasoned (sched l')) ∧
  work (active l') ≤ work (active l) ∧ (Forall (λ j, job_finished j = true) (active l) → active l' = []).
Proof.
  intros V I. unfold sweep_all. pose proof (sweep_kv (sched l) (free_slots l) (active l) []) as S.
  destruct (sweep _ _ _ _) as [[w' slots'] act']. rewrite !app_nil_r in S. pose proof (inv_load _ _ I).
  destruct (S V ltac:(apply I) ltac:(unfold len; lia)) as (S1 & S2 & S3 & S4 & S5). done.
Qed.

(** ** Making room *)

Lemma reclaim_donor_blocks_kv (w : t E) act : kvs w act → kvs (reclaim_donor_blocks w).2 act.
Proof.
  intros V. unfold reclaim_donor_blocks. pose proof (kv_evict_lru _ _ _ _ V) as Ev.
  destruct (PrefixCache.evict_lru_retained (prefix_cache_ w)) as [[e|] c]; [|done]. by destruct Ev as (? & _).
Qed.

Lemma reclaim_until_kv n target (w : t E) act : kvs w act → kvs (reclaim_until n target w) act.
Proof.
  revert w. induction n as [|n IH]; intros w V; [done|]. simpl. destruct (_ <? _); [|done].
  pose proof (reclaim_donor_blocks_kv w act V) as V1. destruct (reclaim_donor_blocks w) as [[|] w1]; [by apply IH|done].
Qed.

(** What making room for sequences keeps. *)
Definition roomy (l l' : Loop E) : Prop :=
  kvs (sched l') (active l') ∧ environ (sched l') = environ (sched l) ∧
  results_ (world_ (sched l')) = results_ (world_ (sched l)) ∧
  (Forall (λ r, brief (req_spec r)) (pending l) → Forall (λ r, brief (req_spec r)) (pending l')).

Lemma roomy_trans l1 l2 l3 : roomy l1 l2 → roomy l2 l3 → roomy l1 l3.
Proof. intros (? & ? & ? & ?) (? & ? & ? & ?). split_and!; [done|congruence..|auto]. Qed.

Lemma grow_job_kv (l : Loop E) p n :
  kvs (sched l) (active l) → NoDup (job_ptr <$> active l) → n ≤ K → roomy l (grow_job l p n).2.
Proof.
  intros V Hn HnK. unfold grow_job. destruct (find_job p (active l)) as [job|] eqn:Ef; [|done].
  destruct (put_job_perm p job _ Hn Ef) as (rest & Pa & Pp). destruct (find_job_Some _ _ _ Ef) as [_ Hptr].
  pose proof (kvs_proper _ _ _ Pa V) as V0. pose proof (kv_grow _ _ _ _ _ n V0 HnK L_width) as G.
  destruct (BlockTable.ensure_capacity _ _ _) as [[ok a] tb]. destruct G as [G _].
  split_and!; try done. simpl. eapply kvs_proper; [symmetry; by apply Pp|exact G].
Qed.

Lemma preempt_one_kv (l : Loop E) except :
  kvs (sched l) (active l) → roomy l (preempt_one l except).2.
Proof.
  intros V. pose proof (preempt_one_spec l except) as P.
  destruct (preempt_one l except) as [[|] l']; simpl; [|by destruct P as [-> _]].
  destruct P as (older & v & newer & P1 & P2 & _ & _ & _ & P6 & _ & Q & P8 & P9).
  assert (V0 : kvs (sched l) (v :: older ++ newer)).
  { eapply kvs_proper; [|exact V]. rewrite P1. by rewrite Permutation_middle. }
  pose proof (kv_jobs _ _ _ _ V0) as [Fv _]%Forall_cons.
  split_and!; [|by apply quiet_environ|apply Q|].
  - unfold kvs. rewrite P2, P8, P9.
    destruct (kv_evict _ _ _ _ (job_seq v) V0 (or_introl (proj2 (fits_seq _ Fv)))). by apply kv_leave.
  - intros Hp. rewrite P6. constructor; [apply Fv|done].
Qed.

Lemma grow_by_donors_kv n (l : Loop E) p needed :
  kvs (sched l) (active l) → inv cfg l → needed ≤ K → roomy l (grow_by_donors n l p needed).
Proof.
  revert l. induction n as [|n IH]; intros l V I HK'; [done|]. simpl.
  pose proof (grow_job_kv l p needed V (inv_ptrs _ _ I) HK') as G.
  pose proof (grow_job_inv cfg l p needed I) as I1.
  destruct (grow_job l p needed) as [[|] l1]; simpl in G, I1; [done|]. pose proof G as (G1 & _).
  pose proof (reclaim_donor_blocks_kv _ _ G1) as V1. pose proof (quiet_reclaim_donor_blocks (sched l1)) as Q.
  assert (R : ∀ w, kvs w (active l1) → quiet (sched l1) w →
    roomy l1 (mkLoop w (active l1) (free_slots l1) (pending l1))).
  { intros w Vw Qw. split_and!; simpl; [done|by apply quiet_environ|apply Qw|done]. }
  destruct (reclaim_donor_blocks (sched l1)) as [[|] w]; simpl in V1, Q; (eapply roomy_trans; [exact G|]).
  - eapply roomy_trans; [by apply R|]. apply IH; [done|by apply inv_world|done].
  - by apply R.
Qed.

Lemma grow_by_preempting_kv n (l : Loop E) p needed :
  kvs (sched l) (active l) → inv cfg l → needed ≤ K → roomy l (grow_by_preempting n l p needed).
Proof.
  revert l. induction n as [|n IH]; intros l V I HK'; [done|]. simpl.
  pose proof (grow_job_kv l p needed V (inv_ptrs _ _ I) HK') as G.
  pose proof (grow_job_inv cfg l p needed I) as I1.
  destruct (grow_job l p needed) as [[|] l1]; simpl in G, I1; [done|]. pose proof G as (G1 & _).
  pose proof (preempt_one_kv l1 (Some p) G1) as P. pose proof (preempt_one_inv cfg l1 (Some p) I1) as I2.
  destruct (preempt_one l1 (Some p)) as [[|] l2]; simpl in P, I2; (eapply roomy_trans; [exact G|]).
  - eapply roomy_trans; [exact P|]. apply IH; [apply P|done|done].
  - done.
Qed.

Lemma resolve_one_kv (l : Loop E) p :
  kvs (sched l) (active l) → inv cfg l → roomy l (resolve_one l p).
Proof.
  intros V I. unfold resolve_one. destruct (find_job p (active l)) as [job|] eqn:Ef; [|done].
  destruct (put_job_perm p job _ (inv_ptrs _ _ I) Ef) as (rest & Pa & Pp).
  destruct (find_job_Some _ _ _ Ef) as [_ Hptr]. pose proof (kvs_proper _ _ _ Pa V) as V0.
  pose proof (kv_jobs _ _ _ _ V0) as [Fj _]%Forall_cons. destruct (_ <? _).
  - set (job1 := fail_job _ _ _). assert (F1 : fits job1) by (by apply fits_fail_job).
    pose proof (finish_job_fits (sched l) job1 F1 eq_refl) as (G1 & _ & G3 & G0 & G4 & G5).
    pose proof (quiet_finish_job (sched l) job1) as Q.
    destruct (finish_job (sched l) job1) as [w1 job2]. simpl in *. injection G3 as J1 J2 J3 J4.
    split_and!; simpl; [|by apply quiet_environ|apply Q|done].
    eapply kvs_proper; [symmetry; apply Pp; congruence|]. unfold kvs in *. rewrite G4, G5.
    by eapply kv_state.
  - pose proof (job_tokens_fit _ Fj) as Ht.
    pose proof (grow_by_donors_kv (donor_bound (sched l)) l p (job_tokens job) V I Ht) as G.
    eapply roomy_trans; [exact G|]. apply grow_by_preempting_kv; [apply G| |done]. by apply grow_by_donors_inv.
Qed.

Lemma resolve_kv (l : Loop E) short :
  kvs (sched l) (active l) → inv cfg l → roomy l (resolve l short).
Proof.
  unfold resolve. revert l. induction short as [|p short IH]; intros l V I; [done|]. simpl.
  pose proof (resolve_one_kv l p V I) as R. eapply roomy_trans; [exact R|].
  apply IH; [apply R|by apply resolve_one_inv].
Qed.

(** ** Admission *)

Definition copy_threw (what : bytes) : Prop :=
  ∃ (e e' : E) src dst n, copy_sequence e src dst n = (Throw what, e').

(** The exceptions that leave [run_continuous]. *)
Definition uncaught (what : bytes) : Prop := begin_threw (E := E) what ∨ copy_threw what.

Lemma make_job_fits (w : t E) req seq :
  (0 ≤ seq < first)%Z → brief (req_spec req) →
  match make_job w req seq with
  | (Throw what, _) => uncaught what
  | (Ok job, w') =>
      fits job ∧ held job = [] ∧ SequenceState.prefilled_ (job_state job) = 0 ∧ blocks_ w' = blocks_ w ∧ prefix_cache_ w' = prefix_cache_ w ∧
      environ w' = environ w ∧ results_ (world_ w') = results_ (world_ w)
  end.
Proof.
  intros Hseq Hb. pose proof (Hbrief _ Hb) as Hlen.
  assert (Hm : max_tokens (req_spec req) < 4294967296) by (specialize (Hlen (engine_ w)); lia).
  pose proof (make_job_spec w req seq) as S. pose proof (make_job_ok w req seq Hm) as O.
  unfold make_job in *. destruct (new_ptr w) as [ptr w1].
  destruct (match req_sink req with Some k => (k, w1) | None => _ end) as [sink w2].
  specialize (Hlen (engine_ w2)). destruct (tokenize (engine_ w2) _ true) as [prompt e1]. simpl in Hlen.
  destruct (begin_sequence e1 seq _) as [[u|what] e2]; [|by left].
  destruct S as (_ & _ & S0 & _ & _ & _ & S1 & S2 & S3 & _). destruct O as (O1 & _ & O3).
  split_and!; try done; [|simpl; by destruct (_ && _)]. split; try done.
  - simpl. by destruct (_ && _).
  - unfold job_usage. simpl. destruct (_ && _); simpl; apply wrap32_small; lia.
  - simpl. destruct (_ && _); simpl; lia.
  - unfold job_usage. simpl. destruct (_ && _); simpl; lia.
  - simpl. rewrite len_nil. lia.
  - unfold job_seq. simpl. by destruct (_ && _).
Qed.

Lemma reserve_kv (w : t E) act job :
  kvs w act → fits job → held job = [] →
  let '(ok, (w', job')) := reserve w act job in
  fits job' ∧ job_finished job' = job_finished job ∧ job_state job' = job_state job ∧ len (held job') ≤ quota ∧
  kvs w' (if ok then job' :: act else act).
Proof.
  intros V F Hb. unfold reserve. set (target := add32 _ _).
  pose proof (reclaim_until_kv (donor_bound w) target w act V) as V0. set (w1 := reclaim_until _ _ _) in *.
  pose proof (kv_enter _ _ _ _ _ V0 F Hb) as V1. assert (Hq : len (held job) ≤ quota) by (rewrite Hb, len_nil; lia).
  destruct (job_finished job) eqn:Ef; [split_and!; done|].
  destruct (_ <=? _); [|split_and!; done].
  assert (Hp : Types.prompt_tokens (job_usage job) ≤ K)
    by (destruct F as [_ _ F3 F4 _ _ _ _]; rewrite F3; lia).
  pose proof (kv_grow _ _ _ _ _ _ V1 Hp L_width) as G.
  destruct (BlockTable.ensure_capacity _ _ _) as [[ok a] tb]. destruct G as (G & G1 & G2).
  pose proof (kv_jobs _ _ _ _ G) as [Fj _]%Forall_cons.
  destruct ok; split_and!; try done.
  - destruct (G1 eq_refl); simpl; lia.
  - destruct (G2 eq_refl) as (_ & -> & _). exact Hq.
  - destruct (G2 eq_refl) as (-> & _ & _). exact V0.
Qed.

Lemma share_prefix_kv (w : t E) act job :
  kvs w (job :: act) → config_ w = cfg → len (held job) ≤ quota → SequenceState.prefilled_ (job_state job) = 0 →
  len act < M →
  match share_prefix w job with
  | (Throw what, _) => uncaught what
  | (Ok job', w') => kvs w' (job' :: act)
  end.
Proof.
  intros V Hc Hq Hpre Hlen. unfold share_prefix. destruct (_ && _) eqn:Eg; [|done]. bool_hyps.
  pose proof (kv_jobs _ _ _ _ V) as [Fj _]%Forall_cons. pose proof (fits_size _ Fj) as Hsz.
  pose proof (kv_find _ _ _ _ (SequenceState.prompt_ (job_state job)) V ltac:(lia)) as Fi.
  unfold BlockAllocator.block_size. rewrite (kv_bs _ _ _ _ V).
  destruct (PrefixCache.find_longest _ _ _) as [[hit|] c]; destruct Fi as [V1 Fi]; [|done].
  destruct (_ =? _)%Z; [done|]. simpl.
  destruct (copy_sequence _ _ _ _) as [[u|what] e] eqn:Ec; [|right; by eexists _, _, _, _, _].
  destruct (Fi hit eq_refl) as (h & k & Fh). rewrite Hc in *.
  assert (Hw : (len act + 1) * L + quota * donors + quota < 4294967296) by nia.
  pose proof (kv_adopt _ _ _ _ _ h _ (PrefixCache.e_n_tokens hit) V1 Fh Hq (Hshare ltac:(done)) Hw) as A. simpl in A.
  destruct (BlockTable.adopt_shared_prefix _ _ _ _) as [a tb]. unfold kvs. simpl.
  eapply kv_state; [exact A|apply continues_state; [done..|simpl; rewrite Hpre; lia]|done|].
  pose proof (kv_jobs _ _ _ _ A) as [Fa _]%Forall_cons. pose proof (fits_running _ Fj ltac:(done)) as I.
  apply (fits_set_state (set_table job tb)); try done; simpl; [|rewrite (fits_spec _ Fj); apply Fj].
  unfold job_finished in *. replace (SequenceState.finished_ (job_state job)) with false by done.
  destruct I as [I1 I2 I3 I4 I5 I6 I7]. split; try done. simpl. destruct (len _ =? 0) eqn:E0; bool_hyps; lia.
Qed.

Lemma admit_one_kv (w : t E) act slot req :
  kvs w act → config_ w = cfg → len act < M → (0 ≤ slot < first)%Z → brief (req_spec req) →
  match admit_one clock w act slot req with
  | (Throw what, _) => uncaught what
  | (Ok a, w') =>
      config_ w' = cfg ∧ environ w' = environ w ∧ (reasoned w → reasoned w') ∧
      match a with
      | Rejected => kvs w' act
      | Deferred r => kvs w' act ∧ brief (req_spec r) ∧ act ≠ []
      | Running job => kvs w' (job :: act)
      end
  end.
Proof.
  intros V Hc Hlen Hs Hb. unfold admit_one. pose proof (make_job_fits w req slot Hs Hb) as Mk.
  pose proof (make_job_spec w req slot) as Sp.
  destruct (make_job w req slot) as [[job|what] w1]; [|done].
  destruct Mk as (M1 & M2 & M0 & M3 & M4 & M5 & M6), Sp as (_ & Sr & _ & _ & Sc & _).
  assert (V1 : kvs w1 act) by (unfold kvs; by rewrite M3, M4).
  pose proof (reserve_kv w1 act job V1 M1 M2) as R. pose proof (reserve_spec w1 act job) as [Qr Kr].
  assert (Rs : req_spec (job_request (reserve w1 act job).2.2) = req_spec req).
  { unfold reserve. rewrite <- Sr. split_ifs; done. }
  destruct (reserve w1 act job) as [ok [w2 job1]]. simpl in Qr, Rs.
  pose proof (quiet_environ _ _ Qr) as R2. pose proof (q_results _ _ Qr) as R3.
  destruct R as (R1 & R4 & R5 & R6 & R7).
  assert (Hc2 : config_ w2 = cfg) by (rewrite (q_config _ _ Qr); congruence). destruct ok.
  - pose proof (share_prefix_kv w2 act job1 R7) as Sh. pose proof (share_prefix_spec w2 job1) as Qs.
    destruct (share_prefix w2 job1) as [[job2|what] w3].
    2: { apply Sh; [done..|congruence|done]. }
    destruct Qs as [Qs _]. specialize (Sh Hc2 R6 ltac:(congruence) Hlen). simpl. split_and!.
    + rewrite (q_config _ _ Qs). done.
    + change (environ w3 = environ w). rewrite (quiet_environ _ _ Qs). congruence.
    + unfold reasoned. simpl. rewrite (q_results _ _ Qs), R3, M6. done.
    + eapply kv_state; [exact Sh|done|done|]. apply fits_timing.
      by pose proof (kv_jobs _ _ _ _ Sh) as [? _]%Forall_cons.
  - destruct act as [|a act].
    + set (job2 := fail_job _ _ _). assert (F2 : fits job2) by (by apply fits_fail_job).
      pose proof (finish_job_fits w2 job2 F2 eq_refl) as (G1 & G2 & _ & _ & G4 & G5).
      pose proof (quiet_finish_job w2 job2) as Q.
      destruct (finish_job w2 job2) as [w3 job3]. simpl in *. set (w4 := set_engine _ _).
      destruct (deliver_frame w4 job3) as (D1 & D2 & D3 & D4). destruct (deliver_book clock w4 job3) as (D5 & _).
      split_and!.
      * rewrite D5. simpl. by rewrite (q_config _ _ Q).
      * rewrite D3. change (environ w3 = environ w). rewrite (quiet_environ _ _ Q). congruence.
      * intros Hr. apply D4.
        -- pose proof (fits_ok _ G1) as Ho. unfold job_ok in Ho. by rewrite G2 in Ho.
        -- unfold reasoned in *. simpl. by rewrite (q_results _ _ Q), R3, M6.
      * unfold kvs. rewrite D1, D2. simpl. rewrite G4, G5. exact R7.
    + split_and!; try done.
      * change (environ w2 = environ w). congruence.
      * unfold reasoned. simpl. by rewrite R3, M6.
      * change (brief (req_spec (job_request job1))). by rewrite Rs.
Qed.

(** Requests that wait weigh more than any job. *)
Definition backlog (pend : list Request) (act : list Job) : N := (K + 3) * len pend + work act.

Lemma admit_loop_kv (w : t E) act (slots : list SeqId) pend :
  kvs w act → config_ w = cfg → len act + len slots ≤ M → Forall (λ s, (0 ≤ s < first)%Z) slots →
  Forall (λ r, brief (req_spec r)) pend →
  match admit_loop clock w act slots pend with
  | (Throw what, _) => uncaught what
  | (Ok _, l') =>
      kvs (sched l') (active l') ∧ config_ (sched l') = cfg ∧ environ (sched l') = environ w ∧
      (reasoned w → reasoned (sched l')) ∧ Forall (λ r, brief (req_spec r)) (pending l') ∧ (active l' = [] → act = []) ∧
      backlog (pending l') (active l') ≤ backlog pend act ∧
      (act = [] → slots ≠ [] → pend ≠ [] → backlog (pending l') (active l') < backlog pend act)
  end.
Proof.
  revert w act slots. induction pend as [|req pend IH]; intros w act slots V Hc Hl Hf Hp; cbn [admit_loop].
  { split_and!; done. }
  apply Forall_cons in Hp as [Hr Hp]. destruct (back slots) as [slot|] eqn:Hs.
  2: { apply back_None in Hs. split_and!; try done. by constructor. }
  apply back_Some in Hs. assert (Hpop : len slots = len (pop_back slots) + 1)
    by (rewrite Hs at 1; rewrite len_app; done).
  pose proof Hf as Hf'. rewrite Hs in Hf'. apply Forall_app in Hf' as [Hf1 [Hf2 _]%Forall_cons].
  pose proof (admit_one_kv w act slot req V Hc ltac:(lia) Hf2 Hr) as A.
  destruct (admit_one clock w act slot req) as [[a|what] w1]; [|done]. destruct A as (A1 & A2 & A3 & A4).
  assert (Hload : backlog (req :: pend) act = backlog pend act + (K + 3)) by (unfold backlog; rewrite len_cons; lia).
  assert (Step : ∀ act1 (slots1 : list SeqId), kvs w1 act1 → (act1 = [] → act = []) → len act1 + len slots1 ≤ M →
    Forall (λ s, (0 ≤ s < first)%Z) slots1 → backlog pend act1 < backlog (req :: pend) act →
    match admit_loop clock w1 act1 slots1 pend with
    | (Throw what, _) => uncaught what
    | (Ok _, l') =>
        kvs (sched l') (active l') ∧ config_ (sched l') = cfg ∧ environ (sched l') = environ w ∧
        (reasoned w → reasoned (sched l')) ∧ Forall (λ r, brief (req_spec r)) (pending l') ∧ (active l' = [] → act = []) ∧
        backlog (pending l') (active l') ≤ backlog (req :: pend) act ∧
        (act = [] → slots ≠ [] → req :: pend ≠ [] → backlog (pending l') (active l') < backlog (req :: pend) act)
    end).
  { intros act1 slots1 V1 He1 Hl1 Ha1 Hld. specialize (IH w1 act1 slots1 V1 A1 Hl1 Ha1 Hp).
    destruct (admit_loop clock w1 act1 slots1 pend) as [[u|what] l']; [|done].
    destruct IH as (I1 & I2 & I3 & I4 & I5 & I0 & I6 & _).
    split_and!; try done; [congruence|auto|auto|lia..]. }
  destruct a as [|r|job].
  - apply Step; [done|done|lia|done|lia].
  - destruct A4 as (A4 & A5 & A6). split_and!; try done. by constructor.
  - assert (V1 : kvs w1 (push_back act job)).
    { eapply kvs_proper; [|exact A4]. unfold push_back. by rewrite Permutation_app_comm. }
    apply Step; [done|by intros [_ ?]%app_nil|unfold push_back; rewrite len_app; unfold len in *; simpl; lia|done|].
    rewrite Hload. unfold backlog, push_back. rewrite work_app. cbn [work fmap list_fmap fold_right].
    pose proof (kv_jobs _ _ _ _ A4) as [Fj _]%Forall_cons. apply weight_fits in Fj.
    change (work [job]) with (weight job + 0). lia.
Qed.

(** ** Taking work *)

(** Waiting for the queue leaves the scheduler's own state alone. *)
Definition same_books (w w' : t E) : Prop :=
  blocks_ w' = blocks_ w ∧ prefix_cache_ w' = prefix_cache_ w ∧ results_ (world_ w') = results_ (world_ w).

Lemma sync_same w : same_books w (sync w).
Proof. destruct (sync_frame w) as (_ & F1 & F2). split_and!; [done..|]. apply (s_results _ _ (sync_steady w)). Qed.

Lemma pop_wait_same n w : same_books w (pop_wait n w).2.
Proof.
  revert w. induction n as [|n IH]; intros w; cbn [pop_wait]; pose proof (sync_same w) as S;
    destruct (RequestQueue.pop _) as [[]|]; simpl; try done.
  destruct S as (S1 & S2 & S3), (IH (sync w)) as (I1 & I2 & I3). split_and!; congruence.
Qed.

Lemma try_pop_same w : same_books w (try_pop w).2.
Proof. unfold try_pop. pose proof (sync_same w). by destruct (RequestQueue.try_pop _). Qed.

Lemma take_work_frame n (w : t E) act pend :
  same_books w (take_work n w act pend).2 ∧
  ∀ pend', (take_work n w act pend).1 = Some pend' →
    ∃ more, pend' = pend ++ more ∧ fed more w (take_work n w act pend).2.
Proof.
  revert w pend. induction n as [|n IH]; intros w pend; cbn [take_work].
  { split; [done|]. intros pend' [= <-]. exists []. by rewrite app_nil_r. }
  assert (P : ∀ r w1, (match act, pend with
      | [], [] => pop w
      | _, _ => let (o, w1) := try_pop w in (Some o, w1) end) = (r, w1) →
      same_books w w1 ∧ ∀ o, r = Some o → popped w o w1).
  { intros r w1. pose proof (pop_popped w) as P1. pose proof (try_pop_popped w) as P2.
    pose proof (pop_wait_same (length (script_ (world_ w))) w) as S1. fold (pop w) in S1.
    pose proof (try_pop_same w) as S2.
    destruct act, pend; [destruct (pop w) as [[]]; intros [= <- <-]; (split; [done|naive_solver])|..];
      destruct (try_pop w); intros [= <- <-]; (split; [done|naive_solver]). }
  destruct (match act, pend with
      | [], [] => pop w
      | _, _ => let (o, w1) := try_pop w in (Some o, w1) end) as [[[req|]|] w1] eqn:Er;
    destruct (P _ _ eq_refl) as [(S1 & S2 & S3) Po].
  - destruct (Po _ eq_refl) as (_ & _ & _ & P4 & _). destruct (IH w1 (push_back pend req)) as [(I1 & I2 & I3) I4].
    split; [split_and!; congruence|]. intros pend' Hp. destruct (I4 pend' Hp) as (more & -> & Hm).
    exists (req :: more). unfold push_back. rewrite <- app_assoc. split; [done|].
    by apply (fed_trans [req] more w w1).
  - destruct (Po _ eq_refl) as (_ & _ & _ & P4 & _). split; [done|]. intros pend' [= <-]. exists [].
    by rewrite app_nil_r.
  - done.
Qed.

(** ** The iteration *)

Record tidy (l : Loop E) : Prop := mk_tidy {
  tidy_inv : inv cfg l;
  tidy_kv : kvs (sched l) (active l);
  tidy_brief : Forall (λ r, brief (req_spec r)) (pending l ++ incoming (sched l));
  tidy_reasons : reasoned (sched l) }.

(** The steps that the requests held and still to come can take. *)
Definition total_work (l : Loop E) : N := backlog (pending l ++ incoming (sched l)) (active l).

Lemma total_work_split (l : Loop E) :
  total_work l = (K + 3) * len (pending l) + (K + 3) * len (incoming (sched l)) + work (active l).
Proof. unfold total_work, backlog. rewrite len_app. lia. Qed.

Lemma sublist_len {A} (l k : list A) : l `sublist_of` k → len l ≤ len k.
Proof. intros S%sublist_length. unfold len. lia. Qed.

Lemma advance_tidy nb (l : Loop E) :
  tidy l → active l ≠ [] →
  tidy (advance clock nb l) ∧ (closing (sched l) → closing (sched (advance clock nb l))) ∧
  (0 < nb → ample → total_work (advance clock nb l) < total_work l).
Proof.
  intros [I V B R] Ha. pose proof (advance_inv clock cfg nb l I) as Ia. unfold advance in *.
  pose proof (decode_accept_kv nb (sched l) (active l) V (inv_ptrs _ _ I)) as D.
  pose proof (decode_accept_spec clock nb (sched l) (active l) (inv_ptrs _ _ I)) as S.
  destruct (decode_accept _ _ _ _) as [[w act] short]. destruct D as (D1 & D2 & D3), S as [S1 S2].
  pose proof (inv_in_place _ _ _ _ I S1 S2) as I1. set (l0 := mkLoop w act (free_slots l) (pending l)) in *.
  destruct (sweep_all_kv l0 D1 I1) as (A1 & A2 & A3 & A4 & A5 & A6).
  destruct (sweep_all_inv clock cfg l0 I1) as [I2 _]. set (l1 := sweep_all clock l0) in *.
  pose proof (resolve_kv l1 short A1 I2) as (E1 & E2 & E3 & E4). pose proof (resolve_inv cfg l1 short I2) as I3.
  assert (Hshort : short = [] → resolve l1 short = l1) by (by intros ->). set (l2 := resolve l1 short) in *.
  destruct (sweep_all_kv l2 E1 I3) as (G1 & G2 & G3 & G4 & G5 & _). set (l3 := sweep_all clock l2) in *.
  assert (Hfed : fed [] (sched l) (sched l3)).
  { apply (fed_trans [] [] _ w); [apply S1|]. apply environ_fed. by rewrite G2, E2, A2. }
  destruct Hfed as [Hinc Hcl]. simpl in Hinc. pose proof (sublist_len _ _ Hinc) as Hil.
  split_and!; [|exact Hcl|].
  - split; simpl; try done.
    + apply Forall_app in B as [B1 B2]. apply Forall_app. split.
      * rewrite G3. apply E4. by rewrite A3.
      * eapply Forall_sublist; [exact Hinc|done].
    + apply G4. unfold reasoned. rewrite E3. apply A4. unfold reasoned. simpl. rewrite (s_results _ _ S1). exact R.
  - intros Hnb Hample. rewrite !total_work_split. simpl.
    change (incoming (put_stat (sched l3) _ _)) with (incoming (sched l3)).
    pose proof (inv_load _ _ I) as Hl. rewrite (D2 ltac:(unfold len; lia) Hample) in Hshort.
    rewrite (Hshort eq_refl) in *. rewrite G3, A3. simpl in *.
    assert (Hw : work (active l3) < work (active l)).
    { destruct (D3 Hnb) as [Hw|Hall]; [lia|]. rewrite (A6 Hall) in G5. destruct (active l) as [|j act']; [done|].
      rewrite work_cons. pose proof (weight_pos j). cbn in G5. lia. }
    nia.
Qed.

(** The slots: at most a batch of them, all below the donors', some free when nothing
    runs. *)
Lemma slot_bounds (l : Loop E) :
  inv cfg l →
  len (active l) + len (free_slots l) ≤ M ∧ Forall (λ s, (0 ≤ s < first)%Z) (free_slots l) ∧
  (active l = [] → free_slots l ≠ []).
Proof.
  intros I. pose proof (inv_slots _ _ I) as Hs.
  assert (Hi : ∀ n, length (init_slots n) = n) by (induction n; simpl; congruence). split_and!.
  - apply Permutation_length in Hs. rewrite length_app, length_fmap, Hi in Hs. unfold len. lia.
  - apply Forall_forall. intros s Hin.
    assert (Hin' : s ∈ init_slots (N.to_nat M)) by (rewrite <- Hs, elem_of_app; by left).
    apply elem_of_init_slots in Hin'. lia.
  - intros Ea Hf. rewrite Ea, Hf in Hs. apply Permutation_nil in Hs. destruct (N.to_nat M) eqn:Em; [lia|done].
Qed.

Lemma iterate_tidy nb (l : Loop E) :
  tidy l →
  match iterate clock nb l with
  | (None, l') =>
      tidy l' ∧ (closing (sched l) → closing (sched l')) ∧ (0 < nb → ample → total_work l' < total_work l)
  | (Some (Threw what), _) => uncaught what
  | (Some OutOfFuel, _) => False
  | (Some o, l') => active l' = [] ∧ kvs (sched l') [] ∧ reasoned (sched l') ∧ (closing (sched l) → o ≠ Blocked)
  end.
Proof.
  intros Td. destruct Td as [I V B R].
  unfold iterate in *. set (room := N.to_nat _) in *.
  pose proof (take_work_spec clock room (sched l) (active l) (pending l)) as T1.
  destruct (take_work_frame room (sched l) (active l) (pending l)) as [(S1 & S2 & S3) Tp].
  destruct (take_work _ _ _ _) as [[pend|] w] eqn:Et; simpl in *.
  2: { destruct T1 as (Ha & _ & _ & _ & Hcl). rewrite Ha in V |- *. split_and!; try done;
         [unfold kvs in *; simpl; by rewrite S1, S2|unfold reasoned; by rewrite S3]. }
  destruct T1 as (C1 & _ & _ & _ & _). destruct (Tp pend eq_refl) as (more & -> & Hm & Hcl). set (pend := pending l ++ more) in *.
  assert (V1 : kvs w (active l)) by (unfold kvs in *; by rewrite S1, S2).
  assert (R1 : reasoned w) by (unfold reasoned; by rewrite S3).
  apply Forall_app in B as [B1 B2]. assert (B3 : Forall (λ r, brief (req_spec r)) (more ++ incoming w))
    by (eapply Forall_sublist; [exact Hm|done]).
  apply Forall_app in B3 as [B3 B4]. assert (Bp : Forall (λ r, brief (req_spec r)) pend) by (by apply Forall_app).
  pose proof (sublist_len _ _ Hm) as Hml. rewrite len_app in Hml.
  destruct (slot_bounds l I) as (Hslots & Hfirst & Hidle).
  assert (G : match admit_loop clock w (active l) (free_slots l) pend with
    | (Throw what, _) => uncaught what
    | (Ok _, l1) => inv cfg l1 → (active l = [] → pend ≠ []) →
        let l' := match active l1 with [] => l1 | _ => advance clock nb l1 end in
        tidy l' ∧ (closing (sched l) → closing (sched l')) ∧ (0 < nb → ample → total_work l' < total_work l)
    end).
  { pose proof (admit_loop_kv w (active l) (free_slots l) pend V1 ltac:(rewrite C1; apply I) Hslots Hfirst Bp) as A.
    destruct (admit_loop _ _ _ _ _) as [[u|what] l1]; [|done].
    destruct A as (A1 & A2 & A3 & A4 & A5 & A0 & A6 & A7). intros I1 Hne.
    destruct (environ_fed _ _ A3) as [_ Hcl1]. apply environ_incoming in A3.
    assert (Td : tidy l1).
    { split; [done|done| |auto]. apply Forall_app. split; [done|]. by rewrite A3. }
    assert (Hle : total_work l1 ≤ total_work l ∧ (active l1 = [] → total_work l1 < total_work l)).
    { rewrite !total_work_split, A3. unfold backlog, pend in *. rewrite len_app in *.
      split; [nia|]. intros He. destruct (active l) as [|j act] eqn:Ea.
      - specialize (A7 eq_refl (Hidle eq_refl) (Hne eq_refl)). nia.
      - by specialize (A0 He). }
    destruct (active l1) eqn:Ea1.
    - split_and!; [done|auto|]. intros _ _. by apply Hle.
    - destruct (advance_tidy nb l1 Td ltac:(congruence)) as (Ta & Tc & Tb). split_and!; [done|auto|]. intros Hnb Hamp.
      specialize (Tb Hnb Hamp). lia. }
  pose proof (admit_loop_inv clock cfg w (active l) (free_slots l) pend) as Ai.
  specialize (Ai (take_work_inv clock cfg l pend w I Et)).
  destruct (active l) as [|j act] eqn:Ea, pend as [|r pend'] eqn:Ep;
    [done|..];
    destruct (admit_loop _ _ _ _ _) as [[u|what] l1]; try done;
    specialize (G Ai ltac:(done)); by destruct (active l1).
Qed.

(** ** The run *)

Lemma iterates_tidy nb (l l' : Loop E) : rtc (iterates clock nb) l l' → tidy l → tidy l'.
Proof.
  induction 1 as [|l l1 l' St _ IH]; [done|]. intros Td. apply IH.
  pose proof (iterate_tidy nb l Td) as It. unfold iterates in St. rewrite St in It. apply It.
Qed.

Lemma run_loop_tidy fuel nb (l : Loop E) :
  tidy l →
  match run_loop clock fuel nb l with
  | (Threw what, _) => uncaught what
  | (OutOfFuel, _) => 0 < nb → ample → N.of_nat fuel ≤ total_work l
  | (o, l') => kvs (sched l') [] ∧ reasoned (sched l') ∧ (closing (sched l) → o = Returned)
  end.
Proof.
  revert l. induction fuel as [|fuel IH]; intros l Td; cbn [run_loop]; [lia|].
  pose proof (iterate_tidy nb l Td) as It. destruct (iterate clock nb l) as [[o|] l1].
  - destruct o; try done; destruct It as (_ & It1 & It2 & It3); split_and!; try done. by intros []%It3.
  - destruct It as (Td1 & Hcl & Hw). specialize (IH l1 Td1). destruct (run_loop clock fuel nb l1) as [[] l']; try done;
      try (destruct IH as (? & ? & ?); by split_and!; auto).
    intros Hnb Hample. specialize (IH Hnb Hample). specialize (Hw Hnb Hample). lia.
Qed.

Lemma init_tidy (w : t E) :
  config_ w = cfg → book w [] → reasoned w → Forall (λ r, brief (req_spec r)) (incoming w) →
  BlockAllocator.accounts (blocks_ w) [] → BlockAllocator.total_ (blocks_ w) = T →
  BlockAllocator.block_size_ (blocks_ w) = bs →
  prefix_cache_ w = PrefixCache.configure_donors PrefixCache.empty first donors → tidy (init w).
Proof.
  intros Hc B R Hb A Ht Hz He. pose proof (init_inv w B) as I. rewrite Hc in I. split; try done.
  split; cbn [init sched active]; rewrite ?He; try done.
  exists []. split; [done|]. exists [], []. rewrite !len_nil.
  unfold PrefixCache.slots_ok, PrefixCache.retained_blocks, PrefixCache.retained. simpl. rewrite map_to_list_empty. simpl.
  split_and!; [done|by rewrite app_nil_r|apply N.le_0_l].
Qed.

(** With nothing running and no donors, the cache is empty and every block is free. *)
Lemma kvs_idle (w : t E) :
  kvs w [] → donors = 0 →
  BlockAllocator.accounts (blocks_ w) [] ∧
  BlockAllocator.free_blocks (blocks_ w) = BlockAllocator.total_ (blocks_ w) ∧
  PrefixCache.entries_ (prefix_cache_ w) = ∅.
Proof.
  intros V HD. destruct (kv_exact _ _ _ _ V HD) as [A Hret].
  split_and!; [exact A|by apply (BlockAllocator.accounts_free_total _ [])|].
  apply map_empty. intros h. destruct (_ !! h) as [r|] eqn:Er; [|done].
  destruct (kv_entries _ _ _ _ V h r Er) as [_ [Hr|(j & Hj & _)]]; [|by apply not_elem_of_nil in Hj].
  assert (Hin : PrefixCache.r_entry r ∈ PrefixCache.retained (prefix_cache_ w)).
  { apply PrefixCache.elem_of_retained. split; [done|]. exists h, (PrefixCache.r_last_used r). by destruct r. }
  rewrite Hret in Hin. by apply not_elem_of_nil in Hin.
Qed.

End Run.

(** ** The scheduler as it is constructed *)

Section Scheduler.
Context {E : Type} `{IModelEngine E}.
Variable clock : nat → TimePoint.

(** The engine splits the prompt into so few tokens that prompt and response
    together are at most [K]. *)
Definition within (K : N) (spec : RequestSpec) : Prop :=
  ∀ e : E, len (tokenize e (Types.prompt spec) true).1 + max_tokens spec ≤ K.

(** How many blocks a table may hold: those of the request, and a shared prefix. *)
Definition table_limit (cfg : SchedulerConfig) (K : N) : N :=
  (if prefix_caching cfg then 2 else 1) * quota K (block_size cfg).

(** A scheduler that has just been built, whose requests, now or later, need at most
    [K] tokens, and whose sizes do not overflow 32 bits. *)
Record fresh (K : N) (w : t E) : Prop := mk_fresh {
  fresh_batch : 0 < max_batch_size (config_ w);
  fresh_bs : 0 < block_size (config_ w);
  fresh_K : K + block_size (config_ w) < 4294967296;
  fresh_width : max_batch_size (config_ w) * table_limit (config_ w) K
                  + quota K (block_size (config_ w)) * prefix_donors (config_ w)
                  + quota K (block_size (config_ w)) < 4294967296;
  fresh_pool : blocks_ w = BlockAllocator.make (kv_blocks (config_ w)) (block_size (config_ w));
  fresh_total : kv_blocks (config_ w) < 4294967296;
  fresh_cache : prefix_cache_ w = PrefixCache.configure_donors PrefixCache.empty
                  (Z.of_N (max_batch_size (config_ w))) (prefix_donors (config_ w));
  fresh_book : book w [];
  fresh_results : results_ (world_ w) = [];
  fresh_within : Forall (λ r, within K (req_spec r)) (incoming w) }.

(** The constructor builds such a scheduler: it clamps the batch, the donors and the
    block size, and fills in the pool size. *)
Lemma make_fresh K (engine : E) cap cfg v :
  let w := make engine (RequestQueue.make cap) cfg v in
  0 < max_batch_size cfg → max_batch_size (config_ w) < 2147483648 → kv_blocks cfg < 4294967296 →
  K + block_size (config_ w) < 4294967296 →
  max_batch_size (config_ w) * table_limit (config_ w) K
    + quota K (block_size (config_ w)) * prefix_donors (config_ w) + quota K (block_size (config_ w)) < 4294967296 →
  book w [] → results_ v = [] → Forall (λ r, within K (req_spec r)) (incoming w) → fresh K w.
Proof.
  intros w Hb Hb31 Hkv HK Hw B Hr Hin. subst w. unfold make in *. set (c := caps engine) in *.
  assert (Hbatch : 0 < (if (0 <? n_seq_max c) && (n_seq_max c <? max_batch_size cfg) then n_seq_max c
    else max_batch_size cfg)) by (split_ifs; bool_hyps; lia).
  set (batch := if _ && _ then _ else _) in *. replace (batch =? 0) with false in * by (symmetry; apply N.eqb_neq; lia).
  split; try done; cbn [config_ max_batch_size block_size kv_blocks prefix_donors prefix_cache_] in *.
  - by split_ifs; bool_hyps; lia.
  - destruct (kv_blocks cfg =? 0); [|done]. unfold sub32. set (b := if block_size cfg =? 0 then 16 else block_size cfg). set (x := N.add _ _).
    pose proof (N.Div0.div_le_upper_bound (wrap32 x) b (wrap32 x)). pose proof (wrap32_lt x).
    assert (0 < b) by (unfold b; split_ifs; bool_hyps; lia). nia.
  - rewrite to_i32_small; [done|lia].
Qed.

Lemma fresh_limits K w : fresh K w → Limits K (block_size (config_ w)) (table_limit (config_ w) K).
Proof.
  intros F. pose proof (fresh_K _ _ F). split; [apply F|lia|]. unfold table_limit. destruct (prefix_caching _); lia.
Qed.

Lemma fresh_share K (w : t E) :
  prefix_caching (config_ w) = true → 2 * quota K (block_size (config_ w)) ≤ table_limit (config_ w) K.
Proof. unfold table_limit. by intros ->. Qed.

(** The invariant at the parameters of a scheduler. *)
Local Notation orderly K w :=
  (tidy (K := K) (T := kv_blocks (config_ w)) (bs := block_size (config_ w)) (L := table_limit (config_ w) K)
    (donors := prefix_donors (config_ w)) (brief := within K) (config_ w)).

Lemma fresh_accounts K w : fresh K w → BlockAllocator.accounts (blocks_ w) [].
Proof.
  intros F. pose proof (fresh_K _ _ F). pose proof (fresh_total _ _ F). rewrite (fresh_pool _ _ F).
  apply BlockAllocator.make_accounts; lia.
Qed.

Lemma fresh_tidy K w : fresh K w → orderly K w (init w).
Proof.
  intros F. pose proof (fresh_limits K w F). pose proof (fresh_bs _ _ F).
  apply init_tidy; try apply F; try done; [|by eapply fresh_accounts|..]; rewrite ?(fresh_pool _ _ F); try done.
  - unfold reasoned. by rewrite (fresh_results _ _ F).
  - simpl. destruct (_ =? 0) eqn:E0; bool_hyps; lia.
Qed.

Lemma fresh_iterates K (w : t E) nb (l : Loop E) :
  fresh K w → rtc (iterates clock nb) (init w) l → orderly K w l.
Proof.
  intros F R. pose proof (fresh_limits K w F).
  exact (iterates_tidy (brief := within K) _ _ (λ _ Hs, Hs) (fresh_share K w) eq_refl (fresh_width _ _ F)
    (fresh_batch _ _ F) nb _ _ R (fresh_tidy K w F)).
Qed.

(** One iteration of the loop of a scheduler that was fresh. *)
Lemma fresh_iterate K (w : t E) nb (l : Loop E) :
  fresh K w → orderly K w l →
  match iterate clock nb l with
  | (None, l') =>
      orderly K w l' ∧ (closing (sched l) → closing (sched l')) ∧
      (0 < nb → max_batch_size (config_ w) * table_limit (config_ w) K
         + quota K (block_size (config_ w)) * prefix_donors (config_ w) ≤ kv_blocks (config_ w) →
       total_work (K := K) l' < total_work (K := K) l)
  | (Some (Threw what), _) => uncaught (E := E) what
  | (Some OutOfFuel, _) => False
  | (Some o, l') =>
      (closing (sched l) → o = Returned) ∧ accepted_promises (world_ (sched l')) ≡ₚ answered (world_ (sched l')) ∧
      (o = Returned → RequestQueue.closed_ (queue_ (sched l')) = true)
  end.
Proof.
  intros F Td. pose proof (fresh_limits K w F).
  pose proof (iterate_tidy (brief := within K) clock (config_ w) (λ _ Hs, Hs) (fresh_share K w) eq_refl (fresh_width _ _ F)
    (fresh_batch _ _ F) nb l Td) as It.
  pose proof (iterate_inv clock (config_ w) nb l (tidy_inv _ _ Td) (fresh_batch _ _ F)) as Ii.
  destruct (iterate clock nb l) as [[[| |what|]|] l']; try done; destruct It as (_ & _ & _ & It), Ii as (B & Hq & Hc);
    (split_and!; [|unfold book, queued in B; rewrite Hq in B; by rewrite !app_nil_r in B|done]); [done|by intros ?%It].
Qed.

(** C8: the key-value cache is safe in every configuration, under any pressure.
    Whatever the engine and the HTTP threads do, at the start of every iteration of the
    loop the pool counts, for each block, exactly the running tables, donors and leaked
    references it stands in.  So a block that a running sequence holds, or that a
    prefix hit would share, is never free: it cannot be handed out again while it is in
    use, and releasing a sequence never takes a block from another.  References do leak
    (a donor that is published over is forgotten), but the blocks of donors and leaks
    together are at most one prompt's worth for each donor slot. *)
Theorem cache_safe K (w : t E) nb (l : Loop E) :
  fresh K w → rtc (iterates clock nb) (init w) l →
  ∃ leaked,
    let a := blocks_ (sched l) in
    let idle := PrefixCache.retained_blocks (prefix_cache_ (sched l)) ++ leaked in
    let refs := tables (active l) ++ idle in
    (∀ id, BlockAllocator.refcount a id = occ id refs) ∧
    (∀ id, id ∈ refs → id < BlockAllocator.total_ a ∧ id ∉ BlockAllocator.free_list_ a) ∧
    (∀ h r b, PrefixCache.entries_ (prefix_cache_ (sched l)) !! h = Some r →
       b ∈ PrefixCache.e_blocks (PrefixCache.r_entry r) → b ∈ refs) ∧
    len idle ≤ quota K (block_size (config_ w)) * prefix_donors (config_ w).
Proof.
  intros F R. pose proof (fresh_limits K w F). pose proof (tidy_kv _ _ (fresh_iterates K w nb l F R)) as V.
  destruct (kv_pool _ _ _ _ V) as (strayed & A & St).
  pose proof (strays_len _ _ _ St (kv_capacity _ _ _ _ V) (λ e, retained_known _ _ _ _ e V)) as Hl.
  pose proof St as (leaked & lost & P & _). exists leaked. rewrite P in A. pose proof A as [W Hc]. split_and!.
  - apply A.
  - intros id Hin. apply occ_pos in Hin. rewrite <- Hc in Hin. rewrite (BlockAllocator.wf_free _ W).
    rewrite <- (BlockAllocator.refcount_at _ id W). split; [|lia].
    unfold BlockAllocator.refcount in Hin. destruct (_ <? _) eqn:Elt; bool_hyps; [done|lia].
  - intros h r b Hr Hb. rewrite <- P. eapply entry_referenced; [exact St|exact Hr| |done].
    apply (kv_entries _ _ _ _ V h r Hr).
  - unfold len in *. by rewrite P in Hl.
Qed.

(** Without donors, the pool accounts for the running sequences exactly.  At the
    start of every iteration each block's reference count is the number of tables of
    running sequences it stands in, no table holds more blocks than its request and a
    shared prefix can need, and every published prefix belongs to a running sequence
    whose table starts with its blocks.  When nothing runs every block is free. *)
Theorem cache_accounted K (w : t E) nb (l : Loop E) :
  fresh K w → prefix_donors (config_ w) = 0 → rtc (iterates clock nb) (init w) l →
  (∀ id, BlockAllocator.refcount (blocks_ (sched l)) id = occ id (tables (active l))) ∧
  BlockAllocator.used_blocks (blocks_ (sched l)) = len (remove_dups (tables (active l))) ∧
  (∀ j, j ∈ active l → len (held j) ≤ table_limit (config_ w) K) ∧
  (∀ h r, PrefixCache.entries_ (prefix_cache_ (sched l)) !! h = Some r →
     ∃ j, j ∈ active l ∧ job_seq j = PrefixCache.e_seq (PrefixCache.r_entry r) ∧
       PrefixCache.e_blocks (PrefixCache.r_entry r) `prefix_of` held j) ∧
  (active l = [] → BlockAllocator.free_blocks (blocks_ (sched l)) = kv_blocks (config_ w)).
Proof.
  intros F HD R. pose proof (fresh_limits K w F). pose proof (tidy_kv _ _ (fresh_iterates K w nb l F R)) as V.
  destruct (kv_exact _ _ _ _ V HD) as [A Hret]. split_and!.
  - apply A.
  - by apply BlockAllocator.used_blocks_distinct.
  - intros j Hj. pose proof (kv_jobs _ _ _ _ V) as Fj. rewrite Forall_forall in Fj. apply (Fj j Hj).
  - intros h r Hr. destruct (kv_entries _ _ _ _ V h r Hr) as [_ [Ht|(j & ? & ? & ? & _)]]; [|eauto].
    assert (Hin : PrefixCache.r_entry r ∈ PrefixCache.retained (prefix_cache_ (sched l))).
    { apply PrefixCache.elem_of_retained. split; [done|]. exists h, (PrefixCache.r_last_used r). by destruct r. }
    rewrite Hret in Hin. by apply not_elem_of_nil in Hin.
  - intros Ha. rewrite Ha in V. destruct (kvs_idle _ _ V HD) as (_ & -> & _). apply (kv_total _ _ _ _ V).
Qed.

(** C13: a prefix hit on a running sequence is sound up to hash collisions.  Whenever
    a prompt's longest cached prefix belongs to a running sequence rather than a donor,
    that sequence is still active on the slot the key-value cells will be copied from,
    its page table starts with the blocks that will be shared, it has submitted at
    least the tokens the hit stands for, and the prompts of both have the same hash over
    exactly those tokens. *)
Theorem hit_is_computed K (w : t E) nb (l : Loop E) tokens hit c' :
  fresh K w → rtc (iterates clock nb) (init w) l → len tokens < 4294967296 →
  PrefixCache.find_longest (prefix_cache_ (sched l)) tokens (block_size (config_ w)) = (Some hit, c') →
  PrefixCache.e_retained hit = false →
  ∃ j, j ∈ active l ∧ job_seq j = PrefixCache.e_seq hit ∧
    PrefixCache.e_blocks hit `prefix_of` held j ∧
    PrefixCache.e_n_tokens hit ≤ SequenceState.prefilled_ (job_state j) ∧
    PrefixCache.e_n_tokens hit ≤ len tokens ∧
    PrefixCache.hash_prefix (SequenceState.prompt_ (job_state j)) (PrefixCache.e_n_tokens hit)
      = PrefixCache.hash_prefix tokens (PrefixCache.e_n_tokens hit).
Proof.
  intros F R Hl Hf Hr. pose proof (tidy_kv _ _ (fresh_iterates K w nb l F R)) as V.
  pose proof (PrefixCache.find_longest_found (prefix_cache_ (sched l)) tokens _ (fresh_bs _ _ F) Hl) as Fo.
  rewrite Hf in Fo. destruct Fo as (k & u & Hk & Hn & Hh & _).
  destruct (kv_entries _ _ _ _ V _ _ Hh) as [_ [?|(j & Hj & B1 & B2 & B3 & B4)]]; [simpl in *; congruence|].
  exists j. simpl in *. rewrite Hn in *. split_and!; try done.
  pose proof (N.Div0.mul_div_le (len tokens) (block_size (config_ w))). nia.
Qed.

Lemma fresh_run K (w : t E) fuel :
  fresh K w →
  match run_continuous clock fuel w with
  | (Threw what, _) => uncaught (E := E) what
  | (OutOfFuel, _) =>
      0 < n_batch (caps (engine_ w)) →
      max_batch_size (config_ w) * table_limit (config_ w) K
        + quota K (block_size (config_ w)) * prefix_donors (config_ w) ≤ kv_blocks (config_ w) →
      N.of_nat fuel ≤ (K + 3) * len (incoming w)
  | (o, w') =>
      (prefix_donors (config_ w) = 0 →
       BlockAllocator.free_blocks (blocks_ w') = BlockAllocator.total_ (blocks_ w') ∧
       PrefixCache.entries_ (prefix_cache_ w') = ∅) ∧ reasoned w' ∧ (closing w → o = Returned)
  end.
Proof.
  intros F. pose proof (fresh_limits K w F). pose proof (fresh_tidy K w F) as Td. unfold run_continuous.
  pose proof (run_loop_tidy (brief := within K) clock (config_ w) (λ _ Hs, Hs) (fresh_share K w) eq_refl
    (fresh_width _ _ F) (fresh_batch _ _ F) fuel (n_batch (caps (engine_ w))) (init w) Td) as R.
  destruct (run_loop _ _ _ _) as [[] l']; simpl; try done.
  - destruct R as (V & Rs & Rc). split_and!; [|done|exact Rc]. intros HD. by destruct (kvs_idle _ _ V HD) as (_ & ? & ?).
  - destruct R as (V & Rs & Rc). split_and!; [|done|exact Rc]. intros HD. by destruct (kvs_idle _ _ V HD) as (_ & ? & ?).
  - intros Hnb Ha. specialize (R Hnb Ha).
    change (N.of_nat fuel ≤ (K + 3) * len (incoming w) + 0) in R. lia.
Qed.

(** Continuous batching gives back everything it took.  Without donors, whenever
    the run returns or waits for more work, and however often it preempted on the way,
    every block of the pool is free again, no prefix is published any more, and every
    request that was accepted has been answered with a set finish reason.  Only
    exceptions of [begin_sequence] and of the copy of a shared prefix leave the run. *)
Theorem run_returns_blocks K (w : t E) fuel :
  fresh K w → prefix_donors (config_ w) = 0 →
  match run_continuous clock fuel w with
  | (Threw what, _) => uncaught (E := E) what
  | (OutOfFuel, _) => True
  | (_, w') =>
      BlockAllocator.free_blocks (blocks_ w') = BlockAllocator.total_ (blocks_ w') ∧
      PrefixCache.entries_ (prefix_cache_ w') = ∅ ∧
      accepted_promises (world_ w') ≡ₚ answered (world_ w') ∧
      Forall (λ x, res_reason x.2 ≠ kUnset) (results_ (world_ w'))
  end.
Proof.
  intros F HD. pose proof (fresh_run K w fuel F) as R.
  pose proof (run_answers clock fuel w (fresh_book _ _ F) (fresh_batch _ _ F)) as A.
  destruct (run_continuous clock fuel w) as [[] w']; try done;
    destruct R as (R1 & R4 & _); destruct (R1 HD) as [R2 R3]; split_and!; try done; apply A; auto.
Qed.

Lemma run_continuous_ends K (w : t E) fuel :
  fresh K w → 0 < n_batch (caps (engine_ w)) →
  max_batch_size (config_ w) * table_limit (config_ w) K
    + quota K (block_size (config_ w)) * prefix_donors (config_ w) ≤ kv_blocks (config_ w) →
  (N.to_nat ((K + 3) * len (incoming w)) < fuel)%nat →
  match run_continuous clock fuel w with
  | (Threw what, _) => uncaught (E := E) what
  | (OutOfFuel, _) => False
  | (o, w') =>
      accepted_promises (world_ w') ≡ₚ answered (world_ w') ∧
      Forall (λ x, res_reason x.2 ≠ kUnset) (results_ (world_ w')) ∧
      (o = Returned → RequestQueue.closed_ (queue_ w') = true) ∧ (closing w → o = Returned)
  end.
Proof.
  intros F Hnb Ha Hfuel. pose proof (fresh_run K w fuel F) as R.
  pose proof (run_answers clock fuel w (fresh_book _ _ F) (fresh_batch _ _ F)) as A.
  destruct (run_continuous clock fuel w) as [[] w']; try done.
  - destruct R as (_ & R4 & R5), A as (A1 & A2). split_and!; auto.
  - destruct R as (_ & R4 & R5), A as (A1 & A2). split_and!; auto.
  - specialize (R Hnb Ha). lia.
Qed.

(** C6: continuous batching serves everything that comes and then stops, when the
    pool has room for a full batch and for the donors.  For a finite script of requests
    that need at most [K] tokens each, in a pool that holds [max_batch_size] tables of
    such requests and a prompt for every donor slot, at most [K + 3] iterations per
    request are enough: the loop ends.  It ends by returning once the queue is closed
    and drained, or, when nobody closes the queue, by waiting for ever; either way every
    accepted request has been answered exactly once, with a finish reason, whatever the
    engine throws while decoding.  Only exceptions of [begin_sequence] and of the copy
    of a shared prefix can end it otherwise. *)
Theorem continuous_serves_all K (w : t E) fuel :
  fresh K w → 0 < n_batch (caps (engine_ w)) →
  max_batch_size (config_ w) * table_limit (config_ w) K
    + quota K (block_size (config_ w)) * prefix_donors (config_ w) ≤ kv_blocks (config_ w) →
  (N.to_nat ((K + 3) * len (incoming w)) < fuel)%nat →
  match run_continuous clock fuel w with
  | (Threw what, _) => uncaught (E := E) what
  | (OutOfFuel, _) => False
  | (o, w') =>
      accepted_promises (world_ w') ≡ₚ answered (world_ w') ∧
      Forall (λ x, res_reason x.2 ≠ kUnset) (results_ (world_ w')) ∧
      (o = Returned → RequestQueue.closed_ (queue_ w') = true) ∧ (closing w → o = Returned)
  end.
Proof. apply run_continuous_ends. Qed.

End Scheduler.

(** ** Witnesses *)

(** Two requests with a common prefix; the second comes while the first runs. *)
Definition sharing : t MockModelEngine.t :=
  demo_sched (mkConfig 2 kContinuous 0 4 0 true 128)
    [[ASubmit (demo_req 1 "hello y" 6)]; []; [ASubmit (demo_req 2 "hello you" 4)]; [AClose]].

Lemma sharing_fresh : fresh 14 sharing.
Proof.
  split; try (vm_compute; reflexivity).
  vm_compute (incoming sharing). repeat constructor; intros e; vm_compute; discriminate.
Qed.

(** Under pressure: the requests of [preempted_stream_repeats], one of which is
    preempted, with prefix caching on. *)
Definition pressed : t MockModelEngine.t :=
  demo_sched (mkConfig 2 kContinuous 5 2 0 true 128)
    [[ASubmit (demo_req 1 "a" 7); ASubmit (demo_req 2 "a" 7)]; [AClose]].

Lemma pressed_fresh : fresh 9 pressed.
Proof.
  split; try (vm_compute; reflexivity).
  vm_compute (incoming pressed). repeat constructor; intros e; vm_compute; discriminate.
Qed.

(** The loop after [n] iterations. *)
Definition after {E : Type} `{IModelEngine E} (n : nat) (w : t E) : Loop E :=
  Nat.iter n (λ l, (iterate demo_clock 16 l).2) (init w).

Lemma after_reached {E : Type} `{IModelEngine E} n (w : t E) :
  Forall (λ i, (iterate demo_clock 16 (after i w)).1 = None) (seq 0 n) →
  rtc (iterates demo_clock 16) (init w) (after n w).
Proof.
  induction n as [|n IH]; intros F; [apply rtc_refl|]. rewrite seq_S in F. apply Forall_app in F as [F1 F2].
  apply Forall_cons in F2 as [F2 _]. eapply rtc_r; [by apply IH|]. unfold iterates, after in *. simpl in *.
  rewrite <- F2. apply surjective_pairing.
Qed.

(** After two iterations the second sequence holds its own blocks and the two it
    shares with the first. *)
Lemma cache_accounted_witness :
  let l := after 2 sharing in
  length (active l) = 2%nat ∧
  (∀ id, BlockAllocator.refcount (blocks_ (sched l)) id = occ id (tables (active l))) ∧
  BlockAllocator.refcount (blocks_ (sched l)) 0 = 2.
Proof.
  intros l. destruct (cache_accounted demo_clock 14 sharing 16 l sharing_fresh eq_refl) as (H1 & _).
  - apply after_reached. repeat constructor; vm_compute; reflexivity.
  - split_and!; [vm_compute; reflexivity|exact H1|]. rewrite H1. vm_compute. reflexivity.
Defined.

Lemma run_returns_blocks_witness :
  let r := run_continuous demo_clock 40 pressed in
  r.1 = Returned ∧ stats_ r.2 preemptions = 1 ∧
  BlockAllocator.free_blocks (blocks_ r.2) = BlockAllocator.total_ (blocks_ r.2) ∧
  accepted_promises (world_ r.2) ≡ₚ answered (world_ r.2).
Proof.
  intros r. assert (Hr : r.1 = Returned) by (vm_compute; reflexivity).
  assert (Hp : stats_ r.2 preemptions = 1) by (vm_compute; reflexivity).
  pose proof (run_returns_blocks demo_clock 9 pressed 40 pressed_fresh eq_refl) as R. fold r in R.
  destruct r as [o w']. simpl in Hr, Hp. subst o. destruct R as (R1 & _ & R3 & _). split_and!; done.
Defined.

Lemma continuous_serves_all_witness :
  let r := run_continuous demo_clock 40 sharing in
  r.1 = Returned ∧ stats_ r.2 prefix_hits = 1 ∧ accepted_promises (world_ r.2) ≡ₚ answered (world_ r.2).
Proof.
  intros r. assert (Hr : r.1 = Returned) by (vm_compute; reflexivity).
  assert (Hp : stats_ r.2 prefix_hits = 1) by (vm_compute; reflexivity).
  pose proof (continuous_serves_all demo_clock 14 sharing 40 sharing_fresh) as R. fold r in R.
  destruct r as [o w']. simpl in Hr, Hp. subst o. destruct R as (R1 & _).
  - vm_compute. reflexivity.
  - vm_compute. discriminate.
  - vm_compute. lia.
  - split_and!; done.
Defined.

(** Two requests with the same prompt, the second long after the first: donors are
    kept, and publishing over one leaks its blocks. *)
Definition retaining : t MockModelEngine.t :=
  demo_sched (mkConfig 2 kContinuous 0 4 2 true 128)
    [[ASubmit (demo_req 1 "hello y" 2)]; []; []; []; []; [ASubmit (demo_req 2 "hello y" 2)]; []; []; []].

Lemma retaining_fresh : fresh 14 retaining.
Proof.
  split; try (vm_compute; reflexivity).
  vm_compute (incoming retaining). repeat constructor; intros e; vm_compute; discriminate.
Qed.

(** Nothing runs any more: two blocks belong to the donor, two have leaked. *)
Lemma cache_safe_witness :
  let l := after 5 retaining in
  active l = [] ∧ PrefixCache.retained_blocks (prefix_cache_ (sched l)) = [3; 4] ∧
  BlockAllocator.free_blocks (blocks_ (sched l)) = 12 ∧
  ∃ leaked, ∀ id, BlockAllocator.refcount (blocks_ (sched l)) id = occ id ([3; 4] ++ leaked).
Proof.
  intros l. assert (Ha : active l = []) by (vm_compute; reflexivity).
  assert (Hr : PrefixCache.retained_blocks (prefix_cache_ (sched l)) = [3; 4]) by (vm_compute; reflexivity).
  destruct (cache_safe demo_clock 14 retaining 16 l retaining_fresh) as (leaked & H1 & _).
  - apply after_reached. repeat constructor; vm_compute; reflexivity.
  - split_and!; [done|done|vm_compute; reflexivity|]. exists leaked. rewrite Ha, Hr in H1. exact H1.
Defined.

(** The second request would share the two blocks that the first, still running,
    published. *)
Lemma hit_is_computed_witness :
  let l := after 1 sharing in
  ∃ j, j ∈ active l ∧ job_seq j = 0%Z ∧ 8 ≤ SequenceState.prefilled_ (job_state j).
Proof.
  intros l. set (tokens := (tokenize demo_engine (str "hello you") true).1).
  destruct (hit_is_computed demo_clock 14 sharing 16 l tokens
    (PrefixCache.mkEntry 0%Z 8 [0; 1] false)
    (PrefixCache.find_longest (prefix_cache_ (sched l)) tokens (block_size (config_ sharing))).2) as (j & H1 & H2 & _ & H4 & _).
  - exact sharing_fresh.
  - apply after_reached. repeat constructor; vm_compute; reflexivity.
  - vm_compute. reflexivity.
  - vm_compute. reflexivity.
  - reflexivity.
  - exists j. split_and!; [exact H1|exact H2|exact H4].
Defined.
