(* ===== verification/PrefixFaults.v ===== *)
(** Defects of prefix sharing and retention.

    A hit on a whole prompt is copied one token further than the sequence adopts, for
    every engine ([whole_hit_resubmits_last]).  The other two are runs of the whole
    scheduler, kept as examples: [Faulty] is an engine whose first decodes fail; it
    records the batches that were really computed.  The runs show a prefix served that
    no decode ever computed, and a prompt that is asked again and again using up the
    donors. *)
From Stdlib Require Import Lia.
From stdpp Require Import base list gmap strings.
From S2P Require Import Prelude Types Blocks Tables Prefix Timing Engine Sinks Sequence Mock Queue Scheduler Continuous Static Demo Conservation Batching Pressure StaticRun KvAccounting ContinuousRun.

Local Open Scope N_scope.

Import Scheduler Continuous.

(** ** A hit on a whole prompt *)

Section Engine.
Context {E : Type} `{IModelEngine E}.

(** C37: a hit on a whole prompt submits the last token twice.  A prompt that is a whole
    number of blocks can be found in the cache as it is.  [share_prefix] then asks the
    engine to copy all its positions, but the sequence adopts all but the last: so the
    next item of the sequence, whatever the budget, is the last token of the prompt at
    the last position, where the copy has already put it. *)
Theorem whole_hit_resubmits_last (w : t E) job hit c e tok :
  let prompt := SequenceState.prompt_ (job_state job) in
  prefix_caching (config_ w) = true → job_finished job = false → len prompt < 2147483648 → last prompt = Some tok →
  PrefixCache.find_longest (prefix_cache_ w) prompt (BlockAllocator.block_size (blocks_ w)) = (Some hit, c) →
  PrefixCache.e_n_tokens hit = len prompt → PrefixCache.e_seq hit ≠ job_seq job →
  copy_sequence (engine_ w) (PrefixCache.e_seq hit) (job_seq job) (Z.of_N (len prompt)) = (Ok tt, e) →
  ∃ job' w', share_prefix w job = (Ok job', w') ∧ engine_ w' = e ∧ job_prefilling job' = true ∧
    ∀ budget, 0 < budget →
      (SequenceState.take_prefill_chunk (job_state job') budget).1
        = mkItem (job_seq job) [tok] (Z.of_N (len prompt) - 1)%Z true.
Proof.
  intros prompt Hc Hf Hlen Hlast Hfind Hn Hs Hcopy. unfold share_prefix. rewrite Hc, Hf. cbn [andb negb]. fold prompt.
  rewrite Hfind, (proj2 (Z.eqb_neq _ _) Hs), Hn, to_i32_small by done. simpl. rewrite Hcopy.
  destruct (BlockTable.adopt_shared_prefix _ _ _ _) as [a tb]. eexists _, _. split; [done|]. split; [done|].
  assert (Hp : prompt = removelast prompt ++ [tok]).
  { clear -Hlast. induction prompt as [|x p IH]; [done|]. destruct p as [|y p]; [by injection Hlast as ->|]. cbn [removelast]. rewrite <- app_comm_cons. f_equal. by apply IH. }
  assert (Hl : len prompt = len (removelast prompt) + 1) by (rewrite Hp at 1; rewrite len_app; done).
  assert (Hpre : SequenceState.prefilled_ (SequenceState.adopt_cached_prefix (job_state job) (len prompt)) = len prompt - 1).
  { unfold SequenceState.adopt_cached_prefix. simpl. fold prompt. destruct (len prompt =? 0) eqn:E0; bool_hyps; lia. }
  unfold job_prefilling, SequenceState.prefilling, SequenceState.take_prefill_chunk, SequenceState.prefill_remaining.
  cbn [job_state set_state]. rewrite Hpre. simpl. fold prompt. split; [apply N.ltb_lt; lia|]. intros budget Hb.
  replace (N.min budget _) with 1 by lia. rewrite to_i32_small by lia.
  replace (len prompt - (len prompt - 1 + 1) =? 0) with true by (symmetry; apply N.eqb_eq; lia). f_equal; [|lia].
  assert (Hd : drop (N.to_nat (len prompt - 1)) prompt = [tok]).
  { rewrite Hp at 2. replace (N.to_nat (len prompt - 1)) with (length (removelast prompt)) by (unfold len in *; lia). apply drop_app_length. }
  by rewrite Hd.
Qed.

End Engine.

(** ** Runs *)

(** A mock engine whose first [f_failures] decodes throw, and the items of the decodes
    that succeeded. *)
Record Faulty := mkFaulty {
  f_engine : MockModelEngine.t;
  f_failures : nat;
  f_computed : list BatchItem }.

Definition lift {A} (f : Faulty) (r : A * MockModelEngine.t) : A * Faulty :=
  (r.1, mkFaulty r.2 (f_failures f) (f_computed f)).

Definition faulty_decode (f : Faulty) (items : list BatchItem) : res (list GenStep) * Faulty :=
  match f_failures f with
  | S n => (Throw (str "decode failed"), mkFaulty (f_engine f) n (f_computed f))
  | O =>
      let (r, e) := decode (f_engine f) items in
      (r, mkFaulty e O (f_computed f ++ items))
  end.

#[export] Instance faulty_engine : IModelEngine Faulty := {
  caps := λ f, caps (f_engine f);
  tokenize := λ f s b, lift f (tokenize (f_engine f) s b);
  piece := λ f tok, lift f (piece (f_engine f) tok);
  begin_sequence := λ f s p, lift f (begin_sequence (f_engine f) s p);
  decode := faulty_decode;
  release_sequence := λ f s, mkFaulty (release_sequence (f_engine f) s) (f_failures f) (f_computed f);
  copy_sequence := λ f src dst n, lift f (copy_sequence (f_engine f) src dst n) }.

(** The first decode fails; the same prompt comes again afterwards. *)
Definition failing : t Faulty :=
  make (mkFaulty demo_engine 1 []) (RequestQueue.make 8) (mkConfig 2 kContinuous 0 4 2 true 128)
    (demo_env [[ASubmit (demo_req 1 "hello y" 2)]; []; [ASubmit (demo_req 2 "hello y" 2)]; []; [AClose]]).

Definition reasons {E} (w : t E) : list FinishReason := (λ x, res_reason x.2) <$> results_ (world_ w).

(** A prefix that was never computed is served.  The first decode fails, so the
    first request is answered with an error; its prompt is retained nevertheless.  The
    same prompt then hits the donor, skips eight tokens of prefill and is answered as if
    nothing had happened, although every item that any decode computed starts at
    position 7 or later: nobody ever computed the first seven positions. *)
Example failed_prefill_is_shared :
  let (o, w) := run_continuous demo_clock 40 failing in
  o = Returned ∧ reasons w = [kError; kMaxTokens] ∧
  stats_ w prefix_hits = 1 ∧ stats_ w prefix_tokens_saved = 8 ∧
  f_computed (engine_ w) ≠ [] ∧
  Forall (λ i, (7 ≤ item_pos0 i)%Z) (f_computed (engine_ w)).
Proof. vm_compute. split_and!; [done..|]. repeat constructor; done. Qed.

(** The same prompt [n] times, each time after the one before has been answered. *)
Definition repeating (n : nat) : t MockModelEngine.t :=
  demo_sched (mkConfig 2 kContinuous 0 4 2 true 128)
    (concat ((λ i, [[ASubmit (demo_req (N.of_nat i) "hello y" 2)]; []; []; []; []; []; []; []]) <$> seq 1 n)).

(** The prompt has been answered and retained; it is asked again in slot 0. *)
Definition retained_once : t MockModelEngine.t := (run_continuous demo_clock 20 (repeating 1)).2.
Definition asked_again : Job :=
  match make_job retained_once (demo_req 2 "hello y" 2) 0%Z with
  | (Ok j, _) => j
  | (Throw _, _) => demo_job 0 "hello y" []
  end.
Definition its_hit : PrefixCache.Entry := PrefixCache.mkEntry 2%Z 8 [0; 1] true.

Lemma its_hit_found :
  (PrefixCache.find_longest (prefix_cache_ retained_once) (SequenceState.prompt_ (job_state asked_again))
     (BlockAllocator.block_size (blocks_ retained_once))).1 = Some its_hit.
Proof. vm_compute. reflexivity. Qed.

Lemma its_hit_copied :
  (copy_sequence (engine_ retained_once) (PrefixCache.e_seq its_hit) (job_seq asked_again)
     (Z.of_N (len (SequenceState.prompt_ (job_state asked_again))))).1 = Ok tt.
Proof. vm_compute. reflexivity. Qed.

Lemma whole_hit_resubmits_last_witness :
  ∃ job' w', share_prefix retained_once asked_again = (Ok job', w') ∧ job_prefilling job' = true ∧
    (SequenceState.take_prefill_chunk (job_state job') 16).1 = mkItem 0%Z [121%Z] 7%Z true.
Proof.
  assert (H1 : prefix_caching (config_ retained_once) = true) by (vm_compute; reflexivity).
  assert (H2 : job_finished asked_again = false) by (vm_compute; reflexivity).
  assert (H3 : len (SequenceState.prompt_ (job_state asked_again)) = 8) by (vm_compute; reflexivity).
  assert (H4 : last (SequenceState.prompt_ (job_state asked_again)) = Some 121%Z) by (vm_compute; reflexivity).
  assert (H5 : job_seq asked_again = 0%Z) by (vm_compute; reflexivity).
  assert (H6 : PrefixCache.e_seq its_hit ≠ job_seq asked_again) by (rewrite H5; discriminate).
  assert (H7 : len (SequenceState.prompt_ (job_state asked_again)) < 2147483648) by (rewrite H3; reflexivity).
  destruct (whole_hit_resubmits_last retained_once asked_again its_hit _ _ _ H1 H2 H7 H4
              (pair_first _ _ its_hit_found) (eq_sym H3) H6 (pair_first _ _ its_hit_copied))
    as (job' & w' & R1 & _ & R2 & R3).
  exists job', w'. rewrite H3, H5 in R3. exact (conj R1 (conj R2 (R3 16 eq_refl))).
Defined.

(** The requests answered, the donors left, the slots counted as used, the free blocks
    and the hits so far. *)
Definition donors_after (n : nat) : nat * nat * N * N * N :=
  let w := (run_continuous demo_clock 100 (repeating n)).2 in
  (length (answered (world_ w)), length (PrefixCache.retained (prefix_cache_ w)),
   PrefixCache.donors_held (prefix_cache_ w), BlockAllocator.free_blocks (blocks_ w), stats_ w prefix_hits).

(** A prompt that is asked repeatedly uses up the donors
    ([PrefixCache.insert_over_donor_leaks]).  Each time it hits its
    donor, the sequence publishes the prompt again over the donor's record, which loses
    the donor's slot and two blocks for good.  After the third time both slots count as
    held although no donor exists, four of the sixteen blocks are unusable while
    nothing runs, and the prompt never hits again. *)
Example repeated_prompt_exhausts_donors :
  BlockAllocator.total_ (blocks_ (repeating 0)) = 16 ∧
  donors_after <$> seq 1 8 =
    [(1%nat, 1%nat, 1, 14, 0); (2%nat, 1%nat, 2, 12, 1); (3%nat, 0%nat, 2, 12, 2);
     (4%nat, 0%nat, 2, 12, 2); (5%nat, 0%nat, 2, 12, 2); (6%nat, 0%nat, 2, 12, 2);
     (7%nat, 0%nat, 2, 12, 2); (8%nat, 0%nat, 2, 12, 2)].
Proof. split; vm_compute; reflexivity. Qed.
