(* ===== verification/Serve.v ===== *)
(** The server as a whole: [serve] of [src/http/server.cpp].

    [serve] starts the scheduler on a thread of its own, lets the HTTP handlers run
    until the library stops listening, closes the queue and joins the thread.  The
    scheduler's theorems are about a script of actions of HTTP threads
    ([Scheduler.EnvAction]); the first part shows that this is what the handlers of
    [Server] do.  The second part runs the scheduler [serve] builds on any such script,
    followed by the close, and shows that the join returns.  The third is the protocol
    by which the threads shut down, with the loop of the scheduler as one of them. *)
From Stdlib Require Import Permutation Lia.
From stdpp Require Import base list gmap strings.
From S2P Require Import Prelude Types Blocks Tables Prefix Timing Engine Sinks Sequence Mock Generator Queue Scheduler Continuous Static Demo Conservation Batching Pressure StaticRun LlamaEngine HttpApi Server KvAccounting ContinuousRun.

Local Open Scope N_scope.

Import Scheduler.

(** ** The handlers are the scheduler's environment *)

(** What an action does to the queue and to the cancellation flags. *)
Definition env_queue (q : RequestQueue.t) (a : EnvAction) : RequestQueue.t :=
  match a with
  | ASubmit r => (RequestQueue.try_push q r).2
  | AClose => RequestQueue.close q
  | ACancel _ => q
  end.

Definition env_flags (m : Flags) (a : EnvAction) : Flags :=
  match a with ACancel f => store m f true | _ => m end.

Lemma act_env {E} (w : t E) a :
  queue_ (act w a) = env_queue (queue_ w) a ∧ flags_ (world_ (act w a)) = env_flags (flags_ (world_ w)) a.
Proof. destruct a; simpl; [|done..]. by destruct (RequestQueue.try_push _ _). Qed.

Lemma load_store m (f f' : N) b : load (store m f b) f' = if decide (f' = f) then b else load m f'.
Proof.
  unfold load, store, Flags in *. destruct (decide (f' = f)) as [->|Hn]; [by rewrite lookup_insert_eq|].
  by rewrite lookup_insert_ne.
Qed.

Section Handlers.
Context {J : Type} `{HJ : Json J}.
Import Server.

(** Only flags that have been handed out are set. *)
Definition flags_used (s : Shared) : Prop := ∀ f, load (sv_flags s) f = true → f < sv_next_addr s.

(** [does s acts s']: for the scheduler, the change from [s] to [s'] is [acts]. *)
Definition does (s : Shared) (acts : list EnvAction) (s' : Shared) : Prop :=
  sv_queue s' = fold_left env_queue acts (sv_queue s) ∧
  (∀ f, load (sv_flags s') f = load (fold_left env_flags acts (sv_flags s)) f) ∧
  sv_next_addr s ≤ sv_next_addr s' ∧ flags_used s' ∧
  ∀ r, ASubmit r ∈ acts → req_result r = sv_next_addr s ∧ req_cancel r = sv_next_addr s.

Lemma does_nothing s s' :
  flags_used s → sv_queue s' = sv_queue s → sv_flags s' = sv_flags s → sv_next_addr s' = sv_next_addr s →
  does s [] s'.
Proof.
  intros Hu Hq Hf Ha. unfold does, flags_used. rewrite Hq, Hf, Ha. split_and!; try done.
  intros r Hr. by apply not_elem_of_nil in Hr.
Qed.

Lemma does_cancel s s' a :
  flags_used s → a < sv_next_addr s → sv_queue s' = sv_queue s → sv_flags s' = sv_flags s →
  sv_next_addr s' = sv_next_addr s → does s [ACancel a] (cancel s' a).
Proof.
  intros Hu Hlt Hq Hf Ha. unfold does, flags_used. simpl. rewrite Hq, Hf, Ha. split_and!; try done.
  - intros f. rewrite load_store. case_decide; [by subst|apply Hu].
  - intros r Hr. by apply list_elem_of_singleton in Hr.
Qed.

Lemma does_submit s s0 now spec sink :
  flags_used s → sv_queue s0 = sv_queue s → sv_flags s0 = sv_flags s → sv_next_addr s0 = sv_next_addr s →
  let (r, s1) := new_request s0 now spec sink in
  does s [ASubmit r] (set_queue s1 (RequestQueue.try_push (sv_queue s1) r).2).
Proof.
  intros Hu Hq Hf Ha. unfold new_request, does, flags_used. simpl. rewrite Hq, Hf, Ha. split_and!; try done.
  - intros f. rewrite load_store. case_decide as Hc; [|done]. subst f.
    destruct (load (sv_flags s) _) eqn:El; [|done]. apply Hu in El. lia.
  - lia.
  - intros f. rewrite load_store. case_decide; [done|]. intros ?%Hu. lia.
  - intros r Hr. apply list_elem_of_singleton in Hr. by injection Hr as ->.
Qed.

Lemma generate_does s now body : flags_used s → ∃ acts, does s acts (generate s now body).2.
Proof.
  intros Hu. unfold generate. destruct (HttpApi.parse_generate_request body) as [spec|m|what];
    [|exists []; by apply does_nothing..].
  pose proof (does_submit s s now spec None Hu eq_refl eq_refl eq_refl) as D.
  destruct (new_request s now spec None) as [r s1]. destruct (RequestQueue.try_push _ _) as [ok q].
  exists [ASubmit r]. by destruct ok.
Qed.

Lemma generate_stream_does s now body : flags_used s → ∃ acts, does s acts (generate_stream s now body).2.
Proof.
  intros Hu. unfold generate_stream. destruct (HttpApi.parse_generate_request body) as [spec|m|what];
    [|exists []; by apply does_nothing..].
  set (s0 := set_sinks _ _). pose proof (does_submit s s0 now spec (Some (sv_next_addr s)) Hu eq_refl eq_refl eq_refl) as D.
  destruct (new_request s0 now spec _) as [r s1]. destruct (RequestQueue.try_push _ _) as [ok q].
  exists [ASubmit r]. by destruct ok.
Qed.

Lemma generate_poll_does c s id a closed :
  flags_used s → a < sv_next_addr s → ∃ acts, does s acts (generate_poll c s id a closed).2.
Proof.
  intros Hu Ha. unfold generate_poll, generate_finish. destruct (sv_results s !! a) as [x|].
  - exists []. destruct (log_requests c); [destruct (HttpApi.make_request_log id x)|]; by apply does_nothing.
  - simpl. destruct (_ || _); [exists [ACancel a]; by apply does_cancel|exists []; by apply does_nothing].
Qed.

Lemma provide_does s a written ok :
  flags_used s → a < sv_next_addr s → ∃ acts, does s acts (provide s a written ok).2.
Proof.
  intros Hu Ha. unfold provide.
  assert (Hn : ∀ s', sv_queue s' = sv_queue s → sv_flags s' = sv_flags s → sv_next_addr s' = sv_next_addr s →
    ∃ acts, does s acts s') by (intros; exists []; by apply does_nothing).
  assert (Hc : ∀ s', sv_queue s' = sv_queue s → sv_flags s' = sv_flags s → sv_next_addr s' = sv_next_addr s →
    ∃ acts, does s acts (cancel s' a)) by (intros; exists [ACancel a]; by apply does_cancel).
  destruct (sv_sinks s !! a) as [k|]; [|by apply Hn]. destruct (StreamingSink.next k) as [[ev k']|]; [|by apply Hn].
  destruct (negb _).
  - destruct (HttpApi.make_stream_delta _); [|by apply Hn]. destruct (negb ok); [by apply Hc|]. simpl.
    destruct (sv_shutting_down s); [by apply Hc|by apply Hn].
  - destruct (final_body ev); by apply Hn.
Qed.

Lemma open_below y i h a : sys_inv y → handlers y !! i = Some h → open_addr h = Some a → a < sv_next_addr (sh y).
Proof.
  intros I Hi Ho. eapply about_open; [done| |done]. eapply (proj1 (Forall_forall _ _) (i_about _ I)).
  by eapply list_elem_of_lookup_2.
Qed.

Lemma sstep_does c y y' :
  sstep c y y' → sys_inv y → flags_used (sh y) →
  flags_used (sh y') ∧ (taken y' = taken y → ∃ acts, does (sh y) acts (sh y')).
Proof.
  intros St I Hu. assert (G : (∃ acts, does (sh y) acts (sh y')) →
    flags_used (sh y') ∧ (taken y' = taken y → ∃ acts, does (sh y) acts (sh y')))
    by (intros (acts & Hd); split; [apply Hd|eauto]).
  destruct St as [y now body h s E|y now body h s E|y i id a closed h s Hi E|y i a w ok h s Hi E
    |y|y r q E|y r x Hr Hn|y r a k cl Hr Ha Hk|y]; simpl in *.
  - apply G. pose proof (generate_does (sh y) now body Hu) as D. by rewrite E in D.
  - apply G. pose proof (generate_stream_does (sh y) now body Hu) as D. by rewrite E in D.
  - apply G. pose proof (generate_poll_does c (sh y) id a closed Hu (open_below y i _ a I Hi eq_refl)) as D.
    by rewrite E in D.
  - apply G. pose proof (provide_does (sh y) a w ok Hu (open_below y i _ a I Hi eq_refl)) as D. by rewrite E in D.
  - apply G. exists []. by apply does_nothing.
  - split; [done|]. intros Ht. apply (f_equal length) in Ht. rewrite length_app in Ht. simpl in Ht. lia.
  - apply G. exists []. by apply does_nothing.
  - apply G. exists []. by apply does_nothing.
  - apply G. exists [AClose]. split_and!; try done. intros r Hr. by apply list_elem_of_singleton in Hr.
Qed.

Lemma reachable_used c y : rtc (sstep c) (mkSys (start c) [] []) y → flags_used (sh y).
Proof.
  assert (G : ∀ a b, rtc (sstep c) a b → sys_inv a → flags_used (sh a) → flags_used (sh b)).
  { induction 1 as [|a b z St _ IH]; [done|]. intros I Hu.
    apply IH; [by eapply sstep_inv|by apply (sstep_does c a b)]. }
  intros R. apply (G _ _ R); [apply start_inv|]. intros f Hf. discriminate Hf.
Qed.

(** C21: the scheduler sees the HTTP threads exactly as its theorems assume.  In every
    state the server can reach, every step of a handler, of the signal watcher and of
    the main thread changes what the scheduler reads (the queue and the cancellation
    flags) as some sequence of the actions submit, cancel and close does, and a request
    that is submitted comes with a promise and a flag that nobody has used before.
    Only the scheduler itself takes requests out of the queue. *)
Theorem handlers_are_environment c y y' :
  rtc (sstep c) (mkSys (start c) [] []) y → sstep c y y' → taken y' = taken y →
  ∃ acts,
    sv_queue (sh y') = fold_left env_queue acts (sv_queue (sh y)) ∧
    (∀ f, load (sv_flags (sh y')) f = load (fold_left env_flags acts (sv_flags (sh y))) f) ∧
    ∀ r, ASubmit r ∈ acts →
      req_result r ∉ req_result <$> submitted y ∧ req_cancel r = req_result r ∧
      load (sv_flags (sh y)) (req_cancel r) = false.
Proof.
  intros R St Ht. pose proof (reachable_inv c y R) as I. pose proof (reachable_used c y R) as Hu.
  destruct (sstep_does c y y' St I Hu) as [_ (acts & D1 & D2 & _ & _ & D5)]; [done|].
  exists acts. split_and!; [done..|]. intros r Hr. destruct (D5 r Hr) as [-> ->]. split_and!; [|done|].
  - intros (x & Hx & Hin)%list_elem_of_fmap. destruct (proj1 (Forall_forall _ _) (i_fresh _ I) x Hin) as [Hlt _]. lia.
  - destruct (load _ _) eqn:El; [|done]. apply Hu in El. lia.
Qed.

End Handlers.

(** ** The worker thread *)

(** An engine that never throws when a sequence is registered or copied. *)
Class Calm (E : Type) `{IModelEngine E} : Prop := {
  calm_begin (e : E) seq params : (begin_sequence e seq params).1 = Ok tt;
  calm_copy (e : E) src dst n : (copy_sequence e src dst n).1 = Ok tt }.

#[export] Instance mock_calm : Calm MockModelEngine.t.
Proof.
  split; [done|]. intros e src dst n. simpl. unfold MockModelEngine.copy_sequence.
  destruct (_ || _); [done|]. by destruct (MockModelEngine.sequences_ e !! src), (MockModelEngine.sequences_ e !! dst).
Qed.

#[export] Instance llama_calm {M V C S} `{LlamaApi M V C S} : Calm (LlamaModelEngine.t M V C S).
Proof.
  split; [done|]. intros e src dst n. simpl. unfold LlamaModelEngine.copy_sequence. by destruct (_ || _).
Qed.

Lemma calm_caught {E} `{Calm E} what : ¬ uncaught (E := E) what.
Proof.
  intros [(e & e' & q & p & Hb)|(e & e' & src & dst & n & Hc)].
  - pose proof (calm_begin e q p) as G. by rewrite Hb in G.
  - pose proof (calm_copy e src dst n) as G. by rewrite Hc in G.
Qed.

Section Serve.
Context {E : Type} `{IModelEngine E}.
Variable clock : nat → TimePoint.

(** The scheduler [serve] starts, with what the HTTP threads will do: their actions
    while the library listens, then [queue.close()].  [sinks] holds the streaming sinks
    the handlers create. *)
Definition worker (engine : E) (c : Server.ServerConfig) (sinks : gmap N Sink) (n_sinks : SinkId)
    (actions : list (list EnvAction)) : t E :=
  make engine (RequestQueue.make (Server.max_queue_depth c)) (Server.scheduler_config c)
    (mkWorld (actions ++ [[AClose]]) ∅ sinks n_sinks 0 0 [] []).

Lemma worker_closing engine c sinks n acts : closing (worker engine c sinks n acts).
Proof. right. simpl. rewrite concat_app. simpl. apply elem_of_app. right. by apply list_elem_of_singleton. Qed.

Lemma worker_book engine c sinks n acts : book (worker engine c sinks n acts) [].
Proof. unfold book. reflexivity. Qed.

(** A server whose requests need at most [K] tokens each, and whose pool has room for a
    full batch of them and the donors. *)
Record servable (K : N) (engine : E) (c : Server.ServerConfig) (sinks : gmap N Sink) (n : SinkId)
    (acts : list (list EnvAction)) : Prop := mk_servable {
  sv_batch : 0 < Server.max_batch_size c;
  sv_n_batch : 0 < n_batch (caps engine);
  sv_pool : Server.kv_blocks c < 4294967296;
  sv_sizes : let w := worker engine c sinks n acts in
    max_batch_size (config_ w) < 2147483648 ∧ K + block_size (config_ w) < 4294967296 ∧
    max_batch_size (config_ w) * table_limit (config_ w) K
      + quota K (block_size (config_ w)) * prefix_donors (config_ w) + quota K (block_size (config_ w)) < 4294967296;
  sv_room : let w := worker engine c sinks n acts in
    max_batch_size (config_ w) * table_limit (config_ w) K
      + quota K (block_size (config_ w)) * prefix_donors (config_ w) ≤ kv_blocks (config_ w);
  sv_requests : Forall (λ r, within (E := E) K (req_spec r)) (incoming (worker engine c sinks n acts)) }.

Lemma servable_fresh K engine c sinks n acts :
  servable K engine c sinks n acts → fresh K (worker engine c sinks n acts).
Proof. intros [B1 _ B2 (S1 & S2 & S3) _ R]. apply make_fresh; try done; apply worker_book. Qed.

(** C7: the server shuts down, with everybody answered.  Take a server whose requests
    need at most [K] tokens each and whose pool has room for a full batch of them and a
    prompt per donor ([servable]; in a smaller pool preemption may go on for ever, see
    [Pressure.preemption_thrashes]).  Whatever the HTTP threads submitted and cancelled
    before the library stopped listening, once [serve] has closed the queue the scheduler
    thread returns, in either batching mode: the join ends, every request that was
    accepted has been answered exactly once, and the queue is closed.  This needs an
    engine that does not throw when it registers or copies a sequence, as the llama.cpp
    engine and the mock engine do not; an exception there would leave the thread and
    terminate the process. *)
Theorem serve_joins `{!Calm E} K engine c sinks n acts fuel steps :
  servable K engine c sinks n acts →
  let w := worker engine c sinks n acts in
  (N.to_nat ((K + 3) * len (incoming w)) < fuel)%nat → (N.to_nat K + 2 ≤ steps)%nat →
  ∃ w', Static.run clock fuel steps w = (Returned, w') ∧
    accepted_promises (world_ w') ≡ₚ answered (world_ w') ∧ RequestQueue.closed_ (queue_ w') = true.
Proof.
  intros Sv w Hfuel Hsteps. pose proof (servable_fresh _ _ _ _ _ _ Sv) as F. fold w in F.
  pose proof (worker_closing engine c sinks n acts) as Hc. fold w in Hc.
  unfold Static.run. destruct (mode (config_ w)).
  - pose proof (run_static_ends clock fuel steps K w []) as R.
    destruct (Static.run_static clock fuel steps w) as [o w']. assert (Hk : K < 4294967296) by (pose proof (fresh_K _ _ F); lia).
    assert (Hm : Forall (λ r, max_tokens (req_spec r) ≤ K) (incoming w)).
    { eapply Forall_impl; [apply (fresh_within _ _ F)|]. intros r Hr. specialize (Hr engine). lia. }
    specialize (R Hm Hk Hsteps ltac:(unfold len in Hfuel; lia) (fresh_accounts _ _ F) (fresh_book _ _ F)).
    destruct o as [| |what|]; [|naive_solver|by destruct (calm_caught what); left|done]. exists w'. naive_solver.
  - pose proof (run_continuous_ends clock K w fuel F (sv_n_batch _ _ _ _ _ _ Sv) (sv_room _ _ _ _ _ _ Sv) Hfuel) as R.
    destruct (Continuous.run_continuous clock fuel w) as [[| |what|] w']; [|naive_solver|by destruct (calm_caught what)|done].
    exists w'. naive_solver.
Qed.

End Serve.

(** ** The shutdown protocol

    The main thread of [serve], the watcher thread, the signal handler and the scheduler
    thread, in continuous mode.  What the library contributes is that [listen] returns
    [true] only after [stop] has been called, and [false] when it cannot listen at all.
    The scheduler thread moves by whole iterations of its loop ([Continuous.iterate]);
    when an iteration would wait in [queue.pop()] for ever it does not move, until
    [queue.close()] by the main thread wakes it. *)
Module Shutdown.
Import Continuous.

(** The main thread: before the handlers are installed, in [listen], joining the
    watcher, joining the scheduler thread, returned. *)
Inductive MainPc : Type :=
  | MStart
  | MListen
  | MJoinWatcher (ok : bool)
  | MJoinWorker (ok : bool)
  | MReturned (ok : bool).

(** The watcher: not started, at the loop's condition, in its body, about to call
    [server.stop()], returned. *)
Inductive WatcherPc : Type := WNone | WCheck | WBody | WStop | WExited.

Section Threads.
Context {E : Type} `{IModelEngine E}.
Variable clock : nat → TimePoint.

(** The scheduler thread, between two iterations or after [run] has ended. *)
Inductive Worker : Type :=
  | Looping (l : Loop E)
  | Ended (o : Outcome) (l : Loop E).

Record Life := mkLife {
  l_main : MainPc;
  l_watcher : WatcherPc;
  g_signal_received : bool;
  watcher_done : bool;
  shutting_down : bool;
  stop_called : bool;
  close_called : bool;
  l_worker : Worker }.

Definition initial (w : t E) : Life := mkLife MStart WNone false false false false false (Looping (init w)).

(** [queue.close()], seen by the scheduler thread. *)
Definition closed (k : Worker) : Worker :=
  let shut l := mkLoop (act (sched l) AClose) (active l) (free_slots l) (pending l) in
  match k with Looping l => Looping (shut l) | Ended o l => Ended o (shut l) end.

Inductive lstep (nb : N) : Life → Life → Prop :=
  | ls_start g d sd st cc k :
      lstep nb (mkLife MStart WNone g d sd st cc k) (mkLife MListen WCheck false d sd st cc k)
  (** [on_signal], while it is installed *)
  | ls_signal m w d sd st cc k :
      m = MListen ∨ (∃ ok, m = MJoinWatcher ok) →
      lstep nb (mkLife m w false d sd st cc k) (mkLife m w true d sd st cc k)
  | ls_watch_again m g sd st cc k :
      lstep nb (mkLife m WCheck g false sd st cc k) (mkLife m WBody g false sd st cc k)
  | ls_watch_done m g sd st cc k :
      lstep nb (mkLife m WCheck g true sd st cc k) (mkLife m WExited g true sd st cc k)
  | ls_watch_signal m d sd st cc k :
      lstep nb (mkLife m WBody true d sd st cc k) (mkLife m WStop true d true st cc k)
  | ls_watch_stop m g d sd st cc k :
      lstep nb (mkLife m WStop g d sd st cc k) (mkLife m WExited g d sd true cc k)
  | ls_watch_sleep m d sd st cc k :
      lstep nb (mkLife m WBody false d sd st cc k) (mkLife m WCheck false d sd st cc k)
  | ls_listen ok w g d sd st cc k :
      (ok = true → st = true) →
      lstep nb (mkLife MListen w g d sd st cc k) (mkLife (MJoinWatcher ok) w g true sd st cc k)
  (** the join of the watcher, then [queue.close()] *)
  | ls_close ok g d sd st cc k :
      lstep nb (mkLife (MJoinWatcher ok) WExited g d sd st cc k) (mkLife (MJoinWorker ok) WExited g d sd st true (closed k))
  (** the scheduler thread: an iteration, and the end of [run] *)
  | ls_iterate m w g d sd st cc l l' :
      iterate clock nb l = (None, l') →
      lstep nb (mkLife m w g d sd st cc (Looping l)) (mkLife m w g d sd st cc (Looping l'))
  | ls_end m w g d sd st cc l o l' :
      iterate clock nb l = (Some o, l') → o ≠ Blocked →
      lstep nb (mkLife m w g d sd st cc (Looping l)) (mkLife m w g d sd st cc (Ended o l'))
  (** the join of the scheduler thread; an exception would have ended the process *)
  | ls_return ok w g d sd st cc l :
      lstep nb (mkLife (MJoinWorker ok) w g d sd st cc (Ended Returned l))
        (mkLife (MReturned ok) w g d sd st cc (Ended Returned l)).

(** [listen] has returned. *)
Definition unwinding (l : Life) : bool :=
  match l_main l with MStart | MListen => false | _ => true end.

Definition finished (l : Life) : bool := match l_main l with MReturned _ => true | _ => false end.

(** The steps left once [listen] has returned: those of the protocol, and the iterations
    for the requests that are held or still come ([ContinuousRun.total_work]). *)
Definition steps_left (K : N) (l : Life) : nat :=
  match l_main l with MJoinWatcher _ => 2 | MJoinWorker _ => 1 | _ => 0 end +
  match l_watcher l with WBody => 2 | WCheck | WStop => 1 | _ => 0 end +
  (if g_signal_received l then 0 else 1) +
  match l_worker l with Looping lp => 1 + N.to_nat (total_work (K := K) lp) | Ended _ _ => 0 end.

(** The flags and the places of the threads. *)
Record life_inv (l : Life) : Prop := {
  li_signal : shutting_down l = true → g_signal_received l = true;
  li_stop : stop_called l = true ∨ l_watcher l = WStop → shutting_down l = true;
  li_fresh : l_main l = MStart → shutting_down l = false;
  li_watcher : l_watcher l = WNone ↔ l_main l = MStart;
  li_done : watcher_done l = unwinding l;
  li_exited : close_called l = true → l_watcher l = WExited;
  li_closed : close_called l = match l_main l with MJoinWorker _ | MReturned _ => true | _ => false end }.

Lemma lstep_inv nb l l' : lstep nb l l' → life_inv l → life_inv l'.
Proof.
  intros St [I1 I2 I0 I3 I4 I5 I6].
  destruct St; split; simpl in *; unfold unwinding in *; simpl in *; intuition (try congruence).
Qed.

Local Notation orderly K w :=
  (tidy (K := K) (T := kv_blocks (config_ w)) (bs := block_size (config_ w)) (L := table_limit (config_ w) K)
    (donors := prefix_donors (config_ w)) (brief := within K) (config_ w)).

(** The scheduler thread: its loop is in order, or it has returned with all answered. *)
Definition worker_inv (K : N) (w : t E) (l : Life) : Prop :=
  (finished l = true → ∃ o lp, l_worker l = Ended o lp) ∧
  match l_worker l with
  | Looping lp =>
      orderly K w lp ∧ total_work (K := K) lp ≤ (K + 3) * len (incoming w) ∧
      (close_called l = true → closing (sched lp))
  | Ended o lp =>
      o = Returned ∧ RequestQueue.closed_ (queue_ (sched lp)) = true ∧
      accepted_promises (world_ (sched lp)) ≡ₚ answered (world_ (sched lp))
  end.

(** A scheduler whose pool has room for a full batch and the donors. *)
Definition ready (K : N) (w : t E) : Prop :=
  fresh K w ∧ 0 < n_batch (caps (engine_ w)) ∧
  max_batch_size (config_ w) * table_limit (config_ w) K
    + quota K (block_size (config_ w)) * prefix_donors (config_ w) ≤ kv_blocks (config_ w).

Lemma close_tidy K (w : t E) (lp : Loop E) :
  orderly K w lp → orderly K w (mkLoop (act (sched lp) AClose) (active lp) (free_slots lp) (pending lp)).
Proof. intros [[I1 I2 I3 I4 I5 I6] V B R]. split; [by split|done|done|done]. Qed.

Lemma lstep_worker `{!Calm E} K (w : t E) l l' :
  ready K w → lstep (n_batch (caps (engine_ w))) l l' → worker_inv K w l → worker_inv K w l'.
Proof.
  intros (F & Hnb & Ha) St. destruct St; unfold worker_inv, finished; simpl; try done.
  - intros [_ W]. split; [done|]. destruct k as [lp|o lp]; simpl in *; [|by destruct W as (-> & _ & W)]. destruct W as (W1 & W2 & _).
    split_and!; [by apply close_tidy|done|]. intros _. by left.
  - intros [W0 (W1 & W2 & W3)]. pose proof (fresh_iterate clock K w (n_batch (caps (engine_ w))) l F W1) as It. rewrite H0 in It.
    destruct It as (I1 & I2 & I3). specialize (I3 Hnb Ha). split; [|split_and!; [done|lia|auto]].
    intros Hf. destruct (W0 Hf) as (o & lp & [=]).
  - intros [W0 (W1 & W2 & W3)]. pose proof (fresh_iterate clock K w (n_batch (caps (engine_ w))) l F W1) as It. rewrite H0 in It.
    split; [eauto|]. destruct o as [| |what|]; [|done|by apply calm_caught in It|done]. naive_solver.
  - intros [_ W]. split; [eauto|done].
Qed.

Lemma reachable_life `{!Calm E} K (w : t E) l :
  ready K w → rtc (lstep (n_batch (caps (engine_ w)))) (initial w) l → life_inv l ∧ worker_inv K w l.
Proof.
  intros Rd. assert (G : ∀ a b, rtc (lstep (n_batch (caps (engine_ w)))) a b → life_inv a ∧ worker_inv K w a → life_inv b ∧ worker_inv K w b).
  { induction 1 as [|a a1 b St _ IH]; [done|]. intros [I W]. apply IH. eauto using lstep_inv, lstep_worker. }
  intros R. apply (G _ _ R). split; [split; simpl; naive_solver|]. split; [done|]. simpl.
  destruct Rd as (F & _). split_and!; [by apply fresh_tidy| |done].
  unfold total_work, backlog, work. simpl. lia.
Qed.

(** Once [listen] has returned some thread can move, until [serve] has returned. *)
Lemma unwinding_moves `{!Calm E} K (w : t E) l :
  ready K w → life_inv l → worker_inv K w l → unwinding l = true →
  finished l = true ∨ ∃ l', lstep (n_batch (caps (engine_ w))) l l'.
Proof.
  intros (F & _) [_ _ _ I3 I4 I5 I6] [_ W] Hu. destruct l as [m wt g d sd st cc k]. unfold unwinding, finished in *. simpl in *.
  destruct m as [| |ok|ok|ok]; try done; [| |by left]; right.
  - destruct wt; [destruct I3; naive_solver|..]; subst d.
    + eexists. apply ls_watch_done.
    + destruct g; eexists; [apply ls_watch_signal|apply ls_watch_sleep].
    + eexists. apply ls_watch_stop.
    + eexists. apply ls_close.
  - subst cc. destruct k as [lp|o lp]; [|destruct W as [-> _]; eexists; apply ls_return]. destruct W as (W1 & _ & W3).
    pose proof (fresh_iterate clock K w (n_batch (caps (engine_ w))) lp F W1) as It.
    destruct (iterate clock _ lp) as [[o|] lp'] eqn:Ei; [|eexists; by apply ls_iterate].
    exists (mkLife (MJoinWorker ok) wt g d sd st true (Ended o lp')). apply ls_end; [done|].
    intros ->. destruct It as [It _]. by specialize (It (W3 eq_refl)).
Qed.

(** ... and every move brings the end closer. *)
Lemma unwinding_ends K (w : t E) l l' :
  ready K w → life_inv l → worker_inv K w l → unwinding l = true → lstep (n_batch (caps (engine_ w))) l l' →
  unwinding l' = true ∧ (steps_left K l' < steps_left K l)%nat.
Proof.
  intros (F & Hnb & Ha) [_ _ _ _ I4 _ _] [_ W] Hu St. unfold unwinding, steps_left in *.
  destruct St; simpl in *; try done; (split; [done|]); subst; try congruence; try lia; try (destruct m; simpl in *; done || lia).
  - destruct k as [lp|o lp]; simpl; [|lia]. change (total_work (K := K) (mkLoop _ _ _ _)) with (total_work (K := K) lp). lia.
  - pose proof (fresh_iterate clock K w (n_batch (caps (engine_ w))) l F (proj1 W)) as It. rewrite H0 in It.
    destruct It as (_ & _ & I3). specialize (I3 Hnb Ha). lia.
Qed.

(** C23: shutting down neither hangs nor cuts anyone off.  In every state that the main
    thread of [serve], its watcher, the signal handler and the scheduler thread can
    reach together, in continuous mode, with an engine that does not throw when it
    registers or copies a sequence and a pool with room for a full batch and the donors:
    the handlers are told to shut down only after a signal, and the library is stopped
    only after that; the queue is closed only once [listen] has returned and the watcher
    is gone; [serve] returns only after the scheduler thread has, with every accepted
    request answered exactly once; and once [listen] has returned, unless [serve] has
    too, some thread can always move and every move of any thread brings the end closer:
    at most six moves of the protocol and [K + 3] iterations of the loop per request are
    left. *)
Theorem shutdown_completes `{!Calm E} K (w : t E) l :
  ready K w → rtc (lstep (n_batch (caps (engine_ w)))) (initial w) l →
  (shutting_down l = true → g_signal_received l = true) ∧
  (stop_called l = true → shutting_down l = true) ∧
  (close_called l = true → unwinding l = true ∧ l_watcher l = WExited) ∧
  (finished l = true → ∃ lp, l_worker l = Ended Returned lp ∧ RequestQueue.closed_ (queue_ (sched lp)) = true ∧
     accepted_promises (world_ (sched lp)) ≡ₚ answered (world_ (sched lp))) ∧
  (unwinding l = true →
     (steps_left K l ≤ 6 + N.to_nat ((K + 3) * len (incoming w)))%nat ∧
     (finished l = true ∨ ∃ l', lstep (n_batch (caps (engine_ w))) l l') ∧
     ∀ l', lstep (n_batch (caps (engine_ w))) l l' → unwinding l' = true ∧ (steps_left K l' < steps_left K l)%nat).
Proof.
  intros Rd R. destruct (reachable_life K w l Rd R) as [I W]. pose proof I as [I1 I2 _ I3 I4 I5 I6]. pose proof W as [W0 W1]. split_and!.
  - done.
  - auto.
  - intros Hc. split; [|auto]. rewrite I6 in Hc. unfold unwinding. by destruct (l_main l).
  - intros Hf. destruct (W0 Hf) as (o & lp & E0). rewrite E0 in *. destruct W1 as (-> & ? & ?). eauto.
  - intros Hu. split_and!; [|by apply (unwinding_moves K w)|intros l'; by apply (unwinding_ends K w)].
    unfold steps_left. destruct (l_main l), (l_watcher l), (g_signal_received l), (l_worker l); simpl; lia.
Qed.

End Threads.
Arguments Worker E : clear implicits.
Arguments Life E : clear implicits.

End Shutdown.

(** ** Evaluation *)

(** A handler that waits sees its connection closed and cancels its request. *)
Lemma handlers_are_environment_witness :
  let y := Server.demo_sys in
  let s := (Server.generate_poll (J:=ToyJson.value) Server.default_config (Server.sh y) 1 0 true).2 in
  ∃ acts, Server.sv_queue s = fold_left env_queue acts (Server.sv_queue (Server.sh y)) ∧
    load (fold_left env_flags acts (Server.sv_flags (Server.sh y))) 0 = true.
Proof.
  intros y s.
  destruct (handlers_are_environment (J:=ToyJson.value) Server.default_config y
    (Server.mkSys s (<[0%nat := Server.Waiting 1 0]> (Server.handlers y)) (Server.taken y))) as (acts & A1 & A2 & _).
  - eapply rtc_l; [by apply (Server.st_generate _ (Server.mkSys _ _ _) 5%Z Server.demo_body), surjective_pairing|].
    eapply rtc_l; [by apply (Server.st_stream _ (Server.mkSys _ _ _) 6%Z Server.demo_body), surjective_pairing|].
    apply rtc_refl.
  - apply (Server.st_poll (J:=ToyJson.value) Server.default_config y 0 1 0 true (Server.Waiting 1 0) s); vm_compute; reflexivity.
  - reflexivity.
  - exists acts. split; [exact A1|]. rewrite <- A2. vm_compute. reflexivity.
Defined.

Definition demo_server : Server.ServerConfig :=
  Server.mkConfig (str "0.0.0.0") 8080 8 2 kContinuous 8 40 4 true false 1.

Definition demo_actions : list (list EnvAction) :=
  [[ASubmit (demo_req 1 "hi" 4)]; []; [ASubmit (demo_req 2 "hill" 4); ACancel 1]].

Lemma demo_servable : servable 14 ToyLlama.e0 demo_server ∅ 0 demo_actions.
Proof.
  split; [reflexivity|vm_compute; reflexivity|vm_compute; reflexivity|vm_compute; split_and!; reflexivity|vm_compute; discriminate|].
  change (incoming _) with [demo_req 1 "hi" 4; demo_req 2 "hill" 4].
  repeat constructor; intros e; vm_compute; discriminate.
Qed.

(** The llama.cpp engine, over the small backend, serves two requests and shuts down. *)
Lemma serve_joins_witness :
  ∃ w', Static.run demo_clock 60 20 (worker ToyLlama.e0 demo_server ∅ 0 demo_actions) = (Returned, w') ∧
    accepted_promises (world_ w') ≡ₚ answered (world_ w').
Proof.
  destruct (serve_joins demo_clock 14 ToyLlama.e0 demo_server ∅ 0 demo_actions 60 20 demo_servable) as (w' & W1 & W2 & _).
  - vm_compute. lia.
  - vm_compute. lia.
  - exists w'. split; [exact W1|exact W2].
Defined.

(** The same server, with nobody to close the queue but the main thread. *)
Definition listening : t (LlamaModelEngine.t unit unit ToyLlama.Ctx (list ToyLlama.Stage)) :=
  make ToyLlama.e0 (RequestQueue.make 8) (Server.scheduler_config demo_server) (mkWorld demo_actions ∅ ∅ 0 0 0 [] []).

Lemma listening_ready : Shutdown.ready 14 listening.
Proof.
  split_and!; [|vm_compute; reflexivity|vm_compute; discriminate].
  apply make_fresh; [vm_compute; reflexivity..|unfold book; reflexivity|reflexivity|]. change (incoming _) with [demo_req 1 "hi" 4; demo_req 2 "hill" 4].
  repeat constructor; intros e; vm_compute; discriminate.
Qed.

(** The scheduler thread on its own, to the end. *)
Lemma run_loop_steps {E} `{IModelEngine E} clock fuel nb m w g d sd st cc (l : Continuous.Loop E) :
  (Continuous.run_loop clock fuel nb l).1 = Returned →
  rtc (Shutdown.lstep clock nb) (Shutdown.mkLife m w g d sd st cc (Shutdown.Looping l))
    (Shutdown.mkLife m w g d sd st cc (Shutdown.Ended Returned (Continuous.run_loop clock fuel nb l).2)).
Proof.
  revert l. induction fuel as [|fuel IH]; intros l; cbn [Continuous.run_loop]; [done|].
  destruct (Continuous.iterate clock nb l) as [[o|] l1] eqn:Ei.
  - simpl. intros ->. apply rtc_once. by apply Shutdown.ls_end.
  - intros Hr. eapply rtc_l; [by apply Shutdown.ls_iterate|]. by apply IH.
Qed.

(** Some iterations, and whether none of them was the last. *)
Fixpoint rounds {E} `{IModelEngine E} (nb : N) (n : nat) (l : Continuous.Loop E) : bool * Continuous.Loop E :=
  match n with
  | O => (true, l)
  | S n' =>
      match Continuous.iterate demo_clock nb l with
      | (None, l1) => rounds nb n' l1
      | (Some _, _) => (false, l)
      end
  end.

Lemma rounds_steps {E} `{IModelEngine E} nb n m w g d sd st cc (l l' : Continuous.Loop E) :
  rounds nb n l = (true, l') →
  rtc (Shutdown.lstep demo_clock nb) (Shutdown.mkLife m w g d sd st cc (Shutdown.Looping l))
    (Shutdown.mkLife m w g d sd st cc (Shutdown.Looping l')).
Proof.
  revert l. induction n as [|n IH]; intros l; cbn [rounds]; [by intros [= ->]|].
  destruct (Continuous.iterate demo_clock nb l) as [[o|] l1] eqn:Ei; [done|].
  intros Hr. eapply rtc_l; [by apply Shutdown.ls_iterate|]. by apply IH.
Qed.

(** Three iterations, a signal and the shutdown: one request is still running when the
    queue is closed, and both are answered. *)
Definition three_rounds : Continuous.Loop (LlamaModelEngine.t unit unit ToyLlama.Ctx (list ToyLlama.Stage)) :=
  (rounds 16 3 (Continuous.init listening)).2.

Lemma listening_batch : n_batch (caps (engine_ listening)) = 16.
Proof. vm_compute. reflexivity. Qed.

Definition shut_down : Continuous.Loop (LlamaModelEngine.t unit unit ToyLlama.Ctx (list ToyLlama.Stage)) :=
  Continuous.mkLoop (act (Continuous.sched three_rounds) AClose) (Continuous.active three_rounds)
    (Continuous.free_slots three_rounds) (Continuous.pending three_rounds).

Lemma three_rounds_on : rounds 16 3 (Continuous.init listening) = (true, three_rounds).
Proof. apply injective_projections; cbn [fst snd]; [vm_compute; reflexivity|unfold three_rounds; reflexivity]. Qed.

Lemma shut_down_returns : (Continuous.run_loop demo_clock 40 16 shut_down).1 = Returned.
Proof. vm_compute. reflexivity. Qed.

(** A run of the threads: some iterations, a signal, and the end. *)
Lemma signalled_run {E} `{IModelEngine E} nb n fuel (w : t E) (l : Continuous.Loop E) :
  rounds nb n (Continuous.init w) = (true, l) →
  let l' := Continuous.mkLoop (act (Continuous.sched l) AClose) (Continuous.active l) (Continuous.free_slots l) (Continuous.pending l) in
  (Continuous.run_loop demo_clock fuel nb l').1 = Returned →
  rtc (Shutdown.lstep demo_clock nb) (Shutdown.initial w)
    (Shutdown.mkLife (Shutdown.MReturned true) Shutdown.WExited true true true true true
       (Shutdown.Ended Returned (Continuous.run_loop demo_clock fuel nb l').2)).
Proof.
  intros Hr l' He. eapply rtc_l; [apply Shutdown.ls_start|]. etransitivity; [by apply (rounds_steps nb n)|].
  eapply rtc_l; [apply Shutdown.ls_signal; by left|]. eapply rtc_l; [apply Shutdown.ls_watch_again|].
  eapply rtc_l; [apply Shutdown.ls_watch_signal|]. eapply rtc_l; [apply Shutdown.ls_watch_stop|].
  eapply rtc_l; [by apply (Shutdown.ls_listen _ _ true)|]. eapply rtc_l; [apply Shutdown.ls_close|].
  eapply rtc_r; [|apply Shutdown.ls_return]. by apply run_loop_steps.
Qed.

Lemma shut_down_answers : length (answered (world_ (Continuous.sched (Continuous.run_loop demo_clock 40 16 shut_down).2))) = 2%nat.
Proof. vm_compute. reflexivity. Qed.

Lemma shutdown_completes_witness :
  let w := world_ (Continuous.sched (Continuous.run_loop demo_clock 40 16 shut_down).2) in
  length (Continuous.active three_rounds) = 1%nat ∧ accepted_promises w ≡ₚ answered w ∧ length (answered w) = 2%nat.
Proof.
  intros w. split; [vm_compute; reflexivity|]. split; [|exact shut_down_answers]. unfold w. clear w.
  pose proof (signalled_run 16 3 40 listening three_rounds three_rounds_on shut_down_returns) as R.
  fold shut_down in R. rewrite <- listening_batch in R at 1. generalize dependent (Continuous.run_loop demo_clock 40 16 shut_down).2.
  intros lp R. destruct (Shutdown.shutdown_completes demo_clock 14 listening _ listening_ready R) as (_ & _ & _ & Hf & _).
  destruct (Hf eq_refl) as (lp' & [= <-] & _ & Ha). exact Ha.
Defined.
