(* ===== verification/LlamaLifetime.v ===== *)
(** Who owns the C handles of the llama.cpp engine: [LlamaBackend], the deleters and
    the constructor and destructor of [Impl] in [src/engine/llama_engine.cpp], and the
    scopes of [main] that hold them.

    [LlamaEngine] says what the engine computes.  Here each operation also reports the
    handles it acquires, uses and releases, in the order of the code: the members of
    [Impl] are destroyed last to first after the body of its destructor has run, a
    constructor that throws destroys the members already built and skips that body, and
    assigning to a [unique_ptr] releases what it held.  [obey] is the discipline of the
    C API that such a trace must keep. *)
From Stdlib Require Import Lia.
From stdpp Require Import base list gmap strings.
From S2P Require Import Prelude Types Timing Engine LlamaEngine.

Local Open Scope N_scope.

(** ** The discipline *)

(** [HSampler n] is the [n]-th sampler chain that is created. *)
Inductive Handle : Type := HBackend | HModel | HContext | HBatch | HSampler (n : N).

#[export] Instance Handle_eq_dec : EqDecision Handle.
Proof. solve_decision. Defined.

#[export] Instance Handle_countable : Countable Handle.
Proof.
  refine (inj_countable'
    (λ h, match h with HBackend => inl 0 | HModel => inl 1 | HContext => inl 2 | HBatch => inl 3 | HSampler n => inr n end)
    (λ x, match x with inl 0 => HBackend | inl 1 => HModel | inl 2 => HContext | inl _ => HBatch | inr n => HSampler n end) _).
  by intros [].
Defined.

Inductive Event : Type := Acquire (h : Handle) | Use (h : Handle) | Release (h : Handle).

(** What must stay alive as long as a handle: the backend outlives every engine, and a
    context works on its model. *)
Definition needs (h : Handle) : list Handle :=
  match h with
  | HBackend => []
  | HContext => [HBackend; HModel]
  | HModel | HBatch | HSampler _ => [HBackend]
  end.

(** No handle is acquired twice, used or released unless it is alive, or released while
    something alive needs it; acquiring one takes what it needs. *)
Definition obey (live : gset Handle) (ev : Event) : option (gset Handle) :=
  match ev with
  | Acquire h =>
      if decide (h ∉ live ∧ Forall (λ x, x ∈ live) (needs h)) then Some ({[h]} ∪ live) else None
  | Use h => if decide (h ∈ live ∧ Forall (λ x, x ∈ live) (needs h)) then Some live else None
  | Release h =>
      if decide (h ∈ live ∧ set_Forall (λ x, h ∉ needs x) live) then Some (live ∖ {[h]}) else None
  end.

Fixpoint obey_all (live : gset Handle) (evs : list Event) : option (gset Handle) :=
  match evs with
  | [] => Some live
  | ev :: rest => match obey live ev with Some live' => obey_all live' rest | None => None end
  end.

Lemma obey_all_app live evs evs' :
  obey_all live (evs ++ evs') = match obey_all live evs with Some live' => obey_all live' evs' | None => None end.
Proof. revert live. induction evs as [|ev evs IH]; intros live; simpl; [done|]. by destruct (obey live ev). Qed.

Lemma obey_use live h :
  h ∈ live → Forall (λ x, x ∈ live) (needs h) → obey live (Use h) = Some live.
Proof. intros. simpl. by rewrite decide_True. Qed.

Module LlamaLifetime.
Section Api.
Context {M V C S : Type} `{HA : LlamaApi M V C S}.
Import LlamaModelEngine.

(** The engine with the handles its members own; the model, the context and the batch
    have one each. *)
Record owned := mkOwned {
  o_engine : LlamaModelEngine.t M V C S;
  o_chains : gmap Z N;
  o_next : N }.

(** [LlamaBackend::quiet_logging]: what the callback it installs writes to [stderr].
    [warn] is the library's [GGML_LOG_LEVEL_WARN]. *)
Definition quiet_logging (warn level : Z) (text : bytes) : bytes :=
  if (warn <=? level)%Z then text else [].

(** ** Construction *)

(** [LlamaBackend::LlamaBackend]. *)
Definition backend_open : list Event := [Acquire HBackend].

(** [LlamaBackend::~LlamaBackend]. *)
Definition backend_close : list Event := [Release HBackend].

(** [Impl::Impl]: the vocabulary belongs to the model, the memory to the context. *)
Definition construct (cfg : LlamaEngineConfig) : res owned * list Event :=
  match make cfg with
  | Ok e => (Ok (mkOwned e ∅ 0), [Acquire HModel; Use HModel; Acquire HContext; Use HContext; Use HModel; Use HContext; Acquire HBatch])
  | Throw what =>
      (Throw what,
       match llama_model_load_from_file (model_path cfg) (n_gpu_layers cfg) with
       | None => []
       | Some _ => [Acquire HModel; Use HModel; Release HModel]
       end)
  end.

(** ** Operations *)

(** [samplers[seq] = SamplerPtr(chain)]. *)
Definition begin_sequence (o : owned) (seq : Z) (p : SamplingParams) : owned * list Event :=
  (mkOwned (LlamaModelEngine.begin_sequence (o_engine o) seq p).2 (<[seq := o_next o]> (o_chains o)) (o_next o + 1),
   Acquire (HSampler (o_next o)) ::
   match o_chains o !! seq with Some n => [Release (HSampler n)] | None => [] end).

(** [samplers.erase(seq)], then the KV cells of the sequence. *)
Definition release_sequence (o : owned) (seq : Z) : owned * list Event :=
  (mkOwned (LlamaModelEngine.release_sequence (o_engine o) seq) (delete seq (o_chains o)) (o_next o),
   match o_chains o !! seq with Some n => [Release (HSampler n)] | None => [] end ++ [Use HContext]).

Definition copy_sequence (o : owned) (src dst : SeqId) (n_tokens : Pos) : owned * list Event :=
  (mkOwned (LlamaModelEngine.copy_sequence (o_engine o) src dst n_tokens).2 (o_chains o) (o_next o),
   if (n_tokens <=? 0)%Z || (src =? dst)%Z then [] else [Use HContext]).

(** The chains the sampling loop reaches before it ends or throws. *)
Fixpoint sample_uses (chains : gmap Z N) (todo : list (SeqId * Z)) : list Event :=
  match todo with
  | [] => []
  | (seq, _) :: rest =>
      match chains !! seq with
      | None => []
      | Some n => [Use (HSampler n); Use HContext; Use HModel] ++ sample_uses chains rest
      end
  end.

Definition decode (o : owned) (items : list BatchItem) : owned * list Event :=
  let e := o_engine o in
  (mkOwned (LlamaModelEngine.decode e items).2 (o_chains o) (o_next o),
   if n_batch_ e <? total_size items then []
   else
     let (b, to_sample) := fill_items items (mkLBatch 0 (b_slots (batch e))) [] in
     [Use HBatch; Use HContext] ++
     (if negb ((llama_decode (context e) b).1 =? 0)%Z then [] else sample_uses (o_chains o) to_sample)).

(** The calls a client makes on a constructed engine. *)
Inductive Call : Type :=
  | CCaps
  | CTokenize (text : bytes) (add_special : bool)
  | CPiece (token : Token)
  | CBegin (seq : SeqId) (p : SamplingParams)
  | CDecode (items : list BatchItem)
  | CRelease (seq : SeqId)
  | CCopy (src dst : SeqId) (n_tokens : Pos).

Definition call (o : owned) (c : Call) : owned * list Event :=
  match c with
  | CCaps => (o, [Use HContext])
  | CTokenize text add => (mkOwned (LlamaModelEngine.tokenize (o_engine o) text add).2 (o_chains o) (o_next o), [Use HModel])
  | CPiece tok => (mkOwned (LlamaModelEngine.piece (o_engine o) tok).2 (o_chains o) (o_next o), [Use HModel])
  | CBegin seq p => begin_sequence o seq p
  | CDecode items => decode o items
  | CRelease seq => release_sequence o seq
  | CCopy src dst n => copy_sequence o src dst n
  end.

Fixpoint calls (o : owned) (cs : list Call) : owned * list Event :=
  match cs with
  | [] => (o, [])
  | c :: rest => let (o1, ev) := call o c in let (o2, evs) := calls o1 rest in (o2, ev ++ evs)
  end.

(** ** Destruction *)

(** The body of [~Impl], then the members from [samplers] back to [model]. *)
Definition destroy (o : owned) : list Event :=
  Release HBatch :: ((λ n, Release (HSampler n)) <$> (map_to_list (o_chains o)).*2) ++ [Release HContext; Release HModel].

(** The scopes of [main]: the backend, and inside it the engine, however it ends. *)
Definition lifetime (cfg : LlamaEngineConfig) (cs : list Call) : list Event :=
  backend_open ++
  (let (r, evs) := construct cfg in
   evs ++ match r with
          | Throw _ => []
          | Ok o => let (o', evs') := calls o cs in evs' ++ destroy o'
          end) ++
  backend_close.

(** ** Lemmas *)

(** The engine's handles are alive, each chain has its own, and the engine knows of
    exactly the sequences that own one. *)
Record owns (o : owned) (live : gset Handle) : Prop := mk_owns {
  ow_live h : h ∈ live ↔ match h with HSampler n => ∃ q, o_chains o !! q = Some n | _ => True end;
  ow_inj q q' n : o_chains o !! q = Some n → o_chains o !! q' = Some n → q = q';
  ow_next q n : o_chains o !! q = Some n → n < o_next o;
  ow_dom : dom (samplers (o_engine o)) = dom (o_chains o) }.

Lemma owns_uses o live h :
  owns o live → match h with HSampler n => ∃ q, o_chains o !! q = Some n | _ => True end →
  obey live (Use h) = Some live.
Proof.
  intros O Hh. assert (G : ∀ x, x ∈ live ↔ _) by apply (ow_live _ _ O).
  apply obey_use; [by apply G|]. destruct h; repeat constructor; by apply G.
Qed.

Lemma sample_uses_obey o live todo : owns o live → obey_all live (sample_uses (o_chains o) todo) = Some live.
Proof.
  intros O. induction todo as [|[q i] todo IH]; [done|]. cbn [sample_uses].
  destruct (o_chains o !! q) as [n|] eqn:Eq; [|done]. cbn [app obey_all].
  rewrite (owns_uses o live (HSampler n) O) by eauto. rewrite !(owns_uses o live) by done. exact IH.
Qed.

(** Sampling replaces the state of chains, never the chains. *)
Lemma sample_loop_dom todo (e : LlamaModelEngine.t M V C S) steps :
  dom (samplers (sample_loop todo e steps).2) = dom (samplers e).
Proof.
  revert e steps. induction todo as [|[q i] todo IH]; intros e steps; cbn [sample_loop]; [done|].
  destruct (samplers e !! q) as [s|] eqn:Eq; [|done].
  destruct (llama_sampler_sample s (context e) i) as [tok [s' c]]. rewrite IH. simpl.
  apply dom_insert_lookup_L. by eexists.
Qed.

Lemma decode_dom (e : LlamaModelEngine.t M V C S) items :
  dom (samplers (LlamaModelEngine.decode e items).2) = dom (samplers e).
Proof.
  unfold LlamaModelEngine.decode. destruct (_ <? _); [done|]. destruct (fill_items _ _ _) as [b todo].
  destruct (llama_decode _ _) as [rc c]. destruct (negb _); [done|]. by rewrite sample_loop_dom.
Qed.

(** A new engine state with the same chains. *)
Lemma owns_engine o live e :
  owns o live → dom (samplers e) = dom (samplers (o_engine o)) → owns (mkOwned e (o_chains o) (o_next o)) live.
Proof. intros [O1 O2 O3 O4] Hd. split; try done. simpl. congruence. Qed.

(** Dropping the chain of a sequence. *)
Lemma release_chain live n h :
  h = HSampler n → h ∈ live → obey live (Release h) = Some (live ∖ {[h]}).
Proof.
  intros -> Hin. simpl. rewrite decide_True; [done|]. split; [done|]. intros x _. destruct x; set_solver.
Qed.

Lemma begin_sequence_owns o live (q : Z) p :
  owns o live →
  ∃ live', obey_all live (begin_sequence o q p).2 = Some live' ∧ owns (begin_sequence o q p).1 live'.
Proof.
  intros O. pose proof (ow_live _ _ O) as Hl. set (h := HSampler (o_next o)).
  assert (Hnew : h ∉ live) by (rewrite Hl; intros [q' Hq']; apply (ow_next _ _ O) in Hq'; lia).
  assert (Ha : obey live (Acquire h) = Some ({[h]} ∪ live)).
  { simpl. rewrite decide_True; [done|]. split; [done|]. repeat constructor. by apply Hl. }
  assert (Inj : ∀ q1 q2 n, <[q := o_next o]> (o_chains o) !! q1 = Some n →
    <[q := o_next o]> (o_chains o) !! q2 = Some n → q1 = q2).
  { intros q1 q2 n. rewrite !lookup_insert_Some. intros [[? ?]|[? H1]] [[? ?]|[? H2]]; simplify_eq; try done.
    - apply (ow_next _ _ O) in H2. lia.
    - apply (ow_next _ _ O) in H1. lia.
    - by eapply (ow_inj _ _ O). }
  assert (Hdom : dom (samplers (LlamaModelEngine.begin_sequence (o_engine o) q p).2) = dom (<[q := o_next o]> (o_chains o)))
    by (simpl; by rewrite !dom_insert_L, (ow_dom _ _ O)).
  assert (Hlt : ∀ q' n, <[q := o_next o]> (o_chains o) !! q' = Some n → n < o_next o + 1).
  { intros q' n. rewrite lookup_insert_Some. intros [[_ <-]|[_ H1]]; [lia|]. apply (ow_next _ _ O) in H1. lia. }
  unfold begin_sequence. cbn [fst snd obey_all]. fold h. rewrite Ha.
  destruct (o_chains o !! q) as [m|] eqn:Eq; cbn [obey_all].
  - rewrite (release_chain _ m _ eq_refl) by (apply elem_of_union_r, Hl; eauto). eexists. split; [done|].
    split; simpl; try done. intros x. rewrite elem_of_difference, elem_of_union, !elem_of_singleton, Hl.
    destruct x as [| | | |n]; [split; [done|]; intros _; split; [by right|done]..|]. unfold h. split.
    + intros [[[= ->]|[q' Hq']] Hne]; [exists q; by rewrite lookup_insert_eq|].
      exists q'. rewrite lookup_insert_ne; [done|]. intros ->. apply Hne. congruence.
    + intros [q' Hq']. apply lookup_insert_Some in Hq' as [[-> <-]|[Hne Hq']].
      * split; [by left|]. intros [= He]. apply (ow_next _ _ O) in Eq. lia.
      * split; [eauto|]. intros [= ->]. by apply Hne, (ow_inj _ _ O q q' m).
  - eexists. split; [done|]. split; simpl; try done. intros x. rewrite elem_of_union, elem_of_singleton, Hl.
    destruct x as [| | | |n]; [split; [done|by right]..|]. unfold h. split.
    + intros [[= ->]|[q' Hq']]; [exists q; by rewrite lookup_insert_eq|].
      exists q'. rewrite lookup_insert_ne; [done|]. congruence.
    + intros [q' Hq']. apply lookup_insert_Some in Hq' as [[-> <-]|[Hne Hq']]; eauto.
Qed.

Lemma release_sequence_owns o live (q : Z) :
  owns o live →
  ∃ live', obey_all live (release_sequence o q).2 = Some live' ∧ owns (release_sequence o q).1 live'.
Proof.
  intros O. pose proof (ow_live _ _ O) as Hl. unfold release_sequence. cbn [fst snd].
  assert (G : ∃ live', obey_all live (match o_chains o !! q with Some n => [Release (HSampler n)] | None => [] end) = Some live' ∧
    owns (release_sequence o q).1 live').
  { assert (Hd : dom (samplers (LlamaModelEngine.release_sequence (o_engine o) q)) = dom (delete q (o_chains o)))
      by (simpl; by rewrite !dom_delete_L, (ow_dom _ _ O)).
    assert (Ho : ∀ live', (∀ h, h ∈ live' ↔ match h with HSampler n => ∃ q', delete q (o_chains o) !! q' = Some n | _ => True end) →
      owns (release_sequence o q).1 live').
    { intros live' Hl'. split; simpl; try done.
      - intros q1 q2 n [_ H1]%lookup_delete_Some [_ H2]%lookup_delete_Some. by eapply (ow_inj _ _ O).
      - intros q' n [_ H1]%lookup_delete_Some. by eapply (ow_next _ _ O). }
    destruct (o_chains o !! q) as [m|] eqn:Eq; cbn [obey_all].
    - rewrite (release_chain _ m _ eq_refl) by (apply Hl; eauto). eexists. split; [done|]. apply Ho.
      intros x. rewrite elem_of_difference, elem_of_singleton, Hl. destruct x as [| | | |n]; [by split..|]. split.
      + intros [[q' Hq'] Hne]. exists q'. apply lookup_delete_Some. split; [|done]. congruence.
      + intros [q' [Hne Hq']%lookup_delete_Some]. split; [eauto|]. intros [= ->]. by apply Hne, (ow_inj _ _ O q q' m).
    - eexists. split; [done|]. apply Ho. intros x. rewrite Hl. destruct x as [| | | |n]; try done.
      by rewrite delete_id. }
  destruct G as (live' & G1 & G2). exists live'. split; [|done]. rewrite obey_all_app, G1. cbn [obey_all].
  by rewrite (owns_uses _ live' HContext G2).
Qed.

Lemma call_owns o live c :
  owns o live → ∃ live', obey_all live (call o c).2 = Some live' ∧ owns (call o c).1 live'.
Proof.
  intros O. assert (U : ∀ h, match h with HSampler n => ∃ q, o_chains o !! q = Some n | _ => True end →
    obey live (Use h) = Some live) by (intros h; by apply owns_uses).
  assert (G : ∀ e evs, dom (samplers e) = dom (samplers (o_engine o)) → obey_all live evs = Some live →
    ∃ live', obey_all live evs = Some live' ∧ owns (mkOwned e (o_chains o) (o_next o)) live')
    by (intros e evs Hd He; exists live; split; [done|by apply owns_engine]).
  destruct c as [|text add|tok|q p|items|q|src dst n]; cbn [call].
  - exists live. cbn [fst snd obey_all]. by rewrite U.
  - apply G; cbn [snd obey_all]; [done|by rewrite U].
  - apply G; cbn [snd obey_all]; [done|by rewrite U].
  - by apply begin_sequence_owns.
  - unfold decode. apply G; cbn [snd]; [apply decode_dom|]. destruct (_ <? _); [done|]. destruct (fill_items _ _ _) as [b todo].
    rewrite obey_all_app. cbn [obey_all]. rewrite !U by done. destruct (negb _); [done|]. by apply sample_uses_obey.
  - by apply release_sequence_owns.
  - unfold copy_sequence. apply G; cbn [snd]; [|destruct (_ || _); cbn [obey_all]; by rewrite ?U].
    unfold LlamaModelEngine.copy_sequence. by destruct (_ || _).
Qed.

Lemma calls_owns o live cs :
  owns o live → ∃ live', obey_all live (calls o cs).2 = Some live' ∧ owns (calls o cs).1 live'.
Proof.
  revert o live. induction cs as [|c cs IH]; intros o live O; cbn [calls]; [by exists live|].
  destruct (call_owns o live c O) as (live1 & C1 & C2). destruct (call o c) as [o1 ev].
  destruct (IH o1 live1 C2) as (live2 & I1 & I2). destruct (calls o1 cs) as [o2 evs].
  exists live2. split; [|done]. cbn [snd] in *. by rewrite obey_all_app, C1.
Qed.

(** Destroying the map releases its chains, whatever their order. *)
Lemma release_chains live (ns : list N) :
  NoDup ns → (∀ n, n ∈ ns → HSampler n ∈ live) →
  ∃ live', obey_all live ((λ n, Release (HSampler n)) <$> ns) = Some live' ∧
    ∀ h, h ∈ live' ↔ h ∈ live ∧ ∀ n, h = HSampler n → n ∉ ns.
Proof.
  revert live. induction ns as [|n ns IH]; intros live Hn Hin.
  { exists live. split; [done|]. intros h. split; [|by intros [? _]]. intros Hh. split; [done|]. intros n _. apply not_elem_of_nil. }
  apply NoDup_cons in Hn as [Hn1 Hn]. rewrite fmap_cons. cbn [obey_all].
  rewrite (release_chain live n _ eq_refl) by (apply Hin; left).
  destruct (IH (live ∖ {[HSampler n]}) Hn) as (live' & L1 & L2).
  { intros m Hm. apply elem_of_difference. split; [apply Hin; by right|]. rewrite elem_of_singleton. by intros [= ->]. }
  exists live'. split; [done|]. intros h. rewrite L2, elem_of_difference, elem_of_singleton. split.
  - intros [[H1 H2] H3]. split; [done|]. intros m -> [->|Hm]%elem_of_cons; [done|]. by apply (H3 m).
  - intros [H1 H2]. split_and!; [done| |].
    + intros ->. apply (H2 n eq_refl). left.
    + intros m Hm Hns. apply (H2 m Hm). by right.
Qed.

Lemma destroy_owns o live : owns o live → obey_all live (destroy o) = Some {[HBackend]}.
Proof.
  intros O. pose proof (ow_live _ _ O) as Hl. set (ns := (map_to_list (o_chains o)).*2).
  assert (Hns : ∀ n, n ∈ ns ↔ ∃ q, o_chains o !! q = Some n).
  { intros n. unfold ns. rewrite list_elem_of_fmap. split.
    - intros ([q m] & -> & Hin%elem_of_map_to_list). eauto.
    - intros [q Hq]. exists (q, n). by rewrite elem_of_map_to_list. }
  assert (Hnd : NoDup ns).
  { unfold ns. apply NoDup_fmap_2_strong; [|apply NoDup_map_to_list].
    intros [q1 n1] [q2 n2] H1%elem_of_map_to_list H2%elem_of_map_to_list. simpl. intros ->.
    by rewrite (ow_inj _ _ O q1 q2 n2 H1 H2). }
  unfold destroy. fold ns. cbn [obey_all]. assert (Hb : obey live (Release HBatch) = Some (live ∖ {[HBatch]})).
  { simpl. rewrite decide_True; [done|]. split; [by apply Hl|]. intros [] _; set_solver. }
  rewrite Hb, obey_all_app. destruct (release_chains (live ∖ {[HBatch]}) ns Hnd) as (live1 & L1 & L2).
  { intros n Hn%Hns. apply elem_of_difference. split; [by apply Hl|]. by rewrite elem_of_singleton. }
  rewrite L1. assert (L3 : live1 = {[HBackend; HModel; HContext]}).
  { apply set_eq. intros h. rewrite L2, elem_of_difference, !elem_of_union, !elem_of_singleton, Hl.
    destruct h as [| | | |n].
    1-3: split; [auto|]; intros _; split_and!; done.
    - split; [by intros [[_ []] _]|by intros [[|]|]].
    - split; [|by intros [[|]|]]. intros [[Hq _] Hno]. destruct (Hno n eq_refl). by apply Hns. }
  rewrite L3. vm_compute. reflexivity.
Qed.

(** C26: the engine leaks no handle of llama.cpp and uses none that is gone.  For every
    configuration, whether the model loads, the context is created or not, and every
    sequence of calls, exceptions included, the trace from the construction of the
    backend to its destruction keeps the discipline of the C API: every handle is
    released exactly once, nothing is used before it is acquired or after it is
    released, the context goes before its model and the backend goes last. *)
Theorem handles_released_once (cfg : LlamaEngineConfig) (cs : list Call) :
  obey_all ∅ (lifetime cfg cs) = Some ∅.
Proof.
  unfold lifetime, construct. cbn [backend_open app obey_all].
  replace (obey ∅ (Acquire HBackend)) with (Some ({[HBackend]} ∪ ∅ : gset Handle)) by reflexivity.
  rewrite union_empty_r_L, obey_all_app.
  assert (Hend : obey_all {[HBackend]} backend_close = Some ∅) by (vm_compute; reflexivity).
  destruct (make cfg) as [e|what] eqn:Em.
  - set (o := mkOwned e ∅ 0). rewrite obey_all_app. set (evs := [Acquire HModel; _; _; _; _; _; _]).
    assert (He : obey_all {[HBackend]} evs = Some {[HBatch; HContext; HModel; HBackend]}) by (vm_compute; reflexivity).
    rewrite He. assert (O : owns o {[HBatch; HContext; HModel; HBackend]}).
    { split; simpl.
      - intros h. rewrite !elem_of_union, !elem_of_singleton. destruct h as [| | | |n].
        1-4: split; [done|]; intros _; auto.
        split; [by intros [[[|]|]|]|]. intros [q Hq]. by rewrite lookup_empty in Hq.
      - intros q q' n Hq. by rewrite lookup_empty in Hq.
      - intros q n Hq. by rewrite lookup_empty in Hq.
      - unfold make in Em. destruct (llama_model_load_from_file _ _); [|done].
        destruct (llama_init_from_model _ _); [|done]. injection Em as <-. simpl. by rewrite !dom_empty_L. }
    destruct (calls_owns o _ cs O) as (live & C1 & C2). destruct (calls o cs) as [o' evs']. cbn [fst snd] in *.
    rewrite obey_all_app, C1, (destroy_owns o' live C2). exact Hend.
  - rewrite app_nil_r. destruct (llama_model_load_from_file _ _); vm_compute; reflexivity.
Qed.

End Api.
End LlamaLifetime.

(** A slot that is registered twice gives up its first chain; the second goes with the
    engine. *)
Example reused_slot :
  LlamaLifetime.lifetime (M:=unit) (LlamaModelEngine.mkConfig (str "m") 64 16 4 1 0 true)
    [LlamaLifetime.CBegin 0%Z default_sampling; LlamaLifetime.CBegin 0%Z default_sampling; LlamaLifetime.CCopy 0%Z 1%Z 4%Z] =
  [Acquire HBackend; Acquire HModel; Use HModel; Acquire HContext; Use HContext; Use HModel; Use HContext; Acquire HBatch;
   Acquire (HSampler 0); Acquire (HSampler 1); Release (HSampler 0); Use HContext;
   Release HBatch; Release (HSampler 1); Release HContext; Release HModel; Release HBackend].
Proof. vm_compute. reflexivity. Qed.
