(* ===== verification/Alone.v ===== *)
(** What a request is answered when nothing else runs.

    [SeqModel] describes an engine whose sequences are independent of one another: a
    sequence is a context ([C]) that is opened, fed tokens at positions and sampled, and
    what an item of a batch yields depends on the context of its own sequence and on the
    model ([W]) alone.  [SeqLaws] says that an implementation of [IModelEngine] behaves
    so, and that it does not matter how a prompt is cut into chunks.  It asks for no more
    than the engines of the repository do: beginning a sequence makes a fresh context
    only where none has been fed ([vacant]), releasing one with a negative id may do
    anything (llama.cpp then clears them all), and [fit] says that the engine was built
    by its constructor.  Sampling parameters need not determine the context they open
    ([opens]): a sampler without a seed is random.  When they do they are [seeded].  An
    engine that can copy part of a sequence [shares].  The mock engine is an instance
    here, the llama.cpp engine in [LlamaAlone.v].

    [alone] is the answer to a request under such an engine, from a context: the tokens
    one after the other, cut as [SequenceState.reference] says; [answers] are those for
    the contexts the request may open.  [generate_one] gives one of them;
    [Transparency.v] shows that continuous batching does too. *)
From Stdlib Require Import Lia Ascii.
From stdpp Require Import base list gmap strings.
From S2P Require Import Prelude Types Engine Sinks Sequence Mock Generator Batching.

Local Open Scope N_scope.

(** ** Engines with independent sequences *)

Class SeqModel (E W C : Type) := {
  weights : E → W;
  ctx : E → SeqId → option C;
  caps_of : W → EngineCaps;
  fit : W → Prop;
  tokens_of : W → bytes → list Token;
  text_of : W → Token → bytes;
  opens : W → SamplingParams → C → Prop;
  seeded : W → SamplingParams → Prop;
  shares : W → Prop;
  feed : W → C → list Token → Pos → C;
  sample : W → C → Token * bool * C;
  holds : W → C → list Token → Prop }.

Section Model.
Context {E W C : Type} `{!SeqModel E W C}.

(** Nothing changed for any sequence, or for any but [q]. *)
Definition same (e e' : E) : Prop := weights e' = weights e ∧ ∀ q, ctx e' q = ctx e q.
Definition apart (q : SeqId) (e e' : E) : Prop :=
  weights e' = weights e ∧ ∀ q', q' ≠ q → ctx e' q' = ctx e q'.

(** The slot holds no context, or one that has not been fed. *)
Definition vacant (e : E) (q : SeqId) : Prop := ∀ c, ctx e q = Some c → ∃ p, opens (weights e) p c.

(** The sequence has been begun: [holds] is only ever true of such contexts. *)
Definition begun (e : E) (q : SeqId) : Prop := ∃ c, ctx e q = Some c ∧ holds (weights e) c [].

(** A batch that can be decoded: distinct sequences that have been begun, and a number
    of tokens that does not wrap. *)
Definition decodable (e : E) (items : list BatchItem) : Prop :=
  NoDup (item_seq <$> items) ∧ samples_from_tokens items ∧ batch_tokens items < 18446744073709551616 ∧
  ∀ i, i ∈ items → begun e (item_seq i).

(** What one item of a batch does to the context of its sequence. *)
Definition turn (w : W) (c : C) (i : BatchItem) : C * option GenStep :=
  let c1 := feed w c (item_tokens i) (item_pos0 i) in
  if item_sample i then
    let '(tok, eog, c2) := sample w c1 in (c2, Some (mkStep (item_seq i) tok eog))
  else (c1, None).

(** A context that has been fed [n] tokens one after the other since it was opened. *)
Inductive grown (w : W) : C → N → Prop :=
  | grown_opened p c : opens w p c → grown w c 0
  | grown_feed c n ts : grown w c n → grown w (feed w c ts (Z.of_N n)) (n + len ts)
  | grown_sample c n : grown w c n → grown w (sample w c).2 n.

(** The pieces of text a context goes on to produce, once [todo] is fed at [pos]: at
    most [n] of them, [None] for the end of the generation. *)
Fixpoint solo (n : nat) (w : W) (c : C) (todo : list Token) (pos : Pos) : list (option bytes) :=
  match n with
  | O => []
  | S n' =>
      let '(tok, eog, c') := sample w (feed w c todo pos) in
      if eog then [None]
      else Some (text_of w tok) :: solo n' w c' [tok] (pos + Z.of_nat (length todo))%Z
  end.

(** ... when [tok] has just been sampled. *)
Definition solo_from (n : nat) (w : W) (c : C) (tok : Token) (eog : bool) (pos : Pos) : list (option bytes) :=
  if eog then [None] else Some (text_of w tok) :: solo n w c [tok] pos.

(** The answer to a request from the context [c]: its text, why it ended and how many
    tokens it has.  The limit is noticed on the token after the last one that counts. *)
Definition alone (w : W) (c : C) (spec : RequestSpec) : bytes * FinishReason * N :=
  SequenceState.reference (stop spec) (max_tokens spec)
    (solo (S (N.to_nat (max_tokens spec))) w c (tokens_of w (prompt spec)) 0%Z) 0 [].

(** An answer to the request alone: there is one for every context that its sampling
    parameters may open, so exactly one when they are [seeded]. *)
Definition answers (w : W) (spec : RequestSpec) (a : bytes * FinishReason * N) : Prop :=
  ∃ c, opens w (sampling spec) c ∧ a = alone w c spec.

End Model.

Class SeqLaws (E W C : Type) `{IModelEngine E} `{!SeqModel E W C} : Prop := {
  law_caps (e : E) : caps e = caps_of (weights e);
  law_tokenize (e : E) s :
    (tokenize e s true).1 = tokens_of (weights e) s ∧ same e (tokenize e s true).2;
  law_piece (e : E) tok : (piece e tok).1 = text_of (weights e) tok ∧ same e (piece e tok).2;
  law_begin (e : E) q p : apart q e (begin_sequence e q p).2;
  law_begun (e e' : E) q p :
    vacant e q → begin_sequence e q p = (Ok tt, e') → ∃ c, ctx e' q = Some c ∧ opens (weights e) p c;
  law_release_weights (e : E) q : weights (release_sequence e q) = weights e;
  law_release (e : E) q : (0 ≤ q)%Z → apart q e (release_sequence e q);
  law_released (e : E) q : (0 ≤ q)%Z → vacant (release_sequence e q) q;
  law_copy_weights (e : E) src dst n : weights (copy_sequence e src dst n).2 = weights e;
  law_copy (e : E) src dst n : shares (weights e) → (0 ≤ src)%Z → (0 ≤ dst)%Z → apart dst e (copy_sequence e src dst n).2;
  law_copied (e e' : E) src dst n c c0 p ts :
    shares (weights e) → copy_sequence e src dst n = (Ok tt, e') → (0 ≤ src)%Z → (0 ≤ dst)%Z → src ≠ dst → n = Z.of_nat (length ts) →
    ctx e src = Some c → holds (weights e) c ts → ctx e dst = Some c0 → opens (weights e) p c0 →
    ctx e' dst = Some (feed (weights e) c0 ts 0%Z);
  law_decode_weights (e : E) items : weights (decode e items).2 = weights e;
  law_decode_others (e : E) items q :
    fit (weights e) → decodable e items → q ∉ item_seq <$> items → ctx (decode e items).2 q = ctx e q;
  law_decode (e e' : E) items steps :
    fit (weights e) → decodable e items → decode e items = (Ok steps, e') →
    steps = omap (λ i, c ← ctx e (item_seq i); (turn (weights e) c i).2) items ∧
    ∀ i c, i ∈ items → ctx e (item_seq i) = Some c →
      ctx e' (item_seq i) = Some (turn (weights e) c i).1;
  law_feed_nil w (c : C) pos : feed w c [] pos = c;
  law_feed_app w (c : C) ts us pos :
    feed w (feed w c ts pos) us (pos + Z.of_nat (length ts))%Z = feed w c (ts ++ us) pos;
  law_seeded w p (c c' : C) : seeded w p → opens w p c → opens w p c' → c = c';
  law_holds_opened w p (c : C) ts : opens w p c → holds w (feed w c ts 0%Z) ts;
  law_holds_feed w (c : C) ts us pos : (Z.of_nat (length ts) ≤ pos)%Z → holds w c ts → holds w (feed w c us pos) ts;
  law_holds_sample w (c : C) ts : holds w c ts → holds w (sample w c).2 ts;
  law_holds_prefix w (c : C) ts us : us `prefix_of` ts → holds w c ts → holds w c us }.

(** ** Ends *)

(** The reasons for which a generation ends by itself. *)
Definition clean (r : FinishReason) : Prop := r = kEos ∨ r = kMaxTokens ∨ r = kStopString.

#[export] Instance clean_dec r : Decision (clean r).
Proof. unfold clean. apply _. Defined.

Section Alone.
Context {E W C : Type} `{IModelEngine E} `{!SeqModel E W C} `{!SeqLaws E W C}.

Lemma same_refl (e : E) : same e e.
Proof. done. Qed.

Lemma same_trans (e1 e2 e3 : E) : same e1 e2 → same e2 e3 → same e1 e3.
Proof. intros [H1 H2] [H3 H4]. split; [congruence|]. intros q. by rewrite H4. Qed.

Lemma same_apart q (e e' : E) : same e e' → apart q e e'.
Proof. intros [? ?]. by split. Qed.

Lemma apart_trans q (e1 e2 e3 : E) : apart q e1 e2 → apart q e2 e3 → apart q e1 e3.
Proof. intros [H1 H2] [H3 H4]. split; [congruence|]. intros q' Hq. by rewrite H4, H2. Qed.

(** A context that has just been opened is begun. *)
Lemma begun_opened (w : W) p (c : C) : opens w p c → holds w c ([] : list Token).
Proof. intros Ho%(law_holds_opened w p c []). by rewrite law_feed_nil in Ho. Qed.

(** With a seed there is one answer. *)
Lemma answers_unique (w : W) spec a a' : seeded w (sampling spec) → answers w spec a → answers w spec a' → a = a'.
Proof. intros Hs (c & Hc & ->) (c' & Hc' & ->). by rewrite (law_seeded w _ c c' Hs Hc Hc'). Qed.

(** Cutting a prompt into chunks does not change what follows. *)
Lemma solo_chunk n (w : W) (c : C) ts us pos :
  solo n w (feed w c ts pos) us (pos + Z.of_nat (length ts))%Z = solo n w c (ts ++ us) pos.
Proof.
  destruct n as [|n]; [done|]. cbn [solo]. rewrite law_feed_app, length_app.
  destruct (sample w _) as [[tok eog] c']. destruct eog; [done|]. do 2 f_equal. lia.
Qed.

(** A generation alone always ends by itself. *)
Lemma solo_ends n (w : W) (c : C) todo pos stops max k text :
  k ≤ max → max < k + N.of_nat n → clean (SequenceState.reference stops max (solo n w c todo pos) k text).1.2.
Proof.
  unfold clean. revert c todo pos k text. induction n as [|n IH]; intros c todo pos k text Hk Hn; [lia|]. cbn [solo].
  destruct (sample w _) as [[tok eog] c']. destruct eog; [by left|]. cbn [SequenceState.reference].
  destruct (max <=? k) eqn:Em; [by right; left|]. bool_hyps.
  destruct (SequenceState.earliest_stop _ _); [by right; right|]. apply IH; lia.
Qed.

Lemma alone_clean (w : W) (c : C) spec : clean (alone w c spec).1.2.
Proof. unfold alone. apply solo_ends; lia. Qed.

(** ** One step of a sequence *)

(** The answer [a], as far as the sequence has come: [ps] are the pieces to follow. *)
Definition heading (a : bytes * FinishReason * N) (s : SequenceState.t) (ps : list (option bytes)) : Prop :=
  a = SequenceState.reference (stop (SequenceState.spec_ s)) (max_tokens (SequenceState.spec_ s)) ps
        (completion_tokens (SequenceState.usage_ s)) (SequenceState.text_ s).

(** The sequence has ended with the answer [a]. *)
Definition reached (a : bytes * FinishReason * N) (s : SequenceState.t) : Prop :=
  SequenceState.notified_ s = true ∧
  (SequenceState.emitted_text s, SequenceState.reason_ s, completion_tokens (SequenceState.usage_ s)) = a.

Context {K : Type} `{ITokenSink K}.

(** [accept] takes a sequence one piece further, or to its end. *)
Lemma accept_heading (e : E) m s (k : K) st a rest :
  SequenceState.inv s → SequenceState.finished_ s = false →
  heading a s (if step_is_eog st then [None] else Some (text_of (weights e) (step_token st)) :: rest) →
  let '(more, (e', s', k')) := SequenceState.accept e m s k st in
  same e e' ∧ SequenceState.inv s' ∧ SequenceState.finished_ s' = negb more ∧
  (more = true → heading a s' rest ∧ step_is_eog st = false ∧ SequenceState.pending_ s' = step_token st ∧
     completion_tokens (SequenceState.usage_ s') = completion_tokens (SequenceState.usage_ s) + 1) ∧
  (more = false → clean (SequenceState.reason_ s') → reached a (SequenceState.finish s' k').1) ∧
  (more = false → SequenceState.notified_ s' = false ∧
     (clean (SequenceState.reason_ s') ∨ ∃ k0 : K, cancelled k0 m = true)) ∧
  (∃ cs, k' = calls k cs ∧ Forall (λ c, is_text c = true) cs ∧
     SequenceState.emitted_text s' = SequenceState.emitted_text s ++ delivered cs).
Proof.
  intros I Hf Ha. pose proof (SequenceState.accept_spec e m s k st I Hf) as A.
  destruct (SequenceState.accept e m s k st) as [more [[e' s'] k']].
  destruct (SequenceState.accepted_inv _ _ _ _ _ _ _ _ _ I Hf A) as [I' Hf'].
  destruct (SequenceState.inv_running s I Hf) as (_ & Hn & _). destruct (law_piece e (step_token st)) as [Lp Ls].
  assert (Fin : SequenceState.notified_ s' = false → clean (SequenceState.reason_ s') →
    ((if decide (SequenceState.reason_ s' = kEos ∨ SequenceState.reason_ s' = kMaxTokens)
      then SequenceState.text_ s' else SequenceState.emitted_text s'), SequenceState.reason_ s',
      completion_tokens (SequenceState.usage_ s')) = a → reached a (SequenceState.finish s' k').1).
  { intros Hn' _ <-. pose proof (SequenceState.finish_spec s' k' (SequenceState.inv_emitted _ I') Hn') as F.
    destruct (SequenceState.finish s' k') as [s2 k2]. destruct F as (F1 & F2 & _). unfold reached. simpl.
    rewrite F2. by rewrite F1. }
  unfold heading in Ha.
  destruct A as [Hg|Hg Hm|p e2 q cs Hg Hm Hp Hs Hcs Ht|p e2 cs0 cs Hg Hm Hp Hs Hcs Ht Hk|p e2 cs Hg Hm Hp Hs Hcs Ht Hk];
    rewrite Hg in Ha; rewrite ?Hp in Lp, Ls; simpl in Lp, Ls; rewrite <- ?Lp in Ha; cbn [SequenceState.reference] in Ha;
    rewrite ?(proj2 (N.leb_gt _ _) Hm), ?Hs in Ha; split_and!; try done;
    try (by intros _; split; [done|]; unfold clean; simpl; eauto).
  - intros _ Hc. apply Fin; [done..|]. by rewrite Ha.
  - exists []. unfold delivered. simpl. rewrite app_nil_r. done.
  - intros _ Hc. apply Fin; [done..|]. rewrite (proj2 (N.leb_le _ _) Hm) in Ha. by rewrite Ha.
  - exists []. unfold delivered. simpl. rewrite app_nil_r. done.
  - intros _ Hc. apply Fin; [done..|]. by rewrite Ha.
  - by exists cs.
  - intros _ [?|[?|?]]; done.
  - exists cs. split_and!; try done. unfold SequenceState.emitted_text. simpl. rewrite take_ge by (unfold len; lia). done.
  - by exists cs.
Qed.

End Alone.

(** ** [generate_one] *)

Section Generate.
Context {E W C : Type} `{IModelEngine E} `{!SeqModel E W C} `{!SeqLaws E W C}.

(** What a collecting sink reports. *)
Definition collected_answer (k : CollectingSink.t) : bytes * FinishReason * N :=
  (CollectingSink.text_ k, CollectingSink.reason_ k, completion_tokens (CollectingSink.usage_ k)).

Lemma finish_collects s (k : CollectingSink.t) a :
  SequenceState.inv s → SequenceState.notified_ s = false → clean (SequenceState.reason_ s) →
  CollectingSink.text_ k = SequenceState.emitted_text s →
  reached a (SequenceState.finish s k).1 → collected_answer (SequenceState.finish s k).2 = a.
Proof.
  intros I Hn Hc Ht [_ Ha]. pose proof (SequenceState.finish_spec s k (SequenceState.inv_emitted _ I) Hn) as F.
  destruct (SequenceState.finish s k) as [s' k']. destruct F as (F1 & _ & cs & -> & _ & F4). simpl in *.
  rewrite <- Ha. unfold collected_answer. rewrite calls_app. simpl. unfold SequenceState.terminal_call.
  rewrite decide_False by (destruct Hc as [-> | [-> | ->]]; by intros []). simpl.
  rewrite CollectingSink.calls_text, Ht, <- F4. by rewrite F1.
Qed.

(** The decode of one sequence. *)
Lemma decode_single (e e' : E) i c step :
  fit (weights e) → len (item_tokens i) < 18446744073709551616 → item_sample i = true → item_tokens i ≠ [] → (0 ≤ item_pos0 i)%Z →
  ctx e (item_seq i) = Some c → holds (weights e) c [] →
  first_step (decode e [i]).1 = Ok step → (decode e [i]).2 = e' →
  weights e' = weights e ∧ ∃ c', sample (weights e) (feed (weights e) c (item_tokens i) (item_pos0 i))
    = (step_token step, step_is_eog step, c') ∧ ctx e' (item_seq i) = Some c' ∧ holds (weights e) c' [].
Proof.
  intros Hfit Hlen Hs Ht Hpos Hc Hh Hf <-. split; [apply law_decode_weights|].
  destruct (decode e [i]) as [[steps|what] e'] eqn:Ed; [|done].
  destruct (law_decode e e' [i] steps Hfit) as [L1 L2]; [|done|].
  { split_and!; [apply NoDup_singleton|by repeat constructor|unfold batch_tokens; simpl; lia|].
    intros j ->%list_elem_of_singleton. by exists c. }
  specialize (L2 i c (list_elem_of_here _ _) Hc). unfold turn in *. simpl in L1, L2. rewrite Hc in L1. simpl in L1.
  rewrite Hs in L1, L2.
  pose proof (law_holds_sample (weights e) _ [] (law_holds_feed (weights e) c [] (item_tokens i) (item_pos0 i) Hpos Hh)) as Hh'.
  destruct (sample _ _) as [[tok eog] c']. simpl in L1, Hh'. subst steps. simpl in Hf.
  injection Hf as <-. simpl. by exists c'.
Qed.

Lemma generate_loop_alone fuel flags i (e e' : E) s (k k' : CollectingSink.t) st c a :
  fit (weights e) → SequenceState.inv s → SequenceState.finished_ s = false → ctx e (SequenceState.seq_ s) = Some c →
  holds (weights e) c [] → (∀ i f, load (flags i) f = false) →
  len (SequenceState.prompt_ s) + max_tokens (SequenceState.spec_ s) < 2147483648 →
  (∃ n, heading a s (solo_from n (weights e) c (step_token st) (step_is_eog st)
     (Z.of_N (len (SequenceState.prompt_ s) + completion_tokens (SequenceState.usage_ s)))) ∧
     max_tokens (SequenceState.spec_ s) ≤ completion_tokens (SequenceState.usage_ s) + N.of_nat n) →
  CollectingSink.text_ k = SequenceState.emitted_text s →
  generate_loop fuel flags i e s k st = Some (Ok tt, (e', k')) → collected_answer k' = a.
Proof.
  revert i e s k st c. induction fuel as [|fuel IH]; intros i e s k st c Hfit I Hf Hc Hh Hfl Hsz (n & Ha & Hn) Ht; [done|].
  cbn [generate_loop]. pose proof (accept_heading e (flags i) s k st a _ I Hf Ha) as A.
  pose proof (SequenceState.accept_frame e (flags i) s k st) as F.
  destruct (SequenceState.accept e (flags i) s k st) as [more [[e1 s1] k1]].
  destruct A as ([S1 S2] & I1 & Hf1 & A3 & A4 & A5 & cs & -> & _ & Hd), F as (F1 & F2 & F3 & _). cbn [fst snd] in *.
  assert (Ht1 : CollectingSink.text_ (calls k cs) = SequenceState.emitted_text s1)
    by (by rewrite CollectingSink.calls_text, Ht).
  destruct more.
  - destruct (A3 eq_refl) as (H1 & H2 & H3 & H4). pose proof (SequenceState.inv_tokens _ I1) as Hm1. rewrite F2 in Hm1.
    assert (Hp : SequenceState.feed_pos s1 = Z.of_N (len (SequenceState.prompt_ s) + completion_tokens (SequenceState.usage_ s))).
    { unfold SequenceState.feed_pos. rewrite F3, H4, !to_i32_small by lia. lia. }
    destruct (decode e1 [SequenceState.decode_item s1]) as [r e2] eqn:Ed.
    destruct (first_step r) as [step|what] eqn:Er; [|done]. unfold solo_from in Ha. rewrite H2 in Ha.
    destruct (decode_single e1 e2 (SequenceState.decode_item s1) c step) as (D1 & c2 & D2 & D3 & D4);
      [by rewrite S1|done|done|done|simpl; lia|simpl; by rewrite S2, F1|by rewrite S1|by rewrite Ed|by rewrite Ed|].
    simpl in D2, D3. rewrite S1, H3 in D2.
    apply (IH (S i) e2 s1 _ step c2); try done; [by rewrite D1, S1|by rewrite D1|by rewrite F2, F3|].
    rewrite D1, S1. exists (pred n). rewrite Hp in D2. destruct n as [|n]; [rewrite F2; simpl in *; lia|].
    split; [|rewrite F2; simpl; lia]. cbn [solo] in H1. rewrite D2 in H1. unfold solo_from. simpl.
    rewrite F3, H4. replace (Z.of_N _) with (Z.of_N (len (SequenceState.prompt_ s) + completion_tokens (SequenceState.usage_ s)) + Z.of_nat 1)%Z by lia.
    done.
  - destruct (A5 eq_refl) as [Hn1 [Hcl|(k0 & Hk0)]]; [|by pose proof (eq_trans (eq_sym Hk0) (Hfl i (CollectingSink.cancel_ k0)))].
    pose proof (finish_collects s1 _ a I1 Hn1 Hcl Ht1 (A4 eq_refl Hcl)) as G.
    destruct (SequenceState.finish s1 _) as [s2 k2]. intros [= _ <-]. exact G.
Qed.

(** [generate_one] gives an answer of the model. *)
Lemma generate_one_alone fuel flags (e e' : E) q spec f (k' : CollectingSink.t) :
  fit (weights e) → vacant e q → tokens_of (weights e) (prompt spec) ≠ [] →
  len (tokens_of (weights e) (prompt spec)) + max_tokens spec < 2147483648 →
  (∀ i f, load (flags i) f = false) →
  generate_one fuel flags e q spec (CollectingSink.make f) = Some (Ok tt, (e', k')) →
  answers (weights e) spec (collected_answer k').
Proof.
  intros Hfit Hv Hne Hsz Hfl. unfold generate_one. destruct (law_tokenize e (prompt spec)) as [T1 [T2 T3]].
  destruct (tokenize e (prompt spec) true) as [tokens e1]. simpl in T1, T2. subst tokens.
  set (tokens := tokens_of (weights e) (prompt spec)) in *.
  assert (Hv1 : vacant e1 q) by (unfold vacant; rewrite T2, T3; exact Hv).
  pose proof (law_begin e1 q (sampling spec)) as [B1 _]. pose proof (λ e2, law_begun e1 e2 q (sampling spec) Hv1) as B2.
  destruct (begin_sequence e1 q (sampling spec)) as [[[]|what] e2]; [|done]. simpl in B1. destruct (B2 e2 eq_refl) as (c0 & Bc & Bo).
  rewrite T2 in Bo. intros Hgen. exists c0. split; [done|]. revert Hgen. rewrite prefill_fresh. set (s1 := SequenceState.set_prefilled _ _).
  destruct (decode e2 [mkItem q tokens 0%Z true]) as [r e3] eqn:Ed.
  destruct (first_step r) as [step|what] eqn:Er; [|done].
  destruct (decode_single e2 e3 (mkItem q tokens 0%Z true) _ step ltac:(by rewrite B1, T2) ltac:(simpl; lia) eq_refl Hne ltac:(simpl; lia) Bc) as (D1 & c & D2 & D3 & D4);
    [rewrite B1, T2; by eapply begun_opened|by rewrite Ed|by rewrite Ed|]. simpl in D2, D3.
  assert (Hw : weights e3 = weights e) by congruence. rewrite B1, T2 in D2.
  assert (I1 : SequenceState.inv s1) by (destruct (SequenceState.inv_make q spec tokens ltac:(lia)); by split).
  apply (generate_loop_alone fuel flags 0 e3 e' s1 (CollectingSink.make f) k' step c); try done; [by rewrite Hw|by rewrite D1|].
  exists (N.to_nat (max_tokens spec)). split; [|simpl; lia]. unfold heading, alone. rewrite Hw. cbn [solo].
  fold tokens. rewrite D2. unfold solo_from. simpl. rewrite N.add_0_r. unfold len. by rewrite nat_N_Z.
Qed.

End Generate.

(** ** The mock engine *)

Module MockModel.
Import MockModelEngine.

(** The model is the configuration, with the response cut into tokens. *)
Definition W : Type := Config * list Token.

Definition reply_of (w : W) (st : SeqState) : list Token :=
  if echo_prompt w.1 then filter (λ tok, tok ≠ kBosToken) (prefilled st) else w.2.

(** The prompt matters only in echo mode. *)
Definition view (w : W) (st : SeqState) : SeqState :=
  mkSeq (gen_index st) (if echo_prompt w.1 then prefilled st else []).

#[export] Instance model : SeqModel t W SeqState := {
  weights e := (config_ e, response_tokens_ e);
  ctx e q := view (config_ e, response_tokens_ e) <$> sequences_ e !! q;
  caps_of w := MockModelEngine.caps (mk w.1 w.2 ∅ 0 0);
  fit w := True;
  tokens_of w s := kBosToken :: (byte_token <$> s);
  text_of w tok := (piece (make (mkConfig [] false 0 0 0 0)) tok).1;
  opens w p c := c = mkSeq 0 [];
  seeded w p := True;
  shares w := True;
  feed w c ts pos := mkSeq (gen_index c) (if echo_prompt w.1 && (gen_index c =? 0) then prefilled c ++ ts else prefilled c);
  sample w c := match reply_of w c !! N.to_nat (gen_index c) with
                | Some tok => (tok, false, mkSeq (gen_index c + 1) (prefilled c))
                | None => (kEosToken, true, c)
                end;
  holds w c ts := echo_prompt w.1 = true → ts `prefix_of` prefilled c }.

Lemma reply_view e st : reply_of (weights e) (view (weights e) st) = reply e st.
Proof. unfold reply_of, reply, view. simpl. by destruct (echo_prompt (config_ e)). Qed.

(** One iteration of [decode] is the turn of its item. *)
Lemma decode1_turn e i st :
  sequences_ e !! item_seq i = Some st →
  ∃ e', decode1 e i = (Ok (option_list (turn (weights e) (view (weights e) st) i).2), e') ∧
    weights e' = weights e ∧ ctx e' (item_seq i) = Some (turn (weights e) (view (weights e) st) i).1 ∧
    ∀ q, q ≠ item_seq i → ctx e' q = ctx e q.
Proof.
  intros Hs. unfold decode1, turn. rewrite Hs. set (st1 := mkSeq (gen_index st) _).
  assert (Hf : feed (weights e) (view (weights e) st) (item_tokens i) (item_pos0 i) = view (weights e) st1).
  { unfold view, st1. simpl. by destruct (echo_prompt (config_ e)), (gen_index st =? 0). }
  rewrite Hf. assert (Hsam : sample (weights e) (view (weights e) st1) =
    match reply e st1 !! N.to_nat (gen_index st1) with
    | Some tok => (tok, false, view (weights e) (mkSeq (gen_index st1 + 1) (prefilled st1)))
    | None => (kEosToken, true, view (weights e) st1) end).
  { unfold sample, model. rewrite (reply_view e). done. }
  destruct (item_sample i); [|eexists; split; [done|]; simpl]; [rewrite Hsam; destruct (reply e st1 !! _) as [tok|]|];
    try (eexists; split; [done|]; simpl); (split; [done|split]);
    try (by rewrite lookup_insert_eq); intros q Hq; by rewrite lookup_insert_ne.
Qed.

Lemma decode_loop_turns items e acc :
  NoDup (item_seq <$> items) → (∀ i, i ∈ items → is_Some (ctx e (item_seq i))) →
  ∃ e', decode_loop items e acc = (Ok (acc ++ omap (λ i, c ← ctx e (item_seq i); (turn (weights e) c i).2) items), e') ∧
    (∀ i c, i ∈ items → ctx e (item_seq i) = Some c → ctx e' (item_seq i) = Some (turn (weights e) c i).1) ∧
    (∀ q, q ∉ item_seq <$> items → ctx e' q = ctx e q).
Proof.
  revert e acc. induction items as [|i items IH]; intros e acc Hn Hr.
  { exists e. rewrite app_nil_r. split_and!; try done. intros i c Hi. by apply not_elem_of_nil in Hi. }
  rewrite fmap_cons in Hn. apply NoDup_cons in Hn as [Hi Hn]. destruct (Hr i) as [c Hc]; [set_solver|]. pose proof Hc as Hst.
  simpl in Hst. apply fmap_Some in Hst as (st & Hst & ->). destruct (decode1_turn e i st Hst) as (e1 & D1 & D2 & D3 & D4).
  cbn [decode_loop]. rewrite D1.
  assert (Hsame : ∀ j, j ∈ items → ctx e1 (item_seq j) = ctx e (item_seq j)).
  { intros j Hj. apply D4. intros Hq. apply Hi. rewrite <- Hq. by apply list_elem_of_fmap_2. }
  destruct (IH e1 (acc ++ option_list (turn (weights e) (view (weights e) st) i).2) Hn) as (e' & I1 & I2 & I3).
  { intros j Hj. rewrite Hsame by done. apply Hr. set_solver. }
  exists e'. rewrite D2 in I1, I2. split_and!.
  - rewrite I1. do 2 f_equal. rewrite <- app_assoc. f_equal. cbn [omap list_omap]. rewrite Hc. cbn [mbind option_bind].
    rewrite (omap_same _ (λ i, c ← ctx e (item_seq i); (turn (weights e) c i).2)) by (intros j Hj; by rewrite Hsame).
    by destruct (turn _ _ i) as [c' [step|]].
  - intros j c [->|Hj]%elem_of_cons Hcj.
    + rewrite I3, D3 by done. rewrite Hc in Hcj. by injection Hcj as <-.
    + apply I2; [done|]. by rewrite Hsame.
  - intros q Hq. rewrite fmap_cons, not_elem_of_cons in Hq. destruct Hq as [Hq1 Hq2]. rewrite I3 by done. by apply D4.
Qed.

(** Other sequences keep their context, also when [decode] throws. *)
Lemma decode_loop_others items e acc q :
  q ∉ item_seq <$> items → sequences_ (decode_loop items e acc).2 !! q = sequences_ e !! q.
Proof.
  revert e acc. induction items as [|i items IH]; intros e acc Hq; cbn [decode_loop]; [done|].
  rewrite fmap_cons, not_elem_of_cons in Hq. destruct Hq as [Hq1 Hq2].
  assert (H1 : sequences_ (decode1 e i).2 !! q = sequences_ e !! q)
    by (unfold decode1; destruct (sequences_ e !! item_seq i); split_ifs; simpl; try done; by rewrite lookup_insert_ne).
  destruct (decode1 e i) as [[step|what] e1]; simpl in H1; [|done]. by rewrite IH.
Qed.

Lemma begun_ctx e q : begun e q → is_Some (ctx e q).
Proof. by intros (c & -> & _). Qed.

#[export] Instance laws : SeqLaws t W SeqState.
Proof.
  split.
  - done.
  - done.
  - done.
  - intros e q p. split; [done|]. intros q' Hq. simpl. by rewrite lookup_insert_ne.
  - intros e e' q p _ [= <-]. simpl. rewrite lookup_insert_eq. unfold view. simpl. eexists. split; [done|]. by destruct (echo_prompt _).
  - done.
  - intros e q _. split; [done|]. intros q' Hq. simpl. by rewrite lookup_delete_ne.
  - intros e q _ c. simpl. by rewrite lookup_delete_eq.
  - intros e src dst n. simpl. unfold copy_sequence. by split_ifs.
  - intros e src dst n _ _ _. simpl. unfold copy_sequence. split_ifs; simpl; try done. split; [done|].
    intros q Hq. simpl. by rewrite lookup_insert_ne.
  - intros e e' src dst n c c0 p ts. simpl. unfold copy_sequence, view.
    destruct (sequences_ e !! src) as [s|] eqn:Es; [|done]. destruct (sequences_ e !! dst) as [d|] eqn:Ed; [|done].
    intros _ Hcp _ _ Hne -> [= <-] Hh Hd0 ->. injection Hd0 as Hg Hd. simpl in *. rewrite (proj2 (Z.eqb_neq _ _) Hne), orb_false_r in Hcp.
    rewrite andb_true_r. destruct (Z.leb_spec (Z.of_nat (length ts)) 0).
    + injection Hcp as <-. assert (ts = []) as -> by (destruct ts; [done|simpl in *; lia]).
      rewrite Ed. simpl. rewrite Hg, Hd. by destruct (echo_prompt _).
    + injection Hcp as <-. simpl. rewrite lookup_insert_eq. simpl. rewrite Hg, Nat2Z.id. simpl.
      destruct (echo_prompt (config_ e)); [|done]. destruct (Hh eq_refl) as [more ->]. by rewrite take_app_length.
  - intros e items. simpl. unfold decode. by destruct (decode_loop_frame items e []) as [-> ->].
  - intros e items q _ _ Hq. simpl. unfold decode. rewrite decode_loop_others by done.
    by destruct (decode_loop_frame items e []) as [-> ->].
  - intros e e' items steps _ (Hn & _ & _ & Hr) Hd. destruct (decode_loop_turns items e [] Hn (λ i Hi, begun_ctx e _ (Hr i Hi))) as (e1 & D1 & D2 & _).
    simpl in Hd. unfold decode in Hd. rewrite Hd in D1. injection D1 as -> ->. done.
  - intros w c pos. simpl. rewrite app_nil_r. by destruct c, (_ && _).
  - intros w c ts us pos. simpl. destruct (_ && _); [|done]. by rewrite app_assoc.
  - intros w p c c' _ -> ->. done.
  - intros w p c ts ->. simpl. by intros ->.
  - intros w c ts us pos _ Hh He. simpl. destruct (_ && _); [|by apply Hh]. by apply prefix_app_r, Hh.
  - intros w c ts Hh He. simpl. destruct (_ !! _); by apply Hh.
  - intros w c ts us Hp Hh He. etrans; [exact Hp|by apply Hh].
Qed.

(** On sequences it knows the mock never throws. *)
Lemma decode_total e items :
  NoDup (item_seq <$> items) → (∀ i, i ∈ items → begun e (item_seq i)) →
  ∃ steps e', decode e items = (Ok steps, e').
Proof. intros Hn Hr. destruct (decode_loop_turns items e [] Hn (λ i Hi, begun_ctx e _ (Hr i Hi))) as (e' & D & _). by eexists _, e'. Qed.

End MockModel.
