(* ===== verification/Transparency.v ===== *)
(** Batching is transparent: what continuous batching answers a request is what the
    model answers it alone.

    The invariant follows every running sequence: its context in the engine, together
    with the tokens it still has to submit, leads to the answer [alone] gives
    ([on_course]); a sequence whose token is on its way from the engine leads there too
    ([expecting]).  Which sequences share a batch, how prompts are cut into chunks, when
    a sequence is deferred or preempted and what the HTTP threads do meanwhile does not
    matter, because none of it reaches the context of another sequence.  With prefix
    caching, sequences also start from copies: a published prefix is one that its
    sequence has fed ([KvAccounting.backs]), and a donor holds the tokens it was kept
    for ([lends]). *)
From Stdlib Require Import Permutation Lia.
From stdpp Require Import base list gmap strings.
From S2P Require Import Prelude Types Blocks Tables Prefix Timing Engine Sinks Sequence Mock Generator Queue Scheduler Continuous Static Demo Conservation Batching Pressure StaticRun KvAccounting ContinuousRun Alone.

Local Open Scope N_scope.

Import Scheduler Continuous.

(** ** Which job an item of the batch belongs to *)

(** [i] is an item that the batch may take from job [j]. *)
Definition serves (j : Job) (i : BatchItem) : Prop :=
  job_finished j = false ∧
  (job_prefilling j = false ∧ i = SequenceState.decode_item (job_state j) ∨
   job_prefilling j = true ∧ ∃ n, 0 < n ≤ SequenceState.prefill_remaining (job_state j) ∧
     i = (SequenceState.take_prefill_chunk (job_state j) n).1).

(** The job once its item is in the batch. *)
Definition submitting (j : Job) (i : BatchItem) : Job :=
  if job_prefilling j
  then set_state j (SequenceState.set_prefilled (job_state j)
                      (SequenceState.prefilled_ (job_state j) + len (item_tokens i)))
  else j.

Definition moves (duty : list (Job * BatchItem)) (j j' : Job) : Prop :=
  (∃ i, (j, i) ∈ duty ∧ j' = submitting j i) ∨ (j ∉ duty.*1 ∧ j' = j).

(** [duty] says whom each item of the batch serves. *)
Record assigned (act : list Job) (b : Batch) (act' : list Job) (duty : list (Job * BatchItem)) : Prop := mk_assigned {
  as_items : items b = duty.*2;
  as_sampling : sampling b = job_ptr <$> (filter (λ x, item_sample x.2 = true) duty).*1;
  as_serves : Forall (λ x, serves x.1 x.2) duty;
  as_jobs : duty.*1 ⊆+ act;
  as_moves : Forall2 (moves duty) act act' }.

Lemma moves_skip x i duty j j' : j ≠ x → moves duty j j' → moves ((x, i) :: duty) j j'.
Proof.
  intros Hne [(i' & Hi & ->)|[Hn ->]]; [left; exists i'; set_solver|right]. split; [|done].
  rewrite fmap_cons, not_elem_of_cons. done.
Qed.

Lemma sublist_filter_all {A} (P : A → Prop) `{∀ x, Decision (P x)} (l k : list A) :
  l `sublist_of` k → Forall P l → l `sublist_of` filter P k.
Proof.
  induction 1 as [|x l k _ IH|x l k _ IH]; intros Hl; [done| |].
  - apply Forall_cons in Hl as [Hx Hl]. rewrite filter_cons_True by done. by apply sublist_skip, IH.
  - destruct (decide (P x)); [rewrite filter_cons_True by done; by apply sublist_cons, IH|].
    rewrite filter_cons_False by done. by apply IH.
Qed.

Lemma build_prefills_assigned act budget cap :
  NoDup act →
  let (b, act') := build_prefills act budget cap in
  ∃ duty, assigned act b act' duty ∧ Forall (λ x, job_prefilling x.1 = true) duty ∧ duty.*1 `sublist_of` act.
Proof.
  revert budget. induction act as [|j act IH]; intros budget Hn; cbn [build_prefills].
  { exists []. split_and!; [split; done|done|done]. }
  apply NoDup_cons in Hn as [Hj Hn].
  assert (Hskip : let (b, rest') := build_prefills act budget cap in
    ∃ duty, assigned (j :: act) b (j :: rest') duty ∧ Forall (λ x, job_prefilling x.1 = true) duty ∧
      duty.*1 `sublist_of` j :: act).
  { specialize (IH budget Hn). destruct (build_prefills act budget cap) as [b act'].
    destruct IH as (duty & [A1 A2 A3 A4 A5] & Hp & Hs). exists duty. split_and!; [|done|by apply sublist_cons].
    split; try done; [by apply submseteq_cons|]. constructor; [|done]. right. split; [|done].
    intros Hin. by apply Hj, (elem_of_submseteq _ _ _ Hin A4). }
  destruct (job_finished j || negb (job_prefilling j) || (budget =? 0)) eqn:Es.
  { by destruct (build_prefills act budget cap). }
  destruct (N.min budget _ =? 0) eqn:En; [by destruct (build_prefills act budget cap)|]. clear Hskip. bool_hyps.
  set (n := N.min budget _) in *. destruct (chunk_len (job_state j) n ltac:(lia)) as [Hl Hc].
  assert (Hsv : serves j (SequenceState.take_prefill_chunk (job_state j) n).1).
  { split; [done|]. right. split; [done|]. exists n. split; [lia|done]. }
  rewrite Hc, Hl. set (i := (SequenceState.take_prefill_chunk (job_state j) n).1) in *. clearbody i. clear Hc.
  specialize (IH (budget - n) Hn). destruct (build_prefills act (budget - n) cap) as [b act'].
  destruct IH as (duty & [A1 A2 A3 A4 A5] & Hp & Hs). exists ((j, i) :: duty). split_and!.
  - split; cbn [items sampling].
    + by rewrite A1.
    + destruct (item_sample i) eqn:Ei; [rewrite filter_cons_True by done|rewrite filter_cons_False by (simpl; congruence)];
        rewrite ?fmap_cons; cbn [fst]; rewrite A2; done.
    + by constructor.
    + by apply submseteq_skip.
    + constructor.
      * left. exists i. split; [set_solver|]. unfold submitting. replace (job_prefilling j) with true by done. by rewrite Hl.
      * eapply Forall2_impl_elem; [exact A5|]. intros x x' Hx. apply moves_skip. intros ->. done.
  - by constructor.
  - by apply sublist_skip.
Qed.

Lemma build_batch_assigned nb chunk act :
  NoDup (job_ptr <$> act) → let (b, act') := build_batch nb chunk act in ∃ duty, assigned act b act' duty.
Proof.
  intros Hnp. pose proof (NoDup_fmap_1 _ _ Hnp) as Hn. unfold build_batch. pose proof (build_decodes_spec act nb) as D.
  destruct (build_decodes act nb) as [d budget]. set (chosen := take _ _) in D. destruct D as (D1 & D2 & _).
  set (cap := if chunk =? 0 then nb else chunk). pose proof (build_prefills_assigned act budget cap Hn) as P.
  destruct (build_prefills act budget cap) as [p act']. destruct P as (duty & [A1 A2 A3 A4 A5] & Hp & Hs).
  set (dec := (λ j, (j, SequenceState.decode_item (job_state j))) <$> chosen).
  assert (Hd1 : dec.*1 = chosen) by (unfold dec; rewrite <- list_fmap_compose; apply list_fmap_id).
  assert (Hd2 : dec.*2 = (λ j, SequenceState.decode_item (job_state j)) <$> chosen)
    by (unfold dec; by rewrite <- list_fmap_compose).
  assert (Hall : Forall (λ j, j ∈ act ∧ decoding j) chosen).
  { apply Forall_forall. intros j Hj. apply elem_of_take in Hj as (i & Hi & _).
    apply list_elem_of_lookup_2, list_elem_of_filter in Hi. tauto. }
  assert (Hf : filter (λ x : Job * BatchItem, item_sample x.2 = true) dec = dec).
  { unfold dec. clear. induction chosen as [|j l IH]; [done|]. rewrite fmap_cons, filter_cons_True by done. by rewrite IH. }
  assert (Hpf : Forall (λ j, ¬ decoding j) duty.*1).
  { apply Forall_fmap. eapply Forall_impl; [exact Hp|]. intros x Hx [_ Hy]. simpl in *. congruence. }
  assert (Hsub : chosen ++ duty.*1 ⊆+ act).
  { rewrite <- (filter_app_complement decoding act). apply submseteq_app.
    - apply sublist_submseteq, sublist_take.
    - apply sublist_submseteq. by apply sublist_filter_all. }
  exists (dec ++ duty). split; simpl.
  - by rewrite fmap_app, D1, A1, Hd2.
  - rewrite filter_app, !fmap_app, D2, A2, Hf, Hd1. done.
  - apply Forall_app. split; [|done]. unfold dec. apply Forall_fmap. eapply Forall_impl; [exact Hall|].
    intros j [_ [H1 H2]]. split; [done|]. by left.
  - by rewrite fmap_app, Hd1.
  - eapply Forall2_impl_elem; [exact A5|]. intros j j' Hj [(i & Hi & ->)|[Hnd ->]].
    + left. exists i. split; [set_solver|done].
    + destruct (decide (job_ptr j ∈ job_ptr <$> chosen)) as [Hc|Hc].
      * apply list_elem_of_fmap in Hc as (x & Hx & Hc). rewrite Forall_forall in Hall.
        apply (NoDup_fmap_inj job_ptr _ _ _ Hnp Hj (proj1 (Hall x Hc))) in Hx as <-. left. exists (SequenceState.decode_item (job_state j)).
        destruct (Hall j Hc) as [_ [_ Hpre]]. split; [|unfold submitting; by rewrite Hpre].
        apply elem_of_app. left. unfold dec. apply list_elem_of_fmap. eauto.
      * right. split; [|done]. rewrite fmap_app, Hd1, not_elem_of_app. split; [|done]. intros Hin. apply Hc.
        by apply list_elem_of_fmap_2.
Qed.

(** The results of a partial function that is defined exactly on [P]. *)
Lemma omap_lookup_filter {A B} (f : A → option B) (P : A → Prop) `{∀ x, Decision (P x)} (l : list A) (k : nat) x :
  (∀ x, x ∈ l → ¬ P x → f x = None) → (∀ x, x ∈ l → P x → is_Some (f x)) →
  filter P l !! k = Some x → omap f l !! k = f x.
Proof.
  revert k. induction l as [|y l IH]; intros k Hn Hs; [done|]. cbn [omap list_omap].
  destruct (decide (P y)) as [Hy|Hy]; [rewrite filter_cons_True by done|rewrite filter_cons_False by done].
  - destruct (Hs y) as [z Hz]; [set_solver|done|]. rewrite Hz. destruct k as [|k]; simpl; [intros [= <-]; done|].
    apply IH; intros; [apply Hn|apply Hs]; set_solver.
  - rewrite (Hn y) by set_solver. apply IH; intros; [apply Hn|apply Hs]; set_solver.
Qed.

Lemma duty_unique (duty : list (Job * BatchItem)) j i i' :
  NoDup duty.*1 → (j, i) ∈ duty → (j, i') ∈ duty → i = i'.
Proof.
  intros Hn Hi Hi'. apply list_elem_of_lookup in Hi as [k Hk], Hi' as [k' Hk'].
  assert (k = k') as ->.
  { apply (NoDup_lookup _ _ _ j Hn); rewrite list_lookup_fmap; [by rewrite Hk|by rewrite Hk']. }
  rewrite Hk in Hk'. by injection Hk'.
Qed.

Lemma serves_seq j i : serves j i → item_seq i = job_seq j ∧ item_tokens i ≠ [].
Proof.
  intros [_ [[_ ->]|[_ (n & Hn & ->)]]]; [done|]. split; [done|]. destruct (chunk_len (job_state j) n ltac:(lia)) as [Hl _].
  intros He. rewrite He, len_nil in Hl. lia.
Qed.

Section Assigned.
Context (act act' : list Job) (b : Batch) (duty : list (Job * BatchItem)).
Hypothesis A : assigned act b act' duty.
Hypothesis Hnp : NoDup (job_ptr <$> act).

Lemma duty_job j i : (j, i) ∈ duty → j ∈ act ∧ serves j i.
Proof.
  intros Hi. pose proof (as_serves _ _ _ _ A) as F. rewrite Forall_forall in F. split; [|exact (F _ Hi)].
  eapply elem_of_submseteq; [|exact (as_jobs _ _ _ _ A)]. exact (list_elem_of_fmap_2 fst _ _ Hi).
Qed.

Lemma duty_NoDup : NoDup duty.*1.
Proof. apply (NoDup_fmap_1 job_ptr). eapply submseteq_NoDup_fmap; [apply A|done]. Qed.

Lemma duty_seqs : item_seq <$> items b = job_seq <$> duty.*1.
Proof.
  rewrite (as_items _ _ _ _ A), <- !list_fmap_compose. apply list_fmap_ext.
  intros k [j i] Hk%list_elem_of_lookup_2. simpl. by destruct (serves_seq j i (proj2 (duty_job j i Hk))).
Qed.

Lemma duty_seq_jobs q : q ∈ item_seq <$> items b → q ∈ job_seq <$> act.
Proof.
  rewrite duty_seqs. intros (j & -> & Hj)%list_elem_of_fmap. apply list_elem_of_fmap_2.
  eapply elem_of_submseteq; [exact Hj|apply A].
Qed.

(** Whose turn a sampling pointer is. *)
Lemma sampling_owner j k :
  j ∈ act → sampling b !! k = Some (job_ptr j) →
  ∃ i, filter (λ x, item_sample x.2 = true) duty !! k = Some (j, i) ∧ (j, i) ∈ duty ∧ item_sample i = true.
Proof.
  intros Hj Hk. rewrite (as_sampling _ _ _ _ A), <- list_fmap_compose, list_lookup_fmap in Hk.
  apply fmap_Some in Hk as ([x i] & Hk & Hp). simpl in Hp.
  pose proof (list_elem_of_lookup_2 _ _ _ Hk) as [Hs Hi]%list_elem_of_filter.
  assert (x = j) as -> by (apply (NoDup_fmap_inj job_ptr act); [done|by apply (duty_job x i)|done|done]). by exists i.
Qed.

End Assigned.

Section Faith.
Context {E W C : Type} `{IModelEngine E} `{!SeqModel E W C} `{!SeqLaws E W C}.
Variable clock : nat → TimePoint.

(** The model, and the requests with their promises. *)
Variable w0 : W.
Variable asks : list (PromiseId * RequestSpec).

Definition toks (spec : RequestSpec) : list Token := tokens_of w0 (Types.prompt spec).

(** Requests whose prompt has tokens and whose positions fit 32 bits. *)
Definition tame (spec : RequestSpec) : Prop :=
  toks spec ≠ [] ∧ len (toks spec) + max_tokens spec < 2147483648.

Hypothesis Htame : ∀ p spec, (p, spec) ∈ asks → tame spec.
Hypothesis Hfit : fit w0.

(** ** Where a sequence is *)

Notation spec_of s := (SequenceState.spec_ s).
Notation count s := (Types.completion_tokens (SequenceState.usage_ s)).

(** The request fits the context of one sequence. *)
Definition suits (s : SequenceState.t) : Prop :=
  n_ctx_seq (caps_of w0) = 0 ∨ len (SequenceState.prompt_ s) + max_tokens (spec_of s) ≤ n_ctx_seq (caps_of w0).

(** Its context, with what it still has to submit, leads to the answer. *)
Definition on_course (c : C) (s : SequenceState.t) : Prop :=
  suits s ∧
  if SequenceState.prefilling s then
    (∃ c0, opens w0 (Types.sampling (spec_of s)) c0 ∧
       c = feed w0 c0 (take (N.to_nat (SequenceState.prefilled_ s)) (SequenceState.prompt_ s)) 0%Z) ∧
    count s = 0 ∧ SequenceState.text_ s = []
  else
    holds w0 c (SequenceState.prompt_ s) ∧ 0 < count s ∧ grown w0 c (len (SequenceState.prompt_ s) + count s - 1) ∧
    ∃ a n, answers w0 (spec_of s) a ∧ max_tokens (spec_of s) ≤ count s + N.of_nat n ∧
      heading a s
        (solo (S n) w0 c [SequenceState.pending_ s] (Z.of_N (len (SequenceState.prompt_ s) + count s) - 1)%Z).

(** ... once the token [st] is accepted. *)
Definition expecting (c : C) (s : SequenceState.t) (st : GenStep) : Prop :=
  suits s ∧ SequenceState.prefilling s = false ∧ holds w0 c (SequenceState.prompt_ s) ∧
  grown w0 c (len (SequenceState.prompt_ s) + count s) ∧
  ∃ a n, answers w0 (spec_of s) a ∧ max_tokens (spec_of s) ≤ count s + N.of_nat n ∧
    heading a s
      (solo_from n w0 c (step_token st) (step_is_eog st) (Z.of_N (len (SequenceState.prompt_ s) + count s))).

(** A sequence serves its request. *)
Definition tied (j : Job) : Prop :=
  SequenceState.spec_ (job_state j) = req_spec (job_request j) ∧
  SequenceState.prompt_ (job_state j) = toks (req_spec (job_request j)) ∧ tame (req_spec (job_request j)).

Definition tracked (e : E) (j : Job) : Prop :=
  tied j ∧ ∃ c, ctx e (job_seq j) = Some c ∧
    if job_finished j then
      holds w0 c (take (N.to_nat (SequenceState.prefilled_ (job_state j))) (SequenceState.prompt_ (job_state j))) ∧
      (job_prefilling j = false ∨ held j = [] ∧ grown w0 c 0)
    else SequenceState.inv (job_state j) ∧ on_course c (job_state j).

Definition expectant (e : E) (j : Job) (st : GenStep) : Prop :=
  tied j ∧ job_finished j = false ∧ SequenceState.inv (job_state j) ∧
  ∃ c, ctx e (job_seq j) = Some c ∧ expecting c (job_state j) st.

(** A sequence that ended by itself ended with its answer. *)
Definition settled (j : Job) : Prop :=
  job_finished j = true → clean (SequenceState.reason_ (job_state j)) →
  ∃ a, answers w0 (req_spec (job_request j)) a ∧ reached a (job_state j).

Definition asked (r : Request) : Prop := (req_result r, req_spec r) ∈ asks.

(** The answers given so far. *)
Definition told (x : PromiseId * GenResult) : Prop :=
  clean (res_reason x.2) → ∃ spec, (x.1, spec) ∈ asks ∧
    answers w0 spec (res_text x.2, res_reason x.2, Types.completion_tokens (res_usage x.2)).

(** A donor holds the tokens of a request. *)
Definition lends (e : E) (h : N) (d : PrefixCache.Entry) : Prop :=
  ∃ p spec c, (p, spec) ∈ asks ∧ PrefixCache.e_n_tokens d ≤ len (toks spec) ∧
    PrefixCache.hash_prefix (toks spec) (PrefixCache.e_n_tokens d) = h ∧
    ctx e (PrefixCache.e_seq d) = Some c ∧
    holds w0 c (take (N.to_nat (PrefixCache.e_n_tokens d)) (toks spec)).

Definition lent (e : E) (c : PrefixCache.t) : Prop :=
  ∀ h r, PrefixCache.entries_ c !! h = Some r → PrefixCache.e_retained (PrefixCache.r_entry r) = true →
    lends e h (PrefixCache.r_entry r).

(** What holds of the answers whatever the engine does. *)
Record honest (w : t E) (act : list Job) : Prop := mk_honest {
  h_weights : weights (engine_ w) = w0;
  h_settled : Forall settled act;
  h_asked : Forall asked (job_request <$> act);
  h_told : Forall told (results_ (world_ w)) }.

(** ... and what holds of the engine as long as no decode has thrown. *)
Record sound (w : t E) (act : list Job) : Prop := mk_sound {
  s_jobs : Forall (tracked (engine_ w)) act;
  s_lent : lent (engine_ w) (prefix_cache_ w) }.

(** ** A batch *)

Lemma prefilling_spec s :
  SequenceState.prefilling s = negb (len (SequenceState.prompt_ s) <=? SequenceState.prefilled_ s).
Proof.
  unfold SequenceState.prefilling, SequenceState.prefill_remaining.
  destruct (N.ltb_spec 0 (len (SequenceState.prompt_ s) - SequenceState.prefilled_ s)),
    (N.leb_spec (len (SequenceState.prompt_ s)) (SequenceState.prefilled_ s)); done || lia.
Qed.

Lemma tied_size j : tied j → SequenceState.inv (job_state j) →
  len (SequenceState.prompt_ (job_state j)) + count (job_state j) < 2147483648 ∧ SequenceState.prompt_ (job_state j) ≠ [].
Proof.
  intros (T1 & T2 & T3 & T4) I. pose proof (SequenceState.inv_tokens _ I) as Hm. rewrite T1 in Hm. rewrite T2. split; [lia|done].
Qed.

(** A generating sequence feeds its last token back. *)
Lemma decode_turn j c :
  tied j → SequenceState.inv (job_state j) → job_prefilling j = false → on_course c (job_state j) →
  ∃ c' st, turn w0 c (SequenceState.decode_item (job_state j)) = (c', Some st) ∧ expecting c' (job_state j) st.
Proof.
  intros T I Hp. destruct (tied_size j T I) as [Hs Hne]. unfold on_course, turn, job_prefilling in *. rewrite Hp.
  intros (Hsu & Hh & Hc & Hg & a & n & Han & Hn & Ha). simpl. unfold SequenceState.feed_pos. rewrite !to_i32_small by lia.
  cbn [solo] in Ha. replace (Z.of_N _ + Z.of_N _ - 1)%Z
    with (Z.of_N (len (SequenceState.prompt_ (job_state j)) + count (job_state j)) - 1)%Z by lia.
  destruct (sample w0 _) as [[tok eog] c'] eqn:Es. eexists c', _. split; [done|]. split_and!; [done|done| | |].
  - change c' with (tok, eog, c').2. rewrite <- Es. apply law_holds_sample, law_holds_feed; [unfold len; lia|done].
  - change c' with (tok, eog, c').2. rewrite <- Es. apply grown_sample. apply (grown_feed _ _ _ [SequenceState.pending_ (job_state j)]) in Hg.
    rewrite len_cons, len_nil in Hg. set (p := len _) in *. replace (Z.of_N (p + _) - 1)%Z with (Z.of_N (p + count (job_state j) - 1)) by lia.
    by replace (p + count (job_state j)) with (p + count (job_state j) - 1 + (0 + 1)) at 2 by lia.
  - exists a, n. split_and!; [done..|]. unfold solo_from. simpl in *. replace (Z.of_N _ - 1 + 1)%Z
      with (Z.of_N (len (SequenceState.prompt_ (job_state j)) + count (job_state j))) in Ha by lia. done.
Qed.

(** A prompt goes on with its next chunk, and samples on the last. *)
Lemma prefill_turn j c n :
  tied j → SequenceState.inv (job_state j) → job_prefilling j = true → on_course c (job_state j) →
  0 < n ≤ SequenceState.prefill_remaining (job_state j) →
  let s' := SequenceState.set_prefilled (job_state j) (SequenceState.prefilled_ (job_state j) + n) in
  match turn w0 c (SequenceState.take_prefill_chunk (job_state j) n).1 with
  | (c', None) => on_course c' s'
  | (c', Some st) => expecting c' s' st
  end.
Proof.
  intros T I Hp Hon Hn s'. destruct (tied_size j T I) as [Hs Hne]. pose proof (SequenceState.inv_prefilled _ I) as Hle.
  unfold on_course in Hon. unfold job_prefilling in Hp. rewrite Hp in Hon. destruct Hon as (Hsu & (c0 & Ho & Hc) & Hk & Ht).
  unfold turn, SequenceState.take_prefill_chunk, SequenceState.prefill_remaining in *. rewrite N.min_l by lia. cbn [fst item_tokens item_pos0 item_sample item_seq].
  rewrite to_i32_small by lia. set (s := job_state j) in *. set (p := SequenceState.prompt_ s) in *.
  assert (Hfeed : feed w0 c (take (N.to_nat n) (drop (N.to_nat (SequenceState.prefilled_ s)) p)) (Z.of_N (SequenceState.prefilled_ s))
    = feed w0 c0 (take (N.to_nat (SequenceState.prefilled_ s + n)) p) 0%Z).
  { rewrite Hc. replace (Z.of_N (SequenceState.prefilled_ s))
      with (0 + Z.of_nat (length (take (N.to_nat (SequenceState.prefilled_ s)) p)))%Z by (rewrite length_take; unfold len in *; lia).
    rewrite law_feed_app, take_take_drop. do 2 f_equal. lia. }
  rewrite Hfeed. simpl. fold p. destruct (_ =? 0) eqn:E0; bool_hyps.
  - assert (Hall : SequenceState.prefilled_ s + n = len p) by lia. rewrite Hall, take_ge by (unfold len; lia).
    destruct (sample w0 _) as [[tok eog] c'] eqn:Es. split_and!.
    + done.
    + rewrite prefilling_spec. simpl. fold p. rewrite Hall, N.leb_refl. done.
    + change c' with (tok, eog, c').2. rewrite <- Es. by eapply law_holds_sample, law_holds_opened.
    + change c' with (tok, eog, c').2. rewrite <- Es. apply grown_sample. simpl. fold p. rewrite Hk, N.add_0_r.
      exact (grown_feed _ _ 0 p (grown_opened _ _ _ Ho)).
    + exists (alone w0 c0 (spec_of s)), (N.to_nat (max_tokens (spec_of s))). split_and!; [by exists c0|simpl; lia|]. unfold heading, alone. simpl. rewrite Hk, Ht. cbn [solo].
      destruct T as (T1 & T2 & _). fold s p in T1, T2. rewrite T1. fold (toks (req_spec (job_request j))). rewrite <- T2, Es.
      unfold solo_from. fold p. rewrite N.add_0_r. unfold len. by rewrite nat_N_Z.
  - split; [done|]. rewrite prefilling_spec. simpl. fold p.
    rewrite (proj2 (N.leb_gt _ _)) by lia. split_and!; [by exists c0|done..].
Qed.

(** What the engine's turn does for the job it serves. *)
Lemma serve_turn (e e' : E) j i c :
  weights e = w0 → tracked e j → serves j i → ctx e (job_seq j) = Some c →
  ctx e' (job_seq j) = Some (turn w0 c i).1 →
  match (turn w0 c i).2 with
  | None => item_sample i = false ∧ tracked e' (submitting j i)
  | Some st => item_sample i = true ∧ expectant e' (submitting j i) st
  end.
Proof.
  intros Hw (T & c0 & Hc0 & Tr) [Hf Sv] Hc Hc'. rewrite Hc in Hc0. injection Hc0 as <-. rewrite Hf in Tr. destruct Tr as [I Hon].
  assert (Hsam : match (turn w0 c i).2 with None => item_sample i = false | Some _ => item_sample i = true end).
  { unfold turn. destruct (item_sample i); [|done]. by destruct (sample w0 _) as [[]]. }
  destruct Sv as [[Hp ->]|[Hp (n & Hn & ->)]]; unfold submitting; rewrite Hp.
  - destruct (decode_turn j c T I Hp Hon) as (c' & st & Ht & Hx). rewrite Ht in *. simpl in *. split; [done|].
    split_and!; try done. by exists c'.
  - pose proof (prefill_turn j c n T I Hp Hon Hn) as Ht. cbv zeta in Ht.
    destruct (chunk_len (job_state j) n ltac:(lia)) as [Hl _]. rewrite Hl.
    assert (I' : SequenceState.inv (SequenceState.set_prefilled (job_state j) (SequenceState.prefilled_ (job_state j) + n))).
    { apply inv_set_prefilled; [done|]. unfold SequenceState.prefill_remaining in Hn. lia. }
    destruct (turn w0 c _) as [c' [st|]]; simpl in *; (split; [done|]).
    + split_and!; try done. by exists c'.
    + split; [done|]. exists c'. split; [done|]. unfold job_finished in *. simpl. by rewrite Hf.
Qed.

Lemma submitting_key j i : key (submitting j i) = key j.
Proof. unfold submitting. by destruct (job_prefilling j). Qed.

Lemma tracked_ctx (e e' : E) j : ctx e' (job_seq j) = ctx e (job_seq j) → tracked e j → tracked e' j.
Proof. intros Hc (T & c & Hj & Tr). split; [done|]. exists c. by rewrite Hc. Qed.

Lemma serves_small (e : E) j i : tracked e j → serves j i → len (item_tokens i) < 2147483648.
Proof.
  intros ((_ & T2 & _ & T4) & _) [_ [[_ ->]|[_ (n & Hn & ->)]]]; [done|].
  pose proof (chunk_len (job_state j) n ltac:(lia)) as [Hl _]. rewrite Hl. unfold SequenceState.prefill_remaining in Hn.
  rewrite T2 in Hn. lia.
Qed.

(** A sequence on its course has been begun. *)
Lemma on_course_begun c s : on_course c s → holds w0 c [].
Proof.
  intros [_ Hon]. destruct (SequenceState.prefilling s); revert Hon.
  - intros [(c0 & Ho & ->) _]. apply law_holds_feed; [done|by eapply begun_opened].
  - intros [Hh _]. by eapply law_holds_prefix; [apply prefix_nil|].
Qed.

(** The batches the scheduler builds can be decoded. *)
Lemma batch_decodable (e : E) act b act' duty :
  weights e = w0 → (∀ j, j ∈ act → job_finished j = false → tracked e j) → NoDup (job_seq <$> act) → len act ≤ 4294967296 →
  assigned act b act' duty → decodable e (items b).
Proof.
  intros Hw Ht Hns Hl A. assert (Hin : ∀ i, i ∈ items b → ∃ j, j ∈ act ∧ serves j i ∧ tracked e j).
  { intros i. rewrite (as_items _ _ _ _ A). intros ([j i'] & -> & Hi)%list_elem_of_fmap.
    destruct (duty_job _ _ _ _ A j i' Hi) as [Hj Sv]. exists j. split_and!; [done|done|]. apply Ht; [done|apply Sv]. }
  split_and!.
  - rewrite (duty_seqs _ _ _ _ A). eapply submseteq_NoDup_fmap; [apply A|done].
  - apply Forall_forall. intros i (j & _ & Sv & _)%Hin _. by apply (serves_seq j).
  - assert (Hn : len (items b) ≤ len act).
    { pose proof (submseteq_length _ _ (as_jobs _ _ _ _ A)) as Hs. rewrite (as_items _ _ _ _ A). unfold len.
      rewrite length_fmap. rewrite length_fmap in Hs. lia. }
    assert (Hb : ∀ its, (∀ i, i ∈ its → len (item_tokens i) < 2147483648) → batch_tokens its ≤ 2147483648 * len its).
    { induction its as [|i its IH]; intros Hi; [done|]. rewrite batch_tokens_cons, len_cons.
      specialize (IH ltac:(intros; apply Hi; set_solver)). specialize (Hi i ltac:(set_solver)). lia. }
    specialize (Hb (items b)). assert (batch_tokens (items b) ≤ 2147483648 * len (items b)); [|lia].
    apply Hb. intros i (j & _ & Sv & Tr)%Hin. by eapply serves_small.
  - intros i (j & _ & Sv & _ & c & Hc & Hon)%Hin. destruct (serves_seq j i Sv) as [-> _]. exists c. split; [done|].
    rewrite (proj1 Sv) in Hon. rewrite Hw. by eapply on_course_begun, Hon.
Qed.

(** The steps of a decoded batch, in the order of the jobs that sample. *)
Lemma batch_steps (e e' : E) act b act' duty steps :
  weights e = w0 → (∀ j, j ∈ act → job_finished j = false → tracked e j) → len act ≤ 4294967296 →
  NoDup (job_ptr <$> act) → NoDup (job_seq <$> act) →
  assigned act b act' duty → decode e (items b) = (Ok steps, e') →
  weights e' = w0 ∧ (∀ q, q ∉ item_seq <$> items b → ctx e' q = ctx e q) ∧
  ∀ j i, (j, i) ∈ duty → ∃ c, ctx e (job_seq j) = Some c ∧ ctx e' (job_seq j) = Some (turn w0 c i).1 ∧
    ∀ k, filter (λ x, item_sample x.2 = true) duty !! k = Some (j, i) → steps !! k = (turn w0 c i).2.
Proof.
  intros Hw Ht Hlen Hnp Hns A Hd.
  assert (Hctx : ∀ j i, (j, i) ∈ duty → ∃ c, ctx e (item_seq i) = Some c ∧ job_seq j = item_seq i).
  { intros j i Hi. destruct (duty_job _ _ _ _ A j i Hi) as [Hj Sv]. destruct (Ht j Hj (proj1 Sv)) as (_ & c & Hc & _).
    exists c. destruct (serves_seq j i Sv) as [-> _]. done. }
  pose proof (batch_decodable e act b act' duty Hw Ht Hns Hlen A) as Hdec. assert (He : fit (weights e)) by (by rewrite Hw).
  destruct (law_decode e e' (items b) steps He Hdec Hd) as [L1 L2].
  assert (L3 : ∀ q, q ∉ item_seq <$> items b → ctx e' q = ctx e q)
    by (intros q Hq; pose proof (law_decode_others e (items b) q He Hdec Hq) as Lo; by rewrite Hd in Lo).
  pose proof (law_decode_weights e (items b)) as Lw. rewrite Hd in Lw. simpl in Lw. rewrite Hw in *.
  split_and!; [done..|]. intros j i Hi. destruct (Hctx j i Hi) as (c & Hc & Hs). exists c. rewrite Hs. split_and!; [done| |].
  - apply L2; [|done]. rewrite (as_items _ _ _ _ A). exact (list_elem_of_fmap_2 snd _ _ Hi).
  - intros k Hk. rewrite L1, (as_items _ _ _ _ A). set (f := λ i, c ← ctx e (item_seq i); (turn w0 c i).2).
    assert (Ho : omap f duty.*2 = omap (λ x : Job * BatchItem, f x.2) duty).
    { clear. induction duty as [|y l IH]; [done|]. cbn [omap list_omap fmap list_fmap]. by rewrite IH. }
    rewrite Ho, (omap_lookup_filter _ (λ x : Job * BatchItem, item_sample x.2 = true) _ k (j, i)); [| | |done].
    + unfold f. simpl. by rewrite Hc.
    + intros [x i'] Hx Hsx%not_true_is_false. destruct (Hctx x i' Hx) as (c' & Hc' & _). unfold f, turn. simpl in *.
      by rewrite Hc', Hsx.
    + intros [x i'] Hx Hsx. destruct (Hctx x i' Hx) as (c' & Hc' & _). unfold f, turn. simpl in *. rewrite Hc', Hsx. simpl.
      by destruct (sample w0 _) as [[]].
Qed.

(** The decode of a batch takes every job one turn further. *)
Lemma batch_turns (e e' : E) act b act' duty steps :
  weights e = w0 → (∀ j, j ∈ act → job_finished j = false → tracked e j) → len act ≤ 4294967296 →
  NoDup (job_ptr <$> act) → NoDup (job_seq <$> act) →
  assigned act b act' duty → decode e (items b) = (Ok steps, e') →
  ∀ j', j' ∈ act' → (job_ptr j' ∉ sampling b → job_finished j' = false ∨ tracked e j' → tracked e' j') ∧
    (∀ k, sampling b !! k = Some (job_ptr j') → ∃ st, steps !! k = Some st ∧ expectant e' j' st).
Proof.
  intros Hw Ht Hlen Hnp Hns A Hd j' Hj'. destruct (batch_steps e e' act b act' duty steps Hw Ht Hlen Hnp Hns A Hd) as (_ & Hout & Hst).
  apply list_elem_of_lookup in Hj' as [m Hm].
  destruct (Forall2_lookup_r _ _ _ _ _ (as_moves _ _ _ _ A) Hm) as (j & Hj%list_elem_of_lookup_2 & Mv).
  pose proof (sampling_owner _ _ _ _ A Hnp j) as Hown. pose proof (duty_NoDup _ _ _ _ A Hnp) as Hnd.
  destruct Mv as [(i & Hi & ->)|[Hnot ->]].
  - destruct (Hst j i Hi) as (c & Hc & Hc' & Hk). destruct (duty_job _ _ _ _ A j i Hi) as [_ Sv].
    pose proof (serve_turn e e' j i c Hw (Ht j Hj (proj1 Sv)) Sv Hc Hc') as S.
    pose proof (submitting_key j i) as Hkey. injection Hkey as Hp _ _. rewrite Hp.
    assert (Hu : ∀ k, sampling b !! k = Some (job_ptr j) → item_sample i = true ∧ steps !! k = (turn w0 c i).2).
    { intros k Hs. destruct (Hown k Hj Hs) as (i' & Hf & Hi' & Hs'). rewrite (duty_unique _ _ _ _ Hnd Hi Hi') in *. auto. }
    destruct ((turn w0 c i).2) as [st|]; destruct S as [S1 S2]; split; try done.
    + intros Hni. destruct Hni. rewrite (as_sampling _ _ _ _ A).
      apply list_elem_of_fmap_2, (list_elem_of_fmap_2 fst _ (j, i)), list_elem_of_filter. done.
    + intros k Hs. destruct (Hu k Hs) as [_ Hst']. by exists st.
    + intros k Hs. destruct (Hu k Hs). congruence.
  - split.
    + intros _ Hor. eapply tracked_ctx; [|destruct Hor; [by apply Ht|done]]. apply Hout. rewrite (duty_seqs _ _ _ _ A).
      intros (x & Hx & Hxin)%list_elem_of_fmap. apply Hnot.
      assert (Hxa : x ∈ act) by (eapply elem_of_submseteq; [done|apply A]). by rewrite (NoDup_fmap_inj job_seq act j x Hns Hj Hxa Hx).
    + intros k Hs. destruct (Hown k Hj Hs) as (i & _ & Hi & _). by destruct Hnot; apply (list_elem_of_fmap_2 fst _ (j, i)).
Qed.

(** ** Accepting *)

(** Work that leaves the engine's sequences and the answers alone, and keeps donors or
    drops them. *)
Record gentle (w w' : t E) : Prop := mk_gentle {
  g_same : same (engine_ w) (engine_ w');
  g_results : results_ (world_ w') = results_ (world_ w);
  g_donors : ∀ h r, PrefixCache.entries_ (prefix_cache_ w') !! h = Some r →
    PrefixCache.e_retained (PrefixCache.r_entry r) = true →
    ∃ r0, PrefixCache.entries_ (prefix_cache_ w) !! h = Some r0 ∧ PrefixCache.r_entry r0 = PrefixCache.r_entry r;
  g_spare : PrefixCache.free_donor_slots_ (prefix_cache_ w') = PrefixCache.free_donor_slots_ (prefix_cache_ w) }.

#[local] Instance gentle_preorder : PreOrder gentle.
Proof.
  split.
  - intros w. split; [done|done| |done]. intros h r Hr _. by exists r.
  - intros w1 w2 w3 [A1 A2 A3 A4] [B1 B2 B3 B4]. split; [by eapply same_trans|congruence| |congruence].
    intros h r Hr Ht. destruct (B3 h r Hr Ht) as (r0 & Hr0 & E0). destruct (A3 h r0 Hr0) as (r1 & Hr1 & E1); [by rewrite E0|].
    exists r1. split; [done|congruence].
Qed.

(** The same engine and cache, and no new answers. *)
Lemma gentle_frame w w' :
  engine_ w' = engine_ w → prefix_cache_ w' = prefix_cache_ w → results_ (world_ w') = results_ (world_ w) → gentle w w'.
Proof. intros H1 H2 H3. split; [by rewrite H1|done| |by rewrite H2]. rewrite H2. intros h r Hr _. by exists r. Qed.

Lemma sync_gentle w : gentle w (sync w).
Proof. destruct (sync_frame w) as (F1 & _ & F2). apply gentle_frame; [done..|]. apply (Scheduler.s_results _ _ (sync_steady w)). Qed.

Lemma finish_job_gentle w j : gentle w (finish_job w j).1.
Proof. unfold finish_job. destruct (SequenceState.finish _ _). by apply gentle_frame. Qed.

Lemma stamp_first_gentle w j : gentle w (stamp_first clock w j).1.
Proof. unfold stamp_first. destruct (RequestTiming.first_token _); by apply gentle_frame. Qed.

Lemma publish_gentle w j : gentle w (publish w j).
Proof.
  unfold publish. destruct (_ && _); [|done]. destruct (_ && _); [|done]. split; [done|done| |done]. simpl.
  intros h r. rewrite lookup_insert. case_decide; [by intros [= <-]|]. intros Hr _. by exists r.
Qed.

Lemma accept_job_course w j st :
  weights (engine_ w) = w0 → expectant (engine_ w) j st →
  let '(more, (w', j')) := accept_job w j st in
  gentle w w' ∧ job_request j' = job_request j ∧ job_finished j' = negb more ∧ job_prefilling j' = false ∧ tied j' ∧
  (∃ c, ctx (engine_ w') (job_seq j') = Some c ∧ holds w0 c (SequenceState.prompt_ (job_state j')) ∧
     (more = true → SequenceState.inv (job_state j') ∧ on_course c (job_state j'))) ∧
  (more = false → clean (SequenceState.reason_ (job_state j')) →
     ∀ k : Sink, ∃ a, answers w0 (req_spec (job_request j')) a ∧ reached a (SequenceState.finish (job_state j') k).1).
Proof.
  intros Hw (T & Hf & I & c & Hc & Hsu & Hp & Hh & Hg & a & n & Han & Hn & Ha). unfold accept_job. pose proof (sync_gentle w) as G.
  destruct (sync_frame w) as (F1 & _). set (w1 := sync w) in *. rewrite <- F1 in Hw, Hc.
  unfold solo_from in Ha. rewrite <- Hw in Ha at 1.
  pose proof (accept_heading (engine_ w1) (flags_ (world_ w1)) (job_state j) (deref w1 (job_sink j)) st _ _ I Hf Ha) as A.
  pose proof (SequenceState.accept_frame (engine_ w1) (flags_ (world_ w1)) (job_state j) (deref w1 (job_sink j)) st) as (R1 & R2 & R3 & R4 & _).
  destruct (SequenceState.accept _ _ _ _ _) as [more [[e s] k]]. simpl in *. destruct A as (A1 & A2 & A3 & A4 & A5 & _).
  assert (Hpre : SequenceState.prefilling s = false) by (rewrite prefilling_spec in *; by rewrite R3, R4).
  destruct T as (T1 & T2 & T3). split_and!; try done.
  - split; [by eapply same_trans; [apply G|]|apply G|apply G|apply G].
  - unfold tied. simpl. by rewrite R2, R3.
  - exists c. unfold job_seq in *. simpl. destruct A1 as [_ A1]. rewrite A1, R1, R3. split_and!; try done.
    intros ->. destruct (A4 eq_refl) as (B1 & _ & B3 & B4). split; [done|]. unfold on_course, suits. rewrite Hpre, R2, R3. split; [done|]. split; [done|]. split; [lia|].
    split; [by rewrite B4; replace (_ + _ - 1) with (len (SequenceState.prompt_ (job_state j)) + count (job_state j)) by lia|].
    pose proof (SequenceState.inv_tokens _ A2) as Hm. rewrite R2 in Hm. destruct n as [|n]; [simpl in Hn; lia|].
    exists a, n. split_and!; [done|lia|]. rewrite B3, B4. replace (Z.of_N _ - 1)%Z
      with (Z.of_N (len (SequenceState.prompt_ (job_state j)) + count (job_state j))) by lia. done.
  - intros -> Hcl k'. rewrite <- T1, <- R2. exists a. split; [by rewrite R2|]. specialize (A5 eq_refl Hcl). destruct A5 as [_ A5]. split.
    + by destruct (SequenceState.finish_frame s k') as (_ & _ & ? & _).
    + rewrite <- A5. clear. unfold SequenceState.finish, SequenceState.flush_upto. destruct (SequenceState.notified_ s); [done|].
      repeat case_decide; simpl; try done; destruct (_ <? _); done.
Qed.

Lemma accept_one_course w j st :
  weights (engine_ w) = w0 → expectant (engine_ w) j st →
  let '(_, (w', j')) := accept_one w j st in
  gentle w w' ∧ job_request j' = job_request j ∧ job_prefilling j' = false ∧ tracked (engine_ w') j' ∧ settled j'.
Proof.
  intros Hw Hx. unfold accept_one. pose proof (accept_job_course w j st Hw Hx) as A.
  destruct (accept_job w j st) as [more [w1 j1]]. destruct A as (G & Hr & Hf & Hp & T & (c & Hc & Hh & Hon) & Hend). destruct more.
  - destruct (Hon eq_refl) as [I Ho]. simpl in Hf. destruct (BlockTable.ensure_capacity _ _ _) as [[ok a] tb].
    assert (Ht : ∀ w2, same (engine_ w1) (engine_ w2) → tracked (engine_ w2) (set_table j1 tb) ∧ settled (set_table j1 tb)).
    { intros w2 [_ S2]. split; [|intros Hfin; change (job_finished j1 = true) in Hfin; congruence]. split; [done|].
      exists c. unfold job_seq in *. simpl. rewrite S2. split; [done|]. unfold job_finished in *. simpl. by rewrite Hf. }
    destruct ok.
    + pose proof (publish_gentle (set_blocks w1 a) (set_table j1 tb)) as Gp. destruct (Ht _ (g_same _ _ Gp)).
      split_and!; try done. etrans; [exact G|]. etrans; [|exact Gp]. by apply gentle_frame.
    + destruct (Ht (set_blocks w1 a)); [done|]. split_and!; try done. etrans; [exact G|]. by apply gentle_frame.
  - simpl in Hf. pose proof (finish_job_gentle w1 j1) as Gf. specialize (Hend eq_refl). unfold finish_job in *.
    set (k := deref w1 (job_sink j1)) in *. specialize (λ Hcl, Hend Hcl k).
    pose proof (SequenceState.finish_frame (job_state j1) k) as ((R1 & R2 & R3 & R4 & _) & _ & _ & _ & R5).
    assert (Rr : SequenceState.reason_ (SequenceState.finish (job_state j1) k).1 = SequenceState.reason_ (job_state j1)).
    { unfold SequenceState.finish, SequenceState.flush_upto. destruct (SequenceState.notified_ _); [done|].
      case_decide; [done|]. case_decide; [|done]. simpl. by destruct (_ <? _). }
    destruct (SequenceState.finish (job_state j1) k) as [s k']. simpl in *. split_and!; [by etrans|done| | |].
    + unfold job_prefilling in *. simpl. by rewrite prefilling_spec, R3, R4, <- prefilling_spec.
    + split; [unfold tied in *; simpl; by rewrite R2, R3|]. exists c. unfold job_seq, job_finished, job_prefilling in *. simpl.
      rewrite R1, R3, R4, (R5 Hf), prefilling_spec, R3, R4, <- prefilling_spec. split_and!; [done| |by left].
      eapply law_holds_prefix; [apply prefix_take|done].
    + intros _ Hcl. simpl in *. rewrite Rr in Hcl. auto.
Qed.

Lemma tracked_same (e e' : E) j : same e e' → tracked e j → tracked e' j.
Proof. intros [_ S]. by apply tracked_ctx. Qed.

Lemma expectant_same (e e' : E) j st : same e e' → expectant e j st → expectant e' j st.
Proof. intros [_ S] (X1 & X2 & X3 & c & X4 & X5). split_and!; try done. exists c. by rewrite S. Qed.

Lemma put_job_elem j j0 act : j ∈ put_job j0 act → j = j0 ∨ (j ∈ act ∧ job_ptr j ≠ job_ptr j0).
Proof.
  unfold put_job. intros (x & -> & Hx)%list_elem_of_fmap. destruct (job_ptr x =? job_ptr j0) eqn:Ex; bool_hyps; auto.
Qed.

Lemma asked_timing j tm : asked (job_request j) → asked (job_request (set_job_timing j tm)).
Proof. done. Qed.

(** Every pointer still to come finds the token its job expects. *)
Definition in_turn (e : E) (steps : list GenStep) (k : nat) (ptrs : list N) (j : Job) : Prop :=
  asked (job_request j) ∧ (job_ptr j ∉ ptrs → tracked e j ∧ settled j) ∧
  (∀ i, ptrs !! i = Some (job_ptr j) → ∃ st, steps !! (k + i)%nat = Some st ∧ expectant e j st).

Lemma in_turn_next (e e' : E) steps k p ptrs j :
  same e e' → job_ptr j ≠ p → in_turn e steps k (p :: ptrs) j → in_turn e' steps (S k) ptrs j.
Proof.
  intros Hs Hp (T1 & T2 & T3). split_and!; [done| |].
  - intros Hj. destruct T2 as [T4 T5]; [by apply not_elem_of_cons|]. split; [by eapply tracked_same|done].
  - intros i Hi. destruct (T3 (S i) Hi) as (st & Hst & Hx). exists st. rewrite Nat.add_succ_r in Hst.
    split; [done|by eapply expectant_same].
Qed.

(** The job at [p], if there is one, has submitted its whole prompt. *)
Definition ripe (act : list Job) (p : N) : Prop := ∀ j, j ∈ act → job_ptr j = p → job_prefilling j = false.

Lemma ripe_put act j p : job_prefilling j = false → ripe act p → ripe (put_job j act) p.
Proof. intros Hj Hr x [->|[Hx _]]%put_job_elem; [done|by apply Hr]. Qed.

Lemma accept_loop_course w act steps k ptrs short :
  weights (engine_ w) = w0 → NoDup (job_ptr <$> act) → NoDup ptrs →
  (∀ j, j ∈ act → in_turn (engine_ w) steps k ptrs j) → Forall (ripe act) short →
  let '(r, (w', act', short')) := accept_loop clock w act steps k ptrs short in
  r = Ok tt ∧ gentle w w' ∧ (∀ j, j ∈ act' → asked (job_request j) ∧ tracked (engine_ w') j ∧ settled j) ∧
  Forall (ripe act') short'.
Proof.
  revert w act k short. induction ptrs as [|p ptrs IH]; intros w act k short Hw Hn Hnp Ht Hsh; cbn [accept_loop].
  { split_and!; try done. intros j Hj. destruct (Ht j Hj) as (T1 & T2 & _). split; [done|]. apply T2, not_elem_of_nil. }
  apply NoDup_cons in Hnp as [Hp Hnp]. destruct (find_job p act) as [job|] eqn:Ef.
  2: { apply IH; try done. intros j Hj. eapply in_turn_next; [done| |by apply Ht]. intros <-.
       by rewrite (find_job_elem _ _ Hn Hj) in Ef. }
  destruct (find_job_Some _ _ _ Ef) as [Hj Hptr]. destruct (Ht job Hj) as (T1 & _ & T3).
  destruct (T3 0%nat) as (st & Hst & Hx); [by rewrite Hptr|]. rewrite Nat.add_0_r in Hst.
  pose proof (stamp_first_gentle w job) as G1. pose proof (stamp_first_key clock w job) as K1.
  assert (X1 : expectant (engine_ (stamp_first clock w job).1) (stamp_first clock w job).2 st ∧ asked (job_request (stamp_first clock w job).2)).
  { split; [eapply expectant_same; [apply G1|]|]; unfold stamp_first; by destruct (RequestTiming.first_token _). }
  destruct (stamp_first clock w job) as [w1 job1]. simpl in G1, K1, X1. destruct X1 as [X1 Q1]. rewrite Hst.
  assert (Hw1 : weights (engine_ w1) = w0) by (destruct (g_same _ _ G1); congruence).
  pose proof (accept_one_course w1 job1 st Hw1 X1) as A. pose proof (accept_one_spec w1 job1 st) as [_ K2].
  destruct (accept_one w1 job1 st) as [starved [w2 job2]]. simpl in K2. destruct A as (G2 & Hr & Hpre & Tr & Se).
  assert (G : gentle w w2) by (by etrans). rewrite K1 in K2. pose proof K2 as Kp. injection Kp as Kp _ _.
  assert (Hk : key <$> put_job job2 act = key <$> act) by (eapply put_job_keys; [done|by rewrite Hptr|done]).
  specialize (IH w2 (put_job job2 act) (S k) (if starved then push_back short p else short)).
  destruct (accept_loop _ _ _ _ _ _ _) as [r [[w' act'] short']]. destruct IH as (I1 & I2 & I3 & I4).
  - destruct (g_same _ _ G). congruence.
  - by rewrite (keys_ptrs _ _ Hk).
  - done.
  - intros j [->|[Hja Hne]]%put_job_elem.
    + split_and!; [by rewrite Hr|done|]. intros i Hi%list_elem_of_lookup_2. by rewrite Kp, Hptr in Hi.
    + apply (in_turn_next (engine_ w) _ _ _ p); [apply G|congruence|by apply Ht].
  - assert (Hold : Forall (ripe (put_job job2 act)) short) by (eapply Forall_impl; [exact Hsh|]; intros q; by apply ripe_put).
    destruct starved; [|done]. unfold push_back. apply Forall_app. split; [done|]. constructor; [|done].
    intros x [->|[_ Hne]]%put_job_elem Hxp; [done|congruence].
  - split_and!; [done|by etrans|done|done].
Qed.

(** ** One decode *)

(** A batch of tokens that can be decoded and is within the engine's limit threw. *)
Definition broke : Prop :=
  ∃ (e e' : E) its what, fit (weights e) ∧ decodable e its ∧ 0 < batch_tokens its ≤ n_batch (caps e) ∧
    decode e its = (Throw what, e').

(** Slots. *)
Lemma vacant_ctx (e e' : E) q : weights e' = weights e → ctx e' q = ctx e q → vacant e q → vacant e' q.
Proof. intros Hw Hc Hv. unfold vacant. by rewrite Hw, Hc. Qed.

Lemma lent_gentle w w' : gentle w w' → lent (engine_ w) (prefix_cache_ w) → lent (engine_ w') (prefix_cache_ w').
Proof.
  intros [[_ S] _ G _] L h r Hr Ht. destruct (G h r Hr Ht) as (r0 & Hr0 & E0). rewrite <- E0 in *.
  destruct (L h r0 Hr0 Ht) as (p & spec & c & L1 & L2 & L3 & L4 & L5). exists p, spec, c. by rewrite S.
Qed.

(** The donors' slots are not those of running sequences. *)
Definition detached (c : PrefixCache.t) (act : list Job) : Prop :=
  ∀ h r, PrefixCache.entries_ c !! h = Some r → PrefixCache.e_retained (PrefixCache.r_entry r) = true →
    PrefixCache.e_seq (PrefixCache.r_entry r) ∉ job_seq <$> act.

Lemma lent_apart (e e' : E) c act :
  detached c act → (∀ q, q ∉ job_seq <$> act → ctx e' q = ctx e q) → lent e c → lent e' c.
Proof.
  intros Hd Hq L h r Hr Ht. destruct (L h r Hr Ht) as (p & spec & c' & L1 & L2 & L3 & L4 & L5).
  exists p, spec, c'. rewrite Hq by (by eapply Hd). done.
Qed.

Lemma fail_all_settled what act :
  Forall settled act → Forall asked (job_request <$> act) →
  Forall settled (fail_all what act) ∧ Forall asked (job_request <$> fail_all what act) ∧
  Forall (λ j, job_finished j = true) (fail_all what act).
Proof.
  unfold fail_all. rewrite !Forall_fmap. intros Hs Ha. split_and!.
  - eapply Forall_impl; [exact Hs|]. intros j Hj. simpl. destruct (job_finished j) eqn:Ef; [done|].
    intros _ [?|[?|?]]; done.
  - eapply Forall_impl; [exact Ha|]. intros j Hj. simpl in *. by destruct (job_finished j).
  - apply Forall_forall. intros j _. simpl. by destruct (job_finished j) eqn:Ef.
Qed.

(** Submitting changes neither what a job owes nor whether it is done. *)
Lemma submitted_settled act b act' duty j :
  Forall settled act → Forall asked (job_request <$> act) → assigned act b act' duty → j ∈ act' →
  settled j ∧ asked (job_request j).
Proof.
  intros Hse Has A [m Hm]%list_elem_of_lookup. rewrite Forall_fmap in Has. rewrite !Forall_forall in *.
  destruct (Forall2_lookup_r _ _ _ _ _ (as_moves _ _ _ _ A) Hm) as (j0 & Hj0%list_elem_of_lookup_2 & [(i & Hi & ->)|[_ ->]]);
    specialize (Has j0 Hj0); specialize (Hse j0 Hj0); [|done].
  destruct (duty_job _ _ _ _ A j0 i Hi) as [_ [Hf _]]. unfold submitting.
  destruct (job_prefilling j0); (split; [|done]); [|done]. intros Hfin. change (job_finished j0 = true) in Hfin. congruence.
Qed.

Lemma submitted_old act b act' duty : assigned act b act' duty → ∀ j, j ∈ act' → j ∈ act ∨ job_finished j = false.
Proof.
  intros A j [m Hm]%list_elem_of_lookup.
  destruct (Forall2_lookup_r _ _ _ _ _ (as_moves _ _ _ _ A) Hm) as (j0 & Hj0%list_elem_of_lookup_2 & [(i & Hi & ->)|[_ ->]]); [|by left].
  destruct (duty_job _ _ _ _ A j0 i Hi) as [_ [Hf _]]. right. unfold submitting. by destruct (job_prefilling j0).
Qed.

(** Slots outside the batch, and the spare donor slots, are as before. *)
Definition untouched (act : list Job) (w w' : t E) : Prop :=
  (∀ q, q ∉ job_seq <$> act → ctx (engine_ w') q = ctx (engine_ w) q) ∧
  PrefixCache.free_donor_slots_ (prefix_cache_ w') = PrefixCache.free_donor_slots_ (prefix_cache_ w).

(** A batch that is not empty has tokens, and is one the engine should decode. *)
Lemma batch_ready w act b act' duty :
  weights (engine_ w) = w0 → sound w act → len act ≤ 4294967296 → items b ≠ [] → NoDup (job_seq <$> act) → assigned act b act' duty →
  fit (weights (engine_ w)) ∧ decodable (engine_ w) (items b) ∧ 0 < batch_tokens (items b).
Proof.
  intros Hw [Tr _] Hlen Hne Hns A. rewrite Forall_forall in Tr. split_and!; [by rewrite Hw|by eapply batch_decodable; eauto|].
  destruct (items b) as [|i its] eqn:Ei; [done|]. rewrite batch_tokens_cons.
  assert (Hi : i ∈ items b) by (rewrite Ei; left). rewrite (as_items _ _ _ _ A) in Hi.
  apply list_elem_of_fmap in Hi as ([j i'] & -> & Hi). destruct (duty_job _ _ _ _ A j i' Hi) as [_ Sv].
  destruct (serves_seq j i' Sv) as [_ Ht]. destruct (item_tokens i') eqn:Et; [done|]. simpl. rewrite Et, len_cons. lia.
Qed.

Lemma batch_broke w act b act' duty what e' :
  weights (engine_ w) = w0 → sound w act → len act ≤ 4294967296 → items b ≠ [] → batch_tokens (items b) ≤ n_batch (caps_of w0) →
  NoDup (job_seq <$> act) → assigned act b act' duty →
  decode (engine_ w) (items b) = (Throw what, e') → broke.
Proof.
  intros Hw Hs Hlen Hne Hb Hns A Hd. destruct (batch_ready w act b act' duty Hw Hs Hlen Hne Hns A) as (R1 & R2 & R3).
  exists (engine_ w), e', (items b), what. split_and!; [done..|by rewrite law_caps, Hw|done].
Qed.

(** A successful decode and the accepts after it. *)
Lemma accepted_course w act b act' duty steps e' :
  honest w act → sound w act → len act ≤ 4294967296 → NoDup (job_ptr <$> act) → NoDup (job_seq <$> act) → detached (prefix_cache_ w) act →
  assigned act b act' duty → NoDup (job_ptr <$> act') → decode (engine_ w) (items b) = (Ok steps, e') →
  let '(r, (w2, act2, short)) := accept_loop clock (set_engine w e') act' steps 0 (sampling b) [] in
  r = Ok tt ∧ honest w2 act2 ∧ sound w2 act2 ∧ Forall (ripe act2) short ∧ untouched act w w2.
Proof.
  intros Hh Hso Hlen Hnp Hns Hdt A Hn1 Hd. pose proof Hso as [Tr Lt]. assert (Hs : NoDup (sampling b)).
  { rewrite (as_sampling _ _ _ _ A). eapply submseteq_NoDup_fmap; [|exact Hnp]. etrans; [|apply A].
    apply sublist_submseteq, fmap_sublist, sublist_filter. }
  rewrite Forall_forall in Tr. assert (Tr' : ∀ j, j ∈ act → job_finished j = false → tracked (engine_ w) j) by auto.
  destruct (batch_steps _ _ _ _ _ _ _ (h_weights _ _ Hh) Tr' Hlen Hnp Hns A Hd) as (Hw & Hout & _).
  assert (Ht : ∀ j, j ∈ act' → in_turn e' steps 0 (sampling b) j).
  { intros j Hj. destruct (batch_turns _ _ _ _ _ _ _ (h_weights _ _ Hh) Tr' Hlen Hnp Hns A Hd j Hj) as [B1 B2].
    destruct (submitted_settled _ _ _ _ _ (h_settled _ _ Hh) (h_asked _ _ Hh) A Hj). split_and!; [done| |exact B2]. intros Hns'. split; [|done].
    apply B1; [done|]. destruct (submitted_old _ _ _ _ A j Hj); [by right; auto|by left]. }
  pose proof (accept_loop_course (set_engine w e') act' steps 0 (sampling b) [] Hw Hn1 Hs Ht ltac:(constructor)) as L.
  destruct (accept_loop _ _ _ _ _ _ _) as [r [[w2 act2] short]]. destruct L as (-> & G & Hj & Hri).
  assert (Hq : ∀ q, q ∉ job_seq <$> act → ctx e' q = ctx (engine_ w) q)
    by (intros q Hq; apply Hout; intros Hin; by apply Hq, (duty_seq_jobs _ _ _ _ A)).
  assert (L1 : lent e' (prefix_cache_ w)) by (eapply lent_apart; [exact Hdt|done|exact Lt]).
  split_and!; [done|split|split|done|].
  - destruct (g_same _ _ G) as [Hg _]. simpl in Hg. congruence.
  - apply Forall_forall. intros j Hin. by apply Hj.
  - apply Forall_fmap, Forall_forall. intros j Hin. by apply Hj.
  - rewrite (g_results _ _ G). apply Hh.
  - apply Forall_forall. intros j Hin. by apply Hj.
  - by apply (lent_gentle _ _ G).
  - split; [|apply (g_spare _ _ G)]. intros q Hn. destruct (g_same _ _ G) as [_ Gs]. rewrite Gs. by apply Hq.
Qed.

Lemma decode_accept_course nb w act :
  honest w act → sound w act → len act ≤ 4294967296 → nb ≤ n_batch (caps_of w0) → NoDup (job_ptr <$> act) → NoDup (job_seq <$> act) → detached (prefix_cache_ w) act →
  let '(w', act', short) := decode_accept clock nb w act in
  honest w' act' ∧ untouched act w w' ∧ (sound w' act' ∧ Forall (ripe act') short ∨ broke ∧ Forall (λ j, job_finished j = true) act' ∧ short = []).
Proof.
  intros Hh Hso Hlen Hnb Hnp Hns Hdt. unfold decode_accept. set (chunk := prefill_chunk (config_ w)).
  pose proof (build_batch_fits nb chunk act) as Bf. pose proof (build_batch_assigned nb chunk act Hnp) as B. pose proof (build_batch_keys nb chunk act) as Kb.
  destruct (build_batch nb chunk act) as [b act1]. simpl in Kb. destruct B as (duty & A).
  pose proof (λ j, submitted_settled act b act1 duty j (h_settled _ _ Hh) (h_asked _ _ Hh)) as Hse. destruct (items b) as [|i0 its] eqn:Ei.
  { assert (Ed : duty = []) by (rewrite (as_items _ _ _ _ A) in Ei; by apply fmap_nil_inv in Ei).
    assert (act1 = act) as ->.
    { pose proof (as_moves _ _ _ _ A) as Mv. rewrite Ed in Mv. clear -Mv. induction Mv as [|x y l k M _ IH]; [done|].
      destruct M as [(i & Hi & _)|[_ ->]]; [by apply not_elem_of_nil in Hi|by f_equal]. }
    split_and!; [done|done|]. left. split; [done|constructor]. }
  rewrite <- Ei in *. destruct (decode (engine_ w) (items b)) as [[steps|what] e'] eqn:Hd.
  - pose proof (accepted_course w act b act1 duty steps e' Hh Hso Hlen Hnp Hns Hdt A ltac:(by rewrite (keys_ptrs _ _ Kb)) Hd) as L.
    destruct (accept_loop _ _ _ _ _ _ _) as [r [[w2 act2] short]]. destruct L as (-> & L1 & L2 & L3 & L4). auto.
  - destruct (fail_all_settled what act1) as (F1 & F2 & F3); [apply Forall_forall; intros j Hj; by apply (Hse j)|
      apply Forall_fmap, Forall_forall; intros j Hj; by apply (Hse j)|].
    pose proof (h_weights _ _ Hh) as Hw. pose proof (law_decode_weights (engine_ w) (items b)) as Lw. rewrite Hd in Lw. simpl in Lw.
    assert (Hdec : decodable (engine_ w) (items b)).
    { eapply batch_decodable; [done| |done|done|exact A]. intros j Hj _. pose proof (s_jobs _ _ Hso) as Tr. rewrite Forall_forall in Tr. auto. }
    split_and!; [split; try done; [simpl; congruence|apply Hh]| |right; split_and!; [|done|done]].
    + split; [|done]. intros q Hq. pose proof (law_decode_others (engine_ w) (items b) q ltac:(by rewrite Hw) Hdec) as Lo. rewrite Hd in Lo.
      apply Lo. intros Hin. by apply Hq, (duty_seq_jobs _ _ _ _ A).
    + eapply batch_broke; try done; [by rewrite Ei|simpl in Bf; lia].
Qed.

(** ** A new job *)

(** A new job starts with an empty context of its own. *)
Lemma make_job_course (w : t E) req slot :
  weights (engine_ w) = w0 → vacant (engine_ w) slot → asked req →
  match make_job w req slot with
  | (Throw _, w') => results_ (world_ w') = results_ (world_ w)
  | (Ok job, w') =>
      apart slot (engine_ w) (engine_ w') ∧ results_ (world_ w') = results_ (world_ w) ∧
      tracked (engine_ w') job ∧ settled job ∧ (job_finished job = false → job_prefilling job = true) ∧ vacant (engine_ w') slot
  end.
Proof.
  intros Hw Hv Ha. pose proof (Htame _ _ Ha) as [Hne Hsz]. unfold make_job. destruct (new_ptr w) as [ptr w1] eqn:E1.
  assert (F1 : engine_ w1 = engine_ w ∧ results_ (world_ w1) = results_ (world_ w)) by (injection E1 as _ <-; done). clear E1.
  destruct (match req_sink req with Some k => (k, w1) | None => _ end) as [sink w2] eqn:E2.
  assert (F2 : engine_ w2 = engine_ w ∧ results_ (world_ w2) = results_ (world_ w)) by (destruct F1; destruct (req_sink req); injection E2 as _ <-; simpl; split; congruence).
  clear E2. destruct F2 as [F2 F3]. rewrite F2.
  destruct (law_tokenize (engine_ w) (Types.prompt (req_spec req))) as [T1 T2].
  destruct (tokenize _ _ true) as [prompt e1]. simpl in T1, T2. rewrite Hw in T1. fold (toks (req_spec req)) in T1.
  pose proof (law_begin e1 slot (Types.sampling (req_spec req))) as Lb.
  assert (Hv1 : vacant e1 slot) by (destruct T2; by eapply vacant_ctx).
  pose proof (λ e2, law_begun e1 e2 slot (Types.sampling (req_spec req)) Hv1) as Lo.
  destruct (begin_sequence e1 slot _) as [[[]|what] e2]; [|done]. destruct (Lo e2 eq_refl) as (c0 & Lc & Lop). clear Lo. simpl in Lb.
  assert (Hw1 : weights e1 = w0) by (destruct T2; congruence). rewrite Hw1 in Lop.
  assert (Hpre : ∀ s, SequenceState.prompt_ s = prompt → SequenceState.prefilled_ s = 0 → SequenceState.prefilling s = true).
  { intros s Hp H0. rewrite prefilling_spec, Hp, H0, T1. destruct (toks (req_spec req)); [done|]. rewrite len_cons.
    destruct (N.leb_spec (len l + 1) 0); [lia|done]. }
  split_and!; [eapply apart_trans; [by apply same_apart|done]|done| |intros _; simpl; destruct (_ && _); by intros [?|[?|?]]
    |intros Hf; unfold job_prefilling; simpl; simpl in Hf; destruct (_ && _); [done|by apply Hpre]
    |intros c; simpl; rewrite Lc; intros [= <-]; destruct Lb as [Lb _]; rewrite Lb, Hw1; eauto].
  split; [unfold tied; simpl; destruct (_ && _); simpl; rewrite T1; by split_and!|].
  exists c0. unfold job_seq, job_finished. simpl. destruct (_ && _) eqn:Ec; simpl.
  - split_and!; [done| |right; split; [done|by eapply grown_opened]]. rewrite <- (law_feed_nil w0 c0 0%Z) at 1. by eapply law_holds_opened.
  - split_and!; [done|apply SequenceState.inv_make; lia|]. unfold on_course, suits. rewrite Hpre by done. simpl.
    split_and!; try done; [|exists c0; by rewrite law_feed_nil]. rewrite T1. rewrite T1, wrap32_small, add32_small, law_caps, Hw1 in Ec by (unfold toks in *; lia).
    apply andb_false_iff in Ec as [Ec|Ec]; bool_hyps; [left|right]; lia.
Qed.

End Faith.
