(* ===== verification/Capacity.v ===== *)
(** The cache promises nothing it does not have.

    The scheduler reserves the blocks of a prompt at admission and one more whenever a
    sequence outgrows its table; a sequence that cannot grow is starved, and room is
    made for it before the next batch.  Here this is put together over whole runs, for
    the scheduler without donors whose every request fits the pool: every token that a
    batch submits lies within the blocks its sequence holds ([covered]), and without
    prefix caching no two running sequences hold the same block, so that the tokens of
    all running sequences together fit the pool. *)
From Stdlib Require Import Permutation Lia.
From stdpp Require Import base list gmap strings.
From S2P Require Import Prelude Types Blocks Tables Prefix Timing Engine Sinks Sequence Mock Queue Scheduler Continuous Demo Conservation Batching Pressure StaticRun KvAccounting ContinuousRun Alone Transparency.

Local Open Scope N_scope.

Import Scheduler Continuous.

Section Run.
Context {K T bs L donors : N} {brief : RequestSpec → Prop} `{!Limits K bs L}.
Context {E : Type} `{IModelEngine E}.
Variable clock : nat → TimePoint.
Variable cfg : SchedulerConfig.

Notation first := (Z.of_N (max_batch_size cfg)).
Notation quota := (quota K bs).
Notation fits := (@fits K L first brief).
Notation kvs := (@kvs K T bs L donors brief E cfg).
Notation tidy := (@tidy K T bs L donors brief E cfg).
Notation M := (max_batch_size cfg).

Let Hbs : 0 < bs := limits_bs.
Let HK : K + bs ≤ 4294967296 := limits_K.
Hypothesis Hbrief : ∀ spec, brief spec → ∀ e : E, len (tokenize e (Types.prompt spec) true).1 + max_tokens spec ≤ K.
Hypothesis Hshare : prefix_caching cfg = true → 2 * quota ≤ L.
Hypothesis Hcbs : block_size cfg = bs.
Hypothesis Hwidth : M * L + quota * donors + quota < 4294967296.
Hypothesis HM : 0 < M.
Hypothesis Hdonors : donors = 0.
Hypothesis Hpool : quota ≤ T.

(** A running sequence has blocks for all its tokens. *)
Definition covered (j : Job) : Prop := job_finished j = false → job_tokens j ≤ bs * len (held j).

(** The sequences that are not covered are starved, and without sharing no block is
    held twice. *)
Record snug (short : list N) (act : list Job) : Prop := mk_snug {
  snug_covered j : j ∈ act → covered j ∨ job_ptr j ∈ short;
  snug_apart : prefix_caching cfg = false → NoDup (tables act) }.

Lemma snug_perm short act act' : act ≡ₚ act' → snug short act → snug short act'.
Proof.
  intros P [S1 S2]. split; [intros j; rewrite <- P; auto|]. intros Hc. rewrite <- (tables_perm _ _ P). auto.
Qed.

Lemma snug_sub short act act' : act' `sublist_of` act → snug short act → snug short act'.
Proof.
  intros Hs [S1 S2]. split; [intros j Hj; apply S1; by eapply elem_of_sublist|]. intros Hc.
  apply sublist_submseteq, submseteq_Permutation in Hs as [rest P]. specialize (S2 Hc).
  rewrite (tables_perm _ _ P), tables_app in S2. by apply NoDup_app in S2 as [? _].
Qed.

(** The job of an address changes, keeping its blocks and, while it runs, its tokens. *)
Lemma snug_state short act act' :
  Forall2 (λ j j', job_ptr j' = job_ptr j ∧ job_blocks j' = job_blocks j ∧ (covered j → covered j')) act act' →
  snug short act → snug short act'.
Proof.
  intros F [S1 S2]. split.
  - intros j' Hj'. apply list_elem_of_lookup in Hj' as [k Hk]. destruct (Forall2_lookup_r _ _ _ _ _ F Hk) as (j & Hj & Hp & _ & Hc).
    rewrite Hp. destruct (S1 j); [by eapply list_elem_of_lookup_2|left; auto|by right].
  - intros Hc. replace (tables act') with (tables act); [auto|]. clear -F. unfold tables. f_equal.
    induction F as [|j j' l l' (_ & Hb & _) _ IH]; [done|]. rewrite !fmap_cons, IH. by rewrite Hb.
Qed.

(** Blocks for [n] tokens hold [n] tokens. *)
Lemma blocks_hold a n m :
  BlockAllocator.block_size_ a = bs → n ≤ K → BlockAllocator.blocks_for a n ≤ m → n ≤ bs * m.
Proof.
  intros Ha Hn Hm. rewrite BlockAllocator.blocks_for_ceil, Ha in Hm by lia.
  pose proof (N.div_mod (n + bs - 1) bs ltac:(lia)) as Hd. pose proof (N.mod_lt (n + bs - 1) bs ltac:(lia)). nia.
Qed.

(** New blocks are in nobody's table. *)
Lemma grown_apart a a' refs extra :
  BlockAllocator.accounts a refs → BlockAllocator.accounts a' (extra ++ refs) →
  BlockAllocator.free_blocks a' = BlockAllocator.free_blocks a - len extra → len extra ≤ BlockAllocator.free_blocks a →
  BlockAllocator.total_ a' = BlockAllocator.total_ a → NoDup refs → NoDup (extra ++ refs).
Proof.
  intros A A' Hf Hl Ht Hn. destruct (BlockAllocator.used_blocks_distinct _ _ A) as [_ D].
  destruct (BlockAllocator.used_blocks_distinct _ _ A') as [_ D']. rewrite Ht, D, Hf in D'.
  apply remove_dups_NoDup. apply remove_dups_NoDup in Hn. rewrite len_app. lia.
Qed.

(** An attempt to grow a table. *)
Lemma grow_snug (w : t E) job rest n :
  kvs w (job :: rest) → n ≤ K →
  let '(ok, a, tb) := BlockTable.ensure_capacity (blocks_ w) (job_blocks job) n in
  (ok = true → n ≤ bs * len (BlockTable.blocks_ tb)) ∧ (ok = false → tb = job_blocks job) ∧
  len (held job) ≤ len (BlockTable.blocks_ tb) ∧
  (NoDup (tables (job :: rest)) → NoDup (tables (set_table job tb :: rest))).
Proof.
  intros V Hn. destruct (kv_exact _ _ _ _ V Hdonors) as [A _]. rewrite tables_cons in A.
  pose proof (kv_jobs _ _ _ _ V) as [Fj _]%Forall_cons. pose proof (fits_table _ Fj).
  pose proof (L_width cfg Hshare Hcbs Hwidth HM) as HL.
  pose proof (BlockTable.ensure_capacity_spec (blocks_ w) (job_blocks job) n _ A ltac:(lia)) as G.
  destruct (BlockTable.ensure_capacity _ _ _) as [[[] a] tb].
  - destruct G as (extra & G1 & _ & G2 & G3 & G4 & G5 & G6 & G7). rewrite G1, len_app in *. split_and!; [|done|lia|].
    + intros _. apply (blocks_hold (blocks_ w)); [apply V|done|lia].
    + rewrite !tables_cons. intros Hd. simpl. rewrite G1.
      assert (Hp : (held job ++ extra) ++ tables rest ≡ₚ extra ++ held job ++ tables rest) by solve_Permutation.
      rewrite Hp in G7 |- *. by eapply grown_apart.
  - destruct G as (_ & -> & _). by split_and!.
Qed.

(** ** Accepting *)

Lemma accept_one_snug (w : t E) job rest step :
  kvs w (job :: rest) →
  let '(starved, (w', job')) := accept_one w job step in
  (covered job' ∨ starved = true) ∧ (NoDup (tables (job :: rest)) → NoDup (tables (job' :: rest))).
Proof.
  intros V. pose proof (kv_jobs _ _ _ _ V) as [Fj _]%Forall_cons. unfold accept_one.
  pose proof (accept_job_fits cfg Hshare Hcbs Hwidth HM w job step Fj) as (A1 & A2 & A0 & A3 & A4 & A5 & A6 & A7 & A8).
  pose proof (accept_job_spec w job step) as (_ & _ & B1 & _).
  destruct (accept_job w job step) as [more [w1 job1]]. simpl in *. injection A2 as K1 K2 K3 K4.
  assert (V1 : kvs w1 (job1 :: rest)) by (unfold ContinuousRun.kvs in *; rewrite A6, A7; by eapply kv_state).
  destruct more.
  - pose proof (grow_snug w1 job1 rest (job_tokens job1) V1 (job_tokens_fit _ A1)) as G.
    destruct (BlockTable.ensure_capacity _ _ _) as [[ok a] tb]. destruct G as (G1 & _ & _ & G4).
    rewrite tables_cons, B1, <- tables_cons in G4.
    destruct ok; (split; [|exact G4]); [left|by right]. intros _. by apply G1.
  - pose proof (finish_job_fits cfg w1 job1 A1 A3) as (_ & F2 & F3 & _).
    destruct (finish_job w1 job1) as [w2 job2]. simpl in *. split; [left; intros ?; congruence|].
    rewrite !tables_cons. injection F3 as _ _ _ ->. by rewrite B1.
Qed.

Lemma tables_apart act act' : tables act ≡ₚ tables act' → NoDup (tables act) → NoDup (tables act').
Proof. by intros ->. Qed.

(** Writing back the job of an address. *)
Lemma snug_put short short' act rest job job' :
  act ≡ₚ job :: rest → snug short act → (∀ p, p ∈ short → p ∈ short') →
  covered job' ∨ job_ptr job' ∈ short' →
  (NoDup (tables (job :: rest)) → NoDup (tables (job' :: rest))) →
  snug short' (job' :: rest).
Proof.
  intros P Sn Hsub Hj Ht. apply (snug_perm _ _ _ P) in Sn as [S1 S2]. split; [|auto].
  intros j [->|Hin]%elem_of_cons; [done|]. destruct (S1 j); [by right|by left|right; auto].
Qed.

Lemma accept_loop_snug (w : t E) act steps k ptrs short :
  kvs w act → NoDup (job_ptr <$> act) → snug short act →
  let '(_, (w', act', short')) := accept_loop clock w act steps k ptrs short in snug short' act'.
Proof.
  revert w act k short. induction ptrs as [|p ptrs IH]; intros w act k short V Hn Sn; cbn [accept_loop]; [done|].
  destruct (find_job p act) as [job|] eqn:Ef; [|by apply IH].
  destruct (put_job_perm p job act Hn Ef) as (rest & Pa & Pp). destruct (find_job_Some _ _ _ Ef) as [Hin Hptr].
  pose proof (kvs_proper _ _ _ _ Pa V) as V0. pose proof (kv_jobs _ _ _ _ V0) as [Fj _]%Forall_cons.
  pose proof (stamp_first_fits clock cfg w job Fj) as (S1 & _ & S0 & S3). pose proof (stamp_first_ok clock w job) as (S4 & S5 & S6).
  destruct (stamp_first clock w job) as [w1 job1]. simpl in *. injection S5 as K1 K2 K3 K4.
  assert (V1 : kvs w1 (job1 :: rest)) by (unfold ContinuousRun.kvs in *; rewrite S3, S6; by eapply kv_state).
  assert (Hp1 : job_ptr job1 = p) by congruence.
  assert (Ht : tables (job1 :: rest) = tables (job :: rest)) by (rewrite !tables_cons; by rewrite K4).
  assert (Hc1 : covered job1 ∨ job_ptr job1 ∈ short).
  { rewrite Hp1, <- Hptr. destruct (snug_covered _ _ Sn job Hin) as [Hc|]; [left|by right].
    unfold covered, job_tokens, job_usage, job_finished in *. by rewrite S4, K4. }
  destruct (steps !! k) as [step|].
  2: { eapply snug_perm; [symmetry; by apply Pp|]. eapply snug_put; [exact Pa|done|done|done|by rewrite Ht]. }
  pose proof (accept_one_kv cfg Hshare Hcbs Hwidth HM w1 job1 rest step V1) as A. pose proof (accept_one_snug w1 job1 rest step V1) as B.
  destruct (accept_one w1 job1 step) as [starved [w2 job2]]. destruct A as (A1 & A2 & _), B as [B1 B2].
  assert (Hp2 : job_ptr job2 = p) by (injection A2; congruence).
  assert (Hk : key <$> put_job job2 act = key <$> act).
  { rewrite <- Hptr in Ef. eapply put_job_keys; [done|exact Ef|]. rewrite A2. unfold key. congruence. }
  apply IH; [by eapply kvs_proper; [symmetry; apply Pp|]|by rewrite (keys_ptrs _ _ Hk)|].
  eapply snug_perm; [symmetry; by apply Pp|]. eapply snug_put; [exact Pa|done| | |by rewrite <- Ht].
  - intros q Hq. destruct starved; [|done]. apply elem_of_app. by left.
  - destruct B1 as [?| ->]; [by left|right]. rewrite Hp2. apply elem_of_app. right. apply list_elem_of_here.
Qed.

(** Submitting prompt tokens changes neither tables nor counts. *)
Lemma build_snug nb chunk short act : snug short act → snug short (build_batch nb chunk act).2.
Proof.
  intros Sn. unfold build_batch. destruct (build_decodes act nb) as [d budget]. set (cap := if chunk =? 0 then nb else chunk).
  enough (F : Forall2 (λ j j', job_ptr j' = job_ptr j ∧ job_blocks j' = job_blocks j ∧ (covered j → covered j')) act
    (build_prefills act budget cap).2) by (destruct (build_prefills act budget cap); by eapply snug_state).
  clear. revert budget. induction act as [|j act IH]; intros budget; cbn [build_prefills]; [constructor|].
  destruct (_ || _); [specialize (IH budget); destruct (build_prefills _ _ _); by constructor|].
  set (n := N.min _ _). destruct (n =? 0); [specialize (IH budget); destruct (build_prefills _ _ _); by constructor|].
  unfold SequenceState.take_prefill_chunk. set (item := mkItem _ _ _ _).
  specialize (IH (budget - len (item_tokens item))). destruct (build_prefills _ _ _). by constructor.
Qed.

Lemma finished_snug short act : Forall (λ j, job_finished j = true) act → (prefix_caching cfg = false → NoDup (tables act)) → snug short act.
Proof. intros F Ht. split; [|done]. intros j Hj. rewrite Forall_forall in F. left. intros Hf. specialize (F j Hj). congruence. Qed.

Lemma decode_accept_snug nb (w : t E) act :
  kvs w act → NoDup (job_ptr <$> act) → snug [] act →
  let '(w', act', short) := decode_accept clock nb w act in snug short act'.
Proof.
  intros V Hn Sn. unfold decode_accept. set (chunk := prefill_chunk (config_ w)).
  pose proof (build_batch_kv cfg Hshare Hcbs Hwidth HM nb chunk w act V) as B. pose proof (build_batch_keys nb chunk act) as Kb.
  pose proof (build_snug nb chunk [] act Sn) as Sn1. destruct (build_batch nb chunk act) as [b act1]. simpl in Kb, Sn1.
  destruct B as [V1 _]. destruct (items b) as [|i its] eqn:Ei; [done|].
  assert (Hf : ∀ what short act0, snug short act0 → snug short (fail_all what act0)).
  { intros what short act0 S0. eapply snug_state; [|exact S0]. unfold fail_all. clear.
    induction act0 as [|j act0 IH]; [constructor|]. rewrite fmap_cons. constructor; [|done]. destruct (job_finished j); done. }
  destruct (decode (engine_ w) (i :: its)) as [[steps|what] e]; [|by apply Hf].
  pose proof (accept_loop_snug (set_engine w e) act1 steps 0 (sampling b) [] V1 ltac:(by rewrite (keys_ptrs _ _ Kb)) Sn1) as A.
  destruct (accept_loop _ _ _ _ _ _ _) as [[u|what] [[w2 act2] short]]; [done|by apply Hf].
Qed.

(** ** Making room *)

(** Making room for the sequence at [p] only takes jobs away, and grows its table. *)
Record eased (p : N) (l l' : Loop E) : Prop := mk_eased {
  eased_jobs j' : j' ∈ active l' → ∃ j, j ∈ active l ∧ job_ptr j' = job_ptr j ∧ job_state j' = job_state j ∧
    (job_ptr j ≠ p → j' = j);
  eased_apart : NoDup (tables (active l)) → NoDup (tables (active l')) }.

Lemma eased_sub p (l l' : Loop E) : active l' `sublist_of` active l → eased p l l'.
Proof.
  intros Hs. split.
  - intros j' Hj'. exists j'. split_and!; try done. by eapply elem_of_sublist.
  - apply sublist_submseteq, submseteq_Permutation in Hs as [rest P]. rewrite (tables_perm _ _ P), tables_app.
    by intros [? _]%NoDup_app.
Qed.

Lemma eased_trans p l1 l2 l3 : eased p l1 l2 → eased p l2 l3 → eased p l1 l3.
Proof.
  intros [J1 A1] [J2 A2]. split; [|auto]. intros j3 (j2 & H2 & P2 & S2 & E2)%J2. destruct (J1 j2 H2) as (j1 & H1 & P1 & S1 & E1).
  exists j1. split_and!; [done|congruence..|]. intros Hp. rewrite E2; [auto|congruence].
Qed.

Lemma grow_job_eased (l : Loop E) p n :
  kvs (sched l) (active l) → NoDup (job_ptr <$> active l) → n ≤ K → eased p l (grow_job l p n).2.
Proof.
  intros V Hn HnK. unfold grow_job. destruct (find_job p (active l)) as [job|] eqn:Ef; [|by apply eased_sub].
  destruct (put_job_perm p job _ Hn Ef) as (rest & Pa & Pp). destruct (find_job_Some _ _ _ Ef) as [_ Hptr].
  pose proof (grow_snug _ _ _ n (kvs_proper _ _ _ _ Pa V) HnK) as G.
  destruct (BlockTable.ensure_capacity _ _ _) as [[ok a] tb]. destruct G as (_ & _ & _ & G).
  pose proof (Pp (set_table job tb) Hptr) as P. split; simpl.
  - intros j'. rewrite P, elem_of_cons. intros [->|Hj].
    + exists job. split_and!; try done. rewrite Pa. apply list_elem_of_here.
    + exists j'. split_and!; try done. rewrite Pa. by apply list_elem_of_further.
  - rewrite (tables_perm _ _ Pa), (tables_perm _ _ P). exact G.
Qed.

Lemma preempt_one_eased p (l : Loop E) except : eased p l (preempt_one l except).2.
Proof.
  pose proof (preempt_one_spec l except) as P. destruct (preempt_one l except) as [[|] l']; [|destruct P as [-> _]; by apply eased_sub].
  destruct P as (older & v & newer & P1 & P2 & _). apply eased_sub. simpl. rewrite P1, P2.
  apply sublist_app; [done|by apply sublist_cons].
Qed.

Lemma grow_by_donors_eased n (l : Loop E) p needed :
  kvs (sched l) (active l) → inv cfg l → needed ≤ K → eased p l (grow_by_donors n l p needed).
Proof.
  revert l. induction n as [|n IH]; intros l V I HnK; [by apply eased_sub|]. cbn [grow_by_donors].
  pose proof (grow_job_kv cfg Hshare Hcbs Hwidth HM l p needed V (inv_ptrs _ _ I) HnK) as (G1 & _).
  pose proof (grow_job_eased l p needed V (inv_ptrs _ _ I) HnK) as Ge. pose proof (grow_job_inv cfg l p needed I) as I1.
  destruct (grow_job l p needed) as [[|] l1]; simpl in *; [done|]. eapply eased_trans; [exact Ge|].
  pose proof (reclaim_donor_blocks_kv cfg _ _ G1) as V1. pose proof (quiet_reclaim_donor_blocks (sched l1)) as Q.
  destruct (reclaim_donor_blocks (sched l1)) as [[|] w]; [|by apply eased_sub]. simpl in V1, Q.
  eapply eased_trans; [apply (eased_sub p l1 (mkLoop w (active l1) (free_slots l1) (pending l1))); done|].
  apply IH; [done|by apply inv_world|done].
Qed.

Lemma grow_by_preempting_eased n (l : Loop E) p needed :
  kvs (sched l) (active l) → inv cfg l → needed ≤ K → eased p l (grow_by_preempting n l p needed).
Proof.
  revert l. induction n as [|n IH]; intros l V I HnK; [by apply eased_sub|]. cbn [grow_by_preempting].
  pose proof (grow_job_kv cfg Hshare Hcbs Hwidth HM l p needed V (inv_ptrs _ _ I) HnK) as (G1 & _).
  pose proof (grow_job_eased l p needed V (inv_ptrs _ _ I) HnK) as Ge. pose proof (grow_job_inv cfg l p needed I) as I1.
  destruct (grow_job l p needed) as [[|] l1]; simpl in *; [done|]. eapply eased_trans; [exact Ge|].
  pose proof (preempt_one_eased p l1 (Some p)) as Pe. pose proof (preempt_one_kv cfg l1 (Some p) G1) as (P1 & _).
  pose proof (preempt_one_inv cfg l1 (Some p) I1) as I2.
  destruct (preempt_one l1 (Some p)) as [[|] l2]; simpl in *; [|done]. eapply eased_trans; [exact Pe|by apply IH].
Qed.

(** A starved sequence is covered once room has been made, and nobody else loses
    blocks without leaving. *)
Lemma resolve_one_snug (l : Loop E) p short :
  kvs (sched l) (active l) → inv cfg l → Forall (λ j, job_finished j = false) (active l) → snug (p :: short) (active l) →
  snug short (active (resolve_one l p)) ∧ Forall (λ j, job_finished j = false) (active (resolve_one l p)).
Proof.
  intros V I Hrun Sn. pose proof (inv_ptrs _ _ I) as Hn. rewrite Forall_forall in Hrun.
  assert (Hrest : ∀ j, j ∈ active l → job_ptr j ≠ p → covered j ∨ job_ptr j ∈ short).
  { intros j Hj Hne. destruct (snug_covered _ _ Sn j Hj) as [?|[?|?]%elem_of_cons]; [by left|done|by right]. }
  destruct (find_job p (active l)) as [job|] eqn:Ef.
  2: { assert (Hr : resolve_one l p = l) by (unfold resolve_one; by rewrite Ef). rewrite Hr. split; [|by apply Forall_forall].
       split; [|apply Sn]. intros j Hj. apply Hrest; [done|]. intros <-. by rewrite (find_job_elem _ _ Hn Hj) in Ef. }
  destruct (find_job_Some _ _ _ Ef) as [Hin Hptr]. pose proof (kv_jobs _ _ _ _ V) as Hfits. rewrite Forall_forall in Hfits.
  pose proof (job_tokens_fit _ (Hfits job Hin)) as Ht. destruct (kv_exact _ _ _ _ V Hdonors) as [A Hret].
  pose proof (L_width cfg Hshare Hcbs Hwidth HM) as HL.
  assert (Hfit : BlockAllocator.blocks_for (blocks_ (sched l)) (job_tokens job) ≤ BlockAllocator.total_ (blocks_ (sched l))).
  { rewrite (kv_total _ _ _ _ V). etrans; [|exact Hpool]. by apply blocks_for_limit; [apply V|..]. }
  assert (Mr : making_room p (key job) l job).
  { split; try done; [intros j Hj; pose proof (fits_table _ (Hfits j Hj)); lia|]. unfold pool, PrefixCache.retained_blocks.
    by rewrite Hret. }
  destruct (resolve_one_room l p job Mr Hfit) as (j2 & [M1 M2 _ M4 _ _] & Hj2 & _).
  assert (Ea : eased p l (resolve_one l p)).
  { unfold resolve_one. rewrite Ef. unfold BlockAllocator.total_blocks. rewrite (proj2 (N.ltb_ge _ _) Hfit).
    eapply eased_trans; [by apply grow_by_donors_eased|]. apply grow_by_preempting_eased; [|by apply grow_by_donors_inv|done].
    by apply (grow_by_donors_kv cfg Hshare Hcbs Hwidth HM). }
  set (l' := resolve_one l p) in *. split; [|by apply Forall_forall]. split; [|intros Hc; by apply (eased_apart _ _ _ Ea), (snug_apart _ _ Sn)].
  intros j' Hj'. destruct (eased_jobs _ _ _ Ea j' Hj') as (j & Hj & Hp & Hst & He).
  destruct (decide (job_ptr j = p)) as [Hjp|Hjp]; [|rewrite (He Hjp); auto]. left. intros _.
  assert (j' = j2) as -> by (rewrite <- Hjp, <- Hp, (find_job_elem _ _ M1 Hj') in M2; by injection M2).
  assert (j = job) as -> by (by apply (NoDup_fmap_inj job_ptr _ _ _ Hn Hj Hin); congruence).
  unfold job_tokens, job_usage in *. rewrite Hst. apply (blocks_hold (blocks_ (sched l))); [apply V|done|done].
Qed.

Lemma resolve_snug (l : Loop E) short :
  kvs (sched l) (active l) → inv cfg l → Forall (λ j, job_finished j = false) (active l) → snug short (active l) →
  snug [] (active (resolve l short)).
Proof.
  unfold resolve. revert l. induction short as [|p short IH]; intros l V I Hr Sn; [done|]. simpl.
  destruct (resolve_one_snug l p short V I Hr Sn) as [S1 R1].
  apply IH; [apply (resolve_one_kv cfg Hshare Hcbs Hwidth HM l p V I)|by apply resolve_one_inv|done|done].
Qed.

(** ** The iteration *)

Lemma sweep_all_snug short (l : Loop E) :
  snug short (active l) →
  snug short (active (sweep_all clock l)) ∧ Forall (λ j, job_finished j = false) (active (sweep_all clock l)).
Proof.
  intros Sn. unfold sweep_all. pose proof (sweep_spec clock (sched l) (free_slots l) (active l)) as Sw.
  destruct (sweep _ _ _ _) as [[w slots] act]. destruct Sw as (_ & _ & _ & _ & ->). simpl. split.
  - eapply snug_sub; [apply sublist_filter|done].
  - apply Forall_forall. by intros j [? _]%list_elem_of_filter.
Qed.

Lemma advance_snug nb (l : Loop E) :
  inv cfg l → kvs (sched l) (active l) → snug [] (active l) → snug [] (active (advance clock nb l)).
Proof.
  intros I V Sn. unfold advance. pose proof (decode_accept_snug nb (sched l) (active l) V (inv_ptrs _ _ I) Sn) as D.
  pose proof (decode_accept_kv clock cfg Hshare Hcbs Hwidth HM nb (sched l) (active l) V (inv_ptrs _ _ I)) as D1.
  pose proof (decode_accept_spec clock nb (sched l) (active l) (inv_ptrs _ _ I)) as Sp.
  destruct (decode_accept _ _ _ _) as [[w act] short]. destruct D1 as (D1 & _), Sp as [S1 S2].
  pose proof (inv_in_place _ _ _ _ I S1 S2) as I1. set (l0 := mkLoop w act (free_slots l) (pending l)) in *.
  destruct (sweep_all_snug short l0 D) as [A1 A2].
  destruct (sweep_all_kv clock cfg Hbrief Hshare Hcbs Hwidth HM l0 D1 I1) as (A3 & _).
  destruct (sweep_all_inv clock cfg l0 I1) as [I2 _]. by apply sweep_all_snug, resolve_snug.
Qed.

(** ** Admission *)

Lemma make_job_new (w w' : t E) req seq job :
  make_job w req seq = (Ok job, w') → Types.completion_tokens (job_usage job) = 0.
Proof.
  unfold make_job. destruct (new_ptr w) as [ptr w1]. destruct (match req_sink req with Some k => (k, w1) | None => _ end) as [sink w2].
  destruct (tokenize _ _ _) as [prompt e1]. destruct (begin_sequence _ _ _) as [[u|what] e2]; [|done].
  intros [= <- _]. unfold job_usage. simpl. by destruct (_ && _).
Qed.

Lemma reserve_snug (w : t E) act job :
  kvs w act → fits job → held job = [] → Types.completion_tokens (job_usage job) = 0 →
  let '(ok, (w', job')) := reserve w act job in
  ok = true → covered job' ∧ (NoDup (tables act) → NoDup (tables (job' :: act))).
Proof.
  intros V F Hb H0. unfold reserve. set (target := add32 _ _).
  pose proof (reclaim_until_kv cfg (donor_bound w) target w act V) as V0. set (w1 := reclaim_until _ _ _) in *.
  pose proof (kv_enter _ _ _ _ _ V0 F Hb) as V1. destruct (job_finished job) eqn:Ef.
  { intros _. split; [intros ?; congruence|]. by rewrite tables_cons, Hb. }
  destruct (_ <=? _); [|done].
  assert (Hp : Types.prompt_tokens (job_usage job) ≤ K) by (destruct F as [_ _ F3 F4 _ _ _ _]; rewrite F3; lia).
  pose proof (grow_snug w1 job act _ V1 Hp) as G. destruct (BlockTable.ensure_capacity _ _ _) as [[ok a] tb].
  destruct G as (G1 & _ & _ & G2). intros ->. rewrite tables_cons, Hb in G2. split; [|exact G2]. intros _.
  unfold job_tokens, job_usage in *. simpl. rewrite H0, add32_small by lia. rewrite N.add_0_r. by apply G1.
Qed.

Lemma adopted_blocks a tb ids n : BlockTable.blocks_ (BlockTable.adopt_shared_prefix a tb ids n).2 = BlockTable.blocks_ tb ++ ids.
Proof.
  assert (G : ∀ a0 bl, (BlockTable.adopt_loop a0 bl ids).2 = bl ++ ids).
  { unfold BlockTable.adopt_loop. induction ids as [|id ids IH]; intros a0 bl; simpl; [by rewrite app_nil_r|].
    rewrite IH. unfold push_back. by rewrite <- app_assoc. }
  unfold BlockTable.adopt_shared_prefix. specialize (G a (BlockTable.blocks_ tb)).
  destruct (BlockTable.adopt_loop _ _ _) as [a' bl]. exact G.
Qed.

(** A shared prefix adds blocks, and none is shared without prefix caching. *)
Lemma share_prefix_snug (w w' : t E) job job' :
  share_prefix w job = (Ok job', w') → config_ w = cfg → covered job →
  covered job' ∧ (prefix_caching cfg = false → job' = job).
Proof.
  intros Hs Hc Hj. unfold share_prefix in Hs. rewrite Hc in Hs. destruct (prefix_caching cfg && _) eqn:Eg.
  2: { injection Hs as <- _. done. }
  bool_hyps. split; [|congruence]. destruct (PrefixCache.find_longest _ _ _) as [[hit|] c]; [|by injection Hs as <- _].
  destruct (_ =? _)%Z; [by injection Hs as <- _|]. destruct (copy_sequence _ _ _ _) as [[u|what] e]; [|done].
  pose proof (adopted_blocks (blocks_ (set_cache w c)) (job_blocks job) (PrefixCache.e_blocks hit) (PrefixCache.e_n_tokens hit)) as Ab.
  destruct (BlockTable.adopt_shared_prefix _ _ _ _) as [a tb]. injection Hs as <- _. unfold covered in *. simpl in *.
  intros Hf. specialize (Hj Hf). rewrite Ab, len_app. unfold job_tokens, job_usage in *. simpl. nia.
Qed.

Lemma admit_one_snug (w w' : t E) act slot req job :
  kvs w act → config_ w = cfg → (0 ≤ slot < first)%Z → brief (req_spec req) → snug [] act →
  admit_one clock w act slot req = (Ok (Running job), w') → snug [] (job :: act).
Proof.
  intros V Hc Hs Hb Sn. unfold admit_one. pose proof (make_job_fits cfg Hbrief Hshare Hcbs Hwidth HM w req slot Hs Hb) as Mk.
  pose proof (make_job_spec w req slot) as Sp. destruct (make_job w req slot) as [[job0|what] w1] eqn:Em; [|done].
  apply make_job_new in Em. destruct Mk as (M1 & M2 & _ & M3 & M4 & _), Sp as (_ & _ & _ & _ & Sc & _).
  assert (V1 : kvs w1 act) by (unfold ContinuousRun.kvs; by rewrite M3, M4).
  pose proof (reserve_snug w1 act job0 V1 M1 M2 Em) as R. pose proof (reserve_spec w1 act job0) as [Qr _].
  destruct (reserve w1 act job0) as [[|] [w2 job1]]; simpl in Qr.
  2: { destruct act; [destruct (finish_job _ _)|]; done. }
  destruct (R eq_refl) as [R1 R2]. destruct (share_prefix w2 job1) as [[job2|what] w3] eqn:Es; [|done].
  apply share_prefix_snug in Es as [S1 S2]; [|rewrite (q_config _ _ Qr); congruence|done].
  intros [= <- _]. split.
  - intros j [->|Hj]%elem_of_cons; [by left|]. by apply Sn.
  - intros Hcache. rewrite tables_cons. simpl. rewrite (S2 Hcache), <- tables_cons. by apply R2, Sn.
Qed.

Lemma admit_loop_snug (w : t E) act (slots : list SeqId) pend l' :
  kvs w act → config_ w = cfg → len act + len slots ≤ M → Forall (λ s, (0 ≤ s < first)%Z) slots →
  Forall (λ r, brief (req_spec r)) pend → snug [] act →
  admit_loop clock w act slots pend = (Ok tt, l') → snug [] (active l').
Proof.
  revert w act slots. induction pend as [|req pend IH]; intros w act slots V Hc Hl Hf Hp Sn; cbn [admit_loop].
  { by intros [= <-]. }
  apply Forall_cons in Hp as [Hr Hp]. destruct (back slots) as [slot|] eqn:Hs; [|by intros [= <-]].
  apply back_Some in Hs. assert (Hpop : len slots = len (pop_back slots) + 1) by (rewrite Hs at 1; rewrite len_app; done).
  pose proof Hf as Hf'. rewrite Hs in Hf'. apply Forall_app in Hf' as [Hf1 [Hf2 _]%Forall_cons].
  pose proof (admit_one_kv clock cfg Hbrief Hshare Hcbs Hwidth HM w act slot req V Hc ltac:(lia) Hf2 Hr) as A.
  pose proof (λ job w', admit_one_snug w w' act slot req job V Hc Hf2 Hr Sn) as B.
  destruct (admit_one clock w act slot req) as [[[|r|job]|what] w1]; [| | |done]; destruct A as (A1 & _ & _ & A4).
  - by apply IH.
  - by intros [= <-].
  - assert (P : push_back act job ≡ₚ job :: act) by (unfold push_back; by rewrite Permutation_app_comm).
    apply IH; [by eapply kvs_proper; [symmetry; exact P|]|done| |done|done|].
    + unfold push_back. rewrite len_app. unfold len in *. simpl. lia.
    + eapply snug_perm; [symmetry; exact P|]. by eapply B.
Qed.

(** ** The loop *)

(** [l1] is the loop when the batch of an iteration from [l] is built: work has been
    taken from the queue, and what fits has been admitted. *)
Definition assembles (l l1 : Loop E) : Prop :=
  ∃ pend w, take_work (N.to_nat (max_batch_size (config_ (sched l)) - (len (pending l) + len (active l))))
              (sched l) (active l) (pending l) = (Some pend, w) ∧
    admit_loop clock w (active l) (free_slots l) pend = (Ok tt, l1).

Lemma assembles_snug (l l1 : Loop E) :
  tidy l → snug [] (active l) → assembles l l1 →
  inv cfg l1 ∧ kvs (sched l1) (active l1) ∧ config_ (sched l1) = cfg ∧ snug [] (active l1).
Proof.
  intros [I V B _] Sn (pend & w & Et & Ea). set (room := N.to_nat _) in Et.
  pose proof (take_work_inv clock cfg l pend w I Et) as I1. pose proof (take_work_spec clock room (sched l) (active l) (pending l)) as T1.
  destruct (take_work_frame clock cfg Hshare Hcbs Hwidth room (sched l) (active l) (pending l)) as [(S1 & S2 & _) Tp]. rewrite Et in T1, S1, S2, Tp. simpl in *.
  destruct T1 as (C1 & _), (Tp pend eq_refl) as (more & Hmore & Hm & _).
  assert (V1 : kvs w (active l)) by (unfold ContinuousRun.kvs in *; by rewrite S1, S2).
  apply Forall_app in B as [B1 B2]. assert (B3 : Forall (λ r, brief (req_spec r)) (more ++ incoming w))
    by (eapply Forall_sublist; [exact Hm|done]).
  apply Forall_app in B3 as [B3 _]. assert (Bp : Forall (λ r, brief (req_spec r)) pend) by (rewrite Hmore; by apply Forall_app).
  destruct (slot_bounds cfg Hshare Hcbs Hwidth HM l I) as (Hslots & Hfirst & _). assert (Hcw : config_ w = cfg) by (rewrite C1; apply I).
  pose proof (admit_loop_inv clock cfg w (active l) (free_slots l) pend I1) as Ai.
  pose proof (admit_loop_kv clock cfg Hbrief Hshare Hcbs Hwidth HM w (active l) (free_slots l) pend V1 Hcw Hslots Hfirst Bp) as Ak.
  pose proof (admit_loop_snug w (active l) (free_slots l) pend l1 V1 Hcw Hslots Hfirst Bp Sn Ea) as Sn1. rewrite Ea in Ai, Ak.
  destruct Ak as (Ak1 & Ak2 & _). done.
Qed.

Lemma iterate_snug nb (l l' : Loop E) :
  tidy l → snug [] (active l) → iterates clock nb l l' → snug [] (active l').
Proof.
  intros Td Sn. unfold iterates, iterate. set (room := N.to_nat _).
  destruct (take_work room (sched l) (active l) (pending l)) as [[pend|] w] eqn:Et; [|done].
  assert (G : ∀ l1, admit_loop clock w (active l) (free_slots l) pend = (Ok tt, l1) →
    snug [] (active (match active l1 with [] => l1 | _ => advance clock nb l1 end))).
  { intros l1 Ea. destruct (assembles_snug l l1 Td Sn) as (I1 & V1 & _ & Sn1); [by exists pend, w|].
    destruct (active l1) eqn:E1; [by rewrite E1|]. apply advance_snug; [done| |]; by rewrite E1. }
  destruct (active l) as [|j act] eqn:Eact, pend as [|r pend]; [done|..];
    destruct (admit_loop _ _ _ _ _) as [[[]|what] l1]; try done; specialize (G l1 eq_refl);
    destruct (active l1); by intros [= <-].
Qed.

Lemma iterates_snug nb (l l' : Loop E) :
  rtc (iterates clock nb) l l' → tidy l → snug [] (active l) → tidy l' ∧ snug [] (active l').
Proof.
  induction 1 as [|l l1 l' St _ IH]; [done|]. intros Td Sn. apply IH; [|by eapply iterate_snug].
  apply (iterates_tidy clock cfg Hbrief Hshare Hcbs Hwidth HM nb l); [by apply rtc_once|done].
Qed.

(** ** What it means for a batch *)

(** The tokens an item submits end within the tokens of its job. *)
Lemma serves_within j i :
  K < 2147483648 → fits j → covered j → serves j i →
  (item_pos0 i + Z.of_N (len (item_tokens i)) ≤ Z.of_N (bs * len (held j)))%Z.
Proof.
  intros HK31 F Hc [Hf Hs]. specialize (Hc Hf). unfold job_tokens in Hc. pose proof F as [_ _ F3 F4 F5 _ _ _].
  rewrite F3, add32_small in Hc by lia. unfold job_usage in *. destruct Hs as [[_ ->]|[_ (n & Hn & ->)]]; simpl.
  - unfold SequenceState.feed_pos. rewrite !to_i32_small by lia. lia.
  - unfold SequenceState.prefill_remaining in *. rewrite to_i32_small by lia.
    rewrite N.min_l by lia. unfold len at 1. rewrite length_take, length_drop. unfold len in *. lia.
Qed.

(** The tokens of the sequences that run. *)
Definition resident (act : list Job) : N := fold_right N.add 0 (job_tokens <$> filter (λ j, job_finished j = false) act).

Lemma resident_tables act : (∀ j, j ∈ act → covered j) → resident act ≤ bs * len (tables act).
Proof.
  unfold resident. induction act as [|j act IH]; intros Hc; [simpl; lia|].
  rewrite tables_cons, len_app. specialize (IH ltac:(intros; apply Hc; by right)). specialize (Hc j (list_elem_of_here _ _)).
  destruct (decide (job_finished j = false)) as [Hf|Hf]; [rewrite filter_cons_True by done|rewrite filter_cons_False by done; nia].
  rewrite fmap_cons. cbn [fold_right]. specialize (Hc Hf). nia.
Qed.

Lemma resident_fits (w : t E) act :
  kvs w act → snug [] act → prefix_caching cfg = false →
  resident act ≤ bs * BlockAllocator.used_blocks (blocks_ w) ∧ BlockAllocator.used_blocks (blocks_ w) ≤ T.
Proof.
  intros V [S1 S2] Hc. destruct (kv_exact _ _ _ _ V Hdonors) as [A _].
  destruct (BlockAllocator.used_blocks_distinct _ _ A) as [U1 U2]. rewrite (kv_total _ _ _ _ V) in U2.
  specialize (S2 Hc). apply remove_dups_NoDup in S2. split; [|lia]. rewrite U1, S2. apply resident_tables.
  intros j Hj. destruct (S1 j Hj) as [?|Hn]; [done|]. by apply not_elem_of_nil in Hn.
Qed.
End Run.

(** ** The scheduler as it is constructed *)

Section Scheduler.
Context {E : Type} `{IModelEngine E}.
Variable clock : nat → TimePoint.

(** C11: every token that is decoded has its place in the cache.  Take a scheduler
    without donors ([leaked_blocks_oversubscribe] is a run with donors) whose requests need
    at most [K < 2^31] tokens and fit the pool one by one, in any interleaving with
    its clients and under any pressure: whenever a batch is built, each item continues a
    running sequence and submits only positions that lie within the blocks this sequence
    holds, so that no sequence outgrows its table between a starved step and the next
    batch.  Without prefix caching the tokens of all running sequences together fit the
    blocks in use, and these the pool. *)
Theorem tokens_have_blocks K (w : t E) nb (l l1 : Loop E) :
  fresh K w → K < 2147483648 → prefix_donors (config_ w) = 0 →
  quota K (block_size (config_ w)) ≤ kv_blocks (config_ w) →
  rtc (iterates clock nb) (init w) l → assembles clock l l1 →
  (∀ i, i ∈ items (build_batch nb (prefill_chunk (config_ w)) (active l1)).1 →
     ∃ j, j ∈ active l1 ∧ job_seq j = item_seq i ∧
       (item_pos0 i + Z.of_N (len (item_tokens i)) ≤ Z.of_N (block_size (config_ w) * len (held j)))%Z) ∧
  (prefix_caching (config_ w) = false →
     resident (active l1) ≤ block_size (config_ w) * BlockAllocator.used_blocks (blocks_ (sched l1)) ∧
     BlockAllocator.used_blocks (blocks_ (sched l1)) ≤ kv_blocks (config_ w)).
Proof.
  intros F HK31 HD Hq R As. pose proof (fresh_limits K w F) as Lim. pose proof (fresh_tidy K w F) as Td.
  assert (Sn : snug (bs := block_size (config_ w)) (config_ w) [] (active (init w)))
    by (split; [intros j Hj; by apply not_elem_of_nil in Hj|constructor]).
  destruct (iterates_snug (brief := within K) clock (config_ w) (λ _ Hs, Hs) (fresh_share K w) eq_refl (fresh_width _ _ F)
    (fresh_batch _ _ F) HD Hq nb _ _ R Td Sn) as [Td1 Sn1].
  destruct (assembles_snug (brief := within K) clock (config_ w) (λ _ Hs, Hs) (fresh_share K w) eq_refl (fresh_width _ _ F)
    (fresh_batch _ _ F) HD Hq l l1 Td1 Sn1 As) as (I1 & V1 & _ & Sn2). split.
  - intros i Hi. pose proof (build_batch_assigned nb (prefill_chunk (config_ w)) (active l1) (inv_ptrs _ _ I1)) as B.
    destruct (build_batch _ _ _) as [b act1]. destruct B as (duty & A). simpl in Hi. rewrite (as_items _ _ _ _ A) in Hi.
    apply list_elem_of_fmap in Hi as ([j i'] & -> & Hi). destruct (duty_job _ _ _ _ A j i' Hi) as [Hj Sv].
    exists j. simpl. split_and!; [done|symmetry; by apply (serves_seq j)|].
    pose proof (kv_jobs _ _ _ _ V1) as Hfits. rewrite Forall_forall in Hfits.
    apply (serves_within (brief := within K (E := E)) (config_ w) (fresh_share K w) eq_refl (fresh_width _ _ F) (fresh_batch _ _ F) HD Hq);
      [done|by apply Hfits| |done]. destruct (snug_covered _ _ _ Sn2 j Hj) as [?|Hn]; [done|].
    by apply not_elem_of_nil in Hn.
  - intros Hc. by apply (resident_fits (brief := within K) (config_ w) (fresh_share K w) eq_refl (fresh_width _ _ F) (fresh_batch _ _ F) HD Hq).
Qed.

End Scheduler.

(** ** The default pool *)

(** When no size is configured the pool covers the context, rounded up to whole blocks:
    it holds exactly what the backend can hold when blocks divide the context, and up to
    one block more otherwise. *)
Theorem default_pool {E : Type} `{IModelEngine E} (e : E) cap cfg v :
  let w := make e (RequestQueue.make cap) cfg v in
  let size := BlockAllocator.total_ (blocks_ w) * block_size (config_ w) in
  kv_blocks cfg = 0 → 0 < n_ctx (caps e) → n_ctx (caps e) + block_size (config_ w) < 4294967296 →
  n_ctx (caps e) ≤ size < n_ctx (caps e) + block_size (config_ w) ∧
  (size = n_ctx (caps e) ↔ n_ctx (caps e) mod block_size (config_ w) = 0).
Proof.
  intros w size Hk Hc Hw. subst size w. cbn [make config_ blocks_ block_size] in *. rewrite Hk in *. simpl in *.
  set (b := if block_size cfg =? 0 then 16 else block_size cfg) in *. set (c := n_ctx (caps e)) in *.
  assert (Hb : 0 < b) by (unfold b; destruct (N.eqb_spec (block_size cfg) 0); lia).
  rewrite (proj2 (N.ltb_lt _ _) Hc).
  rewrite add32_small, sub32_small by lia. pose proof (N.div_mod (c + b - 1) b ltac:(lia)) as Hd.
  pose proof (N.mod_lt (c + b - 1) b ltac:(lia)) as Hm. set (q := (c + b - 1) / b) in *. set (r := (c + b - 1) mod b) in *.
  split; [nia|]. split.
  - intros Hq. rewrite <- Hq. apply N.Div0.mod_mul.
  - intros Hc0. apply N.Div0.mod_divides in Hc0 as [k Hk0]. assert (q = k) by nia. nia.
Qed.

(** ** Witnesses *)

(** The loop when the next batch is built. *)
Definition assembled {E : Type} `{IModelEngine E} (l : Loop E) : Loop E :=
  match take_work (N.to_nat (max_batch_size (config_ (sched l)) - (len (pending l) + len (active l))))
          (sched l) (active l) (pending l) with
  | (Some pend, w) => (admit_loop demo_clock w (active l) (free_slots l) pend).2
  | (None, _) => l
  end.

Definition assembles_now {E : Type} `{IModelEngine E} (l : Loop E) : bool :=
  match take_work (N.to_nat (max_batch_size (config_ (sched l)) - (len (pending l) + len (active l))))
          (sched l) (active l) (pending l) with
  | (Some pend, w) => match (admit_loop demo_clock w (active l) (free_slots l) pend).1 with Ok _ => true | Throw _ => false end
  | (None, _) => false
  end.

Lemma assembled_assembles {E : Type} `{IModelEngine E} (l : Loop E) : assembles_now l = true → assembles demo_clock l (assembled l).
Proof.
  unfold assembles_now, assembled, assembles. destruct (take_work _ _ _ _) as [[pend|] w]; [|done].
  destruct (admit_loop demo_clock w (active l) (free_slots l) pend) as [[[]|what] l1] eqn:Ea; [|done].
  intros _. by exists pend, w.
Qed.

(** Two requests in a pool that one of them can fill. *)
Definition crowded : t MockModelEngine.t :=
  demo_sched (mkConfig 2 kContinuous 5 2 0 false 128)
    [[ASubmit (demo_req 1 "a" 7); ASubmit (demo_req 2 "a" 7)]; [AClose]].

Lemma crowded_fresh : fresh 9 crowded.
Proof.
  split; try (vm_compute; reflexivity).
  vm_compute (incoming crowded). repeat constructor; intros e; vm_compute; discriminate.
Qed.

(** In the third iteration both run, with eight tokens in four blocks; in the fourth
    one has been preempted, as the other needs a third block. *)
Lemma tokens_have_blocks_witness :
  let l := after 2 crowded in
  job_tokens <$> active (assembled l) = [4; 4] ∧ job_tokens <$> active (after 3 crowded) = [5] ∧
  resident (active (assembled l)) ≤ 2 * BlockAllocator.used_blocks (blocks_ (sched (assembled l))) ∧
  BlockAllocator.used_blocks (blocks_ (sched (assembled l))) ≤ 5.
Proof.
  intros l. split; [vm_compute; reflexivity|]. split; [vm_compute; reflexivity|].
  destruct (tokens_have_blocks demo_clock 9 crowded 16 l (assembled l) crowded_fresh) as [_ Hr].
  - lia.
  - reflexivity.
  - vm_compute. discriminate.
  - apply after_reached. repeat constructor; vm_compute; reflexivity.
  - apply assembled_assembles. vm_compute. reflexivity.
  - exact (Hr eq_refl).
Defined.

(** ** With donors *)

(** A prompt asked three times, which leaks both donors, and then a request that needs
    the whole pool. *)
Definition leaky : t MockModelEngine.t :=
  demo_sched (mkConfig 2 kContinuous 6 4 2 true 128)
    (concat ((λ i, [[ASubmit (demo_req (N.of_nat i) "hello y" 2)]; []; []; []; []; []; []; []]) <$> seq 1 3) ++
     [[ASubmit (demo_req 4 "z" 20)]; [AClose]]).

(** Leaked blocks let a sequence outgrow its table.  The comment beside the loop
    that preempts for a starved sequence says that evicting the others is guaranteed to
    make room.  Once donors have leaked, four of six blocks belong to nobody: the last
    request, which would fit the pool, finds no one to evict and runs on with two blocks
    of four tokens each until it has 22 tokens, and is answered as if nothing had
    happened. *)
Theorem leaked_blocks_oversubscribe :
  let l := after 29 leaky in
  (λ j, (job_finished j, job_tokens j, held j)) <$> active l = [(false, 22, [5; 4])] ∧
  BlockAllocator.total_ (blocks_ (sched l)) = 6 ∧ block_size (config_ (sched l)) = 4 ∧
  PrefixCache.retained (prefix_cache_ (sched l)) = [] ∧
  BlockAllocator.free_blocks (blocks_ (sched l)) = 0 ∧
  let (o, w) := run_continuous demo_clock 60 leaky in
  o = Returned ∧ (λ x, (x.1, res_reason x.2)) <$> results_ (world_ w) =
    [(1, kMaxTokens); (2, kMaxTokens); (3, kMaxTokens); (4, kMaxTokens)].
Proof. vm_compute. split_and!; reflexivity. Qed.
