(* ===== verification/TransparentRun.v ===== *)
(** The run of continuous batching answers every request as if it ran alone.

    [Transparency.v] says what one decode and the accepts after it do to the invariant
    [honest]/[sound]; this file follows it through the other phases of an iteration, on
    top of [ContinuousRun.tidy]: retiring (with donors), making room (with preemption)
    and admission (with shared prefixes). *)
From Stdlib Require Import Permutation Lia.
From stdpp Require Import base list gmap strings.
From S2P Require Import Prelude Types Blocks Tables Prefix Timing Engine Sinks Sequence Mock Generator Queue Scheduler Continuous Static Demo Conservation Batching Pressure StaticRun KvAccounting ContinuousRun Alone Transparency.

Local Open Scope N_scope.

Import Scheduler Continuous.

Section Run.
Context {K T bs L donors : N} {brief : RequestSpec → Prop} `{!Limits K bs L}.
Context {E W C : Type} `{IModelEngine E} `{!SeqModel E W C} `{!SeqLaws E W C}.
Variable clock : nat → TimePoint.
Variable cfg : SchedulerConfig.
Variable w0 : W.
Variable asks : list (PromiseId * RequestSpec).

Notation first := (Z.of_N (max_batch_size cfg)).
Notation kvs := (@kvs K T bs L donors brief E cfg).
Notation M := (max_batch_size cfg).
Notation honest := (honest (E := E) w0 asks).
Notation sound := (sound (E := E) w0 asks).
Notation toks := (toks (E := E) w0).

Hypothesis Hbrief : ∀ spec, brief spec → ∀ e : E, len (tokenize e (Types.prompt spec) true).1 + max_tokens spec ≤ K.
Hypothesis Hshare : prefix_caching cfg = true → 2 * quota K bs ≤ L.
Hypothesis Hcbs : block_size cfg = bs.
Hypothesis Hwidth : M * L + quota K bs * donors + quota K bs < 4294967296.
Hypothesis HM : 0 < M.
Hypothesis Htame : ∀ p spec, (p, spec) ∈ asks → tame (E := E) w0 spec.
Hypothesis Hfit : fit w0.
Hypothesis Hids : M ≤ 2147483648.
(** Prefix caching asks for an engine that can copy part of a sequence. *)
Hypothesis Hsharable : prefix_caching cfg = true → shares w0.

(** ** Frames *)

Lemma honest_frame (w w' : t E) act :
  weights (engine_ w') = weights (engine_ w) → results_ (world_ w') = results_ (world_ w) →
  honest w act → honest w' act.
Proof. intros H1 H2 [A1 A2 A3 A4]. split; try done; [congruence|by rewrite H2]. Qed.

Lemma honest_sub (w : t E) act act' : (∀ j, j ∈ act' → j ∈ act) → honest w act → honest w act'.
Proof.
  intros Hs [A1 A2 A3 A4]. rewrite Forall_fmap in A3. rewrite Forall_forall in A2, A3. split; try done.
  - apply Forall_forall. auto.
  - apply Forall_fmap, Forall_forall. intros j Hj. apply A3. auto.
Qed.

Lemma sound_sub (w : t E) act act' : (∀ j, j ∈ act' → j ∈ act) → sound w act → sound w act'.
Proof. intros Hs [A1 A2]. split; [|done]. rewrite Forall_forall in *. auto. Qed.

(** Working on a slot that neither a running sequence nor a donor uses. *)
Lemma sound_frame q (w w' : t E) act :
  apart q (engine_ w) (engine_ w') → q ∉ job_seq <$> act →
  (∀ h r, PrefixCache.entries_ (prefix_cache_ w') !! h = Some r →
     PrefixCache.e_retained (PrefixCache.r_entry r) = true →
     PrefixCache.e_seq (PrefixCache.r_entry r) ≠ q ∧
     ∃ r0, PrefixCache.entries_ (prefix_cache_ w) !! h = Some r0 ∧ PrefixCache.r_entry r0 = PrefixCache.r_entry r) →
  sound w act → sound w' act.
Proof.
  intros [_ Ha] Hq Hc [S1 S2]. split.
  - rewrite Forall_forall in *. intros j Hj. eapply tracked_ctx; [|by apply S1]. apply Ha. intros <-.
    by apply Hq, list_elem_of_fmap_2.
  - intros h r Hr Ht. destruct (Hc h r Hr Ht) as (Hne & r0 & Hr0 & E0). rewrite <- E0 in *.
    destruct (S2 h r0 Hr0 Ht) as (p & spec & c & L1 & L2 & L3 & L4 & L5). exists p, spec, c. by rewrite Ha.
Qed.

Lemma sound_gentle (w w' : t E) act : gentle w w' → sound w act → sound w' act.
Proof.
  intros G [S1 S2]. split; [|by eapply lent_gentle]. eapply Forall_impl; [exact S1|]. intros j. apply tracked_same, G.
Qed.

Lemma honest_gentle (w w' : t E) act : gentle w w' → honest w act → honest w' act.
Proof. intros G. apply honest_frame; [apply G|apply G]. Qed.

(** ** Slots *)

Lemma entry_retained (c : PrefixCache.t) h r :
  PrefixCache.entries_ c !! h = Some r → PrefixCache.e_retained (PrefixCache.r_entry r) = true →
  PrefixCache.r_entry r ∈ PrefixCache.retained c.
Proof.
  intros Hr Ht. apply PrefixCache.elem_of_retained. split; [done|]. exists h, (PrefixCache.r_last_used r). by destruct r.
Qed.

Notation kv := (@kv K T bs L donors first brief).

Lemma job_slot d a c act q : kv d a c act → (first ≤ q)%Z → q ∉ job_seq <$> act.
Proof.
  intros V Hq (j & -> & Hj)%list_elem_of_fmap. pose proof (kv_jobs _ _ _ _ V) as F. rewrite Forall_forall in F.
  pose proof (fits_seq _ (F j Hj)). lia.
Qed.

Lemma kvs_detached (w : t E) act : kvs w act → detached (prefix_cache_ w) act.
Proof.
  intros V h r Hr Ht. eapply job_slot; [exact V|].
  by destruct (donor_seq _ _ _ _ _ V (entry_retained _ _ _ Hr Ht)).
Qed.

(** A free donor slot is nobody's. *)
Lemma free_donor_slot d a c act q :
  kv d a c act → q ∈ PrefixCache.free_donor_slots_ c →
  (first ≤ q)%Z ∧ ∀ e, e ∈ PrefixCache.retained c → PrefixCache.e_seq e ≠ q.
Proof.
  intros V Hq. destruct (kv_pool _ _ _ _ V) as (refs & _ & lk & lost & _ & So & _).
  unfold PrefixCache.slots_ok in So. rewrite (kv_first _ _ _ _ V) in So. split.
  - assert (Hs : q ∈ PrefixCache.free_donor_slots_ c ++ (PrefixCache.e_seq <$> PrefixCache.retained c) ++ d ++ lost)
      by (rewrite !elem_of_app; auto).
    rewrite So in Hs. apply PrefixCache.elem_of_donor_slots in Hs. lia.
  - assert (Hn : NoDup (PrefixCache.free_donor_slots_ c ++ (PrefixCache.e_seq <$> PrefixCache.retained c) ++ d ++ lost))
      by (rewrite So; apply PrefixCache.donor_slots_NoDup).
    intros e He <-. apply NoDup_app in Hn as (_ & Hn & _). apply (Hn _ Hq). rewrite elem_of_app. left. by apply list_elem_of_fmap_2.
Qed.

(** ** Slots nobody uses *)

(** The slots of no running sequence, those reserved for donors apart, and the spare
    donor slots. *)
Definition idle (w : t E) (act : list Job) (q : SeqId) : Prop :=
  ¬ (first ≤ q < first + Z.of_N donors)%Z ∧ q ∉ job_seq <$> act ∨ q ∈ PrefixCache.free_donor_slots_ (prefix_cache_ w).

(** They hold nothing, so that a sequence can begin there. *)
Definition vacated (w : t E) (act : list Job) : Prop := ∀ q, idle w act q → vacant (engine_ w) q.

Lemma vacated_apart q (w w' : t E) act act' :
  apart q (engine_ w) (engine_ w') → (∀ q', q' ≠ q → idle w' act' q' → idle w act q') →
  (idle w' act' q → vacant (engine_ w') q) → vacated w act → vacated w' act'.
Proof.
  intros [Hw Hc] Hi Hq Hv q' Hq'. destruct (decide (q' = q)) as [->|Hne]; [auto|]. eapply vacant_ctx; [done|by apply Hc|auto].
Qed.

Lemma vacated_untouched (w w' : t E) act act' :
  weights (engine_ w') = weights (engine_ w) → job_seq <$> act' = job_seq <$> act →
  (∀ q, q ∈ PrefixCache.free_donor_slots_ (prefix_cache_ w) → q ∉ job_seq <$> act) →
  untouched act w w' → vacated w act → vacated w' act'.
Proof.
  intros Hw Hs Hd [Hc Hf] Hv q Hq. unfold idle in Hq. rewrite Hs, Hf in Hq.
  eapply vacant_ctx; [done|apply Hc; destruct Hq as [[_ ?]|?]; auto|auto].
Qed.

Lemma vacated_gentle (w w' : t E) act act' :
  gentle w w' → (∀ q, q ∈ job_seq <$> act → q ∈ job_seq <$> act') → vacated w act → vacated w' act'.
Proof.
  intros [[Hw Hc] _ _ Hf] Hs Hv q Hq. unfold idle in Hq. rewrite Hf in Hq. eapply vacant_ctx; [done|apply Hc|].
  apply Hv. destruct Hq as [[? ?]|?]; [left; auto|by right].
Qed.

Lemma vacated_sub (w : t E) act act' : (∀ q, q ∈ job_seq <$> act → q ∈ job_seq <$> act') → vacated w act → vacated w act'.
Proof. apply vacated_gentle. by apply gentle_frame. Qed.

Lemma spare_slot d (w : t E) act q :
  kv d (blocks_ w) (prefix_cache_ w) act → q ∈ PrefixCache.free_donor_slots_ (prefix_cache_ w) → (0 ≤ q)%Z ∧ q ∉ job_seq <$> act.
Proof. intros V Hq. destruct (free_donor_slot _ _ _ _ _ V Hq) as [H1 _]. split; [lia|by eapply job_slot]. Qed.

(** ** Donors *)

Lemma reclaim_donor_blocks_vacated (w : t E) act : kvs w act → vacated w act → vacated (reclaim_donor_blocks w).2 act.
Proof.
  intros V Hv. unfold reclaim_donor_blocks. pose proof (PrefixCache.evict_lru_cases (prefix_cache_ w)) as Ca.
  pose proof (kv_evict_lru _ _ _ _ V) as Ev. destruct (PrefixCache.evict_lru_retained (prefix_cache_ w)) as [[e|] c]; [|done].
  destruct Ca as (_ & _ & Hf & _), Ev as [V1 _].
  destruct (free_donor_slot _ _ _ _ (PrefixCache.e_seq e) V1) as [F1 _]; [rewrite Hf; set_solver|].
  assert (H0 : (0 ≤ PrefixCache.e_seq e)%Z) by lia.
  apply (vacated_apart (PrefixCache.e_seq e) w _ act); [by apply law_release| |intros _; by apply law_released|done].
  intros q Hq [?|Hin]; [by left|right]. simpl in Hin. rewrite Hf in Hin. set_solver.
Qed.

Lemma reclaim_donor_blocks_sound (w : t E) act :
  kvs w act → sound w act → sound (reclaim_donor_blocks w).2 act.
Proof.
  intros V S. unfold reclaim_donor_blocks. pose proof (kv_evict_lru _ _ _ _ V) as Ev.
  pose proof (PrefixCache.evict_lru_cases (prefix_cache_ w)) as Ca.
  destruct (PrefixCache.evict_lru_retained (prefix_cache_ w)) as [[e|] c]; [|done].
  destruct Ev as [V1 _], Ca as (_ & _ & Hf & _ & _ & h & k & Hh & Hd & _).
  destruct (free_donor_slot _ _ _ _ (PrefixCache.e_seq e) V1) as [F1 F2]; [rewrite Hf; set_solver|].
  apply (sound_frame (PrefixCache.e_seq e) w); [apply law_release; lia|by eapply job_slot| |done].
  simpl. intros h' r Hr Ht. split; [by eapply F2, entry_retained|]. rewrite Hd in Hr. apply lookup_delete_Some in Hr as [_ Hr]. by exists r.
Qed.

Lemma reclaim_donor_blocks_honest (w : t E) act : honest w act → honest (reclaim_donor_blocks w).2 act.
Proof.
  unfold reclaim_donor_blocks. destruct (PrefixCache.evict_lru_retained _) as [[e|] c]; [|done].
  apply honest_frame; [apply law_release_weights|done].
Qed.

Lemma reclaim_until_course n target (w : t E) act :
  kvs w act → honest w act → sound w act → vacated w act →
  honest (reclaim_until n target w) act ∧ sound (reclaim_until n target w) act ∧ vacated (reclaim_until n target w) act.
Proof.
  revert w. induction n as [|n IH]; intros w V Hh S Hv; [done|]. simpl. destruct (_ <? _); [|done].
  pose proof (reclaim_donor_blocks_kv cfg w act V) as V1. pose proof (reclaim_donor_blocks_vacated w act V Hv) as Hv1. pose proof (reclaim_donor_blocks_honest w act Hh) as H1.
  pose proof (reclaim_donor_blocks_sound w act V S) as S1. destruct (reclaim_donor_blocks w) as [[|] w1]; [by apply IH|done].
Qed.

Lemma take_donor_slot_entries c : PrefixCache.entries_ (PrefixCache.take_donor_slot c).2 = PrefixCache.entries_ c.
Proof. unfold PrefixCache.take_donor_slot. by destruct (back _). Qed.

Lemma take_donor_slot_free c :
  match PrefixCache.take_donor_slot c with
  | (Some slot, c') => PrefixCache.free_donor_slots_ c = PrefixCache.free_donor_slots_ c' ++ [slot]
  | (None, c') => c' = c
  end.
Proof. unfold PrefixCache.take_donor_slot. destruct (back _) as [slot|] eqn:Eb; [|done]. by apply back_Some. Qed.

(** Taking a slot does not disturb what is known of the others. *)
Lemma take_donor_slot_course (w : t E) act :
  honest w act → sound w act → vacated w act →
  let (slot, c) := PrefixCache.take_donor_slot (prefix_cache_ w) in
  honest (set_cache w c) act ∧ sound (set_cache w c) act ∧ vacated (set_cache w c) act ∧
  ∀ q, slot = Some q → vacant (engine_ w) q.
Proof.
  intros Hh S Hv. pose proof (take_donor_slot_entries (prefix_cache_ w)) as Te. pose proof (take_donor_slot_free (prefix_cache_ w)) as Tf.
  destruct (PrefixCache.take_donor_slot (prefix_cache_ w)) as [slot c]. simpl in Te. split_and!.
  - by eapply honest_frame; [..|exact Hh].
  - destruct S as [S1 S2]. split; [done|]. unfold lent in *. simpl. by rewrite Te.
  - intros q Hq. apply (Hv q). destruct Hq as [?|Hq]; [by left|right]. simpl in Hq. destruct slot; [rewrite Tf; set_solver|by subst].
  - intros q ->. apply Hv. right. rewrite Tf. set_solver.
Qed.

Lemma find_donor_slot_course (w : t E) act :
  kvs w act → honest w act → sound w act → vacated w act →
  let (slot, w') := find_donor_slot w in
  honest w' act ∧ sound w' act ∧ vacated w' act ∧ ∀ q, slot = Some q → vacant (engine_ w') q.
Proof.
  intros V Hh S Hv. unfold find_donor_slot. pose proof (take_donor_slot_course w act Hh S Hv) as Tc.
  destruct (PrefixCache.take_donor_slot (prefix_cache_ w)) as [[slot|] c]; [exact Tc|]. clear Tc.
  pose proof (reclaim_donor_blocks_honest w act Hh) as H1. pose proof (reclaim_donor_blocks_sound w act V S) as S1.
  pose proof (reclaim_donor_blocks_vacated w act V Hv) as V1. unfold reclaim_donor_blocks in H1, S1, V1.
  destruct (PrefixCache.evict_lru_retained _) as [[e|] c1]; [|done]. cbn [snd] in H1, S1, V1.
  set (w1 := release_donor (set_cache w c1) e) in *. pose proof (take_donor_slot_course w1 act H1 S1 V1) as Tc.
  by destruct (PrefixCache.take_donor_slot (prefix_cache_ w1)) as [slot c2].
Qed.

(** A donor slot in one's hand is nobody's. *)
Lemma hand_slot slot d a c act :
  kv (slot :: d) a c act →
  (first ≤ slot < first + Z.of_N donors)%Z ∧ (∀ e, e ∈ PrefixCache.retained c → PrefixCache.e_seq e ≠ slot) ∧ slot ∉ PrefixCache.free_donor_slots_ c.
Proof.
  intros V. split; [|split; [intros e He Hq; destruct (donor_seq _ _ _ _ e V He) as [_ Hd]; rewrite Hq in Hd; set_solver|]].
  2: { destruct (kv_pool _ _ _ _ V) as (refs & _ & lk & lost & _ & So & _). intros Hin.
       assert (Hn : NoDup (PrefixCache.free_donor_slots_ c ++ (PrefixCache.e_seq <$> PrefixCache.retained c) ++ (slot :: d) ++ lost))
         by (rewrite So; apply PrefixCache.donor_slots_NoDup).
       apply NoDup_app in Hn as (_ & Hn & _). apply (Hn _ Hin). set_solver. }
  destruct (kv_pool _ _ _ _ V) as (refs & _ & lk & lost & _ & So & _).
  unfold PrefixCache.slots_ok in So. rewrite (kv_first _ _ _ _ V), (kv_capacity _ _ _ _ V) in So.
  assert (Hs : slot ∈ PrefixCache.free_donor_slots_ c ++ (PrefixCache.e_seq <$> PrefixCache.retained c) ++ (slot :: d) ++ lost)
    by (rewrite !elem_of_app, elem_of_cons; auto).
  rewrite So in Hs. apply PrefixCache.elem_of_donor_slots in Hs. lia.
Qed.

(** What follows on a slot in one's hand does not disturb the others. *)
Lemma hand_frame slot d (w w' : t E) act :
  kv (slot :: d) (blocks_ w) (prefix_cache_ w) act → apart slot (engine_ w) (engine_ w') →
  (∀ h r, PrefixCache.entries_ (prefix_cache_ w') !! h = Some r → PrefixCache.entries_ (prefix_cache_ w) !! h = Some r) →
  sound w act → sound w' act.
Proof.
  intros V Ha He. destruct (hand_slot _ _ _ _ _ V) as (H1 & H2 & _). apply (sound_frame slot); [done|eapply job_slot; [exact V|lia]|].
  intros h r Hr Ht. apply He in Hr. split; [by eapply H2, entry_retained|by exists r].
Qed.

Lemma evict_sequence_fewer c s h r :
  PrefixCache.entries_ (PrefixCache.evict_sequence c s) !! h = Some r → PrefixCache.entries_ c !! h = Some r.
Proof.
  destruct (PrefixCache.evict_sequence_spec c s) as [_ Hl]. rewrite Hl.
  destruct (PrefixCache.entries_ c !! h) as [r0|]; [|done]. by case_decide.
Qed.

(** The tokens a finished sequence has in the engine, when there is something to keep. *)
Lemma finished_holds (e : E) job n :
  tracked w0 e job → job_finished job = true → held job ≠ [] →
  ∃ c, ctx e (job_seq job) = Some c ∧ holds w0 c (take n (toks (req_spec (job_request job)))).
Proof.
  intros ((_ & T2 & _) & c & Hc & Tr) Hf Hne. rewrite Hf in Tr. destruct Tr as [Hh [Hp|[? _]]]; [|done].
  exists c. split; [done|]. eapply law_holds_prefix; [apply prefix_take|]. rewrite <- T2.
  unfold job_prefilling in Hp. rewrite prefilling_spec in Hp. bool_hyps. by rewrite take_ge in Hh by (unfold len in *; lia).
Qed.

(** The whole blocks of a prompt that [retain_prefix] keeps. *)
Lemma kept_tokens spec :
  tame (E := E) w0 spec →
  let n := mul32 (wrap32 (len (toks spec)) / bs) bs in n ≤ len (toks spec) ∧ n < 2147483648 ∧ (n ≠ 0 → 0 < n / bs).
Proof.
  intros [_ Hs]. assert (Hbs : 0 < bs) by apply limits_bs. rewrite wrap32_small by lia.
  pose proof (N.Div0.mul_div_le (len (toks spec)) bs). rewrite mul32_small by lia. cbv zeta. split_and!; [lia|lia|].
  intros Hn. rewrite N.div_mul by lia. apply N.neq_0_lt_0. intros E0. by rewrite E0 in Hn.
Qed.

(** A new donor lends what the sequence has computed. *)
Lemma donor_lends (e e1 e2 : E) job slot n params :
  shares w0 → weights e = w0 → asked asks (job_request job) → tracked w0 e job → job_finished job = true → held job ≠ [] →
  (0 ≤ job_seq job)%Z → (0 ≤ slot)%Z → vacant e slot → n ≤ len (toks (req_spec (job_request job))) → n < 2147483648 → job_seq job ≠ slot →
  begin_sequence e slot params = (Ok tt, e1) → copy_sequence e1 (job_seq job) slot (to_i32 n) = (Ok tt, e2) →
  ∀ ids, lends w0 asks e2 (PrefixCache.hash_prefix (toks (req_spec (job_request job))) n)
           (PrefixCache.mkEntry slot n ids true).
Proof.
  intros Hsh Hw Ha Tr Hf Hne H0 H0' Hv Hn Hn31 Hs Hb Hc ids. destruct (finished_holds e job (N.to_nat n) Tr Hf Hne) as (c & Hcx & Hh).
  pose proof (law_begin e slot params) as [Lw Lb]. rewrite Hb in Lw, Lb. simpl in Lw, Lb. destruct (law_begun _ _ _ _ Hv Hb) as (c0 & Lo & Op).
  set (ts := toks (req_spec (job_request job))) in *. assert (Hlen : length (take (N.to_nat n) ts) = N.to_nat n)
    by (rewrite length_take; unfold len in Hn; lia).
  assert (Lc : ctx e2 slot = Some (feed w0 c0 (take (N.to_nat n) ts) 0%Z)).
  { rewrite <- Hw, <- Lw. eapply (law_copied e1 e2 (job_seq job) slot); [by rewrite Lw, Hw|exact Hc|done|done|done| | | |exact Lo|by rewrite Lw].
    - rewrite Hlen, to_i32_small by done. lia.
    - rewrite Lb by done. exact Hcx.
    - by rewrite Lw, Hw. }
  eexists _, _, _. split_and!; [exact Ha|exact Hn|done|exact Lc|]. rewrite Hw in Op. by eapply law_holds_opened.
Qed.

Lemma retain_prefix_course (w : t E) job rest :
  kvs w (job :: rest) → cleared (prefix_cache_ w) (job_seq job) → config_ w = cfg → job_finished job = true →
  honest w (job :: rest) → sound w (job :: rest) → vacated w (job :: rest) →
  honest (retain_prefix w job) (job :: rest) ∧ sound (retain_prefix w job) (job :: rest) ∧ vacated (retain_prefix w job) (job :: rest).
Proof.
  intros V Hcl Hcfg Hf Hh S Hv. unfold retain_prefix. rewrite Hcfg, Hcbs. destruct (_ || _) eqn:Eg; [done|].
  assert (Hsh : shares w0) by (apply Hsharable; by destruct (prefix_caching cfg)). clear Eg.
  pose proof (h_asked _ _ _ _ Hh) as Ha. rewrite fmap_cons in Ha. apply Forall_cons in Ha as [Ha _].
  pose proof (s_jobs _ _ _ _ S) as [Tr _]%Forall_cons. pose proof Tr as ((_ & Hpr & Htm) & _).
  rewrite Hpr. destruct (kept_tokens _ Htm) as (K1 & K2 & K3). set (n := mul32 _ _) in *.
  destruct (n =? 0) eqn:En; bool_hyps; [done|]. destruct (_ <? n / bs) eqn:Eb; bool_hyps; [done|].
  assert (Hne : held job ≠ []) by (unfold BlockTable.n_blocks in Eb; intros He; rewrite He in Eb; specialize (K3 En); change (wrap32 (len [])) with 0 in Eb; lia).
  pose proof (find_donor_slot_kv cfg w (job :: rest) (job_seq job) V Hcl) as Fk.
  pose proof (find_donor_slot_course w (job :: rest) V Hh S Hv) as Fc. pose proof (kv_jobs _ _ _ _ V) as [Fj _]%Forall_cons. pose proof (fits_seq _ Fj) as Fq.
  destruct (find_donor_slot w) as [[slot|] w1]; destruct Fk as [F1 _], Fc as (H1 & S1 & V1 & Hvs); [|done]. simpl in F1. specialize (Hvs slot eq_refl).
  destruct (hand_slot _ _ _ _ _ F1) as (Hs1 & Hs2 & Hs3). assert (H0 : (0 ≤ slot)%Z) by lia.
  assert (Hni : ¬ idle w1 (job :: rest) slot) by (intros [[? _]|?]; [lia|done]).
  assert (Ab : ∀ e, apart slot (engine_ w1) e →
    honest (abandon_donor (set_engine w1 e) slot) (job :: rest) ∧ sound (abandon_donor (set_engine w1 e) slot) (job :: rest) ∧
    vacated (abandon_donor (set_engine w1 e) slot) (job :: rest)).
  { intros e He. pose proof (apart_trans _ _ _ _ He (law_release e slot H0)) as Ha'. split_and!.
    - eapply honest_frame; [..|exact H1]; [apply Ha'|done].
    - eapply hand_frame; [exact F1|exact Ha'| |exact S1]. simpl. intros h r. apply evict_sequence_fewer.
    - apply (vacated_apart slot w1 _ (job :: rest)); [exact Ha'| |intros _; by apply law_released|done].
      intros q Hq. unfold idle. simpl. by rewrite (evict_spare _ _ _ _ slot F1) by (right; set_solver). }
  pose proof (law_begin (engine_ w1) slot default_sampling) as Lb.
  destruct (begin_sequence _ _ _) as [[[]|what] e] eqn:Ebg; simpl in Lb; [|by apply Ab].
  assert (Hshe : shares (weights e)) by (destruct Lb as [Lb _]; by rewrite Lb, (h_weights _ _ _ _ H1)).
  pose proof (law_copy e (job_seq job) slot (to_i32 n) Hshe ltac:(lia) H0) as Lc.
  destruct (copy_sequence _ _ _ _) as [[[]|what] e'] eqn:Ecp; simpl in Lc; [|by apply Ab; eapply apart_trans].
  pose proof (apart_trans _ _ _ _ Lb Lc) as Hap.
  split_and!; [eapply honest_frame; [..|exact H1]; [apply Hap|done]| |by apply (vacated_apart slot w1 _ (job :: rest))].
  assert (S2 : sound (set_engine w1 e') (job :: rest)) by (eapply hand_frame; [exact F1|exact Hap|done|exact S1]).
  split; [apply S2|]. intros h r. simpl. rewrite lookup_insert. case_decide as Eh; [|apply S2]. intros [= <-] _. subst h. simpl.
  pose proof (s_jobs _ _ _ _ S1) as [Tr1 _]%Forall_cons.
  eapply donor_lends; [done|apply H1|done|exact Tr1|done|done|lia|done|done|done|done|lia|exact Ebg|exact Ecp].
Qed.

(** ** Retiring *)

Lemma find_donor_slot_weights (w : t E) : weights (engine_ (find_donor_slot w).2) = weights (engine_ w).
Proof.
  unfold find_donor_slot. destruct (PrefixCache.take_donor_slot _) as [[slot|] c]; [done|].
  destruct (PrefixCache.evict_lru_retained _) as [[e|] c1]; [|done]. simpl.
  destruct (PrefixCache.take_donor_slot c1) as [slot c2]. simpl. apply law_release_weights.
Qed.

Lemma retain_prefix_weights (w : t E) job : weights (engine_ (retain_prefix w job)) = weights (engine_ w).
Proof.
  unfold retain_prefix. destruct (_ || _); [done|]. destruct (_ =? 0); [done|]. destruct (_ <? _); [done|].
  pose proof (find_donor_slot_weights w) as Fw. destruct (find_donor_slot w) as [[slot|] w1]; [|done]. simpl in Fw.
  pose proof (law_begin (engine_ w1) slot default_sampling) as [Lb _].
  destruct (begin_sequence _ _ _) as [[u|what] e]; simpl in Lb; [|simpl; by rewrite law_release_weights; congruence].
  set (n := to_i32 _). pose proof (law_copy_weights e (job_seq job) slot n) as Lc.
  destruct (copy_sequence _ _ _ _) as [[u'|what] e']; simpl in Lc |- *; [congruence|]. rewrite law_release_weights. congruence.
Qed.

Lemma finish_reason s (k : Sink) : SequenceState.reason_ (SequenceState.finish s k).1 = SequenceState.reason_ s.
Proof.
  unfold SequenceState.finish, SequenceState.flush_upto. destruct (SequenceState.notified_ s); [done|].
  case_decide; [done|]. case_decide; [|done]. simpl. by destruct (_ <? _).
Qed.

Lemma deliver_results (w : t E) job :
  ∃ r, results_ (world_ (deliver clock w job)) = results_ (world_ w) ++ [(job_promise job, r)] ∧
    engine_ (deliver clock w job) = engine_ w ∧ prefix_cache_ (deliver clock w job) = prefix_cache_ w ∧
    res_text r = SequenceState.emitted_text (job_state job) ∧ res_reason r = SequenceState.reason_ (job_state job) ∧
    res_usage r = SequenceState.usage_ (job_state job).
Proof. unfold deliver. destruct (RequestTiming.finished _); simpl; eexists; split_and!; reflexivity. Qed.

(** Retiring a sequence that ended by itself gives its answer. *)
Lemma retire_honest (w : t E) job rest :
  job_finished job = true → honest w (job :: rest) → honest (retire clock w job) rest.
Proof.
  intros Hf [H1 H2 H3 H4]. apply Forall_cons in H2 as [Hs H2]. rewrite fmap_cons in H3. apply Forall_cons in H3 as [Ha H3].
  unfold retire. pose proof (finish_reason (job_state job) (deref w (job_sink job))) as Fr.
  pose proof (quiet_finish_job w job) as Q1. pose proof (finish_job_gentle w job) as G1. unfold finish_job in *.
  assert (Hid : SequenceState.notified_ (job_state job) = true →
    SequenceState.finish (job_state job) (deref w (job_sink job)) = (job_state job, deref w (job_sink job)))
    by (unfold SequenceState.finish; by intros ->).
  destruct (SequenceState.finish _ _) as [s k] eqn:Ef. cbn [fst snd] in Fr, Q1, G1. set (w1 := put_sink w _ _) in *.
  set (job1 := set_state job s). set (w2 := set_cache w1 _). pose proof (quiet_retain_prefix w2 job1) as Q3.
  pose proof (retain_prefix_weights w2 job1) as W3. set (w3 := retain_prefix w2 job1) in *.
  unfold release_blocks, BlockTable.release. set (job2 := set_table job1 _). set (w5 := add_stat (E := E) _ _ _). destruct (deliver_results w5 job2) as (r & D1 & D2 & _ & D4 & D5 & D6).
  assert (Hr5 : results_ (world_ w5) = results_ (world_ w)).
  { change (results_ (world_ w3) = results_ (world_ w)). rewrite (q_results _ _ Q3). apply Q1. }
  split; [|done|done|].
  - rewrite D2. etrans; [apply law_release_weights|]. exact (eq_trans W3 H1).
  - rewrite D1, Hr5. apply Forall_app. split; [done|]. constructor; [|done]. unfold told. simpl. rewrite D4, D5, D6. simpl.
    intros Hc. exists (req_spec (job_request job)). split; [exact Ha|]. rewrite Fr in Hc.
    destruct (Hs Hf Hc) as (a & Han & Hn & Hx). specialize (Hid Hn). injection Hid as -> _. by rewrite Hx.
Qed.

(** Finishing leaves a finished sequence where it was. *)
Lemma tracked_finish (e : E) job (k : Sink) :
  job_finished job = true → tracked w0 e job → tracked w0 e (set_state job (SequenceState.finish (job_state job) k).1).
Proof.
  intros Hf (Ti & c & Hc & Tr). rewrite Hf in Tr.
  destruct (SequenceState.finish_frame (job_state job) k) as ((R1 & R2 & R3 & R4 & _) & _ & _ & _ & R5).
  set (s := (SequenceState.finish _ _).1) in *. split; [unfold tied in *; simpl; by rewrite R2, R3|]. exists c.
  unfold job_seq, job_finished, job_prefilling in *. simpl. rewrite R1, R3, R4, (R5 Hf). split; [done|].
  by rewrite prefilling_spec, R3, R4, <- prefilling_spec.
Qed.

Lemma settled_finish job (k : Sink) :
  job_finished job = true → settled w0 job → settled w0 (set_state job (SequenceState.finish (job_state job) k).1).
Proof.
  intros Hf Hs _. simpl. rewrite finish_reason. intros Hc. destruct (Hs Hf Hc) as (a & Han & Hn & Hx).
  exists a. split; [done|]. unfold SequenceState.finish. by rewrite Hn.
Qed.

(** A sequence that leaves gives its slot back empty. *)
Lemma leave_vacated (w w' : t E) job act act' :
  (0 ≤ job_seq job)%Z → engine_ w' = release_sequence (engine_ w) (job_seq job) →
  PrefixCache.free_donor_slots_ (prefix_cache_ w') = PrefixCache.free_donor_slots_ (prefix_cache_ w) →
  (∀ q, q ∈ job_seq <$> act → q = job_seq job ∨ q ∈ job_seq <$> act') → vacated w act → vacated w' act'.
Proof.
  intros H0 He Hf Ha Hv. apply (vacated_apart (job_seq job) w _ act); [rewrite He; by apply law_release| |rewrite He; intros _; by apply law_released|done].
  intros q Hq. unfold idle. rewrite Hf. intros [[? Hn]|?]; [left|by right]. split; [done|]. intros Hin. by destruct (Ha q Hin).
Qed.

Lemma retire_sound (w : t E) job rest :
  kvs w (job :: rest) → job_finished job = true → config_ w = cfg → len rest < M → NoDup (job_seq <$> job :: rest) →
  honest w (job :: rest) → sound w (job :: rest) → vacated w (job :: rest) →
  sound (retire clock w job) rest ∧ vacated (retire clock w job) rest.
Proof.
  intros V Hf Hcfg Hlen [Hn _]%NoDup_cons Hh S Hv. pose proof (kv_jobs _ _ _ _ V) as [Fj _]%Forall_cons. unfold retire.
  pose proof (finish_job_fits cfg w job Fj Hf) as (F1 & F2 & F3 & F0 & F4 & F5). pose proof (quiet_finish_job w job) as Q.
  pose proof (finish_job_gentle w job) as G. apply (sound_gentle _ _ _ G) in S. apply (honest_gentle _ _ _ G) in Hh. apply (vacated_gentle _ _ _ _ G (λ _ x, x)) in Hv.
  pose proof (tracked_finish (engine_ (finish_job w job).1) job (deref w (job_sink job)) Hf) as Tf.
  pose proof (settled_finish job (deref w (job_sink job)) Hf) as Sf.
  assert (Ef : (finish_job w job).2 = set_state job (SequenceState.finish (job_state job) (deref w (job_sink job))).1)
    by (unfold finish_job; by destruct (SequenceState.finish _ _)). rewrite <- Ef in Tf, Sf.
  assert (Er : job_request (finish_job w job).2 = job_request job) by (by rewrite Ef).
  destruct (finish_job w job) as [w1 job1]. simpl in *. injection F3 as J1 J2 J3 J4. clear Ef.
  assert (V1 : kvs w1 (job1 :: rest)) by (unfold ContinuousRun.kvs in *; rewrite F4, F5; by eapply kv_state).
  destruct (kv_evict _ _ _ _ (job_seq job1) V1 (or_introl (proj2 (fits_seq _ F1)))) as [V2 C2]. set (w2 := set_cache w1 _).
  assert (Hc2 : config_ w2 = cfg) by (simpl; rewrite (q_config _ _ Q); done).
  assert (H2 : honest w2 (job1 :: rest)).
  { destruct Hh as [A1 A2 A3 A4]. apply Forall_cons in A2 as [A2 A2']. apply Forall_cons in A3 as [A3 A3'].
    split; [done|constructor; auto|rewrite fmap_cons; constructor; [unfold asked; rewrite Er; exact A3|exact A3']|done]. }
  assert (S2 : sound w2 (job1 :: rest)).
  { destruct S as [A1 A2]. apply Forall_cons in A1 as [A1 A1']. split; [constructor; auto|].
    intros h r Hr. apply A2. exact (evict_sequence_fewer _ _ _ _ Hr). }
  destruct (retain_prefix_kv cfg Hbrief Hshare Hcbs Hwidth HM w2 job1 rest V2 Hc2 C2 Hlen) as [V3 _].
  assert (Hv2 : vacated w2 (job1 :: rest)).
  { intros q Hq. apply (Hv q). unfold idle in *. simpl in Hq. rewrite (evict_spare _ _ _ _ (job_seq job1) V1) in Hq by (left; apply F1).
    by rewrite J3 in Hq. }
  destruct (retain_prefix_course w2 job1 rest V2 C2 Hc2 F2 H2 S2 Hv2) as (_ & S3 & V4). set (w3 := retain_prefix w2 job1) in *.
  unfold release_blocks, BlockTable.release. set (job2 := set_table job1 _). set (w5 := add_stat (E := E) _ _ _).
  destruct (deliver_results w5 job2) as (r & _ & D2 & D3 & _).
  assert (H0 : (0 ≤ job_seq job1)%Z) by apply F1.
  split; [|apply (leave_vacated w3 _ job1 (job1 :: rest)); [done|exact D2|by rewrite D3|set_solver|done]].
  apply (sound_frame (job_seq job1) w3); [rewrite D2; by apply law_release|by rewrite J3| |by eapply sound_sub; [|exact S3]; set_solver].
  rewrite D3. intros h r0 Hr Ht. split; [|by exists r0]. intros Hq. apply (kvs_detached _ _ V3 h r0 Hr Ht). rewrite Hq. set_solver.
Qed.

(** The same without donors, whatever the engine did to the job. *)
Lemma retire_vacated (w : t E) job rest :
  kvs w (job :: rest) → donors = 0 → job_finished job = true → vacated w (job :: rest) → vacated (retire clock w job) rest.
Proof.
  intros V HD Hf Hv. pose proof (kv_jobs _ _ _ _ V) as [Fj _]%Forall_cons. unfold retire.
  pose proof (finish_job_fits cfg w job Fj Hf) as (F1 & _ & F3 & F0 & F4 & F5). pose proof (finish_job_gentle w job) as G.
  destruct (finish_job w job) as [w1 job1]. simpl in *. injection F3 as J1 J2 J3 J4.
  assert (V1 : kvs w1 (job1 :: rest)) by (unfold ContinuousRun.kvs in *; rewrite F4, F5; by eapply kv_state).
  destruct (kv_evict _ _ _ _ (job_seq job1) V1 (or_introl (proj2 (fits_seq _ F1)))) as [V2 _]. set (w2 := set_cache w1 _).
  assert (Hr : retain_prefix w2 job1 = w2).
  { unfold retain_prefix, PrefixCache.donor_capacity. pose proof (kv_capacity _ _ _ _ V2) as Hd. simpl in *. rewrite Hd, HD. by rewrite orb_true_r. }
  rewrite Hr. unfold release_blocks, BlockTable.release. set (job2 := set_table job1 _). set (w5 := add_stat (E := E) _ _ _).
  destruct (deliver_results w5 job2) as (r & _ & D2 & D3 & _).
  apply (leave_vacated w1 _ job1 (job1 :: rest)); [apply F1|exact D2| |set_solver|].
  - rewrite D3. simpl. apply (evict_spare _ _ _ _ _ V1). left. apply F1.
  - apply (vacated_gentle w _ (job :: rest)); [done|rewrite !fmap_cons; by rewrite J3|done].
Qed.

Lemma sweep_vacated (w : t E) slots act others :
  kvs w (act ++ others) → donors = 0 → config_ w = cfg → len (act ++ others) ≤ M → vacated w (act ++ others) →
  let '(w', _, act') := sweep clock w slots act in vacated w' (act' ++ others).
Proof.
  revert w slots others. induction act as [|job act IH]; intros w slots others V HD Hcfg Hlen Hv; cbn [sweep]; [done|].
  pose proof Hlen as Hlen'. rewrite <- app_comm_cons, len_cons in Hlen'. destruct (job_finished job) eqn:Ef.
  - destruct (retire_kv clock cfg Hbrief Hshare Hcbs Hwidth HM w job (act ++ others) V Ef Hcfg ltac:(lia)) as (R1 & _).
    destruct (retire_book clock w job) as (B1 & _). apply IH; [done|done|congruence|lia|by apply retire_vacated].
  - assert (P : act ++ job :: others ≡ₚ (job :: act) ++ others) by (simpl; by rewrite Permutation_middle).
    specialize (IH w slots (job :: others)). destruct (sweep _ _ _ _) as [[w' slots'] act'].
    assert (P' : act' ++ job :: others ≡ₚ (job :: act') ++ others) by (simpl; by rewrite Permutation_middle).
    apply (vacated_sub w' (act' ++ job :: others)); [intros q; by rewrite P'|].
    apply IH; [eapply kvs_proper; [|exact V]; by rewrite P|done|done|unfold len in *; by rewrite P|].
    apply (vacated_sub w ((job :: act) ++ others)); [intros q; by rewrite P|done].
Qed.

Lemma sweep_course (w : t E) slots act others :
  kvs w (act ++ others) → config_ w = cfg → len (act ++ others) ≤ M → NoDup (job_seq <$> act ++ others) →
  honest w (act ++ others) → sound w (act ++ others) → vacated w (act ++ others) →
  let '(w', _, act') := sweep clock w slots act in
  honest w' (act' ++ others) ∧ sound w' (act' ++ others) ∧ vacated w' (act' ++ others).
Proof.
  revert w slots others. induction act as [|job act IH]; intros w slots others V Hcfg Hlen Hn Hh S Hv; cbn [sweep]; [done|].
  pose proof Hlen as Hlen'. rewrite <- app_comm_cons, len_cons in Hlen'. destruct (job_finished job) eqn:Ef.
  - destruct (retire_kv clock cfg Hbrief Hshare Hcbs Hwidth HM w job (act ++ others) V Ef Hcfg ltac:(lia)) as (R1 & _).
    destruct (retire_book clock w job) as (B1 & _). pose proof (retire_honest w job (act ++ others) Ef Hh) as R2.
    destruct (retire_sound w job (act ++ others) V Ef Hcfg ltac:(lia) Hn Hh S Hv) as [R3 R4].
    apply IH; [done|congruence|lia| |done|done|done]. rewrite <- app_comm_cons, fmap_cons in Hn. by apply NoDup_cons in Hn as [_ ?].
  - assert (P : act ++ job :: others ≡ₚ (job :: act) ++ others) by (simpl; by rewrite Permutation_middle).
    specialize (IH w slots (job :: others)). destruct (sweep _ _ _ _) as [[w' slots'] act'].
    destruct IH as (I1 & I2 & I3).
    + eapply kvs_proper; [|exact V]. by rewrite P.
    + done.
    + unfold len. by rewrite P.
    + by rewrite P.
    + eapply honest_sub; [|exact Hh]. intros j. by rewrite P.
    + eapply sound_sub; [|exact S]. intros j. by rewrite P.
    + apply (vacated_sub w ((job :: act) ++ others)); [intros q; by rewrite P|done].
    + assert (P' : act' ++ job :: others ≡ₚ (job :: act') ++ others) by (simpl; by rewrite Permutation_middle).
      split_and!; [eapply honest_sub; [|exact I1]|eapply sound_sub; [|exact I2]|eapply (vacated_sub w' (act' ++ job :: others)); [|exact I3]];
        intros j; by rewrite P'.
Qed.

(** After an engine failure only the answers matter. *)
Lemma sweep_honest (w : t E) slots act others :
  honest w (act ++ others) → let '(w', _, act') := sweep clock w slots act in honest w' (act' ++ others).
Proof.
  revert w slots others. induction act as [|job act IH]; intros w slots others Hh; cbn [sweep]; [done|].
  destruct (job_finished job) eqn:Ef; [by apply IH, retire_honest|].
  specialize (IH w slots (job :: others)). destruct (sweep _ _ _ _) as [[w' slots'] act'].
  eapply honest_sub; [|apply IH; eapply honest_sub; [|exact Hh]]; intros j; simpl; by rewrite <- Permutation_middle.
Qed.

(** ** Making room *)

Record faithful (l : Loop E) : Prop := mk_faithful {
  f_honest : honest (sched l) (active l);
  f_sound : sound (sched l) (active l);
  f_vacated : vacated (sched l) (active l);
  f_pending : Forall (asked asks) (pending l) }.

(** What making room keeps. *)
Definition rides (l l' : Loop E) : Prop := faithful l' ∧ ∀ q, ripe (active l) q → ripe (active l') q.

Lemma rides_trans l1 l2 l3 : rides l1 l2 → rides l2 l3 → rides l1 l3.
Proof. intros [_ R1] [F R2]. split; [done|auto]. Qed.

(** Replacing a job by a later state of it. *)
Lemma rides_put (l : Loop E) w j p :
  faithful l → gentle (sched l) w → ripe (active l) p → job_ptr j = p → (∀ x, x ∈ active l → job_ptr x = p → job_seq x = job_seq j) →
  asked asks (job_request j) → job_prefilling j = false → tracked w0 (engine_ w) j → settled w0 j →
  rides l (mkLoop w (put_job j (active l)) (free_slots l) (pending l)).
Proof.
  intros [Fh Fs Fv Fp] G Hr Hp Hq Ha Hpre Ht Hs. apply (honest_gentle _ _ _ G) in Fh. apply (sound_gentle _ _ _ G) in Fs.
  destruct Fh as [A1 A2 A3 A4], Fs as [B1 B2]. rewrite Forall_fmap in A3. rewrite Forall_forall in A2, A3, B1. split.
  - assert (G1 : ∀ x, x ∈ put_job j (active l) → settled w0 x ∧ asked asks (job_request x) ∧ tracked w0 (engine_ w) x)
      by (intros x [->|[Hx _]]%put_job_elem; split_and!; auto; by apply A3).
    assert (Fv' : vacated w (put_job j (active l))).
    { apply (vacated_gentle _ _ _ _ G) with (2 := Fv). unfold put_job. intros q (x & -> & Hx)%list_elem_of_fmap. apply list_elem_of_fmap.
      exists (if job_ptr x =? job_ptr j then j else x). split; [|apply list_elem_of_fmap; eauto].
      destruct (job_ptr x =? job_ptr j) eqn:Ex; bool_hyps; [apply Hq; congruence|done]. }
    split; [split|split|exact Fv'|done]; try done; rewrite Forall_forall; [|intros r (x & -> & Hx)%list_elem_of_fmap|]; [|by apply G1|];
      intros x Hx; by apply G1.
  - intros q Hrq. by apply ripe_put.
Qed.

Lemma faithful_job (l : Loop E) p j :
  faithful l → ripe (active l) p → find_job p (active l) = Some j →
  job_ptr j = p ∧ job_prefilling j = false ∧ asked asks (job_request j) ∧ tracked w0 (engine_ (sched l)) j ∧ settled w0 j.
Proof.
  intros [Fh Fs _ _] Hr [Hj Hp]%find_job_Some. destruct Fh as [_ A2 A3 _], Fs as [B1 _]. rewrite Forall_fmap in A3.
  rewrite Forall_forall in A2, A3, B1. specialize (A3 j Hj). split_and!; auto.
Qed.

Lemma tracked_table (e : E) j tb : job_prefilling j = false → tracked w0 e j → tracked w0 e (set_table j tb).
Proof.
  intros Hp (Ti & c & Hc & Tr). split; [done|]. exists c. split; [done|]. unfold job_finished, job_prefilling in *. simpl.
  destruct (SequenceState.finished_ _); [|done]. destruct Tr as [Tr _]. auto.
Qed.

Lemma grow_job_course (l : Loop E) p n :
  NoDup (job_ptr <$> active l) → faithful l → ripe (active l) p → rides l (grow_job l p n).2.
Proof.
  intros Hn F Hr. unfold grow_job. destruct (find_job p (active l)) as [job|] eqn:Ef; [|by split].
  destruct (faithful_job l p job F Hr Ef) as (Hp & Hpre & Ha & Ht & Hs).
  destruct (BlockTable.ensure_capacity _ _ _) as [[ok a] tb]. simpl.
  apply (rides_put l _ _ p); try done; [by apply gentle_frame| |by apply tracked_table].
  intros x Hx Hxp. destruct (find_job_Some _ _ _ Ef) as [Hj _]. by rewrite (NoDup_fmap_inj job_ptr _ x job Hn Hx Hj) by congruence.
Qed.

(** A sequence that fails leaves nothing that could be mistaken for an answer. *)
Lemma failed_course (e : E) j what reason (k : Sink) :
  tracked w0 e j → job_prefilling j = false → reason = kError ∨ reason = kContextOverflow →
  let j' := set_state j (SequenceState.finish (SequenceState.fail (job_state j) what reason) k).1 in
  tracked w0 e j' ∧ settled w0 j' ∧ job_prefilling j' = false.
Proof.
  intros (Ti & c & Hc & Tr) Hp Hre. set (s := SequenceState.fail _ _ _).
  destruct (SequenceState.finish_frame s k) as ((R1 & R2 & R3 & R4 & _) & _ & _ & _ & R5). pose proof (finish_reason s k) as Fr.
  assert (Hpre : SequenceState.prefilling (SequenceState.finish s k).1 = false).
  { rewrite prefilling_spec, R3, R4. unfold job_prefilling in Hp. by rewrite prefilling_spec in Hp. }
  cbv zeta. split_and!; [|intros _; simpl; rewrite Fr; simpl; intros [?|[?|?]]; by destruct Hre; subst|done].
  split; [unfold tied in *; simpl; by rewrite R2, R3|]. exists c. unfold job_seq, job_finished, job_prefilling in *. simpl.
  rewrite R1, R3, R4, (R5 eq_refl), Hpre. split_and!; [done| |by left]. simpl.
  destruct (SequenceState.finished_ (job_state j)); [by destruct Tr|]. destruct Tr as [_ [_ Tr]].
  rewrite Hp in Tr. destruct Tr as [Tr _]. eapply law_holds_prefix; [apply prefix_take|done].
Qed.

Lemma preempt_one_course (l : Loop E) except :
  kvs (sched l) (active l) → NoDup (job_seq <$> active l) → faithful l → rides l (preempt_one l except).2.
Proof.
  intros V Hn F. unfold preempt_one. pose proof (pick_victim_spec except (rev (active l))) as P.
  destruct (pick_victim except (rev (active l))) as [[v rest]|]; [|by split]. destruct P as (l1 & l2 & Ea & -> & _). simpl.
  assert (Ea' : active l = rev l2 ++ v :: rev l1).
  { rewrite <- (rev_involutive (active l)), Ea, rev_app_distr. simpl. by rewrite <- app_assoc. }
  assert (Hsub : ∀ j, j ∈ rev (l1 ++ l2) → j ∈ active l) by (intros j; rewrite Ea', rev_app_distr; set_solver).
  assert (Hv : v ∈ active l) by (rewrite Ea'; set_solver).
  destruct F as [Fh Fs Fv Fp].
  assert (H0 : (0 ≤ job_seq v)%Z) by (pose proof (kv_jobs _ _ _ _ V) as Fj; rewrite Forall_forall in Fj; apply (Fj v Hv)).
  assert (Hv' : (job_seq v < first)%Z) by (pose proof (kv_jobs _ _ _ _ V) as Fj; rewrite Forall_forall in Fj; apply (Fj v Hv)).
  split; [split|]; simpl.
  - eapply (honest_sub _ (active l)); [done|]. eapply honest_frame; [..|exact Fh]; [apply law_release_weights|done].
  - apply (sound_frame (job_seq v) (sched l)); [by apply law_release| | |by eapply sound_sub].
    + rewrite Ea', fmap_app, fmap_cons in Hn. rewrite rev_app_distr, fmap_app.
      rewrite <- Permutation_middle in Hn. by apply NoDup_cons in Hn as [Hn _].
    + simpl. intros h r Hr Ht. apply evict_sequence_fewer in Hr. split; [|by exists r].
      intros Hq. apply (kvs_detached _ _ V h r Hr Ht). rewrite Hq. by apply list_elem_of_fmap_2.
  - apply (leave_vacated (sched l) _ v (active l)); [done|done|simpl; apply (evict_spare _ _ _ _ _ V); by left| |done].
    intros q (x & -> & Hx)%list_elem_of_fmap. rewrite Ea' in Hx. rewrite rev_app_distr.
    assert (Hx' : x = v ∨ x ∈ rev l2 ++ rev l1) by set_solver. destruct Hx' as [->|?]; [by left|right]. by apply list_elem_of_fmap_2.
  - constructor; [|done]. destruct Fh as [_ _ A3 _]. rewrite Forall_fmap in A3. rewrite Forall_forall in A3. exact (A3 v Hv).
  - intros q Hq j Hj. apply Hq. auto.
Qed.

Lemma active_slots (l : Loop E) : inv cfg l → NoDup (job_seq <$> active l).
Proof.
  intros I. pose proof (NoDup_init_slots (N.to_nat M)) as Hn. rewrite <- (inv_slots _ _ I) in Hn. by apply NoDup_app in Hn as (_ & _ & ?).
Qed.

Lemma grow_by_donors_course n (l : Loop E) p needed :
  kvs (sched l) (active l) → inv cfg l → needed ≤ K → faithful l → ripe (active l) p →
  rides l (grow_by_donors n l p needed).
Proof.
  revert l. induction n as [|n IH]; intros l V I HK' F Hr; [by split|]. simpl.
  pose proof (grow_job_kv cfg Hshare Hcbs Hwidth HM l p needed V (inv_ptrs _ _ I) HK') as (V1 & _).
  pose proof (grow_job_inv cfg l p needed I) as I1. pose proof (grow_job_course l p needed (inv_ptrs _ _ I) F Hr) as R1.
  destruct (grow_job l p needed) as [[|] l1]; simpl in V1, I1, R1; [done|]. pose proof R1 as [F1 Hr1].
  pose proof (reclaim_donor_blocks_kv cfg _ _ V1) as V2. pose proof (quiet_reclaim_donor_blocks (sched l1)) as Q.
  pose proof (reclaim_donor_blocks_honest _ _ (f_honest _ F1)) as H2. pose proof (reclaim_donor_blocks_sound _ _ V1 (f_sound _ F1)) as S2.
  assert (R2 : rides l1 (mkLoop (reclaim_donor_blocks (sched l1)).2 (active l1) (free_slots l1) (pending l1)))
    by (split; [split; [done|done|apply reclaim_donor_blocks_vacated; [done|apply F1]|apply F1]|done]).
  destruct (reclaim_donor_blocks (sched l1)) as [[|] w]; simpl in V2, Q, R2; (eapply rides_trans; [exact R1|]); [|done].
  eapply rides_trans; [exact R2|]. apply IH; [done|by apply inv_world|done|apply R2|]. simpl. auto.
Qed.

Lemma grow_by_preempting_course n (l : Loop E) p needed :
  kvs (sched l) (active l) → inv cfg l → needed ≤ K → faithful l → ripe (active l) p →
  rides l (grow_by_preempting n l p needed).
Proof.
  revert l. induction n as [|n IH]; intros l V I HK' F Hr; [by split|]. simpl.
  pose proof (grow_job_kv cfg Hshare Hcbs Hwidth HM l p needed V (inv_ptrs _ _ I) HK') as (V1 & _).
  pose proof (grow_job_inv cfg l p needed I) as I1. pose proof (grow_job_course l p needed (inv_ptrs _ _ I) F Hr) as R1.
  destruct (grow_job l p needed) as [[|] l1]; simpl in V1, I1, R1; [done|]. pose proof R1 as [F1 Hr1].
  pose proof (preempt_one_kv cfg l1 (Some p) V1) as (V2 & _). pose proof (preempt_one_inv cfg l1 (Some p) I1) as I2.
  pose proof (preempt_one_course l1 (Some p) V1 (active_slots _ I1) F1) as R2.
  destruct (preempt_one l1 (Some p)) as [[|] l2]; simpl in V2, I2, R2; (eapply rides_trans; [exact R1|]); [|done].
  eapply rides_trans; [exact R2|]. apply IH; try done; [apply R2|]. apply R2. auto.
Qed.

Lemma resolve_one_course (l : Loop E) p :
  kvs (sched l) (active l) → inv cfg l → faithful l → ripe (active l) p → rides l (resolve_one l p).
Proof.
  intros V I F Hr. unfold resolve_one. destruct (find_job p (active l)) as [job|] eqn:Ef; [|by split].
  destruct (faithful_job l p job F Hr Ef) as (Hp & Hpre & Ha & Ht & Hs). destruct (_ <? _).
  - set (job1 := fail_job _ _ _). pose proof (finish_job_gentle (sched l) job1) as G.
    pose proof (failed_course (engine_ (sched l)) job (SequenceState.error_ (job_state job1)) kContextOverflow
      (deref (sched l) (job_sink job)) Ht Hpre (or_intror eq_refl)) as (C1 & C2 & C3).
    assert (Ej : (finish_job (sched l) job1).2 = set_state job (SequenceState.finish (job_state job1) (deref (sched l) (job_sink job))).1)
      by (unfold finish_job; simpl; by destruct (SequenceState.finish _ _)).
    destruct (finish_job (sched l) job1) as [w1 job2]. simpl in G, Ej. rewrite Ej.
    apply (rides_put l _ _ p); try done; [|eapply tracked_same; [apply G|exact C1]].
    intros x Hx Hxp. destruct (find_job_Some _ _ _ Ef) as [Hj _]. rewrite (NoDup_fmap_inj job_ptr _ x job (inv_ptrs _ _ I) Hx Hj) by congruence.
    destruct (SequenceState.finish_frame (job_state job1) (deref (sched l) (job_sink job))) as ((R1 & _) & _). symmetry. exact R1.
  - pose proof (kv_jobs _ _ _ _ V) as Fj. rewrite Forall_forall in Fj.
    pose proof (job_tokens_fit _ (Fj job (proj1 (find_job_Some _ _ _ Ef)))) as Hk.
    pose proof (grow_by_donors_kv cfg Hshare Hcbs Hwidth HM (donor_bound (sched l)) l p (job_tokens job) V I Hk) as (V1 & _).
    pose proof (grow_by_donors_course (donor_bound (sched l)) l p (job_tokens job) V I Hk F Hr) as R1.
    eapply rides_trans; [exact R1|]. apply grow_by_preempting_course; [done|by apply grow_by_donors_inv|done|apply R1|by apply R1].
Qed.

Lemma resolve_course (l : Loop E) short :
  kvs (sched l) (active l) → inv cfg l → faithful l → Forall (ripe (active l)) short → faithful (resolve l short).
Proof.
  unfold resolve. revert l. induction short as [|p short IH]; intros l V I F Hr; [done|]. simpl.
  apply Forall_cons in Hr as [Hp Hr]. pose proof (resolve_one_kv cfg Hshare Hcbs Hwidth HM l p V I) as (V1 & _).
  destruct (resolve_one_course l p V I F Hp) as [F1 R1]. apply IH; [done|by apply resolve_one_inv|done|].
  eapply Forall_impl; [exact Hr|]. auto.
Qed.

(** ** One iteration, from the batch on *)

Lemma sweep_all_course (l : Loop E) :
  kvs (sched l) (active l) → inv cfg l → faithful l → faithful (sweep_all clock l).
Proof.
  intros V I [Fh Fs Fv Fp]. unfold sweep_all. pose proof (sweep_course (sched l) (free_slots l) (active l) []) as S.
  destruct (sweep _ _ _ _) as [[w' slots'] act']. rewrite !app_nil_r in S. pose proof (inv_load _ _ I).
  destruct (S V ltac:(apply I) ltac:(unfold len; lia) (active_slots _ I) Fh Fs Fv) as (S1 & S2 & S3). by split.
Qed.

(** Donors ask for an engine that does not throw: what a failed prefill leaves in a slot
    may be kept by [retain_prefix]. *)
Hypothesis Hcalm : donors ≠ 0 → ¬ broke (E := E).

Lemma lent_no_donors (w : t E) act (e : E) : kvs w act → donors = 0 → lent w0 asks e (prefix_cache_ w).
Proof.
  intros V HD h r Hr Ht. destruct (kv_exact _ _ _ _ V HD) as [_ Hn]. pose proof (entry_retained _ _ _ Hr Ht) as Hin.
  rewrite Hn in Hin. by apply not_elem_of_nil in Hin.
Qed.

Lemma advance_course nb (l : Loop E) :
  nb ≤ n_batch (caps_of w0) → kvs (sched l) (active l) → inv cfg l → faithful l → faithful (advance clock nb l).
Proof.
  intros Hnb V I [Fh Fs Fv Fp]. unfold advance. pose proof (inv_load _ _ I) as Hload.
  pose proof (decode_accept_course clock w0 asks Htame Hfit nb (sched l) (active l) Fh Fs ltac:(unfold len; lia) Hnb (inv_ptrs _ _ I) (active_slots _ I) (kvs_detached _ _ V)) as D.
  pose proof (decode_accept_kv clock cfg Hshare Hcbs Hwidth HM nb (sched l) (active l) V (inv_ptrs _ _ I)) as Dk.
  pose proof (decode_accept_spec clock nb (sched l) (active l) (inv_ptrs _ _ I)) as S.
  destruct (decode_accept _ _ _ _) as [[w act] short]. destruct D as (Dh & Du & Dc), Dk as (V1 & _), S as [S1 S2].
  pose proof (inv_in_place _ _ _ _ I S1 S2) as I1. set (l0 := mkLoop w act (free_slots l) (pending l)) in *.
  destruct (sweep_all_kv clock cfg Hbrief Hshare Hcbs Hwidth HM l0 V1 I1) as (V2 & _ & Ep & _ & _ & Hall).
  destruct (sweep_all_inv clock cfg l0 I1) as [I2 Ea].
  assert (Fv0 : vacated w act).
  { apply (vacated_untouched (sched l) w (active l)); [|by apply keys_seqs| |done|done].
    - by rewrite (h_weights _ _ _ _ Dh), (h_weights _ _ _ _ Fh).
    - intros q Hq. by eapply spare_slot. }
  assert (G : faithful (resolve (sweep_all clock l0) short)).
  { destruct Dc as [[Ds Dr]|(Br & Hfin & ->)].
    - apply resolve_course; [done|done|by apply sweep_all_course|]. eapply Forall_impl; [exact Dr|].
      intros p Hp j. rewrite Ea. intros [_ Hj]%list_elem_of_filter. by apply Hp.
    - assert (HD : donors = 0) by (destruct (decide (donors = 0)); [done|by destruct Hcalm]).
      specialize (Hall Hfin). change (resolve (sweep_all clock l0) []) with (sweep_all clock l0).
      pose proof (sweep_honest w (free_slots l) act [] ltac:(by rewrite app_nil_r)) as Hs.
      pose proof (sweep_vacated w (free_slots l) act [] ltac:(by rewrite app_nil_r) HD ltac:(apply I1)) as Hsv. pose proof (inv_load _ _ I1) as Hl1.
      rewrite !app_nil_r in Hsv. specialize (Hsv ltac:(simpl in Hl1; unfold len; lia) Fv0).
      split; [| | |by rewrite Ep].
      + unfold sweep_all, l0 in *. simpl in *. destruct (sweep _ _ _ _) as [[w' slots'] act']. simpl in *. by rewrite app_nil_r in Hs.
      + rewrite Hall. split; [constructor|]. by eapply lent_no_donors.
      + unfold sweep_all, l0 in *. simpl in *. destruct (sweep _ _ _ _) as [[w' slots'] act']. simpl in *. by rewrite app_nil_r in Hsv. }
  pose proof (resolve_kv cfg Hshare Hcbs Hwidth HM (sweep_all clock l0) short V2 I2) as (V3 & _).
  apply (sweep_all_course (resolve (sweep_all clock l0) short) V3 (resolve_inv _ _ _ I2)) in G as [G1 G2 G3 G4].
  split; [by eapply honest_frame; [..|exact G1]|by destruct G2; split|exact G3|done].
Qed.

(** ** Admission *)

Lemma tracked_table_running (e : E) j tb : job_finished j = false → tracked w0 e j → tracked w0 e (set_table j tb).
Proof.
  intros Hf (Ti & c & Hc & Tr). split; [done|]. exists c. split; [done|]. unfold job_finished in *. simpl. by rewrite Hf in *.
Qed.

Lemma reserve_course (w : t E) act job :
  kvs w act → (@fits K L first brief) job → held job = [] → honest w (job :: act) → sound w (job :: act) → vacated w (job :: act) →
  let '(_, (w', job')) := reserve w act job in honest w' (job' :: act) ∧ sound w' (job' :: act) ∧ vacated w' (job' :: act).
Proof.
  intros V F Hb Hh S Hv. unfold reserve. set (target := add32 _ _). pose proof (kv_enter _ _ _ _ _ V F Hb) as V1.
  destruct (reclaim_until_course (donor_bound w) target w (job :: act) V1 Hh S Hv) as (H1 & S1 & Hv1). set (w1 := reclaim_until _ _ _) in *.
  destruct (job_finished job) eqn:Ef; [done|]. destruct (_ <=? _); [|done].
  destruct (BlockTable.ensure_capacity _ _ _) as [[ok a] tb]. split_and!; [..|done].
  - destruct H1 as [A1 A2 A3 A4]. apply Forall_cons in A2 as [A2 A2']. split; [done|by constructor|done|done].
  - destruct S1 as [A1 A2]. apply Forall_cons in A1 as [A1 A1']. split; [|done]. constructor; [by apply tracked_table_running|done].
Qed.

(** What a running or finished sequence has fed. *)
Lemma tracked_holds (e : E) j n :
  tracked w0 e j → n ≤ SequenceState.prefilled_ (job_state j) →
  ∃ c, ctx e (job_seq j) = Some c ∧ holds w0 c (take (N.to_nat n) (SequenceState.prompt_ (job_state j))).
Proof.
  intros (Ti & c & Hc & Tr) Hn. exists c. split; [done|].
  assert (Hp : take (N.to_nat n) (SequenceState.prompt_ (job_state j))
    `prefix_of` take (N.to_nat (SequenceState.prefilled_ (job_state j))) (SequenceState.prompt_ (job_state j))).
  { replace (take (N.to_nat n) _) with (take (N.to_nat n) (take (N.to_nat (SequenceState.prefilled_ (job_state j)))
      (SequenceState.prompt_ (job_state j)))) by (rewrite take_take; f_equal; lia). apply prefix_take. }
  destruct (job_finished j).
  - destruct Tr as [Tr _]. by eapply law_holds_prefix.
  - destruct Tr as [_ [_ Tr]]. destruct (SequenceState.prefilling _).
    + destruct Tr as ((c0 & Ho & ->) & _). eapply law_holds_prefix; [exact Hp|]. by eapply law_holds_opened.
    + destruct Tr as (Tr & _). eapply law_holds_prefix; [apply prefix_take|done].
Qed.

(** With prefix caching, prompts with the same hash have the same tokens, and no prompt
    ends with a block: a hit on a whole prompt is copied one token too far. *)
Hypothesis Hcoll : prefix_caching cfg = true → ∀ p spec p' spec' n, (p, spec) ∈ asks → (p', spec') ∈ asks →
  PrefixCache.hash_prefix (toks spec) n = PrefixCache.hash_prefix (toks spec') n →
  take (N.to_nat n) (toks spec) = take (N.to_nat n) (toks spec').
Hypothesis Hodd : prefix_caching cfg = true → ∀ p spec, (p, spec) ∈ asks → len (toks spec) mod bs ≠ 0.

(** The source of a hit has the tokens of the prompt that is hit. *)
Lemma hit_source (w : t E) job act hit c :
  kvs w (job :: act) → honest w (job :: act) → sound w (job :: act) → prefix_caching cfg = true →
  PrefixCache.find_longest (prefix_cache_ w) (toks (req_spec (job_request job))) bs = (Some hit, c) →
  PrefixCache.e_seq hit ≠ job_seq job →
  let n := PrefixCache.e_n_tokens hit in
  n < len (toks (req_spec (job_request job))) ∧ (0 ≤ PrefixCache.e_seq hit)%Z ∧
  ∃ c0, ctx (engine_ w) (PrefixCache.e_seq hit) = Some c0 ∧
    holds w0 c0 (take (N.to_nat n) (toks (req_spec (job_request job)))).
Proof.
  intros V Hh S Hpc Hf Hne n. pose proof (h_asked _ _ _ _ Hh) as Ha. rewrite Forall_fmap in Ha. pose proof Ha as [Hj _]%Forall_cons.
  rewrite Forall_forall in Ha. pose proof (s_jobs _ _ _ _ S) as Tr. rewrite Forall_forall in Tr.
  destruct (Htame _ _ Hj) as [_ Hsz]. assert (Hbs : 0 < bs) by apply limits_bs. set (ts := toks _) in *.
  pose proof (PrefixCache.find_longest_found (prefix_cache_ w) ts bs Hbs ltac:(lia)) as Fo. rewrite Hf in Fo.
  destruct Fo as (k & u & Hk & Hn & He & _). fold n in Hn. rewrite <- Hn in He. split_and!.
  - pose proof (N.Div0.mul_div_le (len ts) bs). assert (n ≤ len ts) by nia.
    destruct (decide (n = len ts)) as [Heq|]; [|lia]. destruct (Hodd Hpc _ _ Hj). fold ts. rewrite <- Heq, Hn. apply N.Div0.mod_mul.
  - pose proof (kv_jobs _ _ _ _ V) as Fj. rewrite Forall_forall in Fj.
    destruct (kv_entries _ _ _ _ V _ _ He) as [_ [Hr|(j0 & Hj0 & B1 & _)]]; simpl in *; [|rewrite <- B1; apply (Fj j0 Hj0)].
    destruct (donor_seq _ _ _ _ _ V (entry_retained _ _ _ He Hr)). simpl in *. lia.
  - destruct (kv_entries _ _ _ _ V _ _ He) as [_ [Hr|(j0 & Hj0 & B1 & _ & B3 & B4)]]; simpl in *.
    + destruct (s_lent _ _ _ _ S _ _ He Hr) as (p & spec & c0 & L1 & _ & L3 & L4 & L5). simpl in *.
      exists c0. split; [done|]. pose proof (Hcoll Hpc _ _ _ _ _ L1 Hj L3) as Eq. fold ts n in Eq, L5. by rewrite <- Eq.
    + assert (Hact : j0 ∈ act) by (apply elem_of_cons in Hj0 as [->|?]; [by destruct Hne|done]).
      destruct (tracked_holds _ _ n (Tr j0 Hj0) B4) as (c0 & C1 & C2). exists c0. rewrite <- B1. split; [done|].
      destruct (Tr j0 Hj0) as ((_ & T2 & _) & _). rewrite T2 in C2, B3. specialize (Ha j0 Hj0). simpl in Ha.
      pose proof (Hcoll Hpc _ _ _ _ _ Ha Hj B3) as Eq. fold ts n in Eq. by rewrite <- Eq.
Qed.

Lemma find_gentle (w : t E) ts b : gentle w (set_cache w (PrefixCache.find_longest (prefix_cache_ w) ts b).2).
Proof.
  destruct (PrefixCache.find_longest_frame (prefix_cache_ w) ts b) as (_ & Ff & _ & _ & Fe).
  split; [done|done| |exact Ff]. simpl. intros h r Hr _.
  specialize (Fe h). rewrite Hr in Fe. simpl in Fe. symmetry in Fe. apply fmap_Some in Fe as (r0 & E0 & E1). by exists r0.
Qed.

(** A sequence that starts from a copy is where it would be had it fed the prefix itself. *)
Lemma adopted_course (e e' : E) job n src c0 tb :
  shares w0 → weights e = w0 → weights e' = w0 → tracked w0 e job → job_finished job = false → job_prefilling job = true →
  SequenceState.prefilled_ (job_state job) = 0 →
  n < len (toks (req_spec (job_request job))) → (0 ≤ src)%Z → (0 ≤ job_seq job)%Z → src ≠ job_seq job → ctx e src = Some c0 →
  holds w0 c0 (take (N.to_nat n) (toks (req_spec (job_request job)))) →
  copy_sequence e src (job_seq job) (to_i32 n) = (Ok tt, e') →
  tracked w0 e' (set_state (set_table job tb) (SequenceState.adopt_cached_prefix (job_state job) n)).
Proof.
  intros Hsh Hw Hw' (Ti & c & Hc & Tr) Hf Hp H0 Hn Hs0 Hq0 Hs Hc0 Hh Hcp. rewrite Hf in Tr. destruct Tr as [I Hon].
  unfold on_course in Hon. unfold job_prefilling in Hp. rewrite Hp, H0 in Hon. destruct Hon as (Hsu & (c1 & Ho & ->) & Hk & Ht). simpl in Hc.
  rewrite law_feed_nil in Hc. pose proof Ti as (T1 & T2 & _ & T4). set (ts := toks _) in *.
  assert (Hlen : length (take (N.to_nat n) ts) = N.to_nat n) by (rewrite length_take; unfold len in Hn; lia).
  assert (Hc' : ctx e' (job_seq job) = Some (feed w0 c1 (take (N.to_nat n) ts) 0%Z)).
  { rewrite <- Hw. eapply (law_copied e e' src); [by rewrite Hw|exact Hcp|done|done|done| |exact Hc0|by rewrite Hw|exact Hc|by rewrite Hw].
    rewrite Hlen, to_i32_small by lia. lia. }
  set (s' := SequenceState.adopt_cached_prefix _ _).
  assert (Hpre : SequenceState.prefilled_ s' = n).
  { unfold s', SequenceState.adopt_cached_prefix. simpl. rewrite T2. fold ts. destruct (len ts =? 0) eqn:E0; bool_hyps; lia. }
  split; [done|]. eexists. split; [exact Hc'|]. unfold job_finished in *. simpl. rewrite Hf. split.
  - destruct I as [I1 I2 I3 I4 I5 I6 I7]. split; try done. fold s'. rewrite Hpre. simpl. rewrite T2. fold ts. lia.
  - split; [exact Hsu|]. fold s'. rewrite prefilling_spec, Hpre. simpl. rewrite T2. fold ts.
    rewrite (proj2 (N.leb_gt _ _) Hn). split; [by exists c1|done].
Qed.

Lemma share_prefix_course (w : t E) act job :
  kvs w (job :: act) → config_ w = cfg → NoDup (job_seq <$> job :: act) → SequenceState.prefilled_ (job_state job) = 0 →
  honest w (job :: act) → sound w (job :: act) → vacated w (job :: act) →
  match share_prefix w job with
  | (Throw _, w') => honest w' act
  | (Ok job', w') => honest w' (job' :: act) ∧ sound w' (job' :: act) ∧ vacated w' (job' :: act)
  end.
Proof.
  intros V Hc [Hn _]%NoDup_cons H0 Hh S Hv. unfold share_prefix. destruct (_ && _) eqn:Eg; [|done]. bool_hyps. rewrite Hc in *.
  pose proof (s_jobs _ _ _ _ S) as [Tr Trs]%Forall_cons. pose proof Tr as ((_ & T2 & _) & _). unfold BlockAllocator.block_size.
  rewrite (kv_bs _ _ _ _ V), T2. set (ts := toks _). pose proof (hit_source w job act) as Hsrc. fold ts in Hsrc.
  pose proof (find_gentle w ts bs) as G. destruct (PrefixCache.find_longest (prefix_cache_ w) ts bs) as [[hit|] c]; simpl in G.
  2: { split_and!; [by eapply honest_gentle|by eapply sound_gentle|by eapply vacated_gentle]. }
  destruct (_ =? _)%Z eqn:Es; bool_hyps; [split_and!; [by eapply honest_gentle|by eapply sound_gentle|by eapply vacated_gentle]|].
  destruct (Hsrc hit c V Hh S ltac:(done) eq_refl Es) as (Hlt & Hs0 & c0 & C1 & C2). clear Hsrc.
  pose proof (kv_jobs _ _ _ _ V) as [Fj _]%Forall_cons. pose proof (fits_seq _ Fj) as Fq.
  assert (Hsh : shares w0) by auto. assert (Hshe : shares (weights (engine_ w))) by (by rewrite (h_weights _ _ _ _ Hh)).
  simpl. pose proof (law_copy (engine_ w) (PrefixCache.e_seq hit) (job_seq job) (to_i32 (PrefixCache.e_n_tokens hit)) Hshe Hs0 ltac:(lia)) as La.
  destruct (copy_sequence _ _ _ _) as [[[]|what] e] eqn:Ec; simpl in La.
  2: { eapply (honest_sub _ (job :: act)); [set_solver|]. eapply honest_frame; [..|exact Hh]; [apply La|done]. }
  destruct (BlockTable.adopt_shared_prefix _ _ _ _) as [a tb].
  assert (Hp : job_prefilling job = true).
  { unfold job_prefilling. rewrite prefilling_spec, T2, H0. fold ts. destruct (N.leb_spec (len ts) 0); [lia|done]. }
  split_and!.
  - destruct Hh as [A1 A2 A3 A4]. apply Forall_cons in A2 as [A2 A2']. split; try done.
    + simpl. destruct La. congruence.
    + constructor; [|done]. intros Hfin. change (job_finished job = true) in Hfin. congruence.
  - assert (S' : sound (add_stat (add_stat (set_blocks (set_engine (set_cache w c) e) a) prefix_hits 1) prefix_tokens_saved
      (PrefixCache.e_n_tokens hit)) act).
    { apply (sound_frame (job_seq job) (set_cache w c)); [exact La|done| |eapply sound_gentle; [exact G|eapply sound_sub; [|exact S]; set_solver]].
      intros h r Hr Ht. split; [|by exists r]. destruct (g_donors _ _ G h r Hr Ht) as (r0 & Hr0 & E0). rewrite <- E0 in Ht |- *.
      intros Hq. apply (kvs_detached _ _ V h r0 Hr0 Ht). rewrite Hq. set_solver. }
    destruct S' as [S1 S2]. split; [|done]. constructor; [|done]. simpl.
    eapply (adopted_course (engine_ w) e); try done; [apply Hh| |lia]. destruct La as [La _]. rewrite La. apply Hh.
  - apply (vacated_apart (job_seq job) (set_cache w c) _ (job :: act)); [exact La|done| |by eapply vacated_gentle].
    intros [[_ Hi]|Hi]; [by destruct Hi; rewrite fmap_cons; left|]. simpl in Hi. pose proof (g_spare _ _ G) as Gs. simpl in Gs. rewrite Gs in Hi.
    destruct (free_donor_slot _ _ _ _ _ V Hi). lia.
Qed.

(** Giving a slot back disturbs nobody. *)
Lemma release_course (w w' : t E) act slot :
  kvs w act → (0 ≤ slot < first)%Z → slot ∉ job_seq <$> act → honest w act → sound w act →
  (∀ q, idle w act q → q ≠ slot → vacant (engine_ w) q) →
  engine_ w' = release_sequence (engine_ w) slot → prefix_cache_ w' = prefix_cache_ w →
  Forall (told w0 asks) (results_ (world_ w')) → honest w' act ∧ sound w' act ∧ vacated w' act.
Proof.
  intros V Hs Hn [A1 A2 A3 _] S Hv He Hc Hr. pose proof (law_release (engine_ w) slot ltac:(lia)) as La. split_and!.
  - split; try done. rewrite He. destruct La. congruence.
  - apply (sound_frame slot w); [by rewrite He|done| |done]. rewrite Hc. intros h r Hh Ht. split; [|by exists r].
    destruct (donor_seq _ _ _ _ _ V (entry_retained _ _ _ Hh Ht)) as [Hq _]. lia.
  - intros q Hq. unfold idle in Hq. rewrite Hc in Hq. rewrite He. destruct (decide (q = slot)) as [->|Hne]; [apply law_released; lia|].
    destruct La as [L1 L2]. eapply vacant_ctx; [done|by apply L2|by apply Hv].
Qed.

(** Admission, from the new job on. *)
Lemma admit_job_course (w : t E) act job slot :
  kvs w act → (@fits K L first brief) job → held job = [] → SequenceState.prefilled_ (job_state job) = 0 →
  config_ w = cfg → (0 ≤ slot < first)%Z → job_seq job = slot → slot ∉ job_seq <$> act → NoDup (job_seq <$> act) →
  honest w (job :: act) → sound w (job :: act) → vacated w (job :: act) →
  let '(ok, (w', job')) := reserve w act job in
  if ok then match share_prefix w' job' with
             | (Throw _, w2) => honest w2 act
             | (Ok job2, w2) => honest w2 (job2 :: act) ∧ sound w2 (job2 :: act) ∧ vacated w2 (job2 :: act)
             end
  else kvs w' act ∧ honest w' act ∧ sound w' act ∧ (∀ q, idle w' act q → q ≠ slot → vacant (engine_ w') q) ∧ asked asks (job_request job').
Proof.
  intros V F Hb H0 Hc Hs Hq Hn Hnd Hh S Hv. pose proof (reserve_kv cfg Hshare Hcbs Hwidth HM w act job V F Hb) as Rk.
  pose proof (reserve_course w act job V F Hb Hh S Hv) as R. pose proof (reserve_spec w act job) as [Qr Kr].
  destruct (reserve w act job) as [ok [w' job']]. simpl in Qr, Kr. destruct Rk as (_ & _ & R3 & _ & R4), R as (R5 & R6 & R7).
  injection Kr as _ _ Kq. destruct ok.
  - apply share_prefix_course; [done|by rewrite (q_config _ _ Qr)| |congruence|done|done|done].
    rewrite fmap_cons. apply NoDup_cons. split; [|done]. rewrite Kq, Hq. exact Hn.
  - pose proof (h_asked _ _ _ _ R5) as [Ha _]%Forall_cons.
    split_and!; [done|eapply honest_sub; [|exact R5]; set_solver|eapply sound_sub; [|exact R6]; set_solver| |done].
    intros q [[? Hi]|Hi] Hne; apply R7; [left|by right]. split; [done|]. rewrite fmap_cons, not_elem_of_cons, Kq, Hq. done.
Qed.

(** The answer to a request that does not fit is no answer of the model. *)
Lemma reject_course (w : t E) job slot :
  kvs w [] → (0 ≤ slot < first)%Z → SequenceState.reason_ (job_state job) = kContextOverflow → honest w [] → sound w [] →
  (∀ q, idle w [] q → q ≠ slot → vacant (engine_ w) q) →
  let '(w', job') := finish_job w job in
  let w2 := deliver clock (set_engine w' (release_sequence (engine_ w') slot)) job' in honest w2 [] ∧ sound w2 [] ∧ vacated w2 [].
Proof.
  intros V Hs Hr H2 S2 Hv. pose proof (finish_job_gentle w job) as G.
  assert (Fj : SequenceState.reason_ (job_state (finish_job w job).2) = kContextOverflow ∧
    prefix_cache_ (finish_job w job).1 = prefix_cache_ w ∧ blocks_ (finish_job w job).1 = blocks_ w).
  { unfold finish_job. pose proof (finish_reason (job_state job) (deref w (job_sink job))) as Fr.
    destruct (SequenceState.finish _ _). simpl in *. split_and!; congruence. }
  destruct (finish_job w job) as [w3 job3]. simpl in G, Fj. destruct Fj as (Er & Ec & Eb). cbv zeta. set (w4 := set_engine _ _).
  destruct (deliver_results w4 job3) as (r & D1 & D2 & D3 & _ & D5 & _).
  apply (honest_gentle _ _ _ G) in H2. apply (sound_gentle _ _ _ G) in S2.
  apply (release_course w3 _ [] slot); try done; [unfold ContinuousRun.kvs; by rewrite Ec, Eb|apply not_elem_of_nil| |].
  { intros q Hq Hne. unfold idle in Hq. rewrite Ec in Hq. destruct (g_same _ _ G). eapply vacant_ctx; [done|done|by apply Hv]. }
  rewrite D1. apply Forall_app. split; [apply H2|]. constructor; [|done]. intros Hcl. simpl in Hcl.
  rewrite D5, Er in Hcl. by destruct Hcl as [?|[?|?]].
Qed.

Lemma admit_one_course (w : t E) act slot req :
  kvs w act → config_ w = cfg → (0 ≤ slot < first)%Z → slot ∉ job_seq <$> act → NoDup (job_seq <$> act) →
  brief (req_spec req) → asked asks req → honest w act → sound w act → vacated w act →
  match admit_one clock w act slot req with
  | (Throw _, w') => Forall (told w0 asks) (results_ (world_ w'))
  | (Ok Rejected, w') => honest w' act ∧ sound w' act ∧ vacated w' act
  | (Ok (Deferred r), w') => honest w' act ∧ sound w' act ∧ vacated w' act ∧ asked asks r
  | (Ok (Running job), w') => honest w' (job :: act) ∧ sound w' (job :: act) ∧ vacated w' (job :: act)
  end.
Proof.
  intros V Hc Hs Hn Hnd Hb Ha Hh S Hv. unfold admit_one.
  assert (Hout : ¬ (first ≤ slot < first + Z.of_N donors)%Z) by lia.
  pose proof (make_job_course w0 asks Htame w req slot (h_weights _ _ _ _ Hh) (Hv slot (or_introl (conj Hout Hn))) Ha) as Mc. pose proof (make_job_spec w req slot) as Ms.
  pose proof (make_job_fits cfg Hbrief Hshare Hcbs Hwidth HM w req slot Hs Hb) as Mf.
  destruct (make_job w req slot) as [[job|what] w1]; [|rewrite Mc; apply Hh].
  destruct Mc as (C1 & C2 & C3 & C4 & _ & _), Ms as (_ & Sr & Kj & _ & Sc & _), Mf as (F1 & F2 & F3 & F4 & F5 & _).
  assert (V1 : kvs w1 act) by (unfold ContinuousRun.kvs; by rewrite F4, F5).
  assert (H1 : honest w1 (job :: act)).
  { destruct Hh as [A1 A2 A3 A4]. destruct C1 as [C1 _]. split; [congruence|by constructor| |by rewrite C2].
    rewrite fmap_cons. constructor; [|done]. rewrite Sr. exact Ha. }
  assert (S1 : sound w1 (job :: act)).
  { assert (S0 : sound w1 act).
    { apply (sound_frame slot w); [done|done| |done]. rewrite F5. intros h r Hr Ht. split; [|by exists r].
      destruct (donor_seq _ _ _ _ _ V (entry_retained _ _ _ Hr Ht)) as [Hq _]. lia. }
    destruct S0. split; [by constructor|done]. }
  assert (Hv1 : vacated w1 (job :: act)).
  { assert (Hi : ∀ q, idle w1 (job :: act) q → q ≠ slot ∧ idle w act q).
    { unfold idle. intros q. rewrite F5, fmap_cons, not_elem_of_cons, Kj. intros [(? & ? & ?)|Hi]; [by auto|].
      destruct (free_donor_slot _ _ _ _ _ V Hi). split; [lia|by right]. }
    apply (vacated_apart slot w _ act); [done| | |done]; [intros q _ Hq; by apply Hi|intros Hq; by destruct (Hi _ Hq)]. }
  pose proof (admit_job_course w1 act job slot V1 F1 F2 F3 ltac:(congruence) Hs Kj Hn Hnd H1 S1 Hv1) as R.
  destruct (reserve w1 act job) as [[|] [w2 job1]].
  - destruct (share_prefix w2 job1) as [[job2|what] w3]; [|apply R]. destruct R as (R1 & R2 & R3). simpl. split_and!; [..|exact R3].
    + destruct R1 as [A1 A2 A3 A4]. apply Forall_cons in A2 as [A2 A2'], A3 as [A3 A3']. split; [done|by constructor| |done].
      rewrite fmap_cons. by constructor.
    + destruct R2 as [A1 A2]. apply Forall_cons in A1 as [A1 A1']. split; [|done]. by constructor.
  - destruct R as (V2 & H2 & S2 & Hv2 & Ha2). destruct act as [|a act].
    + set (job2 := fail_job _ _ _). pose proof (reject_course w2 job2 slot V2 Hs eq_refl H2 S2 Hv2) as G. by destruct (finish_job w2 job2).
    + set (w3 := set_engine _ _). destruct (release_course w2 w3 (a :: act) slot V2 Hs Hn H2 S2 Hv2) as (H3 & S3 & Hv3); try done; [apply H2|].
      split_and!; [by eapply honest_frame; [..|exact H3]|by destruct S3; split|exact Hv3|exact Ha2].
Qed.

Lemma admit_one_slot (w : t E) act slot req :
  match admit_one clock w act slot req with (Ok (Running job), _) => job_seq job = slot | _ => True end.
Proof.
  unfold admit_one. pose proof (make_job_spec w req slot) as Ms. destruct (make_job w req slot) as [[job|what] w1]; [|done].
  destruct Ms as (_ & _ & Kj & _). pose proof (reserve_spec w1 act job) as [_ Kr].
  destruct (reserve w1 act job) as [[|] [w2 job1]]; simpl in Kr.
  - pose proof (share_prefix_spec w2 job1) as Ks. destruct (share_prefix w2 job1) as [[job2|what] w3]; [|done].
    destruct Ks as [_ Ks]. injection Ks as _ _ Ks. injection Kr as _ _ Kr. simpl. unfold job_seq in *. simpl. congruence.
  - destruct act; [by destruct (finish_job _ _)|done].
Qed.

(** What holds after a phase that may throw. *)
Definition outcome (r : res unit) (l : Loop E) : Prop :=
  match r with
  | Ok _ => faithful l
  | Throw _ => Forall (told w0 asks) (results_ (world_ (sched l)))
  end.

Lemma admit_loop_course (w : t E) act (slots : list SeqId) pend :
  kvs w act → config_ w = cfg → len act + len slots ≤ M → Forall (λ s, (0 ≤ s < first)%Z) slots →
  NoDup (slots ++ (job_seq <$> act)) → Forall (λ r, brief (req_spec r)) pend → Forall (asked asks) pend →
  honest w act → sound w act → vacated w act →
  let '(r, l') := admit_loop clock w act slots pend in outcome r l'.
Proof.
  revert w act slots. induction pend as [|req pend IH]; intros w act slots V Hc Hl Hf Hn Hp Ha Hh S Hv; cbn [admit_loop]; [done|].
  pose proof Hp as [Hr Hp']%Forall_cons. pose proof Ha as [Hq Ha']%Forall_cons.
  destruct (back slots) as [slot|] eqn:Hs; [|done]. apply back_Some in Hs.
  assert (Hpop : len slots = len (pop_back slots) + 1) by (rewrite Hs at 1; rewrite len_app; done).
  pose proof Hf as Hf'. rewrite Hs in Hf'. apply Forall_app in Hf' as [Hf1 [Hf2 _]%Forall_cons].
  assert (P : slots ++ (job_seq <$> act) ≡ₚ slot :: pop_back slots ++ (job_seq <$> act))
    by (rewrite Hs at 1; by rewrite <- app_assoc, Permutation_middle).
  pose proof Hn as Hn'. rewrite P in Hn'. apply NoDup_cons in Hn' as [Hn1 Hn2]. rewrite not_elem_of_app in Hn1.
  pose proof (admit_one_course w act slot req V Hc Hf2 ltac:(tauto) ltac:(by apply NoDup_app in Hn2 as (_ & _ & ?)) Hr Hq Hh S Hv) as A.
  pose proof (admit_one_kv clock cfg Hbrief Hshare Hcbs Hwidth HM w act slot req V Hc ltac:(lia) Hf2 Hr) as Ak.
  pose proof (admit_one_slot w act slot req) as As.
  destruct (admit_one clock w act slot req) as [[a|what] w1]; [|done]. destruct Ak as (A1 & _ & _ & A4). destruct a as [|r|job].
  - destruct A as (A2 & A3 & A5). by apply IH.
  - destruct A as (A2 & A3 & A6 & A5). split; [done|done|done|]. by constructor.
  - destruct A as (A2 & A3 & A5). assert (Pj : push_back act job ≡ₚ job :: act) by (unfold push_back; by rewrite Permutation_app_comm).
    apply IH; [eapply kvs_proper; [|exact A4]; by rewrite Pj|done| |done| |done|done|..].
    + unfold len in *. rewrite Pj. simpl. lia.
    + by rewrite Pj, fmap_cons, As, <- Permutation_middle, <- P.
    + eapply honest_sub; [|exact A2]. intros j. by rewrite Pj.
    + eapply sound_sub; [|exact A3]. intros j. by rewrite Pj.
    + eapply vacated_sub; [|exact A5]. intros j. by rewrite Pj.
Qed.

(** ** The iteration *)

Lemma take_work_engine n (w : t E) act pend : engine_ (take_work n w act pend).2 = engine_ w.
Proof.
  assert (Pw : ∀ m w1, engine_ (pop_wait m w1 : _ * t E).2 = engine_ w1).
  { induction m as [|m IH]; intros w1; cbn [pop_wait]; destruct (sync_frame w1) as [Es _];
      destruct (RequestQueue.pop _) as [[]|]; simpl; try done. by rewrite IH. }
  assert (Tp : ∀ w1 : t E, engine_ (try_pop w1).2 = engine_ w1).
  { intros w1. unfold try_pop. destruct (sync_frame w1) as [Es _]. by destruct (RequestQueue.try_pop _). }
  revert w pend. induction n as [|n IH]; intros w pend; cbn [take_work]; [done|].
  pose proof (Pw (length (script_ (world_ w))) w) as Ep. fold (pop w) in Ep. specialize (Tp w).
  destruct act as [|a act], pend as [|r pend].
  - destruct (pop w) as [[[req|]|] w1]; simpl in *; [by rewrite IH|done|done].
  - destruct (try_pop w) as [[req|] w1]; simpl in *; [by rewrite IH|done].
  - destruct (try_pop w) as [[req|] w1]; simpl in *; [by rewrite IH|done].
  - destruct (try_pop w) as [[req|] w1]; simpl in *; [by rewrite IH|done].
Qed.

Notation tidy := (tidy (K := K) (T := T) (bs := bs) (L := L) (donors := donors) (brief := brief) cfg).

(** Requests only arrive from those known to come. *)
Lemma advance_fed nb (l : Loop E) : tidy l → fed [] (sched l) (sched (advance clock nb l)).
Proof.
  intros [I V _ _]. unfold advance.
  pose proof (decode_accept_kv clock cfg Hshare Hcbs Hwidth HM nb (sched l) (active l) V (inv_ptrs _ _ I)) as D.
  pose proof (decode_accept_spec clock nb (sched l) (active l) (inv_ptrs _ _ I)) as S.
  destruct (decode_accept _ _ _ _) as [[w act] short]. destruct D as (D1 & _), S as [S1 S2].
  pose proof (inv_in_place _ _ _ _ I S1 S2) as I1. set (l0 := mkLoop w act (free_slots l) (pending l)) in *.
  destruct (sweep_all_kv clock cfg Hbrief Hshare Hcbs Hwidth HM l0 D1 I1) as (A1 & A2 & _).
  destruct (sweep_all_inv clock cfg l0 I1) as [I2 _]. set (l1 := sweep_all clock l0) in *.
  pose proof (resolve_kv cfg Hshare Hcbs Hwidth HM l1 short A1 I2) as (E1 & E2 & _).
  destruct (sweep_all_kv clock cfg Hbrief Hshare Hcbs Hwidth HM (resolve l1 short) E1 (resolve_inv cfg l1 short I2)) as (_ & G2 & _).
  apply (fed_trans [] [] _ w); [apply S1|]. apply environ_fed. etrans; [exact G2|]. by rewrite E2, A2.
Qed.

(** The loop, and the requests still to come. *)
Definition awaited (l : Loop E) : Prop := Forall (asked asks) (pending l ++ incoming (sched l)).

Lemma awaited_fed (l l' : Loop E) more :
  awaited l → fed more (sched l) (sched l') → pending l' = pending l ++ more → awaited l'.
Proof.
  unfold awaited. intros [B1 B2]%Forall_app [Hm _] ->. rewrite <- app_assoc. apply Forall_app. split; [done|].
  by eapply Forall_sublist.
Qed.

(** Admission, with the invariants of the loop. *)
Lemma admit_course (w : t E) act slots pend :
  let l := mkLoop w act slots pend in
  tidy l → honest w act → sound w act → vacated w act → awaited l →
  match admit_loop clock w act slots pend with
  | (Ok _, l1) => tidy l1 ∧ faithful l1 ∧ awaited l1
  | (Throw _, l1) => Forall (told w0 asks) (results_ (world_ (sched l1)))
  end.
Proof.
  intros l [I V B R] Hh S Hv Aw. destruct (slot_bounds cfg Hshare Hcbs Hwidth HM l I) as (Hsl & Hfi & _).
  pose proof Aw as [Ap Ai]%Forall_app. pose proof B as [Bp Bi]%Forall_app.
  pose proof (NoDup_init_slots (N.to_nat M)) as Hn. rewrite <- (inv_slots _ _ I) in Hn.
  pose proof (admit_loop_course w act slots pend V ltac:(apply I) Hsl Hfi Hn Bp Ap Hh S Hv) as Ac.
  pose proof (admit_loop_kv clock cfg Hbrief Hshare Hcbs Hwidth HM w act slots pend V ltac:(apply I) Hsl Hfi Bp) as Ak.
  pose proof (admit_loop_inv clock cfg w act slots pend I) as Ai'.
  destruct (admit_loop _ _ _ _ _) as [[u|what] l1]; [|done]. destruct Ak as (A1 & _ & A3 & A4 & A5 & _).
  apply environ_incoming in A3. split_and!; [|done|].
  - split; [done|done| |auto]. apply Forall_app. split; [done|]. by rewrite A3.
  - apply Forall_app. split; [apply Ac|]. by rewrite A3.
Qed.

(** Taking work from the queue leaves the sequences alone. *)
Lemma work_course (l : Loop E) pend w :
  let room := N.to_nat (max_batch_size (config_ (sched l)) - (len (pending l) + len (active l))) in
  tidy l → faithful l → awaited l → take_work room (sched l) (active l) (pending l) = (Some pend, w) →
  let l0 := mkLoop w (active l) (free_slots l) pend in
  tidy l0 ∧ honest w (active l) ∧ sound w (active l) ∧ vacated w (active l) ∧ awaited l0 ∧
  results_ (world_ w) = results_ (world_ (sched l)).
Proof.
  intros room [I V B R] [Fh Fs Fv Fp] Aw Et. pose proof (take_work_engine room (sched l) (active l) (pending l)) as Te.
  destruct (take_work_frame clock cfg Hshare Hcbs Hwidth room (sched l) (active l) (pending l)) as [(S1 & S2 & S3) Tp].
  rewrite Et in Te, S1, S2, S3, Tp. simpl in Te, S1, S2, S3, Tp. pose proof (take_work_inv clock cfg l pend w I Et) as I0.
  destruct (Tp pend eq_refl) as (more & -> & Hm). split_and!; [|..|done].
  - split; [done|unfold ContinuousRun.kvs in *; simpl; by rewrite S1, S2| |unfold reasoned; simpl; by rewrite S3].
    simpl. rewrite <- app_assoc. apply Forall_app in B as [B1 B2]. apply Forall_app. split; [done|].
    eapply Forall_sublist; [apply Hm|done].
  - eapply honest_frame; [..|exact Fh]; [by rewrite Te|done].
  - destruct Fs. split; [by rewrite Te|by rewrite Te, S2].
  - intros q Hq. unfold idle in Hq. rewrite S2 in Hq. rewrite Te. by apply Fv.
  - by eapply awaited_fed.
Qed.

Lemma iterate_course nb (l : Loop E) :
  nb ≤ n_batch (caps_of w0) → tidy l → faithful l → awaited l →
  match iterate clock nb l with
  | (None, l') => faithful l' ∧ awaited l'
  | (Some _, l') => Forall (told w0 asks) (results_ (world_ (sched l')))
  end.
Proof.
  intros Hnb Td F Aw. pose proof F as [Fh _ _ _]. unfold iterate. set (room := N.to_nat _).
  destruct (take_work_frame clock cfg Hshare Hcbs Hwidth room (sched l) (active l) (pending l)) as [(_ & _ & S3) _].
  destruct (take_work _ _ _ _) as [[pend|] w] eqn:Et; simpl in S3.
  2: { simpl. rewrite S3. apply Fh. }
  destruct (work_course l pend w Td F Aw Et) as (Td0 & H1 & So1 & Fv1 & Aw0 & _).
  pose proof (admit_course w (active l) (free_slots l) pend Td0 H1 So1 Fv1 Aw0) as A.
  assert (Hret : Forall (told w0 asks) (results_ (world_ w))) by (rewrite S3; apply Fh).
  destruct (active l) as [|j act], pend as [|r pend']; [done|..];
    (destruct (admit_loop _ _ _ _ _) as [[u|what] l1]; [|done]); destruct A as (Td1 & F1 & Aw1);
    (destruct (active l1); [done|]); (split; [by apply advance_course; [|apply Td1..|]|]).
  all: destruct (advance_fed nb l1 Td1) as [Hi _]; pose proof (advance_course nb l1 Hnb (tidy_kv _ _ Td1) (tidy_inv _ _ Td1) F1) as [_ _ _ F3];
    apply Forall_app in Aw1 as [_ Aw1]; apply Forall_app; (split; [done|by eapply Forall_sublist]).
Qed.

Lemma iterates_course nb (l l' : Loop E) :
  rtc (iterates clock nb) l l' → nb ≤ n_batch (caps_of w0) → tidy l → faithful l → awaited l →
  tidy l' ∧ faithful l' ∧ awaited l'.
Proof.
  intros R Hnb. induction R as [|l l1 l' St _ IH]; intros Td F Aw; [done|]. unfold iterates in St.
  pose proof (iterate_course nb l Hnb Td F Aw) as It.
  pose proof (iterate_tidy clock cfg Hbrief Hshare Hcbs Hwidth HM nb l Td) as Itt.
  rewrite St in It, Itt. destruct It, Itt as [Td1 _]. by apply IH.
Qed.

Lemma run_loop_course fuel nb (l : Loop E) :
  nb ≤ n_batch (caps_of w0) → tidy l → faithful l → awaited l →
  Forall (told w0 asks) (results_ (world_ (sched (run_loop clock fuel nb l).2))).
Proof.
  intros Hnb. revert l. induction fuel as [|fuel IH]; intros l Td F Aw; cbn [run_loop]; [apply F|].
  pose proof (iterate_course nb l Hnb Td F Aw) as It.
  pose proof (iterate_tidy clock cfg Hbrief Hshare Hcbs Hwidth HM nb l Td) as Itt.
  destruct (iterate clock nb l) as [[o|] l1]; [done|]. destruct It, Itt as [Td1 _]. by apply IH.
Qed.

End Run.

(** ** The scheduler as it is constructed *)

Section Scheduler.
Context {E W C : Type} `{IModelEngine E} `{!SeqModel E W C} `{!SeqLaws E W C}.
Variable clock : nat → TimePoint.

(** The prompts of two requests that hash alike up to some length have the same tokens
    up to there, and none is a whole number of blocks. *)
Definition prompts_apart (w : t E) : Prop :=
  let prompt_of r := tokens_of (weights (engine_ w)) (Types.prompt (req_spec r)) in
  (∀ r r' n, r ∈ incoming w → r' ∈ incoming w →
     PrefixCache.hash_prefix (prompt_of r) n = PrefixCache.hash_prefix (prompt_of r') n →
     take (N.to_nat n) (prompt_of r) = take (N.to_nat n) (prompt_of r')) ∧
  ∀ r, r ∈ incoming w → len (prompt_of r) mod block_size (config_ w) ≠ 0.

(** What prefix caching asks for: the engine can copy part of a sequence, and the cache
    is never misled about a prompt. *)
Definition shares_safely (w : t E) : Prop := shares (weights (engine_ w)) ∧ prompts_apart w.

(** The requests a scheduler will see. *)
Definition asks_of (w : t E) : list (PromiseId * RequestSpec) := (λ r, (req_result r, req_spec r)) <$> incoming w.

Lemma asks_of_elem w p spec : (p, spec) ∈ asks_of w → ∃ r, r ∈ incoming w ∧ spec = req_spec r.
Proof. intros ([] & [= -> ->] & Hr)%list_elem_of_fmap. eauto. Qed.

(** A scheduler that has just been built, over an engine that has just been built, whose
    requests have tokens, in a number that fits 32 bits. *)
Record proper (K : N) (w : t E) : Prop := mk_proper {
  proper_fresh : fresh K w;
  proper_K : K < 2147483648;
  proper_ids : max_batch_size (config_ w) ≤ 2147483648;
  proper_fit : fit (weights (engine_ w));
  proper_unused q : vacant (engine_ w) q;
  proper_tokens req : req ∈ incoming w → tokens_of (weights (engine_ w)) (Types.prompt (req_spec req)) ≠ [] }.

Lemma asks_tame K (w : t E) :
  proper K w → ∀ p spec, (p, spec) ∈ asks_of w → tame (E := E) (weights (engine_ w)) spec.
Proof.
  intros P p spec (r & Hr & ->)%asks_of_elem. pose proof (proper_K _ _ P). pose proof (fresh_within _ _ (proper_fresh _ _ P)) as Hw. rewrite Forall_forall in Hw.
  specialize (Hw r Hr (engine_ w)). destruct (law_tokenize (engine_ w) (Types.prompt (req_spec r))) as [Ht _].
  rewrite Ht in Hw. split; [by apply (proper_tokens _ _ P)|unfold toks; lia].
Qed.

Lemma asks_apart (w : t E) :
  shares_safely w →
  (∀ p spec p' spec' n, (p, spec) ∈ asks_of w → (p', spec') ∈ asks_of w →
     PrefixCache.hash_prefix (toks (E := E) (weights (engine_ w)) spec) n = PrefixCache.hash_prefix (toks (E := E) (weights (engine_ w)) spec') n →
     take (N.to_nat n) (toks (E := E) (weights (engine_ w)) spec) = take (N.to_nat n) (toks (E := E) (weights (engine_ w)) spec')) ∧
  ∀ p spec, (p, spec) ∈ asks_of w → len (toks (E := E) (weights (engine_ w)) spec) mod block_size (config_ w) ≠ 0.
Proof.
  intros (_ & H1 & H2). split.
  - intros p spec p' spec' n (r & Hr & ->)%asks_of_elem (r' & Hr' & ->)%asks_of_elem. by apply H1.
  - intros p spec (r & Hr & ->)%asks_of_elem. by apply H2.
Qed.

Lemma proper_faithful K (w : t E) :
  proper K w → faithful (donors := prefix_donors (config_ w)) (config_ w) (weights (engine_ w)) (asks_of w) (init w) ∧ awaited (asks_of w) (init w).
Proof.
  intros P. pose proof (proper_fresh _ _ P) as F. split.
  - split; [split|split|intros q _; apply P|]; simpl; try done; [by rewrite (fresh_results _ _ F)|].
    intros h r Hr. rewrite (fresh_cache _ _ F) in Hr. simpl in Hr. by apply lookup_empty_Some in Hr.
  - apply Forall_forall. intros r Hr. unfold asks_of, asked. simpl in Hr. apply list_elem_of_fmap. eauto.
Qed.

Lemma continuous_alone K fuel (w : t E) :
  proper K w → (prefix_caching (config_ w) = true → shares_safely w) → (prefix_donors (config_ w) ≠ 0 → ¬ broke (E := E)) →
  Forall (told (E := E) (weights (engine_ w)) (asks_of w)) (results_ (world_ (run_continuous clock fuel w).2)).
Proof.
  intros P Hh Hd. pose proof (proper_fresh _ _ P) as F. pose proof (fresh_limits K w F). destruct (proper_faithful K w P) as [Hf Ha].
  unfold run_continuous.
  pose proof (run_loop_course (T := kv_blocks (config_ w)) (brief := within K) clock (config_ w) (weights (engine_ w)) (asks_of w)
    (λ _ Hs, Hs) (fresh_share K w) eq_refl (fresh_width _ _ F) (fresh_batch _ _ F) (asks_tame K w P) (proper_fit _ _ P) (proper_ids _ _ P) (λ Hc, proj1 (Hh Hc)) Hd
    (λ Hc, proj1 (asks_apart w (Hh Hc))) (λ Hc, proj2 (asks_apart w (Hh Hc)))
    fuel (n_batch (caps (engine_ w))) (init w) ltac:(by rewrite law_caps) (fresh_tidy K w F) Hf Ha) as R.
  by destruct (run_loop _ _ _ _) as [o l].
Qed.

End Scheduler.
