(* ===== verification/StaticTransparency.v ===== *)
(** Static batching is transparent too, so the two modes answer alike.

    A static batch releases a sequence as soon as it ends, and runs the others on: the
    invariant of [Transparency.v] is needed of the running jobs only ([carried]).  The
    phases of [run_batch] (forming the batch, packed prefills, rounds of decodes, the
    catch, delivery) keep it, and [run_static] answers every request that ends by itself
    as the model does alone. *)
From Stdlib Require Import Permutation Lia.
From stdpp Require Import base list gmap strings.
From S2P Require Import Prelude Types Blocks Tables Prefix Timing Engine Sinks Sequence Mock Generator Queue Scheduler Continuous Static Demo Conservation Batching Pressure StaticRun KvAccounting ContinuousRun Alone Transparency TransparentRun.

Local Open Scope N_scope.

Import Scheduler Continuous Static.

Section Static.
Context {E W C : Type} `{IModelEngine E} `{!SeqModel E W C} `{!SeqLaws E W C}.
Variable clock : nat → TimePoint.
Variable w0 : W.
Variable asks : list (PromiseId * RequestSpec).
Hypothesis Htame : ∀ p spec, (p, spec) ∈ asks → tame (E := E) w0 spec.
Hypothesis Hfit : fit w0.

(** What is owed to a job whatever the engine does. *)
Definition owed (j : Job) : Prop := asked asks (job_request j) ∧ settled w0 j ∧ (0 ≤ job_seq j)%Z.

(** A job of a static batch: running ones are on course, ended ones have their answer and
    have left their slot. *)
Definition carried (e : E) (j : Job) : Prop :=
  owed j ∧ (job_finished j = false → tracked w0 e j) ∧ (job_finished j = true → vacant e (job_seq j)).

Lemma carried_ctx (e e' : E) j :
  weights e' = weights e → ctx e' (job_seq j) = ctx e (job_seq j) → carried e j → carried e' j.
Proof.
  intros Hw Hc (H1 & H2 & H3). split_and!; [done|..]; intros Hf.
  - eapply tracked_ctx; [exact Hc|auto].
  - eapply vacant_ctx; [done|done|auto].
Qed.

(** Nothing changed for sequences that are not in the batch. *)
Definition beside (jobs : list Job) (e e' : E) : Prop := ∀ q, q ∉ job_seq <$> jobs → ctx e' q = ctx e q.

Lemma beside_trans jobs jobs' e1 e2 e3 :
  job_seq <$> jobs' = job_seq <$> jobs → beside jobs e1 e2 → beside jobs' e2 e3 → beside jobs e1 e3.
Proof. intros Hs B1 B2 q Hq. rewrite B2 by (by rewrite Hs). by apply B1. Qed.

(** ** Accepting a round *)

(** What a round leaves of a job. *)
Definition stays (ptrs : list N) (j j' : Job) : Prop :=
  key j' = key j ∧ (job_ptr j ∉ ptrs → j' = j) ∧ (job_ptr j ∈ ptrs → job_prefilling j' = false).

Lemma stays_put j jobs ptrs jobs' :
  job_ptr j ∉ ptrs → job_prefilling j = false → (∀ x, x ∈ jobs → job_ptr x = job_ptr j → key j = key x) →
  Forall2 (stays ptrs) (put_job j jobs) jobs' → Forall2 (stays (job_ptr j :: ptrs)) jobs jobs'.
Proof.
  intros Hp Hpre Hk F. unfold put_job in F. rewrite Forall2_fmap_l in F. eapply Forall2_impl_elem; [exact F|].
  intros x x' Hx (S1 & S2 & S3). destruct (job_ptr x =? job_ptr j) eqn:Ex; bool_hyps.
  - rewrite (S2 Hp). split_and!; [by apply Hk|rewrite elem_of_cons; tauto|done].
  - split_and!; [done| |]; rewrite elem_of_cons; naive_solver.
Qed.

(** Every pointer still to come finds the token its job expects. *)
Definition due (e : E) (steps : list GenStep) (k : nat) (ptrs : list N) (j : Job) : Prop :=
  (0 ≤ job_seq j)%Z ∧ (job_ptr j ∉ ptrs → carried e j) ∧
  (∀ i, ptrs !! i = Some (job_ptr j) → asked asks (job_request j) ∧
     ∃ st, steps !! (k + i)%nat = Some st ∧ expectant w0 e j st).

Lemma due_next (e e' : E) steps k p ptrs j :
  weights e' = weights e → ctx e' (job_seq j) = ctx e (job_seq j) → job_ptr j ≠ p →
  due e steps k (p :: ptrs) j → due e' steps (S k) ptrs j.
Proof.
  intros Hw Hc Hp (T0 & T1 & T2). split_and!; [done|..].
  - intros Hj. apply (carried_ctx e); [done|done|]. apply T1. by apply not_elem_of_cons.
  - intros i Hi. destruct (T2 (S i) Hi) as (Ha & st & Hst & X1 & X2 & X3 & c & X4 & X5). split; [done|]. exists st.
    rewrite Nat.add_succ_r in Hst. split; [done|]. split_and!; try done. exists c. by rewrite Hc.
Qed.

(** One accept: a sequence that ends is finished and its slot released. *)
Definition accept_end (w : t E) (job : Job) (st : GenStep) : t E * Job :=
  match accept_job w job st with
  | (true, (w2, job2)) => (w2, job2)
  | (false, (w2, job2)) =>
      let (w3, job3) := finish_job w2 job2 in (set_engine w3 (release_sequence (engine_ w3) (job_seq job3)), job3)
  end.

Lemma accept_end_course (w : t E) job st :
  weights (engine_ w) = w0 → expectant w0 (engine_ w) job st → asked asks (job_request job) → (0 ≤ job_seq job)%Z →
  let '(w', job') := accept_end w job st in
  apart (job_seq job) (engine_ w) (engine_ w') ∧ results_ (world_ w') = results_ (world_ w) ∧
  key job' = key job ∧ job_prefilling job' = false ∧ carried (engine_ w') job'.
Proof.
  intros Hw Hx Ha H0. unfold accept_end. pose proof (accept_job_course w0 w job st Hw Hx) as A.
  pose proof (accept_job_spec w job st) as (_ & Hk & _).
  destruct (accept_job w job st) as [more [w2 job2]]. simpl in Hk. destruct A as (G & Hr & Hf & Hp & T & (c & Hc & Hh & Hon) & Hend).
  assert (Ha2 : asked asks (job_request job2)) by (by rewrite Hr). destruct more.
  - destruct (Hon eq_refl) as [I Ho]. assert (Hs2 : job_seq job2 = job_seq job) by (by injection Hk).
    split_and!; [apply same_apart, G|apply G|done|done|]. split_and!; [split_and!; [done| |by rewrite Hs2]|..].
    + intros Hfin. simpl in Hf. congruence.
    + intros _. split; [done|]. exists c. split; [done|]. by rewrite Hf.
    + intros Hfin. simpl in Hf. congruence.
  - specialize (Hend eq_refl). pose proof (finish_job_gentle w2 job2) as Gf. unfold finish_job in *.
    specialize (λ Hcl, Hend Hcl (deref w2 (job_sink job2))). set (k := deref w2 (job_sink job2)) in *.
    pose proof (SequenceState.finish_frame (job_state job2) k) as ((R1 & R2 & R3 & R4 & _) & _ & _ & _ & R5).
    pose proof (finish_reason (job_state job2) k) as Rr. pose proof Hk as Hk2. injection Hk2 as _ _ K3.
    destruct (SequenceState.finish (job_state job2) k) as [s k']. simpl in *. split_and!.
    + assert (Es : SequenceState.seq_ s = job_seq job) by exact (eq_trans R1 K3). unfold job_seq at 2. simpl. rewrite Es.
      eapply apart_trans; [apply same_apart; eapply same_trans; [apply G|apply Gf]|by apply law_release].
    + apply G.
    + rewrite <- Hk. unfold key, job_seq. simpl. by rewrite R1.
    + unfold job_prefilling in *. simpl. by rewrite prefilling_spec, R3, R4, <- prefilling_spec.
    + assert (Es : SequenceState.seq_ s = job_seq job) by exact (eq_trans R1 K3).
      split_and!; [split_and!; [done| |unfold job_seq; simpl; by rewrite Es]|..].
      * intros _ Hcl. simpl in *. rewrite Rr in Hcl. auto.
      * unfold job_finished in *. simpl in *. rewrite (R5 Hf). done.
      * intros _. unfold job_seq. simpl. rewrite Es. by apply law_released.
Qed.

Lemma accept_static_course (w : t E) jobs steps k ptrs :
  weights (engine_ w) = w0 → NoDup (job_ptr <$> jobs) → NoDup (job_seq <$> jobs) → NoDup ptrs →
  (∀ j, j ∈ jobs → due (engine_ w) steps k ptrs j) →
  let '(r, (w', jobs')) := accept_static clock w jobs steps k ptrs in
  r = Ok tt ∧ weights (engine_ w') = w0 ∧ results_ (world_ w') = results_ (world_ w) ∧
  Forall (carried (engine_ w')) jobs' ∧ Forall2 (stays ptrs) jobs jobs' ∧ beside jobs (engine_ w) (engine_ w').
Proof.
  revert w jobs k. induction ptrs as [|p ptrs IH]; intros w jobs k Hw Hn Hq Hnp Ht; cbn [accept_static].
  { split_and!; try done.
    - apply Forall_forall. intros j Hj. apply (Ht j Hj), not_elem_of_nil.
    - apply Forall_Forall2_diag, Forall_forall. intros j _. split_and!; [done..|]. intros Hp. by apply not_elem_of_nil in Hp. }
  apply NoDup_cons in Hnp as [Hp Hnp]. destruct (find_job p jobs) as [job|] eqn:Ef.
  2: { assert (Hne : ∀ j, j ∈ jobs → job_ptr j ≠ p) by (intros j Hj <-; by rewrite (find_job_elem _ _ Hn Hj) in Ef).
       specialize (IH w jobs (S k) Hw Hn Hq Hnp). destruct (accept_static _ _ _ _ _ _) as [r [w' jobs']].
       destruct IH as (I1 & I2 & I3 & I4 & I5 & I6); [intros j Hj; eapply due_next; [done|done|by apply Hne|by apply Ht]|].
       split_and!; try done. eapply Forall2_impl_elem; [exact I5|]. intros x x' Hx (S1 & S2 & S3). specialize (Hne x Hx).
       split_and!; [done| |]; rewrite elem_of_cons; naive_solver. }
  destruct (find_job_Some _ _ _ Ef) as [Hj Hptr]. destruct (Ht job Hj) as (T0 & _ & T2).
  destruct (T2 0%nat) as (Ha & st & Hst & Hx); [by rewrite Hptr|]. rewrite Nat.add_0_r in Hst.
  pose proof (stamp_first_gentle clock w job) as G1. pose proof (stamp_first_key clock w job) as K1.
  assert (X1 : expectant w0 (engine_ (stamp_first clock w job).1) (stamp_first clock w job).2 st ∧ asked asks (job_request (stamp_first clock w job).2)).
  { split; [eapply expectant_same; [apply G1|]|]; unfold stamp_first; by destruct (RequestTiming.first_token _). }
  destruct (stamp_first clock w job) as [w1 job1]. simpl in G1, K1, X1. destruct X1 as [X1 Q1]. rewrite Hst.
  assert (Hw1 : weights (engine_ w1) = w0) by (destruct (g_same _ _ G1); congruence).
  assert (Kq1 : job_seq job1 = job_seq job) by (by injection K1).
  pose proof (accept_end_course w1 job1 st Hw1 X1 Q1 ltac:(by rewrite Kq1)) as A.
  assert (G : ∀ w2 job2, apart (job_seq job1) (engine_ w1) (engine_ w2) → results_ (world_ w2) = results_ (world_ w1) →
    key job2 = key job1 → job_prefilling job2 = false → carried (engine_ w2) job2 →
    let '(r, (w', jobs')) := accept_static clock w2 (put_job job2 jobs) steps (S k) ptrs in
    r = Ok tt ∧ weights (engine_ w') = w0 ∧ results_ (world_ w') = results_ (world_ w) ∧
    Forall (carried (engine_ w')) jobs' ∧ Forall2 (stays (p :: ptrs)) jobs jobs' ∧ beside jobs (engine_ w) (engine_ w')).
  { intros w2 job2 [Ap1 Ap2] Rs K2 Pre Ca. rewrite K1 in K2. pose proof K2 as Kk. injection Kk as Kp _ Kq.
    assert (Hk : key <$> put_job job2 jobs = key <$> jobs) by (eapply put_job_keys; [done|by rewrite Hptr|done]).
    specialize (IH w2 (put_job job2 jobs) (S k)). destruct (accept_static _ _ _ _ _ _) as [r [w' jobs']].
    destruct IH as (I1 & I2 & I3 & I4 & I5 & I6); [congruence|by rewrite (keys_ptrs _ _ Hk)|by rewrite (keys_seqs _ _ Hk)|done| |].
    - intros j [->|[Hja Hne]]%put_job_elem.
      + split_and!; [by rewrite Kq|done|]. intros i Hi%list_elem_of_lookup_2. by rewrite Kp, Hptr in Hi.
      + apply (due_next (engine_ w) _ _ _ p); [congruence| |congruence|by apply Ht]. destruct (g_same _ _ G1) as [_ Gs].
        rewrite Ap2; [apply Gs|]. rewrite Kq1. intros Hs. apply (NoDup_fmap_inj job_seq jobs j job Hq Hja Hj) in Hs. congruence.
    - split_and!; try done; [rewrite I3, Rs; apply G1| |].
      2: { intros q Hq'. rewrite I6 by (by rewrite (keys_seqs _ _ Hk)). destruct (g_same _ _ G1) as [_ Gs]. rewrite Ap2; [apply Gs|].
           rewrite Kq1. intros ->. by apply Hq', list_elem_of_fmap_2. }
      rewrite <- Hptr, <- Kp. apply stays_put; try done; [by rewrite Kp, Hptr|].
      intros x Hxj Hxp. rewrite Kp in Hxp. by rewrite K2, (NoDup_fmap_inj job_ptr jobs x job Hn Hxj Hj Hxp). }
  unfold accept_end in A. destruct (accept_job w1 job1 st) as [[|] [w2 job2]]; [|destruct (finish_job w2 job2) as [w3 job3]];
    destruct A as (A1 & A2 & A3 & A4 & A5); by apply G.
Qed.

(** ** Whom a batch serves *)

Lemma moves_keys duty act act' : Forall2 (moves duty) act act' → key <$> act' = key <$> act.
Proof.
  induction 1 as [|j j' act act' M _ IH]; [done|]. rewrite !fmap_cons, IH. f_equal.
  destruct M as [(i & _ & ->)|[_ ->]]; [apply submitting_key|done].
Qed.

(** A round of decodes serves every running job. *)
Lemma build_step_assigned jobs :
  (∀ j, j ∈ jobs → job_finished j = false → job_prefilling j = false) → ∃ duty, assigned jobs (build_step jobs) jobs duty.
Proof.
  intros Hp. set (run := filter (λ j, job_finished j = false) jobs).
  exists ((λ j, (j, SequenceState.decode_item (job_state j))) <$> run). set (duty := _ <$> run).
  assert (Hd1 : duty.*1 = run) by (unfold duty; rewrite <- list_fmap_compose; apply list_fmap_id).
  assert (Hf : filter (λ x : Job * BatchItem, item_sample x.2 = true) duty = duty).
  { unfold duty. clear. induction run as [|j l IH]; [done|]. rewrite fmap_cons, filter_cons_True by done. by rewrite IH. }
  split; unfold build_step; fold run; cbn [items sampling].
  - unfold duty. by rewrite <- list_fmap_compose.
  - by rewrite Hf, Hd1.
  - unfold duty. apply Forall_fmap, Forall_forall. intros j [Hj Hin]%list_elem_of_filter. split; [done|]. left. auto.
  - rewrite Hd1. apply sublist_submseteq, sublist_filter.
  - apply Forall_Forall2_diag, Forall_forall. intros j Hj. destruct (job_finished j) eqn:Ef.
    + right. split; [|done]. rewrite Hd1. intros [? _]%list_elem_of_filter. congruence.
    + left. exists (SequenceState.decode_item (job_state j)). unfold submitting. rewrite (Hp j Hj Ef). split; [|done].
      unfold duty, run. apply (list_elem_of_fmap_2 (λ j, (j, SequenceState.decode_item (job_state j)))), list_elem_of_filter. done.
Qed.

Lemma prefill_item_rest s :
  SequenceState.prefill_item s = SequenceState.take_prefill_chunk s (SequenceState.prefill_remaining s).
Proof.
  unfold SequenceState.prefill_item, SequenceState.take_prefill_chunk, SequenceState.prefill_remaining.
  by rewrite N.min_r, N.min_id by lia.
Qed.

(** A packed prefill serves the jobs it passes over. *)
Lemma pack_assigned nb its tokens rest :
  NoDup rest → (∀ j, j ∈ rest → job_finished j = false → job_prefilling j = true) →
  let '(b, passed, later) := pack nb its tokens rest in
  ∃ duty, assigned rest b (passed ++ later) duty ∧ (∀ j, j ∈ later → j ∈ rest ∧ j ∉ duty.*1).
Proof.
  revert its tokens. induction rest as [|j rest IH]; intros its tokens Hn Hp; cbn [pack].
  { exists []. split; [by split|]. intros j Hj. by apply not_elem_of_nil in Hj. }
  apply NoDup_cons in Hn as [Hj Hn]. assert (Hp' : ∀ j, j ∈ rest → job_finished j = false → job_prefilling j = true) by (intros; apply Hp; set_solver).
  destruct (job_finished j) eqn:Ef.
  { specialize (IH its tokens Hn Hp'). destruct (pack _ _ _ _) as [[b passed] later]. destruct IH as (duty & [A1 A2 A3 A4 A5] & Hl).
    exists duty. split; [|intros x Hx; destruct (Hl x Hx); set_solver]. split; try done; [by apply submseteq_cons|].
    constructor; [|done]. right. split; [|done]. intros Hin. by apply Hj, (elem_of_submseteq _ _ _ Hin A4). }
  destruct (_ && _).
  { exists []. split; [|intros x Hx; split; [done|apply not_elem_of_nil]]. split; try done; [apply submseteq_nil_l|].
    apply Forall_Forall2_diag, Forall_forall. intros x _. right. split; [apply not_elem_of_nil|done]. }
  specialize (Hp j ltac:(set_solver) Ef). unfold job_prefilling in Hp. pose proof Hp as Hpos. unfold SequenceState.prefilling in Hpos. bool_hyps.
  rewrite prefill_item_rest. set (n := SequenceState.prefill_remaining (job_state j)) in *.
  destruct (chunk_len (job_state j) n ltac:(done)) as [Hl Hc].
  assert (Hsam : item_sample (SequenceState.take_prefill_chunk (job_state j) n).1 = true).
  { unfold SequenceState.take_prefill_chunk, n, SequenceState.prefill_remaining. simpl. apply N.eqb_eq. lia. }
  assert (Hsv : serves j (SequenceState.take_prefill_chunk (job_state j) n).1) by (split; [done|]; right; split; [done|]; exists n; done).
  rewrite Hc. set (i := (SequenceState.take_prefill_chunk (job_state j) n).1) in *. clearbody i.
  specialize (IH (its + 1) (tokens + n) Hn Hp'). destruct (pack _ _ _ _) as [[b passed] later]. destruct IH as (duty & [A1 A2 A3 A4 A5] & Hlt).
  exists ((j, i) :: duty). split; [|intros x Hx; destruct (Hlt x Hx); rewrite fmap_cons, not_elem_of_cons; split; [set_solver|]; split; [intros ->; done|done]].
  split; cbn [items sampling].
  - by rewrite A1.
  - rewrite filter_cons_True by done. rewrite !fmap_cons. cbn [fst]. by rewrite A2.
  - by constructor.
  - by apply submseteq_skip.
  - constructor.
    + left. exists i. split; [set_solver|]. unfold submitting, job_prefilling. rewrite Hp, Hl. done.
    + eapply Forall2_impl_elem; [exact A5|]. intros x x' Hx. apply moves_skip. intros ->. done.
Qed.

Lemma assigned_app first act b act' duty :
  NoDup (first ++ act) → assigned act b act' duty → assigned (first ++ act) b (first ++ act') duty.
Proof.
  intros (_ & Hd & _)%NoDup_app [A1 A2 A3 A4 A5]. split; try done.
  - etrans; [exact A4|]. by apply submseteq_inserts_l.
  - apply Forall2_app; [|done]. apply Forall_Forall2_diag, Forall_forall. intros j Hj. right. split; [|done].
    intros Hin. by apply (Hd j Hj), (elem_of_submseteq _ _ _ Hin A4).
Qed.

(** ** The phases of a batch *)

Lemma carried_owed (e : E) jobs : Forall (carried e) jobs → Forall owed jobs.
Proof. intros F. eapply Forall_impl; [exact F|]. by intros j (? & _). Qed.

Lemma stays_keys ptrs jobs jobs' : Forall2 (stays ptrs) jobs jobs' → key <$> jobs' = key <$> jobs.
Proof. induction 1 as [|j j' jobs jobs' (S & _) _ IH]; [done|]. by rewrite !fmap_cons, IH, S. Qed.

(** One decode with its accepts. *)
Lemma submit_course (w : t E) jobs0 b jobs duty :
  weights (engine_ w) = w0 → Forall (carried (engine_ w)) jobs0 → len jobs0 ≤ 4294967296 →
  NoDup (job_ptr <$> jobs0) → NoDup (job_seq <$> jobs0) → assigned jobs0 b jobs duty →
  let '(r, (w', jobs')) := submit clock w jobs b in
  weights (engine_ w') = w0 ∧ results_ (world_ w') = results_ (world_ w) ∧ Forall owed jobs' ∧
  key <$> jobs' = key <$> jobs0 ∧ beside jobs0 (engine_ w) (engine_ w') ∧
  (r = Ok tt → Forall (carried (engine_ w')) jobs' ∧ Forall2 (stays (sampling b)) jobs jobs').
Proof.
  intros Hw Hc Hlen Hnp Hns A. pose proof (moves_keys _ _ _ (as_moves _ _ _ _ A)) as Hk. pose proof (carried_owed _ _ Hc) as Ho.
  assert (Hse : ∀ j, j ∈ jobs → owed j).
  { intros j Hj. destruct (submitted_settled w0 asks jobs0 b jobs duty j) as [H1 H2]; [| |exact A|done|];
      [|apply Forall_fmap|]; try (eapply Forall_impl; [exact Ho|]; by intros x (? & ? & _)). split_and!; [done|done|].
    apply (list_elem_of_fmap_2 job_seq) in Hj. rewrite (keys_seqs _ _ Hk) in Hj. apply list_elem_of_fmap in Hj as (x & -> & Hx).
    rewrite Forall_forall in Ho. by destruct (Ho x Hx) as (_ & _ & ?). }
  rewrite Forall_forall in Hc.
  assert (Tr : ∀ j, j ∈ jobs0 → job_finished j = false → tracked w0 (engine_ w) j) by (intros j Hj; apply (Hc j Hj)).
  pose proof (batch_decodable w0 asks Htame Hfit (engine_ w) jobs0 b jobs duty Hw Tr Hns Hlen A) as Hdec.
  assert (Bs : beside jobs0 (engine_ w) (decode (engine_ w) (items b)).2).
  { intros q Hq. apply law_decode_others; [by rewrite Hw|done|]. intros Hin. by apply Hq, (duty_seq_jobs _ _ _ _ A). }
  unfold submit. destruct (decode (engine_ w) (items b)) as [[steps|what] e] eqn:Hd; simpl in Bs.
  2: { pose proof (law_decode_weights (engine_ w) (items b)) as Lw. rewrite Hd in Lw. simpl in *. split_and!; try done; [congruence|].
       apply Forall_forall. intros j Hj. by apply Hse. }
  destruct (batch_steps w0 asks Htame Hfit _ _ _ _ _ _ _ Hw Tr Hlen Hnp Hns A Hd) as (Hw' & Hout & _).
  assert (Ht : ∀ j, j ∈ jobs → due e steps 0 (sampling b) j).
  { intros j Hj. destruct (batch_turns w0 asks Htame Hfit _ _ _ _ _ _ _ Hw Tr Hlen Hnp Hns A Hd j Hj) as [B1 B2].
    destruct (Hse j Hj) as (H1 & H2 & H3). split_and!; [done| |intros i Hi; split; [done|by apply B2]]. intros Hn.
    split_and!; [by split_and!|intros Hf; apply B1; [done|by left]|]. intros Hf. destruct (submitted_old _ _ _ _ A j Hj) as [Hin|?]; [|congruence].
    destruct (Hc j Hin) as (_ & _ & Hvac). eapply vacant_ctx; [|apply Hout|by apply Hvac]; [congruence|].
    rewrite (duty_seqs _ _ _ _ A). intros (x & Hx & Hxin)%list_elem_of_fmap.
    assert (Hxa : x ∈ jobs0) by (eapply elem_of_submseteq; [done|apply A]). rewrite <- (NoDup_fmap_inj job_seq jobs0 j x Hns Hin Hxa Hx) in Hxin.
    apply list_elem_of_fmap in Hxin as ([x' i] & -> & Hi). destruct (duty_job _ _ _ _ A x' i Hi) as [_ [Hf' _]]. simpl in Hf. congruence. }
  assert (Hs : NoDup (sampling b)).
  { rewrite (as_sampling _ _ _ _ A). eapply submseteq_NoDup_fmap; [|exact Hnp]. etrans; [|apply A].
    apply sublist_submseteq, fmap_sublist, sublist_filter. }
  pose proof (accept_static_course (set_engine w e) jobs steps 0 (sampling b) Hw' ltac:(by rewrite (keys_ptrs _ _ Hk))
    ltac:(by rewrite (keys_seqs _ _ Hk)) Hs Ht) as L.
  destruct (accept_static _ _ _ _ _ _) as [r [w' jobs']]. destruct L as (-> & L1 & L2 & L3 & L4 & L5).
  pose proof (stays_keys _ _ _ L4) as Hk'. split_and!; try done; [by eapply carried_owed|congruence|].
  by apply (beside_trans jobs0 jobs _ e); [apply keys_seqs|..].
Qed.

Lemma decode_phase_course fuel (w : t E) jobs :
  weights (engine_ w) = w0 → Forall (carried (engine_ w)) jobs → len jobs ≤ 4294967296 →
  NoDup (job_ptr <$> jobs) → NoDup (job_seq <$> jobs) →
  (∀ j, j ∈ jobs → job_finished j = false → job_prefilling j = false) →
  match decode_phase clock fuel w jobs with
  | None => True
  | Some (r, (w', jobs')) =>
      weights (engine_ w') = w0 ∧ results_ (world_ w') = results_ (world_ w) ∧ Forall owed jobs' ∧
      key <$> jobs' = key <$> jobs ∧ beside jobs (engine_ w) (engine_ w') ∧
      (r = Ok tt → Forall (λ j, job_finished j = true) jobs' ∧ Forall (carried (engine_ w')) jobs')
  end.
Proof.
  revert w jobs. induction fuel as [|fuel IH]; intros w jobs Hw Hc Hlen Hnp Hns Hp; cbn [decode_phase]; [done|].
  destruct (build_step_assigned jobs Hp) as (duty & A). destruct (sampling (build_step jobs)) as [|p ptrs] eqn:Es.
  { split_and!; try done; [by eapply carried_owed|]. intros _. split; [|done]. apply Forall_forall. intros j Hj.
    destruct (job_finished j) eqn:Ef; [done|]. unfold build_step in Es. cbn [sampling] in Es. apply fmap_nil_inv in Es.
    assert (Hin : j ∈ filter (λ j, job_finished j = false) jobs) by (by apply list_elem_of_filter). rewrite Es in Hin. by apply not_elem_of_nil in Hin. }
  pose proof (submit_course w jobs (build_step jobs) jobs duty Hw Hc Hlen Hnp Hns A) as S.
  destruct (submit _ _ _ _) as [[[]|what] [w1 jobs1]]; destruct S as (S1 & S2 & S3 & Hk & Sb & S4); [|by split_and!].
  destruct (S4 eq_refl) as [S5 S6]. specialize (IH w1 jobs1 S1 S5).
  rewrite (keys_ptrs _ _ Hk), (keys_seqs _ _ Hk), Hk, S2 in IH. specialize (IH ltac:(apply (f_equal length) in Hk; rewrite !length_fmap in Hk; unfold len in *; lia) Hnp Hns).
  destruct (decode_phase _ _ _ _) as [[r [w' jobs']]|]; [|done]. destruct IH as (I1 & I2 & I3 & I4 & I5 & I6).
  - intros j' [m Hm]%list_elem_of_lookup Hf. destruct (Forall2_lookup_r _ _ _ _ _ S6 Hm) as (j & Hj%list_elem_of_lookup_2 & _ & M2 & M3).
    destruct (decide (job_ptr j ∈ sampling (build_step jobs))) as [Hin|Hin]; [auto|]. rewrite (M2 Hin) in *. auto.
  - split_and!; try done. by apply (beside_trans jobs jobs1 _ (engine_ w1)); [apply keys_seqs|..].
Qed.

Lemma pack_shape nb its tokens rest :
  let '(b, passed, later) := pack nb its tokens rest in
  sampling b = job_ptr <$> filter (λ j, job_finished j = false) passed ∧ (∀ j, j ∈ later → j ∈ rest) ∧
  (its = 0 → rest ≠ [] → (length later < length rest)%nat) ∧ (length later ≤ length rest)%nat.
Proof.
  revert its tokens. induction rest as [|j rest IH]; intros its tokens; cbn [pack]; [done|]. destruct (job_finished j) eqn:Ef.
  - specialize (IH its tokens). destruct (pack _ _ _ _) as [[b passed] later]. destruct IH as (I1 & I2 & I3 & I4).
    rewrite filter_cons_False by congruence. simpl. split_and!; [done|set_solver|lia|lia].
  - destruct (_ && _) eqn:Ec; [bool_hyps; split_and!; try done; lia|].
    destruct (SequenceState.prefill_item (job_state j)) as [i s] eqn:Ei. specialize (IH (its + 1) (tokens + SequenceState.prefill_remaining (job_state j))).
    destruct (pack _ _ _ _) as [[b passed] later]. destruct IH as (I1 & I2 & I3 & I4). rewrite filter_cons_True.
    + simpl. rewrite I1. split_and!; [done|set_solver|lia|lia].
    + unfold SequenceState.prefill_item, SequenceState.take_prefill_chunk in Ei. injection Ei as _ <-. done.
Qed.

(** The phase of the prompts ends with every running job generating. *)
Definition prefilled_all (jobs : list Job) : Prop := ∀ j, j ∈ jobs → job_finished j = false → job_prefilling j = false.
Definition prefilled_none (jobs : list Job) : Prop := ∀ j, j ∈ jobs → job_finished j = false → job_prefilling j = true.

(** What one packed prefill leaves: the jobs before [later] have been prefilled. *)
Lemma stays_split ptrs first passed later jobs' :
  Forall2 (stays ptrs) (first ++ passed ++ later) jobs' → NoDup (job_ptr <$> first ++ passed ++ later) →
  prefilled_all first → prefilled_none later → ptrs = job_ptr <$> filter (λ j, job_finished j = false) passed →
  let i := (length first + length passed)%nat in prefilled_all (take i jobs') ∧ prefilled_none (drop i jobs').
Proof.
  intros F Hn Hf Hl Hp i. rewrite app_assoc in F, Hn. apply Forall2_app_inv_l in F as (k1 & k2 & F1 & F2 & ->).
  assert (Hi : i = length k1) by (apply Forall2_length in F1; rewrite length_app in F1; done).
  rewrite Hi, take_app_length, drop_app_length. split.
  - intros j' [m Hm]%list_elem_of_lookup Hu. destruct (Forall2_lookup_r _ _ _ _ _ F1 Hm) as (j & Hj%list_elem_of_lookup_2 & _ & M2 & M3).
    destruct (decide (job_ptr j ∈ ptrs)) as [Hin|Hin]; [auto|]. rewrite (M2 Hin) in *. apply elem_of_app in Hj as [Hj|Hj]; [auto|].
    destruct Hin. rewrite Hp. apply list_elem_of_fmap_2, list_elem_of_filter. done.
  - intros j' [m Hm]%list_elem_of_lookup Hu. destruct (Forall2_lookup_r _ _ _ _ _ F2 Hm) as (j & Hj%list_elem_of_lookup_2 & _ & M2 & _).
    assert (Hin : job_ptr j ∉ ptrs).
    { rewrite Hp. intros (x & Hx & [_ Hxp]%list_elem_of_filter)%list_elem_of_fmap. rewrite fmap_app in Hn. apply NoDup_app in Hn as (_ & Hd & _).
      apply (Hd (job_ptr j)); [|by apply list_elem_of_fmap_2]. rewrite Hx. apply list_elem_of_fmap_2, elem_of_app. by right. }
    rewrite (M2 Hin) in *. auto.
Qed.

Lemma prefill_loop_course n nb (w : t E) first rest :
  (length rest ≤ n)%nat → weights (engine_ w) = w0 → Forall (carried (engine_ w)) (first ++ rest) → len (first ++ rest) ≤ 4294967296 →
  NoDup (job_ptr <$> first ++ rest) → NoDup (job_seq <$> first ++ rest) → prefilled_all first → prefilled_none rest →
  let '(r, (w', jobs')) := prefill_loop clock n nb w first rest in
  weights (engine_ w') = w0 ∧ results_ (world_ w') = results_ (world_ w) ∧ Forall owed jobs' ∧
  key <$> jobs' = key <$> first ++ rest ∧ beside (first ++ rest) (engine_ w) (engine_ w') ∧
  (r = Ok tt → Forall (carried (engine_ w')) jobs' ∧ prefilled_all jobs').
Proof.
  revert w first rest. induction n as [|n IH]; intros w first rest Hl Hw Hc Hlen Hnp Hns Hf Hr; destruct rest as [|j0 rest0];
    cbn [prefill_loop]; try (simpl in Hl; lia).
  1,2: rewrite app_nil_r in *; split_and!; try done; by eapply carried_owed.
  set (rest := j0 :: rest0) in *.
  pose proof (NoDup_fmap_1 _ _ Hnp) as Hn. pose proof (pack_assigned nb 0 0 rest ltac:(by apply NoDup_app in Hn as (_ & _ & ?)) Hr) as P.
  pose proof (pack_shape nb 0 0 rest) as Sh. destruct (pack nb 0 0 rest) as [[b passed] later].
  destruct P as (duty & A0 & _), Sh as (P1 & P2 & P3 & _). specialize (P3 eq_refl ltac:(done)).
  pose proof (assigned_app first rest b (passed ++ later) duty Hn A0) as A.
  pose proof (moves_keys _ _ _ (as_moves _ _ _ _ A)) as Hk.
  assert (Hlt : prefilled_none later) by (intros j Hj; apply Hr; auto). destruct (items b) as [|i0 its] eqn:Ei.
  - assert (Ed : duty = []) by (rewrite (as_items _ _ _ _ A) in Ei; by apply fmap_nil_inv in Ei).
    assert (Er : passed ++ later = rest).
    { pose proof (as_moves _ _ _ _ A0) as Mv. rewrite Ed in Mv. clear -Mv. induction Mv as [|x y l k M _ IH]; [done|].
      destruct M as [(i & Hi & _)|[_ ->]]; [by apply not_elem_of_nil in Hi|by f_equal]. }
    assert (Hpf : prefilled_all (first ++ passed)).
    { intros j [Hj|Hj]%elem_of_app Hu; [auto|]. rewrite (as_sampling _ _ _ _ A), Ed in P1. symmetry in P1. apply fmap_nil_inv in P1.
      assert (Hin : j ∈ filter (λ j, job_finished j = false) passed) by (by apply list_elem_of_filter). rewrite P1 in Hin. by apply not_elem_of_nil in Hin. }
    specialize (IH w (first ++ passed) later ltac:(lia) Hw). rewrite <- !app_assoc, Er in IH. by apply IH.
  - pose proof (submit_course w (first ++ rest) b (first ++ passed ++ later) duty Hw Hc Hlen Hnp Hns A) as S.
    destruct (submit _ _ _ _) as [[[]|what] [w1 jobs1]]; destruct S as (S1 & S2 & S3 & Hk1 & Sb & S4); [|by split_and!].
    destruct (S4 eq_refl) as [S5 S6].
    destruct (stays_split _ _ _ _ _ S6 ltac:(by rewrite (keys_ptrs _ _ Hk)) Hf Hlt P1) as [T1 T2]. set (i := (length first + length passed)%nat) in *.
    assert (Hlen1 : (length (drop i jobs1) ≤ n)%nat) by (rewrite length_drop; apply Forall2_length in S6; rewrite !length_app in S6; unfold i; lia).
    assert (Hlen2 : len jobs1 ≤ 4294967296) by (apply (f_equal length) in Hk1; rewrite !length_fmap in Hk1; unfold len in *; lia).
    specialize (IH w1 (take i jobs1) (drop i jobs1) Hlen1 S1). rewrite take_drop, (keys_ptrs _ _ Hk1), (keys_seqs _ _ Hk1), Hk1, S2 in IH.
    destruct (prefill_loop _ _ _ _ _ _) as [r [w' jobs']]. destruct IH as (I1 & I2 & I3 & I4 & I5 & I6); try done. split_and!; try done.
    by apply (beside_trans (first ++ rest) jobs1 _ (engine_ w1)); [apply keys_seqs|..].
Qed.

(** ** The ends *)

Lemma finish_job_owed (w : t E) job :
  job_finished job = true → owed job →
  engine_ (finish_job w job).1 = engine_ w ∧ results_ (world_ (finish_job w job).1) = results_ (world_ w) ∧
  owed (finish_job w job).2 ∧ job_finished (finish_job w job).2 = true ∧ job_promise (finish_job w job).2 = job_promise job ∧
  job_seq (finish_job w job).2 = job_seq job.
Proof.
  intros Hf (Ha & Hs & H0). pose proof (settled_finish w0 job (deref w (job_sink job)) Hf Hs) as Hs'.
  destruct (SequenceState.finish_frame (job_state job) (deref w (job_sink job))) as ((R1 & _) & _ & _ & _ & R5).
  unfold finish_job. destruct (SequenceState.finish _ _) as [s k]. unfold job_seq, job_finished in *. simpl in *.
  split_and!; try done; [split_and!; [done|done|unfold job_seq; simpl; by rewrite R1]|auto].
Qed.

Lemma abort_all_course what (w : t E) jobs :
  weights (engine_ w) = w0 → Forall owed jobs →
  let '(w', jobs') := abort_all what w jobs in
  weights (engine_ w') = w0 ∧ results_ (world_ w') = results_ (world_ w) ∧
  Forall owed jobs' ∧ Forall (λ j, job_finished j = true) jobs' ∧
  ∀ q, (0 ≤ q)%Z → q ∈ job_seq <$> jobs ∨ vacant (engine_ w) q → vacant (engine_ w') q.
Proof.
  revert w. induction jobs as [|job jobs IH]; intros w Hw Ho; simpl; [split_and!; try done; by intros q _ [?%not_elem_of_nil|?]|]. apply Forall_cons in Ho as [Hj Ho].
  set (job1 := if job_finished job then job else _).
  assert (H1 : job_finished job1 = true ∧ owed job1).
  { unfold job1. destruct (job_finished job) eqn:Ef; [done|]. split; [done|]. destruct Hj as (Ha & _ & H0). split_and!; [done|by intros _ [?|[?|?]]|done]. }
  destruct H1 as [H1 H2]. destruct (finish_job_owed w job1 H1 H2) as (F1 & F2 & F3 & F4 & _ & F5).
  assert (Hq : job_seq job1 = job_seq job) by (unfold job1; by destruct (job_finished job)). rewrite Hq in F5. destruct Hj as (_ & _ & H0).
  destruct (finish_job w job1) as [w1 job2]. simpl in *. set (w2 := set_engine _ _).
  assert (Hw2 : weights (engine_ w2) = w0) by (simpl; rewrite law_release_weights; congruence).
  specialize (IH w2 Hw2 Ho). destruct (abort_all what w2 jobs) as [w3 jobs']. destruct IH as (I1 & I2 & I3 & I4 & I5).
  split_and!; [done|rewrite I2; exact F2|by constructor|by constructor|]. intros q Hq0 Hor. apply I5; [done|].
  destruct (decide (q = job_seq job)) as [->|Hne]; [right; simpl; rewrite F5; by apply law_released|].
  destruct Hor as [[?|?]%elem_of_cons|Hv]; [done|by left|right]. destruct (law_release (engine_ w1) (job_seq job2)) as [L1 L2]; [by rewrite F5|].
  rewrite F1 in L1, L2. simpl. rewrite F1. eapply vacant_ctx; [done|apply L2; by rewrite F5|done].
Qed.

Lemma close_job_course (w : t E) job :
  weights (engine_ w) = w0 → Forall (told w0 asks) (results_ (world_ w)) → job_finished job = true → owed job →
  engine_ (close_job clock w job) = engine_ w ∧ Forall (told w0 asks) (results_ (world_ (close_job clock w job))).
Proof.
  intros Hw Ht Hf Ho. unfold close_job. destruct (finish_job_owed w job Hf Ho) as (F1 & F2 & (F3 & F3' & _) & F4 & _).
  destruct (finish_job w job) as [w1 job1]. simpl in F1, F2, F3, F3', F4. unfold release_blocks, BlockTable.release.
  set (job2 := set_table job1 _). set (w2 := add_stat (E := E) _ _ _).
  destruct (deliver_results clock w2 job2) as (r & D1 & D2 & _ & D4 & D5 & D6). split; [rewrite D2; exact F1|].
  rewrite D1. apply Forall_app. split; [simpl; by rewrite F2|]. constructor; [|done]. unfold told. cbn [fst snd]. rewrite D4, D5, D6.
  intros Hc. exists (req_spec (job_request job1)). split; [exact F3|]. destruct (F3' F4 Hc) as (a & Han & _ & Hx). rewrite <- Hx in Han. exact Han.
Qed.

Lemma close_all_course (w : t E) jobs :
  weights (engine_ w) = w0 → Forall (told w0 asks) (results_ (world_ w)) → Forall (λ j, job_finished j = true) jobs → Forall owed jobs →
  engine_ (fold_left (close_job clock) jobs w) = engine_ w ∧
  Forall (told w0 asks) (results_ (world_ (fold_left (close_job clock) jobs w))).
Proof.
  revert w. induction jobs as [|job jobs IH]; intros w Hw Ht Hf Ho; [done|]. simpl.
  apply Forall_cons in Hf as [Hf1 Hf], Ho as [Ho1 Ho]. destruct (close_job_course w job Hw Ht Hf1 Ho1) as [C1 C2]. rewrite <- C1. apply IH; try done. by rewrite C1.
Qed.

(** ** Forming the batch *)

Lemma admit_static_course (w : t E) job :
  carried (engine_ w) job → (job_finished job = false → job_prefilling job = true) → vacant (engine_ w) (job_seq job) →
  let '(w', job') := admit_static clock w job in
  engine_ w' = engine_ w ∧ results_ (world_ w') = results_ (world_ w) ∧ job_seq job' = job_seq job ∧
  carried (engine_ w') job' ∧ (job_finished job' = false → job_prefilling job' = true).
Proof.
  intros ((Ha & Hs & H0) & Ht & Hv0) Hp Hv. unfold admit_static. destruct (job_finished job) eqn:Ef.
  - simpl. split_and!; try done; [split_and!; [done| |auto]|]; intros Hf; change (job_finished job = false) in Hf; congruence.
  - destruct (BlockTable.ensure_capacity _ _ _) as [[[] a] tb]; simpl; (split_and!; try done).
    + split_and!; [done| |intros Hf; change (job_finished job = true) in Hf; congruence].
      intros _. apply (tracked_table_running w0 (engine_ w) job tb); auto.
    + auto.
    + split_and!; [split_and!; [done|by intros _ [?|[?|?]]|done]|done|]. intros _. exact Hv.
Qed.

Lemma make_jobs_course (w : t E) i batch :
  weights (engine_ w) = w0 → Forall (asked asks) batch → i + len batch ≤ 2147483648 →
  (∀ q, (Z.of_N i ≤ q)%Z → vacant (engine_ w) q) →
  match make_jobs clock w i batch with
  | (Throw _, w') => results_ (world_ w') = results_ (world_ w)
  | (Ok jobs, w') =>
      weights (engine_ w') = w0 ∧ results_ (world_ w') = results_ (world_ w) ∧
      Forall (carried (engine_ w')) jobs ∧ prefilled_none jobs ∧ length jobs = length batch ∧
      NoDup (job_seq <$> jobs) ∧ Forall (λ j, (Z.of_N i ≤ job_seq j)%Z) jobs ∧ beside jobs (engine_ w) (engine_ w')
  end.
Proof.
  revert w i. induction batch as [|req batch IH]; intros w i Hw Ha Hi Hv; cbn [make_jobs].
  { split_and!; try done; [|constructor]. intros j Hj. by apply not_elem_of_nil in Hj. }
  rewrite len_cons in Hi. apply Forall_cons in Ha as [Hr Ha]. assert (Hi31 : to_i32 i = Z.of_N i) by (apply to_i32_small; lia).
  pose proof (make_job_course w0 asks Htame w req (to_i32 i) Hw ltac:(apply Hv; lia) Hr) as Mc.
  pose proof (make_job_spec w req (to_i32 i)) as Ms. destruct (make_job w req (to_i32 i)) as [[job|what] w1]; [|done].
  destruct Mc as (M1 & M2 & M3 & M4 & M5 & M6), Ms as (_ & Sr & Sq & _). rewrite Hi31 in M1, M6, Sq.
  pose proof (admit_static_course w1 job) as A. destruct (admit_static clock w1 job) as [w2 job1].
  destruct A as (A1 & A2 & A3 & A4 & A5); [|done|by rewrite Sq|].
  { split_and!; [split_and!; [by rewrite Sr|done|lia]|done|]. intros _. by rewrite Sq. }
  destruct M1 as [M1 M7]. specialize (IH w2 (i + 1) ltac:(congruence) Ha ltac:(lia)).
  destruct (make_jobs clock w2 (i + 1) batch) as [[jobs|what] w3].
  2: { rewrite IH; [congruence|]. intros q Hq. rewrite A1. eapply vacant_ctx; [done|apply M7; lia|apply Hv; lia]. }
  destruct IH as (I1 & I2 & I3 & I4 & I5 & I6 & I7 & I8).
  { intros q Hq. rewrite A1. eapply vacant_ctx; [done|apply M7; lia|apply Hv; lia]. }
  assert (Hout : ∀ q, (q < Z.of_N (i + 1))%Z → q ∉ job_seq <$> jobs).
  { intros q Hq (j & -> & Hin)%list_elem_of_fmap. rewrite Forall_forall in I7. specialize (I7 j Hin). lia. }
  split_and!; [done|congruence|..|simpl; by rewrite I5| | |].
  - constructor; [|done]. eapply carried_ctx; [|apply I8, Hout; lia|exact A4]. congruence.
  - intros j [->|Hj]%elem_of_cons; [done|by apply I4].
  - rewrite fmap_cons. apply NoDup_cons. split; [|done]. apply Hout. lia.
  - constructor; [lia|]. eapply Forall_impl; [exact I7|]. simpl. lia.
  - intros q Hq. rewrite fmap_cons, not_elem_of_cons in Hq. destruct Hq as [Hq1 Hq2]. rewrite I8, A1 by done. apply M7. congruence.
Qed.

(** ** The batch *)

Lemma run_batch_course fuel (w : t E) batch refs :
  weights (engine_ w) = w0 → Forall (told w0 asks) (results_ (world_ w)) → Forall (asked asks) batch →
  len batch ≤ 2147483648 → BlockAllocator.accounts (blocks_ w) refs → (∀ q, (0 ≤ q)%Z → vacant (engine_ w) q) →
  let '(o, w') := run_batch clock fuel w batch in
  Forall (told w0 asks) (results_ (world_ w')) ∧
  (o = Returned → weights (engine_ w') = w0 ∧ ∀ q, (0 ≤ q)%Z → vacant (engine_ w') q).
Proof.
  intros Hw Ht Ha Hl Acc Hv. unfold run_batch. destruct batch as [|r0 batch0]; [done|]. set (batch := r0 :: batch0) in *.
  pose proof (make_jobs_course w 0 batch Hw Ha ltac:(lia) Hv) as M. pose proof (make_jobs_spec clock w 0 batch refs) as Ms.
  destruct (make_jobs clock w 0 batch) as [[jobs|what] w1]; [|split; [by rewrite M|done]].
  destruct M as (M1 & M2 & M3 & M4 & M0 & M5 & _ & Mb), Ms as (_ & Mp & _); [|done|].
  { eapply Forall_impl; [exact Ha|]. intros r Hr. destruct (Htame _ _ Hr). lia. }
  assert (Hlj : len jobs ≤ 4294967296) by (unfold len in *; lia).
  set (nb := n_batch _). pose proof (prefill_loop_course (length jobs) nb w1 [] jobs ltac:(done) M1 M3 Hlj Mp M5) as P.
  assert (G : match match prefill_loop clock (length jobs) nb w1 [] jobs with
                    | (Throw what, r) => Some (Throw what, r)
                    | (Ok _, (w2, jobs2)) => decode_phase clock fuel w2 jobs2
                    end with
              | None => True
              | Some (r, (w2, jobs2)) => weights (engine_ w2) = w0 ∧ results_ (world_ w2) = results_ (world_ w) ∧
                  Forall owed jobs2 ∧ key <$> jobs2 = key <$> jobs ∧ beside jobs (engine_ w1) (engine_ w2) ∧
                  (r = Ok tt → Forall (λ j, job_finished j = true) jobs2 ∧ Forall (carried (engine_ w2)) jobs2)
              end).
  { destruct (prefill_loop _ _ _ _ _ _) as [[[]|what] [w2 jobs2]]; destruct P as (P1 & P2 & P3 & Pk & Pb & P4);
      try (intros j Hj; by apply not_elem_of_nil in Hj); try done; rewrite M2 in P2; [|by split_and!].
    destruct (P4 eq_refl) as (P5 & P6). simpl in Pk, Pb.
    assert (Hlj2 : len jobs2 ≤ 4294967296) by (apply (f_equal length) in Pk; rewrite !length_fmap in Pk; unfold len in *; lia).
    pose proof (decode_phase_course fuel w2 jobs2 P1 P5 Hlj2 ltac:(by rewrite (keys_ptrs _ _ Pk)) ltac:(by rewrite (keys_seqs _ _ Pk)) P6) as D.
    destruct (decode_phase _ _ _ _) as [[r [w3 jobs3]]|]; [|done]. rewrite P2, Pk in D. destruct D as (D1 & D2 & D3 & D4 & D5 & D6).
    split_and!; try done. by apply (beside_trans jobs jobs2 _ (engine_ w2)); [apply keys_seqs|..]. }
  destruct (match prefill_loop _ _ _ _ _ _ with (Ok _, _) => _ | (Throw _, _) => _ end) as [[r [w2 jobs2]]|]; [|by rewrite M2].
  destruct G as (G1 & G2 & G3 & Gk & Gb & G4). pose proof (keys_seqs _ _ Gk) as Gs.
  assert (Hvo : ∀ q, (0 ≤ q)%Z → q ∉ job_seq <$> jobs2 → vacant (engine_ w2) q).
  { intros q Hq Hn. rewrite Gs in Hn. eapply vacant_ctx; [|rewrite Gb, Mb by done; done|by apply Hv]. congruence. }
  assert (A : let '(w3, jobs3) := match r with Ok _ => (w2, jobs2) | Throw what => abort_all what w2 jobs2 end in
    weights (engine_ w3) = w0 ∧ results_ (world_ w3) = results_ (world_ w2) ∧ Forall owed jobs3 ∧ Forall (λ j, job_finished j = true) jobs3 ∧
    ∀ q, (0 ≤ q)%Z → vacant (engine_ w3) q).
  { destruct r as [[]|what].
    - destruct (G4 eq_refl) as [G5 G6]. split_and!; try done. intros q Hq. destruct (decide (q ∈ job_seq <$> jobs2)) as [Hin|]; [|auto].
      apply list_elem_of_fmap in Hin as (j & -> & Hj). rewrite Forall_forall in G5, G6. destruct (G6 j Hj) as (_ & _ & Hvj). auto.
    - pose proof (abort_all_course what w2 jobs2 G1 G3) as Ab. destruct (abort_all what w2 jobs2) as [w3 jobs3].
      destruct Ab as (A1 & A2 & A3 & A4 & A5). split_and!; try done. intros q Hq. apply A5; [done|].
      destruct (decide (q ∈ job_seq <$> jobs2)); auto. }
  destruct (match r with Ok _ => (w2, jobs2) | Throw what => abort_all what w2 jobs2 end) as [w3 jobs3]. destruct A as (A1 & A2 & A3 & A4 & A5).
  destruct (close_all_course w3 jobs3 A1 ltac:(by rewrite A2, G2) A4 A3) as [C1 C2]. split; [done|]. intros _. simpl. by rewrite C1.
Qed.

(** ** The run *)

Lemma sweep_queue_engine n (w : t E) batch :
  engine_ (sweep_queue n w batch).2 = engine_ w ∧ results_ (world_ (sweep_queue n w batch).2) = results_ (world_ w) ∧
  len (sweep_queue n w batch).1 ≤ len batch + N.of_nat n.
Proof.
  revert w batch. induction n as [|n IH]; intros w batch; cbn [sweep_queue]; [split_and!; [done|done|simpl; lia]|].
  assert (Tp : engine_ (try_pop w).2 = engine_ w) by (unfold try_pop; destruct (sync_frame w) as [Es _]; by destruct (RequestQueue.try_pop _)).
  pose proof (try_pop_same w) as (_ & _ & Tr). destruct (try_pop w) as [[more|] w1]; cbn [fst snd] in Tp, Tr |- *; [|split_and!; [done|done|lia]].
  destruct (IH w1 (push_back batch more)) as (I1 & I2 & I3). split_and!; [congruence|congruence|].
  unfold push_back in *. rewrite len_app in I3. change (len [more]) with 1 in I3. lia.
Qed.

Lemma next_batch_engine (w : t E) :
  engine_ (next_batch w).2 = engine_ w ∧ results_ (world_ (next_batch w).2) = results_ (world_ w) ∧
  ∀ batch, (next_batch w).1 = Some batch → 0 < max_batch_size (config_ w) → len batch ≤ max_batch_size (config_ w).
Proof.
  assert (Pw : ∀ m w1, engine_ (pop_wait m w1 : _ * t E).2 = engine_ w1).
  { induction m as [|m IH]; intros w1; cbn [pop_wait]; destruct (sync_frame w1) as [Es _];
      destruct (RequestQueue.pop _) as [[]|]; simpl; try done. by rewrite IH. }
  specialize (Pw (length (script_ (world_ w))) w). pose proof (pop_wait_same (length (script_ (world_ w))) w) as (_ & _ & Pr).
  fold (pop w) in Pw, Pr. unfold next_batch. pose proof (pop_popped w) as Pc.
  destruct (pop w) as [[[first|]|] w1]; simpl in Pw, Pr.
  - destruct Pc as [(Pc & _) _]. set (n := N.to_nat _). pose proof (sweep_queue_engine n w1 [first]) as (S1 & S2 & S3).
    destruct (sweep_queue n w1 [first]) as [batch w2]. simpl in S1, S2, S3 |- *. split_and!; [congruence|congruence|].
    intros b [= <-] Hm. unfold n in S3. rewrite Pc in S3. unfold len in *. simpl in S3. lia.
  - split_and!; [done|done|]. intros b [= <-] _. rewrite len_nil. lia.
  - by split_and!.
Qed.

Lemma run_static_course fuel steps m (w : t E) refs :
  weights (engine_ w) = w0 → Forall (told w0 asks) (results_ (world_ w)) → Forall (asked asks) (incoming w) →
  Forall (λ r, max_tokens (req_spec r) ≤ m) (incoming w) → m < 4294967296 → (N.to_nat m + 2 ≤ steps)%nat →
  0 < max_batch_size (config_ w) ≤ 2147483648 → BlockAllocator.accounts (blocks_ w) refs → (∀ q, (0 ≤ q)%Z → vacant (engine_ w) q) →
  Forall (told w0 asks) (results_ (world_ (run_static clock fuel steps w).2)).
Proof.
  intros Hw Ht Ha Hm Hm32 Hs Hb Acc Hv. revert w Hw Ht Ha Hm Hb Acc Hv. induction fuel as [|fuel IH]; intros w Hw Ht Ha Hm Hb Acc Hv; cbn [run_static]; [done|].
  destruct (next_batch_engine w) as (N1 & N2 & N3). pose proof (next_batch_spec w) as Ns.
  destruct (next_batch w) as [[batch|] w1]; simpl in N1, N2, N3; [|simpl; by rewrite N2].
  destruct batch as [|r0 batch0]; [simpl; by rewrite N2|]. set (batch := r0 :: batch0) in *. specialize (N3 batch eq_refl ltac:(lia)).
  destruct Ns as (C1 & C2 & [C3 _] & _).
  assert (Ha1 : Forall (asked asks) (batch ++ incoming w1)) by (by eapply Forall_sublist).
  assert (Hm1 : Forall (λ r, max_tokens (req_spec r) ≤ m) (batch ++ incoming w1)) by (by eapply Forall_sublist).
  apply Forall_app in Ha1 as [Ha1 Ha2], Hm1 as [Hm1 Hm2]. rewrite <- C2 in Acc.
  pose proof (run_batch_course steps w1 batch refs ltac:(congruence) ltac:(by rewrite N2) Ha1 ltac:(lia) Acc ltac:(by rewrite N1)) as R.
  pose proof (run_batch_settles clock steps m w1 batch refs Hm1 Hm32 Hs Acc) as Rs.
  destruct (run_batch clock steps w1 batch) as [[] w2]; destruct R as [R1 R2]; try done.
  destruct Rs as (_ & S1 & S2 & [S3 _] & _). simpl in S3.
  destruct (R2 eq_refl). apply IH; [done|done|by eapply Forall_sublist|by eapply Forall_sublist|by rewrite S2, C1|done|done].
Qed.

End Static.
