(* ===== verification/CalmRun.v ===== *)
(** When nothing goes wrong every answer is the model's.

    [TransparentRun.v] is about the answers of generations that ended by themselves.
    Here: which generations do.  When nobody cancels, the engine decodes the sequences it
    knows, the context is long enough and the pool has room for a full batch and the
    donors, no sequence ends otherwise: none is cancelled, failed, rejected or found too
    long, and every answer is clean. *)
From Stdlib Require Import Permutation Lia.
From stdpp Require Import base list gmap strings.
From S2P Require Import Prelude Types Blocks Tables Prefix Timing Engine Sinks Sequence Mock Generator Queue Scheduler Continuous Static Demo Conservation Batching Pressure StaticRun KvAccounting ContinuousRun Alone Transparency Capacity TransparentRun StaticTransparency.

Local Open Scope N_scope.

Import Scheduler Continuous.

(** ** One sequence *)

(** The job has not ended, or by itself. *)
Definition natural (j : Job) : Prop := job_finished j = true → clean (SequenceState.reason_ (job_state j)).

Lemma sink_cancelled (k : Sink) m : cancelled k m = true → ∃ f, load m f = true.
Proof. destruct k as [k|k]; intros Hc; [exists (CollectingSink.cancel_ k)|exists (StreamingSink.cancel_ k)]; exact Hc. Qed.

Lemma accept_natural {E} `{IModelEngine E} (e : E) m s (k : Sink) st :
  (∀ f, load m f = false) → (SequenceState.finished_ s = true → clean (SequenceState.reason_ s)) →
  let s' := (SequenceState.accept e m s k st).2.1.2 in
  SequenceState.finished_ s' = true → clean (SequenceState.reason_ s').
Proof.
  intros Hm Hs. unfold SequenceState.accept, clean in *. destruct (SequenceState.finished_ s) eqn:Ef; [auto|].
  destruct (step_is_eog st); [simpl; auto|]. destruct (_ <=? _); [simpl; auto|]. destruct (piece e _) as [p e'].
  destruct (SequenceState.earliest_stop _ _) as [q|].
  - destruct (SequenceState.flush_upto _ _ _) as [s2 k']. simpl. auto.
  - set (s1 := SequenceState.set_usage _ _). set (n := SequenceState.safe_prefix s1).
    assert (Hf : SequenceState.finished_ (SequenceState.flush_upto s1 k n).1 = false)
      by (unfold SequenceState.flush_upto; destruct (_ <? _); exact Ef).
    destruct (SequenceState.flush_upto s1 k n) as [s2 k']. simpl in Hf. destruct (cancelled k' m) eqn:Ec.
    + destruct (sink_cancelled _ _ Ec) as [f Hf']. by rewrite Hm in Hf'.
    + simpl. congruence.
Qed.

(** Refusing a token ends the sequence. *)
Lemma accept_stops {E} `{IModelEngine E} (e : E) m s (k : Sink) st :
  let '(more, (_, s', _)) := SequenceState.accept e m s k st in more = false → SequenceState.finished_ s' = true.
Proof.
  unfold SequenceState.accept. destruct (SequenceState.finished_ s) eqn:Ef; [done|].
  destruct (step_is_eog st); [done|]. destruct (_ <=? _); [done|]. destruct (piece e _) as [p e'].
  destruct (SequenceState.earliest_stop _ _) as [q|]; [by destruct (SequenceState.flush_upto _ _ _)|].
  destruct (SequenceState.flush_upto _ _ _) as [s2 k']. destruct (cancelled k' m); [by destruct (SequenceState.flush_upto _ _ _)|done].
Qed.

(** The engine decodes the batch the loop is about to build. *)
Definition decodes {E : Type} `{IModelEngine E} (nb : N) (l : Loop E) : Prop :=
  let its := items (build_batch nb (prefill_chunk (config_ (sched l))) (active l)).1 in
  its ≠ [] → ∃ steps e, decode (engine_ (sched l)) its = (Ok steps, e).

Section Run.
Context {K T bs L donors : N} {brief : RequestSpec → Prop} `{!Limits K bs L}.
Context {E W C : Type} `{IModelEngine E} `{!SeqModel E W C} `{!SeqLaws E W C}.
Variable clock : nat → TimePoint.
Variable cfg : SchedulerConfig.
Variable w0 : W.
Variable asks : list (PromiseId * RequestSpec).

Notation first := (Z.of_N (max_batch_size cfg)).
Notation kvs := (@kvs K T bs L donors brief E cfg).
Notation M := (max_batch_size cfg).
Notation tidy := (tidy (K := K) (T := T) (bs := bs) (L := L) (donors := donors) (brief := brief) cfg).

Hypothesis Hbrief : ∀ spec, brief spec → ∀ e : E, len (tokenize e (Types.prompt spec) true).1 + max_tokens spec ≤ K.
Hypothesis Hshare : prefix_caching cfg = true → 2 * quota K bs ≤ L.
Hypothesis Hcbs : block_size cfg = bs.
Hypothesis Hwidth : M * L + quota K bs * donors + quota K bs < 4294967296.
Hypothesis HM : 0 < M.
Hypothesis Hcalm : donors ≠ 0 → ¬ broke (E := E).
Hypothesis Hample : M * L + quota K bs * donors ≤ T.
Hypothesis Hctx : n_ctx_seq (caps_of w0) = 0 ∨ K ≤ n_ctx_seq (caps_of w0).
Hypothesis Htame : ∀ p spec, (p, spec) ∈ asks → tame (E := E) w0 spec.
Hypothesis Hfit : fit w0.
Hypothesis Hids : M ≤ 2147483648.
Hypothesis Hsharable : prefix_caching cfg = true → shares w0.

Lemma undisturbed_flags (w : t E) : ¬ disturbed w → ∀ f, load (flags_ (world_ w)) f = false.
Proof. intros Hd f. destruct (load _ f) eqn:Ef; [|done]. destruct Hd. left. by exists f. Qed.

Lemma accept_job_natural (w : t E) j st :
  ¬ disturbed w → natural j → natural (accept_job w j st).2.2 ∧ ((accept_job w j st).1 = false → job_finished (accept_job w j st).2.2 = true).
Proof.
  intros Hd Hj. unfold accept_job. assert (Hs : ¬ disturbed (sync w)) by (intros ?; by apply Hd, (s_calm _ _ (sync_steady w))).
  pose proof (accept_natural (engine_ (sync w)) _ (job_state j) (deref (sync w) (job_sink j)) st (undisturbed_flags _ Hs) Hj) as A.
  pose proof (accept_stops (engine_ (sync w)) (flags_ (world_ (sync w))) (job_state j) (deref (sync w) (job_sink j)) st) as B.
  destruct (SequenceState.accept _ _ _ _ _) as [more [[e s] k]]. split; [exact A|exact B].
Qed.

Lemma finish_job_natural (w : t E) j : job_finished j = true → natural j → natural (finish_job w j).2.
Proof.
  intros Hf Hj. unfold finish_job. pose proof (finish_reason (job_state j) (deref w (job_sink j))) as Fr.
  destruct (SequenceState.finish _ _) as [s k]. intros _. simpl in *. rewrite Fr. by apply Hj.
Qed.

Lemma accept_one_natural (w : t E) j st : ¬ disturbed w → natural j → natural (accept_one w j st).2.2.
Proof.
  intros Hd Hj. unfold accept_one. destruct (accept_job_natural w j st Hd Hj) as [A B].
  destruct (accept_job w j st) as [[|] [w1 j1]]; simpl in A, B.
  - by destruct (BlockTable.ensure_capacity _ _ _) as [[[] a] tb].
  - pose proof (finish_job_natural w1 j1 (B eq_refl) A). by destruct (finish_job w1 j1).
Qed.

Lemma accept_loop_natural (w : t E) act steps k ptrs short :
  ¬ disturbed w → Forall natural act →
  let '(_, (_, act', _)) := accept_loop clock w act steps k ptrs short in Forall natural act'.
Proof.
  revert w act k short. induction ptrs as [|p ptrs IH]; intros w act k short Hd Ha; cbn [accept_loop]; [done|].
  destruct (find_job p act) as [job|] eqn:Ef; [|by apply IH]. destruct (find_job_Some _ _ _ Ef) as [Hj _].
  assert (Hput : ∀ j, natural j → Forall natural (put_job j act)).
  { intros j Hn. rewrite Forall_forall in *. by intros x [->|[Hx _]]%put_job_elem; auto. }
  rewrite Forall_forall in Ha. specialize (Ha job Hj). pose proof (quiet_stamp_first clock w job) as Q.
  assert (N1 : natural (stamp_first clock w job).2) by (unfold stamp_first; by destruct (RequestTiming.first_token _)).
  destruct (stamp_first clock w job) as [w1 job1]. simpl in Q, N1.
  assert (Hd1 : ¬ disturbed w1) by (intros ?; by apply Hd, (s_calm _ _ (quiet_steady _ _ Q))).
  destruct (steps !! k) as [st|]; [|by apply Hput]. pose proof (accept_one_natural w1 job1 st Hd1 N1) as A.
  pose proof (accept_one_spec w1 job1 st) as [S2 _]. destruct (accept_one w1 job1 st) as [starved [w2 job2]]. simpl in A, S2.
  apply IH; [intros ?; by apply Hd1, (s_calm _ _ S2)|by apply Hput].
Qed.

Lemma decode_accept_natural nb (w : t E) act slots pend :
  decodes nb (mkLoop w act slots pend) → ¬ disturbed w → Forall natural act → honest w0 asks w act → sound w0 asks w act → NoDup (job_ptr <$> act) →
  NoDup (job_seq <$> act) → detached (prefix_cache_ w) act → len act ≤ 4294967296 →
  Forall natural (decode_accept clock nb w act).1.2.
Proof.
  intros Hdec Hd Hn Hh Hs Hnp Hns Hdt Hlen. unfold decodes in Hdec. simpl in Hdec. unfold decode_accept. set (chunk := prefill_chunk (config_ w)) in *.
  pose proof (build_batch_assigned nb chunk act Hnp) as B. pose proof (build_batch_keys nb chunk act) as Kb.
  destruct (build_batch nb chunk act) as [b act1]. destruct B as (duty & A). simpl in Kb.
  assert (Hn1 : Forall natural act1).
  { rewrite Forall_forall in *. intros j Hj. destruct (submitted_old _ _ _ _ A j Hj) as [?|Hf]; [auto|]. intros Hf'. congruence. }
  destruct (items b) as [|i0 its] eqn:Ei; [done|]. assert (Hne : i0 :: its ≠ []) by done. rewrite <- Ei in *.
  destruct (decode (engine_ w) (items b)) as [[steps|what] e] eqn:Ed.
  - pose proof (accept_loop_natural (set_engine w e) act1 steps 0 (sampling b) [] Hd Hn1) as Al.
    pose proof (accepted_course clock w0 asks Htame Hfit w act b act1 duty steps e Hh Hs Hlen Hnp Hns Hdt A ltac:(by rewrite (keys_ptrs _ _ Kb)) Ed) as Ac.
    destruct (accept_loop _ _ _ _ _ _ _) as [r [[w2 act2] short]]. destruct Ac as (-> & _). exact Al.
  - destruct (Hdec Hne) as (steps & e' & Hd'). pose proof (eq_trans (eq_sym Ed) Hd'). done.
Qed.

(** ** Retiring *)

(** Every answer so far was a natural end. *)
Definition pleased (w : t E) : Prop := Forall (λ x, clean (res_reason x.2)) (results_ (world_ w)).

Lemma retire_pleased (w : t E) job : job_finished job = true → natural job → pleased w → pleased (retire clock w job).
Proof.
  intros Hf Hn Hp. unfold retire. pose proof (quiet_finish_job w job) as Q1. pose proof (finish_job_natural w job Hf Hn) as Hn1.
  assert (Hf1 : job_finished (finish_job w job).2 = true).
  { unfold finish_job. destruct (SequenceState.finish_frame (job_state job) (deref w (job_sink job))) as (_ & _ & _ & _ & R5).
    destruct (SequenceState.finish _ _). unfold job_finished in *. simpl in *. auto. }
  destruct (finish_job w job) as [w1 job1]. simpl in Q1, Hn1, Hf1. set (w2 := set_cache w1 _).
  pose proof (quiet_retain_prefix w2 job1) as Q3. set (w3 := retain_prefix w2 job1) in *.
  unfold release_blocks, BlockTable.release. set (job2 := set_table job1 _). set (w5 := add_stat (E := E) _ _ _).
  destruct (deliver_results clock w5 job2) as (r & D1 & _ & _ & _ & D5 & _).
  assert (Hr5 : results_ (world_ w5) = results_ (world_ w)).
  { change (results_ (world_ w3) = results_ (world_ w)). rewrite (q_results _ _ Q3). apply Q1. }
  unfold pleased. rewrite D1, Hr5. apply Forall_app. split; [done|]. constructor; [|done]. simpl. rewrite D5. by apply Hn1.
Qed.

Lemma sweep_pleased (w : t E) slots act :
  Forall natural act → pleased w →
  let '(w', _, act') := sweep clock w slots act in pleased w' ∧ Forall natural act'.
Proof.
  revert w slots. induction act as [|job act IH]; intros w slots Hn Hp; cbn [sweep]; [done|]. apply Forall_cons in Hn as [Hj Hn].
  destruct (job_finished job) eqn:Ef; [by apply IH; [|apply retire_pleased]|]. specialize (IH w slots Hn Hp).
  destruct (sweep _ _ _ _) as [[w' slots'] act']. destruct IH. split; [done|by constructor].
Qed.

(** ** The loop *)

Record calm (l : Loop E) : Prop := mk_calm {
  c_natural : Forall natural (active l);
  c_pleased : pleased (sched l);
  c_quiet : ¬ disturbed (sched l) }.

Lemma sweep_all_calm (l : Loop E) :
  kvs (sched l) (active l) → inv cfg l → calm l → calm (sweep_all clock l).
Proof.
  intros V I [N1 N2 N3]. destruct (sweep_all_kv clock cfg Hbrief Hshare Hcbs Hwidth HM l V I) as (_ & Ee & _).
  unfold sweep_all in *. pose proof (sweep_pleased (sched l) (free_slots l) (active l) N1 N2) as S.
  destruct (sweep _ _ _ _) as [[w' slots'] act']. destruct S. split; [done|done|]. simpl in *. intros ?. by eapply N3, environ_disturbed.
Qed.

Lemma advance_calm nb (l : Loop E) :
  decodes nb l → tidy l → faithful (donors := donors) cfg w0 asks l → calm l → calm (advance clock nb l).
Proof.
  intros Hdec [I V _ _] [Fh Fs _ Fp] [N1 N2 N3]. unfold advance. pose proof (inv_load _ _ I) as Hload.
  pose proof (decode_accept_natural nb (sched l) (active l) (free_slots l) (pending l) ltac:(by destruct l) N3 N1 Fh Fs (inv_ptrs _ _ I) (active_slots _ _ I) (kvs_detached cfg Hshare Hcbs Hwidth HM Hids _ _ V) ltac:(unfold len; lia)) as D.
  pose proof (decode_accept_kv clock cfg Hshare Hcbs Hwidth HM nb (sched l) (active l) V (inv_ptrs _ _ I)) as Dk.
  pose proof (decode_accept_spec clock nb (sched l) (active l) (inv_ptrs _ _ I)) as S.
  destruct (decode_accept _ _ _ _) as [[w act] short]. destruct Dk as (V1 & Hsh & _), S as [S1 S2]. simpl in D.
  rewrite (Hsh ltac:(unfold len; lia) Hample). cbn [resolve fold_left].
  pose proof (inv_in_place _ _ _ _ I S1 S2) as I1. set (l0 := mkLoop w act (free_slots l) (pending l)) in *.
  assert (C0 : calm l0) by (split; [done|unfold pleased; simpl; by rewrite (s_results _ _ S1)|intros ?; by apply N3, (s_calm _ _ S1)]).
  destruct (sweep_all_kv clock cfg Hbrief Hshare Hcbs Hwidth HM l0 V1 I1) as (V2 & _). destruct (sweep_all_inv clock cfg l0 I1) as [I2 _].
  destruct (sweep_all_calm _ V2 I2 (sweep_all_calm l0 V1 I1 C0)) as [M1 M2 M3]. split; done.
Qed.

(** ** Admission *)

(** A request that fits the context is not refused. *)
Lemma make_job_natural (w : t E) req slot :
  weights (engine_ w) = w0 → brief (req_spec req) →
  match make_job w req slot with (Throw _, _) => True | (Ok job, _) => job_finished job = false end.
Proof.
  intros Hw Hb. unfold make_job. destruct (new_ptr w) as [ptr w1] eqn:E1.
  assert (F1 : engine_ w1 = engine_ w) by (injection E1 as _ <-; done). clear E1.
  destruct (match req_sink req with Some k => (k, w1) | None => _ end) as [sink w2] eqn:E2.
  assert (F2 : engine_ w2 = engine_ w) by (destruct (req_sink req); injection E2 as _ <-; exact F1). clear E2. rewrite F2.
  destruct (law_tokenize (engine_ w) (Types.prompt (req_spec req))) as [_ [T2 _]]. pose proof (Hbrief _ Hb (engine_ w)) as Hl.
  destruct (tokenize _ _ true) as [prompt e1]. simpl in T2, Hl. destruct (begin_sequence e1 slot _) as [[[]|what] e2]; [|done].
  pose proof (limits_K (K := K) (bs := bs) (L := L)). pose proof (limits_bs (K := K) (bs := bs) (L := L)).
  unfold job_finished. simpl. rewrite (wrap32_small (len prompt)), add32_small by lia.
  rewrite law_caps, T2, Hw. destruct Hctx as [->|Hk]; [done|].
  destruct (N.ltb_spec (n_ctx_seq (caps_of w0)) (len prompt + max_tokens (req_spec req))); [lia|by rewrite andb_false_r].
Qed.

(** An idle scheduler has room for it. *)
Lemma reserve_natural (w : t E) job :
  kvs w [] → fits (K := K) (L := L) (first := first) (brief := brief) job → held job = [] → (reserve w [] job).1 = true.
Proof.
  intros V F Hb. unfold reserve. set (target := add32 _ _).
  pose proof (reclaim_until_kv cfg (donor_bound w) target w [] V) as V0. set (w1 := reclaim_until _ _ _) in *.
  destruct (job_finished job) eqn:Ef; [done|]. pose proof (kv_enter _ _ _ _ _ V0 F Hb) as V1.
  assert (Hp : Types.prompt_tokens (job_usage job) ≤ K) by (rewrite (fits_prompt _ F); pose proof (fits_size _ F); lia).
  pose proof (kv_ample _ _ _ _ _ M V1 ltac:(by rewrite len_nil) Hample) as Hroom. rewrite Hb, len_nil in Hroom.
  pose proof (blocks_for_limit (blocks_ w) bs _ K (kv_bs _ _ _ _ V) limits_bs Hp limits_K) as Hlim.
  assert (Ht : target ≤ BlockAllocator.free_blocks (blocks_ w1)).
  { unfold target. fold (quota K bs) in Hlim. rewrite add32_small; lia. }
  apply N.leb_le in Ht. rewrite Ht. pose proof (kv_grow _ _ _ _ _ _ V1 Hp (L_width cfg Hshare Hcbs Hwidth HM)) as G.
  destruct (BlockTable.ensure_capacity _ _ _) as [[[] a] tb]; [done|]. destruct G as (_ & _ & G).
  destruct (G eq_refl) as (_ & _ & Hlt). rewrite Hb, len_nil in Hlt. lia.
Qed.

Lemma make_job_weights (w : t E) req slot : weights (engine_ (make_job w req slot).2) = weights (engine_ w).
Proof.
  unfold make_job. destruct (new_ptr w) as [ptr w1] eqn:E1.
  assert (F1 : engine_ w1 = engine_ w) by (injection E1 as _ <-; done). clear E1.
  destruct (match req_sink req with Some k => (k, w1) | None => _ end) as [sink w2] eqn:E2.
  assert (F2 : engine_ w2 = engine_ w) by (destruct (req_sink req); injection E2 as _ <-; exact F1). clear E2. rewrite F2.
  destruct (law_tokenize (engine_ w) (Types.prompt (req_spec req))) as [_ [T2 _]].
  destruct (tokenize _ _ true) as [prompt e1]. simpl in T2. destruct (law_begin e1 slot (Types.sampling (req_spec req))) as [Lb _].
  destruct (begin_sequence e1 slot _) as [[[]|what] e2]; simpl in *; congruence.
Qed.

Lemma reclaim_until_weights n target (w : t E) : weights (engine_ (reclaim_until n target w)) = weights (engine_ w).
Proof.
  revert w. induction n as [|n IH]; intros w; cbn [reclaim_until]; [done|]. destruct (_ <? _); [|done].
  unfold reclaim_donor_blocks. destruct (PrefixCache.evict_lru_retained _) as [[e|] c]; [|done]. rewrite IH. apply law_release_weights.
Qed.

Lemma reserve_weights (w : t E) act job : weights (engine_ (reserve w act job).2.1) = weights (engine_ w).
Proof.
  unfold reserve. set (target := add32 _ _). pose proof (reclaim_until_weights (donor_bound w) target w) as R.
  split_ifs; exact R.
Qed.

Lemma share_prefix_calm (w : t E) job :
  match share_prefix w job with
  | (Throw _, _) => True
  | (Ok job', w') => job_finished job' = job_finished job ∧ weights (engine_ w') = weights (engine_ w)
  end.
Proof.
  unfold share_prefix. destruct (_ && _); [|done]. destruct (PrefixCache.find_longest _ _ _) as [[hit|] c]; [|done].
  destruct (_ =? _)%Z; [done|]. cbn [engine_ set_cache].
  pose proof (law_copy_weights (engine_ w) (PrefixCache.e_seq hit) (job_seq job) (to_i32 (PrefixCache.e_n_tokens hit))) as Lc.
  destruct (copy_sequence _ _ _ _) as [[u|what] e]; [|done]. by destruct (BlockTable.adopt_shared_prefix _ _ _ _).
Qed.

(** Nobody is refused, and who starts has not ended. *)
Lemma admit_one_calm (w : t E) act slot req :
  kvs w act → (0 ≤ slot < first)%Z → brief (req_spec req) → weights (engine_ w) = w0 →
  match admit_one clock w act slot req with
  | (Throw _, _) => True
  | (Ok a, w') =>
      weights (engine_ w') = w0 ∧ results_ (world_ w') = results_ (world_ w) ∧
      match a with Rejected => False | Deferred _ => True | Running job => job_finished job = false end
  end.
Proof.
  intros V Hs Hb Hw. unfold admit_one. pose proof (make_job_fits cfg Hbrief Hshare Hcbs Hwidth HM w req slot Hs Hb) as Mf.
  pose proof (make_job_natural w req slot Hw Hb) as Mn. pose proof (make_job_weights w req slot) as Mw.
  destruct (make_job w req slot) as [[job|what] w1]; [|done]. simpl in Mw. destruct Mf as (F1 & F2 & _ & F4 & F5 & _ & F6).
  assert (V1 : kvs w1 act) by (unfold ContinuousRun.kvs; by rewrite F4, F5).
  pose proof (reserve_spec w1 act job) as [Qr _]. pose proof (reserve_weights w1 act job) as Rw.
  pose proof (reserve_kv cfg Hshare Hcbs Hwidth HM w1 act job V1 F1 F2) as Rk.
  assert (Rn : act = [] → (reserve w1 act job).1 = true) by (intros ->; by apply reserve_natural).
  destruct (reserve w1 act job) as [ok [w2 job1]]. simpl in Qr, Rw, Rn. destruct Rk as (_ & R2 & _). destruct ok.
  - pose proof (share_prefix_calm w2 job1) as Sc. pose proof (share_prefix_spec w2 job1) as Ss.
    destruct (share_prefix w2 job1) as [[job2|what] w3]; [|done]. destruct Sc as [S1 S2], Ss as [S3 _]. simpl.
    split_and!; [congruence|by rewrite (q_results _ _ S3), (q_results _ _ Qr)|]. change (job_finished job2 = false). congruence.
  - destruct act as [|a act]; [by specialize (Rn eq_refl)|]. split_and!; [|by simpl; rewrite (q_results _ _ Qr)|done].
    simpl. etrans; [apply law_release_weights|]. congruence.
Qed.

Lemma admit_loop_calm (w : t E) act (slots : list SeqId) pend :
  kvs w act → config_ w = cfg → len act + len slots ≤ M → Forall (λ s, (0 ≤ s < first)%Z) slots →
  Forall (λ r, brief (req_spec r)) pend → weights (engine_ w) = w0 → Forall natural act → pleased w →
  match admit_loop clock w act slots pend with
  | (Throw _, _) => True
  | (Ok _, l1) => Forall natural (active l1) ∧ pleased (sched l1)
  end.
Proof.
  revert w act slots. induction pend as [|req pend IH]; intros w act slots V Hc Hl Hf Hp Hw Hn Hr; cbn [admit_loop]; [done|].
  apply Forall_cons in Hp as [Hq Hp]. destruct (back slots) as [slot|] eqn:Hs; [|done]. apply back_Some in Hs.
  assert (Hpop : len slots = len (pop_back slots) + 1) by (rewrite Hs at 1; rewrite len_app; done).
  pose proof Hf as Hf'. rewrite Hs in Hf'. apply Forall_app in Hf' as [Hf1 [Hf2 _]%Forall_cons].
  pose proof (admit_one_kv clock cfg Hbrief Hshare Hcbs Hwidth HM w act slot req V Hc ltac:(lia) Hf2 Hq) as Ak.
  pose proof (admit_one_calm w act slot req V Hf2 Hq Hw) as A.
  destruct (admit_one clock w act slot req) as [[a|what] w1]; [|done]. destruct Ak as (A1 & _ & _ & A4), A as (B1 & B2 & B3).
  assert (Hr1 : pleased w1) by (unfold pleased; by rewrite B2). destruct a as [|r|job]; [done|done|].
  assert (Pj : push_back act job ≡ₚ job :: act) by (unfold push_back; by rewrite Permutation_app_comm).
  apply IH; try done; [by eapply kvs_proper; [|exact A4]; rewrite Pj|unfold len in *; rewrite Pj; simpl; lia|].
  rewrite Pj. constructor; [|done]. intros Hj. congruence.
Qed.

Lemma take_work_calm n (w : t E) act pend : disturbed (take_work n w act pend).2 → disturbed w.
Proof.
  assert (Pw : ∀ m w1, disturbed (pop_wait m w1 : _ * t E).2 → disturbed w1).
  { induction m as [|m IH]; intros w1; cbn [pop_wait]; pose proof (s_calm _ _ (sync_steady w1)) as Sc;
      destruct (RequestQueue.pop _) as [[]|]; simpl; auto. }
  assert (Tp : ∀ w1 : t E, disturbed (try_pop w1).2 → disturbed w1).
  { intros w1. unfold try_pop. pose proof (s_calm _ _ (sync_steady w1)). by destruct (RequestQueue.try_pop _). }
  revert w pend. induction n as [|n IH]; intros w pend; cbn [take_work]; [done|].
  pose proof (Pw (length (script_ (world_ w))) w) as Ep. fold (pop w) in Ep. specialize (Tp w).
  destruct act as [|a act], pend as [|r pend]; [destruct (pop w) as [[[req|]|] w1]|destruct (try_pop w) as [[req|] w1]..];
    simpl in *; eauto.
Qed.

(** ** The iteration *)

Hypothesis Hcoll : prefix_caching cfg = true → ∀ p spec p' spec' n, (p, spec) ∈ asks → (p', spec') ∈ asks →
  PrefixCache.hash_prefix (toks (E := E) w0 spec) n = PrefixCache.hash_prefix (toks (E := E) w0 spec') n →
  take (N.to_nat n) (toks (E := E) w0 spec) = take (N.to_nat n) (toks (E := E) w0 spec').
Hypothesis Hodd : prefix_caching cfg = true → ∀ p spec, (p, spec) ∈ asks → len (toks (E := E) w0 spec) mod bs ≠ 0.

Lemma admit_calm (w : t E) act slots pend :
  let l := mkLoop w act slots pend in
  tidy l → honest w0 asks w act → sound w0 asks w act → vacated (donors := donors) cfg w act → awaited asks l → calm l →
  match admit_loop clock w act slots pend with
  | (Throw _, _) => True
  | (Ok _, l1) => tidy l1 ∧ faithful (donors := donors) cfg w0 asks l1 ∧ calm l1
  end.
Proof.
  intros l Td Hh S Hv Aw [N1 N2 N3]. pose proof Td as [I V B _].
  pose proof (admit_course clock cfg w0 asks Hbrief Hshare Hcbs Hwidth HM Htame Hfit Hids Hsharable Hcalm Hcoll Hodd w act slots pend Td Hh S Hv Aw) as Ac.
  destruct (slot_bounds cfg Hshare Hcbs Hwidth HM l I) as (Hsl & Hfi & _). apply Forall_app in B as [B _].
  pose proof (admit_loop_kv clock cfg Hbrief Hshare Hcbs Hwidth HM w act slots pend V ltac:(apply I) Hsl Hfi B) as Ak.
  pose proof (admit_loop_calm w act slots pend V ltac:(apply I) Hsl Hfi B ltac:(apply Hh) N1 N2) as Al.
  destruct (admit_loop _ _ _ _ _) as [[u|what] l1]; [|done]. destruct Ak as (_ & _ & A3 & _), Ac as (C1 & C2 & _), Al as [D1 D2].
  split_and!; [done|done|]. split; [done|done|]. intros ?. by eapply N3, environ_disturbed.
Qed.

Lemma iterate_calm nb (l : Loop E) :
  (∀ l1, assembles clock l l1 → decodes nb l1) → tidy l → faithful (donors := donors) cfg w0 asks l → awaited asks l → calm l →
  match iterate clock nb l with
  | (None, l') => calm l'
  | (Some (Threw _), _) => True
  | (Some _, l') => pleased (sched l')
  end.
Proof.
  intros Hdec Td F Aw [N1 N2 N3]. unfold iterate. set (room := N.to_nat _).
  pose proof (take_work_calm room (sched l) (active l) (pending l)) as Tc.
  destruct (take_work_frame clock cfg Hshare Hcbs Hwidth room (sched l) (active l) (pending l)) as [(_ & _ & S3) _].
  destruct (take_work _ _ _ _) as [[pend|] w] eqn:Et; simpl in Tc, S3; [|unfold pleased; simpl; by rewrite S3].
  assert (N2' : pleased w) by (unfold pleased; by rewrite S3).
  destruct (work_course clock cfg w0 asks Hshare Hcbs Hwidth l pend w Td F Aw Et) as (Td0 & H1 & So1 & Fv1 & Aw0 & _).
  pose proof (admit_calm w (active l) (free_slots l) pend Td0 H1 So1 Fv1 Aw0 ltac:(split; [done|done|auto])) as A.
  assert (Has : ∀ l1, admit_loop clock w (active l) (free_slots l) pend = (Ok tt, l1) → decodes nb l1)
    by (intros l1 Ea; apply Hdec; by exists pend, w).
  destruct (active l) as [|j act], pend as [|r pend']; [done|..];
    (destruct (admit_loop _ _ _ _ _) as [[[]|what] l1]; [|done]); destruct A as (Td1 & F1 & C1);
    (destruct (active l1); [done|by apply advance_calm; [apply Has|..]]).
Qed.

Lemma run_loop_calm fuel nb (l : Loop E) :
  nb ≤ n_batch (caps_of w0) → (∀ l' l1, rtc (iterates clock nb) l l' → assembles clock l' l1 → decodes nb l1) →
  tidy l → faithful (donors := donors) cfg w0 asks l → awaited asks l → calm l →
  match run_loop clock fuel nb l with (Threw _, _) => True | (_, l') => pleased (sched l') end.
Proof.
  intros Hnb. revert l. induction fuel as [|fuel IH]; intros l Hdec Td F Aw Cl; cbn [run_loop]; [apply Cl|].
  pose proof (iterate_course clock cfg w0 asks Hbrief Hshare Hcbs Hwidth HM Htame Hfit Hids Hsharable Hcalm Hcoll Hodd nb l Hnb Td F Aw) as It.
  pose proof (iterate_tidy clock cfg Hbrief Hshare Hcbs Hwidth HM nb l Td) as Itt. pose proof (iterate_calm nb l (λ l1, Hdec l l1 (rtc_refl _ _)) Td F Aw Cl) as Ic.
  destruct (iterate clock nb l) as [[[]|] l1] eqn:Ei; try done. destruct It, Itt as [Td1 _]. apply IH; try done.
  intros l' l2 R. apply Hdec. by eapply rtc_l.
Qed.

End Run.

(** ** The scheduler as it is constructed *)

Section Scheduler.
Context {E W C : Type} `{IModelEngine E} `{!SeqModel E W C} `{!SeqLaws E W C}.
Variable clock : nat → TimePoint.

(** Nothing goes wrong: nobody cancels, the context holds every request, and the pool a
    full batch and the donors. *)
Record sunny (K : N) (w : t E) : Prop := mk_sunny {
  sunny_calm : ¬ disturbed w;
  sunny_batch : 0 < n_batch (caps (engine_ w));
  sunny_pool : max_batch_size (config_ w) * table_limit (config_ w) K
    + quota K (block_size (config_ w)) * prefix_donors (config_ w) ≤ kv_blocks (config_ w);
  sunny_context : n_ctx_seq (caps (engine_ w)) = 0 ∨ K ≤ n_ctx_seq (caps (engine_ w)) }.

(** The invariants when a batch is built. *)
Lemma assembles_course K (w : t E) l l1 :
  proper K w → (prefix_caching (config_ w) = true → shares_safely w) → (prefix_donors (config_ w) ≠ 0 → ¬ broke (E := E)) →
  rtc (iterates clock (n_batch (caps (engine_ w)))) (init w) l → assembles clock l l1 →
  tidy (K := K) (T := kv_blocks (config_ w)) (bs := block_size (config_ w)) (L := table_limit (config_ w) K)
    (donors := prefix_donors (config_ w)) (brief := within K (E := E)) (config_ w) l1 ∧
  faithful (donors := prefix_donors (config_ w)) (config_ w) (weights (engine_ w)) (asks_of w) l1.
Proof.
  intros P Hh Hb R (pend & w1 & Et & Ea). pose proof (proper_fresh _ _ P) as F. pose proof (fresh_limits K w F) as Lim.
  destruct (proper_faithful K w P) as [Hf Ha].
  destruct (iterates_course (brief := within K) clock (config_ w) (weights (engine_ w)) (asks_of w) (λ _ Hs, Hs) (fresh_share K w) eq_refl (fresh_width _ _ F)
    (fresh_batch _ _ F) (asks_tame K w P) (proper_fit _ _ P) (proper_ids _ _ P) (λ Hc, proj1 (Hh Hc)) Hb (λ Hc, proj1 (asks_apart w (Hh Hc))) (λ Hc, proj2 (asks_apart w (Hh Hc)))
    _ _ _ R ltac:(by rewrite law_caps) (fresh_tidy K w F) Hf Ha) as (Td1 & F1 & Aw1).
  destruct (work_course (brief := within K) clock (config_ w) (weights (engine_ w)) (asks_of w) (fresh_share K w) eq_refl (fresh_width _ _ F)
    l pend w1 Td1 F1 Aw1 Et) as (Td2 & H2 & S2 & V2 & Aw2 & _).
  pose proof (admit_course (brief := within K) clock (config_ w) (weights (engine_ w)) (asks_of w) (λ _ Hs, Hs) (fresh_share K w) eq_refl (fresh_width _ _ F)
    (fresh_batch _ _ F) (asks_tame K w P) (proper_fit _ _ P) (proper_ids _ _ P) (λ Hc, proj1 (Hh Hc)) Hb (λ Hc, proj1 (asks_apart w (Hh Hc))) (λ Hc, proj2 (asks_apart w (Hh Hc)))
    w1 (active l) (free_slots l) pend Td2 H2 S2 V2 Aw2) as Ac. rewrite Ea in Ac. by destruct Ac as (? & ? & _).
Qed.

(** An engine that decodes the sequences it knows decodes every batch. *)
Lemma unbroken_decodes K (w : t E) l l1 :
  let nb := n_batch (caps (engine_ w)) in
  proper K w → (prefix_caching (config_ w) = true → shares_safely w) → ¬ broke (E := E) →
  rtc (iterates clock nb) (init w) l → assembles clock l l1 → decodes nb l1.
Proof.
  intros nb P Hh Hb R As. destruct (assembles_course K w l l1 P Hh (λ _, Hb) R As) as ([I _ _ _] & [Fh Fs _ _]).
  unfold decodes. set (chunk := prefill_chunk _). pose proof (build_batch_assigned nb chunk (active l1) (inv_ptrs _ _ I)) as B.
  pose proof (build_batch_fits nb chunk (active l1)) as Bf. destruct (build_batch nb chunk (active l1)) as [b act1].
  destruct B as (duty & A). simpl in *. intros Hne. pose proof (inv_load _ _ I). pose proof (proper_ids _ _ P).
  destruct (decode (engine_ (sched l1)) (items b)) as [[steps|what] e] eqn:Ed; [eauto|]. destruct Hb.
  eapply (batch_broke (weights (engine_ w)) (asks_of w) (asks_tame K w P) (proper_fit _ _ P) (sched l1) (active l1) b act1 duty);
    [apply Fh|exact Fs|unfold len; lia|done| |apply (active_slots _ _ I)|exact A|exact Ed]. rewrite <- law_caps. fold nb. lia.
Qed.

Lemma continuous_pleased K fuel (w : t E) :
  let nb := n_batch (caps (engine_ w)) in
  proper K w → (prefix_caching (config_ w) = true → shares_safely w) → (prefix_donors (config_ w) ≠ 0 → ¬ broke (E := E)) →
  (∀ l l1, rtc (iterates clock nb) (init w) l → assembles clock l l1 → decodes nb l1) → sunny K w →
  match run_continuous clock fuel w with (Threw _, _) => True | (_, w') => pleased w' end.
Proof.
  intros nb P Hh Hb Hdec [S1 _ S4 S5]. pose proof (proper_fresh _ _ P) as F. pose proof (fresh_limits K w F). destruct (proper_faithful K w P) as [Hf Ha].
  rewrite law_caps in S5. unfold run_continuous.
  pose proof (run_loop_calm (T := kv_blocks (config_ w)) (brief := within K) clock (config_ w) (weights (engine_ w)) (asks_of w)
    (λ _ Hs, Hs) (fresh_share K w) eq_refl (fresh_width _ _ F) (fresh_batch _ _ F) Hb S4 S5 (asks_tame K w P) (proper_fit _ _ P) (proper_ids _ _ P) (λ Hc, proj1 (Hh Hc))
    (λ Hc, proj1 (asks_apart w (Hh Hc))) (λ Hc, proj2 (asks_apart w (Hh Hc)))
    fuel nb (init w) ltac:(unfold nb; by rewrite law_caps) Hdec (fresh_tidy K w F) Hf Ha) as R.
  assert (Hc : calm (init w)) by (split; [done|unfold pleased; simpl; by rewrite (fresh_results _ _ F)|done]). specialize (R Hc).
  by destruct (run_loop _ _ _ _) as [[] l].
Qed.

End Scheduler.
