(* ===== verification/Transparent.v ===== *)
(** Batching is transparent: the answers do not depend on it.

    The last step of [Transparency.v], [TransparentRun.v] and [StaticTransparency.v]:
    in either mode the scheduler gives a request an answer the model gives it alone, as
    [generate_one] does; for a seeded request there is only one, so that two schedulers
    answer alike.  Runs of an engine that echoes
    its prompt show the theorem at work on shared prefixes, and what happens to a prompt
    that ends with a block. *)
From Stdlib Require Import Permutation Lia.
From stdpp Require Import base list gmap strings.
From S2P Require Import Prelude Types Blocks Tables Prefix Timing Engine Sinks Sequence Mock Generator Queue Scheduler Continuous Static Demo Conservation Batching Pressure StaticRun KvAccounting ContinuousRun Alone Transparency Capacity TransparentRun StaticTransparency CalmRun.

Local Open Scope N_scope.

Import Scheduler Continuous Static.

Section Scheduler.
Context {E W C : Type} `{IModelEngine E} `{!SeqModel E W C} `{!SeqLaws E W C}.
Variable clock : nat → TimePoint.

(** What the modes ask for: enough rounds for static batches;
    for continuous batching, with prefix caching, prompts whose hashes do not collide
    and that do not end with a block, and with donors an engine that decodes the
    sequences it knows: a prompt whose decode failed is retained as if it had been
    computed ([PrefixFaults.failed_prefill_is_shared]). *)
Definition mode_fits (K : N) (steps : nat) (w : t E) : Prop :=
  match mode (config_ w) with
  | kStatic => (N.to_nat K + 2 ≤ steps)%nat
  | kContinuous => (prefix_caching (config_ w) = true → shares_safely w) ∧ (prefix_donors (config_ w) ≠ 0 → ¬ broke (E := E))
  end.

Lemma proper_tame K w req : proper K w → req ∈ incoming w → tame (E := E) (weights (engine_ w)) (req_spec req).
Proof. intros P Hr. apply (asks_tame K w P (req_result req)), list_elem_of_fmap. eauto. Qed.

Lemma run_alone K fuel steps (w : t E) :
  proper K w → mode_fits K steps w →
  Forall (told (E := E) (weights (engine_ w)) (asks_of w)) (results_ (world_ (run clock fuel steps w).2)).
Proof.
  intros P M. pose proof P as [F HK HM Hfit Hv Hne]. unfold run, mode_fits in *. destruct (mode (config_ w)).
  - apply (run_static_course clock (weights (engine_ w)) (asks_of w)) with (m := K) (refs := []); try done; try lia.
    + by apply (asks_tame K).
    + by rewrite (fresh_results _ _ F).
    + apply (proper_faithful K w P).
    + eapply Forall_impl; [apply F|]. intros r Hr. specialize (Hr (engine_ w)). simpl in Hr. lia.
    + pose proof (fresh_batch _ _ F). lia.
    + by eapply fresh_accounts.
  - destruct M as [M1 M2]. by apply (continuous_alone clock K).
Qed.

(** What is answered is what the model answers, and what [generate_one] collects. *)
Lemma answers_alone K fuel steps (w : t E) p r :
  proper K w → mode_fits K steps w →
  (p, r) ∈ results_ (world_ (run clock fuel steps w).2) → clean (res_reason r) →
  ∃ req, req ∈ incoming w ∧ req_result req = p ∧
    let answer := (res_text r, res_reason r, Types.completion_tokens (res_usage r)) in
    answers (weights (engine_ w)) (req_spec req) answer ∧
    ∀ fuel' flags q f e' k', (∀ i f, load (flags i) f = false) →
      generate_one fuel' flags (engine_ w) q (req_spec req) (CollectingSink.make f) = Some (Ok tt, (e', k')) →
      answers (weights (engine_ w)) (req_spec req) (collected_answer k') ∧
      (seeded (weights (engine_ w)) (Types.sampling (req_spec req)) → collected_answer k' = answer).
Proof.
  intros P M Hr Hc. pose proof (run_alone K fuel steps w P M) as Ht.
  rewrite Forall_forall in Ht. destruct (Ht _ Hr Hc) as (spec & (req & [= -> ->] & Hin)%list_elem_of_fmap & Ha).
  exists req. split_and!; [done|done|]. split; [exact Ha|]. intros fuel' flags q f e' k' Hf Hg.
  destruct (proper_tame K w req P Hin) as [Hne Hsz].
  pose proof (generate_one_alone fuel' flags (engine_ w) e' q (req_spec req) f k' (proper_fit _ _ P) (proper_unused _ _ P q) Hne Hsz Hf Hg) as Hk.
  split; [done|]. intros Hs. by eapply answers_unique.
Qed.

(** C1: batching is transparent.  Take an engine whose sequences do not influence each
    other, either mode, and a scheduler that has just been built over it ([proper]: a
    positive batch size, counters that fit 32 bits, requests of at most [K < 2^31] tokens
    whose prompts have at least one).  Let any script of requests and cancellations come,
    under any pressure on the cache and with decodes that may fail.  Whenever the scheduler
    answers a promise with a generation that ended by itself (end of sequence,
    [max_tokens] or a stop string), the promise is that of a request, and text, reason and
    number of tokens are an answer the model gives that request alone: packed and chunked
    prefills, the company in the batch, deferral, preemption and copied prefixes leave no
    trace.  What [generate_one] collects is such an answer too, and the same one when the
    request's sampling is seeded, so that it has only one.  [mode_fits] is a condition:
    with prefix caching the engine must be able to copy prefixes, prompts must have no
    hash collisions and must not end with a block ([PrefixFaults.whole_hit_resubmits_last]),
    and with donors the engine must decode every batch of sequences it knows, since the
    prefix of a failed decode is retained ([PrefixFaults.failed_prefill_is_shared]).  The
    mock is such an engine, and the llama.cpp engine over a backend that keeps sequences
    apart ([LlamaAlone.v]). *)
Theorem batching_transparent K fuel steps (w : t E) p r :
  proper K w → mode_fits K steps w →
  (p, r) ∈ results_ (world_ (run clock fuel steps w).2) → clean (res_reason r) →
  ∃ req, req ∈ incoming w ∧ req_result req = p ∧
    let answer := (res_text r, res_reason r, Types.completion_tokens (res_usage r)) in
    answers (weights (engine_ w)) (req_spec req) answer ∧
    ∀ fuel' flags q f e' k', (∀ i f, load (flags i) f = false) →
      generate_one fuel' flags (engine_ w) q (req_spec req) (CollectingSink.make f) = Some (Ok tt, (e', k')) →
      answers (weights (engine_ w)) (req_spec req) (collected_answer k') ∧
      (seeded (weights (engine_ w)) (Types.sampling (req_spec req)) → collected_answer k' = answer).
Proof. apply answers_alone. Qed.

(** Two schedulers over the same model, in whatever mode and configuration, answer a
    seeded request alike. *)
Corollary modes_agree K1 K2 fuel1 fuel2 steps1 steps2 (w1 w2 : t E) p r1 r2 :
  proper K1 w1 → proper K2 w2 → mode_fits K1 steps1 w1 → mode_fits K2 steps2 w2 →
  weights (engine_ w1) = weights (engine_ w2) →
  (∀ req1 req2, req1 ∈ incoming w1 → req2 ∈ incoming w2 → req_result req1 = req_result req2 → req_spec req1 = req_spec req2) →
  (p, r1) ∈ results_ (world_ (run clock fuel1 steps1 w1).2) → (p, r2) ∈ results_ (world_ (run clock fuel2 steps2 w2).2) →
  clean (res_reason r1) → clean (res_reason r2) →
  (∀ req, req ∈ incoming w1 → req_result req = p → seeded (weights (engine_ w1)) (Types.sampling (req_spec req))) →
  res_text r1 = res_text r2 ∧ res_reason r1 = res_reason r2 ∧
  Types.completion_tokens (res_usage r1) = Types.completion_tokens (res_usage r2).
Proof.
  intros P1 P2 M1 M2 Hw Hq Hr1 Hr2 Hc1 Hc2 Hsd. pose proof (run_alone K1 fuel1 steps1 w1 P1 M1) as T1.
  pose proof (run_alone K2 fuel2 steps2 w2 P2 M2) as T2. rewrite Forall_forall in T1, T2.
  destruct (T1 _ Hr1 Hc1) as (s1 & (q1 & [= Hp1 ->] & Hi1)%list_elem_of_fmap & A1).
  destruct (T2 _ Hr2 Hc2) as (s2 & (q2 & [= Hp2 ->] & Hi2)%list_elem_of_fmap & A2). simpl in *.
  rewrite <- (Hq q1 q2 Hi1 Hi2), <- Hw in A2 by congruence.
  pose proof (answers_unique _ _ _ _ (Hsd q1 Hi1 (eq_sym Hp1)) A1 A2) as Eq. by injection Eq.
Qed.

(** A run in which every batch is decoded, nobody cancels, and context and pool are large
    enough. *)
Lemma decoding_run_serves K fuel (w : t E) :
  let nb := n_batch (caps (engine_ w)) in
  proper K w → (prefix_caching (config_ w) = true → shares_safely w) → (prefix_donors (config_ w) ≠ 0 → ¬ broke (E := E)) →
  (∀ l l1, rtc (iterates clock nb) (init w) l → assembles clock l l1 → decodes nb l1) → sunny K w →
  (N.to_nat ((K + 3) * len (incoming w)) < fuel)%nat →
  match run_continuous clock fuel w with
  | (Threw what, _) => uncaught (E := E) what
  | (OutOfFuel, _) => False
  | (o, w') =>
      (closing w → o = Returned) ∧ accepted_promises (world_ w') ≡ₚ answered (world_ w') ∧
      ∀ p r, (p, r) ∈ results_ (world_ w') →
        ∃ req, req ∈ incoming w ∧ req_result req = p ∧ clean (res_reason r) ∧
          answers (weights (engine_ w)) (req_spec req) (res_text r, res_reason r, Types.completion_tokens (res_usage r))
  end.
Proof.
  intros nb P Hh Hb Hdec Su Hfuel. pose proof (continuous_alone clock K fuel w P Hh Hb) as Ht.
  pose proof (continuous_pleased clock K fuel w P Hh Hb Hdec Su) as Hp.
  pose proof (run_continuous_ends clock K w fuel (proper_fresh _ _ P) (sunny_batch _ _ Su) (sunny_pool _ _ Su) Hfuel) as Re.
  assert (Hall : ∀ w' : t E, Forall (told (E := E) (weights (engine_ w)) (asks_of w)) (results_ (world_ w')) → pleased w' →
    ∀ p r, (p, r) ∈ results_ (world_ w') → ∃ req, req ∈ incoming w ∧ req_result req = p ∧ clean (res_reason r) ∧
      answers (weights (engine_ w)) (req_spec req) (res_text r, res_reason r, Types.completion_tokens (res_usage r))).
  { intros w' Tl Pl p r Hr. unfold pleased in Pl. rewrite Forall_forall in Tl, Pl. specialize (Pl _ Hr). simpl in Pl.
    destruct (Tl _ Hr Pl) as (spec & (req & [= -> ->] & Hin)%list_elem_of_fmap & Ha). by exists req. }
  destruct (run_continuous clock fuel w) as [[] w']; try done; destruct Re as (R1 & _ & _ & R4); (split_and!; [done|done|by apply Hall]).
Qed.

(** C2: when nothing goes wrong, every request gets the model's answer, and all is
    answered.  The scheduler is as in [batching_transparent] ([proper]); nobody cancels,
    the engine decodes every batch of sequences it knows, the context holds every request
    and the pool a full batch and the donors; with prefix caching the engine can copy
    prefixes, prompts have no hash collisions and do not end with a block
    ([shares_safely]).  Then at most [K + 3] iterations per request are enough: the loop
    ends, by returning once the queue is closed and drained or by waiting for ever, every
    accepted request has been answered exactly once, and every single answer is one the
    model gives that request alone, to its natural end.  No sequence is refused, found too
    long, failed or cancelled on the way.  Only exceptions of [begin_sequence] and of the
    copy of a shared prefix can end the loop otherwise. *)
Theorem sunny_run_serves K fuel (w : t E) :
  proper K w → (prefix_caching (config_ w) = true → shares_safely w) → ¬ broke (E := E) → sunny K w →
  (N.to_nat ((K + 3) * len (incoming w)) < fuel)%nat →
  match run_continuous clock fuel w with
  | (Threw what, _) => uncaught (E := E) what
  | (OutOfFuel, _) => False
  | (o, w') =>
      (closing w → o = Returned) ∧ accepted_promises (world_ w') ≡ₚ answered (world_ w') ∧
      ∀ p r, (p, r) ∈ results_ (world_ w') →
        ∃ req, req ∈ incoming w ∧ req_result req = p ∧ clean (res_reason r) ∧
          answers (weights (engine_ w)) (req_spec req) (res_text r, res_reason r, Types.completion_tokens (res_usage r))
  end.
Proof.
  intros P Hh Hb Su. apply decoding_run_serves; try done. intros l l1 R As. by apply (unbroken_decodes clock K w l l1).
Qed.

(** Whether hashes collide is decidable: no prompt is longer than [bound]. *)
Definition apart_upto (w : t E) (bound : nat) : Prop :=
  let prompts := (λ r, tokens_of (weights (engine_ w)) (Types.prompt (req_spec r))) <$> incoming w in
  Forall (λ p, (length p ≤ bound)%nat ∧ len p mod block_size (config_ w) ≠ 0 ∧
    Forall (λ q, Forall (λ n,
      PrefixCache.hash_prefix p (N.of_nat n) = PrefixCache.hash_prefix q (N.of_nat n) → take n p = take n q)
      (seq 0 (S bound))) prompts) prompts.

#[global] Instance apart_upto_dec w bound : Decision (apart_upto w bound).
Proof. unfold apart_upto. apply _. Defined.

Lemma apart_upto_apart (w : t E) bound : apart_upto w bound → prompts_apart w.
Proof.
  unfold apart_upto. set (prompts := _ <$> _). intros Hf. rewrite Forall_forall in Hf.
  assert (Hin : ∀ r, r ∈ incoming w → tokens_of (weights (engine_ w)) (Types.prompt (req_spec r)) ∈ prompts)
    by (intros r Hr; unfold prompts; apply list_elem_of_fmap; eauto).
  assert (Hcut : ∀ p n, p ∈ prompts → take n p = take (n `min` bound) p).
  { intros p n Hp. destruct (Hf p Hp) as [Hb _]. destruct (Nat.min_spec n bound) as [[_ ->]|[? ->]]; [done|].
    by rewrite !take_ge by lia. }
  split; [|intros r Hr%Hin; by destruct (Hf _ Hr) as (_ & ? & _)].
  intros r r' n Hr%Hin Hr'%Hin Hh. destruct (Hf _ Hr) as (_ & _ & Hq). rewrite Forall_forall in Hq. specialize (Hq _ Hr').
  rewrite Forall_forall in Hq. specialize (Hq (N.to_nat n `min` bound)%nat ltac:(apply elem_of_seq; lia)).
  unfold PrefixCache.hash_prefix in Hh, Hq. rewrite !Nat2N.id in Hq. rewrite (Hcut _ _ Hr), (Hcut _ _ Hr') in Hh |- *. auto.
Qed.

End Scheduler.

(** ** Runs *)

#[local] Existing Instances MockModel.model MockModel.laws.

(** A mock that answers a prompt with the prompt. *)
Definition echo_engine : MockModelEngine.t :=
  MockModelEngine.make (MockModelEngine.mkConfig [] true 0 64 16 4).

Definition echo_sched (cfg : SchedulerConfig) (sc : list (list EnvAction)) : t MockModelEngine.t :=
  make echo_engine (RequestQueue.make 8) cfg (demo_env sc).

(** Three requests with a common prefix: the second shares it with the first, which is
    running, the third with a donor. *)
Definition echoing : t MockModelEngine.t :=
  echo_sched (mkConfig 2 kContinuous 0 4 2 true 128)
    [[ASubmit (demo_req 1 "hello ab" 20)]; []; [ASubmit (demo_req 2 "hello abcd" 20)];
     []; []; []; []; []; []; []; []; []; []; []; [ASubmit (demo_req 3 "hello ants" 20)]; [AClose]].

Lemma echoing_fresh : fresh 32 echoing.
Proof.
  split; try (vm_compute; reflexivity).
  vm_compute (incoming echoing). repeat constructor; intros e; vm_compute; discriminate.
Qed.

Lemma echoing_proper : proper 32 echoing.
Proof. split; [exact echoing_fresh|lia|vm_compute; discriminate|done|by intros q c|by intros req _]. Qed.

(** The mock decodes the sequences it knows. *)
Lemma mock_decodes : ¬ broke (E := MockModelEngine.t).
Proof.
  intros (e & e' & its & what & _ & (B1 & _ & _ & B2) & _ & B3). destruct (MockModel.decode_total e its B1 B2) as (steps & e1 & B4).
  by pose proof (eq_trans (eq_sym B3) B4).
Qed.

Lemma echoing_fits : mode_fits 32 0 echoing.
Proof.
  split; [|intros _; exact mock_decodes].
  intros _. split; [exact I|]. apply (apart_upto_apart echoing 31), (bool_decide_unpack (apart_upto echoing 31)). vm_compute. exact I.
Qed.

Lemma batching_transparent_witness :
  let w := (run demo_clock 60 0 echoing).2 in
  stats_ w prefix_hits = 2 ∧
  ∃ r, (3, r) ∈ results_ (world_ w) ∧ res_text r = str "hello ants" ∧
    ∃ req, req ∈ incoming echoing ∧ req_result req = 3 ∧
      answers (weights (engine_ echoing)) (req_spec req)
        (res_text r, res_reason r, Types.completion_tokens (res_usage r)).
Proof.
  intros w. split; [vm_compute; reflexivity|].
  destruct (results_ (world_ w) !! 2%nat) as [[p r]|] eqn:Er; [|by vm_compute in Er].
  assert (Hr : p = 3 ∧ res_text r = str "hello ants" ∧ res_reason r = kEos)
    by (vm_compute in Er; injection Er as <- <-; done). destruct Hr as (-> & Ht & Hc).
  apply list_elem_of_lookup_2 in Er. exists r. split_and!; [done|done|].
  destruct (batching_transparent demo_clock 32 60 0 echoing 3 r echoing_proper echoing_fits) as (req & H1 & H2 & H3 & _).
  - exact Er.
  - left. exact Hc.
  - by exists req.
Defined.

(** The same requests in a pool with room for all. *)
Definition roomy_echoing : t MockModelEngine.t :=
  echo_sched (mkConfig 2 kContinuous 64 4 2 true 128)
    [[ASubmit (demo_req 1 "hello ab" 20)]; []; [ASubmit (demo_req 2 "hello abcd" 20)];
     []; []; []; []; []; []; []; []; []; []; []; [ASubmit (demo_req 3 "hello ants" 20)]; [AClose]].

Lemma roomy_echoing_proper : proper 32 roomy_echoing.
Proof.
  split; [|lia|vm_compute; discriminate|done|by intros q c|by intros req _]. split; try (vm_compute; reflexivity).
  vm_compute (incoming roomy_echoing). repeat constructor; intros e; vm_compute; discriminate.
Qed.

Lemma roomy_echoing_sunny : sunny 32 roomy_echoing.
Proof.
  split.
  - intros [[f Hf]|[f Hf]]; [by vm_compute in Hf|]. vm_compute in Hf. set_solver.
  - vm_compute. reflexivity.
  - vm_compute. discriminate.
  - right. vm_compute. discriminate.
Qed.

Lemma sunny_run_serves_witness :
  let (o, w) := run_continuous demo_clock 200 roomy_echoing in
  o = Returned ∧ stats_ w prefix_hits = 2 ∧ accepted_promises (world_ w) ≡ₚ answered (world_ w) ∧
  length (results_ (world_ w)) = 3%nat.
Proof.
  set (r := run_continuous demo_clock 200 roomy_echoing).
  assert (H1 : r.1 = Returned) by (vm_compute; reflexivity). assert (H2 : stats_ r.2 prefix_hits = 2) by (vm_compute; reflexivity).
  assert (H3 : length (results_ (world_ r.2)) = 3%nat) by (vm_compute; reflexivity).
  assert (Ha : shares_safely roomy_echoing)
    by (split; [exact I|]; apply (apart_upto_apart roomy_echoing 31), (bool_decide_unpack (apart_upto roomy_echoing 31)); vm_compute; exact I).
  pose proof (sunny_run_serves demo_clock 32 200 roomy_echoing roomy_echoing_proper (λ _, Ha) mock_decodes roomy_echoing_sunny) as R. fold r in R.
  destruct r as [o w]. simpl in H1, H2, H3. subst o. destruct R as (_ & R & _); [vm_compute; lia|]. split_and!; done.
Defined.

(** Two requests with the same prompt, which is two whole blocks; the second comes
    while the first runs. *)
Definition aligned : t MockModelEngine.t :=
  echo_sched (mkConfig 2 kContinuous 0 4 0 true 128)
    [[ASubmit (demo_req 1 "hello y" 20)]; []; [ASubmit (demo_req 2 "hello y" 20)]; [AClose]].

(** A hit on a whole prompt changes the answer ([PrefixFaults.whole_hit_resubmits_last]).  Two identical requests to an engine
    that echoes its prompt: the second finds all eight tokens of its prompt in the
    cache, copies them and submits the last one again, after itself.  It is answered
    [hello yy] where the first is answered [hello y]. *)
Example aligned_hit_changes_answer :
  let (o, w) := run_continuous demo_clock 60 aligned in
  o = Returned ∧ stats_ w prefix_hits = 1 ∧
  (λ x, (x.1, res_text x.2, res_reason x.2)) <$> results_ (world_ w) =
    [(1, str "hello y", kEos); (2, str "hello yy", kEos)].
Proof. vm_compute. done. Qed.
