(* ===== verification/LlamaAlone.v ===== *)
(** The llama.cpp engine keeps its sequences apart, so batching is transparent with it.

    [LlamaSeqs] is what a client of llama.cpp can rely on about the KV memory, beyond
    the sizes of [LlamaLaws]: a context holds cells, each a token at a position of a
    sequence; a decode that succeeds adds the batch's cells and leaves, at each entry
    that asks for logits, logits of that sequence up to that position; sampling draws
    from such logits.  Part of a sequence can be copied when the cache is unified; the
    call aborts the process otherwise, and then the laws say nothing of the cells.  A
    sampler is a function of its parameters, except that the last stage of a request
    that is not greedy and asks for the seed 0 or [LLAMA_DEFAULT_SEED] also depends on
    the system's entropy: such a request has more than one answer.

    [LlamaExact] is an assumption of its own: the logits are a function of the model and
    the cells, whatever else is in the batch.  That is exact arithmetic: in floating
    point the shape of a batch can change the last bits, and a draw that hinges on them.

    The bound on prompts in [fresh] is for every engine of the type, so [V] is the type
    of the vocabularies of the model that is loaded.

    From these laws the engine of [LlamaEngine.v] is shown to be an instance of
    [SeqLaws], which gives transparency for a scheduler that owns an engine as the
    constructor leaves it.  A small backend that keeps cells is an instance. *)
From Stdlib Require Import Lia Ascii SpecFloat.
From stdpp Require Import base list gmap strings.
From S2P Require Import Prelude Types Blocks Tables Prefix Timing Engine Sinks Sequence Mock Generator Queue Scheduler Continuous Static Demo Conservation Batching Pressure StaticRun KvAccounting ContinuousRun LlamaEngine Alone Transparency TransparentRun StaticTransparency CalmRun Transparent.

Local Open Scope N_scope.

Import Scheduler Continuous Static.

(** ** The KV memory *)

(** A cell is a token at a position.  The cells the entries of a batch add to a
    sequence, and those up to a position. *)
Definition cells_for (q : SeqId) (l : list Slot) : list (Pos * Token) :=
  (λ s, (s_pos s, s_token s)) <$> filter (λ s, s_seq_id s = q) l.
Definition upto (p : Pos) (cs : list (Pos * Token)) : list (Pos * Token) := filter (λ x : Pos * Token, (x.1 ≤ p)%Z) cs.

Class LlamaSeqs (M C S Lg : Type) := {
  cells : C → SeqId → list (Pos * Token);
  model_of : C → M;
  unified : C → bool;
  infer : M → list (Pos * Token) → Lg;
  logits : C → Z → option Lg;
  draw : S → Lg → Token * S }.

(** Every entry belongs to one sequence, as the engine writes them. *)
Definition one_each (b : llama_batch) : Prop := Forall (λ s, s_n_seq_id s = 1%Z) (LlamaModelEngine.live b).

Class LlamaSeqLaws (M V C S Lg : Type) `{LlamaApi M V C S} `{!LlamaSeqs M C S Lg} : Prop := {
  init_cells m cp (c : C) : llama_init_from_model m cp = Some c → unified c = cp_kv_unified cp ∧ ∀ q, cells c q = [];
  decode_model (c : C) b : model_of (llama_decode c b).2 = model_of c ∧ unified (llama_decode c b).2 = unified c;
  decode_cells (c c' : C) b q :
    one_each b → llama_decode c b = (0%Z, c') → cells c' q = cells c q ++ cells_for q (LlamaModelEngine.live b);
  decode_apart (c : C) b q :
    one_each b → cells_for q (LlamaModelEngine.live b) = [] → cells (llama_decode c b).2 q = cells c q;
  sample_draws (s : S) (c : C) i lg :
    logits c i = Some lg → ((llama_sampler_sample s c i).1, (llama_sampler_sample s c i).2.1) = draw s lg;
  sample_keeps (s : S) (c : C) i :
    let c' := (llama_sampler_sample s c i).2.2 in
    model_of c' = model_of c ∧ unified c' = unified c ∧ (∀ j, logits c' j = logits c j) ∧ ∀ q, cells c' q = cells c q;
  seq_rm_model (c : C) q p0 p1 :
    let c' := llama_memory_seq_rm c q p0 p1 in model_of c' = model_of c ∧ unified c' = unified c;
  seq_rm_all (c : C) q q' :
    (0 ≤ q)%Z → cells (llama_memory_seq_rm c q (-1)%Z (-1)%Z) q' = if decide (q' = q) then [] else cells c q';
  seq_cp_model (c : C) q q' p0 p1 :
    let c' := llama_memory_seq_cp c q q' p0 p1 in model_of c' = model_of c ∧ unified c' = unified c;
  seq_cp_apart (c : C) src dst n q :
    unified c = true → (0 ≤ src)%Z → (0 ≤ dst)%Z → q ≠ dst → cells (llama_memory_seq_cp c src dst 0%Z n) q = cells c q;
  seq_cp_prefix (c : C) src dst n :
    unified c = true → (0 ≤ src)%Z → (0 ≤ dst)%Z → src ≠ dst → cells c dst = [] →
    cells (llama_memory_seq_cp c src dst 0%Z n) dst = filter (λ x : Pos * Token, (0 ≤ x.1 < n)%Z) (cells c src);
  dist_seeded sd k k' : sd ≠ LLAMA_DEFAULT_SEED → llama_sampler_init_dist sd k = llama_sampler_init_dist sd k' }.

(** What a sequence's cells make the model infer does not depend on the batch. *)
Class LlamaExact (M V C S Lg : Type) `{LlamaApi M V C S} `{!LlamaSeqs M C S Lg} : Prop :=
  decode_logits (c c' : C) b i s :
    one_each b → llama_decode c b = (0%Z, c') → LlamaModelEngine.live b !! i = Some s → s_logits s = 1%Z →
    logits c' (Z.of_nat i) = Some (infer (model_of c) (upto (s_pos s) (cells c' (s_seq_id s)))).

(** ** Cells of a batch *)

(** Tokens at consecutive positions. *)
Definition laid (ts : list Token) (pos : Pos) : list (Pos * Token) := imap (λ k tok, ((pos + Z.of_nat k)%Z, tok)) ts.

Lemma laid_app ts us pos : laid (ts ++ us) pos = laid ts pos ++ laid us (pos + Z.of_nat (length ts))%Z.
Proof.
  unfold laid. rewrite imap_app. f_equal. apply imap_ext. intros k tok _. simpl. f_equal. lia.
Qed.

Lemma laid_elem ts pos x : x ∈ laid ts pos → (pos ≤ x.1 < pos + Z.of_nat (length ts))%Z.
Proof.
  unfold laid. intros (k & tok & -> & Hk%lookup_lt_Some)%elem_of_lookup_imap_1. simpl. lia.
Qed.

Lemma laid_last ts pos : ts ≠ [] → ∃ tok, last (laid ts pos) = Some ((pos + Z.of_nat (length ts) - 1)%Z, tok).
Proof.
  destruct ts as [|tok ts IH] using rev_ind; [done|]. intros _. exists tok. rewrite laid_app, last_app.
  unfold laid. simpl. rewrite length_app. simpl. do 2 f_equal. lia.
Qed.

Lemma cells_for_app q l l' : cells_for q (l ++ l') = cells_for q l ++ cells_for q l'.
Proof. unfold cells_for. by rewrite filter_app, fmap_app. Qed.

Lemma cells_for_item q i :
  cells_for q (LlamaModelEngine.item_slots i) = if decide (item_seq i = q) then laid (item_tokens i) (item_pos0 i) else [].
Proof.
  unfold cells_for, LlamaModelEngine.item_slots. case_decide as Hq.
  - rewrite filter_all.
    + unfold laid. apply list_eq. intros k. rewrite list_lookup_fmap, !list_lookup_imap.
      by destruct (item_tokens i !! k).
    + apply Forall_lookup_2. intros k s. rewrite list_lookup_imap. destruct (_ !! k); by intros [= <-].
  - rewrite filter_none; [done|]. apply Forall_lookup_2. intros k s. rewrite list_lookup_imap.
    destruct (_ !! k); by intros [= <-].
Qed.

(** With distinct sequences, a batch adds to a sequence what its item says. *)
Lemma cells_for_none q items :
  q ∉ item_seq <$> items → cells_for q (concat (LlamaModelEngine.item_slots <$> items)) = [].
Proof.
  induction items as [|i items IH]; [done|]. rewrite !fmap_cons, not_elem_of_cons. intros [Hi Hq]. cbn [concat].
  by rewrite cells_for_app, cells_for_item, decide_False, IH.
Qed.

Lemma cells_for_items items i :
  NoDup (item_seq <$> items) → i ∈ items →
  cells_for (item_seq i) (concat (LlamaModelEngine.item_slots <$> items)) = laid (item_tokens i) (item_pos0 i).
Proof.
  induction items as [|j items IH]; [by intros _ ?%not_elem_of_nil|]. rewrite !fmap_cons. cbn [concat].
  rewrite cells_for_app, cells_for_item. intros [Hj Hn]%NoDup_cons [->|Hi]%elem_of_cons.
  - by rewrite decide_True, cells_for_none, app_nil_r.
  - rewrite decide_False; [by apply IH|]. intros Hq. apply Hj. rewrite Hq. by apply list_elem_of_fmap_2.
Qed.

(** An entry that asks for logits is the last one of its item. *)
Lemma item_slots_elem items s :
  s ∈ concat (LlamaModelEngine.item_slots <$> items) →
  ∃ i, i ∈ items ∧ s_seq_id s = item_seq i ∧ s_n_seq_id s = 1%Z ∧
    (s_logits s = 1%Z → item_tokens i ≠ [] ∧ s_pos s = (item_pos0 i + Z.of_nat (length (item_tokens i)) - 1)%Z).
Proof.
  rewrite list_elem_of_In, in_concat. intros (l & Hl & Hs). apply list_elem_of_In in Hl, Hs.
  apply list_elem_of_fmap in Hl as (i & -> & Hi). exists i. split; [done|].
  apply elem_of_lookup_imap_1 in Hs as (k & tok & -> & Hk). split_and!; [done..|]. simpl. intros Hl.
  destruct (item_sample i); [|done]. simpl in Hl. destruct (Nat.eqb_spec (k + 1) (length (item_tokens i))); [|done].
  split; [by intros E; rewrite E in Hk|lia].
Qed.

Lemma requested_elem off l q ix :
  (q, ix) ∈ LlamaModelEngine.requested off l →
  ∃ k s, l !! k = Some s ∧ ix = (off + Z.of_nat k)%Z ∧ s_logits s = 1%Z ∧ s_seq_id s = q.
Proof.
  revert off. induction l as [|s l IH]; intros off; cbn [LlamaModelEngine.requested]; [by intros ?%not_elem_of_nil|].
  intros [Hs|Hl]%elem_of_app.
  - destruct (Z.eqb_spec (s_logits s) 1); [|by apply not_elem_of_nil in Hs].
    apply list_elem_of_singleton in Hs. injection Hs as -> ->. exists 0%nat, s. split_and!; try done. lia.
  - destruct (IH _ Hl) as (k & s' & H1 & -> & H2 & H3). exists (S k), s'. split_and!; try done. lia.
Qed.

(** ** The engine's sequences *)

Section Engine.
Context {M V C S Lg : Type} `{HA : LlamaApi M V C S} `{HL : !LlamaLaws M V C S} `{!LlamaSeqs M C S Lg}.

(** What stays fixed: the model and vocabulary, the kind of cache, and the sizes of
    context and batch. *)
Record Fixture := mkFixture {
  fx_model : M;
  fx_unified : bool;
  fx_vocab : V;
  fx_eos : Token;
  fx_sizes : N * N * N * N;
  fx_n_batch : N;
  fx_room : nat }.

Definition fixture (e : LlamaModelEngine.t M V C S) : Fixture :=
  mkFixture (model_of (LlamaModelEngine.context e)) (unified (LlamaModelEngine.context e)) (LlamaModelEngine.vocab e) (LlamaModelEngine.eos_ e)
    (sizes (LlamaModelEngine.context e)) (LlamaModelEngine.n_batch_ e)
    (length (b_slots (LlamaModelEngine.batch e))).

(** A sequence: its cells, and its sampler once it has been begun. *)
Definition view (cs : list (Pos * Token)) (s : option S) : option (list (Pos * Token) * option S) :=
  match cs, s with [], None => None | _, _ => Some (cs, s) end.

(** The logits at the last position. *)
Definition at_end (m : M) (cs : list (Pos * Token)) : Lg :=
  infer m (upto (default 0%Z (fst <$> last cs)) cs).

#[export] Instance llama_model : SeqModel (LlamaModelEngine.t M V C S) Fixture (list (Pos * Token) * option S) := {
  weights := fixture;
  ctx e q := view (cells (LlamaModelEngine.context e) q) (LlamaModelEngine.samplers e !! q);
  caps_of w := let '(nctx, nb, ns, nseq) := fx_sizes w in mkCaps nctx nb ns (fx_eos w) nseq;
  fit w := fx_n_batch w = (fx_sizes w).1.1.2 ∧ fx_n_batch w < 2147483648 ∧ fx_room w = N.to_nat (fx_n_batch w);
  tokens_of w s := LlamaModelEngine.text_tokens (fx_vocab w) s true;
  text_of w tok := LlamaModelEngine.token_text (fx_vocab w) tok;
  opens w p c := ∃ k, c = ([], Some (LlamaModelEngine.sampler_chain p k));
  seeded w p := SFleb (temperature p) LlamaModelEngine.f32_zero = true ∨ seed p ≠ 0 ∧ seed p ≠ LLAMA_DEFAULT_SEED;
  shares w := fx_unified w = true;
  feed w c ts pos := (c.1 ++ laid ts pos, c.2);
  sample w c :=
    match c.2 with
    | Some s => let (tok, s') := draw s (at_end (fx_model w) c.1) in
                (tok, llama_vocab_is_eog (fx_vocab w) tok, (c.1, Some s'))
    | None => (0%Z, false, c)
    end;
  holds w c ts := is_Some c.2 ∧ filter (λ x : Pos * Token, (x.1 < Z.of_nat (length ts))%Z) c.1 = laid ts 0%Z }.

Context `{HS : !LlamaSeqLaws M V C S Lg} `{HX : !LlamaExact M V C S Lg}.
Implicit Types e : LlamaModelEngine.t M V C S.

Lemma fit_wf e : fit (weights e) → LlamaModelEngine.wf e.
Proof. done. Qed.

Lemma llama_vacant e q :
  vacant e q → cells (LlamaModelEngine.context e) q = [].
Proof.
  unfold vacant. simpl. intros Hv. destruct (cells _ q) as [|x cs] eqn:Ec; [done|].
  destruct (Hv _ eq_refl) as (p & k & [=]).
Qed.

(** Sampling changes samplers only, of the sequences it samples. *)
Lemma sample_loop_memory todo e steps :
  let e' := (LlamaModelEngine.sample_loop todo e steps).2 in
  model_of (LlamaModelEngine.context e') = model_of (LlamaModelEngine.context e) ∧
  unified (LlamaModelEngine.context e') = unified (LlamaModelEngine.context e) ∧
  (∀ q, cells (LlamaModelEngine.context e') q = cells (LlamaModelEngine.context e) q) ∧
  ∀ q, q ∉ todo.*1 → LlamaModelEngine.samplers e' !! q = LlamaModelEngine.samplers e !! q.
Proof.
  revert e steps. induction todo as [|[q ix] todo IH]; intros e steps; cbn [LlamaModelEngine.sample_loop]; [done|].
  destruct (LlamaModelEngine.samplers e !! q) as [s|]; [|done].
  pose proof (sample_keeps s (LlamaModelEngine.context e) ix) as (K1 & K2 & _ & K3).
  destruct (llama_sampler_sample s (LlamaModelEngine.context e) ix) as [tok [s' c]]. simpl in K1, K2, K3.
  destruct (IH (LlamaModelEngine.set_context (LlamaModelEngine.set_samplers e (<[q := s']> (LlamaModelEngine.samplers e))) c)
    (push_back steps (mkStep q tok (llama_vocab_is_eog (LlamaModelEngine.vocab e) tok)))) as (I1 & I0 & I2 & I3). simpl in I1, I0, I2, I3.
  split_and!; [by rewrite I1|by rewrite I0|intros q'; by rewrite I2|]. rewrite fmap_cons. intros q' [Hq Hq']%not_elem_of_cons.
  rewrite I3 by done. by rewrite lookup_insert_ne.
Qed.

(** When it returns, every sequence has drawn from the logits at its entry. *)
Lemma sample_loop_drawn (g : SeqId → Lg) todo e steps r e' :
  NoDup todo.*1 → (∀ t, t ∈ todo → logits (LlamaModelEngine.context e) t.2 = Some (g t.1)) →
  LlamaModelEngine.sample_loop todo e steps = (Ok r, e') →
  r = steps ++ omap (λ q, s ← LlamaModelEngine.samplers e !! q;
        let tok := (draw s (g q)).1 in Some (mkStep q tok (llama_vocab_is_eog (LlamaModelEngine.vocab e) tok))) todo.*1 ∧
  ∀ q, q ∈ todo.*1 → ∃ s, LlamaModelEngine.samplers e !! q = Some s ∧
    LlamaModelEngine.samplers e' !! q = Some (draw s (g q)).2.
Proof.
  revert e steps. induction todo as [|[q ix] todo IH]; intros e steps Hn Hg; cbn [LlamaModelEngine.sample_loop].
  { intros [= -> ->]. simpl. rewrite app_nil_r. split; [done|]. by intros q ?%not_elem_of_nil. }
  rewrite fmap_cons in *. apply NoDup_cons in Hn as [Hq Hn]. simpl in Hq.
  destruct (LlamaModelEngine.samplers e !! q) as [s|] eqn:Es; [|done].
  pose proof (sample_draws s (LlamaModelEngine.context e) ix (g q) (Hg (q, ix) ltac:(set_solver))) as D.
  pose proof (sample_keeps s (LlamaModelEngine.context e) ix) as (_ & _ & K2 & _).
  destruct (llama_sampler_sample s (LlamaModelEngine.context e) ix) as [tok [s' c]]. simpl in D, K2. intros Hr.
  match type of Hr with LlamaModelEngine.sample_loop _ ?e1 ?st = _ =>
    pose proof (proj2 (proj2 (proj2 (sample_loop_memory todo e1 st))) q Hq) as Hlast end.
  apply IH in Hr as HI; [|done|intros t Ht; simpl; rewrite K2; apply Hg; set_solver]. destruct HI as [I1 I2].
  assert (Hsame : ∀ q', q' ∈ todo.*1 → <[q:=s']> (LlamaModelEngine.samplers e) !! q' = LlamaModelEngine.samplers e !! q')
    by (intros q' Hq'; apply lookup_insert_ne; intros ->; done).
  split.
  - rewrite I1. unfold push_back. rewrite <- app_assoc. f_equal. cbn [omap list_omap fst]. rewrite Es.
    cbn [mbind option_bind]. rewrite <- D. cbn [fst app]. f_equal. simpl. apply omap_same.
    intros q' Hq'. by rewrite Hsame.
  - intros q' [->|Hq']%elem_of_cons.
    + exists s. split; [done|]. rewrite Hr in Hlast. simpl in *.
      rewrite Hlast, lookup_insert_eq. by rewrite <- D.
    + destruct (I2 q' Hq') as (s1 & J1 & J2). exists s1. simpl in J1. by rewrite Hsame in J1.
Qed.

Lemma answered_items items q : q ∈ item_seq <$> LlamaModelEngine.answered items → q ∈ item_seq <$> items.
Proof. intros (i & -> & [_ Hi]%list_elem_of_filter)%list_elem_of_fmap. by apply list_elem_of_fmap_2. Qed.

Lemma answered_nodup items : NoDup (item_seq <$> items) → NoDup (item_seq <$> LlamaModelEngine.answered items).
Proof. apply submseteq_NoDup_fmap, sublist_submseteq, sublist_filter. Qed.

(** [decode] is refused without an effect, or is one call of the backend on entries
    that belong to one sequence each. *)
Lemma decode_split e items :
  LlamaModelEngine.wf e → batch_tokens items < 18446744073709551616 →
  (∃ what, LlamaModelEngine.decode e items = (Throw what, e)) ∨
  ∃ b, LlamaModelEngine.live b = concat (LlamaModelEngine.item_slots <$> items) ∧ one_each b ∧
    let todo := LlamaModelEngine.requested 0 (LlamaModelEngine.live b) in
    todo.*1 = item_seq <$> LlamaModelEngine.answered items ∧
    let (rc, c) := llama_decode (LlamaModelEngine.context e) b in
    let e1 := LlamaModelEngine.set_context (LlamaModelEngine.set_batch e b) c in
    (rc ≠ 0%Z → ∃ what, LlamaModelEngine.decode e items = (Throw what, e1)) ∧
    (rc = 0%Z → LlamaModelEngine.decode e items = LlamaModelEngine.sample_loop todo e1 []).
Proof.
  intros W Hlt. destruct (N.lt_ge_cases (LlamaModelEngine.n_batch_ e) (batch_tokens items)) as [Hb|Hb].
  { left. unfold LlamaModelEngine.decode. rewrite LlamaModelEngine.total_size_small by done.
    rewrite (proj2 (N.ltb_lt _ _) Hb). eauto. }
  right. destruct (LlamaModelEngine.decode_unfold e items W Hb) as (b & B1 & _ & _ & B3 & ->). exists b.
  assert (Ho : one_each b).
  { unfold one_each. rewrite B1. apply Forall_forall. intros s (i & _ & _ & Hs & _)%item_slots_elem. done. }
  split_and!; [done..|]. split; [exact B3|]. destruct (llama_decode _ b) as [rc c]. split.
  - intros Hrc. rewrite (proj2 (Z.eqb_neq rc 0) Hrc). eauto.
  - intros ->. done.
Qed.

Lemma decode_fixture e items : fixture (LlamaModelEngine.decode e items).2 = fixture e.
Proof.
  unfold LlamaModelEngine.decode. destruct (_ <? _); [done|].
  pose proof (LlamaModelEngine.fill_items_room items (mkLBatch 0 (b_slots (LlamaModelEngine.batch e))) []) as Hr.
  destruct (LlamaModelEngine.fill_items _ _ _) as [b todo]. simpl in Hr.
  pose proof (decode_sizes (LlamaModelEngine.context e) b) as Hs. pose proof (decode_model (LlamaModelEngine.context e) b) as [Hm Hu].
  destruct (llama_decode _ b) as [rc c]. simpl in Hs, Hm, Hu. unfold fixture. destruct (negb _); simpl; [congruence|].
  set (e1 := LlamaModelEngine.set_context _ c).
  destruct (LlamaModelEngine.sample_loop_frame todo e1 []) as (-> & -> & -> & -> & ->).
  destruct (sample_loop_memory todo e1 []) as (-> & -> & _). simpl. congruence.
Qed.

Lemma decode_others e items q :
  fit (weights e) → decodable e items → q ∉ item_seq <$> items →
  ctx (LlamaModelEngine.decode e items).2 q = ctx e q.
Proof.
  intros Hfit (_ & _ & Hlt & _) Hq. destruct (decode_split e items Hfit Hlt) as [[what ->]|(b & B1 & B2 & B3 & B4)]; [done|].
  pose proof (decode_apart (LlamaModelEngine.context e) b q B2) as Hc. rewrite B1, cells_for_none in Hc by done.
  specialize (Hc eq_refl). destruct (llama_decode _ b) as [rc c]. simpl in Hc. destruct B4 as [B4 B5].
  destruct (decide (rc = 0%Z)) as [E|E]; [|destruct (B4 E) as [what ->]; simpl; by rewrite Hc].
  rewrite (B5 E). set (todo := LlamaModelEngine.requested _ _) in *. set (e1 := LlamaModelEngine.set_context _ c).
  destruct (sample_loop_memory todo e1 []) as (_ & _ & H1 & H2). simpl. rewrite H1, H2; [simpl; by rewrite Hc|].
  rewrite B3. by intros ?%answered_items.
Qed.

Lemma view_grow cs s c l : view cs s = Some c → view (cs ++ l) s = Some (c.1 ++ l, c.2).
Proof. destruct cs, s; simpl; try done; intros [= <-]; [by destruct l|done|done]. Qed.

Lemma at_end_grown m cs ts pos :
  ts ≠ [] → at_end m (cs ++ laid ts pos) = infer m (upto (pos + Z.of_nat (length ts) - 1)%Z (cs ++ laid ts pos)).
Proof. intros Hts. unfold at_end. destruct (laid_last ts pos Hts) as [tok Hl]. by rewrite last_app, Hl. Qed.

Lemma omap_answered {B} (f : BatchItem → option B) h items :
  (∀ i, i ∈ items → f i = if decide (item_sample i = true ∧ item_tokens i ≠ []) then h (item_seq i) else None) →
  omap h (item_seq <$> LlamaModelEngine.answered items) = omap f items.
Proof.
  induction items as [|i items IH]; intros He; [done|]. unfold LlamaModelEngine.answered in *. cbn [omap list_omap].
  rewrite (He i), <- IH by set_solver. case_decide; [rewrite filter_cons_True by done|by rewrite filter_cons_False].
  by rewrite fmap_cons.
Qed.

Lemma answered_elem items i :
  NoDup (item_seq <$> items) → i ∈ items →
  item_seq i ∈ item_seq <$> LlamaModelEngine.answered items ↔ item_sample i = true ∧ item_tokens i ≠ [].
Proof.
  intros Hn Hi. split.
  - intros (j & Hq & [Ha Hj]%list_elem_of_filter)%list_elem_of_fmap.
    by rewrite (NoDup_fmap_inj _ _ _ _ Hn Hi Hj Hq).
  - intros Ha. apply list_elem_of_fmap_2, list_elem_of_filter. done.
Qed.

(** The logits a batch leaves are those at the end of each sequence. *)
Lemma requested_logits (c c' : C) b items :
  NoDup (item_seq <$> items) → LlamaModelEngine.live b = concat (LlamaModelEngine.item_slots <$> items) → one_each b →
  llama_decode c b = (0%Z, c') →
  (∀ i, i ∈ items → cells c' (item_seq i) = cells c (item_seq i) ++ laid (item_tokens i) (item_pos0 i)) ∧
  ∀ t, t ∈ LlamaModelEngine.requested 0 (LlamaModelEngine.live b) →
    logits c' t.2 = Some (at_end (model_of c) (cells c' t.1)).
Proof.
  intros Hn Hb Ho Hd.
  assert (Hc : ∀ i, i ∈ items → cells c' (item_seq i) = cells c (item_seq i) ++ laid (item_tokens i) (item_pos0 i)).
  { intros i Hi. by rewrite (decode_cells c c' b (item_seq i) Ho Hd), Hb, cells_for_items. }
  split; [done|]. intros [q ix] (k & s & Hk & -> & Hl & <-)%requested_elem.
  simpl. rewrite Z.add_0_l, (decode_logits c c' b k s Ho Hd Hk Hl). apply list_elem_of_lookup_2 in Hk.
  rewrite Hb in Hk. apply item_slots_elem in Hk as (i & Hi & -> & _ & Hs). destruct (Hs Hl) as [Hts ->].
  by rewrite Hc, at_end_grown.
Qed.

(** Every item has its turn. *)
Lemma decode_turns e e' items steps :
  fit (weights e) → decodable e items → LlamaModelEngine.decode e items = (Ok steps, e') →
  steps = omap (λ i, c ← ctx e (item_seq i); (turn (weights e) c i).2) items ∧
  ∀ i c, i ∈ items → ctx e (item_seq i) = Some c → ctx e' (item_seq i) = Some (turn (weights e) c i).1.
Proof.
  intros Hfit (Hn & Hst & Hlt & Hr) Hd. destruct (decode_split e items Hfit Hlt) as [[what E]|(b & B1 & B2 & B3 & B4)]; [congruence|].
  destruct (llama_decode (LlamaModelEngine.context e) b) as [rc c'] eqn:Ed. destruct B4 as [B4 B5].
  destruct (decide (rc = 0%Z)) as [->|E]; [|destruct (B4 E) as [what E']; congruence].
  rewrite (B5 eq_refl) in Hd. destruct (requested_logits _ _ _ _ Hn B1 B2 Ed) as [Hc Hg].
  set (todo := LlamaModelEngine.requested _ _) in *. set (e1 := LlamaModelEngine.set_context _ c') in Hd.
  set (m := model_of (LlamaModelEngine.context e)) in *.
  destruct (sample_loop_memory todo e1 []) as (_ & _ & M1 & M2). rewrite Hd in M1, M2.
  apply (sample_loop_drawn (λ q, at_end m (cells c' q))) in Hd as [D1 D2]; [|rewrite B3; by apply answered_nodup|done].
  rewrite B3 in D1, D2, M2. simpl in *.
  assert (Hturn : ∀ i c, i ∈ items → ctx e (item_seq i) = Some c →
    view (cells c' (item_seq i)) (LlamaModelEngine.samplers e' !! item_seq i) = Some (turn (weights e) c i).1 ∧
    (turn (weights e) c i).2 = if decide (item_sample i = true ∧ item_tokens i ≠ []) then
      s ← LlamaModelEngine.samplers e !! item_seq i; let tok := (draw s (at_end m (cells c' (item_seq i)))).1 in
      Some (mkStep (item_seq i) tok (llama_vocab_is_eog (LlamaModelEngine.vocab e) tok)) else None).
  { intros i c Hi Hic. simpl in Hic. pose proof (answered_elem items i Hn Hi) as Ha. rewrite (Hc i Hi).
    unfold samples_from_tokens in Hst. rewrite Forall_forall in Hst. specialize (Hst i Hi).
    pose proof (view_grow _ _ _ (laid (item_tokens i) (item_pos0 i)) Hic) as Hv. unfold turn. simpl. case_decide as Hx.
    - destruct (D2 (item_seq i)) as (s & S1 & S2); [by apply Ha|]. simpl in S1. rewrite S2, S1 in *. destruct Hx as [-> _].
      assert (c = (cells (LlamaModelEngine.context e) (item_seq i), Some s)) as -> by (destruct (cells _ _); by injection Hic as <-).
      simpl in *. fold m. rewrite (Hc i Hi). generalize (at_end m (cells (LlamaModelEngine.context e) (item_seq i) ++ laid (item_tokens i) (item_pos0 i))). intros lg.
      destruct (draw s lg) as [tok s']. simpl. split; [|done]. by destruct (_ ++ _).
    - rewrite M2 by (by rewrite Ha). destruct (item_sample i); [|done]. destruct Hx. auto. }
  split.
  - rewrite D1. apply omap_answered. intros i Hi. destruct (Hr i Hi) as (c & Hic & _). simpl in Hic. rewrite Hic. cbn [mbind option_bind].
    by apply (Hturn i c).
  - intros i c Hi Hic. rewrite M1. by apply (Hturn i c).
Qed.

(** A copied prefix is what feeding it would have left. *)
Lemma copied_cells (cs : list (Pos * Token)) ts :
  filter (λ x : Pos * Token, (x.1 < Z.of_nat (length ts))%Z) cs = laid ts 0%Z →
  filter (λ x : Pos * Token, (0 ≤ x.1 < Z.of_nat (length ts))%Z) cs = laid ts 0%Z.
Proof.
  intros Hh. transitivity (filter (λ x : Pos * Token, (0 ≤ x.1)%Z) (laid ts 0%Z)).
  - rewrite <- Hh, list_filter_filter. apply list_filter_iff. intros x. lia.
  - apply filter_all, Forall_forall. intros [a b] Hx%laid_elem. simpl in *. lia.
Qed.

Lemma copy_fixture e src dst n : fixture (LlamaModelEngine.copy_sequence e src dst n).2 = fixture e.
Proof.
  unfold LlamaModelEngine.copy_sequence. destruct (_ || _); [done|]. unfold fixture. simpl.
  destruct (seq_cp_model (LlamaModelEngine.context e) src dst 0%Z n) as [-> ->]. by rewrite seq_cp_sizes.
Qed.

Lemma release_fixture e q : fixture (LlamaModelEngine.release_sequence e q) = fixture e.
Proof.
  unfold fixture. simpl. destruct (seq_rm_model (LlamaModelEngine.context e) q (-1)%Z (-1)%Z) as [-> ->]. by rewrite seq_rm_sizes.
Qed.

Lemma copied_ctx e e' src dst n c c0 p ts :
  shares (weights e) → LlamaModelEngine.copy_sequence e src dst n = (Ok tt, e') → (0 ≤ src)%Z → (0 ≤ dst)%Z → src ≠ dst →
  n = Z.of_nat (length ts) → ctx e src = Some c → holds (weights e) c ts → ctx e dst = Some c0 → opens (weights e) p c0 →
  ctx e' dst = Some (feed (weights e) c0 ts 0%Z).
Proof.
  intros Hu Hcp Hs Hd Hne -> Hc [_ Hh] Ho [k ->]. simpl in *. unfold LlamaModelEngine.copy_sequence in Hcp.
  assert (Hdst : cells (LlamaModelEngine.context e) dst = [] ∧
    LlamaModelEngine.samplers e !! dst = Some (LlamaModelEngine.sampler_chain p k))
    by (destruct (cells _ dst), (LlamaModelEngine.samplers e !! dst); simpl in Ho; by simplify_eq).
  assert (Hsrc : c.1 = cells (LlamaModelEngine.context e) src)
    by (destruct (cells _ src), (LlamaModelEngine.samplers e !! src); simpl in Hc; by simplify_eq).
  destruct Hdst as [D1 D2]. rewrite (proj2 (Z.eqb_neq _ _) Hne), orb_false_r in Hcp.
  destruct (Z.leb_spec (Z.of_nat (length ts)) 0); injection Hcp as <-.
  - destruct ts; [|simpl in *; lia]. by rewrite D1, D2.
  - simpl. rewrite seq_cp_prefix, <- Hsrc, copied_cells, D2 by done. by destruct (laid ts 0%Z).
Qed.

(** Greedy and seeded requests have one sampler. *)
Lemma sampler_chain_seeded p k k' :
  SFleb (temperature p) LlamaModelEngine.f32_zero = true ∨ seed p ≠ 0 ∧ seed p ≠ LLAMA_DEFAULT_SEED →
  LlamaModelEngine.sampler_chain p k = LlamaModelEngine.sampler_chain (HA := HA) p k'.
Proof.
  unfold LlamaModelEngine.sampler_chain. intros [->|[Hs Hd]]; [done|]. destruct (SFleb _ _); [done|].
  rewrite (proj2 (N.eqb_neq _ _) Hs). by rewrite (dist_seeded (seed p) k k' Hd).
Qed.

#[export] Instance llama_seq_laws : SeqLaws (LlamaModelEngine.t M V C S) Fixture (list (Pos * Token) * option S).
Proof.
  split; simpl.
  - done.
  - done.
  - done.
  - intros e q p. split; [done|]. intros q' Hq. simpl. by rewrite lookup_insert_ne.
  - intros e e' q p Hv%llama_vacant [= <-]. simpl. rewrite Hv, lookup_insert_eq. eexists. split; [done|by eexists].
  - apply release_fixture.
  - intros e q Hq. split; [apply release_fixture|]. intros q' Hne. simpl.
    by rewrite seq_rm_all, decide_False, lookup_delete_ne.
  - intros e q Hq c. simpl. by rewrite seq_rm_all, decide_True, lookup_delete_eq.
  - apply copy_fixture.
  - intros e src dst n Hu Hs Hd. split; [apply copy_fixture|]. intros q Hq. unfold LlamaModelEngine.copy_sequence.
    destruct (_ || _); [done|]. simpl. by rewrite seq_cp_apart.
  - intros e e' src dst n c c0 p ts. apply copied_ctx.
  - apply decode_fixture.
  - apply decode_others.
  - apply decode_turns.
  - intros w [cs s] pos. simpl. by rewrite app_nil_r.
  - intros w [cs s] ts us pos. simpl. by rewrite <- app_assoc, laid_app.
  - intros w p c c' Hs [k ->] [k' ->]. do 2 f_equal. by apply sampler_chain_seeded.
  - intros w p c ts [k ->]. split; [done|]. apply filter_all, Forall_forall. intros [a b] Hx%laid_elem. simpl in *. lia.
  - intros w [cs s] ts us pos Hp [? Hh]. simpl in *. split; [done|]. rewrite filter_app, Hh, filter_none; [apply app_nil_r|].
    apply Forall_forall. intros [a b] Hx%laid_elem. simpl in *. lia.
  - intros w [cs [s|]] ts [? Hh]; [|done]. simpl. by destruct (draw s _).
  - intros w [cs s] ts us [vs ->] [? Hh]. split; [done|]. simpl in *.
    transitivity (filter (λ x : Pos * Token, (x.1 < Z.of_nat (length us))%Z) (laid (us ++ vs) 0%Z)).
    + rewrite <- Hh, list_filter_filter_l; [done|]. intros x. rewrite length_app. lia.
    + rewrite laid_app, filter_app, filter_all, filter_none; [apply app_nil_r| |]; apply Forall_forall; intros [a b] Hx%laid_elem; simpl in *; lia.
Qed.

End Engine.

(** ** A scheduler over llama.cpp *)

Section Scheduler.
Context {M V C S Lg : Type} `{HA : LlamaApi M V C S} `{HL : !LlamaLaws M V C S} `{!LlamaSeqs M C S Lg} `{HS : !LlamaSeqLaws M V C S Lg} `{HX : !LlamaExact M V C S Lg}.
Variable clock : nat → TimePoint.

(** The backend decodes whatever batch of tokens it is given. *)
Definition tireless : Prop := ∀ (c : C) b, (0 < b_n_tokens b)%Z → (llama_decode c b).1 = 0%Z.

(** The engine decodes what the backend decodes. *)
Lemma decode_returns (e : LlamaModelEngine.t M V C S) its :
  fit (weights e) → decodable e its → batch_tokens its ≤ n_batch (caps e) →
  (∀ b, LlamaModelEngine.live b = concat (LlamaModelEngine.item_slots <$> its) → one_each b →
     b_n_tokens b = Z.of_N (batch_tokens its) → (llama_decode (LlamaModelEngine.context e) b).1 = 0%Z) →
  ∃ steps e', LlamaModelEngine.decode e its = (Ok steps, e').
Proof.
  intros Hfit (_ & _ & _ & Hr) Hle Ht. simpl in Hle. pose proof (fit_wf e Hfit) as [Hnb W]. rewrite <- Hnb in Hle.
  destruct (LlamaModelEngine.decode_unfold e its (conj Hnb W) Hle) as (b & B1 & B2 & _ & B3 & ->).
  assert (Ho : one_each b).
  { unfold one_each. rewrite B1. apply Forall_forall. intros s (i & _ & _ & Hs & _)%item_slots_elem. done. }
  specialize (Ht b B1 Ho B2). destruct (llama_decode (LlamaModelEngine.context e) b) as [rc c].
  simpl in Ht. subst rc. simpl. apply LlamaModelEngine.sample_loop_ok.
  rewrite B3. apply Forall_forall. intros q (i & -> & Hi)%answered_items%list_elem_of_fmap. simpl.
  destruct (Hr i Hi) as (c0 & Hc0 & [[s Hs] _]). simpl in Hc0.
  destruct (cells _ _), (LlamaModelEngine.samplers e !! item_seq i) eqn:Es; simpl in Hc0; simplify_eq; simpl in *; eauto.
Qed.

Lemma tireless_decodes : tireless → ¬ broke (E := LlamaModelEngine.t M V C S).
Proof.
  intros Ht (e & e' & its & what & Hfit & Hr & [Hpos Hle] & Hd).
  destruct (decode_returns e its Hfit Hr Hle) as (steps & e2 & E2).
  - intros b _ _ Hb. apply Ht. lia.
  - pose proof (eq_trans (eq_sym Hd) E2). done.
Qed.

(** What the modes ask for, in terms of the backend and its configuration. *)
Definition llama_mode_fits (lcfg : LlamaModelEngine.LlamaEngineConfig) (K : N) (steps : nat)
    (w : t (LlamaModelEngine.t M V C S)) : Prop :=
  match mode (config_ w) with
  | kStatic => (N.to_nat K + 2 ≤ steps)%nat
  | kContinuous =>
      (prefix_caching (config_ w) = true → LlamaModelEngine.kv_unified lcfg = true ∧ prompts_apart w) ∧
      (prefix_donors (config_ w) ≠ 0 → tireless)
  end.

(** The constructor leaves an engine without sequences. *)
Lemma make_vacant cfg (e : LlamaModelEngine.t M V C S) q :
  LlamaModelEngine.make cfg = Ok e → ctx e q = None.
Proof.
  unfold LlamaModelEngine.make. destruct (llama_model_load_from_file _ _) as [m|]; [|done].
  destruct (llama_init_from_model _ _) as [c|] eqn:Ei; [|done]. intros [= <-]. simpl.
  destruct (init_cells _ _ _ Ei) as [_ Hc]. by rewrite Hc.
Qed.

(** ... with the cache its configuration asks for. *)
Lemma make_unified cfg (e : LlamaModelEngine.t M V C S) :
  LlamaModelEngine.make cfg = Ok e → fx_unified (fixture e) = LlamaModelEngine.kv_unified cfg.
Proof.
  unfold LlamaModelEngine.make. destruct (llama_model_load_from_file _ _) as [m|]; [|done].
  destruct (llama_init_from_model _ _) as [c|] eqn:Ei; [|done]. intros [= <-]. by destruct (init_cells _ _ _ Ei) as [Hu _].
Qed.

Lemma llama_proper lcfg K (w : t (LlamaModelEngine.t M V C S)) :
  LlamaModelEngine.make lcfg = Ok (engine_ w) → n_batch (caps (engine_ w)) < 2147483648 →
  fresh K w → K < 2147483648 → max_batch_size (config_ w) ≤ 2147483648 →
  (∀ req, req ∈ incoming w →
     LlamaModelEngine.text_tokens (LlamaModelEngine.vocab (engine_ w)) (Types.prompt (req_spec req)) true ≠ []) →
  proper K w.
Proof.
  intros Hm Hnb F HK HM Hne. split; try done.
  - by apply (LlamaModelEngine.make_wf lcfg).
  - intros q c. by rewrite (make_vacant lcfg).
Qed.


End Scheduler.

(** ** A small backend that keeps cells

    It has room for 64 cells and refuses what does not fit.  The next token depends on
    all tokens up to the position, and a sequence of twelve cells ends. *)
Module CellLlama.

Record Ctx := mkCtx {
  width : N;
  whole : bool;
  kv : list (SeqId * (Pos * Token));
  outs : list (option Token) }.

Definition cells_in (l : list (SeqId * (Pos * Token))) (q : SeqId) : list (Pos * Token) :=
  snd <$> filter (λ x, x.1 = q) l.

Definition next (cs : list (Pos * Token)) : Token :=
  if (12 <=? len cs) then 2%Z else ((foldr Z.add 0 cs.*2 * 7 + Z.of_N (len cs)) mod 26 + 97)%Z.

Definition entry (s : Slot) : SeqId * (Pos * Token) := (s_seq_id s, (s_pos s, s_token s)).

Definition out (l : list (SeqId * (Pos * Token))) (s : Slot) : option Token :=
  if (s_logits s =? 1)%Z then Some (next (upto (s_pos s) (cells_in l (s_seq_id s)))) else None.

Definition decode (c : Ctx) (b : llama_batch) : Z * Ctx :=
  let l := kv c ++ (entry <$> LlamaModelEngine.live b) in
  if (b_n_tokens b <=? 0)%Z then ((-1)%Z, c)
  else if 64 <? len l then (1%Z, c)
  else (0%Z, mkCtx (width c) (whole c) l (out l <$> LlamaModelEngine.live b)).

Definition output (c : Ctx) (i : Z) : option Token :=
  if (i <? 0)%Z then None else mjoin (outs c !! Z.to_nat i).

Definition seq_rm (c : Ctx) (q : SeqId) : Ctx :=
  mkCtx (width c) (whole c) (if (q <? 0)%Z then [] else filter (λ x, x.1 ≠ q) (kv c)) (outs c).

(** Without a unified cache the copy aborts the process. *)
Definition seq_cp (c : Ctx) (src dst : SeqId) (p0 p1 : Pos) : Ctx :=
  if whole c then
    mkCtx (width c) true (kv c ++ (pair dst <$> filter (λ x : Pos * Token, (p0 ≤ x.1 < p1)%Z) (cells_in (kv c) src))) (outs c)
  else mkCtx (width c) false [] [].

#[global] Instance cell_api : LlamaApi unit unit Ctx (list ToyLlama.Stage) := {
  llama_model_load_from_file path layers := match path with [] => None | _ => Some tt end;
  llama_model_get_vocab m := m;
  llama_init_from_model m cp := Some (mkCtx (cp_n_batch cp) (cp_kv_unified cp) [] []);
  llama_vocab_eos v := 2%Z;
  llama_vocab_is_eog v tok := (tok =? 2)%Z;
  llama_n_ctx c := 64;
  llama_n_batch c := width c;
  llama_n_seq_max c := 8;
  llama_n_ctx_seq c := 64;
  llama_batch_init n := replicate (Z.to_nat n) (mkSlot 0 0 0 0 0)%Z;
  llama_tokenize v text size n add parse := ToyLlama.sized (ToyLlama.full text add) n;
  llama_token_to_piece v tok n lstrip special := ToyLlama.sized (ToyLlama.render tok) n;
  llama_sampler_chain_init := [ToyLlama.Chain];
  llama_sampler_chain_add c s := c ++ s;
  llama_sampler_init_penalties n p f q := [ToyLlama.Penalties p];
  llama_sampler_init_greedy := [ToyLlama.Greedy];
  llama_sampler_init_top_k k := [ToyLlama.TopK k];
  llama_sampler_init_top_p p n := [ToyLlama.TopP p];
  llama_sampler_init_temp f := [ToyLlama.Temp f];
  llama_sampler_init_dist s k := [ToyLlama.Dist (if s =? 4294967295 then N.of_nat k else s)];
  LLAMA_DEFAULT_SEED := 4294967295;
  llama_decode := decode;
  llama_sampler_sample s c i := (default 0%Z (output c i), (s, c));
  llama_memory_seq_rm c q p0 p1 := seq_rm c q;
  llama_memory_seq_cp := seq_cp }.

#[global] Instance cell_sizes : LlamaLaws unit unit Ctx (list ToyLlama.Stage).
Proof.
  split; try done; [|unfold sizes; simpl; unfold seq_cp; intros c q q' p0 p1; by destruct (whole c)|intros n _; apply length_replicate].
  intros c b. simpl. unfold decode. destruct (_ <=? _)%Z; [done|]. by destruct (_ <? _).
Qed.

#[global] Instance cell_seqs : LlamaSeqs unit Ctx (list ToyLlama.Stage) Token := {
  cells c := cells_in (kv c);
  model_of c := tt;
  unified := whole;
  infer m := next;
  logits := output;
  draw s lg := (lg, s) }.

Lemma cells_in_app l l' q : cells_in (l ++ l') q = cells_in l q ++ cells_in l' q.
Proof. unfold cells_in. by rewrite filter_app, fmap_app. Qed.

Lemma cells_in_entries l q : cells_in (entry <$> l) q = cells_for q l.
Proof.
  unfold cells_in, cells_for. induction l as [|s l IH]; [done|]. rewrite fmap_cons.
  destruct (decide (s_seq_id s = q)); [rewrite !filter_cons_True by done|by rewrite !filter_cons_False].
  rewrite !fmap_cons. by f_equal.
Qed.

Lemma cells_in_rm l q q' : cells_in (filter (λ x, x.1 ≠ q) l) q' = if decide (q' = q) then [] else cells_in l q'.
Proof.
  unfold cells_in. rewrite list_filter_filter. case_decide as Hq.
  - rewrite filter_none; [done|]. apply Forall_forall. intros x _ [? ?]. congruence.
  - f_equal. apply list_filter_iff. intros x. naive_solver.
Qed.

Lemma cells_in_pair cs q q' : cells_in (pair q <$> cs) q' = if decide (q' = q) then cs else [].
Proof.
  unfold cells_in. induction cs as [|x cs IH]; [by case_decide|]. rewrite fmap_cons. case_decide as Hq.
  - rewrite filter_cons_True, fmap_cons by done. by f_equal.
  - by rewrite filter_cons_False by (simpl; congruence).
Qed.

#[global] Instance cell_laws : LlamaSeqLaws unit unit Ctx (list ToyLlama.Stage) Token.
Proof.
  split; simpl; try done.
  - by intros m cp c [= <-].
  - intros c b. unfold decode. by split_ifs.
  - intros c c' b q _. unfold decode. split_ifs; intros [= <-]. simpl. by rewrite cells_in_app, cells_in_entries.
  - intros c b q _ Hq. unfold decode. split_ifs; try done. simpl. by rewrite cells_in_app, cells_in_entries, Hq, app_nil_r.
  - intros s c i lg ->. done.
  - intros c q q' Hq. rewrite (proj2 (Z.ltb_ge _ _)) by done. apply cells_in_rm.
  - intros c q q' p0 p1. unfold seq_cp. by destruct (whole c).
  - intros c src dst n q Hu _ _ Hq. unfold seq_cp. rewrite Hu. simpl. by rewrite cells_in_app, cells_in_pair, decide_False, app_nil_r.
  - intros c src dst n Hu _ _ Hne Hd. unfold seq_cp. rewrite Hu. simpl. by rewrite cells_in_app, Hd, cells_in_pair, decide_True.
  - intros sd k k' Hsd. by rewrite (proj2 (N.eqb_neq _ _) Hsd).
Qed.

#[global] Instance cell_exact : LlamaExact unit unit Ctx (list ToyLlama.Stage) Token.
Proof.
  intros c c' b i s _. simpl. unfold decode. split_ifs; intros [= <-] Hi Hl. unfold output. simpl.
  rewrite (proj2 (Z.ltb_ge _ _)), Nat2Z.id, list_lookup_fmap, Hi by lia. simpl. unfold out. by rewrite Hl.
Qed.

Definition model_config : LlamaModelEngine.LlamaEngineConfig :=
  LlamaModelEngine.mkConfig (str "m.gguf") 64 16 8 1 0%Z true.

(** An engine as the constructor leaves it. *)
Definition e0 : LlamaModelEngine.t unit unit Ctx (list ToyLlama.Stage) :=
  LlamaModelEngine.mk tt (mkCtx 16 true [] []) tt (mkLBatch 0 (replicate 16 (mkSlot 0 0 0 0 0)%Z)) 2%Z 16 ∅ 0.

(** Three requests with a common prefix, two at a time. *)
Definition shared : t (LlamaModelEngine.t unit unit Ctx (list ToyLlama.Stage)) :=
  make e0 (RequestQueue.make 8) (mkConfig 2 kContinuous 0 4 0 true 3)
    (demo_env [[ASubmit (demo_req 1 "ab" 20)]; []; []; [ASubmit (demo_req 2 "abc" 20)]; [ASubmit (demo_req 3 "abd" 3)]; [AClose]]).

Lemma shared_incoming : incoming shared = [demo_req 1 "ab" 20; demo_req 2 "abc" 20; demo_req 3 "abd" 3].
Proof. vm_compute. reflexivity. Qed.

Lemma prompt_tokens (e : LlamaModelEngine.t unit unit Ctx (list ToyLlama.Stage)) s :
  (tokenize e s true).1 = LlamaModelEngine.text_tokens tt s true.
Proof. destruct e as [m c [] b z n sm k]. reflexivity. Qed.

Lemma shared_fresh : fresh 32 shared.
Proof.
  split; [vm_compute; reflexivity..|]. rewrite shared_incoming.
  repeat constructor; intros e; rewrite prompt_tokens; vm_compute; discriminate.
Qed.

Lemma shared_fits : llama_mode_fits model_config 32 0 shared.
Proof.
  split; [|by intros ?]. intros _. split; [done|]. apply (apart_upto_apart _ 31), (bool_decide_unpack (apart_upto shared 31)). vm_compute. exact I.
Qed.


End CellLlama.
