(* ===== verification/LlamaMemory.v ===== *)
(** The blocks the scheduler accounts for bound the memory llama.cpp uses.

    The block allocator only counts: the cells are in the KV memory of llama.cpp, which
    refuses a batch it has no cells for.  [TransparentRun.v] knows what the context of
    every running sequence has been fed, and [Capacity.v] that its tokens have blocks.
    Put together, without prefix caching, the cells of all sequences and those of the
    next batch stay within the blocks in use; when the pool is no larger than the
    context, a backend that decodes what it has cells for decodes every batch, under any
    pressure and preemption. *)
From Stdlib Require Import Permutation Lia.
From stdpp Require Import base list gmap strings.
From S2P Require Import Prelude Types Blocks Tables Prefix Timing Engine Sinks Sequence Mock Generator Queue Scheduler Continuous Static Demo Conservation Batching Pressure StaticRun KvAccounting ContinuousRun LlamaEngine Serve Alone Transparency Capacity TransparentRun StaticTransparency CalmRun Transparent LlamaAlone.

Local Open Scope N_scope.

Import Scheduler Continuous.

(** ** Sums *)

Definition total {A} (f : A → N) (l : list A) : N := fold_right N.add 0 (f <$> l).

Lemma total_cons {A} (f : A → N) x l : total f (x :: l) = f x + total f l.
Proof. done. Qed.

Lemma total_app {A} (f : A → N) l k : total f (l ++ k) = total f l + total f k.
Proof. induction l as [|x l IH]; [done|]. rewrite <- app_comm_cons, !total_cons, IH. lia. Qed.

#[global] Instance total_proper {A} (f : A → N) : Proper ((≡ₚ) ==> (=)) (total f).
Proof. intros l k P. induction P; rewrite ?total_cons; lia. Qed.

Lemma total_le {A} (f g : A → N) l : (∀ x, x ∈ l → f x ≤ g x) → total f l ≤ total g l.
Proof.
  induction l as [|x l IH]; intros Hl; [done|]. rewrite !total_cons.
  specialize (IH (λ y Hy, Hl y (list_elem_of_further _ _ _ Hy))). specialize (Hl x (list_elem_of_here _ _)). lia.
Qed.

Lemma total_ext {A} (f g : A → N) l : (∀ x, x ∈ l → f x = g x) → total f l = total g l.
Proof. intros Hl. apply N.le_antisymm; apply total_le; intros x Hx; by rewrite (Hl x Hx). Qed.

Lemma total_fmap {A B} (f : B → N) (g : A → B) l : total f (g <$> l) = total (λ x, f (g x)) l.
Proof. unfold total. by rewrite <- list_fmap_compose. Qed.

(** ** Jobs that end without having run *)

Section Loop.
Context {E : Type} `{IModelEngine E}.
Variable clock : nat → TimePoint.

(** When a batch is built the only jobs that have ended are those refused when they were
    made: they have submitted nothing. *)
Definition newborn (j : Job) : Prop := job_finished j = true → SequenceState.prefilled_ (job_state j) = 0.

Lemma make_job_prefilled (w w' : t E) req seq job :
  make_job w req seq = (Ok job, w') → SequenceState.prefilled_ (job_state job) = 0.
Proof.
  unfold make_job. destruct (new_ptr w) as [ptr w1]. destruct (match req_sink req with Some k => (k, w1) | None => _ end) as [sink w2].
  destruct (tokenize _ _ _) as [prompt e1]. destruct (begin_sequence _ _ _) as [[u|what] e2]; [|done].
  intros [= <- _]. simpl. by destruct (_ && _).
Qed.

Lemma reserve_state (w : t E) act job : job_state (reserve w act job).2.2 = job_state job.
Proof.
  unfold reserve. destruct (job_finished job); [done|]. destruct (_ <=? _); [|done].
  by destruct (BlockTable.ensure_capacity _ _ _) as [[ok a] tb].
Qed.

Lemma share_prefix_newborn (w w' : t E) job job' : share_prefix w job = (Ok job', w') → newborn job → newborn job'.
Proof.
  unfold share_prefix. destruct (_ && negb (job_finished job)) eqn:Eg; [|by intros [= <- _]]. bool_hyps.
  destruct (PrefixCache.find_longest _ _ _) as [[hit|] c]; [|by intros [= <- _]].
  destruct (_ =? _)%Z; [by intros [= <- _]|]. destruct (copy_sequence _ _ _ _) as [[u|what] e]; [|done].
  destruct (BlockTable.adopt_shared_prefix _ _ _ _) as [a tb]. intros [= <- _] _ Hf. change (job_finished job = true) in Hf. congruence.
Qed.

Lemma admit_loop_newborn (w : t E) act (slots : list SeqId) pend l' :
  Forall newborn act → admit_loop clock w act slots pend = (Ok tt, l') → Forall newborn (active l').
Proof.
  revert w act slots. induction pend as [|req pend IH]; intros w act slots Hn; cbn [admit_loop]; [by intros [= <-]|].
  destruct (back slots) as [slot|]; [|by intros [= <-]]. unfold admit_one.
  destruct (make_job w req slot) as [[job|what] w1] eqn:Em; [|done]. apply make_job_prefilled in Em.
  pose proof (reserve_state w1 act job) as Rs. destruct (reserve w1 act job) as [[|] [w2 job1]]; simpl in Rs.
  - destruct (share_prefix w2 job1) as [[job2|what] w3] eqn:Es; [|done].
    apply share_prefix_newborn in Es; [|intros _; by rewrite Rs]. apply IH. unfold push_back. apply Forall_app. split; [done|].
    constructor; [exact Es|done].
  - destruct act as [|a act]; [destruct (finish_job _ _); by apply IH|by intros [= <-]].
Qed.

Lemma iterates_newborn nb (l l' : Loop E) :
  rtc (iterates clock nb) l l' → Forall newborn (active l) → Forall newborn (active l').
Proof.
  induction 1 as [|l l1 l' St _ IH]; [done|]. intros _. apply IH. unfold iterates, iterate in St.
  assert (Hadv : ∀ l2, Forall newborn (active (advance clock nb l2))).
  { intros l2. unfold advance. destruct (decode_accept _ _ _ _) as [[w act] short]. simpl. unfold sweep_all at 1.
    set (l3 := resolve _ _). pose proof (sweep_spec clock (sched l3) (free_slots l3) (active l3)) as Sw.
    destruct (sweep _ _ _ _) as [[w' slots] act']. destruct Sw as (_ & _ & _ & _ & ->). simpl.
    apply Forall_forall. intros j [Hf _]%list_elem_of_filter Hf'. congruence. }
  destruct (take_work _ _ _ _) as [[pend|] w]; [|done].
  destruct (active l) as [|j act], pend as [|r pend']; [done|..];
    (destruct (admit_loop _ _ _ _ _) as [[u|what] l2]; [|done]); (destruct (active l2) eqn:Ea; injection St as <-);
    [by rewrite Ea|apply Hadv|by rewrite Ea|apply Hadv|by rewrite Ea|apply Hadv].
Qed.

End Loop.

(** ** What a context holds *)

(** The tokens a sequence has fed. *)
Definition stored (j : Job) : N :=
  if job_finished j then 0
  else if job_prefilling j then SequenceState.prefilled_ (job_state j)
  else len (SequenceState.prompt_ (job_state j)) + Types.completion_tokens (job_usage j) - 1.

Section Fed.
Context {E W C : Type} `{IModelEngine E} `{!SeqModel E W C} `{!SeqLaws E W C}.
Variable w0 : W.

Lemma tracked_stored (e : E) j : tracked w0 e j → newborn j → ∃ c, ctx e (job_seq j) = Some c ∧ grown w0 c (stored j).
Proof.
  intros ((_ & T2 & Hne & _) & c & Hc & Tr) Hb. exists c. split; [done|]. unfold stored. destruct (job_finished j) eqn:Ef.
  - specialize (Hb Ef). destruct Tr as [_ [Hp|[_ Hg]]]; [|done]. unfold job_prefilling in Hp. rewrite prefilling_spec, Hb, T2 in Hp.
    bool_hyps. destruct (toks w0 (req_spec (job_request j))); [done|]. rewrite len_cons in Hp. lia.
  - destruct Tr as [I [_ Tr]]. unfold job_prefilling. destruct (SequenceState.prefilling (job_state j)).
    + destruct Tr as ((c0 & Ho & ->) & _). pose proof (SequenceState.inv_prefilled _ I) as Hle.
      pose proof (grown_feed w0 _ 0 (take (N.to_nat (SequenceState.prefilled_ (job_state j))) (SequenceState.prompt_ (job_state j)))
        (grown_opened w0 _ _ Ho)) as G.
      unfold len in G. rewrite length_take in G. unfold len in Hle. by replace (0 + N.of_nat _) with (SequenceState.prefilled_ (job_state j)) in G by lia.
    + by destruct Tr as (_ & _ & Hg & _).
Qed.

Context {K L : N} {first : Z} {brief : RequestSpec → Prop}.
Notation fits := (@fits K L first brief).
Hypothesis HK : K < 4294967296.

(** An item finds its tokens within those of its job, and within the context of one
    sequence. *)
Lemma serves_stored (e : E) j i :
  tracked w0 e j → fits j → serves j i →
  stored j + len (item_tokens i) ≤ job_tokens j ∧
  (n_ctx_seq (caps_of w0) = 0 ∨ stored j + len (item_tokens i) ≤ n_ctx_seq (caps_of w0)).
Proof.
  intros ((T1 & T2 & Hne & _) & c & _ & Tr) F [Hf Sv]. rewrite Hf in Tr. destruct Tr as [I [Hsu Tr]]. unfold stored. rewrite Hf.
  pose proof F as [_ _ F3 F4 F5 _ _ _]. unfold job_tokens. rewrite F3, add32_small by lia. unfold suits in Hsu. rewrite T1 in Hsu.
  set (p := len (SequenceState.prompt_ (job_state j))) in *. assert (Hp : 0 < p).
  { unfold p. rewrite T2. destruct (toks w0 _); [done|]. rewrite len_cons. lia. }
  destruct Sv as [[Hg ->]|[Hg (n & Hn & ->)]]; rewrite Hg; unfold job_prefilling in Hg; rewrite Hg in Tr.
  - destruct Tr as (_ & Hc & _). simpl. rewrite len_cons, len_nil. unfold job_usage in *. split; [lia|]. destruct Hsu; [by left|right; lia].
  - destruct (chunk_len (job_state j) n ltac:(lia)) as [-> _]. unfold SequenceState.prefill_remaining in Hn. fold p in Hn.
    split; [lia|]. destruct Hsu; [by left|right; lia].
Qed.

Lemma stored_tokens (e : E) j : tracked w0 e j → fits j → job_finished j = false → stored j ≤ job_tokens j.
Proof.
  intros (_ & c & _ & Tr) F Hf. rewrite Hf in Tr. destruct Tr as [I _]. pose proof (SequenceState.inv_prefilled _ I).
  pose proof F as [_ _ F3 F4 F5 _ _ _]. unfold job_tokens, stored. rewrite Hf, F3, add32_small by lia. destruct (job_prefilling j); lia.
Qed.

(** What the running sequences have fed, with the batch, are the tokens they account for. *)
Lemma batch_stored (e : E) act b act' duty :
  assigned act b act' duty → (∀ j, j ∈ act → tracked w0 e j ∧ fits j) →
  total stored act + batch_tokens (items b) ≤ resident act.
Proof.
  intros A Ht. pose proof (as_serves _ _ _ _ A) as Sv. rewrite (as_items _ _ _ _ A).
  destruct (submseteq_Permutation _ _ (as_jobs _ _ _ _ A)) as [k Hk].
  assert (Hres : resident act = resident (duty.*1 ++ k)).
  { unfold resident. change (total job_tokens (filter (λ j, job_finished j = false) act) =
      total job_tokens (filter (λ j, job_finished j = false) (duty.*1 ++ k))). by rewrite Hk. }
  rewrite Hres, Hk. assert (Ht' : ∀ j, j ∈ duty.*1 ++ k → tracked w0 e j ∧ fits j) by (intros j; rewrite <- Hk; apply Ht).
  clear Hk Hres A Ht. induction duty as [|[j i] duty IH]; [simpl|rewrite !fmap_cons, <- app_comm_cons in *; cbn [fst snd] in *].
  - clear Sv. unfold resident. rewrite N.add_0_r. induction k as [|j k IH]; [done|]. specialize (IH ltac:(intros; apply Ht'; set_solver)).
    destruct (Ht' j ltac:(set_solver)) as [T F]. rewrite total_cons.
    destruct (decide (job_finished j = false)) as [Hf|Hf]; [rewrite filter_cons_True by done|rewrite filter_cons_False by done].
    + pose proof (stored_tokens e j T F Hf). rewrite fmap_cons. cbn [fold_right]. lia.
    + unfold stored at 1. destruct (job_finished j); [lia|done].
  - apply Forall_cons in Sv as [Sv Svs]. simpl in Sv. specialize (IH Svs ltac:(intros; apply Ht'; set_solver)).
    destruct (Ht' j ltac:(set_solver)) as [T F]. pose proof (serves_stored e j i T F Sv) as [Hs _].
    rewrite total_cons, batch_tokens_cons. unfold resident in *. rewrite filter_cons_True by apply Sv. rewrite fmap_cons. cbn [fold_right]. lia.
Qed.

End Fed.

(** ** The loop, when a batch is built *)

Section Scheduler.
Context {E W C : Type} `{IModelEngine E} `{!SeqModel E W C} `{!SeqLaws E W C}.
Variable clock : nat → TimePoint.

(** The invariants of the other files hold together at that point. *)
Lemma assembled_invariants K (w : t E) (l l1 : Loop E) :
  proper K w → prefix_caching (config_ w) = false → prefix_donors (config_ w) = 0 →
  quota K (block_size (config_ w)) ≤ kv_blocks (config_ w) →
  rtc (iterates clock (n_batch (caps (engine_ w)))) (init w) l → assembles clock l l1 →
  tidy (K := K) (T := kv_blocks (config_ w)) (bs := block_size (config_ w)) (L := table_limit (config_ w) K)
    (donors := prefix_donors (config_ w)) (brief := within K (E := E)) (config_ w) l1 ∧
  faithful (donors := prefix_donors (config_ w)) (config_ w) (weights (engine_ w)) (asks_of w) l1 ∧
  snug (bs := block_size (config_ w)) (config_ w) [] (active l1) ∧ Forall newborn (active l1).
Proof.
  intros P Hcache HD Hq R As. pose proof (proper_fresh _ _ P) as F. pose proof (fresh_limits K w F) as Lim.
  destruct (assembles_course clock K w l l1 P ltac:(congruence) (λ Hd, False_ind _ (Hd HD)) R As) as [Td1 F1].
  assert (Sn : snug (bs := block_size (config_ w)) (config_ w) [] (active (init w)))
    by (split; [intros j Hj; by apply not_elem_of_nil in Hj|constructor]).
  destruct (iterates_snug (brief := within K) clock (config_ w) (λ _ Hs, Hs) (fresh_share K w) eq_refl (fresh_width _ _ F)
    (fresh_batch _ _ F) HD Hq _ _ _ R (fresh_tidy K w F) Sn) as [Td0 Sn0].
  destruct (assembles_snug (brief := within K) clock (config_ w) (λ _ Hs, Hs) (fresh_share K w) eq_refl (fresh_width _ _ F)
    (fresh_batch _ _ F) HD Hq l l1 Td0 Sn0 As) as (_ & _ & _ & Sn1).
  split_and!; [done|done|done|]. destruct As as (pend & w1 & _ & Ea).
  eapply admit_loop_newborn; [|exact Ea]. eapply iterates_newborn; [exact R|constructor].
Qed.

(** What every engine with independent sequences has been fed at that point. *)
Lemma assembled_memory K (w : t E) (l l1 : Loop E) :
  let nb := n_batch (caps (engine_ w)) in
  let bs := block_size (config_ w) in
  let w0 := weights (engine_ w) in
  proper K w → prefix_caching (config_ w) = false → prefix_donors (config_ w) = 0 →
  quota K bs ≤ kv_blocks (config_ w) → rtc (iterates clock nb) (init w) l → assembles clock l l1 →
  let its := items (build_batch nb (prefill_chunk (config_ w)) (active l1)).1 in
  weights (engine_ (sched l1)) = w0 ∧ config_ (sched l1) = config_ w ∧ batch_tokens its ≤ nb ∧
  (∀ q, q ∉ job_seq <$> active l1 → vacant (engine_ (sched l1)) q) ∧
  (∀ j, j ∈ active l1 → ∃ c, ctx (engine_ (sched l1)) (job_seq j) = Some c ∧ grown w0 c (stored j)) ∧
  total stored (active l1) + batch_tokens its ≤ bs * kv_blocks (config_ w) ∧
  (∀ i, i ∈ its → ∃ j, j ∈ active l1 ∧ job_seq j = item_seq i ∧
     (n_ctx_seq (caps_of w0) = 0 ∨ stored j + len (item_tokens i) ≤ n_ctx_seq (caps_of w0))) ∧
  NoDup (job_seq <$> active l1) ∧
  (its ≠ [] → fit (weights (engine_ (sched l1))) ∧ decodable (engine_ (sched l1)) its ∧ 0 < batch_tokens its).
Proof.
  intros nb bs w0 P Hcache HD Hq R As its. pose proof (proper_fresh _ _ P) as F. pose proof (fresh_limits K w F) as Lim.
  destruct (assembled_invariants K w l l1 P Hcache HD Hq R As) as ([I V _ _] & [Hh Hso Hv _] & Sn & Hb).
  pose proof (s_jobs _ _ _ _ Hso) as Tr. pose proof (kv_jobs _ _ _ _ V) as Fs. rewrite Forall_forall in Tr, Fs, Hb.
  pose proof (build_batch_assigned nb (prefill_chunk (config_ w)) (active l1) (inv_ptrs _ _ I)) as B.
  pose proof (build_batch_fits nb (prefill_chunk (config_ w)) (active l1)) as Bf. unfold its in *.
  destruct (build_batch _ _ _) as [b act1]. destruct B as (duty & A). simpl in *. pose proof (fresh_K _ _ F) as HK.
  pose proof (inv_load _ _ I) as Hload. pose proof (fresh_width _ _ F).
  destruct (resident_fits (brief := within K) (config_ w) (fresh_share K w) eq_refl (fresh_width _ _ F) (fresh_batch _ _ F) HD Hq
    _ _ V Sn Hcache) as [U1 U2].
  pose proof (batch_stored (K := K) w0 ltac:(lia) _ _ _ _ _ A (λ j Hj, conj (Tr j Hj) (Fs j Hj))) as Hst.
  split_and!; [apply Hh|apply I|lia| | |unfold bs; nia| |apply (active_slots _ _ I)|].
  - intros q Hq'. apply Hv. left. rewrite HD. split; [lia|done].
  - intros j Hj. apply tracked_stored; auto.
  - intros i Hi. rewrite (as_items _ _ _ _ A) in Hi. apply list_elem_of_fmap in Hi as ([j i'] & -> & Hi).
    destruct (duty_job _ _ _ _ A j i' Hi) as [Hj Sv]. exists j. simpl. split_and!; [done|symmetry; by apply (serves_seq j)|].
    by eapply (serves_stored (K := K) w0); [lia|apply Tr|apply Fs|].
  - intros Hne. eapply batch_ready; [exact (asks_tame K w P)|exact (proper_fit _ _ P)|apply Hh|exact Hso| |exact Hne|apply (active_slots _ _ I)|exact A].
    unfold len. pose proof (proper_ids _ _ P). lia.
Qed.

End Scheduler.

(** ** llama.cpp *)

Section Llama.
Context {M V C S Lg : Type} `{HA : LlamaApi M V C S} `{HL : !LlamaLaws M V C S} `{!LlamaSeqs M C S Lg} `{HS : !LlamaSeqLaws M V C S Lg} `{HX : !LlamaExact M V C S Lg}.
Variable clock : nat → TimePoint.

(** The cells of some sequences. *)
Definition occupancy (c : C) (qs : list SeqId) : N := total (λ q, len (cells c q)) qs.

(** The backend decodes a batch of tokens it has cells for: [n_ctx] for all sequences
    together, and [n_ctx_seq] for each. *)
Definition roomy : Prop := ∀ (c : C) b qs,
  one_each b → (0 < b_n_tokens b)%Z → NoDup qs → (∀ q, q ∉ qs → cells c q = []) →
  occupancy c qs + len (LlamaModelEngine.live b) ≤ llama_n_ctx c →
  (∀ q, q ∈ s_seq_id <$> LlamaModelEngine.live b →
     len (cells c q) + len (cells_for q (LlamaModelEngine.live b)) ≤ llama_n_ctx_seq c) →
  (llama_decode c b).1 = 0%Z.

(** A context that has been fed [n] tokens has [n] cells. *)
Lemma grown_cells (w0 : Fixture) (c : list (Pos * Token) * option S) n : grown w0 c n → len c.1 = n.
Proof.
  induction 1 as [p c [k ->]|c n ts _ IH|c n _ IH]; simpl; [done| |].
  - rewrite len_app, IH. f_equal. unfold len, laid. by rewrite length_imap.
  - destruct c.2 as [s|]; [|done]. by destruct (draw s _).
Qed.

Lemma view_cells (e : LlamaModelEngine.t M V C S) q c : ctx e q = Some c → cells (LlamaModelEngine.context e) q = c.1.
Proof. simpl. by destruct (cells _ q), (LlamaModelEngine.samplers e !! q); intros [= <-]. Qed.

Lemma live_length its : len (concat (LlamaModelEngine.item_slots <$> its)) = batch_tokens its.
Proof.
  induction its as [|i its IH]; [done|]. rewrite fmap_cons, batch_tokens_cons. cbn [concat]. rewrite len_app, IH. f_equal.
  unfold len, LlamaModelEngine.item_slots. by rewrite length_imap.
Qed.

(** A batch that fits is decoded. *)
Lemma roomy_decodes (e : LlamaModelEngine.t M V C S) its qs :
  roomy → fit (weights e) → decodable e its → 0 < batch_tokens its ≤ n_batch (caps e) →
  NoDup qs → (∀ q, q ∉ qs → cells (LlamaModelEngine.context e) q = []) →
  occupancy (LlamaModelEngine.context e) qs + batch_tokens its ≤ n_ctx (caps e) →
  (∀ i, i ∈ its → len (cells (LlamaModelEngine.context e) (item_seq i)) + len (item_tokens i) ≤ n_ctx_seq (caps e)) →
  ∃ steps e', LlamaModelEngine.decode e its = (Ok steps, e').
Proof.
  intros Hr Hfit Hdec [H0 Hle] Hn Hout Hocc Hseq. apply decode_returns; [done..|]. intros b Hb Ho Hnt.
  apply (Hr _ b qs); [done|lia|done|done|by rewrite Hb, live_length|].
  rewrite Hb. intros q (s & -> & Hs)%list_elem_of_fmap. apply item_slots_elem in Hs as (i & Hi & -> & _).
  rewrite cells_for_items by (done || apply Hdec). specialize (Hseq i Hi). unfold len, laid in *. by rewrite length_imap.
Qed.

(** A scheduler over an engine as the constructor leaves it, without prefix caching and
    donors, whose requests have tokens and need, prompt and [max_tokens] together, at most
    [K < 2^31], and whose pool has room for the longest of them and is no larger than the
    context.  The bound [K] matters: a [max_tokens] near [2^32] wraps around in the check
    of the context ([make_job]) and is admitted. *)
Record hosted (lcfg : LlamaModelEngine.LlamaEngineConfig) (K : N) (w : t (LlamaModelEngine.t M V C S)) : Prop := mk_hosted {
  hosted_make : LlamaModelEngine.make lcfg = Ok (engine_ w);
  hosted_batch : n_batch (caps (engine_ w)) < 2147483648;
  hosted_fresh : fresh K w;
  hosted_K : K < 2147483648;
  hosted_ids : max_batch_size (config_ w) ≤ 2147483648;
  hosted_tokens req : req ∈ incoming w →
    LlamaModelEngine.text_tokens (LlamaModelEngine.vocab (engine_ w)) (Types.prompt (req_spec req)) true ≠ [];
  hosted_cache : prefix_caching (config_ w) = false;
  hosted_donors : prefix_donors (config_ w) = 0;
  hosted_pool : quota K (block_size (config_ w)) ≤ kv_blocks (config_ w);
  hosted_cells : block_size (config_ w) * kv_blocks (config_ w) ≤ n_ctx (caps (engine_ w));
  hosted_context : 0 < n_ctx_seq (caps (engine_ w)) }.

Lemma hosted_proper lcfg K w : hosted lcfg K w → proper K w.
Proof. intros []. by apply (llama_proper lcfg). Qed.

(** The cells of the running sequences, and of their items. *)
Lemma hosted_memory lcfg K w (l l1 : Loop (LlamaModelEngine.t M V C S)) :
  hosted lcfg K w → rtc (iterates clock (n_batch (caps (engine_ w)))) (init w) l → assembles clock l l1 →
  let e := engine_ (sched l1) in
  let its := items (build_batch (n_batch (caps (engine_ w))) (prefill_chunk (config_ w)) (active l1)).1 in
  (∀ q, q ∉ job_seq <$> active l1 → cells (LlamaModelEngine.context e) q = []) ∧
  occupancy (LlamaModelEngine.context e) (job_seq <$> active l1) + batch_tokens its ≤ n_ctx (caps (engine_ w)) ∧
  ∀ i, i ∈ its → len (cells (LlamaModelEngine.context e) (item_seq i)) + len (item_tokens i) ≤ n_ctx_seq (caps (engine_ w)).
Proof.
  intros Ho R As e its. pose proof (hosted_proper lcfg K w Ho) as P. destruct Ho as [_ _ _ _ _ _ Hcache HD Hq Hpool Hseq].
  destruct (assembled_memory clock K w l l1 P Hcache HD Hq R As) as (Aw & _ & _ & Av & Ac & At & Ai & _). fold e its in Aw, Av, Ac, At, Ai.
  assert (Hcells : ∀ j, j ∈ active l1 → len (cells (LlamaModelEngine.context e) (job_seq j)) = stored j).
  { intros j Hj. destruct (Ac j Hj) as (c & Hc & Hg). rewrite (view_cells e _ _ Hc). by eapply grown_cells. }
  split_and!.
  - intros q Hq'. by apply llama_vacant, Av.
  - unfold occupancy. rewrite total_fmap, (total_ext _ stored) by done. lia.
  - intros i Hi. destruct (Ai i Hi) as (j & Hj & <- & Hs). rewrite (Hcells j Hj). rewrite law_caps in Hseq |- *. destruct Hs; lia.
Qed.

Lemma hosted_decodes lcfg K w (l l1 : Loop (LlamaModelEngine.t M V C S)) :
  hosted lcfg K w → roomy → rtc (iterates clock (n_batch (caps (engine_ w)))) (init w) l → assembles clock l l1 →
  decodes (n_batch (caps (engine_ w))) l1.
Proof.
  intros Ho Hr R As. pose proof (hosted_proper lcfg K w Ho) as P. destruct (hosted_memory lcfg K w l l1 Ho R As) as (H1 & H2 & H3).
  destruct Ho as [_ _ _ _ _ _ Hcache HD Hq _ _].
  destruct (assembled_memory clock K w l l1 P Hcache HD Hq R As) as (Aw & Acfg & Ab & _ & _ & _ & _ & An & Ar).
  assert (Hcaps : caps (engine_ (sched l1)) = caps (engine_ w)) by (by rewrite !law_caps, Aw).
  unfold decodes. rewrite Acfg. intros Hits. destruct (Ar Hits) as (Hfit & Hdec & Hpos).
  apply (roomy_decodes _ _ (job_seq <$> active l1)); rewrite ?Hcaps; done.
Qed.



End Llama.

(** ** A backend with sixty-four cells *)

Module CellMemory.
Import CellLlama.

Lemma cells_covered (l : list (SeqId * (Pos * Token))) qs :
  NoDup qs → (∀ q, q ∉ qs → cells_in l q = []) → len l ≤ total (λ q, len (cells_in l q)) qs.
Proof.
  intros Hn Hout. assert (Hin : ∀ x, x ∈ l → x.1 ∈ qs).
  { intros x Hx. destruct (decide (x.1 ∈ qs)) as [?|Hq]; [done|]. apply Hout in Hq.
    assert (Hc : x.2 ∈ cells_in l x.1) by (apply list_elem_of_fmap_2, list_elem_of_filter; done).
    rewrite Hq in Hc. by apply not_elem_of_nil in Hc. }
  clear Hout. induction l as [|x l IH]; [unfold len; simpl; lia|].
  specialize (IH ltac:(intros; apply Hin; set_solver)). specialize (Hin x ltac:(set_solver)).
  apply list_elem_of_split in Hin as (k1 & k2 & ->). apply NoDup_app in Hn as (_ & Hd & [Hx Hn]%NoDup_cons).
  assert (Hle : ∀ k, total (λ q, len (cells_in l q)) k ≤ total (λ q, len (cells_in (x :: l) q)) k).
  { intros k. apply total_le. intros q _. unfold cells_in, len. rewrite !length_fmap.
    destruct (decide (x.1 = q)); [rewrite filter_cons_True by done|by rewrite filter_cons_False]. simpl. lia. }
  rewrite len_cons. rewrite total_app, total_cons in *. pose proof (Hle k1). pose proof (Hle k2).
  assert (len (cells_in (x :: l) x.1) = len (cells_in l x.1) + 1) by (unfold cells_in; by rewrite filter_cons_True, fmap_cons, len_cons by done). lia.
Qed.

Lemma cell_roomy : roomy (M := unit) (V := unit) (C := Ctx) (S := list ToyLlama.Stage).
Proof.
  intros c b qs _ H0 Hn Hout Hocc _. simpl in *. unfold decode. destruct (Z.leb_spec (b_n_tokens b) 0); [lia|].
  destruct (N.ltb_spec 64 (len (kv c ++ (entry <$> LlamaModelEngine.live b)))) as [Hlt|]; [|done].
  pose proof (cells_covered (kv c) qs Hn Hout). unfold occupancy in Hocc. simpl in Hocc.
  rewrite len_app in Hlt. unfold len in *. rewrite length_fmap in Hlt. lia.
Qed.

(** Two requests in a pool that one of them can fill. *)
Definition tight : t (LlamaModelEngine.t unit unit Ctx (list ToyLlama.Stage)) :=
  make e0 (RequestQueue.make 8) (mkConfig 2 kContinuous 7 2 0 false 128)
    (demo_env [[ASubmit (demo_req 1 "a" 7); ASubmit (demo_req 2 "b" 7)]; [AClose]]).

Lemma tight_incoming : incoming tight = [demo_req 1 "a" 7; demo_req 2 "b" 7].
Proof. vm_compute. reflexivity. Qed.

Lemma tight_fresh : fresh 10 tight.
Proof.
  split; [vm_compute; reflexivity..|]. rewrite tight_incoming.
  repeat constructor; intros e; rewrite prompt_tokens; vm_compute; discriminate.
Qed.

Lemma tight_batch : n_batch (caps (engine_ tight)) = 16.
Proof. vm_compute. reflexivity. Qed.

Lemma tight_assembles : assembles_now (after 3 tight) = true.
Proof. vm_compute. reflexivity. Qed.

(** The conditions of [hosted] evaluated on a concrete scheduler. *)
Ltac hosts fresh :=
  split; [vm_compute; reflexivity|vm_compute; reflexivity|exact fresh|lia|vm_compute; discriminate| |reflexivity|reflexivity
    |vm_compute; discriminate|vm_compute; discriminate|reflexivity];
  intros req Hin; apply list_elem_of_In in Hin; vm_compute in Hin;
  repeat (destruct Hin as [<-|Hin]; [vm_compute; discriminate|]); done.

Lemma tight_hosted : hosted model_config 10 tight.
Proof. hosts tight_fresh. Qed.


(** The same requests in a pool that has room for both. *)
Definition wide : t (LlamaModelEngine.t unit unit Ctx (list ToyLlama.Stage)) :=
  make e0 (RequestQueue.make 8) (mkConfig 2 kContinuous 0 2 0 false 128)
    (demo_env [[ASubmit (demo_req 1 "a" 7); ASubmit (demo_req 2 "b" 7)]; [AClose]]).

Lemma wide_incoming : incoming wide = [demo_req 1 "a" 7; demo_req 2 "b" 7].
Proof. vm_compute. reflexivity. Qed.

Lemma wide_fresh : fresh 10 wide.
Proof.
  split; [vm_compute; reflexivity..|]. rewrite wide_incoming.
  repeat constructor; intros e; rewrite prompt_tokens; vm_compute; discriminate.
Qed.

Lemma wide_hosted : hosted model_config 10 wide.
Proof. hosts wide_fresh. Qed.

Lemma wide_sunny : sunny 10 wide.
Proof.
  split.
  - intros [[f Hf]|[f Hf]]; [by vm_compute in Hf|]. vm_compute in Hf. set_solver.
  - vm_compute. reflexivity.
  - vm_compute. discriminate.
  - right. vm_compute. discriminate.
Qed.


End CellMemory.
