(* ===== verification/Monitor.v ===== *)
(** Mutexes and condition variables: the two blocking queues, statement by statement.

    [Queue.v] and [Sinks.v] take a locked operation as one atomic step.  Here the threads
    run the operations of [RequestQueue] and [StreamingSink] as the code is written: lock
    the mutex, test the predicate, wait (which releases the mutex and blocks), change the
    queue, unlock, and only then notify.  Threads are woken by [notify_one],
    [notify_all] or for no reason at all.  [Monitor] describes such a class by the
    sections it runs under its mutex and whom it notifies afterwards; [MonitorLaws] says
    that it notifies often enough.  The theorems hold for any number of threads. *)
From Stdlib Require Import Lia.
From stdpp Require Import base list gmap strings.
From S2P Require Import Prelude Types Timing Engine Sinks Queue.

Local Open Scope nat_scope.

(** ** Threads and their steps *)

(** What follows the critical section. *)
Inductive Notice := Quiet | One | All.

(** [section c s]: what the call [c] does under the mutex, the value it returns and whom
    it notifies; [None] when its predicate does not hold and it has to wait. *)
Class Monitor (St Call Ret : Type) := section : Call → St → option (St * Ret * Notice).

Section Threads.
Context {St Call Ret : Type} `{!Monitor St Call Ret}.

Inductive Point :=
  | Idle
  | Want (c : Call)                   (* about to lock, to enter or to test the predicate again *)
  | Inside (c : Call)                 (* holds the mutex *)
  | Waiting (c : Call)                (* blocked on the condition variable *)
  | Leaving (r : Ret) (n : Notice)    (* done, still holds the mutex *)
  | Telling (r : Ret) (n : Notice).   (* unlocked, about to notify *)

Record state := mkState {
  mem : St;
  owner : option nat;
  threads : list Point;
  history : list (Call * Ret) }.

Definition wake (p : Point) : Point := match p with Waiting c => Want c | _ => p end.
Definition blocked (p : Point) : bool := match p with Waiting _ => true | _ => false end.

Definition after_unlock (r : Ret) (n : Notice) : Point := match n with Quiet => Idle | _ => Telling r n end.

(** What the threads do by themselves. *)
Inductive mstep : state → state → Prop :=
  | m_lock s i c :
      threads s !! i = Some (Want c) → owner s = None →
      mstep s (mkState (mem s) (Some i) (<[i := Inside c]> (threads s)) (history s))
  | m_wait s i c :
      threads s !! i = Some (Inside c) → section c (mem s) = None →
      mstep s (mkState (mem s) None (<[i := Waiting c]> (threads s)) (history s))
  | m_section s i c m r n :
      threads s !! i = Some (Inside c) → section c (mem s) = Some (m, r, n) →
      mstep s (mkState m (owner s) (<[i := Leaving r n]> (threads s)) (history s ++ [(c, r)]))
  | m_unlock s i r n :
      threads s !! i = Some (Leaving r n) →
      mstep s (mkState (mem s) None (<[i := after_unlock r n]> (threads s)) (history s))
  | m_notify s i j r c :
      threads s !! i = Some (Telling r One) → threads s !! j = Some (Waiting c) →
      mstep s (mkState (mem s) (owner s) (<[i := Idle]> (<[j := Want c]> (threads s))) (history s))
  | m_notify_nobody s i r :
      threads s !! i = Some (Telling r One) → Forall (λ p, blocked p = false) (threads s) →
      mstep s (mkState (mem s) (owner s) (<[i := Idle]> (threads s)) (history s))
  | m_notify_all s i r :
      threads s !! i = Some (Telling r All) →
      mstep s (mkState (mem s) (owner s) (<[i := Idle]> (wake <$> threads s)) (history s)).

(** What happens to them: calls, and wakeups for no reason. *)
Inductive estep : state → state → Prop :=
  | e_call s i c :
      threads s !! i = Some Idle →
      estep s (mkState (mem s) (owner s) (<[i := Want c]> (threads s)) (history s))
  | e_spurious s i c :
      threads s !! i = Some (Waiting c) →
      estep s (mkState (mem s) (owner s) (<[i := Want c]> (threads s)) (history s)).

Definition step (s s' : state) : Prop := mstep s s' ∨ estep s s'.

Definition start (m : St) (n : nat) : state := mkState m None (replicate n Idle) [].

(** The calls one after the other, in the order of their sections. *)
Fixpoint replay (m : St) (h : list (Call * Ret)) (m' : St) : Prop :=
  match h with
  | [] => m' = m
  | (c, r) :: h' => ∃ m1 n, section c m = Some (m1, r, n) ∧ replay m1 h' m'
  end.

End Threads.

Arguments Point Call Ret : clear implicits.
Arguments state St Call Ret : clear implicits.

(** ** Whom to wake

    [avail s]: for how many waiting calls the predicate would hold, one after the other;
    [None] for all of them. *)
Class MonitorLaws (St Call Ret : Type) `{!Monitor St Call Ret} := {
  waits : Call → bool;
  avail : St → option nat;
  law_wait c s : section c s = None ↔ waits c = true ∧ avail s = Some 0;
  law_take c s s' r n :
    waits c = true → section c s = Some (s', r, n) →
    n = Quiet ∧ ∀ a, avail s = Some a → ∃ a', avail s' = Some a' ∧ a' + 1 ≤ a;
  law_give c s s' r n :
    waits c = false → section c s = Some (s', r, n) →
    n = All ∨ ∀ a, avail s = Some a → ∃ a', avail s' = Some a' ∧ a' ≤ a + (if n is One then 1 else 0) }.

(** ** The invariant *)

Lemma sum_insert {A} (f : A → nat) (l : list A) i x y :
  l !! i = Some x → sum_list_with f (<[i := y]> l) + f x = sum_list_with f l + f y.
Proof.
  revert i. induction l as [|z l IH]; intros [|i]; simpl; try done; [intros [= ->]; lia|]. intros Hi. specialize (IH i Hi). lia.
Qed.

Lemma sum_fmap {A B} (f : B → nat) (g : A → B) (l : list A) : sum_list_with f (g <$> l) = sum_list_with (λ x, f (g x)) l.
Proof. induction l as [|x l IH]; [done|]. rewrite fmap_cons. cbn [sum_list_with]. by rewrite IH. Qed.

Lemma sum_bound {A} (f g : A → nat) (l : list A) k :
  (∀ x, x ∈ l → f x ≤ g x + k) → sum_list_with f l ≤ sum_list_with g l + k * length l.
Proof.
  induction l as [|x l IH]; intros Hf; simpl; [lia|]. specialize (Hf x) as Hx. specialize (IH ltac:(set_solver)).
  specialize (Hx ltac:(set_solver)). lia.
Qed.

Section Laws.
Context {St Call Ret : Type} `{!Monitor St Call Ret} `{!MonitorLaws St Call Ret}.

Implicit Types (p : Point Call Ret) (s : state St Call Ret).

Definition holds (p : Point Call Ret) : bool := match p with Inside _ | Leaving _ _ => true | _ => false end.

(** A thread that will take what is available, or wake one that will. *)
Definition credit (p : Point Call Ret) : nat :=
  match p with
  | Want c | Inside c => if waits c then 1 else 0
  | Leaving _ One | Telling _ One => 1
  | _ => 0
  end.

(** A thread that will wake everybody. *)
Definition calls_all (p : Point Call Ret) : Prop :=
  match p with Leaving _ All | Telling _ All => True | _ => False end.

Record good (s : state St Call Ret) : Prop := mk_good {
  g_mutex : ∀ i p, threads s !! i = Some p → holds p = true ↔ owner s = Some i;
  g_owner : ∀ i, owner s = Some i → is_Some (threads s !! i);
  g_waits : ∀ i c, threads s !! i = Some (Waiting c) → waits c = true;
  g_told : ∀ i r, threads s !! i ≠ Some (Telling r Quiet);
  g_wake : ∀ i c, threads s !! i = Some (Waiting c) →
    (∃ j p, threads s !! j = Some p ∧ calls_all p) ∨
    ∃ a, avail (mem s) = Some a ∧ a ≤ sum_list_with credit (threads s) }.

Lemma good_start m n : good (start m n).
Proof.
  split; cbn [start threads owner mem]; [| |intros i c|intros i r|intros i c];
    try (intros Hl; apply lookup_replicate in Hl as [? _]; done); [|done].
  intros i p [-> _]%lookup_replicate. done.
Qed.

(** Changing one thread that is not blocked, before and after. *)
Lemma good_insert s i p q m o h :
  good s → threads s !! i = Some p → blocked q = false → (∀ r, q ≠ Telling r Quiet) →
  (∀ j, o = Some j ↔ if decide (j = i) then holds q = true else owner s = Some j) →
  (calls_all p → calls_all q) →
  (∀ a, avail (mem s) = Some a → calls_all q ∨ ∃ a', avail m = Some a' ∧ a' + credit p ≤ a + credit q) →
  good (mkState m o (<[i := q]> (threads s)) h).
Proof.
  intros [G1 G2 G3 G4 G5] Hi Hb Ht Ho Hc Ha. assert (Hlt : i < length (threads s)) by (by eapply lookup_lt_Some).
  split; cbn [threads owner mem].
  - intros j p' Hj. rewrite Ho. apply list_lookup_insert_Some in Hj as [(-> & -> & _)|[Hne Hj]].
    + by rewrite decide_True.
    + rewrite decide_False by done. by apply G1.
  - intros j Hj. apply Ho in Hj. rewrite list_lookup_insert_is_Some. destruct (decide (j = i)) as [->|]; [by rewrite Hi|auto].
  - intros j c Hj. apply list_lookup_insert_Some in Hj as [(-> & -> & _)|[Hne Hj]]; [done|eauto].
  - intros j r Hj. apply list_lookup_insert_Some in Hj as [(-> & -> & _)|[Hne Hj]]; [by eapply Ht|by eapply G4].
  - intros j c Hj. apply list_lookup_insert_Some in Hj as [(-> & -> & _)|[Hne Hj]]; [done|].
    destruct (G5 j c Hj) as [(k & p' & Hk & Hp')|(a & Ea & Hle)].
    + left. destruct (decide (k = i)) as [->|Hki].
      * exists i, q. rewrite Hi in Hk. injection Hk as <-. rewrite list_lookup_insert_eq by done. auto.
      * exists k, p'. rewrite list_lookup_insert_ne by done. done.
    + destruct (Ha a Ea) as [Hq|(a' & Ea' & Hle')].
      * left. exists i, q. by rewrite list_lookup_insert_eq.
      * right. exists a'. split; [done|]. pose proof (sum_insert credit _ i p q Hi). lia.
Qed.

(** Notifying and waking threads. *)
Lemma good_wake s ts h :
  good s → length ts = length (threads s) →
  (∀ i q, ts !! i = Some q → ∃ p, threads s !! i = Some p ∧ holds q = holds p ∧ (∀ r, q ≠ Telling r Quiet) ∧ (blocked q = true → q = p)) →
  (Exists (λ p, blocked p = true) ts →
    (∀ i p, threads s !! i = Some p → calls_all p → ts !! i = Some p) ∧
    sum_list_with credit (threads s) ≤ sum_list_with credit ts) →
  good (mkState (mem s) (owner s) ts h).
Proof.
  intros [G1 G2 G3 G4 G5] Hl Hp Hw. split; cbn [threads owner mem].
  - intros i q Hq. destruct (Hp i q Hq) as (p & Hi & -> & _). by apply G1.
  - intros i Ho. apply lookup_lt_is_Some. rewrite Hl. by apply lookup_lt_is_Some, G2.
  - intros i c Hi. destruct (Hp i _ Hi) as (p & Hpi & _ & _ & Hb). rewrite <- (Hb eq_refl) in Hpi. eauto.
  - intros i r Hi. destruct (Hp i _ Hi) as (p & _ & _ & Ht & _). by apply (Ht r).
  - intros i c Hi. destruct (Hp i _ Hi) as (p & Hpi & _ & _ & Hb). rewrite <- (Hb eq_refl) in Hpi.
    destruct Hw as [W1 W2]; [apply Exists_exists; exists (Waiting c); split; [by eapply list_elem_of_lookup_2|done]|].
    destruct (G5 i c Hpi) as [(j & p' & Hj & Hc)|(a & Ea & Hle)]; [left; exists j, p'; auto|right; exists a; split; [done|lia]].
Qed.

Lemma mutex_owner s i p : good s → threads s !! i = Some p → holds p = true → owner s = Some i.
Proof. intros G Hi Hp. by apply (g_mutex _ G i p). Qed.

Lemma exclusive s i j p q :
  good s → threads s !! i = Some p → threads s !! j = Some q → holds p = true → holds q = true → i = j.
Proof. intros G Hi Hj Hp%(mutex_owner _ _ _ G Hi) Hq%(mutex_owner _ _ _ G Hj). congruence. Qed.

(** Waiting: nothing is available. *)
Lemma good_wait s i c :
  good s → threads s !! i = Some (Inside c) → section c (mem s) = None →
  good (mkState (mem s) None (<[i := Waiting c]> (threads s)) (history s)).
Proof.
  intros G Hi [Hw Ha]%law_wait. pose proof (mutex_owner _ _ _ G Hi eq_refl) as Ho. pose proof G as [G1 G2 G3 G4 G5].
  split; cbn [threads owner mem].
  - intros j p' Hj. apply list_lookup_insert_Some in Hj as [(-> & <- & _)|[Hne Hj]]; [done|]. rewrite (G1 j p' Hj), Ho.
    split; [by intros [= ->]|done].
  - done.
  - intros j c' Hj. apply list_lookup_insert_Some in Hj as [(-> & [= <-] & _)|[Hne Hj]]; [done|eauto].
  - intros j r Hj. apply list_lookup_insert_Some in Hj as [(-> & ? & _)|[Hne Hj]]; [done|by eapply G4].
  - intros j c' _. right. exists 0. split; [done|lia].
Qed.

Lemma blocked_Waiting p : blocked p = true → ∃ c, p = Waiting c.
Proof. destruct p; try done. eauto. Qed.

Lemma good_notify s i j r c h :
  good s → threads s !! i = Some (Telling r One) → threads s !! j = Some (Waiting c) →
  good (mkState (mem s) (owner s) (<[i := Idle]> (<[j := Want c]> (threads s))) h).
Proof.
  intros G Hi Hj. assert (Hij : i ≠ j) by (intros ->; congruence). pose proof (g_waits _ G j c Hj) as Hw.
  apply good_wake; [done|by rewrite !length_insert| |].
  - intros k q Hk. apply list_lookup_insert_Some in Hk as [(-> & <- & _)|[Hki Hk]]; [by exists (Telling r One)|].
    apply list_lookup_insert_Some in Hk as [(-> & <- & _)|[Hkj Hk]]; [by exists (Waiting c)|].
    exists q. split_and!; try done. intros r' ->. by apply (g_told _ G k r').
  - intros _. split.
    + intros k p Hk Hc. rewrite !list_lookup_insert_ne; [done| |]; intros <-; [rewrite Hj in Hk|rewrite Hi in Hk]; by injection Hk as <-.
    + pose proof (sum_insert credit _ j _ (Want c) Hj) as S1. pose proof (sum_insert credit (<[j := Want c]> (threads s)) i (Telling r One) Idle) as S2.
      rewrite list_lookup_insert_ne in S2 by done. specialize (S2 Hi). simpl in S1, S2. rewrite Hw in S1. lia.
Qed.

Lemma good_section s i c m r n :
  good s → threads s !! i = Some (Inside c) → section c (mem s) = Some (m, r, n) →
  good (mkState m (owner s) (<[i := Leaving r n]> (threads s)) (history s ++ [(c, r)])).
Proof.
  intros G Hi Hs. pose proof (mutex_owner _ _ _ G Hi eq_refl) as Ho. apply (good_insert s i (Inside c)); try done.
  - intros j. rewrite Ho. case_decide as Ej; [by subst|]. split; [by intros [= ->]|by intros [= ->]].
  - intros a Ea. simpl. destruct (waits c) eqn:Ew.
    + destruct (law_take _ _ _ _ _ Ew Hs) as [-> Ht]. destruct (Ht a Ea) as (a' & E' & Hle). right. exists a'. split; [done|lia].
    + destruct (law_give _ _ _ _ _ Ew Hs) as [->|Hg]; [by left|]. destruct (Hg a Ea) as (a' & E' & Hle).
      destruct n; [right; exists a'; split; [done|lia]..|by left].
Qed.

Lemma mstep_good s s' : mstep s s' → good s → good s'.
Proof.
  intros Hst G. destruct Hst as [s i c Hi Ho|s i c Hi Hs|s i c m r n Hi Hs|s i r n Hi|s i j r c Hi Hj|s i r Hi Hn|s i r Hi].
  - apply (good_insert s i (Want c)); try done.
    + intros j. rewrite Ho. case_decide; split; intros E0; try done; [by subst|by injection E0].
    + intros a Ea. right. exists a. split; [done|simpl; lia].
  - by apply good_wait.
  - by eapply good_section.
  - pose proof (mutex_owner _ _ _ G Hi eq_refl) as Ho. apply (good_insert s i (Leaving r n)); try done; try by destruct n.
    + intros j. rewrite Ho. case_decide as Ej; (split; [done|]); [by destruct n|by intros [= ->]].
    + intros a Ea. destruct n; simpl; [|right|by left]; right || idtac; exists a; (split; [done|simpl; lia]).
  - by eapply good_notify.
  - apply good_wake; [done|by rewrite length_insert| |].
    + intros k q Hk. apply list_lookup_insert_Some in Hk as [(-> & <- & _)|[Hki Hk]]; [by exists (Telling r One)|].
      exists q. split_and!; try done. intros r' ->. by apply (g_told _ G k r').
    + intros (p & Hp & Hb)%Exists_exists. apply list_elem_of_lookup in Hp as [k Hk].
      apply list_lookup_insert_Some in Hk as [(-> & <- & _)|[Hki Hk]]; [done|]. rewrite Forall_forall in Hn.
      apply list_elem_of_lookup_2, Hn in Hk. congruence.
  - apply good_wake; [done|by rewrite length_insert, length_fmap| |].
    + intros k q Hk. apply list_lookup_insert_Some in Hk as [(-> & <- & _)|[Hki Hk]]; [by exists (Telling r All)|].
      rewrite list_lookup_fmap in Hk. apply fmap_Some in Hk as (p & Hk & ->). exists p. split_and!; [done|by destruct p| |by destruct p].
      intros r' Hr. destruct p; try done. simpl in Hr. injection Hr as -> ->. by apply (g_told _ G k r').
    + intros (p & Hp & Hb)%Exists_exists. apply list_elem_of_lookup in Hp as [k Hk].
      apply list_lookup_insert_Some in Hk as [(-> & <- & _)|[Hki Hk]]; [done|]. rewrite list_lookup_fmap in Hk.
      apply fmap_Some in Hk as (p' & _ & ->). by destruct p'.
Qed.

Lemma estep_good s s' : estep s s' → good s → good s'.
Proof.
  intros Hst G. destruct Hst as [s i c Hi|s i c Hi]; apply (good_insert s i _ (Want c) _ _ _ G Hi); try done.
  1,3: intros j; case_decide as Ej; [subst; rewrite <- (g_mutex _ G i _ Hi); done|done].
  all: intros a Ea; right; exists a; split; [done|simpl; lia].
Qed.

Lemma reachable_good m n s : rtc step (start m n) s → good s.
Proof.
  intros R. remember (start m n) as s0 eqn:E0. assert (G : good s0) by (subst; apply good_start). clear E0.
  induction R as [|s0 s1 s2 [Hst|Hst] _ IH]; [done|eauto using mstep_good|eauto using estep_good].
Qed.

(** ** Calls return

    The steps a thread has before it, when [k] threads may have to be woken. *)
Definition tell (k : nat) (n : Notice) : nat := match n with Quiet => 0 | One => 4 | All => 3 * k + 1 end.

Definition weight (k : nat) (p : Point Call Ret) : nat :=
  match p with
  | Idle | Waiting _ => 0
  | Want c => if waits c then 3 else 3 * k + 7
  | Inside c => if waits c then 2 else 3 * k + 6
  | Leaving _ n => 1 + tell k n
  | Telling _ n => tell k n
  end.

Definition effort (s : state St Call Ret) : nat := sum_list_with (weight (length (threads s))) (threads s).

Lemma effort_insert s i p q m o h :
  threads s !! i = Some p → weight (length (threads s)) q < weight (length (threads s)) p →
  effort (mkState m o (<[i := q]> (threads s)) h) < effort s.
Proof.
  intros Hi Hw. unfold effort. cbn [threads]. rewrite length_insert.
  pose proof (sum_insert (weight (length (threads s))) _ i p q Hi). lia.
Qed.

(** Every step a thread takes by itself brings the calls nearer to their end. *)
Lemma mstep_effort s s' : mstep s s' → good s → effort s' < effort s.
Proof.
  intros Hst G. destruct Hst as [s i c Hi Ho|s i c Hi Hs|s i c m r n Hi Hs|s i r n Hi|s i j r c Hi Hj|s i r Hi Hn|s i r Hi].
  - apply (effort_insert s i (Want c)); [done|]. simpl. destruct (waits c); lia.
  - apply (effort_insert s i (Inside c)); [done|]. simpl. destruct (waits c); lia.
  - apply (effort_insert s i (Inside c)); [done|]. simpl. destruct (waits c) eqn:Ew; [destruct (law_take _ _ _ _ _ Ew Hs) as [-> _]; simpl; lia|].
    destruct n; simpl; lia.
  - apply (effort_insert s i (Leaving r n)); [done|]. destruct n; simpl; lia.
  - assert (Hij : i ≠ j) by (intros ->; congruence). pose proof (g_waits _ G j c Hj) as Hw. unfold effort. cbn [threads]. rewrite !length_insert.
    set (k := length (threads s)). pose proof (sum_insert (weight k) _ j _ (Want c) Hj) as S1.
    pose proof (sum_insert (weight k) (<[j := Want c]> (threads s)) i (Telling r One) Idle) as S2.
    rewrite list_lookup_insert_ne in S2 by done. specialize (S2 Hi). simpl in S1, S2. rewrite Hw in S1. lia.
  - apply (effort_insert s i (Telling r One)); [done|]. simpl. lia.
  - unfold effort. cbn [threads]. rewrite length_insert, length_fmap. set (k := length (threads s)).
    pose proof (sum_insert (weight k) (wake <$> threads s) i (Telling r All) Idle) as S1.
    rewrite list_lookup_fmap, Hi in S1. specialize (S1 eq_refl). simpl in S1.
    assert (Hb : sum_list_with (weight k) (wake <$> threads s) ≤ sum_list_with (weight k) (threads s) + 3 * k).
    { rewrite sum_fmap. apply sum_bound. intros p [x Hp]%list_elem_of_lookup. simpl. destruct p as [|c|c|c|r' n|r' n]; simpl; try lia.
      rewrite (g_waits _ G x c Hp). lia. }
    lia.
Qed.

Lemma run_effort k s s' : nsteps mstep k s s' → good s → k + effort s' ≤ effort s.
Proof.
  intros R. induction R as [|k s1 s2 s3 Hst _ IH]; intros G; [lia|]. pose proof (mstep_effort _ _ Hst G).
  specialize (IH (mstep_good _ _ Hst G)). lia.
Qed.

Lemma run_bounded k s s' : nsteps mstep k s s' → good s → k ≤ effort s.
Proof. intros R G. pose proof (run_effort _ _ _ R G). lia. Qed.

(** Nothing moves any more: nobody is in the middle of a call, and whoever waits does so
    for good reason. *)
Definition at_rest (s : state St Call Ret) : Prop := ∀ s', ¬ mstep s s'.

Lemma rest_waits s :
  good s → at_rest s →
  ∀ i p, threads s !! i = Some p → p = Idle ∨ ∃ c, p = Waiting c ∧ section c (mem s) = None.
Proof.
  intros G Hr.
  assert (Hin : ∀ i c, threads s !! i ≠ Some (Inside c)).
  { intros i c Hi. destruct (section c (mem s)) as [[[m r] n]|] eqn:Es; eapply Hr; [by eapply m_section|by eapply m_wait]. }
  assert (Hle : ∀ i r n, threads s !! i ≠ Some (Leaving r n)) by (intros i r n Hi; eapply Hr; by eapply m_unlock).
  assert (Hno : owner s = None).
  { destruct (owner s) as [i|] eqn:Eo; [|done]. destruct (g_owner _ G i Eo) as [p Hp]. pose proof (proj2 (g_mutex _ G i p Hp) Eo) as Hh.
    destruct p; try done; [by destruct (Hin i c)|by destruct (Hle i r n)]. }
  assert (Hall : ∀ i p, threads s !! i = Some p → p = Idle ∨ blocked p = true).
  { intros i p Hi. destruct p as [|c|c|c|r n|r n]; [by left|..|by right| |].
    - destruct (Hr _ (m_lock s i c Hi Hno)).
    - by destruct (Hin i c).
    - by destruct (Hle i r n).
    - destruct n; [by destruct (g_told _ G i r)| |destruct (Hr _ (m_notify_all s i r Hi))].
      destruct (decide (Forall (λ p, blocked p = false) (threads s))) as [Hn|Hn]; [destruct (Hr _ (m_notify_nobody s i r Hi Hn))|].
      apply not_Forall_Exists in Hn; [|apply _]. apply Exists_exists in Hn as (q & [j Hj]%list_elem_of_lookup & Hq).
      destruct (blocked_Waiting q) as [c ->]; [by apply not_false_is_true|]. destruct (Hr _ (m_notify s i j r c Hi Hj)). }
  intros i p Hi. destruct (Hall i p Hi) as [->|[c ->]%blocked_Waiting]; [by left|right]. exists c. split; [done|].
  apply law_wait. split; [by apply (g_waits _ G i)|].
  assert (Hz : sum_list_with credit (threads s) = 0).
  { assert (Hf : Forall (λ p, credit p = 0) (threads s)).
    { apply Forall_forall. intros q [j Hj]%list_elem_of_lookup. destruct (Hall j q Hj) as [->|[c' ->]%blocked_Waiting]; done. }
    clear -Hf. induction Hf as [|q l Hq _ IH]; simpl; [done|]. by rewrite Hq, IH. }
  destruct (g_wake _ G i c Hi) as [(j & q & Hj & Hq)|(a & Ea & Hle')].
  - destruct (Hall j q Hj) as [->|[c' ->]%blocked_Waiting]; done.
  - rewrite Ea. f_equal. lia.
Qed.

(** ** Sections happen one after the other *)

Lemma replay_snoc (m m1 m2 : St) h c (r : Ret) n :
  replay m h m1 → section c m1 = Some (m2, r, n) → replay m (h ++ [(c, r)]) m2.
Proof.
  revert m. induction h as [|[c' r'] h IH]; intros m; simpl; [intros ->; intros Hs; by exists m2, n|].
  intros (m' & n' & H1 & H2) Hs. exists m', n'. auto.
Qed.

Lemma reachable_replay m n s : rtc step (start m n) s → replay m (history s) (mem s).
Proof.
  intros R. assert (G : ∀ s0, rtc step s0 s → replay m (history s0) (mem s0) → replay m (history s) (mem s)); [|by apply (G _ R)].
  clear R. intros s0 R. induction R as [|s0 s1 s2 Hst _ IH]; [done|]. intros H0. apply IH.
  destruct Hst as [Hst|Hst]; destruct Hst; try done. simpl. by eapply replay_snoc.
Qed.

End Laws.

(** One step of a concrete run. *)
Ltac go step := eapply rtc_l; [step; reflexivity|cbn].

(** ** [RequestQueue] *)

Module QueueMonitor.
Import RequestQueue.

Inductive Call :=
  | CPush (req : Request)
  | CPop
  | CTryPop
  | CPushFront (req : Request)
  | CClose
  | CClosed
  | CSize.

Inductive Ret := RBool (b : bool) | RReq (o : option Request) | RVoid | RSize (n : N).

(** [try_push] and [push_front] notify one consumer when they have put a request in,
    [close] notifies all of them. *)
Definition queue_section (c : Call) (q : t) : option (t * Ret * Notice) :=
  match c with
  | CPush req => let (ok, q') := try_push q req in Some (q', RBool ok, if ok then One else Quiet)
  | CPop => match pop q with Some (o, q') => Some (q', RReq o, Quiet) | None => None end
  | CTryPop => let (o, q') := try_pop q in Some (q', RReq o, Quiet)
  | CPushFront req => let (ok, q') := push_front q req in Some (q', RBool ok, if ok then One else Quiet)
  | CClose => Some (close q, RVoid, All)
  | CClosed => Some (q, RBool (closed q), Quiet)
  | CSize => Some (q, RSize (size q), Quiet)
  end.

#[export] Instance queue_monitor : Monitor t Call Ret := queue_section.

(** Once closed the queue lets every [pop] through, until then one per request. *)
Definition available (q : t) : option nat := if closed_ q then None else Some (length (queue_ q)).

Definition is_pop (c : Call) : bool := match c with CPop => true | _ => false end.

#[export, refine] Instance queue_laws : MonitorLaws t Call Ret := {| waits := is_pop; avail := available |}.
Proof.
  - intros c q. unfold available. destruct c; simpl; unfold section, queue_monitor, queue_section;
      [destruct (try_push q req)|unfold pop|destruct (try_pop q)|destruct (push_front q req)|..]; try (split; [done|by intros []]).
    destruct (queue_ q), (closed_ q); split; try done; by intros [].
  - intros c q q' r n Hw Hs. destruct c; try done. unfold section, queue_monitor, queue_section, pop in Hs. unfold available.
    destruct (queue_ q) as [|r0 rest] eqn:Eq; [destruct (closed_ q) eqn:Ec; [|done]|]; injection Hs as <- <- <-; (split; [done|]);
      intros a Ha; [done|]. simpl. destruct (closed_ q); [done|]. injection Ha as <-. exists (length rest). simpl. split; [done|lia].
  - intros c q q' r n Hw Hs. unfold available. destruct c; try done; unfold section, queue_monitor, queue_section in Hs.
    + unfold try_push in Hs. destruct (_ || _) eqn:Eo; injection Hs as <- <- <-; right; intros a Ha.
      * exists a. split; [done|lia].
      * simpl. destruct (closed_ q); [done|]. injection Ha as <-. eexists. split; [done|]. unfold push_back. rewrite length_app. simpl. lia.
    + unfold try_pop in Hs. destruct (queue_ q) as [|r0 rest] eqn:Eq; injection Hs as <- <- <-; right; intros a Ha.
      * exists a. rewrite Eq. split; [done|lia].
      * simpl. destruct (closed_ q); [done|]. injection Ha as <-. exists (length rest). simpl. split; [done|lia].
    + unfold push_front in Hs. destruct (closed_ q) eqn:Ec; injection Hs as <- <- <-; right; intros a Ha; [done|].
      injection Ha as <-. simpl. exists (S (length (queue_ q))). split; [done|lia].
    + injection Hs as <- <- <-. by left.
    + injection Hs as <- <- <-. right. intros a Ha. exists a. split; [done|lia].
    + injection Hs as <- <- <-. right. intros a Ha. exists a. split; [done|lia].
Defined.

(** The requests that calls have put in and taken out, in order. *)
Definition put_in (h : list (Call * Ret)) : list Request :=
  omap (λ x, match x with (CPush req, RBool true) => Some req | _ => None end) h.
Definition taken (h : list (Call * Ret)) : list Request :=
  omap (λ x, match x with (CPop, RReq o) | (CTryPop, RReq o) => o | _ => None end) h.
Definition no_push_front (h : list (Call * Ret)) : Prop :=
  Forall (λ x, match x.1 with CPushFront _ => False | _ => True end) h.

(** The sections of concurrent calls are steps of the atomic queue. *)
Lemma replay_refines m h m' acc out :
  no_push_front h → replay m h m' → rtc qstep (mkTrace m acc out) (mkTrace m' (acc ++ put_in h) (out ++ taken h)).
Proof.
  revert m acc out. induction h as [|[c r] h IH]; intros m acc out Hp; simpl.
  { intros ->. rewrite !app_nil_r. done. }
  apply Forall_cons in Hp as [Hc Hp]. intros (m1 & n & Hs & Hr). unfold put_in, taken. cbn [omap list_omap]. fold (put_in h) (taken h).
  unfold section, queue_monitor, queue_section in Hs. destruct c as [req| | |req| | |]; try done.
  - destruct (try_push m req) as [ok q'] eqn:Eq. injection Hs as <- <- _. eapply rtc_l; [by eapply q_push|]. specialize (IH _ (if ok then acc ++ [req] else acc) out Hp Hr).
    destruct ok; [by rewrite <- app_assoc in IH|done].
  - destruct (pop m) as [[o q']|] eqn:Eq; [|done]. injection Hs as <- <- _. eapply rtc_l; [by eapply q_pop|]. specialize (IH _ acc (out ++ option_list o) Hp Hr).
    destruct o; cbn [option_list] in IH |- *; [by rewrite <- app_assoc in IH|rewrite app_nil_r in IH |- *; exact IH].
  - destruct (try_pop m) as [o q'] eqn:Eq. injection Hs as <- <- _. eapply rtc_l; [by eapply q_try_pop|]. specialize (IH _ acc (out ++ option_list o) Hp Hr).
    destruct o; cbn [option_list] in IH |- *; [by rewrite <- app_assoc in IH|rewrite app_nil_r in IH |- *; exact IH].
  - injection Hs as <- <- _. eapply rtc_l; [by eapply q_close|]. by apply IH.
  - injection Hs as <- <- _. by apply IH.
  - injection Hs as <- <- _. by apply IH.
Qed.

(** C24: the queue between the threads neither hangs nor races.  For any number of threads
    that call its operations, with every interleaving of their statements and with
    spurious wakeups: at most one thread is in a critical section; left to themselves
    the threads come to rest after a bounded number of steps; and at rest every call has
    returned, except a [pop] when the queue is empty and open.  So no wakeup is lost,
    although producers notify after they have unlocked.  As long as nobody calls
    [push_front], which puts a request at the head and ignores the capacity, the requests
    put in are those taken out followed by those waiting, in this order, and never more
    than the capacity wait, as [queue_fifo] says of atomic operations. *)
Theorem queue_calls_return cap n (s : state t Call Ret) :
  rtc step (start (make cap) n) s →
  (∀ i j p q, threads s !! i = Some p → threads s !! j = Some q → holds p = true → holds q = true → i = j) ∧
  (∀ k s', nsteps mstep k s s' → (k ≤ effort s)%nat) ∧
  (at_rest s → ∀ i p, threads s !! i = Some p →
     p = Idle ∨ (p = Waiting CPop ∧ queue_ (mem s) = [] ∧ closed_ (mem s) = false)) ∧
  (no_push_front (history s) →
     put_in (history s) = taken (history s) ++ queue_ (mem s) ∧ (size (mem s) <= cap)%N).
Proof.
  intros R. pose proof (reachable_good _ _ _ R) as G. split_and!.
  - intros i j p q. by apply exclusive.
  - intros k s' Hk. by apply run_bounded in Hk.
  - intros Hr i p Hi. destruct (rest_waits s G Hr i p Hi) as [->|(c & -> & [Hc Ha]%law_wait)]; [by left|right].
    simpl in Hc, Ha. unfold available in Ha. destruct c; try done. destruct (closed_ (mem s)); [done|].
    split_and!; try done. destruct (queue_ (mem s)); done.
  - intros Hp. pose proof (replay_refines _ _ _ [] [] Hp (reachable_replay _ _ _ R)) as Rq. simpl in Rq.
    assert (F : fifo cap (mkTrace (mem s) (put_in (history s)) (taken (history s)))); [|by destruct F as (? & ? & _)].
    assert (F0 : fifo cap (mkTrace (make cap) [] [])) by (split_and!; [done|apply N.le_0_l|done]).
    revert F0. induction Rq; [done|]. eauto using qstep_fifo.
Qed.

(** A consumer waits, a producer puts a request in and notifies it: at the end both calls
    have returned. *)
Definition handed_over : state t Call Ret :=
  mkState (make 1) None [Idle; Idle] [(CPush demo_request, RBool true); (CPop, RReq (Some demo_request))].

Lemma queue_calls_return_witness :
  rtc step (start (make 1) 2) handed_over ∧ (∀ k s', nsteps mstep k handed_over s' → (k ≤ 0)%nat) ∧
  put_in (history handed_over) = [demo_request].
Proof.
  assert (R : rtc step (start (make 1) 2) handed_over).
  { go ltac:(right; eapply (e_call _ 0 CPop)).
    go ltac:(left; eapply (m_lock _ 0)).
    go ltac:(left; eapply (m_wait _ 0)).
    go ltac:(right; eapply (e_call _ 1 (CPush demo_request))).
    go ltac:(left; eapply (m_lock _ 1)).
    go ltac:(left; eapply (m_section _ 1)).
    go ltac:(left; eapply (m_unlock _ 1)).
    go ltac:(left; eapply (m_notify _ 1 0)).
    go ltac:(left; eapply (m_lock _ 0)).
    go ltac:(left; eapply (m_section _ 0)).
    go ltac:(left; eapply (m_unlock _ 0)). apply rtc_refl. }
  destruct (queue_calls_return 1 2 handed_over R) as (_ & H2 & _ & H4). split_and!; [exact R|exact H2|].
  destruct H4 as [H4 _]; [repeat constructor|]. rewrite H4. reflexivity.
Defined.

End QueueMonitor.

(** ** [StreamingSink] *)

Module StreamMonitor.
Import StreamingSink.

Inductive Call := CPush (e : Event) | CNext.
Inductive Ret := RVoid | REvent (e : Event).

(** [push] notifies the reader, [next] waits for an event. *)
Definition stream_section (c : Call) (s : t) : option (t * Ret * Notice) :=
  match c with
  | CPush e => Some (push s e, RVoid, One)
  | CNext => match next s with Some (e, s') => Some (s', REvent e, Quiet) | None => None end
  end.

#[export] Instance stream_monitor : Monitor t Call Ret := stream_section.

#[export, refine] Instance stream_laws : MonitorLaws t Call Ret :=
  {| waits c := match c with CNext => true | _ => false end; avail s := Some (length (events_ s)) |}.
Proof.
  - intros c s. destruct c; unfold section, stream_monitor, stream_section; [split; [done|by intros []]|]. unfold next.
    destruct (events_ s); split; try done; by intros [].
  - intros c s s' r n Hw Hs. destruct c; [done|]. unfold section, stream_monitor, stream_section, next in Hs. destruct (events_ s) as [|e es] eqn:Ee; [done|].
    injection Hs as <- <- <-. split; [done|]. intros a [= <-]. exists (length es). simpl. split; [done|lia].
  - intros c s s' r n Hw Hs. destruct c; [|done]. injection Hs as <- <- <-. right. intros a [= <-]. eexists. split; [done|].
    simpl. unfold push_back. rewrite length_app. simpl. lia.
Defined.

(** The events put in and handed out, in order. *)
Definition sent (h : list (Call * Ret)) : list Event := omap (λ x, match x.1 with CPush e => Some e | _ => None end) h.
Definition received (h : list (Call * Ret)) : list Event := omap (λ x, match x.2 with REvent e => Some e | _ => None end) h.

Lemma replay_events m h m' : replay m h m' → events_ m ++ sent h = received h ++ events_ m'.
Proof.
  revert m. induction h as [|[c r] h IH]; intros m; simpl; [intros ->; by rewrite app_nil_r|]. intros (m1 & n & Hs & Hr).
  specialize (IH m1 Hr). unfold sent, received. cbn [omap list_omap fst snd]. fold (sent h) (received h). destruct c as [e|].
  - injection Hs as <- <- _. simpl in IH. unfold push_back in IH. rewrite <- app_assoc in IH. exact IH.
  - unfold section, stream_monitor, stream_section, next in Hs. destruct (events_ m) as [|e es]; [done|]. injection Hs as <- <- _. simpl in *. by rewrite IH.
Qed.

(** C25: a stream neither hangs nor loses an event.  Whatever the interleaving of the
    scheduler thread, which pushes events, and the HTTP threads that take them: at most
    one is in a critical section, left to themselves they come to rest, and at rest only
    a [next] on an empty stream is still waiting; the events received, and then those
    waiting, are the events pushed, in order. *)
Theorem stream_calls_return cancel n (s : state t Call Ret) :
  rtc step (start (make cancel) n) s →
  (∀ i j p q, threads s !! i = Some p → threads s !! j = Some q → holds p = true → holds q = true → i = j) ∧
  (∀ k s', nsteps mstep k s s' → k ≤ effort s) ∧
  (at_rest s → ∀ i p, threads s !! i = Some p → p = Idle ∨ (p = Waiting CNext ∧ events_ (mem s) = [])) ∧
  sent (history s) = received (history s) ++ events_ (mem s).
Proof.
  intros R. pose proof (reachable_good _ _ _ R) as G. split_and!.
  - intros i j p q. by apply exclusive.
  - intros k s' Hk. by apply run_bounded in Hk.
  - intros Hr i p Hi. destruct (rest_waits s G Hr i p Hi) as [->|(c & -> & [Hc Ha]%law_wait)]; [by left|right].
    destruct c; [done|]. simpl in Ha. injection Ha as Ha. split; [done|]. by destruct (events_ (mem s)).
  - exact (replay_events _ _ _ (reachable_replay _ _ _ R)).
Qed.

(** The stream's reader takes the only event. *)
Lemma stream_calls_return_witness :
  let e := mkEvent (str "hi") false kUnset no_usage [] in
  let s := mkState (make 0%N) None [Idle; Idle] [(CPush e, RVoid); (CNext, REvent e)] in
  rtc step (start (make 0%N) 2) s ∧ sent (history s) = [e].
Proof.
  intros e s. assert (R : rtc step (start (make 0%N) 2) s).
  { go ltac:(right; eapply (e_call _ 0 (CPush e))).
    go ltac:(left; eapply (m_lock _ 0)).
    go ltac:(left; eapply (m_section _ 0)).
    go ltac:(left; eapply (m_unlock _ 0)).
    go ltac:(left; eapply (m_notify_nobody _ 0); [|by repeat constructor]).
    go ltac:(right; eapply (e_call _ 1 CNext)).
    go ltac:(left; eapply (m_lock _ 1)).
    go ltac:(left; eapply (m_section _ 1)).
    go ltac:(left; eapply (m_unlock _ 1)). apply rtc_refl. }
  destruct (stream_calls_return 0%N 2 s R) as (_ & _ & _ & H4). split; [exact R|]. rewrite H4. reflexivity.
Defined.

End StreamMonitor.
